(* ===== verification/_CoqProject ===== *)
-Q . S2P
Prelude.v
JsString.v
JsObject.v
JsNumber.v
UriCodec.v
Json.v
Query.v
Console.v
Histogram.v
ConsolePages.v
ConsoleSearch.v
HomeFacts.v
SearchFacts.v
ConsoleRun.v
JsDate.v
Location.v
LocationFacts.v
DateFilter.v
DateFacts.v
Browser.v
Route.v
RouteFacts.v
LocationService.v
SyncFacts.v
Cache.v
CacheFacts.v
Lexer.v
Parser.v
ParserFacts.v
Promise.v
PromiseFacts.v
PromiseChain.v
Scope.v
ScopeTree.v
ScopeFacts.v
ScopeVisit.v
ScopeRun.v
ScopeNew.v
ScopeDestroy.v
Heap.v
HeapCopy.v
HeapEqual.v
Uid.v
Digest.v
DigestFacts.v
DigestEnd.v
DigestCalm.v
Eval.v
EvalFacts.v
EvalAssign.v
Filters.v
FilterFacts.v
OrderFacts.v
Form.v
FormFacts.v
FormRun.v
Regex.v
NgModel.v
NgModelFacts.v
Collection.v
CollectionFacts.v
Interpolate.v
InterpolateFacts.v
Repeat.v
RepeatFacts.v
RepeatRun.v
Injector.v
InjectorFacts.v
InjectorGraph.v
InjectorLoad.v
AnnotateFacts.v
Http.v
HttpFacts.v
EvalTypes.v
NumberFilter.v
NumberFacts.v
Sanitize.v
SanitizeFacts.v
Sce.v
SceFacts.v
