(* ===== verification/Prelude.v ===== *)
(** * The Majordodo web console, verified

    Majordodo is a distributed resource manager: a broker (in Java) distributes tasks to
    workers.  Its web console is a JavaScript application under
    [src/majordodo-web-ui/src/main/webapp]: an AngularJS module with four controllers, and
    AngularJS itself (1.2.19), which the repository ships in source form.  This library models
    the JavaScript: the console, and the parts of AngularJS the console runs on.

    ** How the program works

    [angular.configuration.js] declares the routes; [ngRoute] maps the location to a page and
    its controller; a controller builds the URL of a request from the fields of its scope,
    sends it with [$http], and the continuation of the answer writes the scope and draws
    charts.  [$location] keeps the address bar and the route in step through the digest of the
    root scope; [$browser] is the address bar, the timers and the cookies.  The pages show
    expressions of the scope, through [$interpolate] and [$parse], and filters such as [date];
    lists are repeated by [ngRepeat], which watches collections; inputs are in forms; scopes
    form a tree on which events travel; [$q] is the promises by which routes are resolved and
    requests answered.  The injector loads the modules and makes the services.

    ** The files

    Language.  [Prelude] (results, lists, tactics), [JsString] (16-bit strings), [JsObject]
    (objects as ordered maps), [JsNumber] (binary64 numbers as rationals, their text and
    parsing), [UriCodec] ([encodeURIComponent] and its inverse on UTF-8), [Json] (values,
    conversions, the exception and state monad of handlers), [JsDate] (days and civil time).

    Console.  [Console] (state of a page, requests), [ConsolePages] (modules [Home],
    [Resources], [Workers], one per controller), [ConsoleSearch] (the search controller),
    [Histogram] (the counting loops of the charts), [ConsoleRun] (a page as a step relation:
    user events and answers in any order).  Theorems: [HomeFacts] (the percentages add up to
    100; where they do not), [SearchFacts] (which request a search sends; the bounds of
    [max]), [ConsoleRun] (an invariant of every run).

    URLs and navigation.  [Query] ([parseKeyValue], [toKeyValue] and their round trip),
    [Location], [LocationFacts] ([$location] in its three modes, parsing what it composes),
    [Browser], [LocationService], [SyncFacts] (the address bar, the service and the route agree
    after a digest), [Route], [RouteFacts] (patterns, redirections, the console's routes).

    Expressions.  [Lexer], [Parser], [ParserFacts] (the parser ends on every text), [Eval] (the
    closures that the parser makes, the getters and setters of paths, the safety checks),
    [EvalFacts] (the getters agree, constants are constant, the cache of [$parse] is
    transparent), [EvalAssign] (what an assignment is read back as, and who sees it),
    [EvalTypes] (expressions keep the heap well typed),
    [Interpolate], [InterpolateFacts] (the parts of a text, and what a trusted context lets
    through).

    Filters.  [DateFilter], [DateFacts] (the date filter and the ISO 8601 reader), [Filters]
    ([limitTo], [filter], [orderBy]), [FilterFacts], [OrderFacts] (the order is one, and the
    result sorted), [NumberFilter], [NumberFacts] ([number] and [currency]: decimals of up to
    fifteen digits are rounded half up as decimals, though they are held as doubles).

    Security.  [Regex] (regular expressions run by backtracking, sound and complete for their
    language), [Sanitize], [SanitizeFacts] (ngSanitize: what it writes is safe whatever it
    reads), [Sce], [SceFacts] ([$sce] and [$$sanitizeUri]: the URLs that a matcher accepts, the
    values that are given as trusted).

    Pages.  [Form] (FormController, and NgModelController's validity and life), [FormFacts],
    [FormRun] (a form is in error exactly when a control in it is), [NgModel],
    [NgModelFacts] (input controls: what is typed reaches the model when its validators accept
    it, what the model becomes reaches the element, and neither writes over the other; check
    boxes and lists), [Collection],
    [CollectionFacts] ([$watchCollection] tells every difference), [Repeat], [RepeatFacts],
    [RepeatRun] (ngRepeat: one block for each item, the old ones moved and not made again).

    Modules and services.  [Injector] (annotate, [angular.module], [createInjector]),
    [InjectorFacts] (every call ends; what is made stays), [InjectorGraph] (a service is given
    exactly when its dependencies have no cycle and no gap), [InjectorLoad] (which modules are
    loaded, in which order), [AnnotateFacts] (argument names from source text).

    [Cache], [CacheFacts] ([$cacheFactory] refines a bounded list of recently used keys),
    [Promise], [PromiseFacts], [PromiseChain] ([$q]: a promise is settled once; a chain of
    [then] is the composition of its handlers), [Http], [HttpFacts] ([$http]: the order of the
    interceptors; every request ends, and so do those that share its answer).

    Scopes.  [Scope] (the linked tree, [$on], [$emit], [$broadcast], [$destroy]), [ScopeTree]
    (the abstract tree), [ScopeFacts], [ScopeVisit], [ScopeRun], [ScopeNew], [ScopeDestroy]
    (the refinement), [Digest] ([$watch], [$evalAsync], [$digest], [$apply]), [DigestFacts],
    [DigestEnd] (a digest that ends has left no dirty watch, and a second one does nothing),
    [DigestCalm] (it ends).

    Objects.  [Heap] ([copy], [equals] and the helpers on a heap of objects), [HeapCopy] (a
    copy is an isomorphic graph), [HeapEqual] (it equals its source), [Uid] ([nextUid]).

    ** How the model corresponds to the code

    Definitions keep the names of the functions of the source.  A closure is the inductive type
    of the values it closes over ([Promise.closure], [Parser.expr]); a shared mutable object is
    an entry of a store known by its number (scopes, deferreds, watches, heap objects); an
    exception is [Throw], after the effects that precede it ([Json.handler], [Digest.caught]).
    A function of the application that may call back is an interaction tree ([Injector.act]).
    Numbers are rounded as doubles; the minus sign of zero is not kept.  What is not
    under [src] is a parameter: the resolution of URLs by an anchor element, the local time
    zone, the names [$filter] knows, the functions of an application, and what the language
    provides to expressions (the record [Eval.host]: members of built-in prototypes, calls,
    conversions), [toLowerCase], [Array.prototype.sort], [JSON.parse] and [JSON.stringify].

    ** Fuel

    The parser runs on [16 * n + 16] steps for [n] tokens and [ParserFacts] proves that it is
    enough on every text.  The loops over scopes are bounded by the number of scopes, and the
    theorems on trees prove that the bound is not reached; [copy] is bounded by the number of
    objects, and [HeapCopy] proves the same.  [equals] and [then] on a cycle recur for ever in
    the code: their models answer that the call stack is exhausted.  The rounds of a digest are
    bounded by the code (10), and the watch of an input needs three of them
    ([NgModelFacts]); the tasks of its queues by a fuel that [DigestCalm] proves
    sufficient when tasks do not add tasks.  [getService] nests at most once for each provider
    and [loadModules] once for each module, which [InjectorFacts] and [InjectorLoad] prove to be
    enough.

    ** What is not modelled

    The Java broker, client and worker, in another language.  The DOM: the compiler and the
    directives, jqLite (ngRepeat moves numbers for nodes, forms have sets of
    classes).  JSONP, and the functions that interceptors of [$http] are; in the pages of the
    console a request is an outbox entry that is answered in any order.  An
    [ng-pattern] that is an expression, an [ng-list] separated by a regular expression, [select].
    [$timeout], [$interval], animations, [$sce.parseAs].  jQuery, Bootstrap, d3 and the AngularJS modules the console does not load.  What the functions of
    an application do to the heap while a filter runs.  Event names, cookie names and the names
    of own properties are assumed not to be those of built-in
    prototypes, except where the inherited names of [Object.prototype] matter. *)

From Stdlib Require Export Lia ZArith.
From stdpp Require Export prelude.

#[global] Open Scope bool_scope.

(** ** Results: a value, or the exception the code throws *)

Inductive result (E A : Type) : Type :=
| Ok (a : A)
| Throw (e : E).
Arguments Ok {E A} a.
Arguments Throw {E A} e.

Definition rbind {E A B} (m : result E A) (f : A -> result E B) : result E B :=
  match m with
  | Ok a => f a
  | Throw e => Throw e
  end.

Declare Scope result_scope.
Delimit Scope result_scope with result.
Notation "'let*' x ':=' m 'in' k" := (rbind m (fun x => k))
  (at level 10, x pattern, m at level 100, k at level 200) : result_scope.

Definition is_ok {E A} (m : result E A) : bool :=
  match m with Ok _ => true | Throw _ => false end.

Definition ok_value {E A} (m : result E A) : option A :=
  match m with Ok a => Some a | Throw _ => None end.

Lemma rbind_ok {E A B} (m : result E A) (f : A -> result E B) b :
  rbind m f = Ok b <-> exists a, m = Ok a /\ f a = Ok b.
Proof.
  destruct m as [a|e]; simpl; split.
  - eauto.
  - intros (a' & Ha & Hf). congruence.
  - discriminate.
  - intros (a' & Ha & Hf). discriminate.
Qed.

(** [map_result f l] runs [f] on every element and stops at the first exception. *)
Fixpoint map_result {E A B} (f : A -> result E B) (l : list A) : result E (list B) :=
  match l with
  | [] => Ok []
  | x :: l' => rbind (f x) (fun y => rbind (map_result f l') (fun ys => Ok (y :: ys)))
  end.

Lemma map_result_ok {E A B} (f : A -> result E B) g l :
  (forall x, x ∈ l -> f x = Ok (g x)) -> map_result f l = Ok (g <$> l).
Proof.
  induction l as [|x l IH]; intros H; [done|]. simpl.
  rewrite (H x) by left. simpl. rewrite IH; [done|]. intros y Hy. apply H. by right.
Qed.

Lemma map_result_ext {E A B} (f g : A -> result E B) l :
  (forall x, f x = g x) -> map_result f l = map_result g l.
Proof. intros H. induction l as [|x l IH]; [done|]. simpl. by rewrite H, IH. Qed.

(** Induction on the length of a list. *)
Lemma list_len_ind {A} (P : list A -> Prop) :
  (forall l, (forall l', length l' < length l -> P l') -> P l) -> forall l, P l.
Proof.
  intros H l. remember (length l) as n eqn:Hn. revert l Hn.
  induction (lt_wf n) as [n _ IH]. intros l ->. apply H. intros l' Hl. by eapply IH.
Qed.

Lemma list_filter_all {A} (P : A -> Prop) `{!forall x, Decision (P x)} l : Forall P l -> filter P l = l.
Proof. induction 1; [done|]. rewrite filter_cons, decide_True by done. by f_equal. Qed.

Lemma list_filter_none {A} (P : A -> Prop) `{!forall x, Decision (P x)} l :
  Forall (fun x => ~ P x) l -> filter P l = [].
Proof. induction 1; [done|]. by rewrite filter_cons, decide_False by done. Qed.

(** ** Automation *)

(** Split every conjunction and existential of the context. *)
Ltac break_ex :=
  repeat match goal with
  | H : _ /\ _ |- _ => destruct H
  | H : exists _, _ |- _ => destruct H
  end.

(** Case on the innermost [match] or [if] of the goal. *)
Ltac break_match :=
  match goal with
  | |- context [match ?x with _ => _ end] =>
      lazymatch x with
      | context [match _ with _ => _ end] => fail
      | _ => destruct x eqn:?
      end
  end.

Ltac break_match_hyp :=
  match goal with
  | H : context [match ?x with _ => _ end] |- _ =>
      lazymatch x with
      | context [match _ with _ => _ end] => fail
      | _ => destruct x eqn:?
      end
  end.

(** Linear arithmetic that treats the quotients and remainders of [N] as unknowns. *)
Ltac abstract_divmod :=
  repeat match goal with
  | |- context [N.modulo ?a ?b] => let r := fresh "r" in set (r := N.modulo a b) in *; clearbody r
  | |- context [N.div ?a ?b] => let q := fresh "q" in set (q := N.div a b) in *; clearbody q
  | _ : context [N.modulo ?a ?b] |- _ => let r := fresh "r" in set (r := N.modulo a b) in *; clearbody r
  | _ : context [N.div ?a ?b] |- _ => let q := fresh "q" in set (q := N.div a b) in *; clearbody q
  end.
Ltac dmlia := abstract_divmod; lia.

Create HintDb dodo discriminated.
