(* ===== verification/JsString.v ===== *)
(** * JavaScript strings

    A JavaScript string is a sequence of 16-bit code units; here a [jstr] is the list of
    its code units.  This file models the methods of the language's [String] that the
    modelled code calls, with the lemmas the components share. *)

From Stdlib Require Import Ascii String.
From stdpp Require Import countable.
From S2P Require Import Prelude.
Export String.StringSyntax.

(** The type of the literals in this development. *)
Abbreviation lit := String.string.

Abbreviation unit16 := N.
Abbreviation jstr := (list N).

(** String literals: [js "abc"] is the string the source writes 'abc'. *)
Definition js (s : string) : jstr := map N_of_ascii (list_ascii_of_string s).
Arguments js s%_string_scope.

(** One-character literals. *)
Definition chr (s : string) : unit16 :=
  match s with String a _ => N_of_ascii a | EmptyString => 0%N end.
Arguments chr s%_string_scope.

#[global] Arguments js : simpl never.
#[global] Arguments chr : simpl never.

Definition jeqb (s t : jstr) : bool := bool_decide (s = t).

Lemma jeqb_true s t : jeqb s t = true <-> s = t.
Proof. apply bool_decide_eq_true. Qed.
Lemma jeqb_false s t : jeqb s t = false <-> s <> t.
Proof. apply bool_decide_eq_false. Qed.
Lemma jeqb_refl s : jeqb s s = true.
Proof. by apply jeqb_true. Qed.

(** Truthiness of a string: the empty string is falsy. *)
Definition truthy (s : jstr) : bool := match s with [] => false | _ => true end.

Lemma truthy_false s : truthy s = false <-> s = [].
Proof. by destruct s. Qed.

(** ** charAt, substr, substring *)

(** [s.charAt(i)]: the one-unit string at [i], [''] out of range. *)
Definition charAt (s : jstr) (i : nat) : jstr :=
  match s !! i with Some c => [c] | None => [] end.

(** [s.substring(a)] and [s.substr(a)] for [0 <= a]. *)
Definition substr_from (s : jstr) (a : nat) : jstr := drop a s.

(** [s.substring(a, b)] for [0 <= a] and [0 <= b]: the bounds are clamped to the length and
    swapped when out of order. *)
Definition substring (s : jstr) (a b : nat) : jstr :=
  let a' := Nat.min a (length s) in
  let b' := Nat.min b (length s) in
  let lo := Nat.min a' b' in
  let hi := Nat.max a' b' in
  take (hi - lo) (drop lo s).

(** [s.substr(a, n)] for [0 <= a]. *)
Definition substr (s : jstr) (a n : nat) : jstr := take n (drop a s).

(** ** Searching *)

Fixpoint starts_with (p s : jstr) : bool :=
  match p, s with
  | [], _ => true
  | c :: p', d :: s' => N.eqb c d && starts_with p' s'
  | _ :: _, [] => false
  end.

Fixpoint index_from (i : nat) (p s : jstr) : option nat :=
  if starts_with p s then Some i
  else match s with
       | [] => None
       | _ :: s' => index_from (S i) p s'
       end.

(** [s.indexOf(p)]: [None] is the [-1] of the language. *)
Definition indexOf (s p : jstr) : option nat := index_from 0 p s.

(** [s.indexOf(p, k)]. *)
Definition indexOf_at (s p : jstr) (k : nat) : option nat :=
  index_from (Nat.min k (length s)) p (drop k s).

(** [s.lastIndexOf(c)] for a one-unit string [c]. *)
Fixpoint lastIndex_from (i : nat) (c : N) (s : jstr) : option nat :=
  match s with
  | [] => None
  | d :: s' =>
      match lastIndex_from (S i) c s' with
      | Some k => Some k
      | None => if N.eqb c d then Some i else None
      end
  end.
Definition lastIndexOf (s : jstr) (c : N) : option nat := lastIndex_from 0 c s.

(** ** split and join on a one-unit separator *)

Fixpoint split (sep : N) (s : jstr) : list jstr :=
  match s with
  | [] => [[]]
  | c :: s' =>
      if N.eqb c sep then [] :: split sep s'
      else match split sep s' with
           | w :: ws => (c :: w) :: ws
           | [] => [[c]]
           end
  end.

Fixpoint join (sep : jstr) (ws : list jstr) : jstr :=
  match ws with
  | [] => []
  | [w] => w
  | w :: ws' => w ++ sep ++ join sep ws'
  end.

Lemma join_cons2 sep w w' ws : join sep (w :: w' :: ws) = w ++ sep ++ join sep (w' :: ws).
Proof. done. Qed.

Lemma split_not_nil sep s : split sep s <> [].
Proof. destruct s as [|c s]; simpl; [done|]. destruct (N.eqb c sep), (split sep s); done. Qed.

Lemma split_no_sep sep w : sep ∉ w -> split sep w = [w].
Proof.
  induction w as [|c w IH]; intros H; simpl; [done|].
  apply not_elem_of_cons in H as [Hc Hw].
  destruct (N.eqb_spec c sep); [congruence|]. by rewrite IH.
Qed.

Lemma split_app_sep sep w s : sep ∉ w -> split sep (w ++ sep :: s) = w :: split sep s.
Proof.
  induction w as [|c w IH]; intros H; simpl.
  - by rewrite N.eqb_refl.
  - apply not_elem_of_cons in H as [Hc Hw].
    destruct (N.eqb_spec c sep); [congruence|]. by rewrite IH.
Qed.

(** Splitting a joined list of separator-free words gives the words back. *)
Lemma split_join sep ws :
  ws <> [] -> Forall (fun w => sep ∉ w) ws -> split sep (join [sep] ws) = ws.
Proof.
  intros Hne H. induction H as [|w ws Hw Hws IH]; [done|].
  destruct ws as [|w' ws].
  - simpl. by apply split_no_sep.
  - rewrite join_cons2. simpl app at 1. rewrite split_app_sep by done.
    f_equal. by apply IH.
Qed.

Lemma split_words_no_sep sep s : Forall (fun w => sep ∉ w) (split sep s).
Proof.
  induction s as [|c s IH]; simpl.
  - constructor; [by apply not_elem_of_nil|done].
  - destruct (N.eqb_spec c sep) as [->|Hc].
    + constructor; [by apply not_elem_of_nil|done].
    + destruct (split sep s) as [|w ws] eqn:E.
      * constructor; [|done]. apply not_elem_of_cons; split; [done|by apply not_elem_of_nil].
      * inversion_clear IH. constructor; [|done]. by apply not_elem_of_cons.
Qed.

Lemma join_cons_head sep c w ws : join sep ((c :: w) :: ws) = c :: join sep (w :: ws).
Proof. by destruct ws. Qed.

Lemma join_split sep s : join [sep] (split sep s) = s.
Proof.
  induction s as [|c s IH]; cbn [split]; [done|].
  destruct (split sep s) as [|w ws] eqn:E; [by apply split_not_nil in E|].
  destruct (N.eqb_spec c sep) as [->|Hc].
  - rewrite join_cons2, IH. done.
  - by rewrite join_cons_head, IH.
Qed.

(** ** Lemmas on searching *)

Lemma starts_with_spec p s : starts_with p s = true <-> exists t, s = p ++ t.
Proof.
  revert s. induction p as [|c p IH]; intros s; simpl.
  - split; [eauto|done].
  - destruct s as [|d s].
    + split; [done|]. intros [t Ht]. discriminate.
    + rewrite andb_true_iff, N.eqb_eq, IH. split.
      * intros [-> [t ->]]. by exists t.
      * intros [t Ht]. injection Ht as -> ->. eauto.
Qed.

Lemma starts_with_app p t : starts_with p (p ++ t) = true.
Proof. apply starts_with_spec. eauto. Qed.

Lemma index_from_unit_None i c s : index_from i [c] s = None <-> c ∉ s.
Proof.
  revert i. induction s as [|d s IH]; intros i; simpl.
  - split; [intros _; by apply not_elem_of_nil|done].
  - rewrite not_elem_of_cons, andb_true_r. destruct (N.eqb_spec c d) as [->|Hne].
    + split; [done|]. by intros [? _].
    + rewrite IH. tauto.
Qed.

Lemma indexOf_unit_None c s : indexOf s [c] = None <-> c ∉ s.
Proof. apply index_from_unit_None. Qed.

Lemma index_from_unit_Some i c s k :
  index_from i [c] s = Some k ->
  exists a b, s = a ++ c :: b ∧ c ∉ a ∧ k = i + length a.
Proof.
  revert i. induction s as [|d s IH]; intros i; simpl; [done|].
  rewrite andb_true_r. destruct (N.eqb_spec c d) as [->|Hne].
  - intros [= <-]. exists [], s. split_and!; [done|by apply not_elem_of_nil|simpl; lia].
  - intros (a & b & -> & Ha & ->)%IH. exists (d :: a), b.
    split_and!; [done|by apply not_elem_of_cons|simpl; lia].
Qed.

Lemma index_from_unit_app i c a b :
  c ∉ a -> index_from i [c] (a ++ c :: b) = Some (i + length a).
Proof.
  revert i. induction a as [|d a IH]; intros i H; simpl.
  - rewrite N.eqb_refl. simpl. f_equal. lia.
  - apply not_elem_of_cons in H as [Hd Ha]. destruct (N.eqb_spec c d); [congruence|].
    simpl. rewrite IH by done. f_equal. lia.
Qed.

(** ** Decimal printing and the digit classes *)

Definition is_digit (c : N) : bool := (48 <=? c)%N && (c <=? 57)%N.

Fixpoint dec_digits (fuel : nat) (n : N) (acc : jstr) : jstr :=
  match fuel with
  | O => acc
  | S f =>
      let acc' := (48 + n mod 10)%N :: acc in
      if (n <? 10)%N then acc' else dec_digits f (n / 10) acc'
  end.

(** [String(n)] for a non-negative integral number below [10^21]. *)
Definition dec_of_N (n : N) : jstr := dec_digits (S (N.to_nat (N.log2 n))) n [].

(** [String(z)] for an integral number of magnitude below [10^21]. *)
Definition dec_of_Z (z : Z) : jstr :=
  if (z <? 0)%Z then chr "-" :: dec_of_N (Z.to_N (- z)) else dec_of_N (Z.to_N z).

(** Value of a run of decimal digits. *)
Definition digit_val (c : N) : N := (c - 48)%N.
Definition dec_val (ds : jstr) : N := fold_left (fun a c => (a * 10 + digit_val c)%N) ds 0%N.

Example dec_of_Z_ex : dec_of_Z 0 = js "0" /\ dec_of_Z (-150) = js "-150" /\ dec_of_Z 907 = js "907".
Proof. by vm_compute. Qed.

Lemma is_digit_spec c : is_digit c = true <-> (48 <= c <= 57)%N.
Proof. unfold is_digit. rewrite andb_true_iff, !N.leb_le. done. Qed.

Lemma dec_val_app ds c : dec_val (ds ++ [c]) = (dec_val ds * 10 + digit_val c)%N.
Proof. unfold dec_val. by rewrite fold_left_app. Qed.

Lemma dec_digits_app fuel n acc : dec_digits fuel n acc = dec_digits fuel n [] ++ acc.
Proof.
  revert n acc. induction fuel as [|f IH]; intros n acc; simpl; [done|].
  destruct (n <? 10)%N; [done|]. rewrite IH. symmetry. rewrite IH.
  by rewrite <- app_assoc.
Qed.

Lemma log2_div10 n : (10 <= n)%N -> (N.log2 (n / 10) < N.log2 n)%N.
Proof.
  intros H. assert (n / 10 <= n / 2)%N.
  { apply N.div_le_compat_l. lia. }
  assert (N.log2 (n / 10) <= N.log2 (n / 2))%N by (apply N.log2_le_mono; lia).
  assert (N.log2 (n / 2) = N.pred (N.log2 n))%N.
  { rewrite <- N.div2_div. rewrite N.div2_spec. rewrite N.log2_shiftr. lia. }
  assert (1 <= N.log2 n)%N.
  { apply (N.log2_le_pow2 n 1); [lia|]. change (2 ^ 1)%N with 2%N. lia. }
  lia.
Qed.

Lemma dec_digits_spec fuel n :
  (N.to_nat (N.log2 n) < fuel)%nat ->
  dec_val (dec_digits fuel n []) = n /\ Forall (fun c => is_digit c = true) (dec_digits fuel n []) /\
  dec_digits fuel n [] <> [] /\ (hd_error (dec_digits fuel n []) = Some 48%N -> n = 0%N).
Proof.
  revert n. induction fuel as [|f IH]; intros n Hf; [lia|]. simpl.
  assert (Hd : (n mod 10 < 10)%N) by (apply N.mod_lt; lia).
  destruct (N.ltb_spec n 10) as [Hlt|Hge].
  - rewrite N.mod_small by lia. split_and!.
    + unfold dec_val, digit_val. simpl. lia.
    + constructor; [|done]. apply is_digit_spec. lia.
    + done.
    + simpl. intros [= H]. lia.
  - rewrite dec_digits_app. destruct (IH (n / 10)%N) as (Hv & Hall & Hne & Hz).
    { pose proof (log2_div10 n Hge). lia. }
    split_and!.
    + rewrite dec_val_app, Hv. unfold digit_val.
      pose proof (N.div_mod n 10 ltac:(done)) as Hdm. clear - Hdm. dmlia.
    + apply Forall_app. split; [done|]. constructor; [|done]. apply is_digit_spec. clear - Hd. dmlia.
    + by destruct (dec_digits f (n / 10) []).
    + destruct (dec_digits f (n / 10) []) as [|c r] eqn:E; [done|]. simpl in *.
      intros H. apply Hz in H. assert (n / 10 <> 0)%N; [|done].
      pose proof (N.div_str_pos n 10). lia.
Qed.

Lemma dec_of_N_spec n :
  dec_val (dec_of_N n) = n /\ Forall (fun c => is_digit c = true) (dec_of_N n) /\
  dec_of_N n <> [] /\ (hd_error (dec_of_N n) = Some 48%N -> n = 0%N).
Proof. apply dec_digits_spec. lia. Qed.

Lemma dec_of_N_inj n m : dec_of_N n = dec_of_N m -> n = m.
Proof.
  intros H. destruct (dec_of_N_spec n) as [Hn _], (dec_of_N_spec m) as [Hm _]. congruence.
Qed.
