(* ===== verification/JsObject.v ===== *)
(** * JavaScript objects used as maps

    An object used as a dictionary is an association list of its own properties in the
    order of their creation.  Writing an existing property keeps its place, writing a new
    one appends it; [for (k in o)] visits the array indices in ascending order first and
    the other names in creation order. *)

From Stdlib Require Import Sorted.
From S2P Require Import Prelude JsString.

Abbreviation jsobj V := (list (jstr * V)).

Section Object.
Context {V : Type}.
Implicit Types (o : jsobj V) (k : jstr) (v : V).

Fixpoint ob_get o k : option V :=
  match o with
  | [] => None
  | (k', v) :: o' => if jeqb k k' then Some v else ob_get o' k
  end.

Fixpoint ob_set o k v : jsobj V :=
  match o with
  | [] => [(k, v)]
  | (k', v') :: o' => if jeqb k k' then (k', v) :: o' else (k', v') :: ob_set o' k v
  end.

Fixpoint ob_delete o k : jsobj V :=
  match o with
  | [] => []
  | (k', v') :: o' => if jeqb k k' then o' else (k', v') :: ob_delete o' k
  end.

Definition ob_has o k : bool := match ob_get o k with Some _ => true | None => false end.

Definition ob_names o : list jstr := map fst o.

(** A canonical array index: the decimal of a number below [2^32 - 1]. *)
Definition is_index k : bool :=
  forallb is_digit k && jeqb (dec_of_N (dec_val k)) k && (dec_val k <? 4294967295)%N.

Fixpoint insert_index k (l : list jstr) : list jstr :=
  match l with
  | [] => [k]
  | k' :: l' => if (dec_val k <=? dec_val k')%N then k :: l else k' :: insert_index k l'
  end.

(** The names [for (k in o)] visits, in its order. *)
Definition enum_names o : list jstr :=
  foldr insert_index [] (filter (fun k => is_index k = true) (ob_names o))
  ++ filter (fun k => is_index k = false) (ob_names o).

Definition ob_wf o : Prop := NoDup (ob_names o).

Lemma ob_get_set_eq o k v : ob_get (ob_set o k v) k = Some v.
Proof.
  induction o as [|[k' v'] o IH]; simpl; [by rewrite jeqb_refl|].
  destruct (jeqb k k') eqn:E; simpl; by rewrite E.
Qed.

Lemma ob_get_set_ne o k k' v : k <> k' -> ob_get (ob_set o k v) k' = ob_get o k'.
Proof.
  intros Hne. induction o as [|[k1 v1] o IH]; simpl.
  - destruct (jeqb k' k) eqn:E; [|done]. apply jeqb_true in E. congruence.
  - destruct (jeqb k k1) eqn:E; simpl; [|by rewrite IH].
    apply jeqb_true in E as ->. destruct (jeqb k' k1) eqn:E'; [|done].
    apply jeqb_true in E'. congruence.
Qed.

Lemma ob_get_names o k : k ∈ ob_names o <-> is_Some (ob_get o k).
Proof.
  unfold ob_names. induction o as [|[k1 v1] o IH]; simpl.
  - split; [by intros ?%elem_of_nil|by intros [? ?]].
  - rewrite elem_of_cons. destruct (jeqb k k1) eqn:E.
    + apply jeqb_true in E as ->. split; [eauto|by left].
    + apply jeqb_false in E. rewrite IH. split; [by intros [?|?]|by right].
Qed.

Lemma ob_get_None o k : k ∉ ob_names o <-> ob_get o k = None.
Proof.
  by rewrite ob_get_names, eq_None_not_Some.
Qed.

Lemma ob_names_set_new o k v : ob_get o k = None -> ob_set o k v = o ++ [(k, v)].
Proof.
  induction o as [|[k1 v1] o IH]; simpl; [done|].
  destruct (jeqb k k1); [done|]. intros H. by rewrite IH.
Qed.

Lemma ob_names_set_old o k v : is_Some (ob_get o k) -> ob_names (ob_set o k v) = ob_names o.
Proof.
  unfold ob_names. induction o as [|[k1 v1] o IH]; simpl; [by intros [? ?]|].
  destruct (jeqb k k1); simpl; [done|]. intros H. by rewrite IH.
Qed.

Lemma ob_names_set o k v :
  ob_names (ob_set o k v) = if ob_has o k then ob_names o else ob_names o ++ [k].
Proof.
  unfold ob_has. destruct (ob_get o k) eqn:E.
  - by apply ob_names_set_old.
  - rewrite ob_names_set_new by done. unfold ob_names. by rewrite map_app.
Qed.

Lemma ob_wf_set o k v : ob_wf o -> ob_wf (ob_set o k v).
Proof.
  unfold ob_wf. intros H. rewrite ob_names_set. unfold ob_has.
  destruct (ob_get o k) eqn:E; [done|].
  apply NoDup_app. split_and!; [done| |apply NoDup_singleton].
  intros x Hx. rewrite list_elem_of_singleton. intros ->.
  by apply ob_get_None in E.
Qed.

Lemma ob_get_delete_eq o k : ob_wf o -> ob_get (ob_delete o k) k = None.
Proof.
  unfold ob_wf, ob_names. induction o as [|[k1 v1] o IH]; simpl; [done|].
  intros [Hk1 Ho]%NoDup_cons. destruct (jeqb k k1) eqn:E.
  - apply jeqb_true in E as ->. by apply ob_get_None.
  - simpl. rewrite E. by apply IH.
Qed.

Lemma ob_get_delete_ne o k k' : k <> k' -> ob_get (ob_delete o k) k' = ob_get o k'.
Proof.
  intros Hne. induction o as [|[k1 v1] o IH]; simpl; [done|].
  destruct (jeqb k k1) eqn:E.
  - apply jeqb_true in E as ->. destruct (jeqb k' k1) eqn:E'; [|done].
    apply jeqb_true in E'. congruence.
  - simpl. by rewrite IH.
Qed.

Lemma ob_delete_absent o k : ob_get o k = None -> ob_delete o k = o.
Proof. induction o as [|[k' v] o IH]; [done|]. cbn. destruct (jeqb k k'); [done|]. intros H. by rewrite IH. Qed.

Lemma ob_names_delete o k k' : k' ∈ ob_names (ob_delete o k) -> k' ∈ ob_names o.
Proof.
  induction o as [|[k2 v] o IH]; [done|]. cbn. destruct (jeqb k k2); [by right|]. cbn. rewrite !elem_of_cons. intros [->|H]; auto.
Qed.
Lemma ob_wf_delete o k : ob_wf o -> ob_wf (ob_delete o k).
Proof.
  unfold ob_wf. induction o as [|[k' w] o IH]; [done|]. cbn. intros [Hk Hn]%NoDup_cons. destruct (jeqb k k'); [done|]. cbn.
  apply NoDup_cons. split; [|by apply IH]. by intros ?%ob_names_delete.
Qed.

Lemma insert_index_perm k l : insert_index k l ≡ₚ k :: l.
Proof.
  induction l as [|k' l IH]; simpl; [done|].
  destruct (_ <=? _)%N; [done|]. rewrite IH. by apply Permutation_swap.
Qed.

(** The enumeration visits every own property exactly once. *)
Lemma enum_names_perm o : enum_names o ≡ₚ ob_names o.
Proof.
  unfold enum_names. set (l := ob_names o). clearbody l.
  assert (Hs : forall l', foldr insert_index [] l' ≡ₚ l').
  { induction l' as [|k l' IH]; simpl; [done|]. rewrite insert_index_perm. by rewrite IH. }
  rewrite Hs. clear Hs. induction l as [|k l IH]; [done|].
  rewrite !filter_cons. destruct (is_index k).
  - rewrite decide_True, decide_False by done. simpl. by rewrite IH.
  - rewrite decide_False, decide_True by done.
    rewrite <- Permutation_middle. by rewrite IH.
Qed.

(** Without array indices the enumeration is the creation order. *)
Lemma enum_names_plain o :
  Forall (fun k => is_index k = false) (ob_names o) -> enum_names o = ob_names o.
Proof.
  unfold enum_names. generalize (ob_names o). intros l H.
  induction H as [|k l Hk Hl IH]; [done|].
  rewrite !filter_cons, Hk. rewrite decide_False, decide_True by done.
  destruct (foldr insert_index [] (filter (fun k => is_index k = true) l)) as [|x r] eqn:E.
  - simpl in *. by rewrite IH.
  - exfalso. assert (Hn : filter (fun k => is_index k = true) l = []).
    { clear - Hl. induction Hl as [|a l Ha Hl IH]; [done|].
      rewrite filter_cons, decide_False; [done|]. by rewrite Ha. }
    by rewrite Hn in E.
Qed.

Lemma insert_index_sorted k l :
  Sorted (fun a b => (dec_val a <= dec_val b)%N) l ->
  Sorted (fun a b => (dec_val a <= dec_val b)%N) (insert_index k l).
Proof.
  induction 1 as [|k' l Hl IH Hh]; cbn [insert_index]; [by repeat constructor|].
  destruct (N.leb_spec (dec_val k) (dec_val k')); [by repeat constructor|].
  constructor; [done|]. destruct l as [|k2 l]; cbn [insert_index]; [constructor; lia|].
  inversion Hh. destruct (dec_val k <=? dec_val k2)%N; constructor; lia.
Qed.

Lemma isort_sorted l : Sorted (fun a b => (dec_val a <= dec_val b)%N) (foldr insert_index [] l).
Proof. induction l as [|k l IH]; [constructor|]. by apply insert_index_sorted. Qed.

Lemma insert_index_id l :
  Sorted (fun a b => (dec_val a <= dec_val b)%N) l -> foldr insert_index [] l = l.
Proof.
  induction 1 as [|k l Hl IH Hh]; [done|]. cbn [foldr]. rewrite IH.
  destruct Hh as [|k' l Hk]; cbn [insert_index]; [done|]. by apply N.leb_le in Hk as ->.
Qed.

(** An object whose properties were created in enumeration order is enumerated in that order. *)
Lemma enum_names_idem {W} (o : jsobj V) (o' : jsobj W) :
  map fst o' = enum_names o ->
  foldr insert_index [] (filter (fun k => is_index k = true) (map fst o'))
  ++ filter (fun k => is_index k = false) (map fst o') = enum_names o.
Proof.
  intros ->. unfold enum_names. set (l := ob_names o). clearbody l.
  set (a := foldr insert_index [] (filter (fun k => is_index k = true) l)).
  set (b := filter (fun k => is_index k = false) l).
  assert (Hs : forall l', foldr insert_index [] l' ≡ₚ l').
  { induction l' as [|k l' IH]; simpl; [done|]. rewrite insert_index_perm. by rewrite IH. }
  assert (Ha : Forall (fun k => is_index k = true) a).
  { unfold a. rewrite Hs. apply Forall_forall. intros k Hk. by apply list_elem_of_filter in Hk as [? _]. }
  assert (Hb : Forall (fun k => is_index k = false) b).
  { apply Forall_forall. intros k Hk. by apply list_elem_of_filter in Hk as [? _]. }
  assert (Hsort : Sorted (fun a b => (dec_val a <= dec_val b)%N) a).
  { apply isort_sorted. }
  assert (Hab : filter (fun k => is_index k = true) b = []).
  { apply list_filter_none. eapply Forall_impl; [exact Hb|]. simpl. congruence. }
  assert (Hba : filter (fun k => is_index k = false) a = []).
  { apply list_filter_none. eapply Forall_impl; [exact Ha|]. simpl. congruence. }
  rewrite !filter_app, Hab, Hba, (list_filter_all _ a), (list_filter_all _ b) by done.
  by rewrite app_nil_r, insert_index_id.
Qed.

End Object.

Arguments ob_wf {V} o.

(** The names every object inherits from [Object.prototype]. *)
Definition object_proto_names : list jstr :=
  [js "constructor"; js "__defineGetter__"; js "__defineSetter__"; js "hasOwnProperty";
   js "__lookupGetter__"; js "__lookupSetter__"; js "isPrototypeOf"; js "propertyIsEnumerable";
   js "toString"; js "valueOf"; js "__proto__"; js "toLocaleString"].

Definition in_object_proto (k : jstr) : bool := bool_decide (k ∈ object_proto_names).
