(* ===== verification/JsNumber.v ===== *)
(** * JavaScript numbers

    Numbers are binary64.  A finite number is the rational it denotes ([-0] is not told
    apart from [0]); [to_double] rounds a rational to the nearest double, ties to even,
    with the format's 53-bit significand, its least exponent and its overflow. *)

From Stdlib Require Import QArith Qround Qpower Lqa.
From Stdlib Require Import ZArith Lia.
From S2P Require Import Prelude JsString.

Inductive num : Type :=
| NaN
| Inf (neg : bool)
| Fin (q : Q).

Local Open Scope Z_scope.

(** ** Rounding *)

(** The integer nearest to [a / b], ties to even. *)
Definition half_even (a b : Z) : Z :=
  let q := a / b in
  let r := a mod b in
  if 2 * r <? b then q
  else if b <? 2 * r then q + 1
  else if Z.even q then q else q + 1.

(** [2 ^ k <= p / q]. *)
Definition pow2_le (k p q : Z) : bool :=
  if 0 <=? k then q * 2 ^ k <=? p else q <=? p * 2 ^ (- k).

(** The exponent of the last bit of a double near [p / q]. *)
Definition ulp_exp (p q : Z) : Z :=
  let k := Z.log2 p - Z.log2 q in
  let k := if pow2_le k p q then k else k - 1 in
  Z.max (k - 52) (-1074).

(** The numerator and denominator of [(p / q) / 2 ^ e]. *)
Definition scaled (p q e : Z) : Z * Z :=
  if 0 <=? e then (p, q * 2 ^ e) else (p * 2 ^ (- e), q).

Definition signif (p q : Z) : Z :=
  let '(a, b) := scaled p q (ulp_exp p q) in half_even a b.

(** [m * 2 ^ e] as a rational. *)
Definition ldexp (m e : Z) : Q :=
  if 0 <=? e then inject_Z (m * 2 ^ e) else m # Z.to_pos (2 ^ (- e)).

(** The double nearest to a non-negative rational, without overflow. *)
Definition round_pos (x : Q) : Q :=
  let p := Qnum x in
  let q := Zpos (Qden x) in
  if p <=? 0 then 0%Q else ldexp (signif p q) (ulp_exp p q).

Definition to_double (x : Q) : num :=
  let neg := Qnum x <? 0 in
  let r := round_pos (if neg then - x else x)%Q in
  if Qle_bool (inject_Z (2 ^ 1024)) r then Inf neg
  else Fin (if neg then - r else r)%Q.

Definition fin_of_Z (z : Z) : num := to_double (inject_Z z).

(** ** Arithmetic *)

Definition num_div (x y : num) : num :=
  match x, y with
  | Fin a, Fin b =>
      if Qnum b =? 0 then (if Qnum a =? 0 then NaN else Inf (Qnum a <? 0))
      else to_double (a / b)%Q
  | Fin _, Inf _ => Fin 0
  | Inf s, Fin b => Inf (xorb s (Qnum b <? 0))
  | _, _ => NaN
  end.

Definition num_mul (x y : num) : num :=
  match x, y with
  | Fin a, Fin b => to_double (a * b)%Q
  | Inf s, Fin b | Fin b, Inf s => if Qnum b =? 0 then NaN else Inf (xorb s (Qnum b <? 0))
  | Inf s, Inf t => Inf (xorb s t)
  | _, _ => NaN
  end.

Definition num_add (x y : num) : num :=
  match x, y with
  | Fin a, Fin b => to_double (a + b)%Q
  | Inf s, Inf t => if eqb s t then Inf s else NaN
  | Inf s, Fin _ | Fin _, Inf s => Inf s
  | _, _ => NaN
  end.

Definition num_opp (x : num) : num :=
  match x with Fin a => Fin (- a)%Q | Inf s => Inf (negb s) | NaN => NaN end.

Definition num_sub (x y : num) : num := num_add x (num_opp y).

(** [x < y]: false as soon as one side is not a number. *)
Definition num_lt (x y : num) : bool :=
  match x, y with
  | Fin a, Fin b => negb (Qle_bool b a)
  | Inf true, Fin _ | Fin _, Inf false | Inf true, Inf false => true
  | _, _ => false
  end.

(** ** parseInt of a number

    [parseInt(x, 10)] reads the decimal text of [x].  From [1e-6] up to [1e21] the text has
    no exponent and the result is the integral part; below, the text is [d.ddde-k] and the
    result is its first digit. *)

(** The power of ten just above [x]: [10 ^ (n - 1) <= x < 10 ^ n] (fuel: the decimal
    exponents of the doubles lie between -324 and 309). *)
Definition pow10 (n : Z) : Q := if 0 <=? n then inject_Z (10 ^ n) else 1 # Z.to_pos (10 ^ (- n)).

Fixpoint dec_exp (fuel : nat) (x : Q) (n : Z) : Z :=
  match fuel with
  | O => n
  | S f =>
      if negb (Qle_bool (pow10 (n - 1)) x) then dec_exp f x (n - 1)
      else if Qle_bool (pow10 n) x then dec_exp f x (n + 1)
      else n
  end.

(** [Number::toString]: the digits [s], [k] of them, of the shortest decimal
    [s * 10 ^ (n - k)] that rounds to [x].  17 digits always do. *)
Fixpoint shortest (fuel : nat) (x : Q) (n k : Z) : Z * Z * Z :=
  let s := Qfloor (x * pow10 (k - n))%Q in
  let ok s := Qeq_bool (round_pos (inject_Z s * pow10 (n - k))) x in
  let norm s := if 10 ^ k <=? s then (s / 10, k, n + 1) else (s, k, n) in
  match fuel with
  | O => norm s
  | S f => if ok s then norm s else if ok (s + 1) then norm (s + 1) else shortest f x n (k + 1)
  end.

Definition digits_of (x : Q) : Z * Z * Z := shortest 16 x (dec_exp 650 x 1) 1.

Definition zeros (n : Z) : jstr := repeat 48%N (Z.to_nat n).

(** The text of a positive number. *)
Definition pos_to_str (x : Q) : jstr :=
  let '(s, k, n) := digits_of x in
  let ds := dec_of_Z s in
  if (k <=? n) && (n <=? 21) then ds ++ zeros (n - k)
  else if (0 <? n) && (n <=? 21) then take (Z.to_nat n) ds ++ js "." ++ drop (Z.to_nat n) ds
  else if (-6 <? n) && (n <=? 0) then js "0." ++ zeros (- n) ++ ds
  else
    let e := n - 1 in
    let es := js "e" ++ (if e <? 0 then js "-" else js "+") ++ dec_of_Z (Z.abs e) in
    match ds with
    | [d] => d :: es
    | d :: r => d :: js "." ++ r ++ es
    | [] => es
    end.

Definition num_to_str (x : num) : jstr :=
  match x with
  | NaN => js "NaN"
  | Inf neg => if neg then js "-Infinity" else js "Infinity"
  | Fin q =>
      if Qnum q =? 0 then js "0"
      else if Qnum q <? 0 then chr "-" :: pos_to_str (- q)
      else pos_to_str q
  end.

(** The first significant digit of the text of a small number. *)
Definition tiny_digit (x : Q) : Z :=
  let '(s, k, _) := digits_of x in s / 10 ^ (k - 1).

Definition parseInt_pos (x : Q) : Z :=
  if Qle_bool (1 # 1000000) x then Qfloor x else if Qeq_bool x 0 then 0 else tiny_digit x.

(** [parseInt(x, 10)] for a number of magnitude below [1e21]; [None] is [NaN]. *)
Definition parseInt_num (x : num) : option Z :=
  match x with
  | Fin q => Some (if Qnum q <? 0 then - parseInt_pos (- q)%Q else parseInt_pos q)
  | _ => None
  end.

Example num_to_str_ex :
  num_to_str (fin_of_Z 300) = js "300"
  /\ num_to_str (num_mul (num_div (fin_of_Z 29) (fin_of_Z 100)) (fin_of_Z 100)) = js "28.999999999999996"
  /\ num_to_str (num_div (fin_of_Z 1) (fin_of_Z 3)) = js "0.3333333333333333"
  /\ num_to_str (num_div (fin_of_Z (-1)) (fin_of_Z 8000000)) = js "-1.25e-7"
  /\ num_to_str (fin_of_Z (10 ^ 21)) = js "1e+21"
  /\ num_to_str (num_div (fin_of_Z 1) (fin_of_Z 1024)) = js "0.0009765625".
Proof. vm_compute. auto 10. Qed.

Example div_ex : num_mul (num_div (fin_of_Z 29) (fin_of_Z 100)) (fin_of_Z 100)
  = Fin (8162774324609023 # 281474976710656).
Proof. vm_compute. reflexivity. Qed.

Example parseInt_ex :
  parseInt_num (num_mul (num_div (fin_of_Z 29) (fin_of_Z 100)) (fin_of_Z 100)) = Some 28
  /\ parseInt_num (num_mul (num_div (fin_of_Z 1) (fin_of_Z 1000000000)) (fin_of_Z 100)) = Some 1
  /\ parseInt_num (num_mul (num_div (fin_of_Z 1) (fin_of_Z 3000000000)) (fin_of_Z 100)) = Some 3
  /\ parseInt_num (num_div (fin_of_Z 0) (fin_of_Z 0)) = None.
Proof. vm_compute. auto. Qed.

(** ** Number of a string *)

Definition is_js_space (c : N) : bool :=
  bool_decide (c ∈ [9; 10; 11; 12; 13; 32; 160; 5760; 8232; 8233; 8239; 8287; 12288; 65279]%N)
  || ((8192 <=? c) && (c <=? 8202))%N.

Fixpoint skip_space (s : jstr) : jstr :=
  match s with c :: s' => if is_js_space c then skip_space s' else s | [] => [] end.

Definition trim (s : jstr) : jstr := rev (skip_space (rev (skip_space s))).

Fixpoint span (P : N -> bool) (s : jstr) : jstr * jstr :=
  match s with
  | c :: s' => if P c then let '(a, b) := span P s' in (c :: a, b) else ([], s)
  | [] => ([], [])
  end.

Definition signed (s : jstr) : bool * jstr :=
  match s with
  | c :: s' => if (c =? chr "-")%N then (true, s') else if (c =? chr "+")%N then (false, s') else (false, s)
  | [] => (false, s)
  end.

(** The exponent part: absent, or [e], a sign and at least one digit up to the end. *)
Definition exponent (s : jstr) : option Z :=
  match s with
  | [] => Some 0
  | c :: r =>
      if ((c =? chr "e") || (c =? chr "E"))%N then
        let '(neg, r1) := signed r in
        let '(ds, r2) := span is_digit r1 in
        if bool_decide (ds <> []) && bool_decide (r2 = []) then
          Some (if neg then - Z.of_N (dec_val ds) else Z.of_N (dec_val ds))
        else None
      else None
  end.

(** An unsigned decimal literal. *)
Definition decimal (neg : bool) (s : jstr) : num :=
  let '(ip, r1) := span is_digit s in
  let '(fp, r2) := match r1 with
                   | c :: r => if (c =? chr ".")%N then span is_digit r else ([], r1)
                   | [] => ([], r1)
                   end in
  if bool_decide (ip = []) && bool_decide (fp = []) then NaN
  else match exponent r2 with
       | Some e =>
           let v := (inject_Z (Z.of_N (dec_val (ip ++ fp))) * pow10 (e - Z.of_nat (length fp)))%Q in
           to_double (if neg then - v else v)%Q
       | None => NaN
       end.

Definition digit_in (base : N) (c : N) : option N :=
  let v := if is_digit c then Some (c - 48)%N
           else if ((97 <=? c) && (c <=? 122))%N then Some (c - 87)%N
           else if ((65 <=? c) && (c <=? 90))%N then Some (c - 55)%N else None in
  match v with Some d => if (d <? base)%N then Some d else None | None => None end.

Fixpoint in_base (base : N) (acc : N) (s : jstr) : option N :=
  match s with
  | [] => Some acc
  | c :: s' => match digit_in base c with Some d => in_base base (acc * base + d)%N s' | None => None end
  end.

Definition radix_literal (base : N) (s : jstr) : num :=
  match s with
  | [] => NaN
  | _ => match in_base base 0 s with Some v => fin_of_Z (Z.of_N v) | None => NaN end
  end.

(** [Number(s)]. *)
Definition num_of_str (s : jstr) : num :=
  match trim s with
  | [] => Fin 0
  | t =>
      match t with
      | 48%N :: c :: r =>
          if ((c =? chr "x") || (c =? chr "X"))%N then radix_literal 16 r
          else if ((c =? chr "o") || (c =? chr "O"))%N then radix_literal 8 r
          else if ((c =? chr "b") || (c =? chr "B"))%N then radix_literal 2 r
          else decimal false t
      | _ =>
          let '(neg, u) := signed t in
          if jeqb u (js "Infinity") then Inf neg else decimal neg u
      end
  end.

(** [~~x]: the integral part as a signed 32-bit integer. *)
Definition to_int32 (x : num) : Z :=
  match x with
  | Fin q =>
      let t := if Qnum q <? 0 then - Qfloor (- q)%Q else Qfloor q in
      let m := t mod 2 ^ 32 in
      if 2 ^ 31 <=? m then m - 2 ^ 32 else m
  | _ => 0
  end.

Example num_of_str_ex :
  num_to_str (num_of_str (js " 150 ")) = js "150"
  /\ num_of_str (js "12a") = NaN /\ num_to_str (num_of_str (js "0x1F")) = js "31"
  /\ num_to_str (num_of_str (js "-1.5e2")) = js "-150" /\ to_int32 (num_of_str (js "4294967297")) = 1
  /\ to_int32 (num_of_str (js "1e1")) = 10 /\ to_int32 (num_of_str (js "-2147483649")) = 2147483647.
Proof. vm_compute. auto 10. Qed.

(** ** The rounding error *)

#[export] Instance Q_default_relation : SetoidTactics.DefaultRelation Qeq := {}.

Lemma half_even_err a b : 0 < b -> - b <= 2 * (half_even a b * b - a) <= b.
Proof.
  intros Hb. unfold half_even.
  pose proof (Z.div_mod a b ltac:(lia)) as Hdm. pose proof (Z.mod_pos_bound a b Hb) as Hr.
  set (q := a / b) in *. set (r := a mod b) in *. clearbody q r.
  destruct (Z.ltb_spec (2 * r) b); [nia|]. destruct (Z.ltb_spec b (2 * r)); [nia|].
  destruct (Z.even q); nia.
Qed.

Lemma log2_lower p q : 0 < p -> 0 < q -> pow2_le (Z.log2 p - Z.log2 q - 1) p q = true.
Proof.
  intros Hp Hq. unfold pow2_le. pose proof (Z.log2_spec p Hp) as [Hp1 _].
  pose proof (Z.log2_spec q Hq) as [_ Hq2].
  pose proof (Z.log2_nonneg p). pose proof (Z.log2_nonneg q).
  set (a := Z.log2 p) in *. set (b := Z.log2 q) in *. clearbody a b.
  destruct (Z.leb_spec 0 (a - b - 1)); apply Z.leb_le.
  - replace a with ((Z.succ b) + (a - b - 1)) in Hp1 at 1 by lia. rewrite Z.pow_add_r in Hp1 by lia.
    assert (0 < 2 ^ (a - b - 1)) by (apply Z.pow_pos_nonneg; lia). nia.
  - assert (Z.succ b = a + (- (a - b - 1))) as Hs by lia. rewrite Hs in Hq2.
    rewrite Z.pow_add_r in Hq2 by lia.
    assert (0 < 2 ^ (- (a - b - 1))) by (apply Z.pow_pos_nonneg; lia). nia.
Qed.

Lemma log2_upper p q : 0 < p -> 0 < q -> pow2_le (Z.log2 p - Z.log2 q + 1) p q = false.
Proof.
  intros Hp Hq. unfold pow2_le. pose proof (Z.log2_spec p Hp) as [_ Hp2].
  pose proof (Z.log2_spec q Hq) as [Hq1 _].
  pose proof (Z.log2_nonneg p). pose proof (Z.log2_nonneg q).
  set (a := Z.log2 p) in *. set (b := Z.log2 q) in *. clearbody a b.
  destruct (Z.leb_spec 0 (a - b + 1)); apply Z.leb_gt.
  - replace (Z.succ a) with (b + (a - b + 1)) in Hp2 by lia. rewrite Z.pow_add_r in Hp2 by lia.
    assert (0 < 2 ^ (a - b + 1)) by (apply Z.pow_pos_nonneg; lia). nia.
  - replace b with (Z.succ a + (- (a - b + 1))) in Hq1 at 1 by lia.
    rewrite Z.pow_add_r in Hq1 by lia.
    assert (0 < 2 ^ (- (a - b + 1))) by (apply Z.pow_pos_nonneg; lia). nia.
Qed.

Lemma Qpow2_Z n : 0 <= n -> (2 ^ n == inject_Z (2 ^ n))%Q.
Proof. intros H. by rewrite Zpower_Qpower. Qed.

Lemma Qpow2_pos e : (0 < 2 ^ e)%Q.
Proof. by apply Qpower_0_lt. Qed.

Lemma Qpow2_neg n : n < 0 -> (2 ^ n == / inject_Z (2 ^ (- n)))%Q.
Proof. intros H. rewrite <- Qpow2_Z by lia. rewrite <- Qpower_opp. by rewrite Z.opp_involutive. Qed.

Lemma inject_pos n : 0 < n -> (0 < inject_Z n)%Q.
Proof. intros H. by rewrite <- (Zlt_Qlt 0). Qed.

Lemma pow2_le_spec k p q :
  0 < q -> pow2_le k p q = true <-> (2 ^ k <= inject_Z p / inject_Z q)%Q.
Proof.
  intros Hq. unfold pow2_le. pose proof (inject_pos q Hq) as Hq'.
  destruct (Z.leb_spec 0 k) as [Hk|Hk]; rewrite Z.leb_le.
  - rewrite Qpow2_Z by done. rewrite Zle_Qle, inject_Z_mult. split; intros H.
    + apply Qle_shift_div_l; [done|]. rewrite Qmult_comm. done.
    + rewrite Qmult_comm. setoid_replace (inject_Z p) with (inject_Z p / inject_Z q * inject_Z q)%Q.
      * apply Qmult_le_compat_r; [done|lra].
      * field. lra.
  - rewrite Qpow2_neg by done. assert (Hd : (0 < inject_Z (2 ^ (- k)))%Q).
    { apply inject_pos, Z.pow_pos_nonneg; lia. }
    rewrite Zle_Qle, inject_Z_mult. set (d := inject_Z (2 ^ (- k))) in *. clearbody d. split; intros H.
    + apply Qle_shift_div_l; [done|]. rewrite Qmult_comm. apply Qle_shift_div_r; done.
    + setoid_replace (inject_Z q) with (/ d * (inject_Z q * d))%Q by (field; lra).
      setoid_replace (inject_Z p * d)%Q with (inject_Z p / inject_Z q * (inject_Z q * d))%Q
        by (field; lra).
      apply Qmult_le_compat_r; [done|]. apply Qmult_le_0_compat; lra.
Qed.

Lemma scaled_spec p q e a b :
  0 < q -> scaled p q e = (a, b) ->
  0 < b /\ (inject_Z a == inject_Z p / inject_Z q / 2 ^ e * inject_Z b)%Q.
Proof.
  intros Hq. unfold scaled. pose proof (inject_pos q Hq) as Hq'.
  destruct (Z.leb_spec 0 e) as [He|He]; intros [= <- <-].
  - assert (Hp : 0 < 2 ^ e) by (apply Z.pow_pos_nonneg; lia). split; [nia|].
    rewrite Qpow2_Z by done. apply inject_pos in Hp. rewrite inject_Z_mult. field. lra.
  - assert (Hp : 0 < 2 ^ (- e)) by (apply Z.pow_pos_nonneg; lia). split; [done|].
    rewrite Qpow2_neg by done. apply inject_pos in Hp. rewrite inject_Z_mult. field. lra.
Qed.

Lemma ldexp_spec m e : (ldexp m e == inject_Z m * 2 ^ e)%Q.
Proof.
  unfold ldexp. destruct (Z.leb_spec 0 e) as [He|He].
  - by rewrite Qpow2_Z, inject_Z_mult.
  - rewrite Qpow2_neg by done. rewrite Qmake_Qdiv. rewrite Z2Pos.id; [done|].
    apply Z.pow_pos_nonneg; lia.
Qed.

(** [ulp_exp] is 52 binary digits below the leading one. *)
Lemma ulp_exp_normal p q :
  0 < p -> 0 < q -> (2 ^ (- 1022) <= inject_Z p / inject_Z q)%Q ->
  (2 ^ (ulp_exp p q + 52) <= inject_Z p / inject_Z q)%Q.
Proof.
  intros Hp Hq Hx. unfold ulp_exp. pose proof (log2_lower p q Hp Hq) as Hlo.
  pose proof (log2_upper p q Hp Hq) as Hup.
  set (k0 := Z.log2 p - Z.log2 q) in *. clearbody k0.
  set (k := if pow2_le k0 p q then k0 else k0 - 1).
  assert (Hk : (2 ^ k <= inject_Z p / inject_Z q)%Q /\ ~ (2 ^ (k + 1) <= inject_Z p / inject_Z q)%Q).
  { unfold k. destruct (pow2_le k0 p q) eqn:E; split.
    - by apply pow2_le_spec.
    - rewrite <- pow2_le_spec by done. by rewrite Hup.
    - by apply pow2_le_spec.
    - rewrite <- pow2_le_spec by done. replace (k0 - 1 + 1) with k0 by lia. by rewrite E. }
  destruct Hk as [Hk1 Hk2]. assert (- 1022 <= k).
  { destruct (Z.le_gt_cases (- 1022) k) as [|Hlt]; [done|]. exfalso. apply Hk2.
    eapply Qle_trans; [|exact Hx]. apply Qpower_le_compat_l; [lia|]. lra. }
  rewrite Z.max_l by lia. by replace (k - 52 + 52) with k by lia.
Qed.

(** A normal number is rounded with a relative error of at most [2^-53]. *)
Lemma round_pos_err x :
  (2 ^ (- 1022) <= x)%Q ->
  (x * (1 - 2 ^ (- 53)) <= round_pos x)%Q /\ (round_pos x <= x * (1 + 2 ^ (- 53)))%Q.
Proof.
  intros Hx. unfold round_pos. pose proof (Qpow2_pos (- 1022)) as H0.
  assert (Hxp : (inject_Z (Qnum x) / inject_Z (Zpos (Qden x)) == x)%Q).
  { rewrite <- Qmake_Qdiv. by destruct x. }
  assert (Hp : 0 < Qnum x).
  { assert (0 < x)%Q as Hpos by lra. unfold Qlt in Hpos. simpl in Hpos. lia. }
  destruct (Z.leb_spec (Qnum x) 0); [lia|].
  set (p := Qnum x) in *. set (q := Zpos (Qden x)) in *.
  assert (Hq : 0 < q) by by unfold q.
  pose proof (ulp_exp_normal p q Hp Hq) as Hu. rewrite Hxp in Hu. specialize (Hu Hx).
  rewrite !ldexp_spec. unfold signif. set (e := ulp_exp p q) in *. clearbody e.
  destruct (scaled p q e) as [a b] eqn:Es. apply scaled_spec in Es as [Hb Hab]; [|done].
  rewrite Hxp in Hab. pose proof (half_even_err a b Hb) as [Hl Hh].
  set (m := half_even a b) in *. clearbody m.
  pose proof (Qpow2_pos e) as He. pose proof (inject_pos b Hb) as Hb'.
  rewrite Zle_Qle in Hl, Hh. unfold Z.sub in Hl, Hh.
  rewrite !inject_Z_opp, inject_Z_mult, inject_Z_plus, inject_Z_mult, inject_Z_opp in Hl.
  rewrite inject_Z_mult, inject_Z_plus, inject_Z_mult, inject_Z_opp in Hh.
  rewrite Hab in Hl, Hh.
  assert (H53 : (2 ^ e <= 2 * (x * 2 ^ (-53)))%Q).
  { rewrite Qpower_plus in Hu by lra. setoid_replace (2 ^ (-53))%Q with (/ 2 * / 2 ^ 52)%Q by reflexivity.
    assert (H52 : (0 < 2 ^ 52)%Q) by apply Qpow2_pos.
    setoid_replace (2 * (x * (/ 2 * / 2 ^ 52)))%Q with (x / 2 ^ 52)%Q by (field; lra).
    by apply Qle_shift_div_l. }
  set (E := (2 ^ e)%Q) in *. set (X := inject_Z b) in *. set (M := inject_Z m) in *.
  set (t := (2 ^ (-53))%Q) in *. clearbody E X M t. clear - Hl Hh He Hb' H53.
  change (inject_Z 2) with 2%Q in *.
  assert (HE : (2 * (M * E - x) <= E)%Q /\ (- E <= 2 * (M * E - x))%Q).
  { setoid_replace (2 * (M * X + - (x / E * X)))%Q with (2 * (M * E - x) * (X / E))%Q in Hl by (field; lra).
    setoid_replace (2 * (M * X + - (x / E * X)))%Q with (2 * (M * E - x) * (X / E))%Q in Hh by (field; lra).
    setoid_replace (- X)%Q with (- E * (X / E))%Q in Hl by (field; lra).
    setoid_replace X with (E * (X / E))%Q in Hh at 2 by (field; lra).
    assert (HXE : (0 < X / E)%Q) by (apply Qlt_shift_div_l; lra).
    apply Qmult_le_r in Hl; [|done]. apply Qmult_le_r in Hh; [|done]. done. }
  lra.
Qed.

(** ** Integers are exact *)

Lemma half_even_1 a : half_even a 1 = a.
Proof. unfold half_even. rewrite Z.div_1_r, Z.mod_1_r. done. Qed.

Lemma round_pos_int n : 0 <= n < 2 ^ 53 -> (round_pos (n # 1) == inject_Z n)%Q.
Proof.
  intros [H0 H1]. unfold round_pos. cbn [Qnum Qden].
  destruct (Z.leb_spec n 0); [by replace n with 0 by lia|].
  rewrite ldexp_spec. unfold signif.
  assert (He : ulp_exp n 1 <= 0).
  { unfold ulp_exp. cbn [Z.log2]. assert (Z.log2 n < 53) by (apply Z.log2_lt_pow2; lia).
    destruct (pow2_le _ n 1); lia. }
  set (e := ulp_exp n 1) in *. clearbody e. unfold scaled.
  destruct (Z.leb_spec 0 e).
  - replace e with 0 by lia. rewrite Z.pow_0_r, half_even_1. simpl. ring.
  - rewrite half_even_1, inject_Z_mult, Qpow2_neg by lia.
    assert (0 < inject_Z (2 ^ (- e)))%Q by (apply inject_pos, Z.pow_pos_nonneg; lia).
    field. lra.
Qed.

Lemma to_double_int n :
  0 <= n < 2 ^ 53 -> exists q, to_double (n # 1) = Fin q /\ (q == inject_Z n)%Q.
Proof.
  intros Hn. pose proof (round_pos_int n Hn) as Hr. unfold to_double. cbn [Qnum].
  replace (n <? 0) with false by (symmetry; apply Z.ltb_ge; lia).
  destruct (Qle_bool _ _) eqn:E; [|eauto]. exfalso.
  apply Qle_bool_iff in E. rewrite Hr, <- Zle_Qle in E.
  assert (2 ^ 53 < 2 ^ 1024) by by vm_compute. lia.
Qed.

Lemma span_all P s : Forall (fun c => P c = true) s -> span P s = (s, []).
Proof. induction 1 as [|c s Hc Hs IH]; simpl; [done|]. by rewrite Hc, IH. Qed.

Lemma span_stop P a c b :
  (forall x, x ∈ a -> P x = true) -> P c = false -> span P (a ++ c :: b) = (a, c :: b).
Proof.
  intros Ha Hc. induction a as [|d a IH]; cbn [app span].
  - by rewrite Hc.
  - rewrite Ha by by left. rewrite IH; [done|]. intros x Hx. apply Ha. by right.
Qed.

Lemma digit_not_space c : is_digit c = true -> is_js_space c = false.
Proof.
  intros H. apply is_digit_spec in H. assert (Hall : forallb (fun k => negb (is_js_space k))
    (map N.of_nat (seq 48 10)) = true) by by vm_compute.
  rewrite forallb_forall in Hall. apply negb_true_iff, Hall, in_map_iff.
  exists (N.to_nat c). split; [by apply N2Nat.id|]. apply in_seq. lia.
Qed.

Lemma trim_digits s : Forall (fun c => is_digit c = true) s -> trim s = s.
Proof.
  intros H. assert (Hs : forall t, Forall (fun c => is_digit c = true) t -> skip_space t = t).
  { intros t [|c t' Hc Ht]; simpl; [done|]. by rewrite digit_not_space. }
  unfold trim. rewrite (Hs s) by done. rewrite Hs; [apply rev_involutive|]. by apply Forall_rev.
Qed.

(** Reading back the decimal of a natural number. *)
Lemma num_of_dec n :
  (n < 2 ^ 53)%N -> exists q, num_of_str (dec_of_N n) = Fin q /\ (q == inject_Z (Z.of_N n))%Q.
Proof.
  intros Hn. destruct (dec_of_N_spec n) as (Hv & Hd & Hne & H0).
  assert (Hdec : num_of_str (dec_of_N n) = decimal false (dec_of_N n)).
  { unfold num_of_str. rewrite trim_digits by done.
    destruct (dec_of_N n) as [|c r] eqn:E; [done|].
    apply Forall_cons in Hd as [Hc Hd].
    assert (Hno : forall d, is_digit d = false -> c <> d) by (intros d Hd' ->; congruence).
    assert (Hsig : signed (c :: r) = (false, c :: r)).
    { simpl. destruct (N.eqb_spec c (chr "-")) as [Ec|]; [by apply Hno in Ec|].
      by destruct (N.eqb_spec c (chr "+")) as [Ec|]; [apply Hno in Ec|]. }
    assert (Hinf : jeqb (c :: r) (js "Infinity") = false).
    { apply jeqb_false. change (js "Infinity") with (chr "I" :: js "nfinity").
      intros [= Ec _]. by apply Hno in Ec. }
    destruct (N.eq_dec c 48%N) as [-> | Hc48].
    - assert (n = 0%N) as -> by by apply H0. injection E as <-. done.
    - rewrite Hsig, Hinf. destruct c as [|p]; [done|].
      do 6 (destruct p as [p|p|]; try done). }
  rewrite Hdec. unfold decimal. rewrite span_all by done. rewrite app_nil_r, Hv.
  rewrite (bool_decide_eq_false_2 (dec_of_N n = [])) by done. cbn [andb exponent length].
  change (pow10 (0 - Z.of_nat 0)) with 1%Q.
  replace (inject_Z (Z.of_N n) * 1)%Q with (Z.of_N n # 1).
  - apply to_double_int. split; [lia|]. change (2 ^ 53) with (Z.of_N (2 ^ 53)). lia.
  - unfold inject_Z, Qmult. simpl. by rewrite Z.mul_1_r.
Qed.

(** [String(~~Number(s)) = s] for the decimal of an integer below [2 ^ 31]. *)
Lemma int32_of_dec n :
  (n < 2 ^ 31)%N -> dec_of_Z (to_int32 (num_of_str (dec_of_N n))) = dec_of_N n.
Proof.
  intros Hn. destruct (num_of_dec n) as (q & -> & Hq).
  { eapply N.lt_trans; [exact Hn|]. by vm_compute. }
  unfold to_int32. assert (Hneg : (Qnum q <? 0) = false).
  { apply Z.ltb_ge. unfold Qeq in Hq. simpl in Hq. lia. }
  assert (Hf : Qfloor q = Z.of_N n) by (rewrite Hq; apply Qfloor_Z).
  rewrite Hneg, Hf.
  assert (Hz : 0 <= Z.of_N n < 2 ^ 31). { change (2 ^ 31) with (Z.of_N (2 ^ 31)). lia. }
  rewrite Z.mod_small by lia. destruct (Z.leb_spec (2 ^ 31) (Z.of_N n)); [lia|].
  unfold dec_of_Z. replace (Z.of_N n <? 0) with false by (symmetry; apply Z.ltb_ge; lia).
  by rewrite N2Z.id.
Qed.
