(* ===== verification/UriCodec.v ===== *)
(** * URI encoding

    [encodeURIComponent] and [decodeURIComponent] of the language, and the helpers of
    angular.js built on them: [encodeUriQuery], [encodeUriSegment], [tryDecodeURIComponent],
    [parseKeyValue], [toKeyValue] and [encodePath].  The language's two functions work on
    tokens: an unescaped code unit, or a percent escape of one byte. *)

From S2P Require Import Prelude JsString JsObject.

Local Open Scope N_scope.

(** A malformed URI sequence. *)
Inductive uri_error : Type := URIError.

Inductive uri_tok : Type :=
| Raw (c : unit16)
| Pct (b : N).

#[export] Instance uri_tok_eq_dec : EqDecision uri_tok.
Proof. solve_decision. Defined.

(** ** Percent escapes *)

Definition hex_digit (n : N) : unit16 := if n <? 10 then 48 + n else 55 + n.

Definition hex_value (c : unit16) : option N :=
  if (48 <=? c) && (c <=? 57) then Some (c - 48)
  else if (65 <=? c) && (c <=? 70) then Some (c - 55)
  else if (97 <=? c) && (c <=? 102) then Some (c - 87)
  else None.

Definition render_tok (t : uri_tok) : jstr :=
  match t with
  | Raw c => [c]
  | Pct b => [37; hex_digit (b / 16); hex_digit (b mod 16)]
  end.

Definition render (ts : list uri_tok) : jstr := concat (map render_tok ts).

Fixpoint tokenize (s : jstr) : option (list uri_tok) :=
  match s with
  | [] => Some []
  | c :: s' =>
      if c =? 37 then
        match s' with
        | h :: l :: r =>
            match hex_value h, hex_value l with
            | Some x, Some y => cons (Pct (16 * x + y)) <$> tokenize r
            | _, _ => None
            end
        | _ => None
        end
      else cons (Raw c) <$> tokenize s'
  end.

Definition tok_wf (t : uri_tok) : Prop :=
  match t with Raw c => c <> 37 | Pct b => b < 256 end.

Lemma hex_value_digit n : n < 16 -> hex_value (hex_digit n) = Some n.
Proof.
  intros H. assert (Hall : forall k : nat, (k < 16)%nat ->
    hex_value (hex_digit (N.of_nat k)) = Some (N.of_nat k)).
  { intros k Hk. do 16 (destruct k as [|k]; [reflexivity|]). lia. }
  specialize (Hall (N.to_nat n)). rewrite N2Nat.id in Hall. apply Hall. lia.
Qed.

Lemma render_cons t ts : render (t :: ts) = render_tok t ++ render ts.
Proof. done. Qed.

Lemma render_app ts us : render (ts ++ us) = render ts ++ render us.
Proof. unfold render. by rewrite map_app, concat_app. Qed.

Lemma tokenize_render ts : Forall tok_wf ts -> tokenize (render ts) = Some ts.
Proof.
  induction 1 as [|t ts Ht Hts IH]; [done|]. rewrite render_cons.
  destruct t as [c|b]; simpl in *.
  - destruct (N.eqb_spec c 37); [done|]. by rewrite IH.
  - rewrite !hex_value_digit.
    + rewrite IH. simpl. do 3 f_equal. symmetry. by apply N.div_mod.
    + by apply N.mod_lt.
    + apply N.Div0.div_lt_upper_bound. lia.
Qed.

(** ** UTF-8 *)

Definition utf8 (v : N) : list N :=
  if v <? 128 then [v]
  else if v <? 2048 then [192 + v / 64; 128 + v mod 64]
  else if v <? 65536 then [224 + v / 64 / 64; 128 + (v / 64) mod 64; 128 + v mod 64]
  else [240 + v / 64 / 64 / 64; 128 + (v / 64 / 64) mod 64; 128 + (v / 64) mod 64; 128 + v mod 64].

Definition is_high (c : unit16) : bool := (55296 <=? c) && (c <=? 56319).
Definition is_low (c : unit16) : bool := (56320 <=? c) && (c <=? 57343).

Definition surrogate_value (h l : unit16) : N := (h - 55296) * 1024 + (l - 56320) + 65536.

(** The code units of a code point. *)
Definition utf16 (v : N) : jstr :=
  if v <? 65536 then [v]
  else [55296 + (v - 65536) / 1024; 56320 + (v - 65536) mod 1024].

Definition is_cont (b : N) : bool := (128 <=? b) && (b <=? 191).

(** ** encodeURIComponent *)

(** Letters, digits and the marks [- _ . ! ~ * ' ( )]. *)
Definition uri_unreserved (c : unit16) : bool :=
  is_digit c || ((65 <=? c) && (c <=? 90)) || ((97 <=? c) && (c <=? 122))
  || bool_decide (c ∈ js "-_.!~*'()").

Definition pct_bytes (v : N) : list uri_tok := map Pct (utf8 v).

Fixpoint encode_toks (s : jstr) : result uri_error (list uri_tok) :=
  match s with
  | [] => Ok []
  | c :: s' =>
      if uri_unreserved c then rbind (encode_toks s') (fun ts => Ok (Raw c :: ts))
      else if is_low c then Throw URIError
      else if is_high c then
        match s' with
        | d :: s'' =>
            if is_low d
            then rbind (encode_toks s'') (fun ts => Ok (pct_bytes (surrogate_value c d) ++ ts))
            else Throw URIError
        | [] => Throw URIError
        end
      else rbind (encode_toks s') (fun ts => Ok (pct_bytes c ++ ts))
  end.

Definition encodeURIComponent (s : jstr) : result uri_error jstr :=
  rbind (encode_toks s) (fun ts => Ok (render ts)).

(** ** decodeURIComponent *)

(** A continuation byte adds six bits. *)
Definition cont_acc (v b : N) : N := v * 64 + (b - 128).

Fixpoint decode_toks (ts : list uri_tok) : result uri_error jstr :=
  match ts with
  | [] => Ok []
  | Raw c :: r => rbind (decode_toks r) (fun s => Ok (c :: s))
  | Pct b :: r =>
      if b <? 128 then rbind (decode_toks r) (fun s => Ok (b :: s))
      else if (192 <=? b) && (b <? 224) then
        match r with
        | Pct b1 :: r' =>
            let v := cont_acc (b - 192) b1 in
            if is_cont b1 && (128 <=? v)
            then rbind (decode_toks r') (fun s => Ok (utf16 v ++ s)) else Throw URIError
        | _ => Throw URIError
        end
      else if (224 <=? b) && (b <? 240) then
        match r with
        | Pct b1 :: Pct b2 :: r' =>
            let v := cont_acc (cont_acc (b - 224) b1) b2 in
            if is_cont b1 && is_cont b2 && (2048 <=? v) && negb (is_high v || is_low v)
            then rbind (decode_toks r') (fun s => Ok (utf16 v ++ s)) else Throw URIError
        | _ => Throw URIError
        end
      else if (240 <=? b) && (b <? 248) then
        match r with
        | Pct b1 :: Pct b2 :: Pct b3 :: r' =>
            let v := cont_acc (cont_acc (cont_acc (b - 240) b1) b2) b3 in
            if is_cont b1 && is_cont b2 && is_cont b3 && (65536 <=? v) && (v <=? 1114111)
            then rbind (decode_toks r') (fun s => Ok (utf16 v ++ s)) else Throw URIError
        | _ => Throw URIError
        end
      else Throw URIError
  end.

Definition decodeURIComponent (s : jstr) : result uri_error jstr :=
  match tokenize s with
  | Some ts => decode_toks ts
  | None => Throw URIError
  end.

(** ** Decoding undoes encoding *)

Definition scalar_value (v : N) : Prop :=
  v <= 1114111 /\ is_high v = false /\ is_low v = false.

Lemma is_cont_ok n : n < 64 -> is_cont (128 + n) = true.
Proof. intros H. unfold is_cont. apply andb_true_iff. rewrite !N.leb_le. lia. Qed.

Lemma cont_acc_split v : cont_acc (v / 64) (128 + v mod 64) = v.
Proof.
  unfold cont_acc. pose proof (N.div_mod v 64 ltac:(done)) as H. clear - H. dmlia.
Qed.

Lemma mod64_lt v : v mod 64 < 64.
Proof. by apply N.mod_lt. Qed.

#[local] Hint Resolve is_cont_ok mod64_lt : dodo.

Ltac leb_true := apply N.leb_le; dmlia.
Ltac ltb_true := apply N.ltb_lt; dmlia.
Ltac ltb_false := apply N.ltb_ge; dmlia.

Lemma decode_pct_bytes v r :
  scalar_value v -> decode_toks (pct_bytes v ++ r) = rbind (decode_toks r) (fun s => Ok (utf16 v ++ s)).
Proof.
  intros (Hmax & Hhi & Hlo). unfold pct_bytes, utf8.
  destruct (N.ltb_spec v 128) as [H1|H1].
  { cbn [map app decode_toks]. replace (v <? 128) with true by (symmetry; ltb_true).
    unfold utf16. replace (v <? 65536) with true by (symmetry; ltb_true). done. }
  destruct (N.ltb_spec v 2048) as [H2|H2].
  { assert (Hq : v / 64 < 32) by (apply N.Div0.div_lt_upper_bound; lia).
    cbn [map app decode_toks].
    replace (192 + v / 64 <? 128) with false by (symmetry; ltb_false).
    replace (192 <=? 192 + v / 64) with true by (symmetry; leb_true).
    replace (192 + v / 64 <? 224) with true by (symmetry; ltb_true). cbn [andb].
    replace (192 + v / 64 - 192) with (v / 64) by dmlia. rewrite cont_acc_split.
    rewrite is_cont_ok by auto with dodo.
    replace (128 <=? v) with true by (symmetry; leb_true). done. }
  destruct (N.ltb_spec v 65536) as [H3|H3].
  { assert (Hq : v / 64 / 64 < 16).
    { apply N.Div0.div_lt_upper_bound, N.Div0.div_lt_upper_bound; lia. }
    cbn [map app decode_toks].
    replace (224 + v / 64 / 64 <? 128) with false by (symmetry; ltb_false).
    replace (224 + v / 64 / 64 <? 224) with false by (symmetry; ltb_false).
    rewrite andb_false_r.
    replace (224 <=? 224 + v / 64 / 64) with true by (symmetry; leb_true).
    replace (224 + v / 64 / 64 <? 240) with true by (symmetry; ltb_true). cbn [andb].
    replace (224 + v / 64 / 64 - 224) with (v / 64 / 64) by dmlia. rewrite !cont_acc_split.
    rewrite !is_cont_ok by auto with dodo. rewrite Hhi, Hlo.
    replace (2048 <=? v) with true by (symmetry; leb_true). done. }
  assert (Hq : v / 64 / 64 / 64 < 8).
  { do 2 apply N.Div0.div_lt_upper_bound; apply N.Div0.div_lt_upper_bound; lia. }
  cbn [map app decode_toks].
  replace (240 + v / 64 / 64 / 64 <? 128) with false by (symmetry; ltb_false).
  replace (240 + v / 64 / 64 / 64 <? 224) with false by (symmetry; ltb_false).
  replace (240 + v / 64 / 64 / 64 <? 240) with false by (symmetry; ltb_false).
  rewrite !andb_false_r.
  replace (240 <=? 240 + v / 64 / 64 / 64) with true by (symmetry; leb_true).
  replace (240 + v / 64 / 64 / 64 <? 248) with true by (symmetry; ltb_true). cbn [andb].
  replace (240 + v / 64 / 64 / 64 - 240) with (v / 64 / 64 / 64) by dmlia. rewrite !cont_acc_split.
  rewrite !is_cont_ok by auto with dodo.
  replace (65536 <=? v) with true by (symmetry; leb_true).
  replace (v <=? 1114111) with true by (symmetry; leb_true). done.
Qed.

Lemma utf16_surrogates h l :
  is_high h = true -> is_low l = true -> utf16 (surrogate_value h l) = [h; l].
Proof.
  unfold is_high, is_low. rewrite !andb_true_iff, !N.leb_le. intros [] [].
  unfold utf16, surrogate_value. replace (_ <? 65536) with false by (symmetry; ltb_false).
  replace ((h - 55296) * 1024 + (l - 56320) + 65536 - 65536)
    with ((l - 56320) + (h - 55296) * 1024) by lia.
  rewrite N.div_add, N.Div0.mod_add by done.
  rewrite N.div_small, N.mod_small by lia. f_equal; [lia|]. f_equal. lia.
Qed.

Lemma surrogate_scalar h l :
  is_high h = true -> is_low l = true -> scalar_value (surrogate_value h l).
Proof.
  unfold is_high, is_low. rewrite !andb_true_iff, !N.leb_le. intros [] [].
  unfold scalar_value, is_high, is_low, surrogate_value. rewrite !andb_false_iff, !N.leb_gt. lia.
Qed.

Lemma unit_scalar c : c < 65536 -> is_high c = false -> is_low c = false -> scalar_value c.
Proof. intros ? ? ?. split_and!; [lia|done|done]. Qed.

Lemma utf16_unit c : c < 65536 -> utf16 c = [c].
Proof. intros H. unfold utf16. by replace (c <? 65536) with true by (symmetry; ltb_true). Qed.

Lemma decode_encode_toks s ts :
  Forall (fun c => c < 65536) s -> encode_toks s = Ok ts -> decode_toks ts = Ok s.
Proof.
  revert s ts. fix IH 1. intros [|c s] ts Hs; cbn [encode_toks].
  { by intros [= <-]. }
  apply Forall_cons in Hs as [Hc Hs].
  destruct (uri_unreserved c).
  { intros (ts' & Hts & [= <-])%rbind_ok. simpl. by rewrite (IH s ts'). }
  destruct (is_low c) eqn:Hlo; [done|]. destruct (is_high c) eqn:Hhi.
  - destruct s as [|d s]; [done|]. apply Forall_cons in Hs as [Hd Hs].
    destruct (is_low d) eqn:Hld; [|done].
    intros (ts' & Hts & [= <-])%rbind_ok.
    rewrite decode_pct_bytes by by apply surrogate_scalar.
    rewrite (IH s ts') by done. simpl. by rewrite utf16_surrogates.
  - intros (ts' & Hts & [= <-])%rbind_ok.
    rewrite decode_pct_bytes by by apply unit_scalar.
    rewrite (IH s ts') by done. simpl. by rewrite utf16_unit.
Qed.

Lemma utf8_bytes v : v <= 1114111 -> Forall (fun b => b < 256) (utf8 v).
Proof.
  intros H. unfold utf8.
  pose proof (mod64_lt v). pose proof (mod64_lt (v / 64)). pose proof (mod64_lt (v / 64 / 64)).
  destruct (N.ltb_spec v 128); [by repeat constructor; lia|].
  destruct (N.ltb_spec v 2048).
  { assert (v / 64 < 32) by (apply N.Div0.div_lt_upper_bound; lia).
    repeat constructor; dmlia. }
  destruct (N.ltb_spec v 65536).
  { assert (v / 64 / 64 < 16).
    { apply N.Div0.div_lt_upper_bound, N.Div0.div_lt_upper_bound; lia. }
    repeat constructor; dmlia. }
  assert (v / 64 / 64 / 64 < 8).
  { do 2 apply N.Div0.div_lt_upper_bound; apply N.Div0.div_lt_upper_bound; lia. }
  repeat constructor; dmlia.
Qed.

Lemma pct_bytes_wf v : v <= 1114111 -> Forall tok_wf (pct_bytes v).
Proof. intros H%utf8_bytes. unfold pct_bytes. by apply Forall_fmap. Qed.

Lemma unreserved_not_pct c : uri_unreserved c = true -> c <> 37.
Proof. by intros H ->. Qed.

Lemma encode_toks_wf s ts :
  Forall (fun c => c < 65536) s -> encode_toks s = Ok ts -> Forall tok_wf ts.
Proof.
  revert s ts. fix IH 1. intros [|c s] ts Hs; cbn [encode_toks].
  { by intros [= <-]. }
  apply Forall_cons in Hs as [Hc Hs].
  destruct (uri_unreserved c) eqn:Hu.
  { intros (ts' & Hts & [= <-])%rbind_ok. constructor; [by apply unreserved_not_pct|].
    by apply (IH s ts'). }
  destruct (is_low c) eqn:Hlo; [done|]. destruct (is_high c) eqn:Hhi.
  - destruct s as [|d s]; [done|]. apply Forall_cons in Hs as [Hd Hs].
    destruct (is_low d) eqn:Hld; [|done].
    intros (ts' & Hts & [= <-])%rbind_ok. apply Forall_app. split; [|by apply (IH s ts')].
    apply pct_bytes_wf. by apply surrogate_scalar.
  - intros (ts' & Hts & [= <-])%rbind_ok. apply Forall_app. split; [|by apply (IH s ts')].
    apply pct_bytes_wf. lia.
Qed.

(** A JavaScript string: every unit has 16 bits. *)
Definition js_wf (s : jstr) : Prop := Forall (fun c => c < 65536) s.

Lemma decode_encodeURIComponent s e :
  js_wf s -> encodeURIComponent s = Ok e -> decodeURIComponent e = Ok s.
Proof.
  intros Hs (ts & Hts & [= <-])%rbind_ok. unfold decodeURIComponent.
  rewrite tokenize_render by by eapply encode_toks_wf. by apply decode_encode_toks.
Qed.

(** Decoding a complete sequence, then the rest. *)
Lemma decode_toks_app a b s :
  decode_toks a = Ok s -> decode_toks (a ++ b) = rbind (decode_toks b) (fun t => Ok (s ++ t)).
Proof.
  revert s. induction a as [a IH] using list_len_ind.
  assert (Hgo : forall (r : list uri_tok) (v s : jstr), (length r < length a)%nat ->
    rbind (decode_toks r) (fun t => Ok (v ++ t)) = Ok s ->
    rbind (decode_toks (r ++ b)) (fun t => Ok (v ++ t))
    = rbind (decode_toks b) (fun t => Ok (s ++ t))).
  { intros r v s Hr (u & Hu & [= <-])%rbind_ok. rewrite (IH r Hr u Hu).
    destruct (decode_toks b); simpl; [|done]. by rewrite app_assoc. }
  clear IH. intros s. destruct a as [|[c|x] r]; cbn [decode_toks app].
  - intros [= <-]. by destruct (decode_toks b).
  - apply (Hgo r [c]). simpl; lia.
  - destruct (x <? 128); [apply (Hgo r [x]); simpl; lia|].
    destruct ((192 <=? x) && (x <? 224)).
    { destruct r as [|[|b1] r]; try done. cbn [app]. destruct (is_cont b1 && _); [|done].
      apply Hgo. simpl; lia. }
    destruct ((224 <=? x) && (x <? 240)).
    { destruct r as [|[|b1] [|[|b2] r]]; try done. cbn [app].
      destruct (is_cont b1 && is_cont b2 && _ && _); [|done]. apply Hgo. simpl; lia. }
    destruct ((240 <=? x) && (x <? 248)); [|done].
    destruct r as [|[|b1] [|[|b2] [|[|b3] r]]]; try done. cbn [app].
    destruct (is_cont b1 && is_cont b2 && is_cont b3 && _ && _); [|done]. apply Hgo. simpl; lia.
Qed.

(** ** encodeUriQuery and encodeUriSegment *)

(** [s.replace(/%HL/g, rep)] for a two-digit escape recognised by [m]. *)
Fixpoint replace_pct (m : N -> N -> bool) (rep : jstr) (s : jstr) : jstr :=
  match s with
  | [] => []
  | c :: s' =>
      match s' with
      | h :: l :: r =>
          if (c =? 37) && m h l then rep ++ replace_pct m rep r else c :: replace_pct m rep s'
      | _ => c :: replace_pct m rep s'
      end
  end.

(** The two digits of the escape, and the same up to letter case ([/.../gi]). *)
Definition pct_exact (d : lit) (h l : N) : bool := jeqb [h; l] (js d).
Definition lower_unit (c : N) : N := if (65 <=? c) && (c <=? 90) then c + 32 else c.
Definition pct_nocase (d : lit) (h l : N) : bool :=
  jeqb [lower_unit h; lower_unit l] (map lower_unit (js d)).

Arguments pct_exact d%_string_scope h l.
Arguments pct_nocase d%_string_scope h l.

Definition encodeUriQuery (val : jstr) (pctEncodeSpaces : bool) : result uri_error jstr :=
  rbind (encodeURIComponent val) (fun e => Ok (
    replace_pct (pct_exact "20") (if pctEncodeSpaces then js "%20" else js "+")
      (replace_pct (pct_nocase "2C") (js ",")
        (replace_pct (pct_exact "24") (js "$")
          (replace_pct (pct_nocase "3A") (js ":")
            (replace_pct (pct_nocase "40") (js "@") e)))))).

Definition encodeUriSegment (val : jstr) : result uri_error jstr :=
  rbind (encodeUriQuery val true) (fun e => Ok (
    replace_pct (pct_nocase "2B") (js "+")
      (replace_pct (pct_nocase "3D") (js "=")
        (replace_pct (pct_nocase "26") (js "&") e)))).

Definition tryDecodeURIComponent (value : jstr) : option jstr := ok_value (decodeURIComponent value).

Definition encodePath (path : jstr) : result uri_error jstr :=
  rbind (map_result encodeUriSegment (split (chr "/") path)) (fun segments =>
    Ok (join (js "/") segments)).

Example encodeUriQuery_ex :
  encodeUriQuery (js "a b@c:d$e,f&g=h+i/j") true = Ok (js "a%20b@c:d$e,f%26g%3Dh%2Bi%2Fj")
  /\ encodeUriQuery (js "a b") false = Ok (js "a+b")
  /\ encodeURIComponent [8364] = Ok (js "%E2%82%AC")
  /\ encodeURIComponent [55357; 56832] = Ok (js "%F0%9F%98%80")
  /\ encodeURIComponent [55357] = Throw URIError
  /\ decodeURIComponent (js "%E2%82%AC%41") = Ok [8364; 65]
  /\ decodeURIComponent (js "%E2%82") = Throw URIError
  /\ encodePath (js "/home/a b/c=d") = Ok (js "/home/a%20b/c=d").
Proof. by vm_compute. Qed.

(** The replacements undo the escape of one byte, token by token. *)
Definition unescape_tok (k : N) (t : uri_tok) : uri_tok :=
  match t with Pct b => if b =? k then Raw b else t | Raw _ => t end.

Definition pct_matches (m : N -> N -> bool) (k : N) : Prop :=
  forall b, b < 256 -> m (hex_digit (b / 16)) (hex_digit (b mod 16)) = (b =? k).

Lemma all_bytes (P : N -> bool) :
  forallb P (map N.of_nat (seq 0 256)) = true -> forall b, b < 256 -> P b = true.
Proof.
  rewrite forallb_forall. intros H b Hb. apply H. apply in_map_iff. exists (N.to_nat b).
  split; [by apply N2Nat.id|]. apply in_seq. lia.
Qed.

Ltac pct_enum :=
  intros b Hb; apply eqb_true_iff;
  refine (all_bytes (fun b => eqb (_ (hex_digit (b / 16)) (hex_digit (b mod 16))) (b =? _)) _ b Hb);
  vm_compute; reflexivity.

Lemma pct_matches_40 : pct_matches (pct_nocase "40") 64. Proof. pct_enum. Qed.
Lemma pct_matches_3A : pct_matches (pct_nocase "3A") 58. Proof. pct_enum. Qed.
Lemma pct_matches_24 : pct_matches (pct_exact "24") 36. Proof. pct_enum. Qed.
Lemma pct_matches_2C : pct_matches (pct_nocase "2C") 44. Proof. pct_enum. Qed.
Lemma pct_matches_20 : pct_matches (pct_exact "20") 32. Proof. pct_enum. Qed.
Lemma pct_matches_26 : pct_matches (pct_nocase "26") 38. Proof. pct_enum. Qed.
Lemma pct_matches_3D : pct_matches (pct_nocase "3D") 61. Proof. pct_enum. Qed.
Lemma pct_matches_2B : pct_matches (pct_nocase "2B") 43. Proof. pct_enum. Qed.

Lemma replace_pct_raw m rep c s : c <> 37 -> replace_pct m rep (c :: s) = c :: replace_pct m rep s.
Proof.
  intros H. cbn [replace_pct]. destruct s as [|h [|l r]]; try done.
  by destruct (N.eqb_spec c 37).
Qed.

Lemma replace_pct_esc m rep h l r :
  replace_pct m rep (37 :: h :: l :: r)
  = if m h l then rep ++ replace_pct m rep r else 37 :: replace_pct m rep (h :: l :: r).
Proof. done. Qed.

Lemma hex_digit_not_pct n : n < 16 -> hex_digit n <> 37.
Proof. intros H. unfold hex_digit. destruct (N.ltb_spec n 10); lia. Qed.

Lemma byte_digits b : b < 256 -> b / 16 < 16 /\ b mod 16 < 16.
Proof. intros H. split; [apply N.Div0.div_lt_upper_bound; lia|by apply N.mod_lt]. Qed.

Lemma replace_pct_render m k rep ts :
  pct_matches m k -> rep = render_tok (Raw k) \/ rep = render_tok (Pct k) -> Forall tok_wf ts ->
  replace_pct m rep (render ts)
  = render (map (fun t => if decide (rep = [k]) then unescape_tok k t else t) ts).
Proof.
  intros Hm Hrep. induction 1 as [|t ts Ht Hts IH]; [done|].
  rewrite render_cons. cbn [map]. rewrite render_cons, <- IH. clear IH. destruct t as [c|b].
  - cbn [render_tok app]. rewrite replace_pct_raw by done. by destruct (decide _).
  - simpl in Ht. pose proof (byte_digits b Ht) as [Hx Hy].
    cbn [render_tok app]. rewrite replace_pct_esc, (Hm b Ht). cbn [unescape_tok].
    destruct (N.eqb_spec b k) as [-> | Hne].
    + destruct (decide (rep = [k])) as [-> | ]; [done|]. destruct Hrep as [-> | ->]; done.
    + rewrite !replace_pct_raw by by apply hex_digit_not_pct. by destruct (decide (rep = [k])).
Qed.

Lemma decode_unescape k ts : k < 128 -> decode_toks (map (unescape_tok k) ts) = decode_toks ts.
Proof.
  intros Hk. assert (Hc : forall b, b =? k = true -> is_cont b = false).
  { intros b ->%N.eqb_eq. unfold is_cont. by replace (128 <=? k) with false by (symmetry; apply N.leb_gt; lia). }
  induction ts as [ts IH] using list_len_ind.
  destruct ts as [|[c|x] r]; [done| |].
  { cbn [map unescape_tok decode_toks]. rewrite IH; [done|simpl; lia]. }
  cbn [map unescape_tok decode_toks]. destruct (N.eqb_spec x k) as [-> | Hx].
  { cbn [decode_toks]. replace (k <? 128) with true by (symmetry; ltb_true).
    rewrite IH; [done|simpl; lia]. }
  cbn [decode_toks]. destruct (x <? 128); [rewrite IH; [done|simpl; lia]|].
  destruct ((192 <=? x) && (x <? 224)).
  { destruct r as [|[|b1] r]; try done. cbn [map unescape_tok].
    destruct (b1 =? k) eqn:E1; [by rewrite (Hc b1 E1)|].
    destruct (is_cont b1 && _); [|done]. rewrite IH; [done|simpl; lia]. }
  destruct ((224 <=? x) && (x <? 240)).
  { destruct r as [|[|b1] [|[|b2] r]]; try done; cbn [map unescape_tok];
      (destruct (b1 =? k) eqn:E1; [by rewrite ?(Hc b1 E1)|]); try done.
    destruct (b2 =? k) eqn:E2; [by rewrite (Hc b2 E2), andb_false_r|].
    destruct (is_cont b1 && is_cont b2 && _ && _); [|done]. rewrite IH; [done|simpl; lia]. }
  destruct ((240 <=? x) && (x <? 248)); [|done].
  destruct r as [|[|b1] [|[|b2] [|[|b3] r]]]; try done; cbn [map unescape_tok];
    (destruct (b1 =? k) eqn:E1; [by rewrite ?(Hc b1 E1)|]); try done;
    (destruct (b2 =? k) eqn:E2; [by rewrite ?(Hc b2 E2), ?andb_false_r|]); try done.
  destruct (b3 =? k) eqn:E3; [by rewrite (Hc b3 E3), andb_false_r|].
  destruct (is_cont b1 && is_cont b2 && is_cont b3 && _ && _); [|done]. rewrite IH; [done|simpl; lia].
Qed.

Lemma unescape_wf k ts : k <> 37 -> Forall tok_wf ts -> Forall tok_wf (map (unescape_tok k) ts).
Proof.
  intros Hk H. apply Forall_fmap. eapply Forall_impl; [exact H|]. intros [c|b] Ht; simpl; [done|].
  by destruct (N.eqb_spec b k) as [-> | ].
Qed.

(** Replace several escapes, the first one of the list first. *)
Definition unescape_all (ks : list N) (ts : list uri_tok) : list uri_tok :=
  fold_left (fun us k => map (unescape_tok k) us) ks ts.

Lemma unescape_all_wf ks ts :
  Forall (fun k => k <> 37 /\ k < 128) ks -> Forall tok_wf ts -> Forall tok_wf (unescape_all ks ts).
Proof.
  intros H. revert ts. induction H as [|k ks [Hk _] Hks IH]; intros ts Hts; [done|].
  simpl. apply IH. by apply unescape_wf.
Qed.

Lemma decode_unescape_all ks ts :
  Forall (fun k => k <> 37 /\ k < 128) ks -> decode_toks (unescape_all ks ts) = decode_toks ts.
Proof.
  intros H. revert ts. induction H as [|k ks [_ Hk] Hks IH]; intros ts; [done|].
  simpl. rewrite IH. by apply decode_unescape.
Qed.

Definition query_marks : list N := [64; 58; 36; 44].
Definition segment_marks : list N := query_marks ++ [38; 61; 43].

Lemma segment_marks_ok : Forall (fun k => k <> 37 /\ k < 128) segment_marks.
Proof. by repeat constructor. Qed.
Lemma query_marks_ok : Forall (fun k => k <> 37 /\ k < 128) query_marks.
Proof. by repeat constructor. Qed.

Lemma replace_pct_step m rep k ts :
  rep = [k] -> k <> 37 -> pct_matches m k -> Forall tok_wf ts ->
  replace_pct m rep (render ts) = render (map (unescape_tok k) ts) /\
  Forall tok_wf (map (unescape_tok k) ts).
Proof.
  intros -> Hk Hm Hts. split; [|by apply unescape_wf].
  rewrite (replace_pct_render m k) by auto. f_equal. apply map_ext.
  intros t. by rewrite decide_True.
Qed.

Lemma replace_pct_space ts :
  Forall tok_wf ts -> replace_pct (pct_exact "20") (js "%20") (render ts) = render ts.
Proof.
  intros Hts. rewrite (replace_pct_render _ 32); [|apply pct_matches_20|by right|done].
  f_equal. rewrite <- (map_id ts) at 2. apply map_ext. done.
Qed.

Lemma encodeUriQuery_spec s e :
  js_wf s -> encodeUriQuery s true = Ok e ->
  exists ts, encode_toks s = Ok ts /\ Forall tok_wf ts /\ e = render (unescape_all query_marks ts).
Proof.
  intros Hs (e0 & (ts & Hts & [= <-])%rbind_ok & [= <-])%rbind_ok.
  pose proof (encode_toks_wf s ts Hs Hts) as Hwf. exists ts. split_and!; [done..|].
  destruct (replace_pct_step (pct_nocase "40") (js "@") 64 ts eq_refl ltac:(done) pct_matches_40 Hwf) as [-> H1].
  destruct (replace_pct_step (pct_nocase "3A") (js ":") 58 _ eq_refl ltac:(done) pct_matches_3A H1) as [-> H2].
  destruct (replace_pct_step (pct_exact "24") (js "$") 36 _ eq_refl ltac:(done) pct_matches_24 H2) as [-> H3].
  destruct (replace_pct_step (pct_nocase "2C") (js ",") 44 _ eq_refl ltac:(done) pct_matches_2C H3) as [-> H4].
  by rewrite replace_pct_space.
Qed.

Lemma encodeUriSegment_spec s e :
  js_wf s -> encodeUriSegment s = Ok e ->
  exists ts, encode_toks s = Ok ts /\ Forall tok_wf ts /\ e = render (unescape_all segment_marks ts).
Proof.
  intros Hs (e0 & (ts & Hts & Hwf & ->)%encodeUriQuery_spec & [= <-])%rbind_ok; [|done].
  exists ts. split_and!; [done..|].
  assert (H0 : Forall tok_wf (unescape_all query_marks ts)).
  { apply unescape_all_wf; [apply query_marks_ok|done]. }
  cbn [unescape_all fold_left query_marks] in H0.
  destruct (replace_pct_step (pct_nocase "26") (js "&") 38 _ eq_refl ltac:(done) pct_matches_26 H0) as [-> H1].
  destruct (replace_pct_step (pct_nocase "3D") (js "=") 61 _ eq_refl ltac:(done) pct_matches_3D H1) as [-> H2].
  by destruct (replace_pct_step (pct_nocase "2B") (js "+") 43 _ eq_refl ltac:(done) pct_matches_2B H2) as [-> H3].
Qed.

Lemma decode_marks ks s ts :
  js_wf s -> encode_toks s = Ok ts -> Forall tok_wf ts -> Forall (fun k => k <> 37 /\ k < 128) ks ->
  decodeURIComponent (render (unescape_all ks ts)) = Ok s.
Proof.
  intros Hs Hts Hwf Hks. unfold decodeURIComponent.
  rewrite tokenize_render by by apply unescape_all_wf.
  rewrite decode_unescape_all by done. by apply decode_encode_toks.
Qed.

Lemma decode_encodeUriQuery s e :
  js_wf s -> encodeUriQuery s true = Ok e -> decodeURIComponent e = Ok s.
Proof.
  intros Hs (ts & Hts & Hwf & ->)%encodeUriQuery_spec; [|done].
  apply decode_marks; [done..|apply query_marks_ok].
Qed.

(** ** The alphabet of encoded text *)

(** The units an encoding can contain: unreserved units, the percent sign, the marks [ks]. *)
Definition enc_char (ks : list N) (c : unit16) : bool :=
  uri_unreserved c || (c =? 37) || bool_decide (c ∈ ks).

Lemma hex_digit_unreserved n : n < 16 -> uri_unreserved (hex_digit n) = true.
Proof.
  intros H. unfold uri_unreserved, is_digit, hex_digit. destruct (N.ltb_spec n 10).
  - replace (48 <=? 48 + n) with true by (symmetry; leb_true).
    by replace (48 + n <=? 57) with true by (symmetry; leb_true).
  - replace (65 <=? 55 + n) with true by (symmetry; leb_true).
    replace (55 + n <=? 90) with true by (symmetry; leb_true). by rewrite orb_true_r.
Qed.

Lemma encode_toks_raw s ts c : encode_toks s = Ok ts -> Raw c ∈ ts -> uri_unreserved c = true.
Proof.
  revert ts. induction s as [s IH] using list_len_ind. intros ts.
  destruct s as [|d s]; cbn [encode_toks]. { intros [= <-] H. by apply elem_of_nil in H. }
  assert (Hp : forall v us, Raw c ∈ pct_bytes v ++ us -> Raw c ∈ us).
  { intros v us. rewrite elem_of_app. intros [H|H]; [|done]. exfalso. unfold pct_bytes in H.
    apply list_elem_of_fmap in H as (? & ? & _). done. }
  destruct (uri_unreserved d) eqn:Hu.
  { intros (ts' & Hts & [= <-])%rbind_ok [Hd|H]%elem_of_cons; [congruence|].
    eapply (IH s); [simpl; lia|done..]. }
  destruct (is_low d); [done|]. destruct (is_high d).
  - destruct s as [|d' s]; [done|]. destruct (is_low d'); [|done].
    intros (ts' & Hts & [= <-])%rbind_ok H%Hp. eapply (IH s); [simpl; lia|done..].
  - intros (ts' & Hts & [= <-])%rbind_ok H%Hp. eapply (IH s); [simpl; lia|done..].
Qed.

Lemma unescape_all_raw ks ts c :
  Raw c ∈ unescape_all ks ts -> c ∈ ks \/ Raw c ∈ ts.
Proof.
  revert ts. induction ks as [|k ks IH]; intros ts; simpl; [by right|].
  intros [H|H]%IH; [left; by right|]. apply list_elem_of_fmap in H as ([d|b] & Heq & Ht).
  - simplify_eq/=. by right.
  - simpl in Heq. destruct (N.eqb_spec b k); [|done]. simplify_eq. left. by left.
Qed.

Lemma render_chars P ts :
  P 37 = true -> (forall n, n < 16 -> P (hex_digit n) = true) -> Forall tok_wf ts ->
  (forall c, Raw c ∈ ts -> P c = true) -> forall c, c ∈ render ts -> P c = true.
Proof.
  intros Hp Hh. induction 1 as [|t ts Ht Hts IH]; intros Hraw c Hc.
  { by apply elem_of_nil in Hc. }
  rewrite render_cons in Hc. apply elem_of_app in Hc as [Hc|Hc].
  - destruct t as [d|b]; simpl in *.
    + apply list_elem_of_singleton in Hc as ->. apply Hraw. by left.
    + pose proof (byte_digits b Ht) as [Hx Hy].
      repeat (apply elem_of_cons in Hc as [-> | Hc]; [by auto|]). by apply elem_of_nil in Hc.
  - apply IH; [|done]. intros d Hd. apply Hraw. by right.
Qed.

Lemma encoded_alphabet ks s ts c :
  encode_toks s = Ok ts -> Forall tok_wf ts -> Forall (fun k => k <> 37 /\ k < 128) ks ->
  c ∈ render (unescape_all ks ts) -> enc_char ks c = true.
Proof.
  intros Hts Hwf Hks. apply (render_chars (enc_char ks)).
  - done.
  - intros n Hn. unfold enc_char. by rewrite hex_digit_unreserved.
  - by apply unescape_all_wf.
  - intros d [Hd|Hd]%unescape_all_raw; unfold enc_char.
    + by rewrite (bool_decide_eq_true_2 _ Hd), orb_true_r.
    + by rewrite (encode_toks_raw s ts d).
Qed.

Lemma encodeUriQuery_alphabet s e c :
  js_wf s -> encodeUriQuery s true = Ok e -> c ∈ e -> enc_char query_marks c = true.
Proof.
  intros Hs (ts & Hts & Hwf & ->)%encodeUriQuery_spec; [|done].
  apply (encoded_alphabet _ s); [done..|apply query_marks_ok].
Qed.

Lemma encodeUriSegment_alphabet s e c :
  js_wf s -> encodeUriSegment s = Ok e -> c ∈ e -> enc_char segment_marks c = true.
Proof.
  intros Hs (ts & Hts & Hwf & ->)%encodeUriSegment_spec; [|done].
  apply (encoded_alphabet _ s); [done..|apply segment_marks_ok].
Qed.

Lemma encodeURIComponent_alphabet s e c :
  js_wf s -> encodeURIComponent s = Ok e -> c ∈ e -> enc_char [] c = true.
Proof.
  intros Hs (ts & Hts & [= <-])%rbind_ok. pose proof (encode_toks_wf s ts Hs Hts) as Hwf.
  apply (encoded_alphabet [] s ts); [done..|constructor].
Qed.

(** ** When encoding succeeds *)

(** Every surrogate is half of a pair. *)
Fixpoint utf16_ok (s : jstr) : bool :=
  match s with
  | [] => true
  | c :: s' =>
      if is_low c then false
      else if is_high c then match s' with d :: s'' => is_low d && utf16_ok s'' | [] => false end
      else utf16_ok s'
  end.

(** A well-formed text. *)
Definition js_text (s : jstr) : Prop := js_wf s /\ utf16_ok s = true.

Lemma unreserved_not_surrogate c : uri_unreserved c = true -> is_low c = false /\ is_high c = false.
Proof.
  intros H. assert (c < 128).
  { unfold uri_unreserved in H. rewrite !orb_true_iff, is_digit_spec, !andb_true_iff, !N.leb_le in H.
    destruct H as [[[H|H]|H]|H]; [lia..|]. apply bool_decide_eq_true in H.
    assert (Hall : Forall (fun c => c < 128) (js "-_.!~*'()")) by by repeat constructor.
    rewrite Forall_forall in Hall. by apply Hall. }
  unfold is_low, is_high. split; apply andb_false_iff; left; apply N.leb_gt; lia.
Qed.

Lemma encode_toks_ok s : is_ok (encode_toks s) = utf16_ok s.
Proof.
  induction s as [s IH] using list_len_ind. destruct s as [|c s]; [done|].
  cbn [encode_toks utf16_ok].
  assert (Hb : forall r (f : list uri_tok -> list uri_tok), (length r < length (c :: s))%nat ->
    is_ok (rbind (encode_toks r) (fun ts => Ok (f ts))) = utf16_ok r).
  { intros r f Hr. rewrite <- IH by done. by destruct (encode_toks r). }
  destruct (uri_unreserved c) eqn:Hu.
  { apply unreserved_not_surrogate in Hu as [-> ->]. apply (Hb s (cons (Raw c))). simpl; lia. }
  destruct (is_low c); [done|]. destruct (is_high c).
  - destruct s as [|d s]; [done|]. destruct (is_low d); [|done]. apply (Hb s). simpl; lia.
  - apply (Hb s). simpl; lia.
Qed.

Lemma encodeURIComponent_ok s : utf16_ok s = true -> exists e, encodeURIComponent s = Ok e.
Proof.
  intros H. rewrite <- encode_toks_ok in H. unfold encodeURIComponent.
  destruct (encode_toks s) as [ts|]; [|done]. by exists (render ts).
Qed.

Lemma encodeUriQuery_ok s b : utf16_ok s = true -> exists e, encodeUriQuery s b = Ok e.
Proof. intros [e He]%encodeURIComponent_ok. unfold encodeUriQuery. rewrite He. simpl. eauto. Qed.

Lemma encodeUriSegment_ok s : utf16_ok s = true -> exists e, encodeUriSegment s = Ok e.
Proof. intros [e He]%(encodeUriQuery_ok s true). unfold encodeUriSegment. rewrite He. simpl. eauto. Qed.

Lemma decode_encodeUriSegment s e :
  js_wf s -> encodeUriSegment s = Ok e -> decodeURIComponent e = Ok s.
Proof.
  intros Hs (ts & Hts & Hwf & ->)%encodeUriSegment_spec; [|done].
  apply decode_marks; [done..|apply segment_marks_ok].
Qed.

(** ** Paths *)

Lemma tokenize_app a b ts :
  tokenize a = Some ts -> tokenize (a ++ b) = (us ← tokenize b; Some (ts ++ us)).
Proof.
  revert ts. induction a as [a IH] using list_len_ind. intros ts.
  assert (Hgo : forall (r : jstr) (t : uri_tok), (length r < length a)%nat ->
    (ts' ← tokenize r; Some (t :: ts')) = Some ts ->
    (ts' ← tokenize (r ++ b); Some (t :: ts')) = (us ← tokenize b; Some (ts ++ us))).
  { intros r t Hr Ht. destruct (tokenize r) as [ts'|] eqn:E; [|done]. simplify_eq/=.
    rewrite (IH r Hr ts' E). by destruct (tokenize b). }
  destruct a as [|c a].
  { intros [= <-]. simpl. by destruct (tokenize b). }
  cbn [tokenize app]. destruct (c =? 37) eqn:Ec.
  - destruct a as [|h [|l r]]; try done. cbn [app].
    destruct (hex_value h), (hex_value l); try done. apply Hgo. simpl. lia.
  - apply Hgo. simpl. lia.
Qed.

(** Decoding around a raw unit. *)
Lemma decode_app_unit e1 c e2 s1 s2 :
  c <> 37 -> decodeURIComponent e1 = Ok s1 -> decodeURIComponent e2 = Ok s2 ->
  decodeURIComponent (e1 ++ c :: e2) = Ok (s1 ++ c :: s2).
Proof.
  unfold decodeURIComponent. intros Hc H1 H2.
  destruct (tokenize e1) as [ts1|] eqn:E1; [|done]. destruct (tokenize e2) as [ts2|] eqn:E2; [|done].
  rewrite (tokenize_app _ _ _ E1). cbn [tokenize]. apply N.eqb_neq in Hc. rewrite Hc, E2. cbn.
  rewrite (decode_toks_app _ _ _ H1). cbn [decode_toks]. by rewrite H2.
Qed.

Lemma utf16_ok_app a c b :
  is_low c = false -> is_high c = false -> utf16_ok (a ++ c :: b) = utf16_ok a && utf16_ok b.
Proof.
  intros Hl Hh. induction a as [a IH] using list_len_ind. destruct a as [|d a]; cbn [app utf16_ok].
  - by rewrite Hl, Hh.
  - destruct (is_low d); [done|]. destruct (is_high d); [|apply IH; simpl; lia].
    destruct a as [|e a]; cbn [app]; [by rewrite Hl|].
    rewrite IH by (simpl; lia). by rewrite andb_assoc.
Qed.

Lemma split_text s : js_text s -> Forall js_text (split (chr "/") s).
Proof.
  intros [Hw Ho]. rewrite <- (join_split (chr "/") s) in Hw, Ho.
 induction (split (chr "/") s) as [|w ws IH]; [constructor|].
  destruct ws as [|w' ws]; [by repeat constructor|]. rewrite join_cons2 in Hw, Ho.
  cbn [app] in Hw, Ho. rewrite utf16_ok_app in Ho by done. apply andb_true_iff in Ho as [Ho1 Ho2].
  apply Forall_app in Hw as [Hw1 Hw2]. apply Forall_cons in Hw2 as [_ Hw2].
  constructor; [by split|]. by apply IH.
Qed.

Definition path_char (c : unit16) : bool := enc_char segment_marks c || (c =? 47).

Lemma encode_segments ws :
  Forall js_text ws -> exists es, map_result encodeUriSegment ws = Ok es /\ length es = length ws
    /\ (forall c, c ∈ join (js "/") es -> path_char c = true)
    /\ (ws <> [] -> decodeURIComponent (join (js "/") es) = Ok (join (js "/") ws)).
Proof.
  induction 1 as [|w ws [Hw Ho] Hws (es & Hes & Hlen & Hch & Hd)].
  { exists []. split_and!; try done. intros c Hc. by apply elem_of_nil in Hc. }
  destruct (encodeUriSegment_ok w Ho) as [e He]. exists (e :: es). cbn [map_result].
  rewrite He, Hes. cbn [rbind length]. split_and!; [done|lia| |].
  - intros c Hc. assert (Hc' : c ∈ e \/ c = 47 \/ c ∈ join (js "/") es).
    { destruct es; [by left|]. rewrite join_cons2 in Hc. change (js "/") with [47] in Hc. cbn [app] in Hc.
      rewrite elem_of_app, elem_of_cons in Hc. tauto. }
    unfold path_char. destruct Hc' as [H|[-> |H]]; [|done|by apply Hch].
    by rewrite (encodeUriSegment_alphabet w e c).
  - intros _. pose proof (decode_encodeUriSegment w e Hw He) as Hde.
    destruct ws as [|w' ws]; [by destruct es|]. destruct es as [|e' es]; [done|].
    rewrite !join_cons2. change (js "/") with [47]. by apply decode_app_unit; [| |apply Hd].
Qed.

Lemma encodePath_ok p :
  js_text p -> exists e, encodePath p = Ok e /\ decodeURIComponent e = Ok p
    /\ forall c, c ∈ e -> path_char c = true.
Proof.
  intros Hp. destruct (encode_segments _ (split_text p Hp)) as (es & Hes & _ & Hch & Hd).
  exists (join (js "/") es). unfold encodePath. rewrite Hes. split_and!; [done| |done].
  rewrite Hd by apply split_not_nil. f_equal. apply (join_split (chr "/")).
Qed.
