(* ===== verification/Json.v ===== *)
(** * Values of the console

    The values the broker answers with and the controllers keep in their scopes, with the
    conversions of the language, and the state-and-exception monad in which the handlers of
    the page are written: an exception leaves the effects that precede it in place. *)

From Stdlib Require Import QArith.
From stdpp Require Export gmap.
From S2P Require Export Prelude JsString JsObject JsNumber UriCodec.
#[global] Open Scope nat_scope.

(** The function values a scope can hold: the accessors of the chart options. *)
Inductive jsfun : Type :=
| FnField (k : jstr)     (** [function (d) { return d.k; }] *)
| FnIdentity             (** [function (d) { return d; }] *)
| FnD3Format.            (** [function (d) { return d3.format(',f')(d); }] *)

Inductive json : Type :=
| JUndef
| JNull
| JBool (b : bool)
| JNum (n : num)
| JStr (s : jstr)
| JArr (l : list json)
| JObj (o : jsobj json)
| JFn (f : jsfun).

Inductive js_error : Type :=
| JsURIError
| JsTypeError
| JsRangeError                  (** the call stack is exhausted *)
| JsMinErr (code : jstr).       (** an error of the runtime, by its code: 'location:ipthprfx' *)

Definition of_uri {A} (m : result uri_error A) : result js_error A :=
  match m with Ok a => Ok a | Throw URIError => Throw JsURIError end.

Definition jint (z : Z) : json := JNum (Fin (inject_Z z)).
Definition jlit (s : lit) : json := JStr (js s).
Arguments jlit s%_string_scope.

(** Truthiness. *)
Definition jtruthy (v : json) : bool :=
  match v with
  | JUndef | JNull => false
  | JBool b => b
  | JNum NaN => false
  | JNum (Inf _) => true
  | JNum (Fin q) => negb (Z.eqb (Qnum q) 0)
  | JStr s => truthy s
  | JArr _ | JObj _ | JFn _ => true
  end.

Definition jsfun_text (f : jsfun) : jstr :=
  match f with
  | FnField k => js "function (d) { return d." ++ k ++ js "; }"
  | FnIdentity => js "function (d) { return d; }"
  | FnD3Format => js "function (d) { return d3.format(',f')(d); }"
  end.

(** [String(v)]; the text of a function is its source. *)
Fixpoint jtext (v : json) : jstr :=
  match v with
  | JUndef => js "undefined"
  | JNull => js "null"
  | JBool b => if b then js "true" else js "false"
  | JNum n => num_to_str n
  | JStr s => s
  | JArr l =>
      join (js ",") (map (fun x => match x with JUndef | JNull => [] | _ => jtext x end) l)
  | JObj _ => js "[object Object]"
  | JFn f => jsfun_text f
  end.

(** [Number(v)]. *)
Definition jnumber (v : json) : num :=
  match v with
  | JUndef => NaN
  | JNull => Fin 0
  | JBool b => if b then Fin 1 else Fin 0
  | JNum n => n
  | JStr s => num_of_str s
  | JArr _ | JObj _ | JFn _ => num_of_str (jtext v)
  end.

(** [v === s] for a string [s]. *)
Definition jis_str (v : json) (s : jstr) : bool :=
  match v with JStr t => jeqb t s | _ => false end.

(** [v.k]: [undefined] and [null] have no properties. *)
Definition jprop (v : json) (k : lit) : result js_error json :=
  match v with
  | JUndef | JNull => Throw JsTypeError
  | JObj o => Ok (default JUndef (ob_get o (js k)))
  | _ => Ok JUndef
  end.
Arguments jprop v k%_string_scope.

(** [f(d)] for an accessor; [None] when it calls the d3 library. *)
Definition apply_fn (f : jsfun) (d : json) : option (result js_error json) :=
  match f with
  | FnField k =>
      Some (match d with
            | JUndef | JNull => Throw JsTypeError
            | JObj o => Ok (default JUndef (ob_get o k))
            | _ => Ok JUndef
            end)
  | FnIdentity => Some (Ok d)
  | FnD3Format => None
  end.

(** [parseInt(v)] without a radix; [None] is [NaN]. *)
Definition parseInt_str (s : jstr) : option Z :=
  let '(neg, t) := signed (skip_space s) in
  let read base u :=
    let '(ds, _) := span (fun c => match digit_in base c with Some _ => true | None => false end) u in
    match ds with
    | [] => None
    | _ => match in_base base 0 ds with
           | Some n => Some (if neg then (- Z.of_N n)%Z else Z.of_N n)
           | None => None
           end
    end in
  match t with
  | 48%N :: c :: r => if ((c =? chr "x") || (c =? chr "X"))%N then read 16%N r else read 10%N t
  | _ => read 10%N t
  end.
Definition parseInt_json (v : json) : option Z := parseInt_str (jtext v).

(** ** Handlers *)

Section Monad.
Context {St : Type}.

(** A handler of a page with state [St]. *)
Definition handler (A : Type) : Type := St -> result js_error A * St.

Definition hret {A} (a : A) : handler A := fun st => (Ok a, st).
Definition hthrow {A} (e : js_error) : handler A := fun st => (Throw e, st).
Definition hbind {A B} (m : handler A) (f : A -> handler B) : handler B := fun st =>
  match m st with
  | (Ok a, st') => f a st'
  | (Throw e, st') => (Throw e, st')
  end.
Definition hlift {A} (r : result js_error A) : handler A := fun st => (r, st).
Definition hmodify (f : St -> St) : handler unit := fun st => (Ok tt, f st).
Definition hgets {A} (f : St -> A) : handler A := fun st => (Ok (f st), st).
Definition hwhen (b : bool) (m : handler unit) : handler unit := if b then m else hret tt.

Lemma hbind_hret {A B} (a : A) (f : A -> handler B) st : hbind (hret a) f st = f a st.
Proof. done. Qed.

(** Running the first half of a sequence. *)
Lemma hbind_ok {A B} (m : handler A) (f : A -> handler B) st a st' :
  m st = (Ok a, st') -> hbind m f st = f a st'.
Proof. unfold hbind. by intros ->. Qed.
End Monad.
Arguments handler St A : clear implicits.

Declare Scope handler_scope.
Delimit Scope handler_scope with handler.
Notation "x <- m ;; k" := (hbind m (fun x => k))
  (at level 100, m at next level, right associativity) : handler_scope.
Notation "m ;;; k" := (hbind m (fun _ => k)) (at level 100, right associativity) : handler_scope.
