(* ===== verification/Query.v ===== *)
(** * Query strings: parseKeyValue and toKeyValue (angular.js)

    The search part of a URL as an object whose values are a string, [true] (a key with no
    [=]), [undefined] (a value that does not decode) or an array of these. *)

From S2P Require Import Prelude JsString JsObject UriCodec Json.

Inductive qval : Type :=
| QStr (s : jstr)
| QTrue
| QUndef
| QProto (k : jstr)          (** the member [k] every object inherits from [Object.prototype] *)
| QArr (l : list qval).

Definition qtruthy (v : qval) : bool :=
  match v with
  | QStr s => truthy s
  | QTrue | QProto _ | QArr _ => true
  | QUndef => false
  end.

(** [obj[key]] on an object literal: an own property, else an inherited one. *)
Definition q_read (obj : jsobj qval) (key : jstr) : qval :=
  match ob_get obj key with
  | Some v => v
  | None => if in_object_proto key then QProto key else QUndef
  end.

(** [obj[key] = v]: no own property named [__proto__] is ever created this way. *)
Definition q_write (obj : jsobj qval) (key : jstr) (v : qval) : jsobj qval :=
  if jeqb key (js "__proto__") then obj else ob_set obj key v.

(** The [key_value[1]] of a pair: the text after the first [=], up to the next one. *)
Definition pair_value (rest : list jstr) : qval :=
  match rest with
  | [] => QTrue
  | v :: _ => match tryDecodeURIComponent v with Some s => QStr s | None => QUndef end
  end.

(** [obj[key]] receives one more value. *)
Definition q_add (obj : jsobj qval) (key : jstr) (val : qval) : jsobj qval :=
  match q_read obj key with
  | QArr l => q_write obj key (QArr (l ++ [val]))
  | cur => if qtruthy cur then q_write obj key (QArr [cur; val]) else q_write obj key val
  end.

Definition parse_pair (obj : jsobj qval) (keyValue : jstr) : jsobj qval :=
  if truthy keyValue then
    match split (chr "=") keyValue with
    | k0 :: rest =>
        match tryDecodeURIComponent k0 with
        | Some key => q_add obj key (pair_value rest)
        | None => obj
        end
    | [] => obj
    end
  else obj.

Definition parseKeyValue (keyValue : jstr) : jsobj qval :=
  fold_left parse_pair (split (chr "&") keyValue) [].

(** [String(v)]. *)
Fixpoint q_text (v : qval) : jstr :=
  match v with
  | QStr s => s
  | QTrue => js "true"
  | QUndef => js "undefined"
  | QProto k =>
      if jeqb k (js "__proto__") then js "[object Object]"
      else js "function " ++ k ++ js "() { [native code] }"
  | QArr l => join (js ",") (map (fun x => match x with QUndef => [] | _ => q_text x end) l)
  end.

Definition encode_pair (key : jstr) (v : qval) : result uri_error jstr :=
  rbind (encodeUriQuery key true) (fun k =>
    match v with
    | QTrue => Ok k
    | _ => rbind (encodeUriQuery (q_text v) true) (fun e => Ok (k ++ js "=" ++ e))
    end).

Definition encode_prop (key : jstr) (v : qval) : result uri_error (list jstr) :=
  match v with
  | QArr l => map_result (encode_pair key) l
  | _ => rbind (encode_pair key v) (fun p => Ok [p])
  end.

(** [forEach(obj, ...)] calls the object's own [forEach] when it has one, and the object's
    own [hasOwnProperty] on each name: with query values, both are errors. *)
Definition for_each_fails (obj : jsobj qval) : bool :=
  match ob_get obj (js "forEach") with
  | Some v => qtruthy v
  | None => false
  end || ob_has obj (js "hasOwnProperty").

Definition toKeyValue (obj : jsobj qval) : result js_error jstr :=
  if for_each_fails obj then Throw JsTypeError
  else
    rbind (of_uri (map_result (fun k => encode_prop k (default QUndef (ob_get obj k))) (enum_names obj)))
      (fun parts => Ok (join (js "&") (concat parts))).

Example parseKeyValue_ex :
  parseKeyValue (js "brokerUrl=http%3A%2F%2Fh%3A7364%2F&x&a=1&a=2&&b=%zz&c=1=2")
  = [(js "brokerUrl", QStr (js "http://h:7364/")); (js "x", QTrue);
     (js "a", QArr [QStr (js "1"); QStr (js "2")]); (js "b", QUndef); (js "c", QStr (js "1"))].
Proof. by vm_compute. Qed.

Example toKeyValue_ex :
  toKeyValue [(js "b", QStr (js "a&b")); (js "2", QTrue); (js "1", QArr [QStr (js "x"); QTrue])]
  = Ok (js "1=x&1&2&b=a%26b").
Proof. by vm_compute. Qed.

(** A name inherited from [Object.prototype] is taken for a value already present. *)
Example parseKeyValue_inherited :
  parseKeyValue (js "constructor=1")
  = [(js "constructor", QArr [QProto (js "constructor"); QStr (js "1")])].
Proof. by vm_compute. Qed.

(** ** Round trip *)

(** One value of a query parameter. *)
Definition q_scalar (v : qval) : Prop :=
  match v with QStr s => js_text s | QTrue => True | _ => False end.

(** The values [parseKeyValue] can give back: a scalar, or an array of at least two scalars
    whose first one is truthy. *)
Definition q_canonical (v : qval) : Prop :=
  match v with
  | QArr (v1 :: v2 :: l) => qtruthy v1 = true /\ Forall q_scalar (v1 :: v2 :: l)
  | QArr _ => False
  | _ => q_scalar v
  end.

Definition q_name (k : jstr) : Prop :=
  k <> [] /\ js_text k /\ in_object_proto k = false.

Definition q_object (obj : jsobj qval) : Prop :=
  ob_wf obj /\ Forall (fun p => q_name p.1 /\ q_canonical p.2) obj.

Lemma encodeUriQuery_nil e s : js_wf s -> encodeUriQuery s true = Ok e -> e = [] -> s = [].
Proof. intros Hs He ->. apply decode_encodeUriQuery in He; [|done]. by injection He as <-. Qed.

Lemma try_decode s e : js_wf s -> encodeUriQuery s true = Ok e -> tryDecodeURIComponent e = Some s.
Proof. intros Hs He. unfold tryDecodeURIComponent. by erewrite decode_encodeUriQuery. Qed.

Lemma query_not_in c s e :
  js_wf s -> encodeUriQuery s true = Ok e -> enc_char query_marks c = false -> c ∉ e.
Proof.
  intros Hs He Hc Hin. pose proof (encodeUriQuery_alphabet s e c Hs He Hin). congruence.
Qed.

Lemma truthy_app a b : a <> [] -> truthy (a ++ b) = true.
Proof. by destruct a. Qed.

(** One encoded pair adds its value to the object. *)
Lemma parse_encoded_pair obj key v p :
  q_name key -> q_scalar v -> encode_pair key v = Ok p ->
  parse_pair obj p = q_add obj key v /\ (chr "&" ∉ p) /\ p <> [].
Proof.
  intros (Hne & [Hk _] & _) Hv (k & Ek & Hp)%rbind_ok.
  assert (Hkne : k <> []) by (intros ->; by eapply Hne, encodeUriQuery_nil).
  assert (Hd : tryDecodeURIComponent k = Some key) by by apply try_decode.
  assert (Heq : chr "=" ∉ k) by (eapply query_not_in; [exact Hk|exact Ek|done]).
  assert (Ham : chr "&" ∉ k) by (eapply query_not_in; [exact Hk|exact Ek|done]).
  unfold parse_pair. destruct v as [s| | | |]; try done.
  - apply rbind_ok in Hp as (e & Ee & [= <-]). simpl in Ee, Hv.
    destruct Hv as [Hv _]. rewrite truthy_app by done.
    change (k ++ js "=" ++ e) with (k ++ chr "=" :: e).
    rewrite split_app_sep by done.
    assert (Heq' : chr "=" ∉ e) by (eapply query_not_in; [exact Hv|exact Ee|done]).
    assert (Ham' : chr "&" ∉ e) by (eapply query_not_in; [exact Hv|exact Ee|done]).
    rewrite split_no_sep, Hd by done. cbn [pair_value].
    rewrite (try_decode s e) by done. split_and!; [done| |by destruct k].
    rewrite elem_of_app, elem_of_cons. intros [?|[?|?]]; done.
  - injection Hp as <-. rewrite <- (app_nil_r k) at 1. rewrite truthy_app by done.
    by rewrite split_no_sep, Hd.
Qed.

Lemma q_add_new obj key v :
  q_name key -> ob_get obj key = None -> q_add obj key v = ob_set obj key v.
Proof.
  intros (_ & _ & Hp) Hn. unfold q_add, q_read. rewrite Hn, Hp. simpl. unfold q_write.
  destruct (jeqb key (js "__proto__")) eqn:E; [|done].
  apply jeqb_true in E as ->. done.
Qed.

Lemma q_write_name obj key v : q_name key -> q_write obj key v = ob_set obj key v.
Proof.
  intros (_ & _ & Hp). unfold q_write. destruct (jeqb key _) eqn:E; [|done].
  by apply jeqb_true in E as ->.
Qed.

Lemma ob_set_set {V} (o : jsobj V) k v w : ob_set (ob_set o k v) k w = ob_set o k w.
Proof.
  induction o as [|[k' v'] o IH]; simpl; [by rewrite jeqb_refl|].
  destruct (jeqb k k') eqn:E; simpl; rewrite E; [done|]. by rewrite IH.
Qed.

Lemma q_add_array obj key l v :
  q_name key -> q_add (ob_set obj key (QArr l)) key v = ob_set obj key (QArr (l ++ [v])).
Proof.
  intros Hk. unfold q_add, q_read. rewrite ob_get_set_eq, q_write_name by done.
  by rewrite ob_set_set.
Qed.

Lemma q_add_array_all obj key l vs :
  q_name key -> fold_left (fun o v => q_add o key v) vs (ob_set obj key (QArr l))
  = ob_set obj key (QArr (l ++ vs)).
Proof.
  intros Hk. revert l. induction vs as [|v vs IH]; intros l; cbn [fold_left].
  - by rewrite app_nil_r.
  - rewrite q_add_array, IH by done. by rewrite <- app_assoc.
Qed.

(** The values of one property, added one by one to an object without it. *)
Definition q_values (v : qval) : list qval := match v with QArr l => l | _ => [v] end.

Lemma q_add_values obj key v :
  q_name key -> q_canonical v -> ob_get obj key = None ->
  fold_left (fun o v => q_add o key v) (q_values v) obj = ob_set obj key v.
Proof.
  intros Hk Hv Hn. destruct v as [s| | | |l]; try done; cbn [q_values fold_left].
  - by apply q_add_new.
  - by apply q_add_new.
  - destruct l as [|v1 [|v2 l]]; try done. destruct Hv as [Ht Hs]. cbn [fold_left].
    rewrite (q_add_new obj) by done.
    assert (H2 : q_add (ob_set obj key v1) key v2 = ob_set obj key (QArr [v1; v2])).
    { unfold q_add, q_read. rewrite ob_get_set_eq, !q_write_name, ?ob_set_set by done.
      apply Forall_cons in Hs as [Hs _]. destruct v1 as [s| | | |]; try done. cbn in Ht |- *.
      by rewrite Ht, ?q_write_name, ?ob_set_set. }
    rewrite H2. by apply q_add_array_all.
Qed.

Lemma parse_encoded_prop obj key v ps :
  q_name key -> q_canonical v -> ob_get obj key = None -> encode_prop key v = Ok ps ->
  fold_left parse_pair ps obj = ob_set obj key v /\ Forall (fun p => chr "&" ∉ p) ps.
Proof.
  intros Hk Hv Hn Hps. rewrite <- (q_add_values obj) by done.
  assert (Hgo : forall vs ps o, Forall q_scalar vs -> map_result (encode_pair key) vs = Ok ps ->
    fold_left parse_pair ps o = fold_left (fun o v => q_add o key v) vs o
    /\ Forall (fun p => chr "&" ∉ p) ps).
  { induction vs as [|w vs IH]; intros qs o Hvs; cbn [map_result fold_left]; [by intros [= <-]|].
    apply Forall_cons in Hvs as [Hw Hvs].
    intros (p & Hp & (qs' & Hqs & [= <-])%rbind_ok)%rbind_ok. cbn [fold_left].
    destruct (parse_encoded_pair o key w p) as (-> & Ha & _); [done..|].
    destruct (IH qs' (q_add o key w)) as [-> Hf]; [done..|]. split; [done|by constructor]. }
  destruct v as [s| | | |l]; try done.
  - apply rbind_ok in Hps as (p & Hp & [= <-]). apply (Hgo [QStr s]); [by constructor|].
    cbn [map_result]. by rewrite Hp.
  - apply rbind_ok in Hps as (p & Hp & [= <-]). apply (Hgo [QTrue]); [by constructor|].
    cbn [map_result]. by rewrite Hp.
  - apply (Hgo l); [|done]. destruct l as [|v1 [|v2 l]]; try done. by destruct Hv.
Qed.

Lemma ob_get_in (obj : jsobj qval) k v : ob_wf obj -> (k, v) ∈ obj -> ob_get obj k = Some v.
Proof.
  unfold ob_wf, ob_names. induction obj as [|[k' v'] o IH]; intros Hwf Hin.
  { by apply elem_of_nil in Hin. }
  simpl in *. apply NoDup_cons in Hwf as [Hk Hwf]. apply elem_of_cons in Hin as [[= -> ->]|Hin].
  - by rewrite jeqb_refl.
  - destruct (jeqb k k') eqn:E; [|by apply IH]. apply jeqb_true in E as ->. exfalso. apply Hk.
    apply list_elem_of_fmap. by exists (k', v).
Qed.

Lemma ob_get_elem (obj : jsobj qval) k v : ob_get obj k = Some v -> (k, v) ∈ obj.
Proof.
  induction obj as [|[k' v'] o IH]; simpl; [done|]. destruct (jeqb k k') eqn:E.
  - apply jeqb_true in E as ->. intros [= ->]. by left.
  - intros H. right. by apply IH.
Qed.

(** The properties of [obj] listed in the order of [ks]. *)
Definition ob_select (obj : jsobj qval) (ks : list jstr) : jsobj qval :=
  map (fun k => (k, default QUndef (ob_get obj k))) ks.

Lemma ob_get_select obj ks k :
  ob_get (ob_select obj ks) k = if decide (k ∈ ks) then Some (default QUndef (ob_get obj k)) else None.
Proof.
  induction ks as [|k' ks IH]; simpl; [done|]. destruct (jeqb k k') eqn:E.
  - apply jeqb_true in E as ->. rewrite decide_True; [done|]. by left.
  - apply jeqb_false in E. rewrite IH. destruct (decide (k ∈ ks)).
    + rewrite decide_True; [done|]. by right.
    + rewrite decide_False; [done|]. by intros [?|?]%elem_of_cons.
Qed.

Lemma parse_encoded_props obj done_ ks pss :
  Forall (fun p => q_name p.1 /\ q_canonical p.2) obj -> ob_wf obj ->
  NoDup ks -> Forall (fun k => k ∈ ob_names obj) ks ->
  Forall (fun k => ob_get done_ k = None) ks ->
  map_result (fun k => encode_prop k (default QUndef (ob_get obj k))) ks = Ok pss ->
  fold_left parse_pair (concat pss) done_ = done_ ++ ob_select obj ks
  /\ Forall (fun p => chr "&" ∉ p) (concat pss).
Proof.
  intros Hobj Hwf. revert done_ pss. induction ks as [|k ks IH]; intros dn pss Hnd Hin Hdn.
  { intros [= <-]. simpl. by rewrite app_nil_r. }
  apply NoDup_cons in Hnd as [Hk Hnd]. apply Forall_cons in Hin as [Hik Hin].
  apply Forall_cons in Hdn as [Hdk Hdn]. cbn [map_result].
  intros (ps & Hps & (pss' & Hpss & [= <-])%rbind_ok)%rbind_ok.
  apply ob_get_names in Hik as [v Hv]. pose proof (ob_get_elem obj k v Hv) as Hel.
  rewrite Forall_forall in Hobj. destruct (Hobj _ Hel) as [Hname Hcan]. simpl in Hname, Hcan.
  rewrite Hv in Hps. simpl in Hps.
  destruct (parse_encoded_prop dn k v ps) as [Hf Ha]; [done..|].
  cbn [concat]. rewrite fold_left_app, Hf, ob_names_set_new by done.
  destruct (IH (dn ++ [(k, v)]) pss') as [Hf' Ha']; [done..| |done|].
  { rewrite <- (ob_names_set_new dn k v) by done. rewrite Forall_forall in Hdn |- *.
    intros k' Hk'. rewrite ob_get_set_ne; [by apply Hdn|]. by intros ->. }
  split; [|by apply Forall_app].
  rewrite Hf', <- app_assoc. simpl. by rewrite Hv.
Qed.

(** Every property of a well-formed object can be printed. *)
Lemma encode_pair_ok key v : q_name key -> q_scalar v -> exists p, encode_pair key v = Ok p.
Proof.
  intros (_ & [_ Hk] & _) Hv. unfold encode_pair.
  destruct (encodeUriQuery_ok key true Hk) as [k ->]. simpl.
  destruct v as [s| | | |]; try done; [|eauto]. simpl. destruct Hv as [_ Hs].
  destruct (encodeUriQuery_ok s true Hs) as [e ->]. simpl. eauto.
Qed.

Lemma map_result_total {E A B} (f : A -> result E B) l :
  (forall x, x ∈ l -> exists y, f x = Ok y) -> exists ys, map_result f l = Ok ys.
Proof.
  induction l as [|x l IH]; intros H; simpl; [eauto|].
  destruct (H x) as [y ->]; [by left|]. simpl.
  destruct IH as [ys ->]; [intros z Hz; apply H; by right|]. simpl. eauto.
Qed.

Lemma encode_prop_ok key v : q_name key -> q_canonical v -> exists ps, encode_prop key v = Ok ps.
Proof.
  intros Hk Hv. destruct v as [s| | | |l]; try done; unfold encode_prop.
  - destruct (encode_pair_ok key (QStr s)) as [p ->]; [done..|]. simpl. eauto.
  - destruct (encode_pair_ok key QTrue) as [p ->]; [done..|]. simpl. eauto.
  - apply map_result_total. intros v Hin. apply encode_pair_ok; [done|].
    destruct l as [|v1 [|v2 l]]; try done. destruct Hv as [_ Hs].
    rewrite Forall_forall in Hs. by apply Hs.
Qed.

Lemma for_each_ok obj :
  q_object obj -> ob_get obj (js "forEach") = None -> for_each_fails obj = false.
Proof.
  intros [_ Hobj] Hf. unfold for_each_fails, ob_has. rewrite Hf. simpl.
  destruct (ob_get obj (js "hasOwnProperty")) as [v|] eqn:E; [|done].
  apply ob_get_elem in E. rewrite Forall_forall in Hobj. destruct (Hobj _ E) as [(_ & _ & H) _].
  done.
Qed.

(** The units of a query text. *)
Definition query_char (c : unit16) : bool :=
  enc_char query_marks c || (c =? chr "=")%N || (c =? chr "&")%N.

Lemma encode_pair_chars key v p c :
  q_name key -> q_scalar v -> encode_pair key v = Ok p -> c ∈ p -> query_char c = true.
Proof.
  intros (_ & [Hk _] & _) Hv (k & Ek & Hp)%rbind_ok Hc. unfold query_char.
  destruct v as [s| | | |]; try done.
  - apply rbind_ok in Hp as (e & Ee & [= <-]). destruct Hv as [Hv _]. simpl in Ee.
    apply elem_of_app in Hc as [Hc|Hc]; [by rewrite (encodeUriQuery_alphabet key k c)|].
    change (js "=" ++ e) with (chr "=" :: e) in Hc. apply elem_of_cons in Hc as [-> |Hc]; [done|].
    by rewrite (encodeUriQuery_alphabet s e c).
  - injection Hp as <-. by rewrite (encodeUriQuery_alphabet key k c).
Qed.

Lemma map_result_elem {E A B} (f : A -> result E B) l ys y :
  map_result f l = Ok ys -> y ∈ ys -> exists x, x ∈ l /\ f x = Ok y.
Proof.
  revert ys. induction l as [|x l IH]; intros ys; simpl.
  { intros [= <-] H. by apply elem_of_nil in H. }
  intros (z & Hz & (zs & Hzs & [= <-])%rbind_ok)%rbind_ok [-> |H]%elem_of_cons.
  - exists x. split; [by left|done].
  - destruct (IH zs Hzs H) as (x' & ? & ?). exists x'. split; [by right|done].
Qed.

Lemma encode_prop_chars key v ps p c :
  q_name key -> q_canonical v -> encode_prop key v = Ok ps -> p ∈ ps -> c ∈ p -> query_char c = true.
Proof.
  intros Hk Hv Hps Hp Hc. destruct v as [s| | | |l]; try done.
  - apply rbind_ok in Hps as (q & Hq & [= <-]). apply list_elem_of_singleton in Hp as ->.
    exact (encode_pair_chars key (QStr s) q c Hk Hv Hq Hc).
  - apply rbind_ok in Hps as (q & Hq & [= <-]). apply list_elem_of_singleton in Hp as ->.
    exact (encode_pair_chars key QTrue q c Hk Hv Hq Hc).
  - destruct (map_result_elem _ _ _ _ Hps Hp) as (w & Hw & Ew).
    eapply encode_pair_chars; [done| |exact Ew|done].
    destruct l as [|v1 [|v2 l]]; try done. destruct Hv as [_ Hs].
    rewrite Forall_forall in Hs. by apply Hs.
Qed.

Lemma in_concat_elem {A} (x : A) ls : x ∈ concat ls -> exists l, l ∈ ls /\ x ∈ l.
Proof.
  induction ls as [|l ls IH]; simpl; intros H; [by apply elem_of_nil in H|].
  apply elem_of_app in H as [H|H]; [exists l; split; [by left|done]|].
  destruct (IH H) as (l' & ? & ?). exists l'. split; [by right|done].
Qed.

Lemma join_chars (P : unit16 -> bool) sep ps :
  (forall p, p ∈ ps -> forall c, c ∈ p -> P c = true) -> P sep = true ->
  forall c, c ∈ join [sep] ps -> P c = true.
Proof.
  intros Hps Hs c. induction ps as [|p ps IH]; [by intros H%elem_of_nil|].
  destruct ps as [|p' ps].
  - intros H. eapply Hps; [by left|exact H].
  - rewrite join_cons2. intros [H|[-> |H]%elem_of_cons]%elem_of_app; [|done|].
    + eapply Hps; [by left|exact H].
    + apply IH; [|done]. intros q Hq. apply Hps. by right.
Qed.

(** What a query object becomes: a text of [query_char]s, parsed back as the same
    properties in the order of enumeration. *)
Lemma toKeyValue_select obj :
  q_object obj -> ob_get obj (js "forEach") = None ->
  exists s, toKeyValue obj = Ok s /\ (forall c, c ∈ s -> query_char c = true)
    /\ parseKeyValue s = ob_select obj (enum_names obj).
Proof.
  intros Hq Hfe. unfold toKeyValue. rewrite for_each_ok by done. destruct Hq as [Hwf Hobj].
  pose proof (enum_names_perm obj) as Hperm.
  destruct (map_result_total (fun k => encode_prop k (default QUndef (ob_get obj k)))
    (enum_names obj)) as [pss Hm].
  { intros k. rewrite Hperm. intros [v Hv]%ob_get_names. rewrite Hv. simpl.
    apply ob_get_elem in Hv. rewrite Forall_forall in Hobj.
    destruct (Hobj _ Hv). by apply encode_prop_ok. }
  rewrite Hm. simpl. eexists. split; [done|]. split.
  { intros c. apply join_chars; [|done]. intros p (ps & Hps & Hp)%in_concat_elem c' Hc'.
    destruct (map_result_elem _ _ _ _ Hm Hps) as (k & Hk & Ek). rewrite Hperm in Hk.
    apply ob_get_names in Hk as [v Hv]. rewrite Hv in Ek. simpl in Ek.
    apply ob_get_elem in Hv. rewrite Forall_forall in Hobj. destruct (Hobj _ Hv) as [Hn Hc].
    exact (encode_prop_chars k v ps p c' Hn Hc Ek Hp Hc'). }
  destruct (parse_encoded_props obj [] (enum_names obj) pss) as [Hf Ha];
    [done|done|by rewrite Hperm| |by apply Forall_true|done|].
  { apply Forall_forall. intros k'. by rewrite Hperm. }
  unfold parseKeyValue. destruct (concat pss) as [|p ps] eqn:E; [exact Hf|].
  by rewrite split_join.
Qed.

Lemma ob_get_select_all obj k : ob_get (ob_select obj (enum_names obj)) k = ob_get obj k.
Proof.
  pose proof (enum_names_perm obj) as Hperm.
  rewrite ob_get_select. destruct (decide (k ∈ enum_names obj)) as [Hk|Hk]; rewrite Hperm in Hk.
  - by apply ob_get_names in Hk as [v ->].
  - symmetry. by apply ob_get_None.
Qed.

Lemma ob_names_select obj ks : ob_names (ob_select obj ks) = ks.
Proof. unfold ob_names, ob_select. rewrite map_map. simpl. apply map_id. Qed.

Lemma q_object_select obj : q_object obj -> q_object (ob_select obj (enum_names obj)).
Proof.
  intros [Hwf Hobj]. pose proof (enum_names_perm obj) as Hperm. split.
  - unfold ob_wf. by rewrite ob_names_select, Hperm.
  - rewrite Forall_forall in *. intros [k v] Hin. apply Hobj.
    apply ob_get_elem. rewrite <- ob_get_select_all. apply ob_get_in; [|done].
    unfold ob_wf. by rewrite ob_names_select, Hperm.
Qed.

(** The object read back prints the same text. *)
Lemma toKeyValue_spec obj :
  q_object obj -> ob_get obj (js "forEach") = None ->
  exists s, toKeyValue obj = Ok s /\ (forall c, c ∈ s -> query_char c = true)
    /\ (forall k, ob_get (parseKeyValue s) k = ob_get obj k)
    /\ toKeyValue (parseKeyValue s) = Ok s.
Proof.
  intros Hq Hf. destruct (toKeyValue_select obj Hq Hf) as (s & Hs & Hc & Hp).
  exists s. rewrite Hp. split_and!; [done|done|apply ob_get_select_all|].
  rewrite <- Hs. unfold toKeyValue.
  rewrite !for_each_ok; [|done|done|by apply q_object_select|by rewrite ob_get_select_all].
  assert (He : enum_names (ob_select obj (enum_names obj)) = enum_names obj).
  { apply (enum_names_idem obj). apply ob_names_select. }
  rewrite He. do 2 f_equal. apply map_result_ext. intros k. by rewrite ob_get_select_all.
Qed.


Definition sample_query : jsobj qval :=
  [(js "brokerUrl", QStr (js "http://h:7364/a?b")); (js "7", QTrue);
   (js "a", QArr [QStr (js "1"); QTrue])].

Lemma js_text_dec s : forallb (fun c => (c <? 65536)%N) s && utf16_ok s = true -> js_text s.
Proof.
  intros [Hw Ho]%andb_true_iff. split; [|done]. apply Forall_forall. intros c Hc.
  rewrite forallb_forall in Hw. apply N.ltb_lt, Hw. by apply list_elem_of_In.
Qed.

Lemma sample_query_ok : q_object sample_query /\ ob_get sample_query (js "forEach") = None.
Proof.
  split; [split|done].
  - unfold ob_wf. apply (bool_decide_unpack _). by vm_compute.
  - repeat constructor; try (by apply js_text_dec); try done; vm_compute; discriminate.
Qed.

