(* ===== verification/Console.v ===== *)
(** * The pages of the web console

    The state every controller works on: the [$scope] object of the page, the [$state]
    service the pages share, the search inputs of the document, the requests sent to the
    broker and not answered yet, and the log of the document effects. *)

From S2P Require Import Json.

(** The continuation registered with [success] and [error] for one request. *)
Inductive callback : Type :=
| CbHome
| CbResources
| CbWorkers
| CbWorkerResources (workerId : json)
| CbWorkerUsages (workerId : json)
| CbSearch (theUrl : json)
| CbHeap
| CbSlots
| CbTask (taskId : json).

Record request : Type := Request { rq_url : json; rq_callback : callback }.

(** Effects on the document that no handler reads back. *)
Inductive dom_effect : Type :=
| DomHide (sel : jstr)
| DomFadeIn (sel : jstr) (ms : Z)
| DomAttr (sel name value : jstr)
| DomRemoveClass (sel cls : jstr)
| DomAddClass (sel cls : jstr)
| DomResize
| Alert (msg : jstr).

(** A [div.input-search]: its id, the text of its input, its [has-success] class. *)
Record input : Type := Input { in_id : jstr; in_value : jstr; in_success : bool }.

Record page : Type := Page {
  pg_scope : gmap jstr json;
  pg_shared : json;               (** [$state.brokerUrl] *)
  pg_inputs : list input;
  pg_outbox : list request;
  pg_effects : list dom_effect;
  pg_path : jstr;                 (** [$location.path()] *)
  pg_clock : Z                    (** the value of [new Date()] *)
}.

Definition set_scope (f : gmap jstr json -> gmap jstr json) (p : page) : page :=
  Page (f (pg_scope p)) (pg_shared p) (pg_inputs p) (pg_outbox p) (pg_effects p) (pg_path p) (pg_clock p).
Definition set_shared (v : json) (p : page) : page :=
  Page (pg_scope p) v (pg_inputs p) (pg_outbox p) (pg_effects p) (pg_path p) (pg_clock p).
Definition set_inputs (f : list input -> list input) (p : page) : page :=
  Page (pg_scope p) (pg_shared p) (f (pg_inputs p)) (pg_outbox p) (pg_effects p) (pg_path p) (pg_clock p).
Definition set_outbox (f : list request -> list request) (p : page) : page :=
  Page (pg_scope p) (pg_shared p) (pg_inputs p) (f (pg_outbox p)) (pg_effects p) (pg_path p) (pg_clock p).
Definition set_effects (f : list dom_effect -> list dom_effect) (p : page) : page :=
  Page (pg_scope p) (pg_shared p) (pg_inputs p) (pg_outbox p) (f (pg_effects p)) (pg_path p) (pg_clock p).
Definition set_path (v : jstr) (p : page) : page :=
  Page (pg_scope p) (pg_shared p) (pg_inputs p) (pg_outbox p) (pg_effects p) v (pg_clock p).

Abbreviation H := (handler page).

(** [$scope.k], [undefined] when absent. *)
Definition read (p : page) (k : lit) : json := default JUndef (pg_scope p !! js k).
Arguments read p k%_string_scope.

Definition sget (k : lit) : H json := hgets (fun p => read p k).
Definition sset (k : lit) (v : json) : H unit := hmodify (set_scope (fun m => <[js k := v]> m)).
Arguments sget k%_string_scope.
Arguments sset k%_string_scope v.

Definition state_get : H json := hgets pg_shared.
Definition state_set (v : json) : H unit := hmodify (set_shared v).
Definition dom (e : dom_effect) : H unit := hmodify (set_effects (fun l => l ++ [e])).
Definition http_get (url : json) (cb : callback) : H unit :=
  hmodify (set_outbox (fun l => l ++ [Request url cb])).
Definition new_date : H json := hgets (fun p => jint (pg_clock p)).

Local Open Scope handler_scope.

(** ** What the controllers share *)

(** [u.indexOf("?") === -1]: strings and arrays have an [indexOf]. *)
Definition lacks_query (u : json) : result js_error bool :=
  match u with
  | JStr s => Ok (match indexOf s (js "?") with None => true | Some _ => false end)
  | JArr l => Ok (negb (existsb (fun v => jis_str v (js "?")) l))
  | _ => Throw JsTypeError
  end.

(** [if ($scope.brokerUrl.indexOf("?") === -1) $scope.brokerUrl = $scope.brokerUrl + "?"] *)
Definition ensure_query : H unit :=
  u <- sget "brokerUrl" ;;
  b <- hlift (lacks_query u) ;;
  hwhen b (sset "brokerUrl" (JStr (jtext u ++ js "?"))).

(** [$scope.brokerUrl + suffix]. *)
Definition url_plus (suffix : jstr) : H json :=
  u <- sget "brokerUrl" ;; hret (JStr (jtext u ++ suffix)).

(** The elements [v[0] ... v[v.length - 1]]. *)
Definition array_of (v : json) : result js_error (list json) :=
  match v with
  | JArr l => Ok l
  | JStr s => Ok (map (fun c => JStr [c]) s)
  | JUndef | JNull => Throw JsTypeError
  | _ => Ok []
  end.

(** [$scope.badUrl = $scope.brokerUrl || 'URL']. *)
Definition set_bad_url : H unit :=
  u <- sget "brokerUrl" ;; sset "badUrl" (if jtruthy u then u else jlit "URL").

(** How the workers, search and resources controllers pick their URL: the shared one when
    there is one, else the [brokerUrl] parameter [q] of the location. *)
Definition init_url (q : json) : H unit :=
  sset "brokerUrl" (jlit "") ;;;
  s <- state_get ;;
  if jtruthy s then sset "brokerUrl" s
  else sset "brokerUrl" q ;;; state_set q.

(** How the home controller does: the parameter of the location first. *)
Definition init_home_url (q : json) : H unit :=
  sset "brokerUrl" (jlit "") ;;;
  if jtruthy q then sset "brokerUrl" q ;;; state_set q
  else s <- state_get ;; sset "brokerUrl" s.

(** [$scope.go]. *)
Definition go (path : jstr) : H unit := hmodify (set_path path).

(** [$scope.keyPress]: the enter key reloads. *)
Definition keyPress (reloadData : H unit) (keyCode : Z) : H unit :=
  hwhen (Z.eqb keyCode 13) reloadData.

(** The [$(document).ready] of a page: mark its menu entry. *)
Definition mark_menu (li : jstr) : H unit :=
  dom (DomRemoveClass (js "li") (js "active")) ;;; dom (DomAddClass li (js "active")).
