(* ===== verification/Histogram.v ===== *)
(** * Counting with an array used as a map

    The heap and usage charts count names with [map = []] and [map[item]++].  The array
    inherits the members of [Array.prototype], its [length] is an own property that is not
    enumerated, and array indices are enumerated first. *)

From S2P Require Import Json.

(** A count: an exact integer, or [None] for [NaN]. *)
Abbreviation count := (option Z).

Record hist : Type := Hist { h_own : jsobj count; h_length : Z }.

Definition hist_empty : hist := Hist [] 0.

(** The members an array inherits from [Array.prototype] and [Object.prototype]. *)
Definition array_proto_names : list jstr :=
  [js "constructor"; js "at"; js "concat"; js "copyWithin"; js "fill"; js "find"; js "findIndex";
   js "findLast"; js "findLastIndex"; js "lastIndexOf"; js "pop"; js "push"; js "reverse"; js "shift";
   js "unshift"; js "slice"; js "sort"; js "splice"; js "includes"; js "indexOf"; js "join"; js "keys";
   js "entries"; js "values"; js "forEach"; js "filter"; js "flat"; js "flatMap"; js "map"; js "every";
   js "some"; js "reduce"; js "reduceRight"; js "toLocaleString"; js "toString"; js "toReversed";
   js "toSorted"; js "toSpliced"; js "with"] ++ object_proto_names.

Definition inherited (k : jstr) : bool := bool_decide (k ∈ array_proto_names).

(** [if (map[item] == null) map[item] = 0; else map[item]++]. *)
Definition count_item (m : hist) (k : jstr) : hist :=
  if jeqb k (js "length") then Hist (h_own m) (h_length m + 1)
  else if jeqb k (js "__proto__") then m
  else match ob_get (h_own m) k with
       | Some c => Hist (ob_set (h_own m) k (c ← c; Some (c + 1)%Z)) (h_length m)
       | None =>
           if inherited k then Hist (ob_set (h_own m) k None) (h_length m)
           else Hist (ob_set (h_own m) k (Some 0%Z))
                     (if is_index k then Z.max (h_length m) (Z.of_N (dec_val k) + 1) else h_length m)
       end.

(** The loop over the items, the item being used as a property name. *)
Definition histogram (items : list json) : hist :=
  fold_left (fun m item => count_item m (jtext item)) items hist_empty.

(** The entries [for (var item in map)] visits. *)
Definition hist_entries (m : hist) : list (jstr * count) :=
  map (fun k => (k, default None (ob_get (h_own m) k))) (enum_names (h_own m)).

Definition jcount (c : count) : json := match c with Some z => jint z | None => JNum NaN end.

(** [{label: item, value: map[item]}]. *)
Definition label_value (e : jstr * count) : json :=
  JObj [(js "label", JStr e.1); (js "value", jcount e.2)].

(** ** What the loop counts *)

(** A name that means nothing to an array. *)
Definition plain (k : jstr) : Prop := k <> js "length" /\ inherited k = false.

#[export] Instance plain_dec k : Decision (plain k).
Proof. unfold plain. apply _. Defined.

(** How often [k] occurs among the items. *)
Definition occurrences (k : jstr) (items : list json) : nat :=
  length (filter (fun item => jtext item = k) items).

Lemma count_item_other m k k' : k <> k' -> ob_get (h_own (count_item m k)) k' = ob_get (h_own m) k'.
Proof.
  intros Hne. unfold count_item. destruct (jeqb k (js "length")); [done|].
  destruct (jeqb k (js "__proto__")); [done|].
  destruct (ob_get (h_own m) k); [|destruct (inherited k)]; by apply ob_get_set_ne.
Qed.

Lemma count_item_same m k :
  plain k ->
  ob_get (h_own (count_item m k)) k
  = Some (match ob_get (h_own m) k with Some c => c ← c; Some (c + 1)%Z | None => Some 0%Z end).
Proof.
  intros [Hl Hi]. unfold count_item. rewrite (proj2 (jeqb_false _ _) Hl).
  destruct (jeqb k (js "__proto__")) eqn:E; [by apply jeqb_true in E as ->|].
  destruct (ob_get (h_own m) k); [apply ob_get_set_eq|]. rewrite Hi. apply ob_get_set_eq.
Qed.

Lemma occurrences_cons k item items :
  occurrences k (item :: items) = if decide (jtext item = k) then S (occurrences k items) else occurrences k items.
Proof. unfold occurrences. rewrite filter_cons. by destruct (decide _). Qed.

(** Counting on from a histogram that already holds [c] for [k]. *)
Lemma histogram_from m items k :
  plain k ->
  ob_get (h_own (fold_left (fun m item => count_item m (jtext item)) items m)) k
  = match occurrences k items with
    | O => ob_get (h_own m) k
    | S n => Some (match ob_get (h_own m) k with
                   | Some c => c ← c; Some (c + Z.of_nat (S n))%Z
                   | None => Some (Z.of_nat n)
                   end)
    end.
Proof.
  intros Hk. revert m. induction items as [|item items IH]; intros m; [done|].
  cbn [fold_left]. rewrite IH, occurrences_cons. destruct (decide (jtext item = k)) as [<- | Hne].
  - rewrite count_item_same by done.
    destruct (occurrences (jtext item) items) as [|n]; destruct (ob_get (h_own m) (jtext item)) as [[c|]|];
      simpl; try done; do 2 f_equal; lia.
  - by rewrite count_item_other by done.
Qed.

Lemma hist_own_wf items : ob_wf (h_own (histogram items)).
Proof.
  unfold histogram. assert (H : ob_wf (h_own hist_empty)) by constructor. revert H.
  generalize hist_empty. induction items as [|item items IH]; intros m Hm; [done|]. cbn [fold_left].
  apply IH. unfold count_item. destruct (jeqb _ _); [done|]. destruct (jeqb _ _); [done|].
  destruct (ob_get _ _); [|destruct (inherited _)]; by apply ob_wf_set.
Qed.

(** Each entry appears once. *)
Lemma hist_entries_names items : NoDup (map fst (hist_entries (histogram items))).
Proof.
  unfold hist_entries. rewrite map_map. simpl. rewrite map_id, enum_names_perm. apply hist_own_wf.
Qed.

(** An ordinary name is listed when it occurs, with one less than its number of occurrences. *)
Lemma hist_entries_plain items k c :
  plain k ->
  (k, c) ∈ hist_entries (histogram items)
  <-> 0 < occurrences k items /\ c = Some (Z.of_nat (occurrences k items) - 1)%Z.
Proof.
  intros Hk. unfold hist_entries. rewrite list_elem_of_fmap.
  pose proof (histogram_from hist_empty items k Hk) as Hg. cbn [h_own hist_empty ob_get] in Hg.
  fold (histogram items) in Hg. split.
  - intros (k' & [= <- ->] & Hin). rewrite enum_names_perm, ob_get_names in Hin.
    destruct (occurrences k items) as [|n]; rewrite Hg in Hin |- *; [by destruct Hin|].
    simpl. split; [lia|]. f_equal. lia.
  - intros [Hpos ->]. exists k. destruct (occurrences k items) as [|n]; [lia|].
    rewrite enum_names_perm, ob_get_names, Hg. split; [|eauto]. simpl. do 2 f_equal. lia.
Qed.
