(* ===== verification/ConsolePages.v ===== *)
(** * The home, resources and workers pages
    (controllers/home.controller.js, resources.controller.js, workers.controller.js) and the
    chart options (angular.configuration.js, search.controller.js) *)

From S2P Require Import Json Console Histogram.
Local Open Scope handler_scope.

(** ** Chart options *)

Definition field (k : lit) (v : json) : jstr * json := (js k, v).
Arguments field k%_string_scope v.

Definition margins (top right bottom left : Z) : json :=
  JObj [field "top" (jint top); field "right" (jint right); field "bottom" (jint bottom);
        field "left" (jint left)].

Definition chart_title (text : json) : json :=
  JObj [field "enable" (JBool true); field "text" text; field "className" (jlit "h4");
        field "css" (JObj [field "width" (jlit "nullpx"); field "textAlign" (jlit "center")])].

(** [GlobalFunctions.getDiscreteBarChartOptions]. *)
Definition getDiscreteBarChartOptions (title height xLabel : json) : json :=
  JObj [
    field "chart" (JObj [
      field "type" (jlit "discreteBarChart");
      field "height" (if jtruthy height then height else jint 450);
      field "margin" (margins 20 20 50 55);
      field "x" (JFn (FnField (js "label")));
      field "y" (JFn (FnField (js "value")));
      field "showValues" (JBool true);
      field "valueFormat" (JFn FnIdentity);
      field "duration" (jint 500);
      field "xAxis" (JObj [field "axisLabel" xLabel]);
      field "yAxis" (JObj [field "axisLabel" (jlit "Count"); field "axisLabelDistance" (jint (-10))]);
      field "legend" (JObj [field "margin" (margins 5 10 5 0)])]);
    field "title" (chart_title title)].

(** [getOptions] of the resources page. *)
Definition getOptions : json :=
  JObj [
    field "chart" (JObj [
      field "type" (jlit "multiBarChart");
      field "height" (jint 450);
      field "margin" (margins 20 20 45 45);
      field "clipEdge" (JBool true);
      field "duration" (jint 500);
      field "stacked" (JBool true);
      field "showValues" (JBool true);
      field "xAxis" (JObj [field "axisLabel" (jlit "Resource"); field "showMaxMin" (JBool true);
                           field "tickFormat" (JFn FnIdentity)]);
      field "yAxis" (JObj [field "axisLabel" (jlit ""); field "axisLabelDistance" (jint (-20));
                           field "tickFormat" (JFn FnD3Format)])])].

(** [getGroupOptions] of the search page. *)
Definition getGroupOptions : json :=
  JObj [
    field "chart" (JObj [
      field "type" (jlit "pieChart");
      field "height" (jint 400);
      field "x" (JFn (FnField (js "key")));
      field "y" (JFn (FnField (js "y")));
      field "showLabels" (JBool false);
      field "duration" (jint 500);
      field "labelThreshold" (JNum (num_div (fin_of_Z 1) (fin_of_Z 100)));
      field "labelSunbeamLayout" (JBool true);
      field "legend" (JObj [field "margin" (margins 5 10 5 0)])]);
    field "title" (chart_title (jlit "Task grouped by group id"))].

(** [getTypeOptions] of the search page. *)
Definition getTypeOptions : json :=
  JObj [
    field "chart" (JObj [
      field "type" (jlit "discreteBarChart");
      field "height" (jint 450);
      field "margin" (margins 20 20 50 55);
      field "x" (JFn (FnField (js "label")));
      field "y" (JFn (FnField (js "value")));
      field "wrapLabels" (JBool true);
      field "showValues" (JBool true);
      field "valueFormat" (JFn FnIdentity);
      field "duration" (jint 500);
      field "xAxis" (JObj [field "axisLabel" (jlit "Task type")]);
      field "yAxis" (JObj [field "axisLabel" (jlit "Count"); field "axisLabelDistance" (jint (-10));
                           field "fontSize" (jlit "100px")]);
      field "legend" (JObj [field "margin" (margins 5 10 5 0)])]);
    field "title" (chart_title (jlit "Task grouped by type"))].

(** ** Home *)

Module Home.

Definition reloadData : H unit :=
  u <- sget "brokerUrl" ;; state_set u ;;;
  u <- sget "brokerUrl" ;; http_get u CbHome.

Definition empty_status : json :=
  JObj [field "clusterMode" (jlit ""); field "currentLedgerId" (jlit "");
        field "currentSequenceNumber" (jlit ""); field "errorTasks" (jlit "");
        field "finishedTasks" (jlit ""); field "pendingTasks" (jlit ""); field "runningTasks" (jlit "");
        field "tasks" (jlit ""); field "waitingTasks" (jlit "")].

(** The controller, [q] being [$location.search().brokerUrl]. *)
Definition homeController (q : json) : H unit :=
  init_home_url q ;;;
  sset "status" empty_status ;;; sset "workers" (JArr []) ;;; sset "brokers" (JArr []) ;;;
  reloadData ;;; mark_menu (js "#li-home").

(** [parseInt(part / allTask * 100, 10)]. *)
Definition percent (part allTask : json) : count :=
  parseInt_num (num_mul (num_div (jnumber part) (jnumber allTask)) (Fin (QArith_base.inject_Z 100))).

(** The percentages of a status: running, waiting, error, finished, the last one completed
    so that they add up to 100. *)
Definition percentages (running waiting error finished allTask : json) : count * count * count * count :=
  let r := percent running allTask in
  let w := percent waiting allTask in
  let e := percent error allTask in
  let f := percent finished allTask in
  let sum := f ← f; e ← e; w ← w; r ← r; Some (f + e + w + r)%Z in
  let f' := match sum with
            | Some s => if (s <? 100)%Z then f ← f; Some (f + (100 - s))%Z else f
            | None => f
            end in
  (r, w, e, f').

Definition on_home (data : json) : H unit :=
  dom (DomHide (js "#warning-alert")) ;;;
  ok <- hlift (jprop data "ok") ;;
  hwhen (jtruthy ok) (
    status <- hlift (jprop data "status") ;;
    allTask <- hlift (jprop status "tasks") ;;
    r <- hlift (jprop status "runningTasks") ;;
    w <- hlift (jprop status "waitingTasks") ;;
    e <- hlift (jprop status "errorTasks") ;;
    f <- hlift (jprop status "finishedTasks") ;;
    let '(pr, pw, pe, pf) := percentages r w e f allTask in
    sset "running" (jcount pr) ;;; sset "waiting" (jcount pw) ;;;
    sset "error" (jcount pe) ;;; sset "finished" (jcount pf) ;;;
    sset "status" status ;;;
    d <- new_date ;; sset "lastupdate" d).

Definition on_home_error : H unit := set_bad_url ;;; dom (DomFadeIn (js "#warning-alert") 500).

End Home.

(** ** Resources *)

Module Resources.

Definition reloadData : H unit :=
  ensure_query ;;;
  u <- sget "brokerUrl" ;; state_set u ;;;
  theUrl <- url_plus (js "&view=resources") ;;
  http_get theUrl CbResources.

Definition resourcesController (q : json) : H unit :=
  init_url q ;;;
  sset "resources" (JArr []) ;;;
  dom (DomHide (js "#warning-alert")) ;;;
  mark_menu (js "#li-resources") ;;;
  reloadData.

(** The points of one series: [{x: id, y: res[i].k}]. *)
Definition series (k : lit) (res : list json) : result js_error (list json) :=
  map_result (fun r => rbind (jprop r "id") (fun x => rbind (jprop r k) (fun y =>
    Ok (JObj [field "x" x; field "y" y])))) res.
Arguments series k%_string_scope res.

Definition on_resources (data : json) : H unit :=
  dom (DomHide (js "#warning-alert")) ;;;
  ok <- hlift (jprop data "ok") ;;
  hwhen (jtruthy ok) (
    res <- hlift (jprop data "resources") ;;
    sset "options" getOptions ;;;
    items <- hlift (array_of res) ;;
    running <- hlift (series "runningTasks" items) ;;
    max <- hlift (series "actualLimit" items) ;;
    sset "data" (JArr [
        JObj [field "values" (JArr running); field "key" (jlit "Running tasks")];
        JObj [field "values" (JArr max); field "key" (jlit "Global limit")]]) ;;;
    d <- new_date ;; sset "lastupdate" d ;;;
    sset "resources" res).

Definition on_resources_error : H unit := set_bad_url ;;; dom (DomFadeIn (js "#warning-alert") 500).

End Resources.

(** ** Workers *)

Module Workers.

Definition reloadData : H unit :=
  u <- sget "brokerUrl" ;; state_set u ;;;
  u <- sget "brokerUrl" ;; http_get u CbWorkers.

Definition workersController (q : json) : H unit :=
  init_url q ;;;
  sset "status" (JObj []) ;;; sset "workers" (JArr []) ;;; sset "brokers" (JArr []) ;;;
  sset "min" (JObj []) ;;;
  dom (DomHide (js "#warning-alert")) ;;;
  mark_menu (js "#li-workers") ;;;
  reloadData.

Definition popResourcesTask (workerId : json) : H unit :=
  ensure_query ;;;
  theUrl <- url_plus (js "&view=resources&workerId=" ++ jtext workerId) ;;
  http_get theUrl (CbWorkerResources workerId).

Definition popUsagesTask (workerId : json) : H unit :=
  ensure_query ;;;
  theUrl <- url_plus (js "&view=tasks&status=running&workerId=" ++ jtext workerId) ;;
  http_get theUrl (CbWorkerUsages workerId).

Definition refresh (wid : json) : H unit := popUsagesTask wid.

Definition on_worker_resources (workerId data : json) : H unit :=
  dom (DomHide (js "#warning-alert")) ;;;
  ok <- hlift (jprop data "ok") ;;
  hwhen (jtruthy ok) (
    res <- hlift (jprop data "resources") ;; sset "wres" res ;;;
    sset "wid" workerId).

(** [$scope.min.userMin]. *)
Definition userMin : H json := m <- sget "min" ;; hlift (jprop m "userMin").
Definition set_userMin (v : json) : H unit :=
  m <- sget "min" ;;
  match m with
  | JObj o => sset "min" (JObj (ob_set o (js "userMin") v))
  | JUndef | JNull => hthrow JsTypeError
  | _ => hret tt
  end.

(** [map[item] >= bound]. *)
Definition count_ge (c : count) (bound : json) : bool :=
  match c, jnumber bound with
  | Some _, NaN => false
  | Some z, n => negb (num_lt (Fin (QArith_base.inject_Z z)) n)
  | None, _ => false
  end.

Definition count_pos (c : count) : bool := match c with Some z => (0 <? z)%Z | None => false end.

Definition on_worker_usages (workerId data : json) : H unit :=
  dom (DomHide (js "#warning-alert")) ;;;
  ok <- hlift (jprop data "ok") ;;
  hwhen (jtruthy ok) (
    ts <- hlift (jprop data "tasks") ;;
    tasks <- hlift (array_of ts) ;;
    users <- hlift (map_result (fun t => jprop t "userId") tasks) ;;
    m <- userMin ;;
    hwhen (negb (jtruthy m)) (set_userMin (jint 1)) ;;;
    m <- userMin ;;
    let values := filter (fun e => count_ge e.2 m = true) (hist_entries (histogram users)) in
    sset "optionsUser" (getDiscreteBarChartOptions (jlit "User usages") (jint 300) (jlit "Users")) ;;;
    sset "dataUser" (JArr [JObj [field "key" (jlit ""); field "values" (JArr (map label_value values))]]) ;;;
    types <- hlift (map_result (fun t => jprop t "tasktype") tasks) ;;
    let values := filter (fun e => count_pos e.2 = true) (hist_entries (histogram types)) in
    sset "dataType" (JArr [JObj [field "key" (jlit "Type of tasks");
                                 field "values" (JArr (map label_value values))]]) ;;;
    sset "optionsType" (getDiscreteBarChartOptions (jlit "Type usages") (jint 300) (jlit "Task type")) ;;;
    sset "wid" workerId ;;;
    dom DomResize).

Definition on_worker_error : H unit := dom (DomFadeIn (js "#warning-alert") 500).

Definition on_workers (data : json) : H unit :=
  dom (DomHide (js "#warning-alert")) ;;;
  ok <- hlift (jprop data "ok") ;;
  hwhen (jtruthy ok) (
    s <- hlift (jprop data "status") ;; sset "status" s ;;;
    w <- hlift (jprop data "workers") ;; sset "workers" w ;;;
    d <- new_date ;; sset "lastupdate" d).

Definition on_workers_error : H unit := set_bad_url ;;; dom (DomFadeIn (js "#warning-alert") 500).

Definition getWorkerColor (status : json) : json :=
  if jis_str status (js "CONNECTED") then jlit "success"
  else if jis_str status (js "DEAD") then jlit "danger"
  else JUndef.

End Workers.
