(* ===== verification/ConsoleSearch.v ===== *)
(** * The task search page (controllers/search.controller.js) *)

From S2P Require Import Json Console Histogram ConsolePages.
Local Open Scope handler_scope.

(** ** The filters *)

(** [$scope.filters[name]]. *)
Definition filters_of (p : page) : jsobj json :=
  match read p "filters" with JObj o => o | _ => [] end.

Definition filter_get (name : jstr) : H json :=
  hgets (fun p => default JUndef (ob_get (filters_of p) name)).

Definition filter_set (name : jstr) (v : json) : H unit :=
  o <- hgets filters_of ;; sset "filters" (JObj (ob_set o name v)).

(** The text of the [max] input, made canonical and capped. *)
Definition normalize_max : H unit :=
  m <- sget "max" ;;
  hwhen (negb (jis_str m (dec_of_Z (to_int32 (jnumber m))))) (sset "max" (jlit "150")) ;;;
  m <- sget "max" ;;
  hwhen (num_lt (Fin (QArith_base.inject_Z 300)) (jnumber m)) (sset "max" (jint 300)).

(** [theUrl + '&param=' + encodeURIComponent(v)]. *)
Definition add_param (theUrl : jstr) (param : jstr) (v : json) : H jstr :=
  e <- hlift (of_uri (encodeURIComponent (jtext v))) ;;
  hret (theUrl ++ js "&" ++ param ++ js "=" ++ e).

Definition add_filter (theUrl : jstr) (param name : jstr) : H jstr :=
  v <- filter_get name ;;
  if jtruthy v then add_param theUrl param v else hret theUrl.

(** The query parameters of a list search, with the filter each one comes from. *)
Definition list_params : list (jstr * jstr) :=
  [(js "userId", js "searchUserId"); (js "status", js "searchStatus"); (js "slot", js "searchSlot");
   (js "workerId", js "searchWorkerId"); (js "tasktype", js "searchTasktype")].

Fixpoint add_filters (theUrl : jstr) (ps : list (jstr * jstr)) : H jstr :=
  match ps with
  | [] => hret theUrl
  | (param, name) :: ps' => u <- add_filter theUrl param name ;; add_filters u ps'
  end.

(** ** Requests *)

(** A task id is looked up alone, and all the filters are dropped. *)
Definition task_url (id : json) : H jstr :=
  base <- url_plus (js "&view=task") ;;
  u <- add_param (jtext base) (js "taskId") id ;;
  sset "filters" (JObj []) ;;; hret u.

(** Otherwise the non-empty filters and the maximum are parameters of a list. *)
Definition list_url : H jstr :=
  base <- url_plus (js "&view=tasks") ;;
  u <- add_filters (jtext base) list_params ;;
  m <- sget "max" ;;
  u <- (if jtruthy m then add_param u (js "max") m else hret u) ;;
  filter_set (js "searchTaskId") (jlit "") ;;; hret u.

Definition reloadSearch : H unit :=
  u <- sget "brokerUrl" ;; state_set u ;;;
  ensure_query ;;;
  normalize_max ;;;
  id <- filter_get (js "searchTaskId") ;;
  theUrl <- (if jtruthy id then task_url id else list_url) ;;
  http_get (JStr theUrl) (CbSearch (JStr theUrl)).

(** The two requests below are sent to [$state.brokerUrl], saved before the [?] is added. *)
Definition reload_view (suffix : lit) (cb : callback) : H unit :=
  u <- sget "brokerUrl" ;; state_set u ;;;
  ensure_query ;;;
  s <- state_get ;;
  http_get (JStr (jtext s ++ js suffix)) cb.
Arguments reload_view suffix%_string_scope cb.

Definition reloadHeap : H unit := reload_view "&view=tasksheap" CbHeap.
Definition reloadSlots : H unit := reload_view "&view=slots" CbSlots.

Definition popTask (taskId : json) : H unit :=
  ensure_query ;;;
  theUrl <- url_plus (js "&view=task&taskId=" ++ jtext taskId) ;;
  http_get theUrl (CbTask taskId).

Definition reloadTask (id : json) : H unit := popTask id.

(** ** The page *)

(** [toogleClassSuccess]: highlight the inputs that hold text. *)
Definition toogleClassSuccess : H unit :=
  hmodify (set_inputs (map (fun i => Input (in_id i) (in_value i) (truthy (in_value i))))).

Definition isSet (tabNum : lit) : H bool := t <- sget "tab" ;; hret (jis_str t (js tabNum)).
Arguments isSet tabNum%_string_scope.

Definition reloadData : H unit :=
  toogleClassSuccess ;;;
  t1 <- isSet "1" ;; t2 <- isSet "2" ;; t3 <- isSet "3" ;;
  if (t1 : bool) then reloadSearch
  else if (t2 : bool) then reloadHeap
  else if (t3 : bool) then reloadSlots
  else reloadHeap ;;; reloadSearch.

Definition setTab (newTab : json) : H unit := sset "tab" newTab ;;; reloadData.

(** The text jQuery's [val(v)] gives an input. *)
Definition input_text (v : json) : jstr :=
  match v with JUndef | JNull => [] | _ => jtext v end.

Definition searchThis (id : json) (idsearch : jstr) : H unit :=
  hmodify (set_inputs (map (fun i =>
    if jeqb (in_id i) idsearch then Input (in_id i) (input_text id) (in_success i) else i))) ;;;
  filter_set idsearch id ;;;
  reloadSearch.

Fixpoint clear_inputs (names : list jstr) : H unit :=
  match names with
  | [] => hret tt
  | n :: names' => filter_set n (jlit "") ;;; clear_inputs names'
  end.

Definition clearFilters : H unit :=
  names <- hgets (fun p => map in_id (pg_inputs p)) ;;
  hmodify (set_inputs (map (fun i => Input (in_id i) [] false))) ;;;
  clear_inputs names ;;;
  reloadSearch.

Definition getTaskColor (status : json) : json :=
  if jis_str status (js "waiting") then jlit "warning"
  else if jis_str status (js "error") then jlit "danger"
  else if jis_str status (js "finished") then jlit "info"
  else if jis_str status (js "running") then jlit "success"
  else JUndef.

(** The body of the controller, [q] being [$location.search().brokerUrl]; the ready handler
    ends by opening the first tab. *)
Definition searchController (q : json) : H unit :=
  init_url q ;;;
  sset "tasks" (JArr []) ;;; sset "filters" (JObj []) ;;; sset "max" (jlit "150") ;;;
  sset "optionsGroup" getGroupOptions ;;;
  sset "optionsType" (getDiscreteBarChartOptions (jlit "Task division") JNull (jlit "Task type")) ;;;
  dom (DomHide (js "#warning-alert")) ;;;
  mark_menu (js "#li-search") ;;;
  setTab (jlit "1").

(** ** Answers *)

Definition on_search (theUrl data : json) : H unit :=
  dom (DomHide (js "#warning-alert")) ;;;
  sset "lastUrl" theUrl ;;;
  ok <- hlift (jprop data "ok") ;;
  hwhen (jtruthy ok) (
    ts <- hlift (jprop data "tasks") ;; sset "tasks" ts ;;;
    d <- new_date ;; sset "lastupdate" d ;;;
    c <- hlift (jprop data "count") ;; sset "lastCount" c ;;;
    hwhen (negb (jtruthy ts)) (t <- hlift (jprop data "task") ;; sset "tasks" (JArr [t]))).

Definition on_heap (data : json) : H unit :=
  dom (DomHide (js "#warning-alert")) ;;;
  ok <- hlift (jprop data "ok") ;;
  hwhen (jtruthy ok) (
    th <- hlift (jprop data "tasksheap") ;; ts <- hlift (jprop th "tasks") ;;
    tasksheap <- hlift (array_of ts) ;;
    groups <- hlift (map_result (fun t => jprop t "group") tasksheap) ;;
    sset "dataGroup" (JArr (map (fun e => JObj [(js "key", JStr e.1); (js "y", jcount e.2)])
      (hist_entries (histogram groups)))) ;;;
    types <- hlift (map_result (fun t => jprop t "taskType") tasksheap) ;;
    sset "dataType" (JArr [JObj [(js "key", jlit "Type of tasks");
      (js "values", JArr (map label_value (hist_entries (histogram types))))]]) ;;;
    d <- new_date ;; sset "lastupdate" d).

Definition on_slots (data : json) : H unit :=
  dom (DomHide (js "#warning-alert")) ;;;
  ok <- hlift (jprop data "ok") ;;
  hwhen (jtruthy ok) (
    sl <- hlift (jprop data "slots") ;; busy <- hlift (jprop sl "busySlots") ;;
    sset "slots" busy ;;;
    (match busy with
     | JObj o => sset "slots" (JObj (ob_set o (js "length") (jint (Z.of_nat (length o)))))
     | JUndef | JNull => hthrow JsTypeError
     | _ => hret tt
     end) ;;;
    d <- new_date ;; sset "lastupdate" d).

(** [if (task[k] && parseInt(task[k])) task[k] = new Date(task[k])]: a date is written
    [{date: v}] here. *)
Definition to_date (k : lit) (task : jsobj json) : jsobj json :=
  let v := default JUndef (ob_get task (js k)) in
  if jtruthy v && (match parseInt_json v with Some z => negb (Z.eqb z 0) | None => false end)
  then ob_set task (js k) (JObj [(js "date", v)]) else task.
Arguments to_date k%_string_scope task.

Definition on_task (data : json) : H unit :=
  ok <- hlift (jprop data "ok") ;;
  hwhen (jtruthy ok) (
    task <- hlift (jprop data "task") ;;
    match task with
    | JUndef | JNull => hthrow JsTypeError
    | JObj o => sset "taskdetails" (JObj (to_date "deadline" (to_date "createdTimestamp" o)))
    | _ => sset "taskdetails" task
    end).

(** ** Failures *)

Definition on_search_error : H unit :=
  set_bad_url ;;; dom (DomFadeIn (js "#warning-alert") 500).

Definition on_view_error : H unit :=
  set_bad_url ;;;
  dom (DomHide (js "#warning-alert")) ;;;
  dom (DomAttr (js "#warning-alert") (js "class") (js "alert alert-danger")) ;;;
  dom (DomFadeIn (js "#warning-alert") 500).

Definition on_task_error (taskId : json) : H unit :=
  dom (Alert (js "cannot display data for task :" ++ jtext taskId)).
