(* ===== verification/HomeFacts.v ===== *)
(** * The percentages of the home page

    The home controller turns the counters of the broker into percentages with
    [parseInt(part / allTask * 100, 10)] and gives what is missing to the finished tasks. *)

From Stdlib Require Import QArith Qround Qpower Lqa.
From S2P Require Import Json Console Histogram ConsolePages.
Local Open Scope Z_scope.

Definition ulp : Q := 1 # 9007199254740992.

Lemma to_double_pos x :
  (2 ^ (- 1022) <= x)%Q -> (x <= 1000)%Q ->
  exists r, to_double x = Fin r /\ (x * (1 - ulp) <= r)%Q /\ (r <= x * (1 + ulp))%Q.
Proof.
  intros Hlo Hhi. pose proof (round_pos_err x Hlo) as [H1 H2].
  change (2 ^ (- 53))%Q with ulp in H1, H2.
  pose proof (Qpow2_pos (- 1022)) as Hp.
  unfold to_double. assert (Hneg : (Qnum x <? 0) = false).
  { apply Z.ltb_ge. assert (0 < x)%Q as Hx by lra. unfold Qlt in Hx. simpl in Hx. lia. }
  rewrite Hneg. destruct (Qle_bool _ _) eqn:E; [|eauto]. exfalso. apply Qle_bool_iff in E.
  assert (Hbig : (2000 <= inject_Z (2 ^ 1024))%Q) by (apply Qle_bool_iff; reflexivity).
  unfold ulp in *. lra.
Qed.

Lemma small_pow : (2 ^ (- 1022) <= 1 # 1000000000)%Q.
Proof. apply Qle_bool_iff. reflexivity. Qed.

Lemma Qnum_inject_div a n : 0 < n -> (inject_Z a / inject_Z n == a # Z.to_pos n)%Q.
Proof. intros H. rewrite Qmake_Qdiv. by rewrite Z2Pos.id. Qed.

Lemma percent_unfold a n :
  0 < n -> Home.percent (jint a) (jint n)
  = parseInt_num (num_mul (to_double (inject_Z a / inject_Z n)) (Fin (inject_Z 100))).
Proof.
  intros Hn. unfold Home.percent, jint, jnumber, num_div. cbn [inject_Z Qnum].
  by replace (n =? 0) with false by (symmetry; apply Z.eqb_neq; lia).
Qed.

Lemma Qfloor_nonneg x : (0 <= x)%Q -> 0 <= Qfloor x.
Proof. intros H. change 0 with (Qfloor 0). by apply Qfloor_resp_le. Qed.

(** One percentage is never rounded up. *)
Lemma percent_spec a n :
  0 <= a <= n -> 0 < n < 100000000 ->
  exists p, Home.percent (jint a) (jint n) = Some p /\ 0 <= p /\ p * n <= 100 * a.
Proof.
  intros Ha Hn. rewrite percent_unfold by lia. destruct (Z.eq_dec a 0) as [-> | Ha0].
  { exists 0. split_and!; [|lia..]. unfold to_double. cbn [inject_Z Qdiv Qmult Qnum Qinv].
    destruct n as [|n|n]; try lia. reflexivity. }
  assert (HB : (1 # 99999999 <= 1 / inject_Z n)%Q).
  { apply Qle_shift_div_l; [by apply inject_pos; lia|].
    assert (Hle : (inject_Z n <= inject_Z 99999999)%Q) by (rewrite <- Zle_Qle; lia).
    unfold inject_Z at 2 in Hle. lra. }
  assert (Hnp : (0 < inject_Z n)%Q) by (apply inject_pos; lia).
  set (A := (inject_Z a / inject_Z n)%Q). set (B := (1 / inject_Z n)%Q) in *.
  assert (HA1 : (A <= 1)%Q).
  { apply Qle_shift_div_r; [done|]. rewrite Qmult_1_l, <- Zle_Qle. lia. }
  assert (HAB : (B <= A)%Q).
  { apply Qmult_le_compat_r; [|apply Qinv_le_0_compat; lra]. change 1%Q with (inject_Z 1).
    rewrite <- Zle_Qle. lia. }
  pose proof small_pow as Hsp.
  destruct (to_double_pos A) as (r1 & -> & Hl1 & Hh1); [lra|lra|].
  cbn [num_mul]. assert (H100 : (r1 * inject_Z 100 == 100 * r1)%Q) by ring.
  unfold ulp in *.
  destruct (to_double_pos (r1 * inject_Z 100)) as (z & -> & Hl2 & Hh2); [rewrite H100; lra..|].
  rewrite H100 in Hl2, Hh2. unfold ulp in *.
  assert (Hz : (1 # 1000000 <= z)%Q) by lra.
  assert (Hzu : (z <= 100 * A + (1 # 1000000000))%Q) by lra.
  clear Hl1 Hh1 Hl2 Hh2 Hsp H100.
  exists (Qfloor z). unfold parseInt_num, parseInt_pos.
  assert (Hneg : (Qnum z <? 0) = false).
  { apply Z.ltb_ge. assert (0 < z)%Q as Hx by lra. unfold Qlt in Hx. simpl in Hx. lia. }
  rewrite Hneg. rewrite (proj2 (Qle_bool_iff _ _) Hz).
  split_and!; [done|apply Qfloor_nonneg; lra|].
  apply Z.nlt_ge. intros Hlt. pose proof (Qfloor_le z) as Hf.
  assert (Hc : (100 * A + B <= inject_Z (Qfloor z))%Q).
  { setoid_replace (100 * A + B)%Q with (inject_Z (100 * a + 1) / inject_Z n)%Q.
    - apply Qle_shift_div_r; [done|]. rewrite <- inject_Z_mult, <- Zle_Qle. lia.
    - unfold A, B. rewrite inject_Z_plus, inject_Z_mult. change (inject_Z 100) with 100%Q.
      change (inject_Z 1) with 1%Q. field. lra. }
  lra.
Qed.

(** C2: for a broker with fewer than a hundred million tasks whose four counters add up to
    the total, the page shows four percentages that add up to exactly 100; the first three
    are never more than the true share. *)
Theorem home_percentages_sum r w e f n :
  0 <= r -> 0 <= w -> 0 <= e -> 0 <= f -> n = r + w + e + f -> 0 < n < 100000000 ->
  exists pr pw pe pf,
    Home.percentages (jint r) (jint w) (jint e) (jint f) (jint n) = (Some pr, Some pw, Some pe, Some pf)
    /\ pr + pw + pe + pf = 100
    /\ (0 <= pr /\ pr * n <= 100 * r) /\ (0 <= pw /\ pw * n <= 100 * w)
    /\ (0 <= pe /\ pe * n <= 100 * e) /\ 0 <= pf.
Proof.
  intros Hr Hw He Hf Hsum Hn.
  destruct (percent_spec r n) as (pr & Er & Hr1 & Hr2); [lia..|].
  destruct (percent_spec w n) as (pw & Ew & Hw1 & Hw2); [lia..|].
  destruct (percent_spec e n) as (pe & Ee & He1 & He2); [lia..|].
  destruct (percent_spec f n) as (pf & Ef & Hf1 & Hf2); [lia..|].
  unfold Home.percentages. rewrite Er, Ew, Ee, Ef. cbn [mbind option_bind].
  assert (Hle : pf + pe + pw + pr <= 100) by nia.
  destruct (Z.ltb_spec (pf + pe + pw + pr) 100).
  - exists pr, pw, pe, (pf + (100 - (pf + pe + pw + pr))). split_and!; (done || lia).
  - exists pr, pw, pe, pf. split_and!; (done || lia).
Qed.

Lemma home_percentages_sum_witness :
  exists pr pw pe pf,
    Home.percentages (jint 29) (jint 1) (jint 0) (jint 70) (jint 100) = (Some pr, Some pw, Some pe, Some pf)
    /\ pr + pw + pe + pf = 100
    /\ (0 <= pr /\ pr * 100 <= 100 * 29) /\ (0 <= pw /\ pw * 100 <= 100 * 1)
    /\ (0 <= pe /\ pe * 100 <= 100 * 0) /\ 0 <= pf.
Proof. apply (home_percentages_sum 29 1 0 70 100); lia. Defined.

(** The bound is needed: from a percentage below [1e-6] on, the text of the number has an
    exponent and [parseInt] reads its first digit, so the shares can exceed 100. *)
Theorem home_percentages_exponent :
  Home.percentages (jint 2) (jint 3) (jint 4) (jint 999999991) (jint 1000000000)
  = (Some 2, Some 3, Some 4, Some 99).
Proof. vm_compute. reflexivity. Qed.
