(* ===== verification/SearchFacts.v ===== *)
(** * The requests of the search page

    What [reloadSearch] sends to the broker: the query string it builds decodes to the
    filters of the page. *)

From Stdlib Require Import QArith.
From S2P Require Import Query Json Console Histogram ConsolePages ConsoleSearch.
#[local] Open Scope nat_scope.

(** ** Reading a page that was written *)

Lemma read_set_eq p k v : read (set_scope (fun m => <[js k := v]> m) p) k = v.
Proof. unfold read. simpl. by rewrite lookup_insert_eq. Qed.

Lemma read_set_ne p k k' v :
  js k <> js k' -> read (set_scope (fun m => <[js k := v]> m) p) k' = read p k'.
Proof. intros H. unfold read. simpl. by rewrite lookup_insert_ne. Qed.

Lemma read_shared p v k : read (set_shared v p) k = read p k.
Proof. done. Qed.
Lemma read_outbox p f k : read (set_outbox f p) k = read p k.
Proof. done. Qed.
Lemma read_effects p f k : read (set_effects f p) k = read p k.
Proof. done. Qed.

Ltac js_ne := let H := fresh in intros H; vm_compute in H; discriminate H.
Ltac reads :=
  repeat first [ rewrite read_set_eq | rewrite read_set_ne by js_ne | rewrite read_shared
               | rewrite read_outbox | rewrite read_effects ].

(** ** Query strings made of [&name=value] parts *)

Definition amp (ps : list jstr) : jstr := concat (map (fun p => js "&" ++ p) ps).

Lemma split_amp ps :
  Forall (fun p => chr "&" ∉ p) ps -> split (chr "&") (amp ps) = [] :: ps.
Proof.
  unfold amp. induction 1 as [|p ps Hp Hps IH]; [done|]. cbn [map concat].
  change (js "&" ++ p) with (chr "&" :: p). cbn [app split]. rewrite N.eqb_refl. f_equal.
  destruct ps as [|p' ps].
  - simpl. rewrite app_nil_r. by apply split_no_sep.
  - cbn [map concat] in *. change (js "&" ++ p') with (chr "&" :: p') in *. cbn [app] in *.
    rewrite split_app_sep by done. f_equal. cbn [split] in IH. rewrite N.eqb_refl in IH.
    by injection IH.
Qed.

(** A [name=value] part, the value encoded with [encodeURIComponent]. *)
Definition enc (s : jstr) : jstr := match encodeURIComponent s with Ok e => e | Throw _ => [] end.
Definition part (nv : jstr * jstr) : jstr := nv.1 ++ js "=" ++ enc nv.2.

Lemma enc_ok s : js_text s -> encodeURIComponent s = Ok (enc s).
Proof. intros [_ H]. unfold enc. by destruct (encodeURIComponent_ok s H) as [e ->]. Qed.

(** A name that encodes to itself. *)
Definition clear_name (n : jstr) : Prop :=
  n <> [] /\ chr "&" ∉ n /\ chr "=" ∉ n /\ tryDecodeURIComponent n = Some n /\ q_name n.

Lemma enc_not_in c s : js_text s -> enc_char [] c = false -> c ∉ enc s.
Proof.
  intros Hs Hc Hin. pose proof (encodeURIComponent_alphabet s (enc s) c (proj1 Hs) (enc_ok s Hs) Hin).
  congruence.
Qed.

Lemma parse_part obj n v :
  clear_name n -> js_text v -> parse_pair obj (part (n, v)) = q_add obj n (QStr v).
Proof.
  intros (Hne & Ha & He & Hd & _) Hv. unfold parse_pair, part. cbn [fst snd].
  rewrite truthy_app by done. change (js "=" ++ enc v) with (chr "=" :: enc v).
  rewrite split_app_sep by done. rewrite split_no_sep by (by apply enc_not_in).
  rewrite Hd. cbn [pair_value]. unfold tryDecodeURIComponent at 1.
  by rewrite (decode_encodeURIComponent v) by (by apply Hv || by apply enc_ok).
Qed.

Lemma parse_parts l acc :
  Forall (fun nv => clear_name nv.1 /\ js_text nv.2) l ->
  NoDup (ob_names acc ++ map fst l) ->
  fold_left parse_pair (map part l) acc = acc ++ map (fun nv => (nv.1, QStr nv.2)) l.
Proof.
  intros H. revert acc. induction H as [|[n v] l [Hn Hv] Hl IH]; intros acc Hnd.
  { simpl. by rewrite app_nil_r. }
  cbn [map fold_left] in *. cbn [fst snd] in *. rewrite parse_part by done.
  assert (Hnew : ob_get acc n = None).
  { apply ob_get_None. intros Hin. apply NoDup_app in Hnd as (_ & Hd & _). eapply Hd; [exact Hin|by left]. }
  rewrite q_add_new by (done || apply Hn). rewrite ob_names_set_new by done. rewrite IH.
  - by rewrite <- app_assoc.
  - unfold ob_names in *. rewrite map_app, <- app_assoc. done.
Qed.

Lemma parse_amp l :
  Forall (fun nv => clear_name nv.1 /\ js_text nv.2) l -> NoDup (map fst l) ->
  parseKeyValue (amp (map part l)) = map (fun nv => (nv.1, QStr nv.2)) l.
Proof.
  intros Hl Hnd. unfold parseKeyValue. rewrite split_amp.
  - cbn [fold_left]. by apply (parse_parts l []).
  - apply Forall_fmap. eapply Forall_impl; [exact Hl|]. intros [n v] [(_ & Ha & _) Hv].
    unfold part. cbn [fst snd]. intros [Hin|[Hin|Hin]%elem_of_app]%elem_of_app; [done| |].
    + apply list_elem_of_singleton in Hin. by vm_compute in Hin.
    + by eapply enc_not_in in Hin.
Qed.

(** ** The filters of a page *)

(** The inputs of the search form hold text, or were never edited. *)
Definition filter_text (p : page) (name : jstr) : jstr :=
  match ob_get (filters_of p) name with Some (JStr s) => s | _ => [] end.

Definition text_filters (p : page) : Prop :=
  (exists o, read p "filters" = JObj o) /\
  Forall (fun pn => match ob_get (filters_of p) pn.2 with
                    | None => True
                    | Some (JStr s) => js_text s
                    | Some _ => False
                    end) ((js "taskId", js "searchTaskId") :: list_params).

(** The parameters a list search sends: the non-empty filters. *)
Definition filter_params (p : page) : list (jstr * jstr) :=
  filter (fun nv => truthy nv.2 = true) (map (fun pn => (pn.1, filter_text p pn.2)) list_params).

Lemma add_filter_run p url param name :
  match ob_get (filters_of p) name with None => True | Some (JStr s) => js_text s | Some _ => False end ->
  add_filter url param name p
  = (Ok (if truthy (filter_text p name) then url ++ js "&" ++ part (param, filter_text p name) else url), p).
Proof.
  unfold add_filter, filter_text, filter_get, hbind, hgets.
  destruct (ob_get (filters_of p) name) as [[]|]; try done.
  intros Hs. unfold default, id. cbn [jtruthy]. destruct (truthy s); [|done].
  unfold add_param, hbind, hlift. cbn [jtext]. by rewrite enc_ok.
Qed.

Lemma add_filters_run p url ps :
  Forall (fun pn => match ob_get (filters_of p) pn.2 with
                    | None => True | Some (JStr s) => js_text s | Some _ => False end) ps ->
  add_filters url ps p
  = (Ok (url ++ amp (map part (filter (fun nv => truthy nv.2 = true)
                                 (map (fun pn => (pn.1, filter_text p pn.2)) ps)))), p).
Proof.
  intros H. revert url. induction H as [|[param name] ps Hp Hps IH]; intros url; cbn [add_filters].
  { simpl. by rewrite app_nil_r. }
  unfold hbind. rewrite add_filter_run by done. rewrite IH. cbn [map fst snd]. rewrite filter_cons.
  cbn [snd]. destruct (truthy (filter_text p name)) eqn:E.
  - rewrite decide_True by done. cbn [map]. unfold amp. cbn [map concat].
    by rewrite <- !app_assoc.
  - by rewrite decide_False.
Qed.

(** ** The shape of a list search *)

(** What the [max] input is turned into. *)
Definition normalized_max (m : json) : json :=
  let m1 := if jis_str m (dec_of_Z (to_int32 (jnumber m))) then m else jlit "150" in
  if num_lt (Fin (QArith_base.inject_Z 300)) (jnumber m1) then jint 300 else m1.

Lemma normalize_max_run p :
  exists p', normalize_max p = (Ok tt, p') /\ read p' "max" = normalized_max (read p "max")
  /\ (forall k, js k <> js "max" -> read p' k = read p k)
  /\ pg_outbox p' = pg_outbox p /\ pg_shared p' = pg_shared p.
Proof.
  unfold normalize_max, normalized_max, hbind, sget, hgets.
  set (b := jis_str (read p "max") _).
  assert (H1 : exists p1, hwhen (negb b) (sset "max" (jlit "150")) p = (Ok tt, p1)
    /\ read p1 "max" = (if b then read p "max" else jlit "150")
    /\ (forall k, js k <> js "max" -> read p1 k = read p k)
    /\ pg_outbox p1 = pg_outbox p /\ pg_shared p1 = pg_shared p).
  { destruct b; cbn [negb hwhen].
    - exists p. by split_and!.
    - eexists. split; [done|]. split_and!; [by rewrite read_set_eq| |done..].
      intros k Hk. by rewrite read_set_ne. }
  destruct H1 as (p1 & -> & Hm & Ho & Hx & Hs). rewrite Hm.
  set (m1 := if b then _ else _) in *. destruct (num_lt _ (jnumber m1)); cbn [hwhen].
  - eexists. split; [done|]. split_and!; [by rewrite read_set_eq| |done..].
    intros k Hk. rewrite read_set_ne by done. by apply Ho.
  - exists p1. split_and!; done.
Qed.

(** [max] ends up as the text it was, as ['150'], or as the number 300. *)
Lemma normalized_max_cases m :
  (exists s, m = JStr s /\ normalized_max m = JStr s /\ s = dec_of_Z (to_int32 (num_of_str s)))
  \/ normalized_max m = jlit "150" \/ normalized_max m = jint 300.
Proof.
  unfold normalized_max. destruct (jis_str m _) eqn:E; destruct (num_lt _ _); auto.
  left. destruct m as [| | | |s| | |]; try done. exists s. split_and!; [done..|].
  cbn [jis_str jnumber] in E. by apply jeqb_true in E.
Qed.

Lemma dec_of_Z_text z : js_text (dec_of_Z z).
Proof.
  assert (Hd : forall s, Forall (fun c => is_digit c = true) s -> js_text s).
  { intros s H. split.
    - eapply Forall_impl; [exact H|]. intros c Hc%is_digit_spec. lia.
    - induction H as [|c s Hc Hs IH]; [done|]. cbn [utf16_ok].
      assert (uri_unreserved c = true) as [-> ->]%unreserved_not_surrogate; [|done].
      unfold uri_unreserved. by rewrite Hc. }
  unfold dec_of_Z. destruct (z <? 0)%Z; [|apply Hd; apply dec_of_N_spec].
  destruct (Hd (dec_of_N (Z.to_N (- z)))) as [H1 H2]; [apply dec_of_N_spec|].
  split; [constructor; [by vm_compute|done]|]. exact H2.
Qed.

Lemma normalized_max_text m : js_text (jtext (normalized_max m)) /\ jtruthy (normalized_max m) = true.
Proof.
  destruct (normalized_max_cases m) as [(s & -> & -> & Hs)|[-> | ->]].
  - cbn [jtext jtruthy]. rewrite Hs. split; [apply dec_of_Z_text|].
    unfold dec_of_Z. destruct (_ <? 0)%Z; [done|].
    destruct (dec_of_N_spec (Z.to_N (to_int32 (num_of_str s)))) as (_ & _ & Hne & _).
    by destruct (dec_of_N _).
  - split; [apply (dec_of_Z_text 150)|done].
  - split; [apply (dec_of_Z_text 300)|done].
Qed.

Lemma ensure_query_run p b :
  read p "brokerUrl" = JStr b ->
  exists p', ensure_query p = (Ok tt, p')
  /\ read p' "brokerUrl" = JStr (if decide (chr "?" ∈ b) then b else b ++ js "?")
  /\ (forall k, js k <> js "brokerUrl" -> read p' k = read p k)
  /\ pg_outbox p' = pg_outbox p /\ pg_shared p' = pg_shared p.
Proof.
  intros Hb. unfold ensure_query, hbind, sget, hgets, hlift. rewrite Hb. cbn [lacks_query].
  change (js "?") with [chr "?"]. destruct (indexOf b [chr "?"]) as [i|] eqn:E.
  - exists p. assert (chr "?" ∈ b).
    { destruct (decide (chr "?" ∈ b)) as [|Hn]; [done|].
      apply indexOf_unit_None in Hn. congruence. }
    rewrite decide_True by done. by split_and!.
  - apply indexOf_unit_None in E. eexists. cbn [hwhen]. split; [done|].
    rewrite decide_False by done. split_and!; [by rewrite read_set_eq| |done..].
    intros k Hk. by rewrite read_set_ne.
Qed.

Lemma filters_of_frame p p' : read p' "filters" = read p "filters" -> filters_of p' = filters_of p.
Proof. unfold filters_of. by intros ->. Qed.

Ltac clear_name_tac :=
  unfold clear_name, q_name, js_text, js_wf; split_and!;
  first [ by vm_compute | by repeat constructor
        | rewrite list_elem_of_In; vm_compute; intuition discriminate ].

Lemma list_params_clear : Forall (fun pn => clear_name pn.1) list_params.
Proof. repeat (constructor; [cbn [fst]; clear_name_tac|]). constructor. Qed.

Definition base_url (b : jstr) : jstr := if decide (chr "?" ∈ b) then b else b ++ js "?".

(** The parameters of a list search: the view, the filters that hold text, the maximum. *)
Definition search_params (p : page) : list (jstr * jstr) :=
  (js "view", js "tasks") :: filter_params p ++ [(js "max", jtext (normalized_max (read p "max")))].

Lemma amp_app l1 l2 : amp (l1 ++ l2) = amp l1 ++ amp l2.
Proof. unfold amp. by rewrite map_app, concat_app. Qed.

Lemma filter_params_ok p :
  text_filters p -> Forall (fun nv => clear_name nv.1 /\ js_text nv.2) (filter_params p).
Proof.
  intros [_ Hf]. apply Forall_cons in Hf as [_ Hf]. unfold filter_params.
  apply Forall_forall. intros nv [_ Hin]%list_elem_of_filter.
  apply list_elem_of_fmap in Hin as (pn & -> & Hpn). cbn [fst snd].
  pose proof list_params_clear as Hc. rewrite Forall_forall in Hc, Hf.
  split; [by apply Hc|]. specialize (Hf _ Hpn). unfold filter_text.
  destruct (ob_get _ _) as [[]|]; try done; split; by try constructor.
Qed.

Lemma search_params_ok p :
  text_filters p -> Forall (fun nv => clear_name nv.1 /\ js_text nv.2) (search_params p).
Proof.
  intros Hf. unfold search_params. constructor; [|apply Forall_app; split; [by apply filter_params_ok|]].
  - split; [|by split; [repeat constructor|]].
    cbn [fst]; clear_name_tac.
  - constructor; [|done]. split; [|apply normalized_max_text].
    cbn [fst]; clear_name_tac.
Qed.

Lemma search_params_names p : NoDup (map fst (search_params p)).
Proof.
  assert (Hsub : map fst (filter_params p) `sublist_of` map fst list_params).
  { unfold filter_params. induction list_params as [|pn ps IH]; [done|]. cbn [map].
    rewrite filter_cons. destruct (decide _); cbn [map]; by constructor. }
  unfold search_params. rewrite map_cons, map_app. 
  assert (Hl : (js "view" :: map fst (filter_params p) ++ [js "max"])
    `sublist_of` (js "view" :: map fst list_params ++ [js "max"])).
  { constructor. by apply sublist_app. }
  eapply sublist_NoDup; [|exact Hl]. apply (bool_decide_unpack _). by vm_compute.
Qed.

Lemma filter_set_run p name v :
  (exists o, read p "filters" = JObj o) ->
  exists p', filter_set name v p = (Ok tt, p')
  /\ filters_of p' = ob_set (filters_of p) name v
  /\ (forall k, js k <> js "filters" -> read p' k = read p k)
  /\ pg_outbox p' = pg_outbox p /\ pg_shared p' = pg_shared p.
Proof.
  intros [o Ho]. eexists. split; [done|]. split_and!; try done.
  - unfold filters_of at 1. by rewrite read_set_eq.
  - intros k Hk. by rewrite read_set_ne.
Qed.

Lemma filter_get_run p name :
  filter_get name p = (Ok (default JUndef (ob_get (filters_of p) name)), p).
Proof. done. Qed.

Lemma filter_falsy p name :
  match ob_get (filters_of p) name with None => True | Some (JStr s) => js_text s | Some _ => False end ->
  jtruthy (default JUndef (ob_get (filters_of p) name)) = truthy (filter_text p name).
Proof. unfold filter_text. by destruct (ob_get _ _) as [[]|]. Qed.

Lemma url_plus_run p b s :
  read p "brokerUrl" = JStr b -> url_plus s p = (Ok (JStr (b ++ s)), p).
Proof. intros H. unfold url_plus, sget, hbind, hgets. by rewrite H. Qed.

Lemma add_param_run p u n v :
  js_text (jtext v) -> add_param u n v p = (Ok (u ++ js "&" ++ part (n, jtext v)), p).
Proof. intros H. unfold add_param, hbind, hlift. by rewrite enc_ok. Qed.

(** The steps of [reloadSearch] up to the choice of the URL. *)
Lemma reloadSearch_prefix p b :
  read p "brokerUrl" = JStr b ->
  exists p2, reloadSearch p
    = hbind (filter_get (js "searchTaskId")) (fun id =>
        hbind (if jtruthy id then task_url id else list_url) (fun theUrl =>
          http_get (JStr theUrl) (CbSearch (JStr theUrl)))) p2
  /\ read p2 "brokerUrl" = JStr (base_url b) /\ read p2 "max" = normalized_max (read p "max")
  /\ (forall k, js k <> js "brokerUrl" -> js k <> js "max" -> read p2 k = read p k)
  /\ pg_outbox p2 = pg_outbox p /\ pg_shared p2 = JStr b.
Proof.
  intros Hb.
  destruct (ensure_query_run (set_shared (JStr b) p) b Hb) as (p1 & E1 & Hb1 & Ho1 & Hx1 & Hs1).
  destruct (normalize_max_run p1) as (p2 & E2 & Hm2 & Ho2 & Hx2 & Hs2).
  exists p2. unfold reloadSearch. rewrite (hbind_ok _ _ p (JStr b) p) by (unfold sget, hgets; by rewrite Hb).
  rewrite (hbind_ok _ _ p tt (set_shared (JStr b) p)) by done.
  rewrite (hbind_ok _ _ _ _ _ E1), (hbind_ok _ _ _ _ _ E2). split_and!.
  - done.
  - rewrite Ho2 by js_ne. exact Hb1.
  - rewrite Hm2. f_equal. by rewrite Ho1 by js_ne.
  - intros k Hk1 Hk2. by rewrite Ho2, Ho1.
  - by rewrite Hx2, Hx1.
  - by rewrite Hs2, Hs1.
Qed.

Lemma list_url_run p base :
  read p "brokerUrl" = JStr base -> text_filters p ->
  js_text (jtext (read p "max")) -> jtruthy (read p "max") = true ->
  exists p', list_url p
    = (Ok (base ++ amp (map part ((js "view", js "tasks") :: filter_params p
                                    ++ [(js "max", jtext (read p "max"))]))), p')
  /\ filters_of p' = ob_set (filters_of p) (js "searchTaskId") (jlit "")
  /\ (forall k, js k <> js "filters" -> read p' k = read p k)
  /\ pg_outbox p' = pg_outbox p /\ pg_shared p' = pg_shared p.
Proof.
  intros Hb [Ho Hall] Hmt Hmtr. apply Forall_cons in Hall as [_ Hall].
  destruct (filter_set_run p (js "searchTaskId") (jlit "") Ho) as (p3 & E3 & Hf3 & Ho3 & Hx3 & Hs3).
  exists p3. split_and!; [|done..]. unfold list_url.
  rewrite (hbind_ok _ _ _ _ _ (url_plus_run p base _ Hb)).
  rewrite (hbind_ok _ _ _ _ _ (add_filters_run p _ _ Hall)).
  rewrite (hbind_ok _ _ p (read p "max") p) by done. rewrite Hmtr.
  rewrite (hbind_ok _ _ _ _ _ (add_param_run p _ _ _ Hmt)), (hbind_ok _ _ _ _ _ E3).
  unfold hret. do 2 f_equal. cbn [jtext]. rewrite map_cons, map_app.
  change (part (js "view", js "tasks") :: ?l) with ([part (js "view", js "tasks")] ++ l).
  rewrite !amp_app, <- !app_assoc. do 2 f_equal. fold (filter_params p). f_equal.
  unfold amp. simpl. by rewrite app_nil_r.
Qed.

(** C4: a list search sends one request, whose query string decodes to exactly the view, the
    filters of the page that hold text and the normalised maximum; it leaves the task filter
    empty and the other filters as they were, and remembers the URL of the broker. *)
Theorem reloadSearch_list p b :
  read p "brokerUrl" = JStr b -> text_filters p -> filter_text p (js "searchTaskId") = [] ->
  exists p' q,
    reloadSearch p = (Ok tt, p')
    /\ pg_outbox p' = pg_outbox p ++ [Request (JStr (base_url b ++ q)) (CbSearch (JStr (base_url b ++ q)))]
    /\ parseKeyValue q = map (fun nv => (nv.1, QStr nv.2)) (search_params p)
    /\ pg_shared p' = JStr b
    /\ read p' "brokerUrl" = JStr (base_url b)
    /\ filters_of p' = ob_set (filters_of p) (js "searchTaskId") (jlit "").
Proof.
  intros Hb Hf Hid. destruct (reloadSearch_prefix p b Hb) as (p2 & -> & Hb2 & Hm2 & Ho2 & Hx2 & Hs2).
  assert (Hfr : read p2 "filters" = read p "filters") by (apply Ho2; js_ne).
  pose proof (filters_of_frame _ _ Hfr) as Hfo.
  assert (Hfp : filter_params p2 = filter_params p).
  { unfold filter_params, filter_text. by rewrite Hfo. }
  assert (Hf2 : text_filters p2).
  { destruct Hf as [Ho Hall]. split; [by rewrite Hfr|by rewrite Hfo]. }
  destruct (list_url_run p2 (base_url b) Hb2 Hf2) as (p3 & E3 & Hf3 & Ho3 & Hx3 & Hs3);
    [rewrite Hm2; apply normalized_max_text..|].
  rewrite (hbind_ok _ _ _ _ _ (filter_get_run p2 _)).
  pose proof Hf as [_ Hall]. apply Forall_cons in Hall as [Hidf _]. cbn [snd] in Hidf.
  rewrite Hfo, filter_falsy, Hid by done. cbn [truthy].
  rewrite (hbind_ok _ _ _ _ _ E3), Hfp, Hm2. fold (search_params p).
  eexists _, (amp (map part (search_params p))). split_and!; [done| | | | |].
  - simpl. by rewrite Hx3, Hx2.
  - apply parse_amp; [by apply search_params_ok|apply search_params_names].
  - simpl. by rewrite Hs3, Hs2.
  - rewrite read_outbox, Ho3 by js_ne. exact Hb2.
  - unfold filters_of at 1. rewrite read_outbox. fold (filters_of p3). by rewrite Hf3, Hfo.
Qed.

Lemma reloadSearch_list_witness :
  exists p' q,
    reloadSearch (Page {[js "brokerUrl" := jlit "http://h/c"; js "max" := jlit "10";
        js "filters" := JObj [(js "searchUserId", jlit "a&b"); (js "searchSlot", jlit "")]]}
        JUndef [] [] [] [] 0%Z) = (Ok tt, p')
    /\ pg_outbox p' = [Request (JStr (js "http://h/c?" ++ q)) (CbSearch (JStr (js "http://h/c?" ++ q)))]
    /\ parseKeyValue q = [(js "view", QStr (js "tasks")); (js "userId", QStr (js "a&b"));
                          (js "max", QStr (js "10"))]
    /\ pg_shared p' = jlit "http://h/c"
    /\ read p' "brokerUrl" = jlit "http://h/c?"
    /\ filters_of p' = [(js "searchUserId", jlit "a&b"); (js "searchSlot", jlit "");
                        (js "searchTaskId", jlit "")].
Proof.
  match goal with |- exists p' q, reloadSearch ?p = _ /\ _ =>
    destruct (reloadSearch_list p (js "http://h/c")) as (p' & q & H1 & H2 & H3 & H4 & H5 & H6) end.
  - vm_compute. reflexivity.
  - split; [eexists; vm_compute; reflexivity|]. repeat constructor.
  - vm_compute. reflexivity.
  - exists p', q. split_and!; [exact H1|exact H2|rewrite H3; vm_compute; reflexivity|exact H4|exact H5|].
    rewrite H6. vm_compute. reflexivity.
Defined.

(** A search by task id sends the id alone, whatever the other filters hold, and drops them
    all. *)
Theorem reloadSearch_task p b v :
  read p "brokerUrl" = JStr b -> ob_get (filters_of p) (js "searchTaskId") = Some v ->
  jtruthy v = true -> js_text (jtext v) ->
  exists p' q,
    reloadSearch p = (Ok tt, p')
    /\ pg_outbox p' = pg_outbox p ++ [Request (JStr (base_url b ++ q)) (CbSearch (JStr (base_url b ++ q)))]
    /\ parseKeyValue q = [(js "view", QStr (js "task")); (js "taskId", QStr (jtext v))]
    /\ filters_of p' = [].
Proof.
  intros Hb Hid Htr Htx. destruct (reloadSearch_prefix p b Hb) as (p2 & -> & Hb2 & Hm2 & Ho2 & Hx2 & Hs2).
  assert (Hfr : read p2 "filters" = read p "filters") by (apply Ho2; js_ne).
  rewrite (hbind_ok _ _ _ _ _ (filter_get_run p2 _)), (filters_of_frame _ _ Hfr), Hid.
  unfold default, id. rewrite Htr.
  set (ps := [(js "view", js "task"); (js "taskId", jtext v)]).
  assert (E : task_url v p2 = (Ok (base_url b ++ amp (map part ps)),
    set_scope (fun m => <[js "filters" := JObj []]> m) p2)).
  { unfold task_url. rewrite (hbind_ok _ _ _ _ _ (url_plus_run p2 _ _ Hb2)).
    rewrite (hbind_ok _ _ _ _ _ (add_param_run p2 _ _ _ Htx)).
    unfold hbind, sset, hmodify, hret. do 2 f_equal. cbn [jtext]. rewrite <- app_assoc. f_equal.
    unfold ps, amp. simpl. by rewrite app_nil_r. }
  rewrite (hbind_ok _ _ _ _ _ E). eexists _, (amp (map part ps)). split_and!; [done| | |].
  - simpl. by rewrite Hx2.
  - rewrite parse_amp; [done| |apply (bool_decide_unpack _); by vm_compute].
    constructor; [|constructor; [|done]]; cbn [fst snd]; (split; [clear_name_tac|]); [|done].
    by split; [repeat constructor|].
  - unfold filters_of. by rewrite read_outbox, read_set_eq.
Qed.

Lemma reloadSearch_task_witness :
  exists p' q,
    reloadSearch (Page {[js "brokerUrl" := jlit "http://h/c?"; js "max" := jlit "150";
        js "filters" := JObj [(js "searchUserId", jlit "u"); (js "searchTaskId", jint 42)]]}
        JUndef [] [] [] [] 0%Z) = (Ok tt, p')
    /\ pg_outbox p' = [Request (JStr (js "http://h/c?" ++ q)) (CbSearch (JStr (js "http://h/c?" ++ q)))]
    /\ parseKeyValue q = [(js "view", QStr (js "task")); (js "taskId", QStr (js "42"))]
    /\ filters_of p' = [].
Proof.
  match goal with |- exists p' q, reloadSearch ?p = _ /\ _ =>
    destruct (reloadSearch_task p (js "http://h/c?") (jint 42)) as (p' & q & H1 & H2 & H3 & H4) end.
  - vm_compute. reflexivity.
  - vm_compute. reflexivity.
  - reflexivity.
  - split; [repeat constructor|reflexivity].
  - exists p', q. split_and!; [exact H1|exact H2|exact H3|exact H4].
Defined.

(** ** The maximum *)

Lemma num_lt_int a n : num_lt (Fin (QArith_base.inject_Z a)) (Fin n) = true <-> ~ (n <= QArith_base.inject_Z a)%Q.
Proof.
  cbn [num_lt]. rewrite negb_true_iff, <- not_true_iff_false, QArith_base.Qle_bool_iff. done.
Qed.

Lemma dec_max n :
  (n < 2 ^ 31)%N ->
  normalized_max (JStr (dec_of_N n)) = if (300 <? n)%N then jint 300 else JStr (dec_of_N n).
Proof.
  intros Hn. unfold normalized_max. cbn [jnumber jis_str]. rewrite int32_of_dec, jeqb_refl by done.
  cbn [jnumber]. destruct (num_of_dec n) as (q & -> & Hq); [eapply N.lt_trans; [exact Hn|by vm_compute]|].
  assert (Hb : num_lt (Fin (QArith_base.inject_Z 300)) (Fin q) = (300 <? n)%N).
  { apply eq_true_iff_eq. rewrite num_lt_int, Hq, <- Zle_Qle, N.ltb_lt. lia. }
  by rewrite Hb.
Qed.

