(* ===== verification/ConsoleRun.v ===== *)
(** * Runs of the search page

    The page as an event-driven machine: user events run a handler at once, the answers of
    the broker arrive later, in any order, and run the continuation of their request.  An
    exception ends its handler and keeps the effects that precede it. *)

From S2P Require Import Json Console Histogram ConsolePages ConsoleSearch SearchFacts.
Local Open Scope handler_scope.

(** The continuation of each request of the console. *)
Definition on_success (cb : callback) (data : json) : H unit :=
  match cb with
  | CbHome => Home.on_home data
  | CbResources => Resources.on_resources data
  | CbWorkers => Workers.on_workers data
  | CbWorkerResources w => Workers.on_worker_resources w data
  | CbWorkerUsages w => Workers.on_worker_usages w data
  | CbSearch u => on_search u data
  | CbHeap => on_heap data
  | CbSlots => on_slots data
  | CbTask _ => on_task data
  end.

Definition on_error (cb : callback) : H unit :=
  match cb with
  | CbHome => Home.on_home_error
  | CbResources => Resources.on_resources_error
  | CbWorkers => Workers.on_workers_error
  | CbWorkerResources _ | CbWorkerUsages _ => Workers.on_worker_error
  | CbSearch _ => on_search_error
  | CbHeap | CbSlots => on_view_error
  | CbTask id => on_task_error id
  end.

(** What a user does on the search page; the last three are edits of bound inputs. *)
Inductive user_event : Type :=
| EvSearchThis (id : json) (idsearch : jstr)
| EvKey (keyCode : Z)
| EvGo (path : jstr)
| EvClear
| EvTab (tab : json)
| EvShowTask (taskId : json)
| EvReloadTask (taskId : json)
| EvEditUrl (text : jstr)
| EvEditMax (text : jstr)
| EvEditFilter (name text : jstr).

Definition on_user (ev : user_event) : H unit :=
  match ev with
  | EvSearchThis id idsearch => searchThis id idsearch
  | EvKey code => keyPress reloadData code
  | EvGo path => go path
  | EvClear => clearFilters
  | EvTab tab => setTab tab
  | EvShowTask id => popTask id
  | EvReloadTask id => reloadTask id
  | EvEditUrl text => sset "brokerUrl" (JStr text)
  | EvEditMax text => sset "max" (JStr text)
  | EvEditFilter name text => filter_set name (JStr text)
  end.

(** The outstanding request [i] is answered: it leaves the list before its continuation runs. *)
Definition drop_request (i : nat) : page -> page := set_outbox (fun l => delete i l).

Inductive step : page -> page -> Prop :=
| step_user ev p : step p (on_user ev p).2
| step_answer i r data p :
    pg_outbox p !! i = Some r -> step p (on_success (rq_callback r) data (drop_request i p)).2
| step_failure i r p :
    pg_outbox p !! i = Some r -> step p (on_error (rq_callback r) (drop_request i p)).2.

(** A fresh page: an empty scope and no request. *)
Definition fresh (p : page) : Prop := pg_scope p = ∅ /\ pg_outbox p = [].

Inductive reachable (q : json) : page -> Prop :=
| reach_init p0 : fresh p0 -> reachable q (searchController q p0).2
| reach_step p p' : reachable q p -> step p p' -> reachable q p'.

(** ** The invariant *)

(** A request the search page makes: its URL is a text, and a list search carries its URL. *)
Definition search_request (r : request) : Prop :=
  (exists u, rq_url r = JStr u) /\
  match rq_callback r with
  | CbSearch u => u = rq_url r
  | CbHeap | CbSlots | CbTask _ => True
  | _ => False
  end.

(** The parts of the invariant a handler keeps even when it is interrupted. *)
Definition page_inv (p : page) : Prop :=
  (exists o, read p "filters" = JObj o)
  /\ (read p "lastUrl" = JUndef \/ exists u, read p "lastUrl" = JStr u)
  /\ Forall search_request (pg_outbox p).

(** The list of tasks shown is always there. *)
Definition has_tasks (p : page) : Prop := jtruthy (read p "tasks") = true.

Definition search_inv (p : page) : Prop := page_inv p /\ has_tasks p.

(** ** Handlers that keep a property of the page, even interrupted *)

Definition keeps {A} (I : page -> Prop) (m : H A) : Prop := forall p, I p -> I (m p).2.

Section Keeps.
Context (I : page -> Prop).

Lemma keeps_bind {A B} (m : H A) (f : A -> H B) :
  keeps I m -> (forall a, keeps I (f a)) -> keeps I (hbind m f).
Proof.
  intros Hm Hf p Hp. unfold hbind. specialize (Hm p Hp). destruct (m p) as [[a|e] p']; simpl in *; [|done].
  by apply Hf.
Qed.

Lemma keeps_ret {A} (a : A) : keeps I (hret a). Proof. by intros p. Qed.
Lemma keeps_throw {A} e : keeps (A := A) I (hthrow e). Proof. by intros p. Qed.
Lemma keeps_lift {A} (r : result js_error A) : keeps I (hlift r). Proof. by intros p. Qed.
Lemma keeps_gets {A} (f : page -> A) : keeps I (hgets f). Proof. by intros p. Qed.
Lemma keeps_when b m : keeps I m -> keeps I (hwhen b m). Proof. intros H. destruct b; [done|apply keeps_ret]. Qed.
Lemma keeps_if {A} (b : bool) (m n : H A) : keeps I m -> keeps I n -> keeps I (if b then m else n).
Proof. intros Hm Hn. by destruct b. Qed.
End Keeps.

Create HintDb keeps discriminated.
#[export] Hint Constants Opaque : keeps.
#[export] Hint Resolve keeps_ret keeps_throw keeps_lift keeps_gets : keeps.

(** Keys the invariant says nothing about. *)
Definition free_key (k : lit) : bool :=
  negb (jeqb (js k) (js "filters")) && negb (jeqb (js k) (js "lastUrl")) && negb (jeqb (js k) (js "tasks")).
Arguments free_key k%_string_scope.

Lemma free_key_ne k : free_key k = true ->
  js k <> js "filters" /\ js k <> js "lastUrl" /\ js k <> js "tasks".
Proof.
  unfold free_key. rewrite !andb_true_iff, !negb_true_iff, !jeqb_false. tauto.
Qed.

Lemma inv_frame p p' :
  search_inv p -> (forall k, free_key k = false -> read p' k = read p k) ->
  Forall search_request (pg_outbox p') -> search_inv p'.
Proof.
  intros [(Hf & Hl & _) Ht] Hr Ho. unfold search_inv, page_inv, has_tasks.
  rewrite !Hr by done. done.
Qed.

Lemma keeps_sset k v : free_key k = true -> keeps search_inv (sset k v).
Proof.
  intros Hk p Hp. apply (inv_frame p); [done| |apply Hp]. intros k' Hk'. simpl.
  rewrite read_set_ne; [done|]. intros E. unfold free_key in *. rewrite E in Hk. congruence.
Qed.

Lemma keeps_filters o : keeps search_inv (sset "filters" (JObj o)).
Proof.
  intros p [(Hf & Hl & Ho) Ht]. split; [split_and!|].
  - exists o. simpl. by rewrite read_set_eq.
  - simpl. by rewrite read_set_ne by js_ne.
  - done.
  - unfold has_tasks. simpl. by rewrite read_set_ne by js_ne.
Qed.

Lemma keeps_http u cb : search_request (Request u cb) -> keeps search_inv (http_get u cb).
Proof.
  intros Hr p Hp. apply (inv_frame p); [done|done|]. simpl. apply Forall_app. split; [apply Hp|].
  by constructor.
Qed.

Lemma keeps_same {A} (m : H A) :
  (forall p, pg_scope (m p).2 = pg_scope p /\ pg_outbox (m p).2 = pg_outbox p) -> keeps search_inv m.
Proof.
  intros H p Hp. destruct (H p) as [Hs Ho]. apply (inv_frame p); [done| |rewrite Ho; apply Hp].
  intros k _. unfold read. by rewrite Hs.
Qed.

Ltac keeps_step :=
  match goal with
  | |- forall _, _ => intro
  | |- keeps _ (hbind _ _) => apply keeps_bind
  | |- keeps _ (hwhen _ _) => apply keeps_when
  | |- keeps _ (match ?x with _ => _ end) => destruct x
  | |- keeps _ (sset _ (JObj _)) => first [apply keeps_sset; reflexivity | apply keeps_filters]
  | |- keeps _ (sset _ _) => apply keeps_sset; reflexivity
  | |- keeps _ (hmodify _) => apply keeps_same; done
  | |- keeps _ (dom _) => apply keeps_same; done
  | |- keeps _ (state_set _) => apply keeps_same; done
  | |- keeps _ state_get => apply keeps_same; done
  | |- keeps _ (sget _) => apply keeps_same; done
  | |- _ => solve [auto with keeps]
  end.
Ltac keeps_tac := repeat keeps_step.

Lemma keeps_ensure : keeps search_inv ensure_query.
Proof. unfold ensure_query, sget. keeps_tac. Qed.
Lemma keeps_normalize : keeps search_inv normalize_max.
Proof. unfold normalize_max, sget. keeps_tac. Qed.
Lemma keeps_filter_set n v : keeps search_inv (filter_set n v).
Proof. unfold filter_set. keeps_tac. Qed.
Lemma keeps_add_param u n v : keeps search_inv (add_param u n v).
Proof. unfold add_param. keeps_tac. Qed.
Lemma keeps_add_filters u ps : keeps search_inv (add_filters u ps).
Proof.
  revert u. induction ps as [|[n f] ps IH]; intros u; cbn [add_filters]; [keeps_tac|].
  apply keeps_bind; [|done]. unfold add_filter, filter_get, add_param. keeps_tac.
Qed.
Lemma keeps_url_plus s : keeps search_inv (url_plus s).
Proof. unfold url_plus, sget. keeps_tac. Qed.
Lemma keeps_bad_url : keeps search_inv set_bad_url.
Proof. unfold set_bad_url, sget. keeps_tac. Qed.

#[export] Hint Resolve keeps_ensure keeps_normalize keeps_filter_set keeps_add_param
  keeps_add_filters keeps_url_plus keeps_bad_url : keeps.

Lemma keeps_reloadSearch : keeps search_inv reloadSearch.
Proof.
  unfold reloadSearch, task_url, list_url, filter_get, sget, state_set. keeps_tac.
  apply keeps_http. split; [eauto|done].
Qed.

Lemma keeps_reload_view s cb : match cb with CbHeap | CbSlots => True | _ => False end ->
  keeps search_inv (reload_view s cb).
Proof.
  intros Hcb. unfold reload_view, sget, state_set, state_get. keeps_tac.
  apply keeps_http. split; [eauto|]. by destruct cb.
Qed.

Lemma url_plus_text s p u p' : url_plus s p = (Ok u, p') -> exists t, u = JStr t.
Proof. unfold url_plus, sget, hbind, hgets, hret. intros [= <- _]. eauto. Qed.

Lemma keeps_popTask id : keeps search_inv (popTask id).
Proof.
  unfold popTask. apply keeps_bind; [apply keeps_ensure|]. intros _ p Hp.
  pose proof (keeps_url_plus (js "&view=task&taskId=" ++ jtext id) p Hp) as Hk.
  unfold hbind. destruct (url_plus _ p) as [[u|e] p'] eqn:E; [|done].
  apply url_plus_text in E as [t ->]. apply keeps_http; [|done]. split; [eauto|done].
Qed.

Lemma keeps_reloadHeap : keeps search_inv reloadHeap.
Proof. by apply keeps_reload_view. Qed.
Lemma keeps_reloadSlots : keeps search_inv reloadSlots.
Proof. by apply keeps_reload_view. Qed.

#[export] Hint Resolve keeps_reloadSearch keeps_popTask keeps_reloadHeap keeps_reloadSlots : keeps.

Lemma keeps_reloadData : keeps search_inv reloadData.
Proof. unfold reloadData, toogleClassSuccess, isSet, sget. keeps_tac. Qed.

#[export] Hint Resolve keeps_reloadData : keeps.

Lemma keeps_clear_inputs ns : keeps search_inv (clear_inputs ns).
Proof. induction ns; cbn [clear_inputs]; keeps_tac. Qed.

#[export] Hint Resolve keeps_clear_inputs : keeps.

Lemma keeps_user ev : keeps search_inv (on_user ev).
Proof.
  destruct ev; cbn [on_user]; unfold searchThis, keyPress, go, clearFilters, setTab, reloadTask; keeps_tac.
Qed.

(** The fallback of [on_search] puts back a list when the answer has none. *)
Lemma keeps_on_search u data : keeps search_inv (on_search (JStr u) data).
Proof.
  unfold on_search. apply keeps_bind; [keeps_tac|]. intros _. apply keeps_bind.
  { intros p [(Hf & Hl & Ho) Ht]. split; [split_and!|].
    - simpl. by rewrite read_set_ne by js_ne.
    - simpl. rewrite read_set_eq. eauto.
    - done.
    - unfold has_tasks. simpl. by rewrite read_set_ne by js_ne. }
  intros _ p Hp. unfold hbind at 1, hlift. destruct (jprop data "ok") as [ok|] eqn:Eok; [|done].
  destruct (jtruthy ok); [|done]. cbn [hwhen].
  assert (Hts : exists v, jprop data "tasks" = Ok v) by (destruct data; first [discriminate | by eexists]).
  assert (Hc : exists v, jprop data "count" = Ok v) by (destruct data; first [discriminate | by eexists]).
  assert (Ht' : exists v, jprop data "task" = Ok v) by (destruct data; first [discriminate | by eexists]).
  destruct Hts as [ts Ets], Hc as [c Ec], Ht' as [t Et].
  unfold hbind, hlift, sset, new_date, hgets, hmodify. rewrite Ets, Ec. cbn [snd].
  destruct Hp as [(Hf & Hl & Ho) Ht].
  destruct (jtruthy ts) eqn:Etr; cbn [negb hwhen]; [|rewrite Et]; cbn [hret snd].
  - split; [split_and!|]; reads; [done..|]. unfold has_tasks. by reads.
  - split; [split_and!|]; reads; [done..|]. unfold has_tasks. by reads.
Qed.

Lemma keeps_answer r data : search_request r -> keeps search_inv (on_success (rq_callback r) data).
Proof.
  intros [[u Hu] Hcb]. destruct (rq_callback r) eqn:E; try done; cbn [on_success].
  - rewrite Hcb, Hu. apply keeps_on_search.
  - unfold on_heap, new_date. keeps_tac.
  - unfold on_slots, new_date. keeps_tac.
  - unfold on_task. keeps_tac.
Qed.

Lemma keeps_failure r : search_request r -> keeps search_inv (on_error (rq_callback r)).
Proof.
  intros [_ Hcb]. destruct (rq_callback r); try done; cbn [on_error];
    unfold on_search_error, on_view_error, on_task_error; keeps_tac.
Qed.

Lemma inv_init q p0 : fresh p0 -> search_inv (searchController q p0).2.
Proof.
  intros [Hs Ho]. unfold searchController.
  assert (Hi : exists p1, init_url q p0 = (Ok tt, p1) /\ pg_outbox p1 = [] /\ read p1 "lastUrl" = JUndef).
  { unfold init_url, hbind, state_get, state_set, sset, hgets, hmodify.
    assert (Hl : read p0 "lastUrl" = JUndef) by (unfold read; by rewrite Hs).
    destruct (jtruthy _); eexists; (split; [done|]); (split; [done|]); by reads. }
  destruct Hi as (p1 & E1 & Ho1 & Hl1). unfold hbind at 1. rewrite E1.
  unfold hbind at 1 2 3, sset at 1 2 3, hmodify.
  apply (keeps_bind search_inv (sset "optionsGroup" getGroupOptions)); [keeps_tac|unfold mark_menu, setTab; keeps_tac|].
  split; [split_and!|]; simpl; reads.
  - eauto.
  - by left.
  - by rewrite Ho1.
  - unfold has_tasks. by reads.
Qed.

(** C7: in every run of the search page, with the answers of the broker in any order, a task
    list is there to be shown, the filters are an object, the last URL shown is a text, and
    every outstanding request has a text URL, its own one for a list search. *)
Theorem search_page_invariant q p : reachable q p -> search_inv p.
Proof.
  induction 1 as [p0 H0|p p' _ IH Hs]; [by apply inv_init|].
  assert (Hdrop : forall i, search_inv (drop_request i p)).
  { intros i. apply (inv_frame p); [done|done|]. simpl. apply Forall_delete. apply IH. }
  assert (Hreq : forall i r, pg_outbox p !! i = Some r -> search_request r).
  { intros i r Hi. destruct IH as [(_ & _ & Ho) _]. eapply Forall_lookup_1; eauto. }
  inversion Hs as [ev ?|i r data ? Hi|i r ? Hi]; subst.
  - by apply keeps_user.
  - apply keeps_answer; eauto.
  - apply keeps_failure; eauto.
Qed.

(** The page just opened, then its first search answered. *)
Definition fresh_page : page := Page ∅ (jlit "http://localhost:7364/client") [] [] [] (js "/search") 0.
Definition sample_page : page :=
  (on_success (CbSearch (jlit "http://localhost:7364/client?&view=tasks&max=150")) (JObj [(js "ok", JBool true)])
     (drop_request 0 (searchController JUndef fresh_page).2)).2.

Lemma search_page_invariant_witness : search_inv sample_page.
Proof.
  apply (search_page_invariant JUndef). eapply reach_step.
  - apply (reach_init JUndef fresh_page). split; reflexivity.
  - apply (step_answer 0 (Request (jlit "http://localhost:7364/client?&view=tasks&max=150")
      (CbSearch (jlit "http://localhost:7364/client?&view=tasks&max=150")))). vm_compute. reflexivity.
Defined.
