(* ===== verification/JsDate.v ===== *)
(** * Dates of the language

    A time value is a number of milliseconds since 1970; the calendar is the proleptic
    Gregorian one of the language, with its own definitions of year, month and day. *)

From S2P Require Import Prelude.
Local Open Scope Z_scope.

Definition msPerDay : Z := 86400000.
Definition Day (t : Z) : Z := t / msPerDay.
Definition TimeWithinDay (t : Z) : Z := t mod msPerDay.

Definition leap (y : Z) : bool := (y mod 4 =? 0) && (negb (y mod 100 =? 0) || (y mod 400 =? 0)).
Definition DaysInYear (y : Z) : Z := if leap y then 366 else 365.
Definition DayFromYear (y : Z) : Z :=
  365 * (y - 1970) + (y - 1969) / 4 - (y - 1901) / 100 + (y - 1601) / 400.

(** The year of a day: the largest one that starts no later; the average year gives it up to one. *)
Definition year_of_day (d : Z) : Z :=
  let y := 1970 + (d * 400) / 146097 in
  if d <? DayFromYear y then y - 1
  else if DayFromYear (y + 1) <=? d then y + 1 else y.

(** The day of the year each month starts, counting from 0. *)
Definition month_start (lp : bool) (m : Z) : Z :=
  match m with
  | 0 => 0 | 1 => 31 | 2 => 59 | 3 => 90 | 4 => 120 | 5 => 151 | 6 => 181
  | 7 => 212 | 8 => 243 | 9 => 273 | 10 => 304 | 11 => 334 | _ => 365
  end + (if lp && (2 <=? m) then 1 else 0).

Fixpoint month_of (lp : bool) (k : nat) (d : Z) : Z :=
  match k with
  | O => 0
  | S k' => if month_start lp (Z.of_nat k) <=? d then Z.of_nat k else month_of lp k' d
  end.

Record civil : Type := Civil { cv_year : Z; cv_month : Z; cv_date : Z }.

(** [YearFromTime], [MonthFromTime] and [DateFromTime] of a day. *)
Definition civil_of_day (d : Z) : civil :=
  let y := year_of_day d in
  let w := d - DayFromYear y in
  let m := month_of (leap y) 11 w in
  Civil y m (w - month_start (leap y) m + 1).

(** [MakeDay]: the month may lie outside of the year. *)
Definition MakeDay (y m dt : Z) : Z :=
  let ym := y + m / 12 in
  DayFromYear ym + month_start (leap ym) (m mod 12) + dt - 1.
Definition MakeTime (h mi s ms : Z) : Z := h * 3600000 + mi * 60000 + s * 1000 + ms.
Definition MakeDate (d t : Z) : Z := d * msPerDay + t.

Definition HourFromTime (t : Z) : Z := t / 3600000 mod 24.
Definition MinFromTime (t : Z) : Z := t / 60000 mod 60.
Definition SecFromTime (t : Z) : Z := t / 1000 mod 60.
Definition msFromTime (t : Z) : Z := t mod 1000.
Definition WeekDay (t : Z) : Z := (Day t + 4) mod 7.

Definition TimeClip (t : Z) : option Z := if Z.abs t <=? 8640000000000000 then Some t else None.

(** ** The calendar is a bijection *)

Lemma DayFromYear_succ y : DayFromYear (y + 1) = DayFromYear y + DaysInYear y.
Proof.
  unfold DayFromYear, DaysInYear, leap.
  assert (H4 : (y + 1 - 1969) / 4 = (y - 1969) / 4 + if y mod 4 =? 0 then 1 else 0).
  { destruct (Z.eqb_spec (y mod 4) 0); Z.to_euclidean_division_equations; lia. }
  assert (H100 : (y + 1 - 1901) / 100 = (y - 1901) / 100 + if y mod 100 =? 0 then 1 else 0).
  { destruct (Z.eqb_spec (y mod 100) 0); Z.to_euclidean_division_equations; lia. }
  assert (H400 : (y + 1 - 1601) / 400 = (y - 1601) / 400 + if y mod 400 =? 0 then 1 else 0).
  { destruct (Z.eqb_spec (y mod 400) 0); Z.to_euclidean_division_equations; lia. }
  rewrite H4, H100, H400. clear H4 H100 H400.
  assert (y mod 400 = 0 -> y mod 100 = 0) by (Z.to_euclidean_division_equations; lia).
  assert (y mod 100 = 0 -> y mod 4 = 0) by (Z.to_euclidean_division_equations; lia).
  destruct (Z.eqb_spec (y mod 4) 0), (Z.eqb_spec (y mod 100) 0), (Z.eqb_spec (y mod 400) 0);
    cbn [andb orb negb]; lia.
Qed.

Lemma DaysInYear_bounds y : 365 <= DaysInYear y <= 366.
Proof. unfold DaysInYear. destruct (leap y); lia. Qed.

Lemma DayFromYear_mono y n : 0 <= n -> DayFromYear y + 365 * n <= DayFromYear (y + n).
Proof.
  intros Hn. pattern n. apply natlike_ind; [|clear n Hn|done].
  - replace (y + 0) with y by lia. lia.
  - intros n Hn IH. pose proof (DayFromYear_succ (y + n)) as H. pose proof (DaysInYear_bounds (y + n)).
    replace (y + Z.succ n) with (y + n + 1) by lia. lia.
Qed.

Lemma DayFromYear_le y y' : y <= y' -> DayFromYear y <= DayFromYear y'.
Proof.
  intros H. pose proof (DayFromYear_mono y (y' - y) ltac:(lia)) as H'.
  replace (y + (y' - y)) with y' in H' by lia. lia.
Qed.

(** The estimate of the year is right up to one. *)
Lemma year_of_day_spec d : DayFromYear (year_of_day d) <= d < DayFromYear (year_of_day d + 1).
Proof.
  assert (Hb : forall y, 146097 * (y - 1970) - 800 <= 400 * DayFromYear y <= 146097 * (y - 1970) + 800).
  { intros y. unfold DayFromYear. Z.to_euclidean_division_equations. lia. }
  unfold year_of_day. set (y := 1970 + d * 400 / 146097).
  assert (Hy : 146097 * (y - 1970) <= d * 400 < 146097 * (y - 1970) + 146097).
  { unfold y. Z.to_euclidean_division_equations. lia. }
  clearbody y. pose proof (Hb y) as H0. pose proof (Hb (y - 1)) as Hm. pose proof (Hb (y + 1)) as Hp.
  pose proof (Hb (y + 2)) as Hp2.
  destruct (Z.ltb_spec d (DayFromYear y)).
  - replace (y - 1 + 1) with y by lia. lia.
  - destruct (Z.leb_spec (DayFromYear (y + 1)) d); [|lia]. replace (y + 1 + 1) with (y + 2) by lia. lia.
Qed.

Lemma year_unique d y : DayFromYear y <= d < DayFromYear (y + 1) -> year_of_day d = y.
Proof.
  intros H. pose proof (year_of_day_spec d) as H'. set (y' := year_of_day d) in *. clearbody y'.
  destruct (Z.lt_trichotomy y' y) as [Hl|[->|Hl]]; [|done|].
  - pose proof (DayFromYear_le (y' + 1) y). lia.
  - pose proof (DayFromYear_le (y + 1) y'). lia.
Qed.

Definition month_length (lp : bool) (m : Z) : Z :=
  (if m =? 11 then 365 + (if (lp : bool) then 1 else 0) else month_start lp (m + 1)) - month_start lp m.

Lemma month_of_gen lp k d : 0 <= d ->
  let m := month_of lp k d in
  0 <= m <= Z.of_nat k /\ month_start lp m <= d /\ (m = Z.of_nat k \/ d < month_start lp (m + 1)).
Proof.
  intros Hd. induction k as [|k IH]; cbn [month_of].
  - split_and!; [lia..| |by left]. unfold month_start. rewrite andb_false_r. lia.
  - destruct (Z.leb_spec (month_start lp (Z.of_nat (S k))) d) as [H|H].
    + split_and!; [lia..|by left].
    + destruct IH as (H1 & H2 & H3). split_and!; [lia..|]. right. destruct H3 as [E|H3]; [|done].
      rewrite E. by replace (Z.of_nat k + 1) with (Z.of_nat (S k)) by lia.
Qed.

Lemma month_of_spec lp d : 0 <= d < 365 + (if (lp : bool) then 1 else 0) ->
  let m := month_of lp 11 d in
  0 <= m <= 11 /\ month_start lp m <= d < month_start lp m + month_length lp m.
Proof.
  intros H m. destruct (month_of_gen lp 11 d) as (H1 & H2 & H3); [lia|]. fold m in H1, H2, H3.
  split; [lia|]. split; [done|]. unfold month_length. destruct (Z.eqb_spec m 11); [lia|].
  destruct H3; lia.
Qed.

(** A property of the twelve months, by cases. *)
Lemma months (P : Z -> Prop) m :
  P 0 -> P 1 -> P 2 -> P 3 -> P 4 -> P 5 -> P 6 -> P 7 -> P 8 -> P 9 -> P 10 -> P 11 ->
  0 <= m <= 11 -> P m.
Proof.
  intros. assert (Hc : m = 0 \/ m = 1 \/ m = 2 \/ m = 3 \/ m = 4 \/ m = 5 \/ m = 6 \/ m = 7 \/ m = 8
    \/ m = 9 \/ m = 10 \/ m = 11) by lia.
  destruct_or! Hc; by subst.
Qed.

Lemma month_length_pos lp m : 0 <= m <= 11 -> 28 <= month_length lp m <= 31.
Proof. intros Hm. pattern m. apply months; [..|exact Hm]; destruct lp; vm_compute; split; discriminate. Qed.

Lemma month_span lp m : 0 <= m <= 11 ->
  0 <= month_start lp m /\ month_start lp m + month_length lp m <= 365 + (if (lp : bool) then 1 else 0).
Proof. intros Hm. pattern m. apply months; [..|exact Hm]; destruct lp; vm_compute; split; discriminate. Qed.

Lemma month_start_le lp m m' : 0 <= m -> m < m' -> m' <= 11 -> month_start lp m + month_length lp m <= month_start lp m'.
Proof.
  intros H0 Hl H1. assert (Hm : 0 <= m <= 11) by lia. revert m' Hl H1. pattern m.
  apply months; [..|done]; intros m' Hl H1; assert (Hm' : 0 <= m' <= 11) by lia; revert Hl; pattern m';
  apply months; [..|done]; destruct lp; first [exact Hm' | vm_compute; intros; discriminate].
Qed.

Lemma month_of_unique lp d m :
  0 <= m <= 11 -> month_start lp m <= d < month_start lp m + month_length lp m -> month_of lp 11 d = m.
Proof.
  intros Hm Hd. pose proof (month_span lp m Hm) as Hs.
  destruct (month_of_spec lp d) as [H1 H2]; [lia|]. set (m' := month_of lp 11 d) in *. clearbody m'.
  destruct (Z.lt_trichotomy m m') as [Hl|[->|Hl]]; [|done|].
  - pose proof (month_start_le lp m m'). lia.
  - pose proof (month_start_le lp m' m). lia.
Qed.

(** A date of the calendar. *)
Definition civil_ok (c : civil) : Prop :=
  0 <= cv_month c <= 11 /\ 1 <= cv_date c <= month_length (leap (cv_year c)) (cv_month c).

Lemma civil_of_day_ok d : civil_ok (civil_of_day d).
Proof.
  pose proof (year_of_day_spec d) as Hy. rewrite DayFromYear_succ in Hy.
  unfold civil_of_day, civil_ok. cbn [cv_month cv_date cv_year]. set (y := year_of_day d) in *.
  destruct (month_of_spec (leap y) (d - DayFromYear y)) as [Hm Hd].
  { unfold DaysInYear in Hy. destruct (leap y); lia. }
  split; [done|]. lia.
Qed.

Lemma MakeDay_civil d : MakeDay (cv_year (civil_of_day d)) (cv_month (civil_of_day d)) (cv_date (civil_of_day d)) = d.
Proof.
  destruct (civil_of_day_ok d) as [Hm _]. unfold MakeDay.
  rewrite (Z.div_small (cv_month _) 12), (Z.mod_small (cv_month _) 12) by lia. rewrite Z.add_0_r.
  unfold civil_of_day in *. cbn [cv_month cv_date cv_year] in *. lia.
Qed.

Lemma civil_MakeDay c : civil_ok c -> civil_of_day (MakeDay (cv_year c) (cv_month c) (cv_date c)) = c.
Proof.
  destruct c as [y m dt]. intros [Hm Hd]. cbn [cv_year cv_month cv_date] in *. unfold MakeDay.
  rewrite (Z.div_small m 12), (Z.mod_small m 12) by lia. rewrite Z.add_0_r.
  pose proof (month_span (leap y) m Hm) as Hs. unfold civil_of_day.
  rewrite (year_unique _ y).
  - replace (DayFromYear y + month_start (leap y) m + dt - 1 - DayFromYear y) with (month_start (leap y) m + dt - 1) by lia.
    rewrite (month_of_unique _ _ m) by lia. f_equal. lia.
  - rewrite DayFromYear_succ. unfold DaysInYear. destruct (leap y); lia.
Qed.

Lemma time_fields t :
  MakeDate (Day t) (MakeTime (HourFromTime t) (MinFromTime t) (SecFromTime t) (msFromTime t)) = t.
Proof.
  unfold MakeDate, Day, MakeTime, HourFromTime, MinFromTime, SecFromTime, msFromTime, msPerDay.
  Z.to_euclidean_division_equations. lia.
Qed.

Example civil_ex :
  civil_of_day (1288323623006 / msPerDay) = Civil 2010 9 29 /\ civil_of_day (-1) = Civil 1969 11 31
  /\ civil_of_day 11016 = Civil 2000 1 29.
Proof. by vm_compute. Qed.
