(* ===== verification/Location.v ===== *)
(** * The $location service (angular.js): its three kinds of URL

    A location object is the record of its fields; a method is a handler on it, so a method
    that throws leaves the assignments made before.  The browser's own URL parser (the
    [urlParsingNode] anchor) is a parameter of the section. *)

From S2P Require Import Prelude JsString JsObject JsNumber UriCodec Json Query.
Local Open Scope handler_scope.

(** The properties of an anchor whose [href] has been set. *)
Record anchor_url : Type := AnchorUrl {
  a_href : jstr; a_protocol : jstr; a_host : jstr; a_search : jstr; a_hash : jstr;
  a_hostname : jstr; a_port : jstr; a_pathname : jstr
}.

(** [s] without a leading [c]. *)
Definition strip_first (c : unit16) (s : jstr) : jstr :=
  match s with d :: t => if (d =? c)%N then t else s | [] => [] end.
(** [s] without a final [c]. *)
Definition strip_last (c : unit16) (s : jstr) : jstr :=
  match rev s with d :: t => if (d =? c)%N then rev t else s | [] => [] end.

(** [s.charAt(0) === c]. *)
Definition first_is (c : unit16) (s : jstr) : bool :=
  match s with d :: _ => (d =? c)%N | [] => false end.

(** [parseInt(s, 10)]; [None] is [NaN]. *)
Definition int (s : jstr) : option Z :=
  let '(neg, t) := signed (skip_space s) in
  match (span is_digit t).1 with
  | [] => None
  | ds => Some (if neg then (- Z.of_N (dec_val ds))%Z else Z.of_N (dec_val ds))
  end.

Definition DEFAULT_PORTS : jsobj json :=
  [(js "http", jint 80); (js "https", jint 443); (js "ftp", jint 21)].

(** [urlResolve]: the anchor's properties without their delimiters. *)
Definition urlResolve (anchor : jstr -> anchor_url) (url : jstr) : anchor_url :=
  let a := anchor url in
  AnchorUrl (a_href a) (strip_last (chr ":") (a_protocol a)) (a_host a)
    (strip_first (chr "?") (a_search a)) (strip_first (chr "#") (a_hash a))
    (a_hostname a) (a_port a)
    (if first_is (chr "/") (a_pathname a) then a_pathname a else js "/" ++ a_pathname a).

(** ** Pieces of a URL *)

Definition beginsWith (begin whole : jstr) : option jstr :=
  if starts_with begin whole then Some (drop (length begin) whole) else None.

Definition stripHash (url : jstr) : jstr :=
  match indexOf url (js "#") with None => url | Some i => take i url end.

Definition stripFile (url : jstr) : jstr :=
  match lastIndexOf (stripHash url) (chr "/") with
  | None => []
  | Some i => take (i + 1) url
  end.

(** The [-1] of a missing [/] makes [substring] swap its bounds or start at 0: both give "". *)
Definition serverBase (url : jstr) : jstr :=
  let from := match indexOf url (js "//") with None => 1 | Some i => i + 2 end in
  match indexOf_at url (js "/") from with None => [] | Some j => take j url end.

Example serverBase_ex :
  serverBase (js "http://host:7364/ui/index.html#/home") = js "http://host:7364"
  /\ serverBase (js "http://host") = []
  /\ stripFile (js "http://host/ui/index.html#/a/b") = js "http://host/ui/"
  /\ stripHash (js "http://host/ui/#/a") = js "http://host/ui/".
Proof. by vm_compute. Qed.

(** The regular expression of [removeWindowsDriveName]: its captured group. *)
Definition line_end (c : unit16) : bool :=
  ((c =? 10) || (c =? 13) || (c =? 8232) || (c =? 8233))%N.
Definition windowsFilePath (s : jstr) : option jstr :=
  match s with
  | a :: d :: c :: b :: r =>
      if ((a =? chr "/") && (65 <=? d) && (d <=? 90) && (c =? chr ":") && (b =? chr "/"))%N
      then Some (b :: (span (fun x => negb (line_end x)) r).1) else None
  | _ => None
  end.

Definition removeWindowsDriveName (path url base : jstr) : jstr :=
  let url := default url (beginsWith base url) in
  match windowsFilePath url with
  | Some _ => path
  | None => default path (windowsFilePath path)
  end.

(** ** Location objects *)

Record location : Type := Location {
  loc_protocol : jstr; loc_host : jstr; loc_port : json;
  loc_path : jstr; loc_search : jsobj qval; loc_hash : jstr;
  loc_url : jstr; loc_absUrl : jstr; loc_replace : bool
}.

Definition with_path (v : jstr) (l : location) : location :=
  Location (loc_protocol l) (loc_host l) (loc_port l) v (loc_search l) (loc_hash l)
    (loc_url l) (loc_absUrl l) (loc_replace l).
Definition with_search (v : jsobj qval) (l : location) : location :=
  Location (loc_protocol l) (loc_host l) (loc_port l) (loc_path l) v (loc_hash l)
    (loc_url l) (loc_absUrl l) (loc_replace l).
Definition with_hash (v : jstr) (l : location) : location :=
  Location (loc_protocol l) (loc_host l) (loc_port l) (loc_path l) (loc_search l) v
    (loc_url l) (loc_absUrl l) (loc_replace l).
Definition with_urls (u a : jstr) (l : location) : location :=
  Location (loc_protocol l) (loc_host l) (loc_port l) (loc_path l) (loc_search l) (loc_hash l)
    u a (loc_replace l).
Definition with_replace (b : bool) (l : location) : location :=
  Location (loc_protocol l) (loc_host l) (loc_port l) (loc_path l) (loc_search l) (loc_hash l)
    (loc_url l) (loc_absUrl l) b.

Abbreviation L := (handler location).

(** The constructor an object was made with, and its arguments. *)
Inductive location_mode : Type :=
| LocationHtml5Url (appBase basePrefix : jstr)
| LocationHashbangUrl (appBase hashPrefix : jstr)
| LocationHashbangInHtml5Url (appBase hashPrefix : jstr).

Definition html5_of (m : location_mode) : bool :=
  match m with LocationHashbangUrl _ _ => false | _ => true end.

(** The text of [$$url]: path, search and hash, each encoded. *)
Definition compose_url (l : location) : result js_error jstr :=
  rbind (toKeyValue (loc_search l)) (fun search =>
  rbind (if truthy (loc_hash l)
         then rbind (of_uri (encodeUriSegment (loc_hash l))) (fun h => Ok (js "#" ++ h))
         else Ok []) (fun hash =>
  rbind (of_uri (encodePath (loc_path l))) (fun path =>
  Ok (path ++ (if truthy search then js "?" ++ search else []) ++ hash)))).

(** [$$absUrl] of a composed [$$url]. *)
Definition abs_url (m : location_mode) (url : jstr) : jstr :=
  match m with
  | LocationHtml5Url appBase _ => stripFile appBase ++ drop 1 url
  | LocationHashbangUrl appBase hashPrefix => appBase ++ (if truthy url then hashPrefix ++ url else [])
  | LocationHashbangInHtml5Url appBase hashPrefix => appBase ++ hashPrefix ++ url
  end.

Definition compose (m : location_mode) : L unit :=
  l <- hgets id ;;
  url <- hlift (compose_url l) ;;
  hmodify (with_urls url (abs_url m url)).

Section Parse.
Context (anchor : jstr -> anchor_url).

Definition parseAbsoluteUrl (absoluteUrl : jstr) : location :=
  let u := urlResolve anchor absoluteUrl in
  let port := match int (a_port u) with
              | Some z => if Z.eqb z 0 then None else Some (jint z)
              | None => None
              end in
  Location (a_protocol u) (a_hostname u)
    (default (default JNull (ob_get DEFAULT_PORTS (a_protocol u))) port)
    [] [] [] [] [] false.

Definition parseAppUrl (relativeUrl : jstr) : L unit :=
  let prefixed := negb (first_is (chr "/") relativeUrl) in
  let url := if prefixed then js "/" ++ relativeUrl else relativeUrl in
  let u := urlResolve anchor url in
  path <- hlift (of_uri (decodeURIComponent
            (if prefixed && first_is (chr "/") (a_pathname u) then drop 1 (a_pathname u)
             else a_pathname u))) ;;
  hmodify (with_path path) ;;;
  hmodify (with_search (parseKeyValue (a_search u))) ;;;
  hash <- hlift (of_uri (decodeURIComponent (a_hash u))) ;;
  hmodify (with_hash hash) ;;;
  hwhen (truthy path && negb (first_is (chr "/") path)) (hmodify (with_path (js "/" ++ path))).

(** [a || b] on the results of [beginsWith]. *)
Definition or_else (a b : option jstr) : option jstr :=
  match a with Some (_ :: _) => a | _ => b end.

(** [$$parse] of LocationHtml5Url. *)
Definition parse_html5 (m : location_mode) (appBase url : jstr) : L unit :=
  match beginsWith (stripFile appBase) url with
  | None => hthrow (JsMinErr (js "location:ipthprfx"))
  | Some pathUrl =>
      parseAppUrl pathUrl ;;;
      l <- hgets id ;;
      hwhen (negb (truthy (loc_path l))) (hmodify (with_path (js "/"))) ;;;
      compose m
  end.

(** [$$parse] of LocationHashbangUrl, which LocationHashbangInHtml5Url takes over. *)
Definition parse_hashbang (m : location_mode) (appBase hashPrefix url : jstr) : L unit :=
  match or_else (beginsWith appBase url) (beginsWith (stripFile appBase) url) with
  | None => hthrow JsTypeError
  | Some withoutBaseUrl =>
      let withoutHashUrl :=
        if first_is (chr "#") withoutBaseUrl then beginsWith hashPrefix withoutBaseUrl
        else Some (if html5_of m then withoutBaseUrl else []) in
      match withoutHashUrl with
      | None => hthrow (JsMinErr (js "location:ihshprfx"))
      | Some u =>
          parseAppUrl u ;;;
          l <- hgets id ;;
          hmodify (with_path (removeWindowsDriveName (loc_path l) u appBase)) ;;;
          compose m
      end
  end.

(** [$$parse]. *)
Definition parse (m : location_mode) (url : jstr) : L unit :=
  match m with
  | LocationHtml5Url appBase _ => parse_html5 m appBase url
  | LocationHashbangUrl appBase hashPrefix | LocationHashbangInHtml5Url appBase hashPrefix =>
      parse_hashbang m appBase hashPrefix url
  end.

End Parse.

(** [$$rewrite] of LocationHtml5Url. *)
Definition rewrite_html5 (appBase basePrefix url : jstr) : option jstr :=
  let appBaseNoFile := stripFile appBase in
  match beginsWith appBase url with
  | Some prevAppUrl =>
      match beginsWith basePrefix prevAppUrl with
      | Some appUrl => Some (appBaseNoFile ++ default appUrl (or_else (beginsWith (js "/") appUrl) (Some appUrl)))
      | None => Some (appBase ++ prevAppUrl)
      end
  | None =>
      match beginsWith appBaseNoFile url with
      | Some appUrl => Some (appBaseNoFile ++ appUrl)
      | None => if jeqb appBaseNoFile (url ++ js "/") then Some appBaseNoFile else None
      end
  end.

(** [$$rewrite] of LocationHashbangInHtml5Url. *)
Definition rewrite_hashbang_in_html5 (appBase hashPrefix url : jstr) : option jstr :=
  let appBaseNoFile := stripFile appBase in
  if jeqb appBase (stripHash url) then Some url
  else match beginsWith appBaseNoFile url with
       | Some ((_ :: _) as appUrl) => Some (appBase ++ hashPrefix ++ appUrl)
       | _ => if jeqb appBaseNoFile (url ++ js "/") then Some appBaseNoFile else None
       end.

(** [$$rewrite]: the URL of this application that stands for [url]; [None] for another one. *)
Definition rewrite (m : location_mode) (url : jstr) : option jstr :=
  match m with
  | LocationHtml5Url appBase basePrefix => rewrite_html5 appBase basePrefix url
  | LocationHashbangUrl appBase _ => if jeqb (stripHash appBase) (stripHash url) then Some url else None
  | LocationHashbangInHtml5Url appBase hashPrefix => rewrite_hashbang_in_html5 appBase hashPrefix url
  end.

(** ** The methods of the prototype *)

Section Methods.
Context (m : location_mode).

Definition absUrl : L jstr := hgets loc_absUrl.
Definition protocol : L jstr := hgets loc_protocol.
Definition host : L jstr := hgets loc_host.
Definition port : L json := hgets loc_port.

(** The setters [path(v)] and [hash(v)] of [locationGetterSetter]. *)
Definition set_loc_path (path : jstr) : L unit :=
  hmodify (with_path (if first_is (chr "/") path then path else js "/" ++ path)) ;;; compose m.
Definition set_loc_hash (hash : jstr) : L unit := hmodify (with_hash hash) ;;; compose m.

(** The first argument of [search]. *)
Inductive search_arg : Type :=
| SearchText (s : jstr)
| SearchObject (o : jsobj qval)
| SearchOther.

Definition set_search (search : search_arg) : L unit :=
  match search with
  | SearchText s => hmodify (with_search (parseKeyValue s)) ;;; compose m
  | SearchObject o => hmodify (with_search o) ;;; compose m
  | SearchOther => hthrow (JsMinErr (js "location:isrcharg"))
  end.

(** [search(k, v)]; [None] stands for [undefined] and [null]. *)
Definition set_search_param (k : jstr) (v : option qval) : L unit :=
  hmodify (fun l => with_search (match v with
                                 | None | Some QUndef => ob_delete (loc_search l) k
                                 | Some q => q_write (loc_search l) k q
                                 end) l) ;;;
  compose m.

Definition set_loc_replace : L unit := hmodify (with_replace true).

(** Groups 1, 3 and 5 of the regular expression [PATH_MATCH]. *)
Definition PATH_MATCH (url : jstr) : option (jstr * option jstr * option jstr) :=
  let '(p, r) := span (fun c => negb ((c =? chr "?") || (c =? chr "#"))%N) url in
  let '(q, r) := match r with
                 | c :: t => if (c =? chr "?")%N
                             then let '(q, r') := span (fun c => negb (c =? chr "#")%N) t in (Some q, r')
                             else (None, r)
                 | [] => (None, [])
                 end in
  match r with
  | [] => Some (p, q, None)
  | _ :: h => if existsb line_end h then None else Some (p, q, Some h)
  end.

(** [url(text)]; each part is assigned through its own setter. *)
Definition set_loc_url (url : jstr) : L unit :=
  match PATH_MATCH url with
  | None => hthrow JsTypeError
  | Some (p, q, h) =>
      hwhen (truthy p) (d <- hlift (of_uri (decodeURIComponent p)) ;; set_loc_path d) ;;;
      hwhen (match q with Some _ => true | None => truthy p end)
        (set_search (SearchText (default [] q))) ;;;
      set_loc_hash (default [] h)
  end.

End Methods.
