(* ===== verification/LocationFacts.v ===== *)
(** * What the $location service keeps: a composed URL parses back to its location *)

From S2P Require Import Prelude JsString JsObject JsNumber UriCodec Json Query Location.
Local Open Scope handler_scope.

(** ** What is expected of the browser's URL parser *)

(** The [.] and [..] segments, which a parser removes, in all their spellings. *)
Definition dot_segments : list jstr :=
  [js "."; js ".."; js "%2e"; js "%2E"; js ".%2e"; js ".%2E"; js "%2e."; js "%2E.";
   js "%2e%2e"; js "%2e%2E"; js "%2E%2e"; js "%2E%2E"].

(** A path relative to the host, in the alphabet of encoded paths, without dot segments. *)
Definition plain_path (p : jstr) : Prop :=
  first_is (chr "/") p = true /\ first_is (chr "/") (drop 1 p) = false
  /\ (forall c, c ∈ p -> path_char c = true)
  /\ Forall (fun w => w ∉ dot_segments) (split (chr "/") p).

(** A delimiter and a component; nothing for an empty component. *)
Definition with_mark (c : unit16) (s : jstr) : jstr := if truthy s then c :: s else [].

(** Setting the [href] of an anchor to a plain path with a query and a fragment exposes
    these three parts as they are written; an apostrophe in a query is the exception. *)
Definition url_parser (anchor : jstr -> anchor_url) : Prop :=
  forall p q h,
    plain_path p -> (forall c, c ∈ q -> query_char c = true) -> chr "'" ∉ q ->
    (forall c, c ∈ h -> path_char c = true) ->
    let a := anchor (p ++ with_mark (chr "?") q ++ with_mark (chr "#") h) in
    a_pathname a = p /\ a_search a = with_mark (chr "?") q /\ a_hash a = with_mark (chr "#") h.

(** A parser for plain URLs, which splits at the first [#], then at the first [?]. *)
Definition simple_anchor (url : jstr) : anchor_url :=
  let '(front, h) := span (fun c => negb (c =? chr "#")%N) url in
  let '(p, q) := span (fun c => negb (c =? chr "?")%N) front in
  let keep s := match s with [_] => [] | _ => s end in
  AnchorUrl url (js "http:") (js "localhost:7364") (keep q) (keep h) (js "localhost") (js "7364") p.

Lemma span_none P a : (forall x, x ∈ a -> P x = true) -> span P a = (a, []).
Proof. intros H. apply span_all. by apply Forall_forall. Qed.

Lemma span_mark c a s :
  (forall x, x ∈ a -> negb (x =? c)%N = true) ->
  span (fun x => negb (x =? c)%N) (a ++ with_mark c s) = (a, with_mark c s).
Proof.
  intros Ha. unfold with_mark. destruct (truthy s).
  - apply span_stop; [done|]. by rewrite N.eqb_refl.
  - rewrite app_nil_r. by apply span_none.
Qed.

Lemma not_mark (P : unit16 -> bool) (c : unit16) (s : jstr) :
  (forall x, x ∈ s -> P x = true) -> P c = false -> forall x, x ∈ s -> negb (x =? c)%N = true.
Proof.
  intros Hs Hc x Hx. apply negb_true_iff, N.eqb_neq. intros ->. rewrite Hs in Hc by done. discriminate.
Qed.

Lemma simple_anchor_ok : url_parser simple_anchor.
Proof.
  intros p q h (_ & _ & Hp & _) Hq _ Hh. unfold simple_anchor.
  rewrite app_assoc, span_mark.
  2:{ intros x [Hx|Hx]%elem_of_app; [by apply (not_mark path_char (chr "#") p)|].
      unfold with_mark in Hx. destruct (truthy q); [|by apply elem_of_nil in Hx].
      apply elem_of_cons in Hx as [-> |Hx]; [done|]. by apply (not_mark query_char (chr "#") q). }
  rewrite span_mark by by apply (not_mark path_char). unfold with_mark.
  destruct q as [|? q], h as [|? h]; done.
Qed.

(** ** Parsing a composed URL *)

Lemma decode_cons_unit c e :
  c <> 37%N -> decodeURIComponent (c :: e) = rbind (decodeURIComponent e) (fun t => Ok (c :: t)).
Proof.
  intros Hc. unfold decodeURIComponent. cbn [tokenize]. apply N.eqb_neq in Hc. rewrite Hc.
  by destruct (tokenize e).
Qed.

Lemma decode_first_slash e p :
  decodeURIComponent e = Ok p -> first_is (chr "/") e = true -> first_is (chr "/") p = true.
Proof.
  intros Hd He. destruct e as [|c e]; [done|]. cbn in He. apply N.eqb_eq in He as ->.
  rewrite decode_cons_unit in Hd by done. destruct (decodeURIComponent e); [|done].
  by injection Hd as <-.
Qed.

Lemma encodePath_segment w p e :
  chr "/" ∉ w -> encodePath (w ++ chr "/" :: p) = Ok e ->
  exists ew e', e = ew ++ chr "/" :: e' /\ encodeUriSegment w = Ok ew /\ encodePath p = Ok e'.
Proof.
  intros Hw. unfold encodePath. rewrite split_app_sep by done. cbn [map_result].
  intros (es & (ew & Hew & (ws & Hws & [= <-])%rbind_ok)%rbind_ok & [= <-])%rbind_ok. rewrite Hws.
  exists ew, (join (js "/") ws). split_and!; [|done|done]. destruct ws as [|w' ws]; [|done].
  destruct (split (chr "/") p) eqn:E; [by apply split_not_nil in E|].
  cbn [map_result] in Hws. apply rbind_ok in Hws as (y & _ & Hws). by apply rbind_ok in Hws as (ys & _ & [=]).
Qed.

Lemma encodePath_slash p e :
  encodePath (chr "/" :: p) = Ok e -> exists e', e = chr "/" :: e' /\ encodePath p = Ok e'.
Proof.
  intros (ew & e' & -> & [= <-] & He)%(encodePath_segment []);
    [eauto|by apply not_elem_of_nil].
Qed.

Lemma encode_drive d : (65 <=? d)%N && (d <=? 90)%N = true ->
  encodeUriSegment [d; chr ":"] = Ok [d; chr ":"] /\ chr "/" ∉ [d; chr ":"].
Proof.
  rewrite andb_true_iff, !N.leb_le. intros Hd.
  assert (Hall : forallb (fun n => match encodeUriSegment [n; chr ":"] with
    | Ok s => jeqb s [n; chr ":"] | _ => false end && negb (n =? chr "/")%N)
    (map N.of_nat (seq 65 26)) = true) by by vm_compute.
  rewrite forallb_forall in Hall. specialize (Hall d). destruct (encodeUriSegment _) as [s|].
  - assert (Hin : In d (map N.of_nat (seq 65 26))).
    { apply in_map_iff. exists (N.to_nat d). split; [by apply N2Nat.id|]. apply in_seq. lia. }
    apply Hall in Hin as [->%jeqb_true Hn]%andb_true_iff. split; [done|].
    rewrite !not_elem_of_cons. apply negb_true_iff, N.eqb_neq in Hn. split_and!; [congruence|done|].
    by apply not_elem_of_nil.
  - exfalso. assert (Hin : In d (map N.of_nat (seq 65 26))).
    { apply in_map_iff. exists (N.to_nat d). split; [by apply N2Nat.id|]. apply in_seq. lia. }
    by apply Hall in Hin.
Qed.

Lemma first_is_cons c s : first_is c s = true -> exists t, s = c :: t.
Proof. destruct s as [|d t]; [done|]. intros ->%N.eqb_eq. eauto. Qed.

Section Roundtrip.
Context (anchor : jstr -> anchor_url) (Hanchor : url_parser anchor).

(** The three parts of a composed URL, path [p] and fragment [hash] being encoded as [e] and [h]. *)
Record url_parts (p e q hash h : jstr) : Prop := {
  up_plain : plain_path e;
  up_path : js_text p;
  up_encoded : encodePath p = Ok e;
  up_query : forall c, c ∈ q -> query_char c = true;
  up_quote : chr "'" ∉ q;
  up_frag : js_text hash;
  up_fragment : encodeUriSegment hash = Ok h
}.

Definition render_parts (e q h : jstr) : jstr := e ++ with_mark (chr "?") q ++ with_mark (chr "#") h.

Lemma resolve_parts p e q hash h :
  url_parts p e q hash h ->
  let u := urlResolve anchor (render_parts e q h) in
  a_pathname u = e /\ a_search u = q /\ a_hash u = h.
Proof.
  intros [Hpl _ _ Hq Hqq [Hw _] Hh]. unfold urlResolve, render_parts. cbn [a_pathname a_search a_hash].
  assert (Hc : forall c, c ∈ h -> path_char c = true).
  { intros c Hc. unfold path_char. by rewrite (encodeUriSegment_alphabet hash h c). }
  destruct (Hanchor e q h Hpl Hq Hqq Hc) as (-> & -> & ->). destruct Hpl as (-> & _).
  split_and!; [done|by destruct q|by destruct h].
Qed.

Lemma parts_path p e q hash h :
  url_parts p e q hash h -> exists p' e', p = chr "/" :: p' /\ e = chr "/" :: e'
    /\ first_is (chr "/") p' = false /\ first_is (chr "/") e' = false
    /\ decodeURIComponent e = Ok p /\ decodeURIComponent e' = Ok p'.
Proof.
  intros [(Hf & Hf2 & _) Hp He _ _ _ _].
  destruct (encodePath_ok p Hp) as (e0 & He0 & Hd & _). rewrite He in He0. injection He0 as <-.
  apply first_is_cons in Hf as [e' ->]. cbn [drop] in Hf2. pose proof Hd as Hd0.
  rewrite decode_cons_unit in Hd0 by done. destruct (decodeURIComponent e') as [p'|] eqn:Ed; [|done].
  injection Hd0 as <-. exists p', e'. split_and!; try done.
  destruct (first_is (chr "/") p') eqn:E; [|done]. exfalso.
  apply first_is_cons in E as [p2 ->]. apply encodePath_slash in He as (e1 & [= <-] & He).
  apply encodePath_slash in He as (e2 & -> & _). done.
Qed.

Definition parsed (p q hash : jstr) (l : location) : location :=
  with_hash hash (with_search (parseKeyValue q) (with_path p l)).

Lemma parts_hash p e q hash h : url_parts p e q hash h -> decodeURIComponent h = Ok hash.
Proof. intros [_ _ _ _ _ [Hw _] Hh]. by apply decode_encodeUriSegment. Qed.

Lemma parseAppUrl_slash p e q hash h l :
  url_parts p e q hash h ->
  parseAppUrl anchor (render_parts e q h) l = (Ok tt, parsed p q hash l).
Proof.
  intros Hu. destruct (resolve_parts _ _ _ _ _ Hu) as (H1 & H2 & H3).
  destruct (parts_path _ _ _ _ _ Hu) as (p' & e' & -> & -> & _ & _ & Hd & _).
  pose proof (parts_hash _ _ _ _ _ Hu) as Hh. unfold parseAppUrl.
  assert (Hf : first_is (chr "/") (render_parts (chr "/" :: e') q h) = true) by done.
  rewrite Hf. cbn [negb andb]. rewrite H1, H2, H3, Hd. unfold hbind, hlift, hmodify.
  cbn [of_uri]. by rewrite Hh.
Qed.

(** The same URL without its first [/], as in HTML5 mode. *)
Lemma parseAppUrl_noslash p e q hash h l :
  url_parts p e q hash h ->
  parseAppUrl anchor (drop 1 (render_parts e q h)) l
  = (Ok tt, parsed (if jeqb p (js "/") then [] else p) q hash l).
Proof.
  intros Hu. destruct (resolve_parts _ _ _ _ _ Hu) as (H1 & H2 & H3).
  destruct (parts_path _ _ _ _ _ Hu) as (p' & e' & -> & -> & Hp' & He' & Hd & Hd').
  pose proof (parts_hash _ _ _ _ _ Hu) as Hh. unfold parseAppUrl.
  assert (Hf : first_is (chr "/") (drop 1 (render_parts (chr "/" :: e') q h)) = false).
  { unfold render_parts, with_mark. destruct e' as [|? e']; [|done]. by destruct q, h. }
  rewrite Hf. cbn [negb]. change (js "/" ++ ?s) with (chr "/" :: s).
  change (chr "/" :: drop 1 (render_parts (chr "/" :: e') q h)) with (render_parts (chr "/" :: e') q h).
  rewrite H1, H2, H3.
  change (if true && first_is (chr "/") (chr "/" :: e') then drop 1 (chr "/" :: e') else chr "/" :: e') with e'.
  rewrite Hd'.
  unfold hbind, hlift, hmodify. cbn [of_uri]. rewrite Hh. cbn [of_uri].
  destruct p' as [|c p']; [done|]. cbn [truthy andb]. rewrite Hp'. cbn [negb hwhen].
  destruct (jeqb _ _) eqn:E; [by apply jeqb_true in E|done].
Qed.

(** A path that looks like a drive keeps its first segment, for the URL has it too. *)
Lemma remove_drive p e q hash h base :
  url_parts p e q hash h -> first_is (chr "/") base = false ->
  removeWindowsDriveName p (render_parts e q h) base = p.
Proof.
  intros Hu Hb. unfold removeWindowsDriveName.
  assert (Hurl : default (render_parts e q h) (beginsWith base (render_parts e q h)) = render_parts e q h).
  { destruct (parts_path _ _ _ _ _ Hu) as (p' & e' & -> & -> & _). unfold beginsWith.
    destruct base as [|c base]; [done|]. cbn [first_is] in Hb. apply N.eqb_neq in Hb.
    unfold render_parts. cbn [app starts_with]. by destruct (N.eqb_spec c (chr "/")). }
  rewrite Hurl. destruct (windowsFilePath p) as [g|] eqn:E; [|by destruct (windowsFilePath (render_parts e q h))].
  destruct p as [|a [|d [|c [|b r]]]]; try done. cbn in E.
  destruct (a =? chr "/")%N eqn:Ea; [|done]. cbn in E.
  destruct ((65 <=? d)%N && (d <=? 90)%N) eqn:Ed; [|done]. cbn in E.
  destruct (c =? chr ":")%N eqn:Ec; [|done]. cbn in E. destruct (b =? chr "/")%N eqn:Eb; [|done].
  apply N.eqb_eq in Ea as ->. apply N.eqb_eq in Ec as ->. apply N.eqb_eq in Eb as ->.
  destruct (encode_drive d Ed) as [He Hn].
  apply up_encoded in Hu as (e1 & -> & He1)%encodePath_slash.
  apply (encodePath_segment [d; chr ":"]) in He1 as (ew & e2 & -> & Hew & _); [|done].
  rewrite He in Hew. injection Hew as <-. unfold render_parts, windowsFilePath. cbn [app].
  by rewrite <- !andb_assoc, (andb_assoc (65 <=? d)%N), Ed.
Qed.

(** ** The round trip *)

(** A location the service can show: texts, a canonical query, a path without dot segments
    and not starting with two slashes, no apostrophe left in the query. *)
Definition routable (l : location) : Prop :=
  js_text (loc_path l) /\ js_text (loc_hash l)
  /\ q_object (loc_search l) /\ ob_get (loc_search l) (js "forEach") = None
  /\ (forall e, encodePath (loc_path l) = Ok e -> plain_path e)
  /\ (forall q, toKeyValue (loc_search l) = Ok q -> chr "'" ∉ q).

(** The hash prefix starts with [#]; the base of the application is an absolute URL. *)
Definition mode_ok (m : location_mode) : Prop :=
  match m with
  | LocationHtml5Url _ _ => True
  | LocationHashbangUrl appBase hashPrefix | LocationHashbangInHtml5Url appBase hashPrefix =>
      first_is (chr "#") hashPrefix = true /\ first_is (chr "/") appBase = false
  end.

Lemma routable_parts l :
  routable l -> exists e q h, url_parts (loc_path l) e q (loc_hash l) h
    /\ toKeyValue (loc_search l) = Ok q /\ toKeyValue (parseKeyValue q) = Ok q
    /\ forall k, ob_get (parseKeyValue q) k = ob_get (loc_search l) k.
Proof.
  intros (Hp & Hh & Hq & Hf & Hpl & Hqq).
  destruct (encodePath_ok _ Hp) as (e & He & _).
  destruct (toKeyValue_spec _ Hq Hf) as (q & Hs & Hc & Hg & Hb).
  destruct (encodeUriSegment_ok (loc_hash l) (proj2 Hh)) as [h Hhe].
  exists e, q, h. split; [|done]. split; eauto.
Qed.

Lemma segment_mark hash h :
  js_text hash -> encodeUriSegment hash = Ok h ->
  (if truthy hash then rbind (of_uri (encodeUriSegment hash)) (fun h => Ok (js "#" ++ h)) else Ok [])
  = @Ok js_error jstr (with_mark (chr "#") h).
Proof.
  intros [Hw _] He. rewrite He. cbn. destruct hash as [|c hash].
  - injection He as <-. done.
  - cbn [truthy]. unfold with_mark. destruct h as [|d h]; [|done].
    apply decode_encodeUriSegment in He; [|done]. done.
Qed.

Lemma compose_parts l e q h :
  url_parts (loc_path l) e q (loc_hash l) h -> toKeyValue (loc_search l) = Ok q ->
  compose_url l = Ok (render_parts e q h).
Proof.
  intros [_ _ He _ _ Hht Hh] Hq. unfold compose_url. rewrite Hq, He. cbn [rbind of_uri].
  rewrite (segment_mark _ h Hht Hh). cbn [rbind]. unfold render_parts, with_mark. by destruct q.
Qed.

(** What [$$parse] does with a composed URL, before it composes again. *)
Lemma parse_absUrl m p e q hash h l :
  mode_ok m -> url_parts p e q hash h ->
  parse anchor m (abs_url m (render_parts e q h)) l = compose m (parsed p q hash l).
Proof.
  intros Hm Hu.
  assert (Hhb : forall b hp, first_is (chr "#") hp = true -> first_is (chr "/") b = false ->
    or_else (beginsWith b (b ++ hp ++ render_parts e q h))
      (beginsWith (stripFile b) (b ++ hp ++ render_parts e q h)) = Some (hp ++ render_parts e q h)
    /\ first_is (chr "#") (hp ++ render_parts e q h) = true
    /\ beginsWith hp (hp ++ render_parts e q h) = Some (render_parts e q h)).
  { intros b hp Hh Hb. unfold beginsWith. rewrite !starts_with_app, !drop_app_length.
    destruct hp as [|c hp]; done. }
  assert (Ht : truthy (render_parts e q h) = true).
  { destruct (parts_path _ _ _ _ _ Hu) as (p' & e' & -> & -> & _). done. }
  destruct m as [b bp|b hp|b hp]; cbn [abs_url parse]; unfold parse_html5, parse_hashbang.
  - unfold beginsWith. rewrite starts_with_app, drop_app_length.
    erewrite hbind_ok by by eapply parseAppUrl_noslash.
    unfold hbind, hgets, hmodify, id. destruct (jeqb p (js "/")) eqn:E; cbn [hwhen].
    + apply jeqb_true in E as ->. cbn. done.
    + destruct (parts_path _ _ _ _ _ Hu) as (p' & e' & -> & -> & _). done.
  - destruct Hm as [Hh Hb]. rewrite Ht. destruct (Hhb b hp Hh Hb) as (-> & -> & ->).
    erewrite hbind_ok by by eapply parseAppUrl_slash. unfold hbind, hgets, hmodify, id.
    cbn [loc_path parsed with_hash with_search with_path]. by erewrite remove_drive.
  - destruct Hm as [Hh Hb]. destruct (Hhb b hp Hh Hb) as (-> & -> & ->).
    erewrite hbind_ok by by eapply parseAppUrl_slash. unfold hbind, hgets, hmodify, id.
    cbn [loc_path parsed with_hash with_search with_path]. by erewrite remove_drive.
Qed.

(** C8: in the three kinds of URL, the absolute URL composed for a location parses back, from
    any state, to its path, its search properties and its hash, and is then composed
    identically: the location and the address bar agree. *)
Theorem location_roundtrip m l l0 :
  mode_ok m -> routable l ->
  exists l1 l2, compose m l = (Ok tt, l1) /\ parse anchor m (loc_absUrl l1) l0 = (Ok tt, l2)
    /\ loc_path l2 = loc_path l /\ loc_hash l2 = loc_hash l
    /\ (forall k, ob_get (loc_search l2) k = ob_get (loc_search l) k)
    /\ loc_url l2 = loc_url l1 /\ loc_absUrl l2 = loc_absUrl l1.
Proof.
  intros Hm Hl. destruct (routable_parts l Hl) as (e & q & h & Hu & Hq & Hb & Hg).
  pose proof (compose_parts l e q h Hu Hq) as Hc.
  exists (with_urls (render_parts e q h) (abs_url m (render_parts e q h)) l).
  unfold compose at 1, hbind, hgets, hlift, hmodify, id. rewrite Hc. eexists. split; [done|].
  cbn [loc_absUrl with_urls]. rewrite (parse_absUrl m _ _ _ _ _ l0 Hm Hu).
  unfold compose, hbind, hgets, hlift, hmodify, id.
  rewrite (compose_parts (parsed (loc_path l) q (loc_hash l) l0) e q h Hu Hb). split; [done|].
  split_and!; done.
Qed.

End Roundtrip.

Definition sample_location : location :=
  Location (js "http") (js "localhost") (jint 7364) (js "/search/a b") sample_query (js "top%")
    [] [] false.

Lemma sample_routable : routable sample_location.
Proof.
  split_and!; try (by apply js_text_dec); try apply sample_query_ok.
  - intros e He. vm_compute in He. injection He as <-. split_and!; [done|done| |].
    + intros c Hc. eapply forallb_forall; [|by apply list_elem_of_In, Hc]. by vm_compute.
    + repeat constructor; by apply (bool_decide_unpack _).
  - intros q Hq. vm_compute in Hq. injection Hq as <-. by apply (bool_decide_unpack _).
Qed.

Lemma location_roundtrip_witness :
  exists l1 l2,
    compose (LocationHashbangUrl (js "http://localhost:7364/ui/") (js "#")) sample_location = (Ok tt, l1)
    /\ parse simple_anchor (LocationHashbangUrl (js "http://localhost:7364/ui/") (js "#"))
         (loc_absUrl l1) sample_location = (Ok tt, l2)
    /\ loc_path l2 = loc_path sample_location /\ loc_hash l2 = loc_hash sample_location
    /\ (forall k, ob_get (loc_search l2) k = ob_get (loc_search sample_location) k)
    /\ loc_url l2 = loc_url l1 /\ loc_absUrl l2 = loc_absUrl l1.
Proof.
  apply (location_roundtrip simple_anchor simple_anchor_ok); [by split|apply sample_routable].
Defined.
