(* ===== verification/DateFilter.v ===== *)
(** * The date filter and the en-us locale (angular.js, dateFilter and $LocaleProvider)

    The time zone of the browser is a parameter: [zone t] is the offset in minutes east of
    UTC at the time [t], and [utc] turns a local time into a time value. *)

From Stdlib Require Import QArith.
From S2P Require Import Prelude JsString JsObject JsNumber UriCodec Json Query JsDate Location.
Local Open Scope Z_scope.

(** ** The locale *)

Record locale : Type := Locale {
  lc_month : list jstr; lc_shortmonth : list jstr; lc_day : list jstr; lc_shortday : list jstr;
  lc_ampms : list jstr;
  lc_named : jsobj jstr                 (** 'medium', 'short', ... *)
}.

Definition commas (s : lit) : list jstr := split (chr ",") (js s).
Arguments commas s%_string_scope.
Definition named (k v : lit) : jstr * jstr := (js k, js v).
Arguments named (k v)%_string_scope.

Definition en_us : locale := Locale
  (commas "January,February,March,April,May,June,July,August,September,October,November,December")
  (commas "Jan,Feb,Mar,Apr,May,Jun,Jul,Aug,Sep,Oct,Nov,Dec")
  (commas "Sunday,Monday,Tuesday,Wednesday,Thursday,Friday,Saturday")
  (commas "Sun,Mon,Tue,Wed,Thu,Fri,Sat")
  [js "AM"; js "PM"]
  [named "medium" "MMM d, y h:mm:ss a"; named "short" "M/d/yy h:mm a"; named "fullDate" "EEEE, MMMM d, y";
   named "longDate" "MMMM d, y"; named "mediumDate" "MMM d, y"; named "shortDate" "M/d/yy";
   named "mediumTime" "h:mm:ss a"; named "shortTime" "h:mm a"].

(** [$locale.DATETIME_FORMATS[k]], as the text a regular expression is run on. *)
Definition locale_format (lc : locale) (k : jstr) : option jstr :=
  match ob_get (lc_named lc) k with
  | Some f => Some f
  | None =>
      let lists := [(js "MONTH", lc_month lc); (js "SHORTMONTH", lc_shortmonth lc); (js "DAY", lc_day lc);
                    (js "SHORTDAY", lc_shortday lc); (js "AMPMS", lc_ampms lc)] in
      match ob_get lists k with
      | Some l => Some (join (js ",") l)
      | None => if in_object_proto k then Some (q_text (QProto k)) else None
      end
  end.

(** ** Numbers *)

(** [padNumber]; [None] is [NaN]. *)
Definition padNumber (num : option Z) (digits : nat) (trim : bool) : jstr :=
  let neg := match num with Some n => if n <? 0 then js "-" else [] | None => [] end in
  let text := match num with Some n => dec_of_Z (Z.abs n) | None => js "NaN" end in
  let text := repeat (chr "0") (digits - length text) ++ text in
  neg ++ (if trim then drop (length text - digits) text else text).

(** A date object: its time value, [None] for an invalid one. *)
Abbreviation jsdate := (option Z).

Section Zone.
Context (zone : Z -> Z).

Definition LocalTime (t : Z) : Z := t + zone t * 60000.

(** The [get...] methods. *)
Definition getFullYear (t : Z) : Z := cv_year (civil_of_day (Day (LocalTime t))).
Definition getMonth (t : Z) : Z := cv_month (civil_of_day (Day (LocalTime t))).
Definition getDate (t : Z) : Z := cv_date (civil_of_day (Day (LocalTime t))).
Definition getDay (t : Z) : Z := WeekDay (LocalTime t).
Definition getHours (t : Z) : Z := HourFromTime (LocalTime t).
Definition getMinutes (t : Z) : Z := MinFromTime (LocalTime t).
Definition getSeconds (t : Z) : Z := SecFromTime (LocalTime t).
Definition getMilliseconds (t : Z) : Z := msFromTime (LocalTime t).

Definition dateGetter (get : Z -> Z) (size : nat) (offset : Z) (trim : bool) (d : jsdate) : jstr :=
  let value := match d with
               | Some t =>
                   let v := get t in
                   let v := if (0 <? offset) || (- offset <? v) then v + offset else v in
                   Some (if (v =? 0) && (offset =? -12) then 12 else v)
               | None => None
               end in
  padNumber value size trim.

(** [formats[get][value]], [undefined] written as text when it is not there. *)
Definition dateStrGetter (get : Z -> Z) (names : list jstr) (d : jsdate) : jstr :=
  match d with
  | Some t => default (js "undefined") (names !! Z.to_nat (get t))
  | None => js "undefined"
  end.

Definition timeZoneGetter (d : jsdate) : jstr :=
  match d with
  | Some t =>
      let z := zone t in
      let hours := if 0 <? z then z / 60 else - (- z / 60) in
      (if 0 <=? z then js "+" else []) ++ padNumber (Some hours) 2 false
      ++ padNumber (Some (Z.abs (Z.rem z 60))) 2 false
  | None => padNumber None 2 false ++ padNumber None 2 false
  end.

Definition ampmGetter (ampms : list jstr) (d : jsdate) : jstr :=
  default (js "undefined")
    (ampms !! (match d with Some t => if getHours t <? 12 then 0%nat else 1%nat | None => 1%nat end)).

Definition fmt (k : lit) (f : jsdate -> jstr) : jstr * (jsdate -> jstr) := (js k, f).
Arguments fmt k%_string_scope f.

Definition DATE_FORMATS (lc : locale) : jsobj (jsdate -> jstr) :=
  [fmt "yyyy" (dateGetter getFullYear 4 0 false);
   fmt "yy" (dateGetter getFullYear 2 0 true);
   fmt "y" (dateGetter getFullYear 1 0 false);
   fmt "MMMM" (dateStrGetter getMonth (lc_month lc));
   fmt "MMM" (dateStrGetter getMonth (lc_shortmonth lc));
   fmt "MM" (dateGetter getMonth 2 1 false);
   fmt "M" (dateGetter getMonth 1 1 false);
   fmt "dd" (dateGetter getDate 2 0 false);
   fmt "d" (dateGetter getDate 1 0 false);
   fmt "HH" (dateGetter getHours 2 0 false);
   fmt "H" (dateGetter getHours 1 0 false);
   fmt "hh" (dateGetter getHours 2 (-12) false);
   fmt "h" (dateGetter getHours 1 (-12) false);
   fmt "mm" (dateGetter getMinutes 2 0 false);
   fmt "m" (dateGetter getMinutes 1 0 false);
   fmt "ss" (dateGetter getSeconds 2 0 false);
   fmt "s" (dateGetter getSeconds 1 0 false);
   fmt "sss" (dateGetter getMilliseconds 3 0 false);
   fmt "EEEE" (dateStrGetter getDay (lc_day lc));
   fmt "EEE" (dateStrGetter getDay (lc_shortday lc));
   fmt "a" (ampmGetter (lc_ampms lc));
   fmt "Z" timeZoneGetter].

(** ** Format strings *)

(** The letters of the formats, and the quote. *)
Definition format_letter (c : unit16) : bool := bool_decide (c ∈ js "yMdHhmsaZE").
Definition quote : unit16 := chr "'".

(** What follows an opening quote: up to its closing quote, two quotes standing for one. *)
Fixpoint quoted (s : jstr) : option (jstr * jstr) :=
  match s with
  | [] => None
  | c :: r =>
      if (c =? quote)%N then
        match r with
        | c2 :: r2 =>
            if (c2 =? quote)%N then
              match quoted r2 with
              | Some (a, b) => Some (c :: c2 :: a, b)
              | None => Some ([c], r)
              end
            else Some ([c], r)
        | [] => Some ([c], [])
        end
      else match quoted r with Some (a, b) => Some (c :: a, b) | None => None end
  end.

(** One part at the start of the text: a literal run, a quoted text or a run of one letter. *)
Definition part_at (s : jstr) : option (jstr * jstr) :=
  match s with
  | [] => None
  | c :: r =>
      if (c =? quote)%N then match quoted r with Some (a, b) => Some (c :: a, b) | None => None end
      else if format_letter c then
        if bool_decide (c ∈ js "aZ") then Some ([c], r) else Some (span (fun d => d =? c)%N s)
      else Some (span (fun d => negb (format_letter d) && negb (d =? quote)%N) s)
  end.

(** [DATE_FORMATS_SPLIT.exec]: the first part, and the rest of its line. *)
Fixpoint DATE_FORMATS_SPLIT (s : jstr) : option (jstr * jstr) :=
  match part_at s with
  | Some (part, rest) => Some (part, (span (fun c => negb (line_end c)) rest).1)
  | None => match s with [] => None | _ :: s' => DATE_FORMATS_SPLIT s' end
  end.

(** The loop that cuts the format; every step makes it shorter, the fuel is its length. *)
Fixpoint format_parts (fuel : nat) (format : jstr) : list jstr :=
  match fuel, format with
  | _, [] => []
  | O, _ => []
  | S fuel', _ =>
      match DATE_FORMATS_SPLIT format with
      | Some (part, rest) => part :: format_parts fuel' rest
      | None => [format]
      end
  end.

(** Two quotes become one. *)
Fixpoint undouble (s : jstr) : jstr :=
  match s with
  | c :: r => match r with
              | d :: r2 => if (c =? quote)%N && (d =? quote)%N then quote :: undouble r2 else c :: undouble r
              | [] => [c]
              end
  | [] => []
  end.

(** The text of one part; a name inherited from [Object.prototype] is called like a format. *)
Definition part_text (lc : locale) (d : jsdate) (value : jstr) : result js_error jstr :=
  match ob_get (DATE_FORMATS lc) value with
  | Some fn => Ok (fn d)
  | None =>
      if jeqb value (js "toString") then Ok (js "[object Undefined]")
      else if in_object_proto value then Throw JsTypeError
      else Ok (undouble (strip_last quote (strip_first quote value)))
  end.

(** ** ISO 8601 strings *)

Definition digits_at (k : nat) (s : jstr) : option (jstr * jstr) :=
  if (Nat.eqb (length (take k s)) k) && forallb is_digit (take k s) then Some (take k s, drop k s) else None.

(** The time of a string: hours, minutes, seconds and fraction when they are there. *)
Record iso_time : Type := IsoTime { it_h : jstr; it_m : option jstr; it_s : option jstr; it_frac : option jstr }.
(** [Z], or a sign with hours and minutes. *)
Inductive iso_zone : Type := ZoneZ | ZoneOffset (sign : unit16) (h m : jstr).
Record iso : Type := Iso { is_y : jstr; is_m : jstr; is_d : jstr; is_time : option (iso_time * option iso_zone) }.

Definition iso_fraction (s : jstr) : option jstr * jstr :=
  match s with
  | c :: r => if (c =? chr ".")%N then
                match span is_digit r with ([], _) => (None, s) | (f, r') => (Some f, r') end
              else (None, s)
  | [] => (None, s)
  end.

Definition iso_clock (h s : jstr) : iso_time * jstr :=
  match digits_at 2 (strip_first (chr ":") s) with
  | None => (IsoTime h None None None, s)
  | Some (m, s) =>
      match digits_at 2 (strip_first (chr ":") s) with
      | None => (IsoTime h (Some m) None None, s)
      | Some (sec, s) => let '(f, s) := iso_fraction s in (IsoTime h (Some m) (Some sec) f, s)
      end
  end.

Definition iso_zone_at (s : jstr) : option (option iso_zone) :=
  match s with
  | [] => Some None
  | c :: r =>
      if (c =? chr "Z")%N then match r with [] => Some (Some ZoneZ) | _ => None end
      else if ((c =? chr "+") || (c =? chr "-"))%N then
        match digits_at 2 r with
        | Some (h, r) => match digits_at 2 (strip_first (chr ":") r) with
                         | Some (m, []) => Some (Some (ZoneOffset c h m))
                         | _ => None
                         end
        | None => None
        end
      else None
  end.

(** [string.match(R_ISO8601_STR)]. *)
Definition R_ISO8601_STR (s : jstr) : option iso :=
  '(y, s) ← digits_at 4 s;
  '(m, s) ← digits_at 2 (strip_first (chr "-") s);
  '(d, s) ← digits_at 2 (strip_first (chr "-") s);
  match s with
  | [] => Some (Iso y m d None)
  | c :: s =>
      if (c =? chr "T")%N then
        '(h, s) ← digits_at 2 s;
        let '(t, s) := iso_clock h s in
        z ← iso_zone_at s;
        Some (Iso y m d (Some (t, z)))
      else None
  end.

(** [int(text)] for a text of digits. *)
Definition int_of (s : jstr) : Z := default 0 (int s).

(** [Math.round(parseFloat('0.' + f) * 1000)]. *)
Definition round_ms (f : jstr) : Z :=
  match num_mul (num_of_str (js "0." ++ f)) (Fin 1000) with
  | Fin q => Qround.Qfloor (q + (1 # 2))
  | _ => 0
  end.

Context (utc : Z -> Z).

(** [dateSetter] and [timeSetter] on a date. *)
Definition set_date (in_utc : bool) (y m d : Z) (t : Z) : jsdate :=
  if in_utc then TimeClip (MakeDate (MakeDay y m d) (TimeWithinDay t))
  else TimeClip (utc (MakeDate (MakeDay y m d) (TimeWithinDay (LocalTime t)))).
Definition set_time (in_utc : bool) (h mi s ms : Z) (t : Z) : jsdate :=
  if in_utc then TimeClip (MakeDate (Day t) (MakeTime h mi s ms))
  else TimeClip (utc (MakeDate (Day (LocalTime t)) (MakeTime h mi s ms))).

(** [jsonStringToDate]: [None] gives the string back. *)
Definition jsonStringToDate (string : jstr) : option jsdate :=
  match R_ISO8601_STR string with
  | None => None
  | Some i =>
      let z := time ← is_time i; time.2 in
      let in_utc := match z with Some _ => true | None => false end in
      let '(tzHour, tzMin) := match z with
                              | Some (ZoneOffset c h m) => (int_of (c :: h), int_of (c :: m))
                              | _ => (0, 0)
                              end in
      let part f := match is_time i with Some (t, _) => int_of (default (js "0") (f t)) | None => 0 end in
      let frac := match is_time i with Some (t, _) => default (js "0") (it_frac t) | None => js "0" end in
      Some (set_date in_utc (int_of (is_y i)) (int_of (is_m i) - 1) (int_of (is_d i)) 0 ≫=
            set_time in_utc (part (fun t => Some (it_h t)) - tzHour) (part it_m - tzMin) (part it_s) (round_ms frac))
  end.

(** ** The filter *)

Inductive date_value : Type :=
| DvString (s : jstr)
| DvNumber (n : num)
| DvDate (d : jsdate)
| DvOther (v : json).

(** [/^\-?\d+$/.test(s)]. *)
Definition NUMBER_STRING (s : jstr) : bool :=
  let ds := strip_first (chr "-") s in truthy ds && forallb is_digit ds.

(** [new Date(n)]. *)
Definition new_Date (n : num) : jsdate :=
  match n with
  | Fin q => TimeClip (Z.quot (Qnum q) (Z.pos (Qden q)))
  | _ => None
  end.

(** The date to show; [None] when the input is given back as it is. *)
Definition to_Date (date : date_value) : option jsdate :=
  match date with
  | DvString s => if NUMBER_STRING s then Some (new_Date (fin_of_Z (int_of s))) else jsonStringToDate s
  | DvNumber n => Some (new_Date n)
  | DvDate d => Some d
  | DvOther _ => None
  end.

Inductive filtered : Type := FText (s : jstr) | FSame (v : date_value).

Definition dateFilter (lc : locale) (date : date_value) (format : option jstr) : result js_error filtered :=
  let format := match format with Some ((_ :: _) as f) => f | _ => js "mediumDate" end in
  let format := match locale_format lc format with Some ((_ :: _) as f) => f | _ => format end in
  match to_Date date with
  | None => Ok (FSame date)
  | Some d =>
      rbind (map_result (part_text lc d) (format_parts (length format) format)) (fun ts => Ok (FText (concat ts)))
  end.

End Zone.

Example date_ex :
  dateFilter (fun _ => 120) (fun t => t) en_us (DvNumber (Fin 1288323623006)) (Some (js "dd/MM/yyyy 'at' h:mm ' ' a"))
  = Ok (FText (js "29/10/2010 at 5:40   AM"))
  /\ dateFilter (fun _ => 0) (fun t => t) en_us (DvString (js "1288323623006")) (Some (js "medium"))
     = Ok (FText (js "Oct 29, 2010 3:40:23 AM"))
  /\ dateFilter (fun _ => -120) (fun t => t) en_us (DvString (js "2010-10-29T03:40:23.006Z")) (Some (js "yyyy-MM-ddTHH:mm:ss.sssZ"))
     = Ok (FText (js "2010-10-29T01:40:23.006-0200"))
  /\ dateFilter (fun _ => 0) (fun t => t) en_us (DvDate (Some 0)) (Some (js "EEE d''MMM o'clock y")) 
     = Ok (FText (js "Thu 1Jan oclock 1970")).
Proof. by vm_compute. Qed.
