(* ===== verification/DateFacts.v ===== *)
(** * A date printed in ISO 8601 is read back *)

From Stdlib Require Import QArith.
From S2P Require Import Prelude JsString JsObject JsNumber UriCodec Json Query JsDate Location LocationFacts DateFilter.
Local Open Scope Z_scope.

(** ** Padded numbers, by enumeration *)

Definition pad_ok (k : nat) (n : Z) : bool :=
  let s := padNumber (Some n) k false in
  Nat.eqb (length s) k && forallb is_digit s && (int_of s =? n)
  && (int_of (chr "+" :: s) =? n) && (int_of (chr "-" :: s) =? - n).

Lemma below (P : Z -> bool) (b : nat) :
  forallb P (map Z.of_nat (seq 0 b)) = true -> forall n, 0 <= n < Z.of_nat b -> P n = true.
Proof.
  rewrite forallb_forall. intros H n Hn. apply H. apply in_map_iff. exists (Z.to_nat n).
  split; [lia|]. apply in_seq. lia.
Qed.

Lemma pad2_ok n : 0 <= n < 100 -> pad_ok 2 n = true.
Proof. apply (below (pad_ok 2) 100). by vm_compute. Qed.
Lemma pad3_ok n : 0 <= n < 1000 -> pad_ok 3 n = true.
Proof. apply (below (pad_ok 3) 1000). by vm_compute. Qed.
Lemma pad4_ok n : 0 <= n < 10000 -> pad_ok 4 n = true.
Proof. intros H. apply (below (pad_ok 4) (Z.to_nat 10000)); [by vm_compute|lia]. Qed.

Lemma round_ms_pad n : 0 <= n < 1000 -> round_ms (padNumber (Some n) 3 false) = n.
Proof.
  intros H. apply Z.eqb_eq, (below (fun n => round_ms (padNumber (Some n) 3 false) =? n) 1000); [|lia].
  by vm_compute.
Qed.

(** What the parser needs to know of a padded number. *)
Record padded (k : nat) (n : Z) (s : jstr) : Prop := {
  pd_length : length s = k;
  pd_digits : forallb is_digit s = true;
  pd_int : int_of s = n;
  pd_plus : int_of (chr "+" :: s) = n;
  pd_minus : int_of (chr "-" :: s) = - n
}.

Lemma padded_of k n : pad_ok k n = true -> padded k n (padNumber (Some n) k false).
Proof.
  unfold pad_ok. rewrite !andb_true_iff, Nat.eqb_eq, !Z.eqb_eq. intros [[[[H1 H2] H3] H4] H5]. by constructor.
Qed.

Lemma digits_padded k n s r : padded k n s -> digits_at k (s ++ r) = Some (s, r).
Proof.
  intros [Hl Hd _ _ _]. unfold digits_at. rewrite <- Hl, take_app_length, drop_app_length.
  by rewrite Nat.eqb_refl, Hd.
Qed.

Definition iso_format : jstr := js "yyyy-MM-ddTHH:mm:ss.sssZ".

Lemma strip_first_eq c r : strip_first c (c :: r) = r.
Proof. cbn. by rewrite N.eqb_refl. Qed.

Section Zone.
Context (zone utc : Z -> Z).

(** The text of a zone reads back as its hours and minutes. *)
Lemma zone_text t : 0 <= zone t < 6000 \/ -6000 < zone t <= -60 ->
  exists c h m hz mz, timeZoneGetter zone (Some t) = c :: h ++ m /\ padded 2 hz h /\ padded 2 mz m
    /\ iso_zone_at (c :: h ++ m) = Some (Some (ZoneOffset c h m))
    /\ int_of (c :: h) * 60 + int_of (c :: m) = zone t.
Proof.
  intros Hz. unfold timeZoneGetter. set (z := zone t) in *. clearbody z.
  assert (Hgo : forall c h m, (c = chr "+" \/ c = chr "-") -> padded 2 h (padNumber (Some h) 2 false) ->
    padded 2 m (padNumber (Some m) 2 false) ->
    iso_zone_at (c :: padNumber (Some h) 2 false ++ padNumber (Some m) 2 false)
    = Some (Some (ZoneOffset c (padNumber (Some h) 2 false) (padNumber (Some m) 2 false)))).
  { intros c h m Hc Hh Hm. unfold iso_zone_at. rewrite (digits_padded 2 h) by done.
    assert (Hs : strip_first (chr ":") (padNumber (Some m) 2 false) = padNumber (Some m) 2 false).
    { destruct (padNumber (Some m) 2 false) as [|d s] eqn:E; [done|]. cbn.
      destruct (N.eqb_spec d (chr ":")) as [-> |]; [|done]. by destruct Hm as [_ Hm]. }
    pose proof (digits_padded 2 m _ [] Hm) as E. rewrite app_nil_r in E.
    rewrite Hs, E. by destruct Hc as [-> | ->]. }
  destruct (Z.ltb_spec 0 z) as [Hp|Hn].
  - rewrite (proj2 (Z.leb_le 0 z)) by lia. change (js "+") with [chr "+"]. cbn [app].
    assert (Hh : padded 2 (z / 60) (padNumber (Some (z / 60)) 2 false)).
    { apply padded_of, pad2_ok. Z.to_euclidean_division_equations. lia. }
    assert (Hm : padded 2 (Z.abs (Z.rem z 60)) (padNumber (Some (Z.abs (Z.rem z 60))) 2 false)).
    { apply padded_of, pad2_ok. Z.to_euclidean_division_equations. lia. }
    exists (chr "+"), (padNumber (Some (z / 60)) 2 false), (padNumber (Some (Z.abs (Z.rem z 60))) 2 false), (z / 60), (Z.abs (Z.rem z 60)).
    split; [done|]. split_and!; [exact Hh|exact Hm|apply Hgo; [by left|exact Hh|exact Hm]|].
    rewrite (pd_plus _ _ _ Hh), (pd_plus _ _ _ Hm). Z.to_euclidean_division_equations. lia.
  - destruct (Z.eq_dec z 0) as [->|Hz0].
    { exists (chr "+"), (padNumber (Some 0) 2 false), (padNumber (Some 0) 2 false), 0, 0.
      split_and!; [by vm_compute|by apply padded_of|by apply padded_of|by vm_compute|by vm_compute]. }
    rewrite (proj2 (Z.leb_gt 0 z)) by lia. cbn [app].
    assert (Hh : padded 2 (- z / 60) (padNumber (Some (- z / 60)) 2 false)).
    { apply padded_of, pad2_ok. Z.to_euclidean_division_equations. lia. }
    assert (Hm : padded 2 (Z.abs (Z.rem z 60)) (padNumber (Some (Z.abs (Z.rem z 60))) 2 false)).
    { apply padded_of, pad2_ok. Z.to_euclidean_division_equations. lia. }
    assert (Hneg : padNumber (Some (- (- z / 60))) 2 false = chr "-" :: padNumber (Some (- z / 60)) 2 false).
    { unfold padNumber. assert (0 < - z / 60) by (Z.to_euclidean_division_equations; lia).
      rewrite (proj2 (Z.ltb_lt (- (- z / 60)) 0)) by lia. rewrite (proj2 (Z.ltb_ge (- z / 60) 0)) by lia.
      by rewrite Z.abs_opp. }
    rewrite Hneg.
    exists (chr "-"), (padNumber (Some (- z / 60)) 2 false), (padNumber (Some (Z.abs (Z.rem z 60))) 2 false), (- z / 60), (Z.abs (Z.rem z 60)).
    split; [done|]. split_and!; [exact Hh|exact Hm|apply Hgo; [by right|exact Hh|exact Hm]|].
    rewrite (pd_minus _ _ _ Hh), (pd_minus _ _ _ Hm). Z.to_euclidean_division_equations. lia.
Qed.

(** The text of a date in [iso_format], part by part. *)
Definition iso_text (t : Z) : jstr :=
  padNumber (Some (getFullYear zone t)) 4 false ++ chr "-" ::
  padNumber (Some (getMonth zone t + 1)) 2 false ++ chr "-" ::
  padNumber (Some (getDate zone t)) 2 false ++ chr "T" ::
  padNumber (Some (getHours zone t)) 2 false ++ chr ":" ::
  padNumber (Some (getMinutes zone t)) 2 false ++ chr ":" ::
  padNumber (Some (getSeconds zone t)) 2 false ++ chr "." ::
  padNumber (Some (getMilliseconds zone t)) 3 false ++ timeZoneGetter zone (Some t).

Lemma getter_plain get size t : 0 <= get t ->
  dateGetter get size 0 false (Some t) = padNumber (Some (get t)) size false.
Proof.
  intros H. unfold dateGetter. cbv zeta.
  assert (E : (if (0 <? 0) || (- 0 <? get t) then get t + 0 else get t) = get t) by (destruct (_ || _); lia).
  rewrite E. change (0 =? -12) with false. by rewrite andb_false_r.
Qed.

Lemma getter_month size t : 0 <= getMonth zone t ->
  dateGetter (getMonth zone) size 1 false (Some t) = padNumber (Some (getMonth zone t + 1)) size false.
Proof. intros H. unfold dateGetter. cbn. by rewrite andb_false_r. Qed.

(** The ranges of the fields. *)
Lemma month_range t : 0 <= getMonth zone t <= 11.
Proof. apply (civil_of_day_ok (Day (LocalTime zone t))). Qed.

Lemma date_range t : 1 <= getDate zone t <= 31.
Proof.
  destruct (civil_of_day_ok (Day (LocalTime zone t))) as [Hm Hd]. unfold getDate.
  pose proof (month_length_pos (leap (cv_year (civil_of_day (Day (LocalTime zone t))))) _ Hm). lia.
Qed.

Lemma clock_range t :
  0 <= getHours zone t < 24 /\ 0 <= getMinutes zone t < 60 /\ 0 <= getSeconds zone t < 60
  /\ 0 <= getMilliseconds zone t < 1000.
Proof.
  unfold getHours, getMinutes, getSeconds, getMilliseconds, HourFromTime, MinFromTime, SecFromTime, msFromTime.
  split_and!; Z.to_euclidean_division_equations; lia.
Qed.

Lemma format_iso lc t :
  0 <= getFullYear zone t -> locale_format lc iso_format = None ->
  dateFilter zone utc lc (DvDate (Some t)) (Some iso_format) = Ok (FText (iso_text t)).
Proof.
  intros Hy Hlc. pose proof (month_range t) as Hm. pose proof (date_range t) as Hd.
  pose proof (clock_range t) as (Hh & Hmi & Hs & Hms).
  assert (E : match Some iso_format with Some ((_ :: _) as f) => f | _ => js "mediumDate" end = iso_format) by done.
  unfold dateFilter. cbv zeta. rewrite E, Hlc. cbn [to_Date]. clear E.
  assert (Hparts : format_parts (length iso_format) iso_format =
    [js "yyyy"; js "-"; js "MM"; js "-"; js "dd"; js "T"; js "HH"; js ":"; js "mm"; js ":"; js "ss"; js ".";
     js "sss"; js "Z"]) by by vm_compute.
  rewrite Hparts. clear Hparts.
  assert (Hfn : forall k fn, ob_get (DATE_FORMATS zone lc) k = Some fn -> part_text zone lc (Some t) k = Ok (fn (Some t))).
  { intros k fn E. unfold part_text. by rewrite E. }
  assert (Hlit : forall k, ob_get (DATE_FORMATS zone lc) k = None -> jeqb k (js "toString") = false ->
    in_object_proto k = false -> part_text zone lc (Some t) k = Ok (undouble (strip_last quote (strip_first quote k)))).
  { intros k E1 E2 E3. unfold part_text. by rewrite E1, E2, E3. }
  cbn [map_result].
  rewrite (Hfn (js "yyyy") _ eq_refl), (Hlit (js "-") eq_refl eq_refl eq_refl), (Hfn (js "MM") _ eq_refl),
    (Hfn (js "dd") _ eq_refl), (Hlit (js "T") eq_refl eq_refl eq_refl), (Hfn (js "HH") _ eq_refl),
    (Hlit (js ":") eq_refl eq_refl eq_refl), (Hfn (js "mm") _ eq_refl), (Hfn (js "ss") _ eq_refl),
    (Hlit (js ".") eq_refl eq_refl eq_refl), (Hfn (js "sss") _ eq_refl), (Hfn (js "Z") _ eq_refl).
  cbn [rbind]. do 2 f_equal. rewrite !getter_plain, getter_month by lia.
  cbn [concat]. rewrite app_nil_r. reflexivity.
Qed.

Abbreviation pad2 n := (padNumber (Some n) 2 false).

Lemma iso_fraction_pad ms c r :
  padded 3 ms (padNumber (Some ms) 3 false) -> is_digit c = false ->
  iso_fraction (chr "." :: padNumber (Some ms) 3 false ++ c :: r) = (Some (padNumber (Some ms) 3 false), c :: r).
Proof.
  intros [Hl Hd _ _ _] Hc. unfold iso_fraction. rewrite N.eqb_refl.
  rewrite span_stop; [|intros x Hx; eapply forallb_forall; [exact Hd|by apply list_elem_of_In]|done].
  by destruct (padNumber (Some ms) 3 false).
Qed.

(** The parts of the text are the groups of the regular expression. *)
Lemma match_iso t y mo d h mi s ms c zh zm :
  padded 4 y (padNumber (Some y) 4 false) -> padded 2 mo (pad2 mo) -> padded 2 d (pad2 d) -> padded 2 h (pad2 h) ->
  padded 2 mi (pad2 mi) -> padded 2 s (pad2 s) -> padded 3 ms (padNumber (Some ms) 3 false) ->
  timeZoneGetter zone (Some t) = c :: zh ++ zm -> is_digit c = false ->
  iso_zone_at (c :: zh ++ zm) = Some (Some (ZoneOffset c zh zm)) ->
  R_ISO8601_STR
    (padNumber (Some y) 4 false ++ chr "-" :: pad2 mo ++ chr "-" :: pad2 d ++ chr "T" :: pad2 h ++
     chr ":" :: pad2 mi ++ chr ":" :: pad2 s ++ chr "." :: padNumber (Some ms) 3 false ++ timeZoneGetter zone (Some t))
  = Some (Iso (padNumber (Some y) 4 false) (pad2 mo) (pad2 d)
      (Some (IsoTime (pad2 h) (Some (pad2 mi)) (Some (pad2 s)) (Some (padNumber (Some ms) 3 false)),
             Some (ZoneOffset c zh zm)))).
Proof.
  intros Hy Hmo Hd Hh Hmi Hs Hms Hz Hc Hzone. unfold R_ISO8601_STR.
  rewrite (digits_padded 4 y) by done. cbn [mbind option_bind].
  rewrite strip_first_eq, (digits_padded 2 mo) by done. cbn [mbind option_bind].
  rewrite strip_first_eq, (digits_padded 2 d) by done. cbn [mbind option_bind].
  rewrite N.eqb_refl, (digits_padded 2 h) by done. cbn [mbind option_bind]. unfold iso_clock.
  rewrite strip_first_eq, (digits_padded 2 mi) by done. rewrite strip_first_eq, (digits_padded 2 s) by done.
  rewrite Hz, iso_fraction_pad by done. by rewrite Hzone.
Qed.

(** The fields of a date make its time again, shifted by its zone. *)
Lemma rebuild t zh zm :
  zh * 60 + zm = zone t -> TimeClip t = Some t -> 0 <= getFullYear zone t <= 9999 ->
  (set_date zone utc true (getFullYear zone t) (getMonth zone t) (getDate zone t) 0 ≫=
   set_time zone utc true (getHours zone t - zh) (getMinutes zone t - zm) (getSeconds zone t) (getMilliseconds zone t))
  = Some t.
Proof.
  intros Hz Hclip Hy. unfold set_date, getFullYear, getMonth, getDate in *. rewrite MakeDay_civil.
  set (lt := LocalTime zone t) in *.
  assert (Hd : -719528 <= Day lt < 2932897).
  { pose proof (year_of_day_spec (Day lt)) as [H1 H2]. unfold civil_of_day in Hy. cbn [cv_year] in Hy.
    pose proof (DayFromYear_le 0 (year_of_day (Day lt))). pose proof (DayFromYear_le (year_of_day (Day lt) + 1) 10000).
    change (DayFromYear 0) with (-719528) in *. change (DayFromYear 10000) with 2932897 in *. lia. }
  assert (H1 : TimeClip (MakeDate (Day lt) (TimeWithinDay 0)) = Some (MakeDate (Day lt) 0)).
  { unfold TimeClip, MakeDate, TimeWithinDay, msPerDay in *. change (0 mod 86400000) with 0.
    rewrite (proj2 (Z.leb_le _ _)); [done|]. lia. }
  rewrite H1. cbn [mbind option_bind]. unfold set_time.
  assert (H2 : Day (MakeDate (Day lt) 0) = Day lt).
  { unfold MakeDate. rewrite Z.add_0_r. unfold Day at 1. by rewrite Z.div_mul. }
  rewrite H2.
  assert (H3 : MakeDate (Day lt) (MakeTime (getHours zone t - zh) (getMinutes zone t - zm) (getSeconds zone t)
    (getMilliseconds zone t)) = t).
  { pose proof (time_fields lt) as Hf. unfold MakeDate, MakeTime in *. unfold getHours, getMinutes, getSeconds, getMilliseconds.
    fold lt. unfold lt at 6 in Hf. unfold LocalTime in Hf. lia. }
  by rewrite H3.
Qed.

(** C13: a date of the years 0 to 9999, in any zone of whole minutes but those less than an
    hour west of UTC, printed with the format "yyyy-MM-ddTHH:mm:ss.sssZ" is read back by the
    filter as the same date. *)
Theorem date_roundtrip lc t :
  TimeClip t = Some t -> 0 <= getFullYear zone t <= 9999 ->
  0 <= zone t < 6000 \/ -6000 < zone t <= -60 -> locale_format lc iso_format = None ->
  exists s, dateFilter zone utc lc (DvDate (Some t)) (Some iso_format) = Ok (FText s)
    /\ to_Date zone utc (DvString s) = Some (Some t).
Proof.
  intros Hclip Hy Hz Hlc. exists (iso_text t). split; [apply format_iso; [lia|done]|].
  pose proof (month_range t) as Hm. pose proof (date_range t) as Hd. pose proof (clock_range t) as (Hh & Hmi & Hs & Hms).
  pose proof (padded_of _ _ (pad4_ok (getFullYear zone t) ltac:(lia))) as Py.
  pose proof (padded_of _ _ (pad2_ok (getMonth zone t + 1) ltac:(lia))) as Pm.
  pose proof (padded_of _ _ (pad2_ok (getDate zone t) ltac:(lia))) as Pd.
  pose proof (padded_of _ _ (pad2_ok (getHours zone t) ltac:(lia))) as Ph.
  pose proof (padded_of _ _ (pad2_ok (getMinutes zone t) ltac:(lia))) as Pmi.
  pose proof (padded_of _ _ (pad2_ok (getSeconds zone t) ltac:(lia))) as Ps.
  pose proof (padded_of _ _ (pad3_ok (getMilliseconds zone t) ltac:(lia))) as Pms.
  destruct (zone_text t Hz) as (c & h & m & zh & zm & Ez & Hzh & Hzm & Hat & Hsum).
  assert (Hc : is_digit c = false).
  { unfold iso_zone_at in Hat. destruct (N.eqb_spec c (chr "Z")) as [-> |]; [done|].
    destruct (N.eqb_spec c (chr "+")) as [-> |]; [done|]. by destruct (N.eqb_spec c (chr "-")) as [-> |]. }
  unfold to_Date.
  assert (Hns : NUMBER_STRING (iso_text t) = false).
  { unfold NUMBER_STRING, iso_text. apply andb_false_iff. right. destruct Py as [Hl Hdg _ _ _].
    destruct (padNumber (Some (getFullYear zone t)) 4 false) as [|y1 ys]; [done|]. cbn [app strip_first].
    cbn [forallb] in Hdg. apply andb_true_iff in Hdg as [Hy1 _].
    destruct (N.eqb_spec y1 (chr "-")) as [-> |]; [done|]. cbn [forallb]. rewrite forallb_app. cbn [forallb].
    change (is_digit (chr "-")) with false. by rewrite !andb_false_r. }
  rewrite Hns. unfold jsonStringToDate, iso_text.
  rewrite (match_iso t _ _ _ _ _ _ _ c h m Py Pm Pd Ph Pmi Ps Pms Ez Hc Hat).
  cbn [is_time mbind option_bind snd is_y is_m is_d it_h it_m it_s it_frac default].
  unfold default, id. rewrite (pd_int _ _ _ Py), (pd_int _ _ _ Pm), (pd_int _ _ _ Pd), (pd_int _ _ _ Ph),
    (pd_int _ _ _ Pmi), (pd_int _ _ _ Ps), round_ms_pad by lia.
  replace (getMonth zone t + 1 - 1) with (getMonth zone t) by lia. f_equal. by apply rebuild.
Qed.
End Zone.

Lemma date_roundtrip_witness :
  exists s, dateFilter (fun _ => -210) (fun t => t) en_us (DvDate (Some 1288323623006)) (Some iso_format) = Ok (FText s)
    /\ to_Date (fun _ => -210) (fun t => t) (DvString s) = Some (Some 1288323623006).
Proof. apply date_roundtrip; [by vm_compute|by vm_compute|right; lia|by vm_compute]. Defined.

(** Half an hour west of UTC, the sign of the zone is lost and the date is not read back. *)
Example zone_sign_lost :
  timeZoneGetter (fun _ => -30) (Some 0) = js "0030"
  /\ timeZoneGetter (fun _ => -90) (Some 0) = js "-0130".
Proof. by vm_compute. Qed.
