(* ===== verification/Browser.v ===== *)
(** * The $browser service (angular.js, Browser)

    The window is represented by its URL and its session history; the serialization the
    window applies to a URL it is given is the parameter [normalize]. *)

From S2P Require Import Prelude JsString JsObject JsNumber UriCodec Json.

Record browser : Type := Browser {
  br_history_api : bool;          (** [$sniffer.history] *)
  br_href : jstr;                 (** [window.location.href] *)
  br_stack : list jstr;           (** the entries of the session history before this one *)
  br_last : jstr;                 (** [lastBrowserUrl] *)
  br_new : option jstr;           (** [newLocation] *)
  br_outstanding : Z;             (** [outstandingRequestCount] *)
  br_callbacks : list nat;        (** [outstandingRequestCallbacks], by name *)
  br_pending : list nat;          (** [pendingDeferIds] *)
  br_next_timer : nat             (** the id [setTimeout] gives next *)
}.

Definition with_url (href : jstr) (stack : list jstr) (last : jstr) (new : option jstr) (b : browser) : browser :=
  Browser (br_history_api b) href stack last new (br_outstanding b) (br_callbacks b) (br_pending b)
    (br_next_timer b).

Section Url.
Context (normalize : jstr -> jstr).

(** [self.url()]. *)
Definition get_url (b : browser) : jstr :=
  match br_new b with
  | Some ((_ :: _) as u) => u
  | _ => replace_pct (pct_exact "27") (js "'") (br_href b)
  end.

(** [self.url(url, replace)] for a URL that is not empty. *)
Definition set_url (url : jstr) (replace : bool) (b : browser) : browser :=
  if jeqb (br_last b) url then b
  else
    let stack := if replace then br_stack b else br_stack b ++ [br_href b] in
    with_url (normalize url) stack url (if br_history_api b then br_new b else Some url) b.

(** [fireUrlChange]: whether the listeners are called, with [self.url()]. *)
Definition fireUrlChange (b : browser) : browser * option jstr :=
  let b := with_url (br_href b) (br_stack b) (br_last b) None b in
  if jeqb (br_last b) (get_url b) then (b, None)
  else (with_url (br_href b) (br_stack b) (get_url b) None b, Some (get_url b)).

End Url.

(** ** Outstanding requests *)

Definition with_requests (n : Z) (cbs pending : list nat) (next : nat) (b : browser) : browser :=
  Browser (br_history_api b) (br_href b) (br_stack b) (br_last b) (br_new b) n cbs pending next.

(** The count is decreased whatever the function does; at 0 the callbacks are popped and
    called, the last registered first. *)
Definition completeOutstandingRequest (b : browser) : browser * list nat :=
  let n := (br_outstanding b - 1)%Z in
  if Z.eqb n 0 then (with_requests n [] (br_pending b) (br_next_timer b) b, rev (br_callbacks b))
  else (with_requests n (br_callbacks b) (br_pending b) (br_next_timer b) b, []).

Definition incOutstandingRequestCount (b : browser) : browser :=
  with_requests (br_outstanding b + 1) (br_callbacks b) (br_pending b) (br_next_timer b) b.

Definition notifyWhenNoOutstandingRequests (cb : nat) (b : browser) : browser * list nat :=
  if Z.eqb (br_outstanding b) 0 then (b, [cb])
  else (with_requests (br_outstanding b) (br_callbacks b ++ [cb]) (br_pending b) (br_next_timer b) b, []).

(** [self.defer]. *)
Definition defer (b : browser) : browser * nat :=
  let id := br_next_timer b in
  (with_requests (br_outstanding b + 1) (br_callbacks b) (id :: br_pending b) (S id) b, id).

Definition forget (id : nat) (l : list nat) : list nat := filter (fun i => i <> id) l.

(** The timer of a pending id fires. *)
Definition timer_fires (id : nat) (b : browser) : browser * list nat :=
  completeOutstandingRequest
    (with_requests (br_outstanding b) (br_callbacks b) (forget id (br_pending b)) (br_next_timer b) b).

(** [self.defer.cancel]. *)
Definition defer_cancel (id : nat) (b : browser) : browser * list nat * bool :=
  if decide (id ∈ br_pending b) then (timer_fires id b, true) else (b, [], false).

(** ** The base and the cookies *)

Definition skip_lit (p : lit) (s : jstr) : option jstr :=
  if starts_with (js p) s then Some (drop (length (js p)) s) else None.

Arguments skip_lit p%_string_scope s.

(** [href] without its scheme and host. *)
Definition baseHref (href : option jstr) : jstr :=
  match href with
  | None | Some [] => []
  | Some h =>
      match skip_lit "https://" h, skip_lit "http://" h, skip_lit "//" h with
      | Some r, _, _ | _, Some r, _ | _, _, Some r => (span (fun c => negb (c =? chr "/")%N) r).2
      | _, _, _ => h
      end
  end.

Section Cookies.
(** [unescape] of the language's annex. *)
Context (unescape : jstr -> jstr).

(** The cookies of one [name=value] text. *)
Definition add_cookie (last : jsobj jstr) (cookie : jstr) : jsobj jstr :=
  match indexOf cookie (js "=") with
  | Some (S _ as i) =>
      let name := unescape (take i cookie) in
      if in_object_proto name then last
      else match ob_get last name with
           | None => ob_set last name (unescape (drop (i + 1) cookie))
           | Some _ => last
           end
  | _ => last
  end.

(** [s.split("; ")]. *)
Fixpoint split_cookies (s : jstr) : list jstr :=
  match s with
  | [] => [[]]
  | c :: s' =>
      match s' with
      | d :: r => if (c =? chr ";")%N && (d =? chr " ")%N then [] :: split_cookies r
                  else match split_cookies s' with w :: ws => (c :: w) :: ws | [] => [[c]] end
      | [] => [[c]]
      end
  end.

Definition read_cookies (text : jstr) : jsobj jstr := fold_left add_cookie (split_cookies text) [].

End Cookies.

Example browser_ex :
  read_cookies id (js "a=1; b=x=y; =z; a=2; c") = [(js "a", js "1"); (js "b", js "x=y")]
  /\ baseHref (Some (js "http://h:1/app/")) = js "/app/" /\ baseHref (Some (js "/x/")) = js "/x/".
Proof. by vm_compute. Qed.
