(* ===== verification/Route.v ===== *)
(** * The ngRoute module (angular-route.js) and the routes of the console
    (angular.configuration.js)

    Routes are kept by name; a pattern is compiled to the pieces of the regular expression
    the code builds, matched with the backtracking order of the language.  The option
    [caseInsensitiveMatch] is left out, and so are patterns that contain a character the
    regular expression would give a meaning to: [compile] gives [None] for these. *)

From S2P Require Import Prelude JsString JsObject JsNumber UriCodec Json Query Location.
Local Open Scope handler_scope.

(** ** Patterns *)

(** A literal unit, or a key: whether its group takes the slash before it, and its option. *)
Inductive key_option : Type := KeyPlain | KeyOptional | KeyStar.
Inductive piece : Type :=
| PChr (c : unit16)
| PKey (slash : bool) (opt : key_option) (name : jstr).

(** The class of word units [\w]. *)
Definition is_word (c : unit16) : bool :=
  (is_digit c || ((65 <=? c)%N && (c <=? 90)%N) || ((97 <=? c)%N && (c <=? 122)%N) || (c =? chr "_")%N).

(** The units left active in the regular expression. *)
Definition regexp_active (c : unit16) : bool :=
  bool_decide (c ∈ js "\^|+?[{").

(** A key at the start of the text after its colon: name, option, rest. *)
Definition scan_key (s : jstr) : option (jstr * key_option * jstr) :=
  match span is_word s with
  | ([], _) => None
  | (name, r) =>
      match r with
      | c :: r' =>
          if (c =? chr "?")%N then Some (name, KeyOptional, r')
          else if (c =? chr "*")%N then Some (name, KeyStar, r')
          else Some (name, KeyPlain, r)
      | [] => Some (name, KeyPlain, [])
      end
  end.

Fixpoint compile_fuel (fuel : nat) (s : jstr) : option (list piece) :=
  match fuel, s with
  | _, [] => Some []
  | 0, _ => None
  | S fuel', c :: s' =>
      let literal := if regexp_active c then None else cons (PChr c) <$> compile_fuel fuel' s' in
      let key slash r :=
        match scan_key r with
        | Some (name, opt, rest) => Some (cons (PKey slash opt name) <$> compile_fuel fuel' rest)
        | None => None
        end in
      if (c =? chr "/")%N then
        match s' with
        | d :: r => if (d =? chr ":")%N then default literal (key true r) else literal
        | [] => literal
        end
      else if (c =? chr ":")%N then default literal (key false s')
      else literal
  end.
Definition compile (path : jstr) : option (list piece) := compile_fuel (length path) path.

(** [keys]: the names of the groups, in order. *)
Fixpoint keys_of (ps : list piece) : list jstr :=
  match ps with
  | [] => []
  | PChr _ :: ps' => keys_of ps'
  | PKey _ _ name :: ps' => name :: keys_of ps'
  end.

(** ** Matching *)

Fixpoint first_some {A B} (f : A -> option B) (l : list A) : option B :=
  match l with
  | [] => None
  | x :: l' => match f x with Some b => Some b | None => first_some f l' end
  end.

(** The lengths a group tries: longest first for a segment, shortest first for a star. *)
Definition group_lengths (opt : key_option) (s : jstr) : list nat :=
  match opt with
  | KeyStar => seq 1 (length (span (fun c => negb (line_end c)) s).1)
  | _ => rev (seq 1 (length (span (fun c => negb (c =? chr "/")%N) s).1))
  end.

(** The whole text against the pieces; one capture per key. *)
Fixpoint exec (ps : list piece) (s : jstr) : option (list (option jstr)) :=
  match ps with
  | [] => match s with [] => Some [] | _ => None end
  | PChr c :: ps' =>
      match s with
      | d :: s' => if (d =? c)%N then exec ps' s' else None
      | [] => None
      end
  | PKey slash opt _ :: ps' =>
      let group t := first_some (fun n => cons (Some (take n t)) <$> exec ps' (drop n t)) (group_lengths opt t) in
      let after_slash (k : jstr -> option (list (option jstr))) :=
        if slash then match s with
                      | d :: s' => if (d =? chr "/")%N then k s' else None
                      | [] => None
                      end
        else k s in
      match opt with
      | KeyPlain | KeyStar => after_slash group
      | KeyOptional =>
          match after_slash (fun t => match group t with
                                      | Some m => Some m
                                      | None => cons None <$> exec ps' t
                                      end) with
          | Some m => Some m
          | None => cons None <$> exec ps' s
          end
      end
  end.

(** ** The table of routes *)

Inductive redirect : Type :=
| RedirectTo (path : jstr)
| RedirectFn (f : jsobj qval -> jstr -> jsobj qval -> jstr).

(** What a route is declared with; [resolve] names its promises, [template] and the rest are
    what the view is loaded from. *)
Record route_def : Type := RouteDef {
  rd_templateUrl : option jstr; rd_controller : option jstr;
  rd_redirectTo : option redirect; rd_reloadOnSearch : bool
}.

Record route : Type := Route { rt_def : route_def; rt_regexp : option (list piece) }.

Definition redirect_route (path : jstr) : route_def := RouteDef None None (Some (RedirectTo path)) false.

Definition route_key (path : option jstr) : jstr := default (js "null") path.

(** The same path with its trailing slash removed or added. *)
Definition redirect_path (path : jstr) : jstr :=
  match rev path with
  | c :: r => if (c =? chr "/")%N then rev r else path ++ js "/"
  | [] => js "/"
  end.

Definition nonempty (path : option jstr) : option jstr :=
  match path with Some (_ :: _) => path | _ => None end.

Definition when (routes : jsobj route) (path : option jstr) (def : route_def) : jsobj route :=
  let routes := ob_set routes (route_key path) (Route def (nonempty path ≫= compile)) in
  match nonempty path with
  | Some p =>
      ob_set routes (redirect_path p) (Route (redirect_route p) (compile (redirect_path p)))
  | None => routes
  end.

Definition otherwise (routes : jsobj route) (def : route_def) : jsobj route := when routes None def.

(** [params[key.name] = val] for the captures that are not empty. *)
Fixpoint bind_params (keys : list jstr) (m : list (option jstr)) (params : jsobj qval)
    : result js_error (jsobj qval) :=
  match m, keys with
  | [], _ => Ok params
  | c :: m', keys =>
      rbind (match c with Some v => rbind (of_uri (decodeURIComponent v)) (fun d => Ok (Some d)) | None => Ok None end)
        (fun val =>
          bind_params (tail keys) m'
            match head keys, val with
            | Some k, Some ((_ :: _) as v) => q_write params k (QStr v)
            | _, _ => params
            end)
  end.

Definition switchRouteMatcher (on : jstr) (r : route) : result js_error (option (jsobj qval)) :=
  match rt_regexp r with
  | None => Ok None
  | Some ps =>
      match exec ps on with
      | None => Ok None
      | Some m => rbind (bind_params (keys_of ps) m []) (fun params => Ok (Some params))
      end
  end.

(** A match: an object that inherits from its route. [mt_route] is [$$route], by name. *)
Record route_match : Type := RouteMatch {
  mt_id : nat; mt_def : route_def; mt_route : option jstr;
  mt_params : jsobj qval; mt_pathParams : jsobj qval
}.

(** [angular.extend({}, a, b)]. *)
Definition extend (a b : jsobj qval) : jsobj qval :=
  fold_left (fun o k => q_write o k (default QUndef (ob_get b k))) (enum_names b)
    (fold_left (fun o k => q_write o k (default QUndef (ob_get a k))) (enum_names a) []).

(** The routes in their order; the matcher stops being run at the first match. *)
Fixpoint find_route (routes : jsobj route) (names : list jstr) (path : jstr)
    : result js_error (option (jstr * route * jsobj qval)) :=
  match names with
  | [] => Ok None
  | n :: names' =>
      match ob_get routes n with
      | None => find_route routes names' path
      | Some r =>
          rbind (switchRouteMatcher path r) (fun m =>
            match m with
            | Some params => Ok (Some (n, r, params))
            | None => find_route routes names' path
            end)
      end
  end.

(** [parseRoute], with the identity of the object it creates. *)
Definition parseRoute (routes : jsobj route) (id : nat) (path : jstr) (search : jsobj qval)
    : result js_error (option route_match) :=
  rbind (find_route routes (enum_names routes) path) (fun found =>
    Ok match found with
       | Some (n, r, params) => Some (RouteMatch id (rt_def r) (Some n) (extend search params) params)
       | None =>
           match ob_get routes (js "null") with
           | Some r => Some (RouteMatch id (rt_def r) None [] [])
           | None => None
           end
       end).

(** The first run of word units of a segment, and what follows it on the line. *)
Definition segment_match (s : jstr) : option (jstr * jstr) :=
  match span is_word (span (fun c => negb (is_word c)) s).2 with
  | ([], _) => None
  | (key, r) => Some (key, (span (fun c => negb (line_end c)) r).1)
  end.

Fixpoint interpolate_segments (segs : list jstr) (params : jsobj qval)
    : result js_error (jstr * jsobj qval) :=
  match segs with
  | [] => Ok ([], params)
  | seg :: segs' =>
      match segment_match seg with
      | None => Throw JsTypeError
      | Some (key, after) =>
          let v := match q_read params key with QUndef => [] | v => q_text v end in
          rbind (interpolate_segments segs' (ob_delete params key)) (fun '(text, ps) =>
            Ok (v ++ after ++ text, ps))
      end
  end.

(** [interpolate]: the text, and the parameters it did not use. *)
Definition interpolate (string : jstr) (params : jsobj qval) : result js_error (jstr * jsobj qval) :=
  match split (chr ":") string with
  | first :: segs => rbind (interpolate_segments segs params) (fun '(text, ps) => Ok (first ++ text, ps))
  | [] => Ok ([], params)
  end.

(** ** The service *)

Inductive route_event : Type :=
| RouteUpdate (last : route_match)
| RouteChangeStart (next last : option route_match)
| RouteChangeSuccess (next last : option route_match)
| RouteChangeError (next last : option route_match).

Record router : Type := Router {
  ro_routes : jsobj route;
  ro_loc : location;
  ro_current : option route_match;
  ro_routeParams : jsobj qval;
  ro_forceReload : bool;
  ro_next_id : nat;
  ro_loading : list (option route_match * option route_match);   (** started, not settled *)
  ro_events : list route_event
}.

Definition ro_with (loc : location) (cur : option route_match) (ps : jsobj qval) (force : bool)
    (ld : list (option route_match * option route_match)) (evs : list route_event) (r : router) : router :=
  Router (ro_routes r) loc cur ps force (ro_next_id r) ld evs.

(** [$broadcast] on the root scope: no listener of the console changes the router. *)
Definition broadcast (e : route_event) (r : router) : router :=
  ro_with (ro_loc r) (ro_current r) (ro_routeParams r) (ro_forceReload r) (ro_loading r)
    (ro_events r ++ [e]) r.
Definition set_current (m : option route_match) (r : router) : router :=
  ro_with (ro_loc r) m (ro_routeParams r) (ro_forceReload r) (ro_loading r) (ro_events r) r.
Definition set_routeParams (ps : jsobj qval) (r : router) : router :=
  ro_with (ro_loc r) (ro_current r) ps (ro_forceReload r) (ro_loading r) (ro_events r) r.
Definition set_forceReload (b : bool) (r : router) : router :=
  ro_with (ro_loc r) (ro_current r) (ro_routeParams r) b (ro_loading r) (ro_events r) r.
Definition set_loc (l : location) (r : router) : router :=
  ro_with l (ro_current r) (ro_routeParams r) (ro_forceReload r) (ro_loading r) (ro_events r) r.
Definition set_loading (f : list (option route_match * option route_match) -> _) (r : router) : router :=
  ro_with (ro_loc r) (ro_current r) (ro_routeParams r) (ro_forceReload r) (f (ro_loading r)) (ro_events r) r.

(** Run a method of [$location]. *)
Definition with_location {A} (m : L A) : handler router A := fun r =>
  match m (ro_loc r) with (res, l) => (res, set_loc l r) end.

(** A new match object for the present location. *)
Definition new_match : handler router (option route_match) := fun r =>
  (parseRoute (ro_routes r) (ro_next_id r) (loc_path (ro_loc r)) (loc_search (ro_loc r)),
   Router (ro_routes r) (ro_loc r) (ro_current r) (ro_routeParams r) (ro_forceReload r)
     (S (ro_next_id r)) (ro_loading r) (ro_events r)).

(** [angular.equals] on the path parameters. *)
Definition same_params (a b : jsobj qval) : bool :=
  forallb (fun k => match ob_get b k, ob_get a k with
                    | Some (QStr x), Some (QStr y) => jeqb x y
                    | _, _ => false
                    end) (ob_names a)
  && forallb (fun k => ob_has a k) (ob_names b).

Definition same_route (a b : option jstr) : bool := bool_decide (a = b).

Definition with_params (ps : jsobj qval) (m : route_match) : route_match :=
  RouteMatch (mt_id m) (mt_def m) (mt_route m) ps (mt_pathParams m).

(** The redirection of a match; gives the match with the parameters left. *)
Definition follow_redirect (mode : location_mode) (next : route_match) : handler router route_match :=
  match rd_redirectTo (mt_def next) with
  | None => hret next
  | Some (RedirectTo path) =>
      r <- hlift (interpolate path (mt_params next)) ;;
      with_location (set_loc_path mode r.1) ;;;
      with_location (set_search mode (SearchObject r.2)) ;;;
      with_location set_loc_replace ;;;
      hret (with_params r.2 next)
  | Some (RedirectFn f) =>
      l <- hgets ro_loc ;;
      with_location (set_loc_url mode (f (mt_pathParams next) (loc_path l) (loc_search l))) ;;;
      with_location set_loc_replace ;;;
      hret next
  end.

(** The new parameters of the same route. *)
Definition update_params (n l : route_match) : handler router unit :=
  let l' := with_params (mt_params n) l in
  hmodify (set_current (Some l')) ;;;
  hmodify (set_routeParams (mt_params n)) ;;;
  hmodify (broadcast (RouteUpdate l')).

(** Another route: it becomes the current one, and its view starts to load. *)
Definition change_route (mode : location_mode) (next last : option route_match) : handler router unit :=
  hmodify (set_forceReload false) ;;;
  hmodify (broadcast (RouteChangeStart next last)) ;;;
  hmodify (set_current next) ;;;
  match next with
  | Some n =>
      n' <- follow_redirect mode n ;;
      hmodify (set_current (Some n')) ;;;
      hmodify (set_loading (fun ld => ld ++ [(Some n', last)]))
  | None => hmodify (set_loading (fun ld => ld ++ [(None, last)]))
  end.

Definition params_only (n l : route_match) (force : bool) : bool :=
  same_route (mt_route n) (mt_route l) && same_params (mt_pathParams n) (mt_pathParams l)
  && negb (rd_reloadOnSearch (mt_def n)) && negb force.

(** [updateRoute], up to the promise that loads the view; see [loaded] below. *)
Definition updateRoute (mode : location_mode) : handler router unit :=
  next <- new_match ;;
  last <- hgets ro_current ;;
  force <- hgets ro_forceReload ;;
  match next, last with
  | Some n, Some l => if params_only n l force then update_params n l else change_route mode next last
  | None, None => hret tt
  | _, _ => change_route mode next last
  end.

(** [$route.reload]: the update itself is queued with [$evalAsync]. *)
Definition reload : handler router unit := hmodify (set_forceReload true).

(** [next == $route.current]: the same object, or none. *)
Definition is_current (next : option route_match) (r : router) : bool :=
  bool_decide (mt_id <$> next = mt_id <$> ro_current r).

(** The view of the [i]th started change is loaded, or its loading fails. *)
Definition loaded (i : nat) (ok : bool) (r : router) : router :=
  match ro_loading r !! i with
  | None => r
  | Some (next, last) =>
      let r := set_loading (fun ld => delete i ld) r in
      if is_current next r then
        if ok then
          broadcast (RouteChangeSuccess next last)
            (match next with Some n => set_routeParams (mt_params n) r | None => r end)
        else broadcast (RouteChangeError next last) r
      else r
  end.

(** ** The routes of the console *)

Definition page_route (page : lit) : jstr * route_def :=
  (js "/" ++ js page,
   RouteDef (Some (js "pages/" ++ js page ++ js ".html")) (Some (js page ++ js "Controller")) None true).
Arguments page_route page%_string_scope.

Definition console_pages : list (jstr * route_def) :=
  [page_route "home"; page_route "workers"; page_route "search"; page_route "resources"].

Definition console_routes : jsobj route :=
  otherwise (fold_left (fun rs p => when rs (Some p.1) p.2) console_pages [])
    (RouteDef None None (Some (RedirectTo (js "/home"))) true).

Example parseRoute_ex :
  match compile (js "/Book/:bookId/ch/:chapterId?") with
  | Some ps => exec ps (js "/Book/Moby/ch/1") = Some [Some (js "Moby"); Some (js "1")]
               /\ exec ps (js "/Book/Moby/ch") = Some [Some (js "Moby"); None]
               /\ exec ps (js "/Book/Mo/by/ch") = None
  | None => False
  end
  /\ (match compile (js "/color/:color/largecode/:largecode*/edit") with
      | Some ps => exec ps (js "/color/brown/largecode/code/with/slashes/edit")
                   = Some [Some (js "brown"); Some (js "code/with/slashes")]
      | None => False
      end)
  /\ interpolate (js "/a/:x/b/:y") [(js "x", QStr (js "1")); (js "z", QTrue); (js "y", QStr (js "2"))]
     = Ok (js "/a/1/b/2", [(js "z", QTrue)]).
Proof. by vm_compute. Qed.
