(* ===== verification/RouteFacts.v ===== *)
(** * What ngRoute guarantees: matching of patterns, and navigation in the console *)

From S2P Require Import Prelude JsString JsObject JsNumber UriCodec Json Query Location LocationFacts Route.
Local Open Scope handler_scope.

(** ** Literal patterns *)

Lemma exec_literal s p : exec (map PChr s) p = if jeqb p s then Some [] else None.
Proof.
  revert p. induction s as [|c s IH]; intros p; cbn [map exec].
  - by destruct p.
  - destruct p as [|d p]; [done|]. destruct (N.eqb_spec d c) as [-> |Hne].
    + rewrite IH. unfold jeqb. destruct (decide (p = s)) as [-> |Hp].
      * by rewrite !bool_decide_eq_true_2.
      * rewrite !bool_decide_eq_false_2; congruence.
    + unfold jeqb. rewrite bool_decide_eq_false_2; congruence.
Qed.

(** A table whose patterns are their own names; [null] has none. *)
Definition literal_entry (routes : jsobj route) (n : jstr) : Prop :=
  exists r, ob_get routes n = Some r /\
    rt_regexp r = if jeqb n (js "null") then None else Some (map PChr n).

Lemma find_literal routes names path :
  Forall (literal_entry routes) names ->
  find_route routes names path =
    Ok (if bool_decide (path ∈ names) && negb (jeqb path (js "null"))
        then (fun r => (path, r, [])) <$> ob_get routes path else None).
Proof.
  induction 1 as [|n names (r & Hr & Hx) Hn IH]; cbn [find_route]; [done|].
  rewrite Hr. unfold switchRouteMatcher. rewrite Hx.
  destruct (jeqb n (js "null")) eqn:En.
  - cbn [rbind]. rewrite IH. f_equal. apply jeqb_true in En as ->.
    destruct (jeqb path (js "null")) eqn:Ep; [by rewrite !andb_false_r|]. apply jeqb_false in Ep.
    rewrite !andb_true_r. rewrite (bool_decide_ext (path ∈ js "null" :: names) (path ∈ names)); [done|].
    rewrite elem_of_cons. split; [intros [?|?]; [congruence|done]|by right].
  - rewrite exec_literal. destruct (jeqb path n) eqn:Ep.
    + apply jeqb_true in Ep as ->. rewrite bool_decide_eq_true_2 by by left. rewrite En. cbn.
      by rewrite Hr.
    + cbn [rbind]. rewrite IH. apply jeqb_false in Ep.
      rewrite (bool_decide_ext (path ∈ n :: names) (path ∈ names)); [done|].
      rewrite elem_of_cons. split; [intros [?|?]; [congruence|done]|by right].
Qed.

(** ** Where the console goes for a path *)

(** The page a path leads to, and whether the query survives. *)
Definition console_target (path : jstr) : jstr * bool :=
  match find (fun p => jeqb path p.1 || jeqb path (p.1 ++ js "/")) console_pages with
  | Some p => (p.1, true)
  | None => (js "/home", false)
  end.

Definition home_redirect : route_def := RouteDef None None (Some (RedirectTo (js "/home"))) true.

Lemma console_table path :
  find_route console_routes (enum_names console_routes) path =
    Ok (if bool_decide (path ∈ enum_names console_routes) && negb (jeqb path (js "null"))
        then (fun r => (path, r, [])) <$> ob_get console_routes path else None).
Proof.
  apply find_literal.
  repeat (apply Forall_cons; split; [eexists; split; by vm_compute|]). by apply Forall_nil.
Qed.

Lemma console_parseRoute id path search :
  parseRoute console_routes id path search = Ok (Some
    match find (fun p => jeqb path p.1) console_pages with
    | Some p => RouteMatch id p.2 (Some path) (extend search []) []
    | None =>
        match find (fun p => jeqb path (p.1 ++ js "/")) console_pages with
        | Some p => RouteMatch id (redirect_route p.1) (Some path) (extend search []) []
        | None => RouteMatch id home_redirect None [] []
        end
    end).
Proof.
  unfold parseRoute. rewrite console_table. cbn [rbind]. do 2 f_equal.
  destruct (bool_decide_reflect (path ∈ enum_names console_routes)) as [Hin|Hn].
  - assert (He : enum_names console_routes =
      [js "/home"; js "/home/"; js "/workers"; js "/workers/"; js "/search"; js "/search/";
       js "/resources"; js "/resources/"; js "null"]) by by vm_compute.
    rewrite He in Hin. rewrite !elem_of_cons in Hin.
    destruct_or! Hin; try (subst path; reflexivity). by apply elem_of_nil in Hin.
  - cbn [andb].
    assert (Hne : forall n, n ∈ enum_names console_routes -> jeqb path n = false).
    { intros n H. apply jeqb_false. intros ->. done. }
    unfold console_pages, find. cbn [fst snd page_route].
    rewrite !Hne by (apply (bool_decide_unpack _); by vm_compute). reflexivity.
Qed.

(** ** Navigation *)

Lemma compose_ok mode l :
  js_text (loc_path l) -> q_object (loc_search l) -> ob_get (loc_search l) (js "forEach") = None ->
  js_text (loc_hash l) ->
  exists u, compose_url l = Ok u /\ compose mode l = (Ok tt, with_urls u (abs_url mode u) l).
Proof.
  intros Hp Hq Hf Hh. destruct (encodePath_ok _ Hp) as (e & He & _).
  destruct (toKeyValue_spec _ Hq Hf) as (q & Hs & _).
  destruct (encodeUriSegment_ok _ (proj2 Hh)) as [h Hhe].
  unfold compose, compose_url, hbind, hgets, hlift, hmodify, id. rewrite Hs, He, Hhe.
  destruct (truthy (loc_hash l)); cbn; eauto.
Qed.

(** A location whose URLs have been composed. *)
Definition composed (mode : location_mode) (l : location) : Prop :=
  compose_url l = Ok (loc_url l) /\ loc_absUrl l = abs_url mode (loc_url l).

Lemma write_all (f : jstr -> qval) ks (o : jsobj qval) :
  NoDup ks -> (forall k, k ∈ ks -> k <> js "__proto__" /\ ob_get o k = None) ->
  fold_left (fun o k => q_write o k (f k)) ks o = o ++ map (fun k => (k, f k)) ks.
Proof.
  revert o. induction ks as [|k ks IH]; intros o Hnd Hks; cbn [fold_left map].
  { by rewrite app_nil_r. }
  apply NoDup_cons in Hnd as [Hk Hnd]. destruct (Hks k) as [Hp Hg]; [by left|].
  unfold q_write at 2. apply jeqb_false in Hp. rewrite Hp.
  rewrite ob_names_set_new by done. rewrite IH; [by rewrite <- app_assoc|done|].
  intros k' Hk'. destruct (Hks k') as [Hp' Hg']; [by right|]. split; [done|].
  rewrite <- ob_names_set_new by done. rewrite ob_get_set_ne; [done|]. by intros ->.
Qed.

Lemma extend_nil s : q_object s -> extend s [] = ob_select s (enum_names s).
Proof.
  intros [Hwf Hobj]. unfold extend. cbn [enum_names fold_left ob_names map].
  change (enum_names []) with (@nil jstr). cbn [fold_left]. rewrite write_all; [done| |].
  - by rewrite enum_names_perm.
  - intros k Hk. rewrite enum_names_perm in Hk. apply ob_get_names in Hk as [v Hv%ob_get_elem].
    rewrite Forall_forall in Hobj. destruct (Hobj _ Hv) as [(_ & _ & Hp) _]. split; [|done].
    intros ->. done.
Qed.

(** A query [$location] can always print. *)
Definition query_ok (s : jsobj qval) : Prop := q_object s /\ ob_get s (js "forEach") = None.

Lemma query_ok_nil : query_ok [].
Proof. split; [split; [apply NoDup_nil_2|constructor]|done]. Qed.

Lemma query_ok_extend s : query_ok s -> query_ok (extend s []).
Proof.
  intros [Hq Hf]. rewrite extend_nil by done. split; [by apply q_object_select|].
  by rewrite ob_get_select_all.
Qed.

Lemma page_cases p : p ∈ console_pages ->
  p = page_route "home" \/ p = page_route "workers" \/ p = page_route "search" \/ p = page_route "resources".
Proof.
  unfold console_pages. rewrite !elem_of_cons. intros H. destruct_or! H; auto. by apply elem_of_nil in H.
Qed.

(** Case on the page [Hp] is about. *)
Ltac each_page Hp := apply page_cases in Hp as [-> | [-> | [-> | ->]]].

Lemma page_path p : p ∈ console_pages ->
  js_text p.1 /\ first_is (chr "/") p.1 = true /\ rd_redirectTo p.2 = None
  /\ forall ps, interpolate p.1 ps = Ok (p.1, ps).
Proof.
  intros Hp. each_page Hp; (split_and!; [by apply js_text_dec|done|done|by intros]).
Qed.

(** Following a redirection to a page, keeping the parameters. *)
Lemma follow_to_page mode p n r :
  p ∈ console_pages -> rd_redirectTo (mt_def n) = Some (RedirectTo p.1) ->
  query_ok (loc_search (ro_loc r)) -> js_text (loc_hash (ro_loc r)) -> query_ok (mt_params n) ->
  exists l', follow_redirect mode n r = (Ok n, set_loc l' r)
    /\ loc_path l' = p.1 /\ loc_search l' = mt_params n /\ loc_hash l' = loc_hash (ro_loc r)
    /\ composed mode l'.
Proof.
  intros Hp Hn [Hq Hf] Hh [Hmq Hmf]. destruct (page_path p Hp) as (Ht & Hs & _ & Hi).
  unfold follow_redirect. rewrite Hn. unfold hbind at 1, hlift. rewrite Hi. cbn [fst snd].
  destruct (compose_ok mode (with_path p.1 (ro_loc r))) as (u & _ & E1); [done..|].
  unfold hbind at 1, with_location at 1, set_loc_path, hbind at 1, hmodify at 1. rewrite Hs, E1.
  set (l1 := with_urls u (abs_url mode u) (with_path p.1 (ro_loc r))).
  destruct (compose_ok mode (with_search (mt_params n) l1)) as (u2 & Hu2 & E2); [done..|].
  unfold hbind at 1, with_location at 1, set_search, hbind at 1, hmodify at 1. cbn [ro_loc set_loc ro_with].
  rewrite E2. cbn. destruct n as [i d rt ps pp]. eexists. by split.
Qed.

(** The match the current location gives, once the counter has moved. *)
Definition bump (r : router) : router :=
  Router (ro_routes r) (ro_loc r) (ro_current r) (ro_routeParams r) (ro_forceReload r)
    (S (ro_next_id r)) (ro_loading r) (ro_events r).

Lemma updateRoute_change mode r n :
  parseRoute (ro_routes r) (ro_next_id r) (loc_path (ro_loc r)) (loc_search (ro_loc r)) = Ok (Some n) ->
  (forall l, ro_current r = Some l -> params_only n l (ro_forceReload r) = false) ->
  updateRoute mode r = change_route mode (Some n) (ro_current r) (bump r).
Proof.
  intros Hp Hl. unfold updateRoute, new_match, hbind at 1. rewrite Hp. fold (bump r).
  unfold hbind, hgets. cbn [bump ro_current ro_forceReload].
  destruct (ro_current r) as [l|]; [|done]. by rewrite Hl.
Qed.

(** The current route is none, or one the console shows or falls back to. *)
Definition settled (r : router) : Prop :=
  forall m, ro_current r = Some m -> rd_reloadOnSearch (mt_def m) = true /\
    forall p, p ∈ console_pages -> mt_route m <> Some (p.1 ++ js "/").

Definition page_shown (r : router) (path : jstr) : Prop :=
  exists m, ro_current r = Some m /\ (path, mt_def m) ∈ console_pages /\ mt_route m = Some path
    /\ loc_path (ro_loc r) = path.

Definition console_ready (r : router) : Prop :=
  ro_routes r = console_routes /\ query_ok (loc_search (ro_loc r)) /\ js_text (loc_hash (ro_loc r)).

Lemma find_page path p : find (fun p => jeqb path p.1) console_pages = Some p -> p ∈ console_pages /\ path = p.1.
Proof. intros [H1 H2%jeqb_true]%find_some. split; [by apply list_elem_of_In|done]. Qed.

Lemma page_not_slash p q : p ∈ console_pages -> q ∈ console_pages -> p.1 <> q.1 ++ js "/".
Proof.
  intros H1 H2. each_page H1; each_page H2; by vm_compute.
Qed.

(** On the path of a page, the page is shown at once. *)
Lemma navigate_page mode r p :
  console_ready r -> (forall l n, ro_current r = Some l -> rd_reloadOnSearch (mt_def n) = true ->
    params_only n l (ro_forceReload r) = false) ->
  p ∈ console_pages -> loc_path (ro_loc r) = p.1 ->
  exists r', updateRoute mode r = (Ok tt, r') /\ page_shown r' p.1 /\ settled r'
    /\ ro_loc r' = ro_loc r /\ ro_routes r' = ro_routes r.
Proof.
  intros (Hr & Hq & Hh) Hno Hp Hpath.
  pose proof (console_parseRoute (ro_next_id r) p.1 (loc_search (ro_loc r))) as Hm.
  assert (Hf : find (fun q => jeqb p.1 q.1) console_pages = Some p).
  { clear -Hp. by each_page Hp. }
  rewrite Hf in Hm.
  assert (Hrel : rd_reloadOnSearch p.2 = true).
  { clear -Hp. by each_page Hp. }
  assert (Hup := updateRoute_change mode r _ ltac:(by rewrite Hr, Hpath) ltac:(intros l Hl; by apply Hno)).
  destruct (page_path p Hp) as (_ & _ & Hnr & _).
  rewrite Hup. unfold change_route, follow_redirect, hbind, hmodify, hret. cbn [mt_def]. rewrite Hnr.
  eexists. split; [done|]. split_and!; [|intros m [= <-]|done|done].
  - eexists. split; [done|]. split_and!; [|done|done]. cbn. by destruct p.
  - split; [done|]. intros q Hq' [= E]. by apply (page_not_slash p q) in E.
Qed.

Lemma params_only_reload n l force : rd_reloadOnSearch (mt_def n) = true -> params_only n l force = false.
Proof. intros H. unfold params_only. rewrite H. by rewrite !andb_false_r. Qed.

Lemma navigate_redirect mode r n p :
  console_ready r -> p ∈ console_pages -> rd_redirectTo (mt_def n) = Some (RedirectTo p.1) ->
  query_ok (mt_params n) ->
  exists r', change_route mode (Some n) (ro_current r) (bump r) = (Ok tt, r')
    /\ console_ready r' /\ loc_path (ro_loc r') = p.1 /\ loc_search (ro_loc r') = mt_params n
    /\ loc_hash (ro_loc r') = loc_hash (ro_loc r) /\ composed mode (ro_loc r').
Proof.
  intros (Hr & Hq & Hh) Hp Hn Hps.
  set (r0 := set_current (Some n) (broadcast (RouteChangeStart (Some n) (ro_current r))
    (set_forceReload false (bump r)))).
  destruct (follow_to_page mode p n r0 Hp Hn) as (l' & E & H1 & H2 & H3 & H4); [done..|].
  unfold change_route, hbind, hmodify. fold r0. rewrite E. eexists. split; [done|].
  split; [|done]. split; [done|]. cbn. by rewrite H2, H3.
Qed.

(** One update: the page is shown, or the location is redirected to a page. *)
Definition redirected (mode : location_mode) (r r1 : router) : Prop :=
  console_ready r1 /\ loc_path (ro_loc r1) = (console_target (loc_path (ro_loc r))).1
  /\ loc_path (ro_loc r1) <> loc_path (ro_loc r)
  /\ (console_target (loc_path (ro_loc r))).1 ∈ map fst console_pages
  /\ loc_search (ro_loc r1) = (if (console_target (loc_path (ro_loc r))).2
                               then extend (loc_search (ro_loc r)) [] else [])
  /\ loc_hash (ro_loc r1) = loc_hash (ro_loc r) /\ composed mode (ro_loc r1).

Lemma console_target_page p : p ∈ console_pages ->
  console_target p.1 = (p.1, true) /\ console_target (p.1 ++ js "/") = (p.1, true).
Proof. intros Hp. by each_page Hp. Qed.

Lemma console_target_other path :
  find (fun p => jeqb path p.1) console_pages = None ->
  find (fun p => jeqb path (p.1 ++ js "/")) console_pages = None ->
  console_target path = (js "/home", false).
Proof.
  intros E1 E2. unfold console_target. destruct (find (fun p => _ || _) console_pages) as [q|] eqn:E; [|done].
  apply find_some in E as [Hq H].
  pose proof (find_none _ _ E1 q Hq) as H1. pose proof (find_none _ _ E2 q Hq) as H2.
  cbv beta in *. rewrite H1, H2 in H. discriminate.
Qed.

Lemma console_navigate mode r :
  console_ready r -> settled r ->
  exists r1, updateRoute mode r = (Ok tt, r1) /\
    (page_shown r1 (console_target (loc_path (ro_loc r))).1 /\ settled r1 /\ ro_loc r1 = ro_loc r
       /\ ro_routes r1 = ro_routes r /\ console_target (loc_path (ro_loc r)) = (loc_path (ro_loc r), true)
     \/ redirected mode r r1).
Proof.
  intros Hc Hs. pose proof Hc as (Hr & Hq & Hh). set (path := loc_path (ro_loc r)).
  pose proof (console_parseRoute (ro_next_id r) path (loc_search (ro_loc r))) as Hm.
  destruct (find (fun p => jeqb path p.1) console_pages) as [p|] eqn:E1.
  { apply find_page in E1 as [Hp Epath].
    destruct (navigate_page mode r p Hc) as (r' & E & Hsh & Hst & Hl & Hrt); [|done|done|].
    { intros l n _. apply params_only_reload. }
    exists r'. split; [done|]. left. destruct (console_target_page p Hp) as [Ht _].
    rewrite Epath, Ht. done. }
  assert (Hgo : forall n p keep, parseRoute (ro_routes r) (ro_next_id r) path (loc_search (ro_loc r)) = Ok (Some n) ->
    (forall l, ro_current r = Some l -> params_only n l (ro_forceReload r) = false) ->
    p ∈ console_pages -> rd_redirectTo (mt_def n) = Some (RedirectTo p.1) -> query_ok (mt_params n) ->
    console_target path = (p.1, keep) -> mt_params n = (if keep then extend (loc_search (ro_loc r)) [] else []) ->
    exists r1, updateRoute mode r = (Ok tt, r1) /\ redirected mode r r1).
  { intros n p keep Hn Hno Hp Hrd Hqn Ht Hg.
    destruct (navigate_redirect mode r n p Hc Hp Hrd Hqn) as (r1 & E & Hc1 & Hpath1 & Hs1 & Hh1 & Hcomp).
    exists r1. rewrite (updateRoute_change mode r n Hn Hno). split; [done|].
    unfold redirected. fold path. rewrite Ht. split_and!; try done.
    - rewrite Hpath1. intros E'. assert (Hnone : jeqb path p.1 = false).
      { apply (find_none _ _ E1 p). by apply list_elem_of_In. }
      apply jeqb_false in Hnone. congruence.
    - exact (list_elem_of_fmap_2 fst console_pages p Hp).
    - by rewrite Hs1, Hg. }
  destruct (find (fun p => jeqb path (p.1 ++ js "/")) console_pages) as [p|] eqn:E2.
  - apply find_some in E2 as [Hp%list_elem_of_In Ep%jeqb_true].
    destruct (Hgo (RouteMatch (ro_next_id r) (redirect_route p.1) (Some path) (extend (loc_search (ro_loc r)) []) []) p true)
      as (r1 & E & Hred); [by rewrite Hr| |done|done|by apply query_ok_extend| |done|eauto].
    + intros l Hl. destruct (Hs l Hl) as [_ Hnot]. unfold params_only, same_route. cbn [mt_route].
      rewrite bool_decide_eq_false_2; [done|]. rewrite Ep. intros E. by apply (Hnot p).
    + rewrite Ep. by apply console_target_page.
  - destruct (Hgo (RouteMatch (ro_next_id r) home_redirect None [] []) (page_route "home") false)
      as (r1 & E & Hred); [by rewrite Hr| |unfold console_pages; by left|done|apply query_ok_nil| |done|eauto].
    + intros l _. by apply params_only_reload.
    + by apply console_target_other.
Qed.

(** After a redirection, the next update shows the page. *)
Lemma redirected_page mode r r1 :
  redirected mode r r1 ->
  exists r', updateRoute mode r1 = (Ok tt, r') /\ page_shown r' (console_target (loc_path (ro_loc r))).1
    /\ settled r' /\ ro_loc r' = ro_loc r1 /\ ro_routes r' = ro_routes r1.
Proof.
  intros (Hc & Hp & _ & Hin & _). apply list_elem_of_fmap in Hin as (p & Ep & Hpp).
  rewrite Ep in *. apply (navigate_page mode r1 p Hc); [|done|done].
  intros l m _. apply params_only_reload.
Qed.

(** C9: wherever the user goes, after at most one redirection a page of the console is shown:
    the page of the path, also with a trailing slash, and the home page for any other path;
    the query is kept in the first two cases and dropped in the third. *)
Theorem console_navigation mode r :
  console_ready r -> settled r ->
  exists r1, updateRoute mode r = (Ok tt, r1) /\
  exists r', (r' = r1 \/ updateRoute mode r1 = (Ok tt, r'))
    /\ page_shown r' (console_target (loc_path (ro_loc r))).1 /\ settled r'
    /\ forall k, ob_get (loc_search (ro_loc r')) k
       = if (console_target (loc_path (ro_loc r))).2 then ob_get (loc_search (ro_loc r)) k else None.
Proof.
  intros Hc Hs. destruct (console_navigate mode r Hc Hs) as (r1 & E & [(Hsh & Hst & Hl & _ & Ht)|Hred]).
  - exists r1. split; [done|]. exists r1. split; [by left|]. rewrite Ht, Hl. rewrite Ht in Hsh. done.
  - exists r1. split; [done|]. destruct (redirected_page mode r r1 Hred) as (r' & E' & Hsh & Hst & Hl & _).
    exists r'. split; [by right|]. split_and!; [done|done|]. intros k. rewrite Hl.
    destruct Hred as (_ & _ & _ & _ & -> & _). destruct Hc as (_ & [Hq _] & _).
    destruct ((console_target _).2); [|done]. by rewrite extend_nil, ob_get_select_all.
Qed.

Definition sample_router : router :=
  Router console_routes
    (Location (js "http") (js "localhost") (jint 7364) (js "/search/") sample_query [] [] [] false)
    None [] false 0 [] [].

Lemma sample_ready : console_ready sample_router /\ settled sample_router.
Proof.
  split; [|intros m; discriminate]. split_and!; [done|apply sample_query_ok|by apply js_text_dec].
Qed.

Lemma console_navigation_witness :
  exists r1, updateRoute (LocationHashbangUrl (js "http://h/") (js "#")) sample_router = (Ok tt, r1) /\
  exists r', (r' = r1 \/ updateRoute (LocationHashbangUrl (js "http://h/") (js "#")) r1 = (Ok tt, r'))
    /\ page_shown r' (console_target (loc_path (ro_loc sample_router))).1 /\ settled r'
    /\ forall k, ob_get (loc_search (ro_loc r')) k
       = if (console_target (loc_path (ro_loc sample_router))).2
         then ob_get (loc_search (ro_loc sample_router)) k else None.
Proof. apply console_navigation; apply sample_ready. Defined.

(** ** Patterns with parameters *)

(** The path a pattern stands for, given the text of its keys. *)
Fixpoint instantiate (ps : list piece) (vals : list jstr) : jstr :=
  match ps, vals with
  | [], _ => []
  | PChr c :: ps', vs => c :: instantiate ps' vs
  | PKey slash _ _ :: ps', v :: vs => (if slash then js "/" else []) ++ v ++ instantiate ps' vs
  | PKey _ _ _ :: _, [] => []
  end.

(** A key takes a whole segment: a slash before it, and a slash or the end after it. *)
Fixpoint segment_keys (ps : list piece) : bool :=
  match ps with
  | [] => true
  | PChr _ :: ps' => segment_keys ps'
  | PKey slash opt _ :: ps' =>
      slash && match opt with KeyPlain => true | _ => false end
      && match ps' with
         | [] => true
         | PChr c :: _ => (c =? chr "/")%N
         | PKey s _ _ :: _ => s
         end
      && segment_keys ps'
  end.

Definition segment (v : jstr) : Prop := v <> [] /\ chr "/" ∉ v.
#[export] Instance segment_dec v : Decision (segment v) := _.

Lemma span_segment v s :
  chr "/" ∉ v -> (s = [] \/ first_is (chr "/") s = true) ->
  (span (fun c => negb (c =? chr "/")%N) (v ++ s)).1 = v.
Proof.
  intros Hv Hs.
  assert (Hc : forall x, x ∈ v -> negb (x =? chr "/")%N = true).
  { intros x Hx. apply negb_true_iff, N.eqb_neq. by intros ->. }
  destruct Hs as [-> |[t ->]%first_is_cons].
  - rewrite app_nil_r. by rewrite span_none.
  - by rewrite span_stop.
Qed.

Lemma first_some_last {A B} (f : A -> option B) l x b : f x = Some b -> first_some f (rev (l ++ [x])) = Some b.
Proof. intros H. rewrite rev_app_distr. cbn. by rewrite H. Qed.

Lemma exec_instantiate ps vals :
  segment_keys ps = true -> length vals = length (keys_of ps) -> Forall segment vals ->
  exec ps (instantiate ps vals) = Some (map Some vals).
Proof.
  revert vals. induction ps as [|[c|slash opt name] ps IH]; intros vals Hk Hl Hv.
  - destruct vals; [done|discriminate].
  - cbn [instantiate exec]. rewrite N.eqb_refl. by apply IH.
  - cbn [segment_keys] in Hk. apply andb_true_iff in Hk as [Hk Hk2].
    apply andb_true_iff in Hk as [Hk Hnext]. apply andb_true_iff in Hk as [-> Hopt].
    destruct opt; try discriminate. destruct vals as [|v vals]; [discriminate|].
    apply Forall_cons in Hv as [[Hv1 Hv2] Hv]. cbn [instantiate]. injection Hl as Hl.
    change (js "/" ++ v ++ instantiate ps vals) with (chr "/" :: v ++ instantiate ps vals).
    cbn [exec]. rewrite N.eqb_refl. unfold group_lengths.
    rewrite span_segment; [|done|].
    2:{ destruct ps as [|[c|s o n] ps]; [by left| |]; right.
        - cbn in Hnext |- *. done.
        - rewrite Hnext. by destruct vals. }
    destruct (length v) as [|n] eqn:En; [by destruct v|]. rewrite seq_S. apply first_some_last.
    replace (1 + n) with (length v) by lia. rewrite take_app_length, drop_app_length, IH by done. done.
Qed.

Lemma tokenize_raw v : chr "%" ∉ v -> tokenize v = Some (map Raw v).
Proof.
  induction v as [|c v IH]; [done|]. rewrite not_elem_of_cons. intros [Hc Hv]. cbn [tokenize map].
  destruct (N.eqb_spec c 37); [by subst|]. by rewrite IH.
Qed.

(** A text without percent signs decodes to itself. *)
Lemma decode_plain v : chr "%" ∉ v -> decodeURIComponent v = Ok v.
Proof.
  intros Hv. unfold decodeURIComponent. rewrite tokenize_raw by done. clear Hv.
  induction v as [|c v IH]; [done|]. cbn [map decode_toks]. by rewrite IH.
Qed.

Lemma bind_params_all keys vals o :
  NoDup keys -> length vals = length keys -> Forall (fun v => v <> [] /\ chr "%" ∉ v) vals ->
  (forall k, k ∈ keys -> k <> js "__proto__" /\ ob_get o k = None) ->
  bind_params keys (map Some vals) o = Ok (o ++ zip keys (map QStr vals)).
Proof.
  revert keys o. induction vals as [|v vals IH]; intros [|k keys] o Hnd Hl Hv Hk; try discriminate.
  { cbn. by rewrite app_nil_r. }
  apply NoDup_cons in Hnd as [Hnk Hnd]. apply Forall_cons in Hv as [[Hv1 Hv2] Hv]. injection Hl as Hl.
  cbn [map bind_params]. rewrite decode_plain by done. cbn [rbind of_uri head tail].
  destruct v as [|c v]; [done|]. destruct (Hk k) as [Hp Hg]; [by left|].
  unfold q_write at 1. apply jeqb_false in Hp. rewrite Hp, ob_names_set_new by done.
  rewrite IH; [|done|done|done|].
  - cbn [zip zip_with]. by rewrite <- app_assoc.
  - intros k' Hk'. destruct (Hk k') as [Hp' Hg']; [by right|]. split; [done|].
    rewrite <- ob_names_set_new by done. rewrite ob_get_set_ne; [done|]. by intros ->.
Qed.


Definition sample_pattern : list piece := default [] (compile (js "/Book/:bookId/ch/:chapterId")).


(** The path is decoded by the location and once more by the matcher. *)
Example route_params_percent :
  switchRouteMatcher (js "/a/100%") (Route (redirect_route []) (compile (js "/a/:x"))) = Throw JsURIError.
Proof. by vm_compute. Qed.
