(* ===== verification/LocationService.v ===== *)
(** * The $location service and the address bar (angular.js, $LocationProvider)

    The service keeps a location object and the URL of the browser equal: changes of either
    side are noticed by a watcher of the root scope or by an event of the browser, announced
    to the listeners, and applied to the other side.  The listeners of the
    [$locationChangeStart] event are the parameter [prevents]; the listener of
    [$locationChangeSuccess] is ngRoute's [updateRoute]. *)

From S2P Require Import Prelude JsString JsObject JsNumber UriCodec Json Query Location Browser Route.
Local Open Scope handler_scope.

(** Functions queued with [$evalAsync]: the update of the browser, with the old URL and the
    [$$replace] flag it closes over, and the update of the location to a new URL. *)
Inductive async_task : Type :=
| UpdateBrowser (oldUrl : jstr) (currentReplace : bool)
| UpdateLocation (newUrl : jstr).

Inductive location_event : Type :=
| LocationChangeStart (newUrl oldUrl : jstr)
| LocationChangeSuccess (newUrl oldUrl : jstr).

Record service : Type := Service {
  sv_browser : browser;
  sv_router : router;                 (** with the location object *)
  sv_changes : nat;                   (** [changeCounter] *)
  sv_seen : option nat;               (** the value of the watcher at its last check *)
  sv_queue : list async_task;
  sv_events : list location_event;
  sv_exceptions : list js_error       (** given to [$exceptionHandler] *)
}.

Definition sv_loc (s : service) : location := ro_loc (sv_router s).

Definition upd_browser (f : browser -> browser) (s : service) : service :=
  Service (f (sv_browser s)) (sv_router s) (sv_changes s) (sv_seen s) (sv_queue s) (sv_events s) (sv_exceptions s).
Definition upd_router (f : router -> router) (s : service) : service :=
  Service (sv_browser s) (f (sv_router s)) (sv_changes s) (sv_seen s) (sv_queue s) (sv_events s) (sv_exceptions s).
Definition upd_changes (n : nat) (s : service) : service :=
  Service (sv_browser s) (sv_router s) n (sv_seen s) (sv_queue s) (sv_events s) (sv_exceptions s).
Definition upd_seen (n : option nat) (s : service) : service :=
  Service (sv_browser s) (sv_router s) (sv_changes s) n (sv_queue s) (sv_events s) (sv_exceptions s).
Definition upd_queue (q : list async_task) (s : service) : service :=
  Service (sv_browser s) (sv_router s) (sv_changes s) (sv_seen s) q (sv_events s) (sv_exceptions s).
Definition log_event (e : location_event) (s : service) : service :=
  Service (sv_browser s) (sv_router s) (sv_changes s) (sv_seen s) (sv_queue s) (sv_events s ++ [e]) (sv_exceptions s).
Definition log_exception (e : js_error) (s : service) : service :=
  Service (sv_browser s) (sv_router s) (sv_changes s) (sv_seen s) (sv_queue s) (sv_events s) (sv_exceptions s ++ [e]).

Abbreviation SV := (handler service).

Section Service.
Context (normalize : jstr -> jstr) (anchor : jstr -> anchor_url) (prevents : jstr -> jstr -> bool).
Context (mode : location_mode).

(** Run a method of the location object. *)
Definition on_location {A} (m : L A) : SV A := fun s =>
  match m (sv_loc s) with (res, l) => (res, upd_router (set_loc l) s) end.

(** [$broadcast('$locationChangeStart')]: whether its default is prevented. *)
Definition change_start (newUrl oldUrl : jstr) : SV bool :=
  hmodify (log_event (LocationChangeStart newUrl oldUrl)) ;;; hret (prevents newUrl oldUrl).

(** [afterLocationChange]: the listener's exceptions go to the handler of exceptions. *)
Definition afterLocationChange (oldUrl : jstr) : SV unit :=
  s <- hgets id ;;
  hmodify (log_event (LocationChangeSuccess (loc_absUrl (sv_loc s)) oldUrl)) ;;;
  (fun s => match updateRoute mode (sv_router s) with
            | (Ok _, r) => (Ok tt, upd_router (fun _ => r) s)
            | (Throw e, r) => (Ok tt, log_exception e (upd_router (fun _ => r) s))
            end).

Definition run_task (t : async_task) : SV unit :=
  match t with
  | UpdateBrowser oldUrl currentReplace =>
      s <- hgets id ;;
      prevented <- change_start (loc_absUrl (sv_loc s)) oldUrl ;;
      if (prevented : bool) then on_location (parse anchor mode oldUrl)
      else
        s <- hgets id ;;
        hmodify (upd_browser (set_url normalize (loc_absUrl (sv_loc s)) currentReplace)) ;;;
        afterLocationChange oldUrl
  | UpdateLocation newUrl =>
      s <- hgets id ;;
      let oldUrl := loc_absUrl (sv_loc s) in
      on_location (parse anchor mode newUrl) ;;;
      prevented <- change_start newUrl oldUrl ;;
      if (prevented : bool) then
        on_location (parse anchor mode oldUrl) ;;;
        hmodify (upd_browser (set_url normalize oldUrl false))
      else afterLocationChange oldUrl
  end.

(** The queue is emptied; an exception is handed over and the queue goes on. *)
Fixpoint run_tasks (ts : list async_task) (s : service) : service :=
  match ts with
  | [] => s
  | t :: ts' =>
      run_tasks ts' match run_task t s with
                    | (Ok _, s') => s'
                    | (Throw e, s') => log_exception e s'
                    end
  end.
Definition drain (s : service) : service := run_tasks (sv_queue s) (upd_queue [] s).

(** [$locationWatch]. *)
Definition locationWatch (s : service) : service :=
  let oldUrl := get_url (sv_browser s) in
  let currentReplace := loc_replace (sv_loc s) in
  let s' := if Nat.eqb (sv_changes s) 0 || negb (jeqb oldUrl (loc_absUrl (sv_loc s)))
            then upd_queue (sv_queue s ++ [UpdateBrowser oldUrl currentReplace])
                   (upd_changes (S (sv_changes s)) s)
            else s in
  upd_router (fun r => set_loc (with_replace false (ro_loc r)) r) s'.

(** The loop of [$digest] with this one watcher: [ttl] more iterations are allowed; [None]
    is the exception [infdig]. *)
Fixpoint digest (ttl : nat) (s : service) : option service :=
  let s := locationWatch (drain s) in
  if bool_decide (sv_seen s = Some (sv_changes s)) && (match sv_queue s with [] => true | _ => false end)
  then Some s
  else match ttl with
       | 0 => None
       | S ttl' => digest ttl' (upd_seen (Some (sv_changes s)) s)
       end.

Definition TTL : nat := 10.

(** The listener given to [$browser.onUrlChange]. *)
Definition onUrlChange (newUrl : jstr) (s : service) : option service :=
  if jeqb (loc_absUrl (sv_loc s)) newUrl then Some s
  else digest TTL (upd_queue (sv_queue s ++ [UpdateLocation newUrl]) s).

(** The browser's URL changed: the user typed it, or went back. *)
Definition url_typed (newUrl : jstr) (s : service) : option service :=
  let b := sv_browser s in
  let '(b', called) := fireUrlChange (with_url (normalize newUrl) (br_stack b ++ [br_href b]) (br_last b) (br_new b) b) in
  match called with
  | Some u => onUrlChange u (upd_browser (fun _ => b') s)
  | None => Some (upd_browser (fun _ => b') s)
  end.

(** ** Clicks on links *)

(** An element that was clicked on, seen from its nearest link. *)
Record click : Type := Click {
  ck_modified : bool;               (** control, meta or the middle button *)
  ck_absHref : jstr;                (** the [href] property *)
  ck_href : jstr;                   (** the [href] attribute *)
  ck_target : bool;                 (** a [target] attribute *)
  ck_prevented : bool
}.

(** [.] is skipped, [..] removes a segment, an empty segment is skipped. *)
Definition join_part (stack : list jstr) (part : jstr) : list jstr :=
  if jeqb part (js ".") then stack
  else if jeqb part (js "..") then removelast stack
  else if truthy part then stack ++ [part] else stack.

(** The absolute URL of a link, relative links being relative to the present path in the
    browsers without a history. *)
Definition link_url (path : jstr) (c : click) : jstr :=
  match mode with
  | LocationHashbangInHtml5Url appBase hashPrefix =>
      match indexOf (ck_href c) (js "://") with
      | Some _ => ck_absHref c
      | None =>
          if first_is (chr "/") (ck_href c) then appBase ++ hashPrefix ++ ck_href c
          else if first_is (chr "#") (ck_href c) then
            appBase ++ hashPrefix ++ (if truthy path then path else js "/") ++ ck_href c
          else appBase ++ hashPrefix ++
            join (js "/") (fold_left join_part (split (chr "/") (ck_href c)) (split (chr "/") path))
      end
  | _ => ck_absHref c
  end.

(** The click handler: the new service, and whether the browser's own action is prevented;
    [None] when the digest it starts does not settle. *)
Definition on_click (c : click) (s : service) : option (service * bool) :=
  if ck_modified c then Some (s, false)
  else
    let absHref := link_url (loc_path (sv_loc s)) c in
    match rewrite mode absHref with
    | Some ((_ :: _) as rewrittenUrl) =>
        if truthy absHref && negb (ck_target c) && negb (ck_prevented c) then
          if jeqb rewrittenUrl (get_url (sv_browser s)) then Some (s, true)
          else match on_location (parse anchor mode rewrittenUrl) s with
               | (Ok _, s') => (fun s'' => (s'', true)) <$> digest TTL s'
               | (Throw _, s') => Some (s', true)
               end
        else Some (s, false)
    | _ => Some (s, false)
    end.

End Service.

(** ** The start of the service *)

Section Init.
Context (normalize : jstr -> jstr) (anchor : jstr -> anchor_url).

(** [$get], up to the registration of the watcher; [prefix] is the one of [hashPrefix(prefix)]. *)
Definition init_mode (html5Mode : bool) (prefix : jstr) (base : option jstr) (b : browser) : location_mode :=
  let initialUrl := get_url b in
  let baseHref := baseHref base in
  if html5Mode then
    let appBase := serverBase initialUrl ++ (if truthy baseHref then baseHref else js "/") in
    if br_history_api b then LocationHtml5Url appBase (js "#" ++ prefix)
    else LocationHashbangInHtml5Url appBase (js "#" ++ prefix)
  else LocationHashbangUrl (stripHash initialUrl) (js "#" ++ prefix).

Definition mode_base (m : location_mode) : jstr :=
  match m with
  | LocationHtml5Url b _ | LocationHashbangUrl b _ | LocationHashbangInHtml5Url b _ => b
  end.

Definition init_service (html5Mode : bool) (prefix : jstr) (base : option jstr) (routes : jsobj route)
    (b : browser) : result js_error service :=
  let mode := init_mode html5Mode prefix base b in
  let initialUrl := get_url b in
  match rewrite mode initialUrl with
  | None => Throw JsTypeError
  | Some url =>
      match parse anchor mode url (parseAbsoluteUrl anchor (mode_base mode)) with
      | (Throw e, _) => Throw e
      | (Ok _, l) =>
          let b := if jeqb (loc_absUrl l) initialUrl then b else set_url normalize (loc_absUrl l) true b in
          Ok (Service b (Router routes l None [] false 0 [] []) 0 None [] [] [])
      end
  end.

End Init.
