(* ===== verification/SyncFacts.v ===== *)
(** * The address bar, the location and the page agree after every digest *)

From S2P Require Import Prelude JsString JsObject JsNumber UriCodec Json Query Location LocationFacts Browser Route RouteFacts LocationService.
Local Open Scope handler_scope.

(** ** Composed URLs determine their path *)

Lemma compose_url_inv l u :
  js_text (loc_path l) -> compose_url l = Ok u ->
  exists e r, encodePath (loc_path l) = Ok e /\ u = e ++ r
    /\ (r = [] \/ first_is (chr "?") r = true \/ first_is (chr "#") r = true).
Proof.
  intros Hp H. unfold compose_url in H. apply rbind_ok in H as (q & _ & H).
  apply rbind_ok in H as (h & Hh & H). apply rbind_ok in H as (e & He & [= <-]).
  destruct (encodePath_ok _ Hp) as (e0 & He0 & _). rewrite He0 in He. injection He as <-.
  exists e0, ((if truthy q then js "?" ++ q else []) ++ h). split_and!; [done|done|].
  destruct q as [|c q]; [|right; left; done]. cbn [truthy app].
  destruct (truthy (loc_hash l)); [|injection Hh as <-; by left].
  apply rbind_ok in Hh as (h' & _ & [= <-]). right; by right.
Qed.

Lemma compose_url_path l1 l2 u :
  js_text (loc_path l1) -> js_text (loc_path l2) ->
  compose_url l1 = Ok u -> compose_url l2 = Ok u -> loc_path l1 = loc_path l2.
Proof.
  intros H1 H2 (e1 & r1 & He1 & -> & Hr1)%compose_url_inv (e2 & r2 & He2 & Hu & Hr2)%compose_url_inv; [|done..].
  set (P := fun c => negb ((c =? chr "?") || (c =? chr "#"))%N).
  assert (Hspan : forall l e r, js_text (loc_path l) -> encodePath (loc_path l) = Ok e ->
    (r = [] \/ first_is (chr "?") r = true \/ first_is (chr "#") r = true) -> span P (e ++ r) = (e, r)).
  { intros l e r Hl He Hr. destruct (encodePath_ok _ Hl) as (e0 & He0 & _ & Hch).
    rewrite He in He0. injection He0 as <-.
    assert (Hc : forall x, x ∈ e -> P x = true).
    { intros x Hx. unfold P. rewrite negb_orb. apply andb_true_iff.
      split; [by apply (not_mark path_char (chr "?") e)|by apply (not_mark path_char (chr "#") e)]. }
    destruct Hr as [-> |[[t ->]%first_is_cons|[t ->]%first_is_cons]].
    - rewrite app_nil_r. by apply span_none.
    - by apply span_stop.
    - by apply span_stop. }
  pose proof (Hspan l1 e1 r1 H1 He1 Hr1) as E1. pose proof (Hspan l2 e2 r2 H2 He2 Hr2) as E2.
  rewrite Hu, E2 in E1. injection E1 as -> _.
  destruct (encodePath_ok _ H1) as (e & He & Hd1 & _). destruct (encodePath_ok _ H2) as (e' & He' & Hd2 & _).
  rewrite He1 in He. rewrite He2 in He'. injection He as <-. injection He' as <-.
  rewrite Hd1 in Hd2. by injection Hd2 as ->.
Qed.

Lemma compose_url_slash l u :
  js_text (loc_path l) -> first_is (chr "/") (loc_path l) = true -> compose_url l = Ok u ->
  first_is (chr "/") u = true.
Proof.
  intros Hp Hf (e & r & He & -> & _)%compose_url_inv; [|done].
  apply first_is_cons in Hf as [t Ht]. rewrite Ht in He. by apply encodePath_slash in He as (e' & -> & _).
Qed.

Lemma abs_url_inj mode u v :
  first_is (chr "/") u = true -> first_is (chr "/") v = true -> abs_url mode u = abs_url mode v -> u = v.
Proof.
  intros [t ->]%first_is_cons [t' ->]%first_is_cons. destruct mode; cbn [abs_url truthy].
  - change (drop 1 (chr "/" :: t)) with t. change (drop 1 (chr "/" :: t')) with t'. by intros ->%app_inv_head.
  - by intros ?%app_inv_head%app_inv_head.
  - by intros ?%app_inv_head%app_inv_head.
Qed.

(** A location as the service keeps it. *)
Definition kept (mode : location_mode) (l : location) : Prop :=
  js_text (loc_path l) /\ first_is (chr "/") (loc_path l) = true /\ composed mode l.

Lemma kept_absUrl mode l1 l2 :
  kept mode l1 -> kept mode l2 -> loc_absUrl l1 = loc_absUrl l2 -> loc_path l1 = loc_path l2.
Proof.
  intros (H1 & F1 & C1 & A1) (H2 & F2 & C2 & A2) E. rewrite A1, A2 in E.
  apply abs_url_inj in E; [|by apply (compose_url_slash l1)|by apply (compose_url_slash l2)].
  rewrite E in C1. by apply (compose_url_path l1 l2 (loc_url l2)).
Qed.

(** ** The loop *)

Section Sync.
Context (normalize : jstr -> jstr) (anchor : jstr -> anchor_url) (mode : location_mode).

Abbreviation digest := (digest normalize anchor (fun _ _ => false) mode).
Abbreviation run_task := (run_task normalize anchor (fun _ _ => false) mode).

(** The browser gives back a URL as it was given. *)
Definition shows (u : jstr) : Prop :=
  u <> [] /\ replace_pct (pct_exact "27") (js "'") (normalize u) = u.

Definition browser_ok (b : browser) : Prop :=
  get_url b = br_last b /\ (br_history_api b = true -> br_new b = None).

Lemma set_url_ok u replace b :
  shows u -> browser_ok b -> browser_ok (set_url normalize u replace b) /\ get_url (set_url normalize u replace b) = u.
Proof.
  intros [Hne Hs] [Hg Hn]. unfold set_url. destruct (jeqb (br_last b) u) eqn:E.
  { apply jeqb_true in E as <-. done. }
  unfold browser_ok, get_url. cbn [with_url br_new br_href br_last br_history_api].
  destruct (br_history_api b).
  - rewrite Hn by done. by split_and!.
  - destruct u; [done|]. split_and!; [done|discriminate|done].
Qed.

(** What the theorem keeps true between digests, the queue being empty. *)
Definition service_ok (s : service) : Prop :=
  browser_ok (sv_browser s) /\ console_ready (sv_router s) /\ kept mode (sv_loc s) /\ sv_queue s = [].

(** The page [path] is shown, at the URL of the address bar. *)
Definition agreed (path : jstr) (s : service) : Prop :=
  service_ok s /\ settled (sv_router s) /\ page_shown (sv_router s) path
  /\ get_url (sv_browser s) = loc_absUrl (sv_loc s).

Definition unreplaced (s : service) : service :=
  upd_router (fun r => set_loc (with_replace false (ro_loc r)) r) s.

Lemma agreed_unreplaced path s : agreed path s -> agreed path (unreplaced s).
Proof. intros H. exact H. Qed.

Lemma watch_clean s :
  sv_changes s <> 0 -> get_url (sv_browser s) = loc_absUrl (sv_loc s) -> locationWatch s = unreplaced s.
Proof.
  intros Hc Hg. unfold locationWatch. rewrite Hg, jeqb_refl.
  destruct (Nat.eqb_spec (sv_changes s) 0); [done|]. done.
Qed.

(** Once everything agrees, the loop ends in at most one more iteration. *)
Lemma digest_agreed path s ttl :
  agreed path s -> sv_changes s <> 0 ->
  exists s', digest (S ttl) s = Some s' /\ agreed path s' /\ sv_loc s' = with_replace false (sv_loc s)
    /\ sv_exceptions s' = sv_exceptions s.
Proof.
  intros Ha Hc. assert (Hgo : forall s, agreed path s -> sv_changes s <> 0 ->
    locationWatch (drain normalize anchor (fun _ _ => false) mode s) = unreplaced s).
  { intros s0 ((Hb & _ & _ & Hq) & _ & _ & Hg) Hc0. unfold drain. rewrite Hq. cbn [run_tasks].
    rewrite watch_clean by done. unfold unreplaced, upd_router, upd_queue. cbn. by rewrite Hq. }
  cbn [LocationService.digest]. rewrite Hgo by done.
  assert (Hq : sv_queue (unreplaced s) = []) by apply Ha. rewrite Hq, andb_true_r.
  destruct (bool_decide _); [by exists (unreplaced s)|].
  assert (Ha2 : agreed path (upd_seen (Some (sv_changes (unreplaced s))) (unreplaced s))) by exact Ha.
  assert (H2 : forall t, digest t (upd_seen (Some (sv_changes (unreplaced s))) (unreplaced s))
    = Some (unreplaced (upd_seen (Some (sv_changes (unreplaced s))) (unreplaced s)))).
  { intros t. destruct t; cbn [LocationService.digest]; rewrite (Hgo _ Ha2) by done;
    cbn [sv_seen sv_queue unreplaced upd_router upd_seen sv_changes]; rewrite bool_decide_eq_true_2 by done;
    assert (Hqs : sv_queue s = []) by apply Ha; cbn; by rewrite Hqs. }
  rewrite H2. eexists. split; [done|]. done.
Qed.

(** The queued update of the browser, followed by the watcher. *)
Definition changed (s s1 : service) : Prop :=
  sv_changes s1 <> 0 /\ sv_exceptions s1 = sv_exceptions s /\ sv_queue s1 = []
  /\ browser_ok (sv_browser s1) /\ get_url (sv_browser s1) = loc_absUrl (sv_loc s).

Lemma run_update s oldUrl replace r1 :
  browser_ok (sv_browser s) -> shows (loc_absUrl (sv_loc s)) -> sv_changes s <> 0 -> sv_queue s = [] ->
  updateRoute mode (sv_router s) = (Ok tt, r1) ->
  exists s1, run_task (UpdateBrowser oldUrl replace) s = (Ok tt, s1) /\ sv_router s1 = r1 /\ changed s s1.
Proof.
  intros Hb Hs Hc Hq Hu. unfold LocationService.run_task, change_start, afterLocationChange.
  unfold hbind, hgets, hmodify, hret, id. cbn [sv_router log_event upd_browser sv_loc]. rewrite Hu.
  eexists. split; [done|]. split; [done|]. unfold changed. cbn.
  destruct (set_url_ok (loc_absUrl (sv_loc s)) replace (sv_browser s) Hs Hb) as [H1 H2].
  split_and!; try done; apply H1.
Qed.

Lemma drain_empty s : sv_queue s = [] -> drain normalize anchor (fun _ _ => false) mode s = s.
Proof. destruct s. cbn. by intros ->. Qed.

Lemma digest_drain ttl s s1 :
  sv_queue s1 = [] -> drain normalize anchor (fun _ _ => false) mode s = s1 -> digest ttl s = digest ttl s1.
Proof. intros Hq Hd. destruct ttl; cbn [LocationService.digest]; by rewrite Hd, drain_empty. Qed.

(** An update that shows the page of its location settles the loop. *)
Lemma digest_page path s ttl o rep r' :
  sv_queue s = [UpdateBrowser o rep] -> browser_ok (sv_browser s) -> kept mode (sv_loc s) ->
  console_ready (sv_router s) -> shows (loc_absUrl (sv_loc s)) -> sv_changes s <> 0 ->
  updateRoute mode (sv_router s) = (Ok tt, r') -> page_shown r' path -> settled r' ->
  ro_loc r' = sv_loc s -> ro_routes r' = ro_routes (sv_router s) ->
  exists s', digest (S ttl) s = Some s' /\ agreed path s' /\ sv_loc s' = with_replace false (sv_loc s)
    /\ sv_exceptions s' = sv_exceptions s.
Proof.
  intros Hq Hb Hk (Hr1 & Hr2 & Hr3) Hs Hc Hu Hp Hst Hl Hr.
  destruct (run_update (upd_queue [] s) o rep r' Hb Hs Hc eq_refl Hu) as (s1 & Hrun & <- & Hch & He & Hq1 & Hb1 & Hg1).
  assert (Hd : drain normalize anchor (fun _ _ => false) mode s = s1).
  { unfold drain. rewrite Hq. cbn [run_tasks]. by rewrite Hrun. }
  rewrite (digest_drain _ _ _ Hq1 Hd). change (sv_loc s1) with (ro_loc (sv_router s1)) in *.
  assert (Ha : agreed path s1).
  { split_and!; [|done|done|].
    - split_and!; [done| | |done].
      + unfold console_ready. by rewrite Hl, Hr.
      + unfold sv_loc. by rewrite Hl.
    - rewrite Hg1. unfold sv_loc at 2. by rewrite Hl. }
  destruct (digest_agreed path s1 ttl Ha Hch) as (s' & E & Ha' & Hl' & He').
  exists s'. rewrite Hl', He', He. unfold sv_loc at 1. rewrite Hl. done.
Qed.

(** A difference noticed by the watcher queues an update. *)
Lemma digest_dirty s ttl :
  sv_queue s = [] -> (sv_changes s = 0 \/ get_url (sv_browser s) <> loc_absUrl (sv_loc s)) ->
  exists s2 o rep, digest (S ttl) s = digest ttl s2 /\ sv_queue s2 = [UpdateBrowser o rep]
    /\ sv_browser s2 = sv_browser s /\ sv_changes s2 <> 0 /\ sv_exceptions s2 = sv_exceptions s
    /\ sv_router s2 = set_loc (with_replace false (sv_loc s)) (sv_router s).
Proof.
  intros Hq Hd. cbn [LocationService.digest]. rewrite drain_empty by done. unfold locationWatch.
  assert (Hb : (sv_changes s =? 0) || negb (jeqb (get_url (sv_browser s)) (loc_absUrl (sv_loc s))) = true).
  { destruct Hd as [-> |Hn]; [done|]. apply jeqb_false in Hn. rewrite Hn. by rewrite orb_true_r. }
  rewrite Hb. cbn [sv_queue upd_queue upd_router]. rewrite Hq. cbn [app]. rewrite andb_false_r.
  eexists _, _, _. split; [done|]. by split_and!.
Qed.

(** Every URL a digest can show is given back by the browser. *)
Definition all_shown (l : location) : Prop :=
  shows (loc_absUrl l) /\
  forall p q u, p ∈ map fst console_pages -> q = extend (loc_search l) [] \/ q = [] ->
    compose_url (with_path p (with_search q l)) = Ok u -> shows (abs_url mode u).

Lemma redirected_kept r r1 : redirected mode r r1 -> kept mode (ro_loc r1).
Proof.
  intros (_ & Hp & _ & Hin & _ & _ & Hcomp). apply list_elem_of_fmap in Hin as (p & Ep & Hpp).
  destruct (page_path p Hpp) as (Ht & Hs & _). unfold kept. by rewrite Hp, Ep.
Qed.

Lemma redirected_shows r r1 : all_shown (ro_loc r) -> redirected mode r r1 -> shows (loc_absUrl (ro_loc r1)).
Proof.
  intros [_ Hs] (_ & Hp & _ & Hin & Hq & Hh & Hc & ->). eapply (Hs _ (loc_search (ro_loc r1))); [exact Hin| |].
  - rewrite Hq. destruct (_.2); auto.
  - rewrite <- Hc. unfold compose_url. cbn. by rewrite Hp, Hh.
Qed.

(** C11: whatever the location was changed to, one digest settles without exhausting its
    iterations: the page of the location is shown, the address bar holds the URL of the
    location, nothing is queued and nothing is thrown. *)
Theorem digest_settles s :
  service_ok s -> settled (sv_router s) -> all_shown (sv_loc s) ->
  sv_changes s = 0 \/ get_url (sv_browser s) <> loc_absUrl (sv_loc s) ->
  exists s', digest TTL s = Some s' /\ agreed (console_target (loc_path (sv_loc s))).1 s'
    /\ sv_exceptions s' = sv_exceptions s
    /\ forall k, ob_get (loc_search (sv_loc s')) k
       = if (console_target (loc_path (sv_loc s))).2 then ob_get (loc_search (sv_loc s)) k else None.
Proof.
  intros (Hb & Hc & Hk & Hq) Hst Hsh Hd. unfold TTL.
  destruct (digest_dirty s 9 Hq Hd) as (s2 & o & rep & -> & Hq2 & Hb2 & Hc2 & He2 & Hr2).
  assert (Hcr2 : console_ready (sv_router s2)) by (rewrite Hr2; exact Hc).
  assert (Hst2 : settled (sv_router s2)) by (rewrite Hr2; exact Hst).
  assert (Hl2 : sv_loc s2 = with_replace false (sv_loc s)) by (unfold sv_loc; by rewrite Hr2).
  assert (Hk2 : kept mode (sv_loc s2)) by (rewrite Hl2; exact Hk).
  assert (Hs2 : shows (loc_absUrl (sv_loc s2))) by (rewrite Hl2; apply Hsh).
  assert (Hbb : browser_ok (sv_browser s2)) by by rewrite Hb2.
  replace (loc_path (sv_loc s)) with (loc_path (ro_loc (sv_router s2))) by by rewrite Hr2.
  replace (loc_search (sv_loc s)) with (loc_search (ro_loc (sv_router s2))) by by rewrite Hr2.
  destruct (console_navigate mode _ Hcr2 Hst2) as (r1 & Hu & [(Hp & Hst1 & Hl & Hr & Ht)|Hred]).
  - destruct (digest_page _ s2 8 o rep r1 Hq2 Hbb Hk2 Hcr2 Hs2 Hc2 Hu Hp Hst1 Hl Hr) as (s' & E & Ha & Hl' & He').
    exists s'. rewrite He', He2. split_and!; [done|done|done|]. intros k. rewrite Ht, Hl'. done.
  - destruct (run_update (upd_queue [] s2) o rep r1 Hbb Hs2 Hc2 eq_refl Hu) as (s3 & Hrun & <- & Hch & He & Hq3 & Hb3 & Hg3).
    assert (Hdr : drain normalize anchor (fun _ _ => false) mode s2 = s3).
    { unfold drain. rewrite Hq2. cbn [run_tasks]. by rewrite Hrun. }
    rewrite (digest_drain _ _ _ Hq3 Hdr).
    assert (Hne : get_url (sv_browser s3) <> loc_absUrl (sv_loc s3)).
    { rewrite Hg3. intros E. destruct Hred as (H1 & H2 & H3 & H4). apply H3.
      symmetry. apply (kept_absUrl mode); [done| |done]. eapply redirected_kept. by split. }
    destruct (digest_dirty s3 8 Hq3 (or_intror Hne)) as (s4 & o4 & rep4 & -> & Hq4 & Hb4 & Hc4 & He4 & Hr4).
    assert (Hred4 : redirected mode (sv_router s2) (sv_router s4)) by (rewrite Hr4; exact Hred).
    destruct (redirected_page mode _ _ Hred4) as (r' & Hu' & Hp' & Hst' & Hl' & Hr').
    destruct (digest_page (console_target (loc_path (ro_loc (sv_router s2)))).1 s4 7 o4 rep4 r' Hq4 ltac:(by rewrite Hb4) (redirected_kept _ _ Hred4)
      (proj1 Hred4)) as (s' & E & Ha & Hl5 & He5); try done.
    { eapply redirected_shows; [|exact Hred4]. fold (sv_loc s2). rewrite Hl2. exact Hsh. }
    exists s'. rewrite He5, He4, He. split_and!; [done|done|done|]. intros k. rewrite Hl5. cbn [with_replace loc_search].
    change (loc_search (sv_loc s4)) with (loc_search (ro_loc (sv_router s4))).
    destruct Hred4 as (_ & _ & _ & _ & -> & _). destruct Hcr2 as (_ & [Hqq _] & _).
    destruct ((console_target (loc_path (ro_loc (sv_router s2)))).2); [|done].
    by rewrite extend_nil, ob_get_select_all.
Qed.
End Sync.

Definition sample_mode : location_mode := LocationHashbangUrl (js "http://h/ui/") (js "#").

(** The user typed a path with a trailing slash: the location follows, the page does not yet. *)
Definition sample_service : service :=
  let url := js "http://h/ui/#/search/?brokerUrl=http:%2F%2Fb%2F" in
  Service (Browser true url [] url None 0 [] [] 0)
    (Router console_routes
      (Location (js "http") (js "h") (jint 80) (js "/search/") [(js "brokerUrl", QStr (js "http://b/"))] []
        (js "/search/?brokerUrl=http:%2F%2Fb%2F") url false)
      None [] false 0 [] [])
    0 None [] [] [].

Lemma sample_service_ok :
  service_ok sample_mode sample_service /\ settled (sv_router sample_service)
  /\ all_shown id sample_mode (sv_loc sample_service).
Proof.
  split_and!; [|by intros m|].
  - assert (Hq : query_ok (loc_search (sv_loc sample_service))).
    { split; [|done]. split.
      - unfold ob_wf. apply (bool_decide_unpack _). by vm_compute.
      - repeat constructor; try (by apply js_text_dec); try done; vm_compute; discriminate. }
    split; [by split|]. split; [split; [done|]; split; [done|by apply js_text_dec]|].
    split; [|done]. split; [by apply js_text_dec|]. by split.
  - split; [by split|]. intros p q u Hp Hq Hu.
    apply list_elem_of_fmap in Hp as (pg & -> & Hpg).
    destruct Hq as [-> | ->]; each_page Hpg; vm_compute in Hu; injection Hu as <-; by split.
Qed.

Lemma digest_settles_witness :
  exists s', digest id simple_anchor (fun _ _ => false) sample_mode TTL sample_service = Some s'
    /\ agreed sample_mode (console_target (loc_path (sv_loc sample_service))).1 s'
    /\ sv_exceptions s' = sv_exceptions sample_service
    /\ forall k, ob_get (loc_search (sv_loc s')) k
       = if (console_target (loc_path (sv_loc sample_service))).2
         then ob_get (loc_search (sv_loc sample_service)) k else None.
Proof.
  apply digest_settles; [apply sample_service_ok..|by left].
Defined.
