(* ===== verification/Cache.v ===== *)
(** * The caches of $cacheFactory (angular.js)

    A cache keeps its data, a count of them and, when it has a capacity, a doubly linked list
    of entries from the stalest to the freshest.  An entry is known by its key: [lruHash] holds
    at most one per key.  The keys are names that [Object.prototype] does not have
    ([cache_key]): on the others the code reads inherited members. *)

From S2P Require Import Prelude JsString JsObject JsNumber UriCodec Json.

Definition cache_key (k : jstr) : Prop := in_object_proto k = false.

(** [p] is the next staler entry, [n] the next fresher one. *)
Record entry : Type := Entry { e_p : option jstr; e_n : option jstr }.

Record cache (V : Type) : Type := Cache {
  c_capacity : option Z;               (** [None] is [Number.MAX_VALUE] *)
  c_size : Z;
  c_data : gmap jstr V;
  c_lru : gmap jstr entry;             (** [lruHash] *)
  c_fresh : option jstr;               (** [freshEnd] *)
  c_stale : option jstr                (** [staleEnd] *)
}.
Arguments Cache {V}.
Arguments c_capacity {V}. Arguments c_size {V}. Arguments c_data {V}.
Arguments c_lru {V}. Arguments c_fresh {V}. Arguments c_stale {V}.

Section Cache.
Context {V : Type}.
Implicit Types (c : cache V) (k : jstr).

Definition set_p (p : option jstr) (e : entry) : entry := Entry p (e_n e).
Definition set_n (n : option jstr) (e : entry) : entry := Entry (e_p e) n.

(** [link]. *)
Definition link (nextEntry prevEntry : option jstr) (h : gmap jstr entry) : gmap jstr entry :=
  if decide (nextEntry = prevEntry) then h
  else
    let h := match nextEntry with Some x => alter (set_p prevEntry) x h | None => h end in
    match prevEntry with Some y => alter (set_n nextEntry) y h | None => h end.

Definition with_list (h : gmap jstr entry) (fresh stale : option jstr) c : cache V :=
  Cache (c_capacity c) (c_size c) (c_data c) h fresh stale.
Definition with_data (size : Z) (data : gmap jstr V) c : cache V :=
  Cache (c_capacity c) size data (c_lru c) (c_fresh c) (c_stale c).

Definition e_n_of (h : gmap jstr entry) k : option jstr := h !! k ≫= e_n.
Definition e_p_of (h : gmap jstr entry) k : option jstr := h !! k ≫= e_p.

(** [refresh(lruHash[key])]. *)
Definition refresh k c : cache V :=
  if decide (Some k = c_fresh c) then c
  else
    let stale := match c_stale c with
                 | None => Some k
                 | Some s => if decide (s = k) then e_n_of (c_lru c) k else Some s
                 end in
    let h := link (e_n_of (c_lru c) k) (e_p_of (c_lru c) k) (c_lru c) in
    let h := link (Some k) (c_fresh c) h in
    with_list (alter (set_n None) k h) (Some k) stale c.

Definition bounded c : bool := match c_capacity c with Some _ => true | None => false end.

(** [remove]. *)
Definition remove k c : cache V :=
  let forget c := with_data (c_size c - 1) (delete k (c_data c)) c in
  if bounded c then
    match c_lru c !! k with
    | None => c
    | Some e =>
        let fresh := if decide (Some k = c_fresh c) then e_p e else c_fresh c in
        let stale := if decide (Some k = c_stale c) then e_n e else c_stale c in
        forget (with_list (delete k (link (e_n e) (e_p e) (c_lru c))) fresh stale c)
    end
  else forget c.

(** [put]: an [undefined] value ([None]) only refreshes; reading the key of a missing
    [staleEnd] is an exception. *)
Definition put k (value : option V) c : result js_error (cache V * option V) :=
  let c := if bounded c then
             refresh k match c_lru c !! k with
                       | Some _ => c
                       | None => with_list (<[k := Entry None None]> (c_lru c)) (c_fresh c) (c_stale c) c
                       end
           else c in
  match value with
  | None => Ok (c, None)
  | Some v =>
      let size := match c_data c !! k with Some _ => c_size c | None => (c_size c + 1)%Z end in
      let c := with_data size (<[k := v]> (c_data c)) c in
      if match c_capacity c with Some cap => (cap <? size)%Z | None => false end then
        match c_stale c with
        | Some s => Ok (remove s c, Some v)
        | None => Throw JsTypeError
        end
      else Ok (c, Some v)
  end.

(** [get]. *)
Definition get k c : cache V * option V :=
  if bounded c then
    match c_lru c !! k with
    | None => (c, None)
    | Some _ => let c := refresh k c in (c, c_data c !! k)
    end
  else (c, c_data c !! k).

Definition removeAll c : cache V := Cache (c_capacity c) 0 ∅ ∅ None None.

(** [info().size]. *)
Definition info_size c : Z := c_size c.

(** [cacheFactory(id, {capacity: n})] on an empty store; a capacity of 0 is none. *)
Definition new_cache (capacity : option Z) : cache V :=
  Cache match capacity with Some z => if Z.eqb z 0 then None else Some z | None => None end 0 ∅ ∅ None None.

End Cache.

(** ** The factory *)

Section Factory.
Context {V : Type}.

Definition cacheFactory (caches : jsobj (cache V)) (cacheId : jstr) (capacity : option Z)
    : result js_error (jsobj (cache V)) :=
  if ob_has caches cacheId || in_object_proto cacheId then Throw (JsMinErr (js "$cacheFactory:iid"))
  else Ok (ob_set caches cacheId (new_cache capacity)).

(** [destroy], as the factory sees it. *)
Definition destroy (caches : jsobj (cache V)) (cacheId : jstr) : jsobj (cache V) := ob_delete caches cacheId.

End Factory.
