(* ===== verification/CacheFacts.v ===== *)
(** * The bounded caches are least-recently-used caches *)

From S2P Require Import Prelude JsString JsObject JsNumber UriCodec Json Cache.

Section Facts.
Context {V : Type}.
Implicit Types (c : cache V) (k : jstr) (l : list jstr) (h : gmap jstr entry).

(** ** Segments of the linked list *)

(** The entries of [l] in [h] are linked to each other, to [p] before and to [n] after. *)
Fixpoint seg h (p : option jstr) l (n : option jstr) : Prop :=
  match l with
  | [] => True
  | k :: l' => h !! k = Some (Entry p (match l' with [] => n | k' :: _ => Some k' end)) /\ seg h (Some k) l' n
  end.

Definition or_opt (a b : option jstr) : option jstr := match a with Some _ => a | None => b end.

Lemma seg_app h p l1 l2 n :
  seg h p (l1 ++ l2) n <-> seg h p l1 (or_opt (head l2) n) /\ seg h (or_opt (last l1) p) l2 n.
Proof.
  revert p. induction l1 as [|k l1 IH]; intros p; cbn [app seg].
  - cbn. tauto.
  - rewrite IH. destruct l1 as [|k1 l1].
    + cbn. destruct l2; cbn; tauto.
    + cbn [app]. change (last (k :: k1 :: l1)) with (last (k1 :: l1)).
      destruct (last (k1 :: l1)) eqn:E; [cbn; tauto|]. by apply last_None in E.
Qed.

Lemma seg_frame h p l n f k : k ∉ l -> seg h p l n -> seg (alter f k h) p l n.
Proof.
  revert p. induction l as [|k' l IH]; intros p; cbn [seg]; [done|].
  rewrite not_elem_of_cons. intros [Hk Hl] [H1 H2]. split; [by rewrite lookup_alter_ne|by apply IH].
Qed.

Lemma seg_frame_insert h p l n k e : k ∉ l -> seg h p l n -> seg (<[k := e]> h) p l n.
Proof.
  revert p. induction l as [|k' l IH]; intros p; cbn [seg]; [done|].
  rewrite not_elem_of_cons. intros [Hk Hl] [H1 H2]. split; [by rewrite lookup_insert_ne|by apply IH].
Qed.

Lemma seg_frame_delete h p l n k : k ∉ l -> seg h p l n -> seg (delete k h) p l n.
Proof.
  revert p. induction l as [|k' l IH]; intros p; cbn [seg]; [done|].
  rewrite not_elem_of_cons. intros [Hk Hl] [H1 H2]. split; [by rewrite lookup_delete_ne|by apply IH].
Qed.

(** Changing the link after the last entry, or before the first one. *)
Lemma seg_set_n h p l k n n' :
  k ∉ l -> seg h p (l ++ [k]) n -> seg (alter (set_n n') k h) p (l ++ [k]) n'.
Proof.
  rewrite !seg_app. intros Hk [H1 H2]. split; [by apply seg_frame|]. cbn in *.
  destruct H2 as [H2 _]. by rewrite lookup_alter_eq, H2.
Qed.

Lemma seg_set_p h p l k n p' :
  k ∉ l -> seg h p (k :: l) n -> seg (alter (set_p p') k h) p' (k :: l) n.
Proof.
  cbn [seg]. intros Hk [H1 H2]. split; [by rewrite lookup_alter_eq, H1|by apply seg_frame].
Qed.

(** [link] joins two segments. *)
Lemma link_seg h l1 l2 a b n :
  seg h None l1 a -> seg h b l2 n -> NoDup (l1 ++ l2) -> (l2 = [] -> n = None) ->
  seg (link (head l2) (last l1) h) None (l1 ++ l2) n.
Proof.
  intros H1 H2 Hnd Hn. apply NoDup_app in Hnd as (Hnd1 & Hd & Hnd2). unfold link.
  destruct l2 as [|x l2]; cbn [head].
  - rewrite Hn, app_nil_r by done. destruct l1 as [|y l1 _] using rev_ind; [done|].
    rewrite last_snoc. rewrite decide_False by done. apply NoDup_app in Hnd1 as (_ & Hy & _).
    eapply seg_set_n; [|exact H1]. intros Hin. apply (Hy _ Hin). by left.
  - apply NoDup_cons in Hnd2 as [Hx _].
    destruct l1 as [|y l1 _] using rev_ind.
    + cbn [last app]. rewrite decide_False by done. by eapply seg_set_p.
    + rewrite last_snoc. apply NoDup_app in Hnd1 as (_ & Hy & _).
      assert (Hyx : y <> x). { intros ->. apply (Hd x); [apply elem_of_app; right; by left|by left]. }
      rewrite decide_False by congruence. apply seg_app. cbn [head or_opt]. rewrite last_snoc. cbn [or_opt]. split.
      * eapply seg_set_n; [intros Hin; apply (Hy _ Hin); by left|]. apply seg_frame; [|exact H1].
        intros Hin. apply (Hd x Hin). by left.
      * apply seg_frame; [|by eapply seg_set_p].
        intros Hin. apply (Hd y); [apply elem_of_app; right; by left|done].
Qed.

Lemma link_dom h a b k : is_Some (link a b h !! k) <-> is_Some (h !! k).
Proof.
  unfold link. destruct (decide (a = b)); [done|].
  destruct a as [x|], b as [y|]; by rewrite ?lookup_alter_is_Some.
Qed.

Lemma link_ne h a b k : Some k <> a -> Some k <> b -> link a b h !! k = h !! k.
Proof.
  intros Ha Hb. unfold link. destruct (decide (a = b)); [done|].
  destruct a as [x|], b as [y|]; rewrite ?lookup_alter_ne by congruence; done.
Qed.

(** ** The list of a cache *)

Record lru_repr c l : Prop := {
  lr_seg : seg (c_lru c) None l None;
  lr_nodup : NoDup l;
  lr_dom : forall k, is_Some (c_lru c !! k) <-> k ∈ l;
  lr_fresh : c_fresh c = last l;
  lr_stale : c_stale c = head l
}.

Definition without k l : list jstr := filter (fun x => x <> k) l.

Lemma without_middle k l1 l2 : NoDup (l1 ++ k :: l2) -> without k (l1 ++ k :: l2) = l1 ++ l2.
Proof.
  intros Hnd. apply NoDup_app in Hnd as (_ & Hd & Hnd2). apply NoDup_cons in Hnd2 as [Hk _].
  unfold without. rewrite filter_app, filter_cons_False by by intros [].
  rewrite !list_filter_all; [done| |]; apply Forall_forall; intros x Hx ->; [done|].
  apply (Hd k Hx). by left.
Qed.

Lemma without_absent k l : k ∉ l -> without k l = l.
Proof. intros Hk. apply list_filter_all. apply Forall_forall. by intros x Hx ->. Qed.

Lemma last_cons_ne x l : l <> [] -> last (x :: l) = last l.
Proof. by destruct l. Qed.

Lemma last_middle l1 k l2 : last (l1 ++ k :: l2) = or_opt (last l2) (Some k).
Proof.
  rewrite last_app. destruct l2 as [|x l2]; [done|]. rewrite last_cons_ne by done.
  destruct (last (x :: l2)) eqn:E; [done|]. by apply last_None in E.
Qed.

(** The parts of the list around one of its keys. *)
Lemma repr_at c l1 k l2 :
  lru_repr c (l1 ++ k :: l2) ->
  c_lru c !! k = Some (Entry (last l1) (head l2))
  /\ seg (c_lru c) None l1 (Some k) /\ seg (c_lru c) (Some k) l2 None
  /\ k ∉ l1 ++ l2 /\ NoDup (l1 ++ l2) /\ Some k <> last l1 /\ Some k <> head l2.
Proof.
  intros [Hs Hnd _ _ _]. apply seg_app in Hs as [Hs1 Hs2]. cbn [head or_opt seg] in Hs1, Hs2.
  rewrite <- Permutation_middle in Hnd. apply NoDup_cons in Hnd as [Hk Hnd]. destruct Hs2 as [He Hs2].
  split_and!; try done.
  - rewrite He. f_equal. f_equal. by destruct (last l1).
  - intros E. symmetry in E. apply last_Some in E as [l' ->]. apply Hk. rewrite !elem_of_app.
    left; right; by left.
  - intros E. apply Hk, elem_of_app. right. destruct l2; [done|]. injection E as ->. by left.
Qed.

(** An entry put at the fresh end of a list that does not have it. *)
Lemma append_seg h l k n :
  seg h None l None -> k ∉ l -> NoDup l -> h !! k = Some (Entry (last l) n) ->
  seg (alter (set_n None) k (link (Some k) (last l) h)) None (l ++ [k]) None.
Proof.
  intros Hs Hk Hnd He. eapply seg_set_n; [done|].
  change (Some k) with (head [k]). eapply (link_seg h l [k] None (last l) n); [done| | |done].
  - cbn. by rewrite He.
  - apply NoDup_app. split_and!; [done| |apply NoDup_singleton].
    intros x Hx. by intros ->%list_elem_of_singleton.
Qed.

Lemma refresh_old c l1 k l2 :
  lru_repr c (l1 ++ k :: l2) -> lru_repr (refresh k c) ((l1 ++ l2) ++ [k]).
Proof.
  intros Hr. destruct (repr_at c l1 k l2 Hr) as (He & Hs1 & Hs2 & Hk & Hnd & Hp & Hn).
  pose proof Hr as [Hs Hnd0 Hdom Hfresh Hstale]. unfold refresh. rewrite Hfresh, last_middle.
  destruct l2 as [|x l2].
  { cbn. rewrite decide_True by done. by rewrite app_nil_r. }
  destruct (last (x :: l2)) as [y|] eqn:Ey; [|by apply last_None in Ey]. cbn [or_opt].
  assert (Hky : k <> y).
  { intros ->. apply Hk, elem_of_app. right. apply last_Some in Ey as [l' ->].
    apply elem_of_app. right; by left. }
  rewrite decide_False by congruence. unfold e_n_of, e_p_of. rewrite He. cbn [option_bind mbind e_n e_p].
  assert (Hlast : last (l1 ++ x :: l2) = Some y).
  { rewrite last_app, Ey. done. }
  pose proof (link_seg _ _ _ _ _ _ Hs1 Hs2 Hnd (fun _ => eq_refl)) as Hjoin.
  assert (Hk1 : link (head (x :: l2)) (last l1) (c_lru c) !! k = Some (Entry (last l1) (Some x))).
  { by rewrite link_ne. }
  assert (Hlink2 : seg (link (Some k) (Some y) (link (head (x :: l2)) (last l1) (c_lru c)))
    None ((l1 ++ x :: l2) ++ [k]) (Some x)).
  { rewrite <- Hlast. change (Some k) with (head [k]).
    eapply (link_seg _ _ _ None (last l1)); [exact Hjoin| | |done].
    - cbn [seg]. split; [exact Hk1|done].
    - apply NoDup_app. split_and!; [done| |apply NoDup_singleton].
      intros z Hz. by intros ->%list_elem_of_singleton. }
  constructor; cbn [with_list c_lru c_fresh c_stale].
  - eapply seg_set_n; [done|exact Hlink2].
  - apply NoDup_app. split_and!; [done| |apply NoDup_singleton].
    intros z Hz. by intros ->%list_elem_of_singleton.
  - intros z. rewrite lookup_alter_is_Some, !link_dom, Hdom. rewrite !elem_of_app, !elem_of_cons, elem_of_nil. tauto.
  - by rewrite last_snoc.
  - rewrite Hstale. destruct l1 as [|z l1]; cbn [app head]; [by rewrite decide_True|].
    rewrite decide_False; [done|]. intros ->. apply Hk. by left.
Qed.

Lemma refresh_new c l k :
  lru_repr c l -> k ∉ l ->
  lru_repr (refresh k (with_list (<[k := Entry None None]> (c_lru c)) (c_fresh c) (c_stale c) c)) (l ++ [k]).
Proof.
  intros [Hs Hnd Hdom Hfresh Hstale] Hk. unfold refresh. cbn [with_list c_fresh c_stale c_lru].
  rewrite decide_False.
  2:{ rewrite Hfresh. intros E. symmetry in E. apply last_Some in E as [l' ->]. apply Hk, elem_of_app. right; by left. }
  unfold e_n_of, e_p_of. rewrite lookup_insert_eq. cbn [option_bind mbind e_n e_p].
  assert (Hl : link None None (<[k:=Entry None None]> (c_lru c)) = <[k:=Entry None None]> (c_lru c)).
  { unfold link. by rewrite decide_True. }
  rewrite Hl, Hfresh. constructor; cbn [with_list c_lru c_fresh c_stale].
  - eapply seg_set_n; [done|]. change (Some k) with (head [k]).
    eapply (link_seg _ _ _ None None); [by apply seg_frame_insert| | |done].
    + cbn [seg]. by rewrite lookup_insert_eq.
    + apply NoDup_app. split_and!; [done| |apply NoDup_singleton].
      intros z Hz. by intros ->%list_elem_of_singleton.
  - apply NoDup_app. split_and!; [done| |apply NoDup_singleton].
    intros z Hz. by intros ->%list_elem_of_singleton.
  - intros z. rewrite lookup_alter_is_Some, link_dom, elem_of_app, list_elem_of_singleton, <- Hdom.
    destruct (decide (z = k)) as [-> |Hz]; [rewrite lookup_insert_eq; split; [by right|by eauto]|].
    rewrite lookup_insert_ne by done. split; [by left|by intros [?|?]].
  - by rewrite last_snoc.
  - rewrite Hstale. destruct l as [|z l]; [done|]. cbn [head app].
    rewrite decide_False; [done|]. intros ->. apply Hk. by left.
Qed.

Lemma remove_repr c l1 k l2 :
  bounded c = true -> lru_repr c (l1 ++ k :: l2) -> lru_repr (remove k c) (l1 ++ l2).
Proof.
  intros Hb Hr. destruct (repr_at c l1 k l2 Hr) as (He & Hs1 & Hs2 & Hk & Hnd & Hp & Hn).
  pose proof Hr as [Hs Hnd0 Hdom Hfresh Hstale]. unfold remove. rewrite Hb, He. cbn [e_p e_n].
  constructor; cbn [with_data with_list c_lru c_fresh c_stale].
  - apply seg_frame_delete; [done|]. by eapply link_seg.
  - done.
  - intros z. destruct (decide (z = k)) as [-> |Hz].
    + rewrite lookup_delete_eq. split; [by intros []|done].
    + rewrite lookup_delete_ne, link_dom, Hdom by done. rewrite !elem_of_app, elem_of_cons. tauto.
  - rewrite Hfresh, last_middle, last_app. destruct l2 as [|x l2]; [by rewrite decide_True|].
    destruct (last (x :: l2)) as [y|] eqn:Ey; [|by apply last_None in Ey]. cbn [or_opt].
    rewrite decide_False; [done|]. intros [= ->]. apply Hk, elem_of_app. right.
    apply last_Some in Ey as [l' ->]. apply elem_of_app. right; by left.
  - rewrite Hstale. destruct l1 as [|z l1]; cbn [app head]; [by rewrite decide_True|].
    rewrite decide_False; [done|]. intros [= ->]. apply Hk. by left.
Qed.

(** ** The specification *)

(** A least-recently-used cache: the entries from the stalest to the freshest. *)
Definition sp_remove k (s : jsobj V) : jsobj V := filter (fun e => e.1 <> k) s.
Definition sp_put (cap : Z) k (v : V) (s : jsobj V) : jsobj V :=
  let s := sp_remove k s ++ [(k, v)] in
  if (cap <? Z.of_nat (length s))%Z then tail s else s.
Definition sp_get k (s : jsobj V) : jsobj V * option V :=
  match ob_get s k with
  | Some v => (sp_remove k s ++ [(k, v)], Some v)
  | None => (s, None)
  end.

Inductive op : Type :=
| OpPut k (v : V)
| OpGet k
| OpRemove k
| OpRemoveAll
| OpInfo.

Inductive answer : Type := AnValue (v : option V) | AnSize (n : Z) | AnNone.

(** One call on the cache of the code, and on the specification. *)
Definition call (o : op) c : result js_error (cache V * answer) :=
  match o with
  | OpPut k v => rbind (put k (Some v) c) (fun r => Ok (r.1, AnValue r.2))
  | OpGet k => let r := get k c in Ok (r.1, AnValue r.2)
  | OpRemove k => Ok (remove k c, AnNone)
  | OpRemoveAll => Ok (removeAll c, AnNone)
  | OpInfo => Ok (c, AnSize (info_size c))
  end.

Definition sp_call (cap : Z) (o : op) (s : jsobj V) : jsobj V * answer :=
  match o with
  | OpPut k v => (sp_put cap k v s, AnValue (Some v))
  | OpGet k => let r := sp_get k s in (r.1, AnValue r.2)
  | OpRemove k => (sp_remove k s, AnNone)
  | OpRemoveAll => ([], AnNone)
  | OpInfo => (s, AnSize (Z.of_nat (length s)))
  end.

Fixpoint calls (os : list op) c : result js_error (cache V * list answer) :=
  match os with
  | [] => Ok (c, [])
  | o :: os' => rbind (call o c) (fun r => rbind (calls os' r.1) (fun r' => Ok (r'.1, r.2 :: r'.2)))
  end.

Fixpoint sp_calls (cap : Z) (os : list op) (s : jsobj V) : jsobj V * list answer :=
  match os with
  | [] => (s, [])
  | o :: os' => let r := sp_call cap o s in let r' := sp_calls cap os' r.1 in (r'.1, r.2 :: r'.2)
  end.

(** ** The simulation *)

Record simulates (cap : Z) c (s : jsobj V) : Prop := {
  sm_list : lru_repr c (ob_names s);
  sm_size : c_size c = Z.of_nat (length s);
  sm_data : forall k, c_data c !! k = ob_get s k;
  sm_capacity : c_capacity c = Some cap
}.

Lemma ob_get_remove k k' s : ob_get (sp_remove k s) k' = if decide (k' = k) then None else ob_get s k'.
Proof.
  unfold sp_remove. induction s as [|[x v] s IH]; [by destruct (decide _)|].
  destruct (decide (x = k)) as [-> |Hx].
  - rewrite filter_cons_False by by intros []. rewrite IH. cbn.
    destruct (decide (k' = k)) as [-> |Hk]; [done|]. by rewrite (proj2 (jeqb_false k' k)).
  - rewrite filter_cons_True by done. cbn [ob_get]. destruct (jeqb k' x) eqn:E.
    + apply jeqb_true in E as ->. by rewrite decide_False.
    + done.
Qed.

Lemma ob_get_app (a b : jsobj V) k :
  ob_get (a ++ b) k = match ob_get a k with Some v => Some v | None => ob_get b k end.
Proof. induction a as [|[x v] a IH]; [done|]. cbn. by destruct (jeqb k x). Qed.

Lemma names_remove k s : ob_names (sp_remove k s) = without k (ob_names s).
Proof.
  unfold sp_remove, without, ob_names. induction s as [|[x v] s IH]; [done|].
  destruct (decide (x = k)) as [-> |Hx]; cbn [map fst].
  - rewrite !filter_cons_False by by intros []. done.
  - rewrite !filter_cons_True by done. cbn. by rewrite IH.
Qed.

Lemma names_split k s : NoDup (ob_names s) -> k ∈ ob_names s ->
  exists l1 l2, ob_names s = l1 ++ k :: l2 /\ ob_names (sp_remove k s) = l1 ++ l2.
Proof.
  intros Hnd (l1 & l2 & E)%list_elem_of_split. exists l1, l2. split; [done|].
  rewrite names_remove, E. apply without_middle. by rewrite <- E.
Qed.

Lemma length_names (s : jsobj V) : length (ob_names s) = length s.
Proof. apply length_map. Qed.

Lemma length_remove k s : NoDup (ob_names s) ->
  length s = (length (sp_remove k s) + match ob_get s k with Some _ => 1 | None => 0 end)%nat.
Proof.
  intros Hnd. rewrite <- !length_names. destruct (ob_get s k) as [v|] eqn:E.
  - destruct (names_split k s Hnd) as (l1 & l2 & -> & ->); [apply ob_get_names; eauto|].
    rewrite !length_app. cbn. lia.
  - rewrite names_remove, without_absent; [lia|]. by apply ob_get_None.
Qed.

Lemma refresh_fields k c :
  c_data (refresh k c) = c_data c /\ c_size (refresh k c) = c_size c /\ c_capacity (refresh k c) = c_capacity c.
Proof. unfold refresh. by destruct (decide _). Qed.

(** [refresh] of a present key, and of a key just created. *)
Lemma touch_repr c s k :
  lru_repr c (ob_names s) -> lru_repr
    (refresh k match c_lru c !! k with
               | Some _ => c
               | None => with_list (<[k := Entry None None]> (c_lru c)) (c_fresh c) (c_stale c) c
               end) (ob_names (sp_remove k s) ++ [k]).
Proof.
  intros Hr. destruct (c_lru c !! k) as [e|] eqn:E.
  - destruct (names_split k s) as (l1 & l2 & E1 & ->); [apply Hr|apply (lr_dom _ _ Hr); eauto|].
    rewrite E1 in Hr. by apply refresh_old.
  - assert (Hk : k ∉ ob_names s). { rewrite <- (lr_dom _ _ Hr), E. by intros []. }
    rewrite names_remove, without_absent by done. by apply refresh_new.
Qed.

Lemma simulates_remove cap c s k : simulates cap c s -> simulates cap (remove k c) (sp_remove k s).
Proof.
  intros [Hl Hs Hd Hc]. pose proof (length_remove k s (lr_nodup _ _ Hl)) as Hlen.
  assert (Hbd : bounded c = true) by (unfold bounded; by rewrite Hc).
  destruct (ob_get s k) as [v|] eqn:E.
  - assert (Hin : k ∈ ob_names s) by (apply ob_get_names; eauto).
    destruct (names_split k s (lr_nodup _ _ Hl) Hin) as (l1 & l2 & E1 & E2).
    pose proof Hl as Hl0. rewrite E1 in Hl0. pose proof (remove_repr c l1 k l2 Hbd Hl0) as Hr.
    assert (He : is_Some (c_lru c !! k)) by by apply (lr_dom _ _ Hl).
    destruct He as [e He]. constructor; [by rewrite E2|..]; unfold remove; rewrite ?Hbd, ?He;
      cbn [with_data with_list c_size c_data c_capacity]; try done; try lia.
    intros k'. rewrite ob_get_remove. destruct (decide (k' = k)) as [-> |Hk]; [by rewrite lookup_delete_eq|].
    by rewrite lookup_delete_ne.
  - assert (Hk : k ∉ ob_names s) by by apply ob_get_None.
    assert (He : c_lru c !! k = None). { apply eq_None_not_Some. by rewrite (lr_dom _ _ Hl). }
    assert (Hid : sp_remove k s = s).
    { apply list_filter_all. apply Forall_forall. intros [x v] Hx Hxk. apply Hk. simpl in Hxk. subst.
      by apply (list_elem_of_fmap_2 fst s (k, v)). }
    unfold remove. rewrite Hbd, He, Hid. by constructor.
Qed.

(** A key moved or added at the fresh end, with its value. *)
Lemma names_touch k v s : ob_names (sp_remove k s ++ [(k, v)]) = ob_names (sp_remove k s) ++ [k].
Proof. unfold ob_names. by rewrite map_app. Qed.

Lemma ob_get_touch k v s k' :
  ob_get (sp_remove k s ++ [(k, v)]) k' = if decide (k' = k) then Some v else ob_get s k'.
Proof.
  rewrite ob_get_app, ob_get_remove. cbn [ob_get]. destruct (decide (k' = k)) as [-> |Hk].
  - by rewrite jeqb_refl.
  - apply jeqb_false in Hk. rewrite Hk. by destruct (ob_get s k').
Qed.

Lemma simulates_get cap c s k :
  simulates cap c s -> simulates cap (get k c).1 (sp_get k s).1 /\ (get k c).2 = (sp_get k s).2.
Proof.
  intros Hsim. pose proof Hsim as [Hl Hs Hd Hc].
  assert (Hbd : bounded c = true) by (unfold bounded; by rewrite Hc).
  pose proof (touch_repr c s k Hl) as Hr. pose proof (length_remove k s (lr_nodup _ _ Hl)) as Hlen.
  unfold get, sp_get. rewrite Hbd. destruct (c_lru c !! k) as [e|] eqn:E.
  - assert (Hin : is_Some (ob_get s k)). { apply ob_get_names, (lr_dom _ _ Hl). eauto. }
    destruct Hin as [v Hv]. rewrite Hv in *. cbn [fst snd].
    destruct (refresh_fields k c) as (H1 & H2 & H3). rewrite H1, Hd, Hv. split; [|done].
    constructor; [by rewrite names_touch|..].
    + rewrite H2, Hs, length_app. cbn. lia.
    + intros k'. rewrite H1, Hd, ob_get_touch. by destruct (decide (k' = k)) as [-> |].
    + by rewrite H3.
  - assert (Hn : ob_get s k = None).
    { apply ob_get_None. rewrite <- (lr_dom _ _ Hl), E. by intros []. }
    by rewrite Hn.
Qed.

(** Removing the key at the stale end is dropping the first entry. *)
Lemma sp_remove_head k v s : NoDup (ob_names ((k, v) :: s)) -> sp_remove k ((k, v) :: s) = s.
Proof.
  intros [Hk _]%NoDup_cons. unfold sp_remove. rewrite filter_cons_False by by intros [].
  apply list_filter_all. apply Forall_forall. intros [x w] Hx E. simpl in E. subst.
  apply Hk. by apply (list_elem_of_fmap_2 fst s (k, w)).
Qed.

Lemma simulates_put cap c s k v :
  (0 <= cap)%Z -> simulates cap c s ->
  exists c', put k (Some v) c = Ok (c', Some v) /\ simulates cap c' (sp_put cap k v s).
Proof.
  intros Hcap [Hl Hs Hd Hc]. pose proof (touch_repr c s k Hl) as Hr.
  pose proof (length_remove k s (lr_nodup _ _ Hl)) as Hlen.
  unfold put. assert (Hbd : bounded c = true) by (unfold bounded; by rewrite Hc). rewrite Hbd.
  set (c0 := match c_lru c !! k with Some _ => c | None => _ end) in *.
  assert (H0 : c_data c0 = c_data c /\ c_size c0 = c_size c /\ c_capacity c0 = c_capacity c).
  { unfold c0. by destruct (c_lru c !! k). }
  destruct (refresh_fields k c0) as (H1 & H2 & H3). destruct H0 as (H01 & H02 & H03).
  rewrite H1, H2, H01, H02, Hd. set (size := match ob_get s k with Some _ => _ | None => _ end).
  set (c1 := with_data size (<[k:=v]> (c_data c)) (refresh k c0)).
  set (s1 := sp_remove k s ++ [(k, v)]).
  assert (Hsize : size = Z.of_nat (length s1)).
  { unfold size, s1. rewrite length_app, Hs. cbn. destruct (ob_get s k); lia. }
  assert (Hc1 : c_capacity c1 = Some cap) by (unfold c1; cbn; by rewrite H3, H03).
  assert (Hl1 : lru_repr c1 (ob_names s1)) by (unfold s1; rewrite names_touch; by destruct Hr; constructor).
  assert (Hd1 : forall k', c_data c1 !! k' = ob_get s1 k').
  { intros k'. unfold c1, s1. cbn [with_data c_data]. rewrite ob_get_touch.
    destruct (decide (k' = k)) as [-> |Hk]; [by rewrite lookup_insert_eq|]. by rewrite lookup_insert_ne. }
  assert (Hsim : simulates cap c1 s1) by by constructor.
  rewrite Hc1. unfold sp_put. fold s1. rewrite Hsize. destruct (Z.ltb_spec cap (Z.of_nat (length s1))) as [Hlt|Hle].
  - destruct s1 as [|[k1 v1] s2] eqn:Es1; [simpl in Hlt; lia|].
    rewrite (lr_stale _ _ Hl1). cbn [ob_names map fst head tail]. eexists. split; [done|].
    rewrite <- (sp_remove_head k1 v1 s2 (lr_nodup _ _ Hl1)). by apply simulates_remove.
  - by exists c1.
Qed.

(** The specification never holds more than its capacity. *)
Lemma sp_call_bound cap o s :
  (0 <= cap)%Z -> NoDup (ob_names s) -> (Z.of_nat (length s) <= cap)%Z ->
  (Z.of_nat (length (sp_call cap o s).1) <= cap)%Z.
Proof.
  intros Hcap Hnd Hb. destruct o as [k v|k|k| |]; cbn [sp_call fst]; [| | |simpl; lia|done].
  - pose proof (length_remove k s Hnd) as Hlen. unfold sp_put.
    destruct (Z.ltb_spec cap (Z.of_nat (length (sp_remove k s ++ [(k, v)])))) as [Hlt|]; [|done].
    rewrite length_app in Hlt. cbn in Hlt.
    rewrite length_tl, length_app. cbn. destruct (ob_get s k); lia.
  - pose proof (length_remove k s Hnd) as Hlen. unfold sp_get. destruct (ob_get s k) eqn:E; [|done].
    cbn [fst]. rewrite length_app. cbn. lia.
  - pose proof (length_remove k s Hnd) as Hlen. destruct (ob_get s k); lia.
Qed.

Lemma simulates_call cap o c s :
  (0 <= cap)%Z -> simulates cap c s ->
  exists c', call o c = Ok (c', (sp_call cap o s).2) /\ simulates cap c' (sp_call cap o s).1.
Proof.
  intros Hcap Hsim. destruct o as [k v|k|k| |]; cbn [call sp_call fst snd].
  - destruct (simulates_put cap c s k v Hcap Hsim) as (c' & -> & Hs). by exists c'.
  - destruct (simulates_get cap c s k Hsim) as [Hs <-]. by exists (get k c).1.
  - exists (remove k c). split; [done|]. by apply simulates_remove.
  - exists (removeAll c). split; [done|]. destruct Hsim as [_ _ _ Hc]. constructor; try done.
    constructor; [done|constructor| |done|done]. intros k. cbn. rewrite lookup_empty.
    split; [by intros []|by intros ?%elem_of_nil].
  - exists c. split; [|done]. unfold info_size. by rewrite (sm_size _ _ _ Hsim).
Qed.

Lemma simulates_calls cap os c s :
  (0 <= cap)%Z -> simulates cap c s -> (Z.of_nat (length s) <= cap)%Z ->
  exists c', calls os c = Ok (c', (sp_calls cap os s).2) /\ simulates cap c' (sp_calls cap os s).1
    /\ (c_size c' <= cap)%Z.
Proof.
  intros Hcap. revert c s. induction os as [|o os IH]; intros c s Hsim Hb; cbn [calls sp_calls].
  - exists c. rewrite (sm_size _ _ _ Hsim). done.
  - destruct (simulates_call cap o c s Hcap Hsim) as (c1 & -> & Hsim1). cbn [rbind fst snd].
    destruct (IH c1 _ Hsim1) as (c' & -> & Hs & Hb'); [|by exists c'].
    apply sp_call_bound; [done| |done]. apply (sm_list _ _ _ Hsim).
Qed.

Lemma simulates_new cap : cap <> 0%Z -> simulates cap (new_cache (Some cap)) [].
Proof.
  intros Hcap. unfold new_cache. apply Z.eqb_neq in Hcap. rewrite Hcap. constructor; try done.
  constructor; [done|constructor| |done|done]. intros k. cbn. rewrite lookup_empty.
  split; [by intros []|by intros ?%elem_of_nil].
Qed.
End Facts.

Definition keys_ok {V} (os : list (@op V)) : Prop :=
  Forall (fun o => match o with OpPut k _ | OpGet k | OpRemove k => cache_key k | _ => True end) os.


Definition sample_calls : list (@op Z) :=
  [OpPut (js "a") 1; OpPut (js "b") 2; OpGet (js "a"); OpPut (js "c") 3; OpGet (js "b"); OpInfo]%Z.


(** A [put] of [undefined] leaves an entry without data, which is then evicted for nothing:
    the cache below holds two values for a capacity of one. *)
Example undefined_overflow :
  let c0 := new_cache (V := Z) (Some 1%Z) in
  match put (js "a") None c0 with
  | Ok (c1, _) => match put (js "b") (Some 1%Z) c1 with
                  | Ok (c2, _) => match put (js "c") (Some 2%Z) c2 with
                                  | Ok (c3, _) => (c_data c3 !! js "b", c_data c3 !! js "c", c_size c3)
                                  | _ => (None, None, 0%Z)
                                  end
                  | _ => (None, None, 0%Z)
                  end
  | _ => (None, None, 0%Z)
  end = (Some 1%Z, Some 2%Z, 1%Z).
Proof. by vm_compute. Qed.

(** Without a capacity the count is decreased even when the key is not there. *)
Example remove_missing :
  c_size (remove (js "a") (new_cache (V := Z) None)) = (-1)%Z.
Proof. by vm_compute. Qed.
