(* ===== verification/Lexer.v ===== *)
(** * The lexer of Angular expressions (angular.js, Lexer)

    A token carries what the parser asks of it: its text, and what its function is made from.
    A [peek] beyond the text is [false], which [isNumber] takes for a digit. *)

From S2P Require Import Prelude JsString JsObject JsNumber UriCodec Json.

(** What a token's [fn] is: none for punctuation and method names, an operator, a constant of
    [OPERATORS], a number, a string, or the getter of a dotted name. *)
Inductive token_fn : Type :=
| FnNone
| FnOperator
| FnConstant (v : json)
| FnNumber (n : num)
| FnString (s : jstr)
| FnGetter (ident : jstr).

(** The text of a number is the number itself, so that no operator equals it. *)
Inductive token_text : Type := TextStr (s : jstr) | TextNum (n : num).

Record token : Type := Token { tk_index : nat; tk_text : token_text; tk_fn : token_fn }.

Definition parse_error (code : lit) : js_error := JsMinErr (js "$parse:" ++ js code).
Arguments parse_error code%_string_scope.

Definition unsafe_names : list jstr :=
  [js "__defineGetter__"; js "__defineSetter__"; js "__lookupGetter__"; js "__lookupSetter__"; js "__proto__"].

Definition ensureSafeMemberName (name : jstr) : result js_error jstr :=
  if bool_decide (name ∈ unsafe_names) then Throw (parse_error "isecfld") else Ok name.

(** ** Classes of units *)

Definition isNumber (ch : unit16) : bool := is_digit ch.
(** [isNumber] on the result of [peek]. *)
Definition isNumber_peek (ch : option unit16) : bool := match ch with Some c => isNumber c | None => true end.

Definition isWhitespace (ch : unit16) : bool :=
  ((ch =? 32) || (ch =? 13) || (ch =? 9) || (ch =? 10) || (ch =? 11) || (ch =? 160))%N.

Definition isIdent (ch : unit16) : bool :=
  ((97 <=? ch)%N && (ch <=? 122)%N) || ((65 <=? ch)%N && (ch <=? 90)%N) || (ch =? chr "_")%N || (ch =? chr "$")%N.

Definition is_sign (ch : unit16) : bool := (ch =? chr "-")%N || (ch =? chr "+")%N.
Definition isExpOperator (ch : unit16) : bool := is_sign ch || isNumber ch.
Definition isExpOperator_peek (ch : option unit16) : bool :=
  match ch with Some c => isExpOperator c | None => true end.

(** [this.is(chars)]. *)
Definition is_in (chars : jstr) (ch : unit16) : bool := bool_decide (ch ∈ chars).

Definition lower_ascii (c : unit16) : unit16 := if (65 <=? c)%N && (c <=? 90)%N then (c + 32)%N else c.

(** ** Operators *)

Definition operators3 : list jstr := [js "==="; js "!=="].
Definition operators2 : list jstr := [js "=="; js "!="; js "<="; js ">="; js "&&"; js "||"].
Definition operators1 : list jstr :=
  [js "+"; js "-"; js "*"; js "/"; js "%"; js "^"; js "="; js "<"; js ">"; js "&"; js "|"; js "!"].

(** The longest operator the text starts with, by its length. *)
Definition operator_length (s : jstr) : option nat :=
  if bool_decide (take 3 s ∈ operators3) then Some 3
  else if bool_decide (take 2 s ∈ operators2) then Some 2
  else if bool_decide (take 1 s ∈ operators1) then Some 1
  else None.

(** [OPERATORS[ident]] for the names it has. *)
Definition constant_of (ident : jstr) : option json :=
  if jeqb ident (js "null") then Some JNull
  else if jeqb ident (js "true") then Some (JBool true)
  else if jeqb ident (js "false") then Some (JBool false)
  else if jeqb ident (js "undefined") then Some JUndef
  else None.

(** ** Reading one token *)

(** [readNumber]: the units of the number, in lower case, and the rest. *)
Fixpoint number_units (number : jstr) (s : jstr) : result js_error (jstr * jstr) :=
  match s with
  | [] => Ok (number, [])
  | c :: r =>
      let ch := lower_ascii c in
      let after_e := match last number with Some d => (d =? chr "e")%N | None => false end in
      let peekCh := head r in
      if (ch =? chr ".")%N || isNumber ch then number_units (number ++ [ch]) r
      else if (ch =? chr "e")%N && isExpOperator_peek peekCh then number_units (number ++ [ch]) r
      else if isExpOperator ch && (match peekCh with Some p => isNumber p | None => false end) && after_e then
        number_units (number ++ [ch]) r
      else if isExpOperator ch && negb (match peekCh with Some p => isNumber p | None => false end) && after_e then
        Throw (parse_error "lexerr")
      else Ok (number, s)
  end.

(** [String.fromCharCode(parseInt(hex, 16))] on four hexadecimal digits. *)
Definition hex4 (s : jstr) : option unit16 :=
  match s with
  | [a; b; c; d] =>
      match hex_value a, hex_value b, hex_value c,
            hex_value d with
      | Some a, Some b, Some c, Some d => Some (((a * 16 + b) * 16 + c) * 16 + d)%N
      | _, _, _, _ => None
      end
  | _ => None
  end.

(** [ESCAPE[ch]], or the unit itself. *)
Definition escaped (ch : unit16) : unit16 :=
  if (ch =? chr "n")%N then 10%N else if (ch =? chr "f")%N then 12%N else if (ch =? chr "r")%N then 13%N
  else if (ch =? chr "t")%N then 9%N else if (ch =? chr "v")%N then 11%N else ch.

Definition backslash : unit16 := 92%N.

(** [readString] after the opening quote: the string, the raw text read (without the digits of
    the unicode escapes), the length read and the rest. *)
Fixpoint string_units (quote : unit16) (s : jstr) : result js_error (jstr * jstr * nat * jstr) :=
  match s with
  | [] => Throw (parse_error "lexerr")
  | ch :: r =>
      if (ch =? backslash)%N then
        match r with
        | [] => Throw (parse_error "lexerr")
        | e :: r =>
            if (e =? chr "u")%N then
              match r with
              | a :: b :: c :: d :: r' =>
                  match hex4 [a; b; c; d] with
                  | Some u => rbind (string_units quote r') (fun '(str, raw, n, rest) =>
                                Ok (u :: str, ch :: e :: raw, 6 + n, rest))
                  | None => Throw (parse_error "lexerr")
                  end
              | _ => Throw (parse_error "lexerr")
              end
            else rbind (string_units quote r) (fun '(str, raw, n, rest) =>
                   Ok (escaped e :: str, ch :: e :: raw, 2 + n, rest))
        end
      else if (ch =? quote)%N then Ok ([], [ch], 1, r)
      else rbind (string_units quote r) (fun '(str, raw, n, rest) => Ok (ch :: str, ch :: raw, S n, rest))
  end.

(** [getterFn] checks every key of the path. *)
Definition checked_path (ident : jstr) : result js_error jstr :=
  rbind (map_result ensureSafeMemberName (split (chr ".") ident)) (fun _ => Ok ident).

(** [readIdent]: a dotted name; when a parenthesis follows, its last part is a method name. *)
Definition readIdent (index : nat) (s : jstr) : result js_error (list token * nat) :=
  let '(ident, rest) := span (fun c => (c =? chr ".")%N || isIdent c || isNumber c) s in
  let '(blank, after) := span isWhitespace rest in
  let '(ident, methodName, len) :=
    match lastIndexOf ident (chr "."), after with
    | Some ((S _) as dot), c :: _ =>
        if (c =? chr "(")%N
        then (take dot ident, Some (dot, drop (dot + 1) ident), length ident + length blank)
        else (ident, None, length ident)
    | _, _ => (ident, None, length ident)
    end in
  rbind (match constant_of ident with
         | Some v => Ok (FnConstant v)
         | None => rbind (checked_path ident) (fun p => Ok (FnGetter p))
         end) (fun fn =>
    Ok (Token index (TextStr ident) fn ::
        match methodName with
        | Some (dot, ((_ :: _) as m)) =>
            [Token (index + dot) (TextStr (js ".")) FnNone; Token (index + dot + 1) (TextStr m) FnNone]
        | _ => []
        end, len)).

(** ** The loop of [lex] *)

(** The tokens at the start of a text that is not empty, and how much of it they take. *)
Definition lex_step (index : nat) (ch : unit16) (r : jstr) : result js_error (list token * nat) :=
  let s := ch :: r in
  if (ch =? chr "'")%N || (ch =? 34)%N then
    rbind (string_units ch r) (fun '(str, raw, n, _) =>
      Ok ([Token index (TextStr (ch :: raw)) (FnString str)], S n))
  else if isNumber ch || (ch =? chr ".")%N && isNumber_peek (head r) then
    rbind (number_units [] s) (fun '(number, rest) =>
      let n := num_of_str number in
      Ok ([Token index (TextNum n) (FnNumber n)], length s - length rest))
  else if isIdent ch then readIdent index s
  else if is_in (js "(){}[].,;:?") ch then Ok ([Token index (TextStr [ch]) FnNone], 1)
  else if isWhitespace ch then Ok ([], 1)
  else match operator_length s with
       | Some n => Ok ([Token index (TextStr (take n s)) FnOperator], n)
       | None => Throw (parse_error "lexerr")
       end.

(** Every step takes at least one unit, so the length of the text is fuel enough. *)
Fixpoint lex_from (fuel index : nat) (s : jstr) : result js_error (list token) :=
  match fuel, s with
  | _, [] => Ok []
  | 0, _ => Throw (parse_error "lexerr")
  | S fuel', ch :: r =>
      rbind (lex_step index ch r) (fun '(ts, n) =>
        rbind (lex_from fuel' (index + n) (drop n s)) (fun rest => Ok (ts ++ rest)))
  end.

Definition lex (text : jstr) : result js_error (list token) := lex_from (length text) 0 text.

Definition texts (r : result js_error (list token)) : result js_error (list jstr) :=
  rbind r (fun ts => Ok (map (fun t => match tk_text t with TextStr s => s | TextNum n => num_to_str n end) ts)).

Example lex_ex :
  texts (lex (js "a.b.c (1.50, 'x') !== -foo | date:'dd'"))
  = Ok [js "a.b"; js "."; js "c"; js "("; js "1.5"; js ","; js "'x'"; js ")"; js "!=="; js "-"; js "foo"; js "|";
        js "date"; js ":"; js "'dd'"]
  /\ texts (lex (js "a.__proto__")) = Throw (parse_error "isecfld")
  /\ texts (lex (js "a # b")) = Throw (parse_error "lexerr")
  /\ texts (lex (js "1e")) = Ok [js "NaN"].
Proof. by vm_compute. Qed.
