(* ===== verification/Parser.v ===== *)
(** * The parser of Angular expressions (angular.js, Parser)

    The closures the code builds are represented by the expressions they close over; their
    [literal] and [constant] flags are functions of the expression.  The parser is one
    recursive function over the nonterminals with fuel; [ParserFacts] shows that the fuel
    [parse] gives is always enough. *)

From S2P Require Import Prelude JsString JsObject JsNumber UriCodec Json Lexer.
Local Open Scope result_scope.

Inductive expr : Type :=
| EConst (v : json)                              (** a number, a string or a constant *)
| EOperator (op : jstr)                          (** an operator taken for a primary expression *)
| EPath (ident : jstr)
| EBin (op : jstr) (l r : expr)
| ENot (e : expr)
| ETernary (c a b : expr)
| EAssign (l r : expr)
| ECall (fn : expr) (context : option expr) (args : list expr)
| EField (o : expr) (field : jstr)
| EIndex (o i : expr)
| EArray (es : list expr)
| EObject (kvs : list (jstr * expr))
| EFilter (left : expr) (name : jstr) (args : list expr)
| EStatements (es : list expr).

(** The [literal], [constant] and [assign] properties. *)
Definition is_literal (e : expr) : bool :=
  match e with EConst _ | EArray _ | EObject _ => true | _ => false end.

Fixpoint is_constant (e : expr) : bool :=
  match e with
  | EConst _ => true
  | EBin _ l r => is_constant l && is_constant r
  | ENot e => is_constant e
  | ETernary c a b => is_constant c && is_constant a && is_constant b
  | EArray es => forallb is_constant es
  | EObject kvs => forallb (fun kv => is_constant kv.2) kvs
  | _ => false
  end.

Definition can_assign (e : expr) : bool :=
  match e with EPath _ | EField _ _ | EIndex _ _ => true | _ => false end.

(** An exception of the code, or the end of the fuel of this model. *)
Inductive parse_failure : Type := Failed (e : js_error) | OutOfFuel.

Abbreviation presult A := (result parse_failure (A * list token)).

Definition syntax_error {A} : result parse_failure A := Throw (Failed (parse_error "syntax")).
Definition end_error {A} : result parse_failure A := Throw (Failed (parse_error "ueoe")).

(** ** Tokens *)

Definition text_is (s : jstr) (t : token) : bool :=
  match tk_text t with TextStr u => jeqb u s | TextNum _ => false end.

(** [peek(e1, ...)] as a test, and [expect(e1, ...)]. *)
Definition peek (es : list jstr) (ts : list token) : bool :=
  match ts with t :: _ => existsb (fun s => text_is s t) es | [] => false end.
Definition expect (es : list jstr) (ts : list token) : option (token * list token) :=
  match ts with
  | t :: ts' => if existsb (fun s => text_is s t) es then Some (t, ts') else None
  | [] => None
  end.
(** The test of an operator gives its text too. *)
Definition text_of (t : token) : jstr := match tk_text t with TextStr s => s | TextNum n => num_to_str n end.

Definition consume (e : lit) (ts : list token) : result parse_failure (list token) :=
  match expect [js e] ts with Some (_, ts') => Ok ts' | None => syntax_error end.
Arguments consume e%_string_scope ts.

Definition words (s : lit) : list jstr := split (chr " ") (js s).
Arguments words s%_string_scope.

(** ** Nonterminals *)

(** The methods of the parser; the last five are their loops, with what they have read. *)
Inductive nonterm : Type :=
| NFilterChain | NExpression | NTernary | NLogicalOR | NLogicalAND | NEquality | NRelational
| NAdditive | NMultiplicative | NUnary | NPrimary
| LFilter (lhs : expr) | LLogicalOR (lhs : expr) | LAdditive (lhs : expr) | LMultiplicative (lhs : expr)
| LPostfix (primary : expr) (context : option expr).

Section Parser.
(** The names [$filter] knows. *)
Context (has_filter : jstr -> bool).

(** [this.$filter(name)]. *)
Definition get_filter (name : jstr) : result parse_failure jstr :=
  if has_filter name then Ok name else Throw (Failed (JsMinErr (js "$injector:unpr"))).

(** The function of a token, as a primary expression. *)
Definition token_expr (t : token) : option expr :=
  match tk_fn t with
  | FnNone => None
  | FnOperator => Some (EOperator (text_of t))
  | FnConstant v => Some (EConst v)
  | FnNumber n => Some (EConst (JNum n))
  | FnString s => Some (EConst (JStr s))
  | FnGetter ident => Some (EPath ident)
  end.

(** [token.string || token.text], the key of an object literal. *)
Definition key_of (t : token) : jstr :=
  match tk_fn t with FnString ((_ :: _) as s) => s | _ => text_of t end.

Section Lists.
Context (expression : list token -> presult expr).

(** [do push(expression()) while (expect(','))]. *)
Fixpoint arguments (n : nat) (ts : list token) : presult (list expr) :=
  match n with
  | 0 => Throw OutOfFuel
  | S n' =>
      let* (e, ts) := expression ts in
      match expect [js ","] ts with
      | Some (_, ts) => let* (es, ts) := arguments n' ts in Ok (e :: es, ts)
      | None => Ok ([e], ts)
      end
  end.

(** The same, a trailing comma being allowed. *)
Fixpoint elements (n : nat) (ts : list token) : presult (list expr) :=
  match n with
  | 0 => Throw OutOfFuel
  | S n' =>
      if peek [js "]"] ts then Ok ([], ts)
      else
        let* (e, ts) := expression ts in
        match expect [js ","] ts with
        | Some (_, ts) => let* (es, ts) := elements n' ts in Ok (e :: es, ts)
        | None => Ok ([e], ts)
        end
  end.

Fixpoint key_values (n : nat) (ts : list token) : presult (list (jstr * expr)) :=
  match n with
  | 0 => Throw OutOfFuel
  | S n' =>
      if peek [js "}"] ts then Ok ([], ts)
      else match ts with
           | [] => syntax_error
           | t :: ts =>
               let* ts := consume ":" ts in
               let* (e, ts) := expression ts in
               match expect [js ","] ts with
               | Some (_, ts) => let* (kvs, ts) := key_values n' ts in Ok ((key_of t, e) :: kvs, ts)
               | None => Ok ([(key_of t, e)], ts)
               end
           end
  end.

(** The arguments of a filter. *)
Fixpoint filter_args (n : nat) (ts : list token) : presult (list expr) :=
  match n with
  | 0 => Throw OutOfFuel
  | S n' =>
      match expect [js ":"] ts with
      | Some (_, ts) =>
          let* (e, ts) := expression ts in
          let* (es, ts) := filter_args n' ts in Ok (e :: es, ts)
      | None => Ok ([], ts)
      end
  end.

(** [functionCall], [arrayDeclaration], [object]: after their opening token. *)
Definition call_args (ts : list token) : presult (list expr) :=
  match ts with
  | [] => end_error
  | _ =>
      let* (es, ts) := (if peek [js ")"] ts then Ok ([], ts) else arguments (length ts) ts) in
      let* ts := consume ")" ts in Ok (es, ts)
  end.

Definition arrayDeclaration (ts : list token) : presult expr :=
  match ts with
  | [] => end_error
  | _ =>
      let* (es, ts) := elements (S (length ts)) ts in
      let* ts := consume "]" ts in Ok (EArray es, ts)
  end.

Definition object (ts : list token) : presult expr :=
  match ts with
  | [] => end_error
  | _ =>
      let* (kvs, ts) := key_values (S (length ts)) ts in
      let* ts := consume "}" ts in Ok (EObject kvs, ts)
  end.

(** [filter], after the bar. *)
Definition filter (lhs : expr) (ts : list token) : presult expr :=
  match ts with
  | [] => Throw (Failed (JsMinErr (js "$injector:unpr")))
  | t :: ts =>
      let* name := get_filter (text_of t) in
      let* (args, ts) := filter_args (S (length ts)) ts in
      Ok (EFilter lhs name args, ts)
  end.

End Lists.

(** One step of a method, the calls of the others being [rec]. *)
Definition parse_step (rec : nonterm -> list token -> presult expr) (nt : nonterm) (ts : list token) : presult expr :=
  (* an operator that associates to the right *)
  let right_assoc ops next self :=
    let* (lhs, ts) := rec next ts in
    match expect ops ts with
    | Some (t, ts) => let* (rhs, ts) := rec self ts in Ok (EBin (text_of t) lhs rhs, ts)
    | None => Ok (lhs, ts)
    end in
  (* the loop of an operator that associates to the left *)
  let left_loop ops next loop lhs :=
    match expect ops ts with
    | Some (t, ts) => let* (rhs, ts) := rec next ts in rec (loop (EBin (text_of t) lhs rhs)) ts
    | None => Ok (lhs, ts)
    end in
  match nt with
  | NFilterChain => let* (lhs, ts) := rec NExpression ts in rec (LFilter lhs) ts
  | LFilter lhs =>
      match expect [js "|"] ts with
      | Some (_, ts) => let* (e, ts) := filter (rec NExpression) lhs ts in rec (LFilter e) ts
      | None => Ok (lhs, ts)
      end
  | NExpression =>
      let* (lhs, ts) := rec NTernary ts in
      match expect [js "="] ts with
      | Some (_, ts) =>
          if can_assign lhs then let* (rhs, ts) := rec NTernary ts in Ok (EAssign lhs rhs, ts)
          else syntax_error
      | None => Ok (lhs, ts)
      end
  | NTernary =>
      let* (lhs, ts) := rec NLogicalOR ts in
      match expect [js "?"] ts with
      | Some (_, ts) =>
          let* (middle, ts) := rec NTernary ts in
          match expect [js ":"] ts with
          | Some (_, ts) => let* (rhs, ts) := rec NTernary ts in Ok (ETernary lhs middle rhs, ts)
          | None => syntax_error
          end
      | None => Ok (lhs, ts)
      end
  | NLogicalOR => let* (lhs, ts) := rec NLogicalAND ts in rec (LLogicalOR lhs) ts
  | LLogicalOR lhs => left_loop (words "||") NLogicalAND LLogicalOR lhs
  | NLogicalAND => right_assoc (words "&&") NEquality NLogicalAND
  | NEquality => right_assoc (words "== != === !==") NRelational NEquality
  | NRelational => right_assoc (words "< > <= >=") NAdditive NRelational
  | NAdditive => let* (lhs, ts) := rec NMultiplicative ts in rec (LAdditive lhs) ts
  | LAdditive lhs => left_loop (words "+ -") NMultiplicative LAdditive lhs
  | NMultiplicative => let* (lhs, ts) := rec NUnary ts in rec (LMultiplicative lhs) ts
  | LMultiplicative lhs => left_loop (words "* / %") NUnary LMultiplicative lhs
  | NUnary =>
      match expect [js "+"] ts with
      | Some (_, ts) => rec NPrimary ts
      | None =>
          match expect [js "-"] ts with
          | Some (t, ts) => let* (e, ts) := rec NUnary ts in Ok (EBin (text_of t) (EConst (jint 0)) e, ts)
          | None =>
              match expect [js "!"] ts with
              | Some (_, ts) => let* (e, ts) := rec NUnary ts in Ok (ENot e, ts)
              | None => rec NPrimary ts
              end
          end
      end
  | NPrimary =>
      let* (primary, ts) :=
        match expect [js "("] ts with
        | Some (_, ts) =>
            let* (e, ts) := rec NFilterChain ts in let* ts := consume ")" ts in Ok (e, ts)
        | None =>
            match expect [js "["] ts with
            | Some (_, ts) => arrayDeclaration (rec NExpression) ts
            | None =>
                match expect [js "{"] ts with
                | Some (_, ts) => object (rec NExpression) ts
                | None =>
                    match ts with
                    | [] => syntax_error
                    | t :: ts => match token_expr t with Some e => Ok (e, ts) | None => syntax_error end
                    end
                end
            end
        end in
      rec (LPostfix primary None) ts
  | LPostfix primary context =>
      match expect [js "("] ts with
      | Some (_, ts) =>
          let* (args, ts) := call_args (rec NExpression) ts in rec (LPostfix (ECall primary context args) None) ts
      | None =>
          match expect [js "["] ts with
          | Some (_, ts) =>
              let* (i, ts) := rec NExpression ts in
              let* ts := consume "]" ts in rec (LPostfix (EIndex primary i) (Some primary)) ts
          | None =>
              match expect [js "."] ts with
              | Some (_, ts) =>
                  match ts with
                  | [] => Throw (Failed JsTypeError)
                  | t :: ts =>
                      match (match tk_text t with TextStr s => checked_path s | TextNum _ => Throw JsTypeError end) with
                      | Ok field => rec (LPostfix (EField primary field) (Some primary)) ts
                      | Throw e => Throw (Failed e)
                      end
                  end
              | None => Ok (primary, ts)
              end
          end
      end
  end.

Fixpoint parse_nt (fuel : nat) (nt : nonterm) (ts : list token) : presult expr :=
  match fuel with
  | 0 => Throw OutOfFuel
  | S fuel' => parse_step (parse_nt fuel') nt ts
  end.

(** Enough fuel for a chain of filters. *)
Definition parse_fuel (ts : list token) : nat := 16 * length ts + 16.

(** The loop of [statements]. *)
Fixpoint statement_list (n : nat) (ts : list token) : presult (list expr) :=
  match n with
  | 0 => Throw OutOfFuel
  | S n' =>
      let* (es, ts) :=
        match ts with
        | [] => Ok ([], ts)
        | _ =>
            if peek (words "} ) ; ]") ts then Ok ([], ts)
            else let* (e, ts) := parse_nt (parse_fuel ts) NFilterChain ts in Ok ([e], ts)
        end in
      match expect [js ";"] ts with
      | Some (_, ts) => let* (es', ts) := statement_list n' ts in Ok (es ++ es', ts)
      | None => Ok (es, ts)
      end
  end.

Definition statements (ts : list token) : presult expr :=
  let* (es, ts) := statement_list (S (length ts)) ts in
  Ok (match es with [e] => e | _ => EStatements es end, ts).

(** [parse]. *)
Definition parse_tokens (ts : list token) : result parse_failure expr :=
  let* (e, ts) := statements ts in
  match ts with [] => Ok e | _ => syntax_error end.

Definition parse (text : jstr) : result parse_failure expr :=
  match lex text with
  | Ok ts => parse_tokens ts
  | Throw e => Throw (Failed e)
  end.

End Parser.

Definition lit_num (s : lit) : expr := EConst (JNum (num_of_str (js s))).
Arguments lit_num s%_string_scope.

Example parse_ex :
  parse (fun _ => true) (js "a.b = x + y * -2 == z && !w ? f(1, [2]) : o['k'].m() | date:'dd'")
  = Ok (EFilter
      (EAssign (EPath (js "a.b"))
        (ETernary
          (EBin (js "&&")
            (EBin (js "==")
              (EBin (js "+") (EPath (js "x"))
                (EBin (js "*") (EPath (js "y")) (EBin (js "-") (EConst (jint 0)) (lit_num "2"))))
              (EPath (js "z")))
            (ENot (EPath (js "w"))))
          (ECall (EPath (js "f")) None [lit_num "1"; EArray [lit_num "2"]])
          (ECall (EField (EIndex (EPath (js "o")) (EConst (jlit "k"))) (js "m"))
            (Some (EIndex (EPath (js "o")) (EConst (jlit "k")))) [])))
      (js "date") [EConst (jlit "dd")])
  /\ parse (fun _ => true) (js "a = b = c") = syntax_error
  /\ parse (fun _ => true) (js "a - b - c")
     = Ok (EBin (js "-") (EBin (js "-") (EPath (js "a")) (EPath (js "b"))) (EPath (js "c")))
  /\ parse (fun _ => true) (js "a < b < c")
     = Ok (EBin (js "<") (EPath (js "a")) (EBin (js "<") (EPath (js "b")) (EPath (js "c"))))
  /\ parse (fun _ => true) (js "*") = Ok (EOperator (js "*"))
  /\ parse (fun _ => true) (js "{'': 1}") = Ok (EObject [(js "''", lit_num "1")])
  /\ parse (fun _ => false) (js "a | b") = Throw (Failed (JsMinErr (js "$injector:unpr"))).
Proof. by vm_compute. Qed.
