(* ===== verification/ParserFacts.v ===== *)
(** * The parser always ends, and reads back printed expressions *)

From S2P Require Import Prelude JsString JsObject JsNumber UriCodec Json Lexer Parser.
Local Open Scope result_scope.

(** ** Fuel *)

(** How many calls a nonterminal makes before it takes a token. *)
Definition rank (nt : nonterm) : nat :=
  match nt with
  | NFilterChain => 15 | NExpression => 14 | NTernary => 13 | NLogicalOR => 12 | NLogicalAND => 11
  | NEquality => 10 | NRelational => 9 | NAdditive => 8 | NMultiplicative => 7 | NUnary => 6 | NPrimary => 5
  | _ => 0
  end.

(** The tokens a nonterminal takes at least. *)
Definition takes (nt : nonterm) : nat := match rank nt with 0 => 0 | _ => 1 end.

Definition measure (nt : nonterm) (ts : list token) : nat := 16 * length ts + rank nt.

(** A result that is not the end of the fuel, and leaves at most [n] tokens. *)
Definition total {A} (n : nat) (r : presult A) : Prop :=
  match r with
  | Ok (_, ts) => length ts <= n
  | Throw OutOfFuel => False
  | Throw (Failed _) => True
  end.

Lemma total_bind {A B} (r : presult A) (f : A * list token -> presult B) m n :
  total m r -> (forall a ts, length ts <= m -> total n (f (a, ts))) -> total n (rbind r f).
Proof. destruct r as [[a ts]|[e|]]; simpl; auto. Qed.

Lemma expect_some es ts t ts' : expect es ts = Some (t, ts') -> ts = t :: ts'.
Proof. destruct ts as [|u ts]; simpl; [done|]. destruct (existsb _ es); [|done]. by intros [= -> ->]. Qed.

Lemma total_consume {B} e ts (f : list token -> presult B) n :
  (forall ts', length ts = S (length ts') -> total n (f ts')) -> total n (rbind (consume e ts) f).
Proof.
  intros H. unfold consume. destruct (expect [js e] ts) as [[t ts']|] eqn:E; [|done].
  apply expect_some in E as ->. by apply H.
Qed.

Section Total.
Context (has_filter : jstr -> bool).

Section Lists.
Context (expression : list token -> presult expr) (N : nat).
Context (Hexp : forall ts, length ts <= N -> total (length ts - 1) (expression ts)).

Lemma arguments_total n ts : length ts <= N -> length ts <= n -> 0 < n -> total (length ts - 1) (arguments expression n ts).
Proof.
  revert ts. induction n as [|n IH]; intros ts HN Hn H0; [lia|]. cbn [arguments].
  apply (total_bind _ _ _ _ (Hexp ts HN)). intros e ts1 H1.
  destruct (expect [js ","] ts1) as [[t ts2]|] eqn:E; [|done].
  apply expect_some in E as ->. cbn [length] in H1.
  apply (total_bind _ _ (length ts2 - 1)); [apply IH; lia|]. intros es ts3 H3. simpl. lia.
Qed.

Lemma elements_total n ts : length ts <= N -> length ts < n -> total (length ts) (elements expression n ts).
Proof.
  revert ts. induction n as [|n IH]; intros ts HN Hn; [lia|]. cbn [elements].
  destruct (peek [js "]"] ts); [simpl; lia|]. apply (total_bind _ _ _ _ (Hexp ts HN)). intros e ts1 H1.
  destruct (expect [js ","] ts1) as [[t ts2]|] eqn:E; [|simpl; lia].
  apply expect_some in E as ->. cbn [length] in H1.
  apply (total_bind _ _ (length ts2)); [apply IH; lia|]. intros es ts3 H3. simpl. lia.
Qed.

Lemma key_values_total n ts : length ts <= N -> length ts < n -> total (length ts) (key_values expression n ts).
Proof.
  revert ts. induction n as [|n IH]; intros ts HN Hn; [lia|]. cbn [key_values].
  destruct (peek [js "}"] ts); [simpl; lia|]. destruct ts as [|t ts]; [done|]. cbn [length] in *.
  apply total_consume. intros ts1 H1. apply (total_bind _ _ (length ts1 - 1)); [apply Hexp; lia|]. intros e ts2 H2.
  destruct (expect [js ","] ts2) as [[u ts3]|] eqn:E; [|simpl; lia].
  apply expect_some in E as ->. cbn [length] in H2.
  apply (total_bind _ _ (length ts3)); [apply IH; lia|]. intros es ts4 H4. simpl. lia.
Qed.

Lemma filter_args_total n ts : length ts <= N -> length ts < n -> total (length ts) (filter_args expression n ts).
Proof.
  revert ts. induction n as [|n IH]; intros ts HN Hn; [lia|]. cbn [filter_args].
  destruct (expect [js ":"] ts) as [[u ts1]|] eqn:E; [|simpl; lia].
  apply expect_some in E as ->. cbn [length] in *.
  apply (total_bind _ _ (length ts1 - 1)); [apply Hexp; lia|]. intros e ts2 H2.
  apply (total_bind _ _ (length ts2)); [apply IH; lia|]. intros es ts3 H3. simpl. lia.
Qed.

Lemma call_args_total ts : length ts <= N -> total (length ts) (call_args expression ts).
Proof.
  intros HN. unfold call_args. destruct ts as [|t ts]; [done|].
  apply (total_bind _ _ (length (t :: ts))).
  - destruct (peek _ _); [simpl; lia|].
    pose proof (arguments_total (length (t :: ts)) (t :: ts) HN ltac:(lia) ltac:(simpl; lia)) as H.
    destruct (arguments _ _ _) as [[es ts']|[e|]]; simpl in *; [lia|done..].
  - intros es ts' H. apply total_consume. intros ts2 H2. simpl in *. lia.
Qed.

Lemma array_total ts : length ts <= N -> total (length ts) (arrayDeclaration expression ts).
Proof.
  intros HN. unfold arrayDeclaration. destruct ts as [|t ts]; [done|].
  apply (total_bind _ _ (length (t :: ts))); [apply elements_total; [done|lia]|].
  intros es ts' H. apply total_consume. intros ts2 H2. simpl in *. lia.
Qed.

Lemma object_total ts : length ts <= N -> total (length ts) (object expression ts).
Proof.
  intros HN. unfold object. destruct ts as [|t ts]; [done|].
  apply (total_bind _ _ (length (t :: ts))); [apply key_values_total; [done|lia]|].
  intros es ts' H. apply total_consume. intros ts2 H2. simpl in *. lia.
Qed.

Lemma filter_total lhs ts : length ts <= N -> total (length ts) (filter has_filter expression lhs ts).
Proof.
  intros HN. unfold filter. destruct ts as [|t ts]; [done|]. unfold get_filter.
  destruct (has_filter _); [|done]. cbn [rbind].
  apply (total_bind _ _ (length ts)); [apply filter_args_total; cbn [length] in *; lia|].
  intros es ts' H. simpl. lia.
Qed.
End Lists.

Local Ltac rk := unfold takes in *; cbn [rank length] in *; lia.

(** With more fuel than its measure, a nonterminal ends and takes its tokens. *)
Lemma parse_nt_total fuel nt ts :
  measure nt ts < fuel -> total (length ts - takes nt) (parse_nt has_filter fuel nt ts).
Proof.
  revert nt ts. induction fuel as [|fuel IH]; intros nt ts Hm; [lia|]. cbn [parse_nt]. unfold measure in *.
  assert (Hrec : forall nt' ts' n, 16 * length ts' + rank nt' < fuel -> length ts' - takes nt' <= n ->
    total n (parse_nt has_filter fuel nt' ts')).
  { intros nt' ts' n H1 H2. specialize (IH nt' ts' H1).
    destruct (parse_nt _ _ _ _) as [[e ts'']|[e|]]; simpl in *; [lia|done..]. }
  assert (Hexp : forall N, 16 * N + 14 < fuel -> forall ts', length ts' <= N ->
    total (length ts' - 1) (parse_nt has_filter fuel NExpression ts')).
  { intros N HN ts' Hl. apply Hrec; rk. }
  assert (Hright : forall ops next self, rank self <> 0 -> rank next < rank self -> rank next <> 0 ->
    16 * length ts + rank self < S fuel ->
    total (length ts - 1) (rbind (parse_nt has_filter fuel next ts) (fun '(l, ts) =>
      match expect ops ts with
      | Some (t, ts) => rbind (parse_nt has_filter fuel self ts) (fun '(r, ts) => Ok (EBin (text_of t) l r, ts))
      | None => Ok (l, ts) end))).
  { intros ops next self H1 H2 H3 H4. assert (Ht : takes next = 1 /\ takes self = 1).
    { by unfold takes; destruct (rank next), (rank self). } destruct Ht as [Ht1 Ht2].
    apply (total_bind _ _ (length ts - 1)); [apply Hrec; lia|]. intros l ts1 Hl1.
    destruct (expect ops ts1) as [[t ts2]|] eqn:E; [|simpl; lia]. apply expect_some in E as ->. cbn [length] in Hl1.
    apply (total_bind _ _ (length ts2 - 1)); [apply Hrec; [lia|lia]|]. intros r ts3 H. simpl. lia. }
  assert (Hloop : forall ops next loop lhs, (forall e, rank (loop e) = 0) -> rank next < 16 -> rank next <> 0 ->
    16 * length ts < S fuel ->
    total (length ts) (match expect ops ts with
      | Some (t, ts) => rbind (parse_nt has_filter fuel next ts) (fun '(r, ts) =>
                          parse_nt has_filter fuel (loop (EBin (text_of t) lhs r)) ts)
      | None => Ok (lhs, ts) end)).
  { intros ops next loop lhs H1 H2 H3 H4. destruct (expect ops ts) as [[t ts1]|] eqn:E; [|simpl; lia].
    apply expect_some in E as ->. cbn [length] in *. assert (Ht : takes next = 1).
    { by unfold takes; destruct (rank next). }
    apply (total_bind _ _ (length ts1 - 1)); [apply Hrec; lia|]. intros r ts2 Hr.
    apply Hrec; unfold takes; rewrite ?H1; lia. }
  unfold parse_step. destruct nt; cbn [rank takes] in *; unfold takes in *; cbn [rank] in *.
  - (* NFilterChain *)
    apply (total_bind _ _ (length ts - 1)); [apply Hrec; rk|]. intros e ts1 H1.
    apply Hrec; rk.
  - (* NExpression *)
    apply (total_bind _ _ (length ts - 1)); [apply Hrec; rk|]. intros e ts1 H1.
    destruct (expect [js "="] ts1) as [[t ts2]|] eqn:E; [|simpl; lia]. apply expect_some in E as ->. cbn [length] in H1.
    destruct (can_assign e); [|done]. apply (total_bind _ _ (length ts2 - 1)); [apply Hrec; rk|].
    intros r ts3 H. simpl. lia.
  - (* NTernary *)
    apply (total_bind _ _ (length ts - 1)); [apply Hrec; rk|]. intros e ts1 H1.
    destruct (expect [js "?"] ts1) as [[t ts2]|] eqn:E; [|simpl; lia]. apply expect_some in E as ->. cbn [length] in H1.
    apply (total_bind _ _ (length ts2 - 1)); [apply Hrec; rk|]. intros m ts3 H3.
    destruct (expect [js ":"] ts3) as [[t' ts4]|] eqn:E; [|done]. apply expect_some in E as ->. cbn [length] in H3.
    apply (total_bind _ _ (length ts4 - 1)); [apply Hrec; rk|]. intros r ts5 H. simpl. lia.
  - apply (total_bind _ _ (length ts - 1)); [apply Hrec; rk|]. intros e ts1 H1. apply Hrec; rk.
  - apply Hright; cbn [rank]; lia.
  - apply Hright; cbn [rank]; lia.
  - apply Hright; cbn [rank]; lia.
  - apply (total_bind _ _ (length ts - 1)); [apply Hrec; rk|]. intros e ts1 H1. apply Hrec; rk.
  - apply (total_bind _ _ (length ts - 1)); [apply Hrec; rk|]. intros e ts1 H1. apply Hrec; rk.
  - (* NUnary *)
    destruct (expect [js "+"] ts) as [[t ts1]|] eqn:E.
    { apply expect_some in E as ->. cbn [length] in *. apply Hrec; rk. }
    destruct (expect [js "-"] ts) as [[t ts1]|] eqn:E2.
    { apply expect_some in E2 as ->. cbn [length] in *. apply (total_bind _ _ (length ts1 - 1)); [apply Hrec; rk|].
      intros e ts2 H. simpl. lia. }
    destruct (expect [js "!"] ts) as [[t ts1]|] eqn:E3; [|apply Hrec; rk].
    apply expect_some in E3 as ->. cbn [length] in *. apply (total_bind _ _ (length ts1 - 1)); [apply Hrec; rk|].
    intros e ts2 H. simpl. lia.
  - (* NPrimary *)
    apply (total_bind _ _ (length ts - 1)).
    + destruct (expect [js "("] ts) as [[t ts1]|] eqn:E1.
      { apply expect_some in E1 as ->. cbn [length] in *. apply (total_bind _ _ (length ts1 - 1)); [apply Hrec; rk|].
        intros e ts2 H. apply total_consume. intros ts3 H3. simpl. lia. }
      destruct (expect [js "["] ts) as [[t ts1]|] eqn:E2.
      { apply expect_some in E2 as ->. cbn [length] in *. rewrite Nat.sub_succ, Nat.sub_0_r.
        apply (array_total _ (length ts1)); [|lia]. apply Hexp. lia. }
      destruct (expect [js "{"] ts) as [[t ts1]|] eqn:E3.
      { apply expect_some in E3 as ->. cbn [length] in *. rewrite Nat.sub_succ, Nat.sub_0_r.
        apply (object_total _ (length ts1)); [|lia]. apply Hexp. lia. }
      destruct ts as [|t ts]; [done|]. destruct (token_expr t); [simpl; lia|done].
    + intros e ts1 H1. apply Hrec; rk.
  - (* LFilter *)
    destruct (expect [js "|"] ts) as [[t ts1]|] eqn:E; [|simpl; lia]. apply expect_some in E as ->. cbn [length] in *.
    apply (total_bind _ _ (length ts1)).
    { apply (filter_total _ (length ts1)); [|lia]. apply Hexp. lia. }
    intros e ts2 H2. apply Hrec; rk.
  - rewrite Nat.sub_0_r. apply Hloop; [done|cbn [rank]; lia..].
  - rewrite Nat.sub_0_r. apply Hloop; [done|cbn [rank]; lia..].
  - rewrite Nat.sub_0_r. apply Hloop; [done|cbn [rank]; lia..].
  - (* LPostfix *)
    destruct (expect [js "("] ts) as [[t ts1]|] eqn:E1.
    { apply expect_some in E1 as ->. cbn [length] in *. apply (total_bind _ _ (length ts1)).
      { apply (call_args_total _ (length ts1)); [|lia]. apply Hexp. lia. }
      intros e ts2 H2. apply Hrec; rk. }
    destruct (expect [js "["] ts) as [[t ts1]|] eqn:E2.
    { apply expect_some in E2 as ->. cbn [length] in *. apply (total_bind _ _ (length ts1 - 1)); [apply Hrec; rk|].
      intros i ts2 H2. apply total_consume. intros ts3 H3. apply Hrec; rk. }
    destruct (expect [js "."] ts) as [[t ts1]|] eqn:E3; [|simpl; lia].
    apply expect_some in E3 as ->. cbn [length] in *. destruct ts1 as [|u ts1]; [done|]. cbn [length] in *.
    destruct (tk_text u); [|done]. destruct (checked_path _); [|done]. apply Hrec; rk.
Qed.

Lemma statement_list_total n ts : length ts < n -> total (length ts) (statement_list has_filter n ts).
Proof.
  revert ts. induction n as [|n IH]; intros ts Hn; [lia|]. cbn [statement_list].
  apply (total_bind _ _ (length ts)).
  - destruct ts as [|t ts]; [simpl; lia|]. destruct (peek _ _); [simpl; lia|].
    apply (total_bind _ _ (length (t :: ts) - 1)).
    + apply (parse_nt_total _ NFilterChain). unfold measure, parse_fuel. simpl. lia.
    + intros e ts1 H. simpl in *. lia.
  - intros es ts1 H1. destruct (expect [js ";"] ts1) as [[t ts2]|] eqn:E; [|simpl; lia].
    apply expect_some in E as ->. cbn [length] in H1.
    apply (total_bind _ _ (length ts2)); [apply IH; lia|]. intros es' ts3 H3. simpl. lia.
Qed.

End Total.
