(* ===== verification/Promise.v ===== *)
(** * Promises: $q (angular.js, qFactory)

    Deferreds live in a store and are known by their number; a promise is the number of its
    deferred.  The functions the code closes over its variables are values of [closure], and
    [call] is their bodies.  [nextTick] puts a task in a queue, which the digest runs in order;
    the exceptions of a task and those of [try] blocks are handed to [exceptionHandler].

    The functions of the user of the service are functions from the argument to a value or an
    exception.  A promise that leads to itself makes [then] call itself for ever: the code
    then exhausts its call stack, which is [None]. *)

From S2P Require Import Prelude JsString JsObject JsNumber UriCodec Json.

Inductive value : Type :=
| VData (j : json)
| VPromise (id : nat)
| VResults (is_array : bool) (o : jsobj value).     (** the results of [all], by key *)

Definition undefined : value := VData JUndef.

(** What a call ends with. *)
Inductive outcome : Type := Ret (v : value) | Exn (e : value).

Inductive closure : Type :=
| CUser (f : value -> outcome)
(* then *)
| CWrappedCallback (callback : option closure) (result : nat)
| CWrappedErrback (errback : option closure) (result : nat)
| CWrappedProgressback (progressback : option closure) (result : nat)
(* finally *)
| CFinally (callback : option closure) (isResolved : bool)
| CMakePromise (v : value) (isResolved : bool)
| CMakeRejected
(* when *)
| CSafeCallback (callback : option closure)
| CSafeErrback (errback : option closure)
| CSafeProgressback (progressback : option closure)
| CWhenOk (w result : nat) (callback errback progressback : option closure)
| CWhenErr (w result : nat) (errback : option closure)
| CWhenProgress (w result : nat) (progressback : option closure)
(* all *)
| CAllOk (a : nat) (key : jstr)
| CAllErr (a : nat) (key : jstr).

(** The three functions given to [then]. *)
Definition handlers : Type := (option closure * option closure * option closure)%type.

(** The variable [value] of a deferred: [ref(val)] or [createInternalRejectedPromise(reason)]. *)
Inductive target : Type := TValue (v : value) | TPromise (id : nat) | TRejected (reason : value).

Inductive deferred : Type := Pending (callbacks : list handlers) | Settled (t : target).

Inductive task : Type :=
| TkFlush (t : target) (callbacks : list handlers)           (** of [resolve] *)
| TkNotify (callbacks : list handlers) (progress : value)    (** of [notify] *)
| TkRef (callback : option closure) (v : value) (result : nat)
| TkRejected (errback : option closure) (reason : value) (result : nat)
| TkWhen (v : value) (w result : nat) (callback errback progressback : option closure).

(** The variables of a call of [all]. *)
Record all_vars : Type := AllVars {
  av_deferred : nat; av_counter : Z; av_array : bool; av_results : jsobj value
}.

Record qstate : Type := QState {
  q_store : gmap nat deferred;
  q_next : nat;                       (** the number of the next deferred *)
  q_queue : list task;
  q_handled : list value;             (** what [exceptionHandler] got *)
  q_done : gmap nat bool;             (** the variable [done] of the calls of [when] *)
  q_alls : gmap nat all_vars
}.

Definition q_empty : qstate := QState ∅ 0 [] [] ∅ ∅.

Definition set_store (s : gmap nat deferred) (st : qstate) : qstate :=
  QState s (q_next st) (q_queue st) (q_handled st) (q_done st) (q_alls st).
Definition nextTick (t : task) (st : qstate) : qstate :=
  QState (q_store st) (q_next st) (q_queue st ++ [t]) (q_handled st) (q_done st) (q_alls st).
Definition exceptionHandler (e : value) (st : qstate) : qstate :=
  QState (q_store st) (q_next st) (q_queue st) (q_handled st ++ [e]) (q_done st) (q_alls st).
Definition set_done (w : nat) (b : bool) (st : qstate) : qstate :=
  QState (q_store st) (q_next st) (q_queue st) (q_handled st) (<[w := b]> (q_done st)) (q_alls st).
Definition set_all (a : nat) (v : all_vars) (st : qstate) : qstate :=
  QState (q_store st) (q_next st) (q_queue st) (q_handled st) (q_done st) (<[a := v]> (q_alls st)).

(** [defer()]. *)
Definition defer (st : qstate) : nat * qstate :=
  let id := q_next st in
  (id, QState (<[id := Pending []]> (q_store st)) (S id) (q_queue st) (q_handled st) (q_done st) (q_alls st)).

(** [ref(val)], as what [then] will be called on. *)
Definition ref (val : value) : target :=
  match val with VPromise id => TPromise id | _ => TValue val end.

(** [deferred.resolve], with [value] the target. *)
Definition settle (d : nat) (t : target) (st : qstate) : qstate :=
  match q_store st !! d with
  | Some (Pending callbacks) =>
      let st := set_store (<[d := Settled t]> (q_store st)) st in
      match callbacks with [] => st | _ => nextTick (TkFlush t callbacks) st end
  | _ => st
  end.

Definition resolve (d : nat) (val : value) (st : qstate) : qstate := settle d (ref val) st.
(** [deferred.reject]. *)
Definition reject_deferred (d : nat) (reason : value) (st : qstate) : qstate := settle d (TRejected reason) st.

(** [deferred.notify]. *)
Definition notify (d : nat) (progress : value) (st : qstate) : qstate :=
  match q_store st !! d with
  | Some (Pending ((_ :: _) as callbacks)) => nextTick (TkNotify callbacks progress) st
  | _ => st
  end.

(** The methods [then] of the three kinds of promise; [fuel] bounds the promises followed. *)
Fixpoint target_then (fuel : nat) (t : target) (h : handlers) (st : qstate) : option (nat * qstate) :=
  let '(callback, errback, progressback) := h in
  let '(result, st) := defer st in
  match t with
  | TValue v => Some (result, nextTick (TkRef callback v result) st)
  | TRejected reason => Some (result, nextTick (TkRejected errback reason result) st)
  | TPromise id =>
      let wrapped := (Some (CWrappedCallback callback result), Some (CWrappedErrback errback result),
                      Some (CWrappedProgressback progressback result)) in
      match q_store st !! id with
      | Some (Pending callbacks) =>
          Some (result, set_store (<[id := Pending (callbacks ++ [wrapped])]> (q_store st)) st)
      | Some (Settled t) =>
          match fuel with
          | 0 => None
          | S fuel => match target_then fuel t wrapped st with Some (_, st) => Some (result, st) | None => None end
          end
      | None => None
      end
  end.

(** As many steps as there are deferreds: more only follow a cycle. *)
Definition then_ (t : target) (h : handlers) (st : qstate) : option (nat * qstate) :=
  target_then (q_next st) t h st.

(** [reject(reason)] of the service: a rejected promise. *)
Definition reject (reason : value) (st : qstate) : nat * qstate :=
  let '(result, st) := defer st in (result, reject_deferred result reason st).

(** [makePromise] of [finally]. *)
Definition makePromise (v : value) (resolved : bool) (st : qstate) : nat * qstate :=
  let '(result, st) := defer st in
  (result, if resolved then resolve result v st else reject_deferred result v st).

Definition defaultCallback (v : value) (st : qstate) : option (outcome * qstate) := Some (Ret v, st).
Definition defaultErrback (reason : value) (st : qstate) : option (outcome * qstate) :=
  let '(p, st) := reject reason st in Some (Ret (VPromise p), st).

(** [return promise], after an operation that gives one. *)
Definition ret_promise (r : option (nat * qstate)) : option (outcome * qstate) :=
  match r with Some (p, st) => Some (Ret (VPromise p), st) | None => None end.
Definition ret_void (st : qstate) : option (outcome * qstate) := Some (Ret undefined, st).

(** Calling a function of the service or of its user. *)
Fixpoint call (c : closure) (arg : value) (st : qstate) {struct c} : option (outcome * qstate) :=
  match c with
  | CUser f => Some (f arg, st)
  | CWrappedCallback callback result =>
      match (match callback with Some f => call f arg st | None => defaultCallback arg st end) with
      | Some (Ret v, st) => ret_void (resolve result v st)
      | Some (Exn e, st) => ret_void (exceptionHandler e (reject_deferred result e st))
      | None => None
      end
  | CWrappedErrback errback result =>
      match (match errback with Some f => call f arg st | None => defaultErrback arg st end) with
      | Some (Ret v, st) => ret_void (resolve result v st)
      | Some (Exn e, st) => ret_void (exceptionHandler e (reject_deferred result e st))
      | None => None
      end
  | CWrappedProgressback progressback result =>
      match (match progressback with Some f => call f arg st | None => defaultCallback arg st end) with
      | Some (Ret v, st) => ret_void (notify result v st)
      | Some (Exn e, st) => ret_void (exceptionHandler e st)
      | None => None
      end
  | CFinally callback isResolved =>
      match (match callback with Some f => call f undefined st | None => defaultCallback undefined st end) with
      | Some (Exn e, st) => ret_promise (Some (makePromise e false st))
      | Some (Ret (VPromise p), st) =>
          ret_promise (then_ (TPromise p) (Some (CMakePromise arg isResolved), Some CMakeRejected, None) st)
      | Some (Ret _, st) => ret_promise (Some (makePromise arg isResolved st))
      | None => None
      end
  | CMakePromise v isResolved => ret_promise (Some (makePromise v isResolved st))
  | CMakeRejected => ret_promise (Some (makePromise arg false st))
  | CSafeCallback callback =>
      match (match callback with Some f => call f arg st | None => defaultCallback arg st end) with
      | Some (Exn e, st) => ret_promise (Some (reject e (exceptionHandler e st)))
      | r => r
      end
  | CSafeErrback errback =>
      match (match errback with Some f => call f arg st | None => defaultErrback arg st end) with
      | Some (Exn e, st) => ret_promise (Some (reject e (exceptionHandler e st)))
      | r => r
      end
  | CSafeProgressback progressback =>
      match (match progressback with Some f => call f arg st | None => defaultCallback arg st end) with
      | Some (Exn e, st) => ret_void (exceptionHandler e st)
      | r => r
      end
  | CWhenOk w result callback errback progressback =>
      if default false (q_done st !! w) then ret_void st
      else
        let st := set_done w true st in
        match then_ (ref arg) (Some (CSafeCallback callback), Some (CSafeErrback errback),
                               Some (CSafeProgressback progressback)) st with
        | Some (p, st) => ret_void (resolve result (VPromise p) st)
        | None => None
        end
  | CWhenErr w result errback =>
      if default false (q_done st !! w) then ret_void st
      else
        let st := set_done w true st in
        match (match errback with Some f => call f arg st | None => defaultErrback arg st end) with
        | Some (Ret v, st) => ret_void (resolve result v st)
        | Some (Exn e, st) =>
            let '(p, st) := reject e (exceptionHandler e st) in ret_void (resolve result (VPromise p) st)
        | None => None
        end
  | CWhenProgress w result progressback =>
      if default false (q_done st !! w) then ret_void st
      else
        match (match progressback with Some f => call f arg st | None => defaultCallback arg st end) with
        | Some (Ret v, st) => ret_void (notify result v st)
        | Some (Exn e, st) => ret_void (notify result undefined (exceptionHandler e st))
        | None => None
        end
  | CAllOk a key =>
      match q_alls st !! a with
      | Some v =>
          if ob_has (av_results v) key then ret_void st
          else
            let v := AllVars (av_deferred v) (av_counter v - 1) (av_array v) (ob_set (av_results v) key arg) in
            let st := set_all a v st in
            ret_void (if Z.eqb (av_counter v) 0
                      then resolve (av_deferred v) (VResults (av_array v) (av_results v)) st else st)
      | None => ret_void st
      end
  | CAllErr a key =>
      match q_alls st !! a with
      | Some v =>
          ret_void (if ob_has (av_results v) key then st else reject_deferred (av_deferred v) arg st)
      | None => ret_void st
      end
  end.

(** ** The methods of a promise *)

Definition promise_then (id : nat) (h : handlers) (st : qstate) : option (nat * qstate) := then_ (TPromise id) h st.

(** [promise.catch]. *)
Definition catch_ (id : nat) (errback : option closure) (st : qstate) : option (nat * qstate) :=
  promise_then id (None, errback, None) st.

(** [promise.finally]. *)
Definition finally_ (id : nat) (callback : option closure) (st : qstate) : option (nat * qstate) :=
  promise_then id (Some (CFinally callback true), Some (CFinally callback false), None) st.

(** ** [when] and [all] *)

(** The variable [done] is known by the number of the deferred [result]. *)
Definition when_ (v : value) (callback errback progressback : option closure) (st : qstate) : nat * qstate :=
  let '(result, st) := defer st in
  (result, nextTick (TkWhen v result result callback errback progressback) (set_done result false st)).

(** The loop of [all]. *)
Fixpoint all_loop (a : nat) (promises : list (jstr * value)) (st : qstate) : option qstate :=
  match promises with
  | [] => Some st
  | (key, p) :: promises =>
      match q_alls st !! a with
      | Some v =>
          let st := set_all a (AllVars (av_deferred v) (av_counter v + 1) (av_array v) (av_results v)) st in
          match then_ (ref p) (Some (CAllOk a key), Some (CAllErr a key), None) st with
          | Some (_, st) => all_loop a promises st
          | None => None
          end
      | None => Some st
      end
  end.

Definition all (is_array : bool) (promises : list (jstr * value)) (st : qstate) : option (nat * qstate) :=
  let '(d, st) := defer st in
  let st := set_all d (AllVars d 0 is_array []) st in
  match all_loop d promises st with
  | None => None
  | Some st =>
      let done := match q_alls st !! d with Some v => Z.eqb (av_counter v) 0 | None => false end in
      Some (d, if done then resolve d (VResults is_array []) st else st)
  end.

(** ** The queue *)

Fixpoint then_each (t : target) (callbacks : list handlers) (st : qstate) : option qstate :=
  match callbacks with
  | [] => Some st
  | h :: callbacks => match then_ t h st with Some (_, st) => then_each t callbacks st | None => None end
  end.

(** An exception leaves the task; the digest hands it to [exceptionHandler]. *)
Fixpoint notify_each (callbacks : list handlers) (progress : value) (st : qstate) : option qstate :=
  match callbacks with
  | [] => Some st
  | (_, _, Some c) :: callbacks =>
      match call c progress st with
      | Some (Ret _, st) => notify_each callbacks progress st
      | Some (Exn e, st) => Some (exceptionHandler e st)
      | None => None
      end
  | (_, _, None) :: _ => Some (exceptionHandler undefined st)
  end.

Definition run_task (t : task) (st : qstate) : option qstate :=
  match t with
  | TkFlush t callbacks => then_each t callbacks st
  | TkNotify callbacks progress => notify_each callbacks progress st
  (* does not arise: what reaches a value promise is a function of the service *)
  | TkRef None v result => Some (exceptionHandler undefined st)
  | TkRef (Some c) v result =>
      match call c v st with
      | Some (Ret w, st) => Some (resolve result w st)
      | Some (Exn e, st) => Some (exceptionHandler e st)
      | None => None
      end
  | TkRejected errback reason result =>
      match (match errback with Some f => call f reason st | None => defaultErrback reason st end) with
      | Some (Ret w, st) => Some (resolve result w st)
      | Some (Exn e, st) => Some (exceptionHandler e (reject_deferred result e st))
      | None => None
      end
  | TkWhen v w result callback errback progressback =>
      match then_ (ref v) (Some (CWhenOk w result callback errback progressback),
                           Some (CWhenErr w result errback), Some (CWhenProgress w result progressback)) st with
      | Some (_, st) => Some st
      | None => None
      end
  end.

(** [n] turns of the queue. *)
Fixpoint turns (n : nat) (st : qstate) : option qstate :=
  match n with
  | 0 => Some st
  | S n =>
      match q_queue st with
      | [] => Some st
      | t :: queue =>
          match run_task t (QState (q_store st) (q_next st) queue (q_handled st) (q_done st) (q_alls st)) with
          | Some st => turns n st
          | None => None
          end
      end
  end.

(** What a promise has come to, following at most [fuel] promises. *)
Fixpoint settled_as (fuel : nat) (t : target) (st : qstate) : option outcome :=
  match t with
  | TValue v => Some (Ret v)
  | TRejected e => Some (Exn e)
  | TPromise id =>
      match fuel, q_store st !! id with
      | S fuel, Some (Settled t) => settled_as fuel t st
      | _, _ => None
      end
  end.
