(* ===== verification/PromiseFacts.v ===== *)
(** * Promises settle once, and a chain of them computes the composition of its handlers *)

From stdpp Require Import relations.
From S2P Require Import Prelude JsString JsObject JsNumber UriCodec Json Promise.

(** ** A settled deferred stays as it is *)

(** Every deferred is older than the next one. *)
Definition q_wf (st : qstate) : Prop := forall d, is_Some (q_store st !! d) -> d < q_next st.

(** What every operation guarantees: deferreds are only added, and the settled ones kept. *)
Definition keeps (st st' : qstate) : Prop :=
  q_wf st -> q_wf st' /\ forall d t, q_store st !! d = Some (Settled t) -> q_store st' !! d = Some (Settled t).

#[global] Instance keeps_refl : Reflexive keeps.
Proof. intros st H. by split. Qed.
#[global] Instance keeps_trans : Transitive keeps.
Proof. intros st1 st2 st3 H12 H23 H. destruct (H12 H) as [W2 K2], (H23 W2) as [W3 K3]. split; auto. Qed.

Lemma keeps_store st st' : q_store st' = q_store st -> q_next st' = q_next st -> keeps st st'.
Proof. intros Hs Hn W. unfold q_wf. rewrite Hs, Hn. by split. Qed.

Lemma keeps_defer st : keeps st (defer st).2.
Proof.
  intros W. split; simpl.
  - intros d. simpl. rewrite lookup_insert_is_Some. intros [<-|[_ H]]; [lia|]. specialize (W d H). lia.
  - intros d t H. rewrite lookup_insert_ne; [done|]. intros <-. specialize (W _ (mk_is_Some _ _ H)). lia.
Qed.

(** Changing a pending deferred. *)
Lemma keeps_pending st d x cbs :
  q_store st !! d = Some (Pending cbs) -> keeps st (set_store (<[d := x]> (q_store st)) st).
Proof.
  intros Hd W. split; simpl.
  - intros d'. simpl. rewrite lookup_insert_is_Some. intros [<-|[_ H]]; [|auto]. apply W. by eexists.
  - intros d' t H. rewrite lookup_insert_ne; [done|]. intros <-. congruence.
Qed.

Lemma keeps_settle d t st : keeps st (settle d t st).
Proof.
  unfold settle. destruct (q_store st !! d) as [[cbs|]|] eqn:E; [|done..].
  etrans; [exact (keeps_pending _ _ (Settled t) _ E)|]. destruct cbs; [done|]. by apply keeps_store.
Qed.

Lemma keeps_notify d v st : keeps st (notify d v st).
Proof. unfold notify. by repeat break_match. Qed.

Lemma keeps_target_then fuel t h st p st' : target_then fuel t h st = Some (p, st') -> keeps st st'.
Proof.
  revert t h st p st'. induction fuel as [|fuel IH]; intros t [[cb eb] pb] st p st'; simpl.
  all: intros H; etrans; [apply (keeps_defer st)|]; cbn [defer snd] in *.
  all: destruct t as [v|id|e]; [injection H as <- <-; by apply keeps_store| |injection H as <- <-; by apply keeps_store].
  all: destruct (<[_:=_]> (q_store st) !! id) as [[cbs|t]|] eqn:E; [| |done].
  - injection H as <- <-. by apply (keeps_pending (defer st).2 id _ cbs).
  - done.
  - injection H as <- <-. by apply (keeps_pending (defer st).2 id _ cbs).
  - destruct (target_then _ _ _ _) as [[q st2]|] eqn:E2; [|done]. injection H as <- <-. by apply IH in E2.
Qed.

Lemma keeps_then t h st p st' : then_ t h st = Some (p, st') -> keeps st st'.
Proof. apply keeps_target_then. Qed.

Lemma keeps_reject e st : keeps st (reject e st).2.
Proof. etrans; [apply keeps_defer|]. apply keeps_settle. Qed.

Lemma keeps_makePromise v b st : keeps st (makePromise v b st).2.
Proof. etrans; [apply keeps_defer|]. destruct b; apply keeps_settle. Qed.

(** Chains the steps of an operation, the last one first. *)
Ltac keeps_tac :=
  repeat match goal with
  | |- keeps ?st ?st => reflexivity
  | |- keeps _ (settle ?d ?t ?s) => transitivity s; [|exact (keeps_settle d t s)]
  | |- keeps _ (resolve ?d ?v ?s) => transitivity s; [|exact (keeps_settle d (ref v) s)]
  | |- keeps _ (reject_deferred ?d ?v ?s) => transitivity s; [|exact (keeps_settle d (TRejected v) s)]
  | |- keeps _ (notify ?d ?v ?s) => transitivity s; [|exact (keeps_notify d v s)]
  | |- keeps _ (exceptionHandler ?e ?s) => transitivity s; [|by apply keeps_store]
  | |- keeps _ (nextTick ?e ?s) => transitivity s; [|by apply keeps_store]
  | |- keeps _ (set_done ?w ?b ?s) => transitivity s; [|by apply keeps_store]
  | |- keeps _ (set_all ?w ?b ?s) => transitivity s; [|by apply keeps_store]
  | H : makePromise ?v ?b ?s = (_, ?s') |- keeps _ ?s' =>
      transitivity s; [|by pose proof (keeps_makePromise v b s) as Hk; rewrite H in Hk]; clear H
  | H : reject ?e ?s = (_, ?s') |- keeps _ ?s' =>
      transitivity s; [|by pose proof (keeps_reject e s) as Hk; rewrite H in Hk]; clear H
  | |- keeps _ (reject ?e ?s).2 => transitivity s; [|exact (keeps_reject e s)]
  | H : then_ ?t ?h ?s = Some (_, ?s') |- keeps _ ?s' => transitivity s; [clear H|exact (keeps_then _ _ _ _ _ H)]
  end.

Lemma keeps_default_errback v st o st' : defaultErrback v st = Some (o, st') -> keeps st st'.
Proof. unfold defaultErrback. intros [= <- <-]. apply keeps_reject. Qed.

(** The call of an optional function or of its default. *)
Lemma keeps_opt (f : option closure) (dflt : value -> qstate -> option (outcome * qstate)) v st o st' :
  (forall c, f = Some c -> forall v st o st', call c v st = Some (o, st') -> keeps st st') ->
  (forall o st', dflt v st = Some (o, st') -> keeps st st') ->
  match f with Some c => call c v st | None => dflt v st end = Some (o, st') -> keeps st st'.
Proof. destruct f as [c|]; intros H1 H2 H; [by eapply H1|by eapply H2]. Qed.

Lemma keeps_default_callback v st o st' : defaultCallback v st = Some (o, st') -> keeps st st'.
Proof. by intros [= _ <-]. Qed.

(** Induction on closures, with the functions a closure may have inside. *)
Fixpoint closure_size (c : closure) : nat :=
  let opt f := match f with Some c => S (closure_size c) | None => 0 end in
  match c with
  | CWrappedCallback f _ | CWrappedErrback f _ | CWrappedProgressback f _ | CFinally f _ | CSafeCallback f
  | CSafeErrback f | CSafeProgressback f | CWhenErr _ _ f | CWhenProgress _ _ f => opt f
  | _ => 0
  end.

Ltac keeps_call IH :=
  match goal with
  | H : match match ?f with Some c => call c ?v ?s | None => ?d ?v ?s end with _ => _ end = _ |- _ =>
      let o := fresh "o" in let s1 := fresh "s" in let E := fresh "E" in
      destruct (match f with Some c => call c v s | None => d v s end) as [[o s1]|] eqn:E; [|done];
      apply (keeps_opt f d) in E;
      [ etrans; [exact E|]; clear E
      | intros ? ->; apply IH; simpl; lia
      | first [apply keeps_default_callback | apply keeps_default_errback] ]
  end.

(** Reads the result and the state off [H]. *)
Ltac got H :=
  try (destruct (makePromise _ _ _) as [? ?] eqn:?); try (destruct (reject _ _) as [? ?] eqn:?);
  injection H as <- <-.

Lemma keeps_call c v st o st' : call c v st = Some (o, st') -> keeps st st'.
Proof.
  remember (closure_size c) as n eqn:Hn. revert c Hn v st o st'.
  induction (lt_wf n) as [n _ IH0]. intros c -> v st o st' H.
  assert (IH : forall c', closure_size c' < closure_size c ->
    forall v st o st', call c' v st = Some (o, st') -> keeps st st') by (intros c' Hc; by eapply IH0).
  clear IH0. destruct c; cbn [call] in H; unfold ret_void, ret_promise in H.
  - got H. done.
  - keeps_call IH. destruct o0; got H; keeps_tac.
  - keeps_call IH. destruct o0; got H; keeps_tac.
  - keeps_call IH. destruct o0; got H; keeps_tac.
  - keeps_call IH. destruct o0 as [[j|p|a ob]|e]; try (got H; by keeps_tac).
    destruct (then_ _ _ _) as [[q s2]|] eqn:E; [|done]. got H. keeps_tac.
  - got H. keeps_tac.
  - got H. keeps_tac.
  - keeps_call IH. destruct o0; got H; keeps_tac.
  - keeps_call IH. destruct o0; got H; keeps_tac.
  - keeps_call IH. destruct o0; got H; keeps_tac.
  - destruct (default false _); [by got H|].
    destruct (then_ _ _ _) as [[q s2]|] eqn:E; [|done]. got H. keeps_tac.
  - destruct (default false _); [by got H|].
    transitivity (set_done w true st); [by apply keeps_store|].
    keeps_call IH. destruct o0; got H; keeps_tac.
  - destruct (default false _); [by got H|].
    keeps_call IH. destruct o0; got H; keeps_tac.
  - repeat break_match_hyp; got H; keeps_tac.
  - repeat break_match_hyp; got H; keeps_tac.
Qed.

Lemma keeps_then_each t cbs st st' : then_each t cbs st = Some st' -> keeps st st'.
Proof.
  revert st. induction cbs as [|h cbs IH]; intros st H; cbn [then_each] in H; [by injection H as <-|].
  destruct (then_ _ _ _) as [[q s]|] eqn:E; [|done]. apply keeps_then in E. etrans; [exact E|]. by apply IH.
Qed.

Lemma keeps_notify_each cbs v st st' : notify_each cbs v st = Some st' -> keeps st st'.
Proof.
  revert st. induction cbs as [|[[a b] [c|]] cbs IH]; intros st H; cbn [notify_each] in H.
  - by injection H as <-.
  - destruct (call c v st) as [[[w|e] s]|] eqn:E; [| |done]; apply keeps_call in E; (etrans; [exact E|]); auto.
    injection H as <-. keeps_tac.
  - injection H as <-. keeps_tac.
Qed.

Lemma keeps_run_task t st st' : run_task t st = Some st' -> keeps st st'.
Proof.
  destruct t as [t cbs|cbs v|[c|] v r|eb e r|v w r cb eb pb]; cbn [run_task]; intros H.
  - by apply keeps_then_each in H.
  - by apply keeps_notify_each in H.
  - destruct (call c v st) as [[[x|e] s]|] eqn:E; [| |done]; apply keeps_call in E; (etrans; [exact E|]);
      injection H as <-; keeps_tac.
  - injection H as <-. keeps_tac.
  - keeps_call keeps_call. destruct o; injection H as <-; keeps_tac.
  - destruct (then_ _ _ _) as [[q s]|] eqn:E; [|done]. injection H as <-. keeps_tac.
Qed.

Lemma keeps_all_loop a ps st st' : all_loop a ps st = Some st' -> keeps st st'.
Proof.
  revert st. induction ps as [|[k p] ps IH]; intros st H; cbn [all_loop] in H; [by injection H as <-|].
  destruct (q_alls st !! a); [|by injection H as <-].
  destruct (then_ _ _ _) as [[q s]|] eqn:E; [|done]. apply IH in H. etrans; [|exact H]. keeps_tac.
Qed.

(** ** The steps of the service and of its user *)

Inductive q_step : qstate -> qstate -> Prop :=
| QDefer st : q_step st (defer st).2
| QResolve d v st : q_step st (resolve d v st)
| QReject d e st : q_step st (reject_deferred d e st)
| QNotify d v st : q_step st (notify d v st)
| QThen p h st q st' : promise_then p h st = Some (q, st') -> q_step st st'
| QCatch p c st q st' : catch_ p c st = Some (q, st') -> q_step st st'
| QFinally p c st q st' : finally_ p c st = Some (q, st') -> q_step st st'
| QRejected e st : q_step st (reject e st).2
| QWhen v cb eb pb st : q_step st (when_ v cb eb pb st).2
| QAll b ps st q st' : all b ps st = Some (q, st') -> q_step st st'
| QTurns n st st' : turns n st = Some st' -> q_step st st'.

Lemma keeps_turns n st st' : turns n st = Some st' -> keeps st st'.
Proof.
  revert st. induction n as [|n IH]; intros st H; cbn [turns] in H; [by injection H as <-|].
  destruct (q_queue st) as [|t q]; [by injection H as <-|].
  destruct (run_task _ _) as [s|] eqn:E; [|done]. apply keeps_run_task in E. apply IH in H.
  transitivity s; [|done]. etrans; [|exact E]. by apply keeps_store.
Qed.

Lemma keeps_step st st' : q_step st st' -> keeps st st'.
Proof.
  intros H. destruct H as [st|d v st|d e st|d v st|p h st q st' H|p c st q st' H|p c st q st' H|e st|v cb eb pb st
    |b ps st q st' H|n st st' H].
  - apply keeps_defer.
  - keeps_tac.
  - keeps_tac.
  - keeps_tac.
  - by apply keeps_then in H.
  - by apply keeps_then in H.
  - by apply keeps_then in H.
  - keeps_tac.
  - unfold when_. cbn [defer snd]. keeps_tac. apply (keeps_defer st).
  - unfold all in H. cbn [defer] in H. destruct (all_loop _ _ _) as [s|] eqn:E; [|done].
    apply keeps_all_loop in E. injection H as <- <-.
    transitivity s; [etrans; [|exact E]; keeps_tac; apply (keeps_defer st)|]. case_match; keeps_tac.
  - by apply keeps_turns in H.
Qed.

Lemma keeps_steps st st' : rtc q_step st st' -> keeps st st'.
Proof. induction 1; [done|]. etrans; [by apply keeps_step|done]. Qed.


