(* ===== verification/PromiseChain.v ===== *)
(** * A chain of [then] computes the composition of its handlers *)

From S2P Require Import Prelude JsString JsObject JsNumber UriCodec Json Promise PromiseFacts.

(** The success and the error handler of one [then]. *)
Definition link : Type := (option (value -> outcome) * option (value -> outcome))%type.

Definition link_handlers (l : link) : handlers := (CUser <$> l.1, CUser <$> l.2, None).

(** [promise.then(f1, g1).then(f2, g2)...], from the promise of [d]. *)
Fixpoint then_chain (d : nat) (ls : list link) (st : qstate) : option (nat * qstate) :=
  match ls with
  | [] => Some (d, st)
  | l :: ls => match promise_then d (link_handlers l) st with
               | Some (r, st) => then_chain r ls st
               | None => None
               end
  end.

Definition finish (d : nat) (o : outcome) (st : qstate) : qstate :=
  match o with Ret v => resolve d v st | Exn e => reject_deferred d e st end.

(** The same handlers, called one after the other. *)
Definition apply_link (l : link) (o : outcome) : outcome :=
  match o with
  | Ret v => match l.1 with Some f => f v | None => Ret v end
  | Exn e => match l.2 with Some g => g e | None => Exn e end
  end.
Definition pipeline (ls : list link) (o : outcome) : outcome := fold_left (fun o l => apply_link l o) ls o.

(** The exceptions the handlers throw. *)
Definition link_errors (l : link) (o : outcome) : list value :=
  match match o with Ret v => (fun f => f v) <$> l.1 | Exn e => (fun g => g e) <$> l.2 end with
  | Some (Exn e) => [e]
  | _ => []
  end.
Fixpoint pipeline_errors (ls : list link) (o : outcome) : list value :=
  match ls with [] => [] | l :: ls => link_errors l o ++ pipeline_errors ls (apply_link l o) end.

(** Results that are not promises. *)
Definition plain (o : outcome) : Prop := match o with Ret (VPromise _) => False | _ => True end.
Definition plain_link (l : link) : Prop :=
  (forall f, l.1 = Some f -> forall v, plain (f v)) /\ (forall g, l.2 = Some g -> forall e, plain (g e)).

Lemma apply_link_plain l o : plain_link l -> plain o -> plain (apply_link l o).
Proof.
  intros [H1 H2] Ho. destruct o as [v|e]; simpl.
  - destruct l.1; eauto.
  - destruct l.2; eauto.
Qed.

(** ** One deferred *)

Definition wrapped (l : link) (r : nat) : handlers :=
  (Some (CWrappedCallback (CUser <$> l.1) r), Some (CWrappedErrback (CUser <$> l.2) r),
   Some (CWrappedProgressback None r)).

Definition flush (t : target) (cbs : list handlers) : list task :=
  match cbs with [] => [] | _ => [TkFlush t cbs] end.

(** The target stands for the outcome, a rejection being possibly the promise [reject] made. *)
Definition represents (st : qstate) (t : target) (o : outcome) : Prop :=
  match o with
  | Ret v => t = TValue v
  | Exn e => t = TRejected e \/ exists x, t = TPromise x /\ x < q_next st /\ q_store st !! x = Some (Settled (TRejected e))
  end.

(** [r] was given the outcome: its callbacks are queued, the other deferreds untouched. *)
Definition delivered (o : outcome) (ex : list value) (r : nat) (cbs : list handlers) (st st' : qstate) : Prop :=
  q_next st <= q_next st' /\ (forall x, x < q_next st -> x <> r -> q_store st' !! x = q_store st !! x)
  /\ q_handled st' = q_handled st ++ ex
  /\ exists t, represents st' t o /\ q_store st' !! r = Some (Settled t) /\ q_queue st' = q_queue st ++ flush t cbs.

Lemma settle_pending d t st cbs :
  q_store st !! d = Some (Pending cbs) ->
  settle d t st = QState (<[d := Settled t]> (q_store st)) (q_next st) (q_queue st ++ flush t cbs) (q_handled st)
                    (q_done st) (q_alls st).
Proof.
  intros H. unfold settle. rewrite H. destruct st, cbs; [|done]. unfold set_store. simpl. by rewrite app_nil_r.
Qed.

Lemma settle_delivered t o r cbs st :
  q_store st !! r = Some (Pending cbs) -> represents (settle r t st) t o ->
  delivered o [] r cbs st (settle r t st).
Proof.
  intros Hr Ht. rewrite (settle_pending _ _ _ _ Hr) in *. split_and!; simpl; [done| |by rewrite app_nil_r|].
  - intros x _ Hx. by rewrite lookup_insert_ne.
  - exists t. split_and!; [done| |done]. by rewrite lookup_insert_eq.
Qed.

(** A deferred made on the way that nobody waits for. *)
Lemma delivered_settle o ex r cbs st st' n t :
  delivered o ex r cbs st st' -> q_next st <= n -> q_store st' !! n = Some (Pending []) ->
  delivered o ex r cbs st (settle n t st').
Proof.
  intros (H1 & H2 & H3 & t0 & Ht & Hr & Hq) Hn Hp. rewrite (settle_pending _ _ _ _ Hp).
  split_and!; simpl; [done| |done|].
  - intros x Hx Hxr. rewrite lookup_insert_ne by lia. auto.
  - exists t0. rewrite app_nil_r. split_and!; [|rewrite lookup_insert_ne; [done|congruence]|done].
    destruct o as [v|e]; [done|]. destruct Ht as [Ht|(x & Hx & Hlt & Hs)]; [by left|]. right.
    exists x. split_and!; [done..|]. simpl. rewrite lookup_insert_ne; [done|congruence].
Qed.

(** The deferreds made before do not matter. *)
Lemma delivered_from o ex r cbs st sta st' :
  delivered o ex r cbs sta st' -> q_next st <= q_next sta ->
  (forall x, x < q_next st -> q_store sta !! x = q_store st !! x) ->
  q_handled sta = q_handled st -> q_queue sta = q_queue st -> delivered o ex r cbs st st'.
Proof.
  intros (H1 & H2 & H3 & t0 & Ht & Hr & Hq) Hn Hs Hh Hq'. rewrite Hh in H3. rewrite Hq' in Hq.
  split_and!; [lia| |done|by exists t0]. intros x Hx Hxr. rewrite H2 by (done || lia). auto.
Qed.

Lemma handled_delivered o e r cbs st st' :
  delivered o [] r cbs st st' -> delivered o [e] r cbs st (exceptionHandler e st').
Proof.
  intros (H1 & H2 & H3 & t0 & Ht & Hr & Hq). split_and!; [done|done| |by exists t0].
  simpl. rewrite H3. by rewrite app_nil_r.
Qed.

Lemma defer_old st x : x < q_next st -> q_store (defer st).2 !! x = q_store st !! x.
Proof. intros H. simpl. rewrite lookup_insert_ne; [done|lia]. Qed.

(** ** One link *)

(** The function wrapped for the outcome, called with it. *)
Definition call_wrapped (l : link) (r : nat) (o : outcome) (st : qstate) : option (outcome * qstate) :=
  match o with
  | Ret v => call (CWrappedCallback (CUser <$> l.1) r) v st
  | Exn e => call (CWrappedErrback (CUser <$> l.2) r) e st
  end.

(** What a wrapped user function does with its result. *)
Lemma wrapped_result o r cbs st :
  q_store st !! r = Some (Pending cbs) -> plain o ->
  exists st',
    match o with
    | Ret v => ret_void (resolve r v st)
    | Exn e => ret_void (exceptionHandler e (reject_deferred r e st))
    end = Some (Ret undefined, st')
    /\ delivered o (match o with Ret _ => [] | Exn e => [e] end) r cbs st st'.
Proof.
  intros Hr Ho. destruct o as [v|e]; (eexists; split; [reflexivity|]).
  - unfold resolve. destruct v as [j|p|b ob]; [|done|]; by apply settle_delivered.
  - apply handled_delivered. apply settle_delivered; [done|by left].
Qed.

Lemma call_wrapped_delivers l r cbs o st :
  q_wf st -> q_store st !! r = Some (Pending cbs) -> plain_link l -> plain o ->
  exists st', call_wrapped l r o st = Some (Ret undefined, st')
    /\ delivered (apply_link l o) (link_errors l o) r cbs st st'.
Proof.
  intros W Hr [Hl1 Hl2] Ho. pose proof (W r (mk_is_Some _ _ Hr)) as Hlt.
  destruct o as [v|e]; cbn [call_wrapped call apply_link]; unfold link_errors.
  - destruct l.1 as [f|]; cbn [fmap option_fmap option_map call defaultCallback].
    + apply (wrapped_result (f v)); eauto.
    + by apply (wrapped_result (Ret v)).
  - destruct l.2 as [g|]; cbn [fmap option_fmap option_map call].
    + apply (wrapped_result (g e)); eauto.
    + unfold defaultErrback, reject. cbn [defer]. set (x := q_next st).
      set (sta := QState _ _ _ _ _ _). unfold reject_deferred at 1.
      assert (Hx : q_store sta !! x = Some (Pending [])) by (simpl; by rewrite lookup_insert_eq).
      set (stb := settle x (TRejected e) sta).
      assert (Hb : stb = QState (<[x := Settled (TRejected e)]> (q_store sta)) (S x) (q_queue st) (q_handled st)
                     (q_done st) (q_alls st)).
      { unfold stb. rewrite (settle_pending _ _ _ _ Hx). simpl. by rewrite app_nil_r. }
      assert (Hrb : q_store stb !! r = Some (Pending cbs)).
      { rewrite Hb. simpl. rewrite !lookup_insert_ne; [done|unfold x; lia..]. }
      eexists. split; [reflexivity|]. unfold resolve. cbn [ref].
      apply (delivered_from _ _ _ _ _ stb); [|rewrite Hb; simpl..].
      * apply settle_delivered; [done|]. right. exists x.
        rewrite (settle_pending _ _ _ _ Hrb). split_and!; [done|rewrite Hb; simpl; unfold x; lia|].
        simpl. rewrite lookup_insert_ne by (unfold x; lia). rewrite Hb. simpl. by rewrite lookup_insert_eq.
      * unfold x. lia.
      * intros y Hy. rewrite !lookup_insert_ne; [done|unfold x; lia..].
      * done.
      * done.
Qed.

Definition clear_queue (st : qstate) : qstate :=
  QState (q_store st) (q_next st) [] (q_handled st) (q_done st) (q_alls st).

(** What [then] does to a target that has an outcome: deferreds nobody waits for, and a task. *)
Lemma then_direct fuel t h st :
  target_then fuel t h st = match t with
    | TValue v => Some (q_next st, nextTick (TkRef h.1.1 v (q_next st)) (defer st).2)
    | TRejected e => Some (q_next st, nextTick (TkRejected h.1.2 e (q_next st)) (defer st).2)
    | TPromise _ => target_then fuel t h st
    end.
Proof. destruct h as [[a b] c], fuel, t; done. Qed.

Definition task_of (c : closure) (o : outcome) (result : nat) : task :=
  match o with Ret v => TkRef (Some c) v result | Exn e => TkRejected (Some c) e result end.
Definition arg_of (o : outcome) : value := match o with Ret v | Exn v => v end.
Definition wrapper (l : link) (r : nat) (o : outcome) : closure :=
  match o with
  | Ret _ => CWrappedCallback (CUser <$> l.1) r
  | Exn _ => CWrappedErrback (CUser <$> l.2) r
  end.

Lemma call_wrapper l r o st : call (wrapper l r o) (arg_of o) st = call_wrapped l r o st.
Proof. by destruct o. Qed.

(** The second turn. *)
Lemma task_turn c o n st st' :
  call c (arg_of o) (clear_queue st) = Some (Ret undefined, st') -> q_queue st = [task_of c o n] ->
  turns 1 st = Some (resolve n undefined st').
Proof.
  intros Hc Hq. cbn [turns]. rewrite Hq. unfold clear_queue in Hc. destruct o as [v|e]; cbn [task_of run_task arg_of] in *;
    by rewrite Hc.
Qed.

Lemma turns_app m n st st' : turns m st = Some st' -> turns (m + n) st = turns n st'.
Proof.
  revert st. induction m as [|m IH]; intros st; cbn [turns Nat.add]; [by intros [= ->]|].
  destruct (q_queue st) as [|t q] eqn:E.
  - intros [= <-]. destruct n; cbn [turns]; [done|by rewrite E].
  - destruct (run_task _ _) as [s|]; [apply IH|done].
Qed.

Lemma wrapped_handlers l r o : match o with Ret _ => (wrapped l r).1.1 | Exn _ => (wrapped l r).1.2 end = Some (wrapper l r o).
Proof. by destruct o. Qed.

(** After [defer], the older deferreds are the same and the new one is pending. *)
Lemma defer_pending st : q_store (defer st).2 !! q_next st = Some (Pending []).
Proof. apply lookup_insert_eq. Qed.

(** The target is the value or the rejection itself. *)
Lemma direct_turns st l r cbs o :
  q_wf st -> q_queue st = [TkFlush (match o with Ret v => TValue v | Exn e => TRejected e end) [wrapped l r]] ->
  q_store st !! r = Some (Pending cbs) -> plain_link l -> plain o ->
  exists st', turns 2 st = Some st'
    /\ delivered (apply_link l o) (link_errors l o) r cbs (clear_queue st) st'.
Proof.
  intros W Hq Hr Hl Ho. pose proof (W r (mk_is_Some _ _ Hr)) as Hlt.
  set (s0 := clear_queue st). destruct (keeps_defer s0 W) as [W1 _]. set (s1 := (defer s0).2) in *.
  assert (Hr1 : q_store s1 !! r = Some (Pending cbs)) by (unfold s1; by rewrite defer_old).
  destruct (call_wrapped_delivers l r cbs o s1 W1 Hr1 Hl Ho) as (s2 & Hc & Hd).
  rewrite <- call_wrapper in Hc. exists (resolve (q_next st) undefined s2). split.
  - change 2 with (1 + 1). rewrite (turns_app 1 1 _ (nextTick (task_of (wrapper l r o) o (q_next st)) s1)).
    + by apply (task_turn (wrapper l r o) o).
    + cbn [turns]. rewrite Hq. cbn [run_task then_each]. unfold then_. rewrite then_direct. by destruct o.
  - destruct Hd as (H1 & H2 & H3).
    apply delivered_settle; [|done|rewrite H2; [apply defer_pending|simpl; lia|lia]].
    apply (delivered_from _ _ _ _ _ s1); [by split|simpl; lia|intros; by apply defer_old|done..].
Qed.

(** It is the rejected promise of the default handler. *)
Lemma indirect_turns st x l r cbs e :
  q_wf st -> q_queue st = [TkFlush (TPromise x) [wrapped l r]] -> x < q_next st ->
  q_store st !! x = Some (Settled (TRejected e)) -> q_store st !! r = Some (Pending cbs) -> plain_link l ->
  exists st', turns 2 st = Some st'
    /\ delivered (apply_link l (Exn e)) (link_errors l (Exn e)) r cbs (clear_queue st) st'.
Proof.
  intros W Hq Hx Hxs Hr Hl. pose proof (W r (mk_is_Some _ _ Hr)) as Hlt. set (n := q_next st).
  set (s0 := clear_queue st). destruct (keeps_defer s0 W) as [W1 _]. set (s1 := (defer s0).2) in *.
  destruct (keeps_defer s1 W1) as [W2 _]. set (s2 := (defer s1).2) in *.
  assert (Hold : forall y, y < n -> q_store s2 !! y = q_store st !! y).
  { intros y Hy. unfold s2. rewrite defer_old by (simpl; unfold n in *; lia). unfold s1. by rewrite defer_old. }
  assert (Hr2 : q_store s2 !! r = Some (Pending cbs)) by (by rewrite Hold).
  destruct (call_wrapped_delivers l r cbs (Exn e) s2 W2 Hr2 Hl I) as (s3 & Hc & Hd).
  rewrite <- call_wrapper in Hc. set (w := wrapper l r (Exn e)) in *.
  set (c := CWrappedErrback (Some w) n).
  exists (resolve (S n) undefined (resolve n undefined s3)). split.
  - change 2 with (1 + 1). rewrite (turns_app 1 1 _ (nextTick (task_of c (Exn e) (S n)) s2)).
    + apply (task_turn c (Exn e)); [|done]. unfold c. clearbody w. cbn [call arg_of] in *.
      change (clear_queue (nextTick (task_of (CWrappedErrback (Some w) n) (Exn e) (S n)) s2)) with s2.
      by rewrite Hc.
    + cbn [turns]. rewrite Hq. cbn [run_task then_each]. unfold then_. cbn [q_next].
      assert (Hf : exists f, q_next st = S f) by (exists (pred (q_next st)); lia). destruct Hf as [f Hf].
      rewrite Hf at 1. cbn [target_then wrapped defer q_store q_next].
      rewrite lookup_insert_ne by lia. rewrite Hxs, then_direct. done.
  - assert (Hd' : delivered (apply_link l (Exn e)) (link_errors l (Exn e)) r cbs s0 s3).
    { apply (delivered_from _ _ _ _ _ s2); [done|simpl; lia|intros; by apply Hold|done..]. }
    destruct Hd as (H1 & H2 & H3).
    assert (Hn : q_store s3 !! n = Some (Pending [])).
    { rewrite H2; [|simpl; unfold n; lia|unfold n; lia]. unfold s2. rewrite defer_old by (simpl; unfold n; lia).
      apply defer_pending. }
    apply delivered_settle; [by apply delivered_settle|simpl; unfold n; lia|].
    unfold resolve. rewrite (settle_pending _ _ _ _ Hn). simpl. rewrite lookup_insert_ne by lia.
    rewrite H2; [apply (defer_pending s1)|simpl; unfold n; lia|unfold n; lia].
Qed.

(** Two turns bring an outcome from one deferred to the next. *)
Lemma link_turns st t l r cbs o :
  q_wf st -> q_queue st = [TkFlush t [wrapped l r]] -> represents st t o ->
  q_store st !! r = Some (Pending cbs) -> plain_link l -> plain o ->
  exists st', turns 2 st = Some st'
    /\ delivered (apply_link l o) (link_errors l o) r cbs (clear_queue st) st'.
Proof.
  intros W Hq Ht Hr Hl Ho. destruct o as [v|e]; [cbn in Ht; subst t; by apply (direct_turns _ _ _ _ (Ret v))|].
  destruct Ht as [-> |(x & -> & Hx & Hs)]; [by apply (direct_turns _ _ _ _ (Exn e))|by apply (indirect_turns st x)].
Qed.

(** ** The chain *)

(** [d] and the deferreds after it wait for one another, up to [last]. *)
Fixpoint ready (st : qstate) (d : nat) (ls : list link) (last : nat) : Prop :=
  match ls with
  | [] => d = last /\ q_store st !! d = Some (Pending [])
  | l :: ls => exists r, d < r /\ q_store st !! d = Some (Pending [wrapped l r]) /\ ready st r ls last
  end.

Lemma ready_frame st st' d ls last :
  q_wf st -> (forall x, d <= x -> x < q_next st -> q_store st' !! x = q_store st !! x) ->
  ready st d ls last -> ready st' d ls last.
Proof.
  intros W. revert d. induction ls as [|l ls IH]; intros d Hs.
  - intros [-> Hd]. split; [done|]. rewrite Hs; [done..|]. apply W. by eexists.
  - intros (r & Hlt & Hd & Hr). exists r. split_and!; [done| |apply IH; [|done]; intros; apply Hs; lia].
    rewrite Hs; [done..|]. apply W. by eexists.
Qed.

Lemma then_chain_ready ls d st :
  q_wf st -> q_store st !! d = Some (Pending []) ->
  exists last st', then_chain d ls st = Some (last, st') /\ q_wf st' /\ ready st' d ls last
    /\ q_queue st' = q_queue st /\ q_handled st' = q_handled st
    /\ (forall x, x < q_next st -> x <> d -> q_store st' !! x = q_store st !! x).
Proof.
  revert d st. induction ls as [|l ls IH]; intros d st W Hd; [by exists d, st|].
  pose proof (W d (mk_is_Some _ _ Hd)) as Hlt. cbn [then_chain].
  set (r := q_next st). destruct (keeps_defer st W) as [W1 _]. set (s1 := (defer st).2) in *.
  assert (Hd1 : q_store s1 !! d = Some (Pending [])) by (unfold s1; by rewrite defer_old).
  set (s2 := set_store (<[d := Pending [wrapped l r]]> (q_store s1)) s1).
  assert (E : promise_then d (link_handlers l) st = Some (r, s2)).
  { unfold promise_then, then_. generalize (q_next st) at 1. intros f. destruct f as [|f]; cbn [target_then link_handlers defer].
    all: unfold s1 in Hd1; cbn [defer snd q_store] in *; by rewrite Hd1. }
  rewrite E. destruct (keeps_pending _ _ (Pending [wrapped l r]) _ Hd1 W1) as [W2 _].
  destruct (IH r s2 W2) as (last & st' & -> & W' & Hr & Hq & Hh & Hs).
  { simpl. rewrite lookup_insert_ne by lia. apply defer_pending. }
  exists last, st'. split_and!; [done|done| |done|done|].
  - exists r. split_and!; [done| |done]. rewrite Hs; [|simpl; lia|lia]. simpl. by rewrite lookup_insert_eq.
  - intros x Hx Hxd. rewrite Hs; [|simpl; lia|lia]. simpl. rewrite lookup_insert_ne by done. by apply defer_old.
Qed.

(** What the first deferred of the chain was given comes out of the last one. *)
Lemma ready_turns ls o ex d st st' last :
  q_wf st -> q_wf st' -> q_queue st = [] -> ready st d ls last -> Forall plain_link ls -> plain o ->
  (exists cbs, q_store st !! d = Some (Pending cbs) /\ delivered o ex d cbs st st') ->
  exists sf, turns (2 * length ls) st' = Some sf /\ q_queue sf = []
    /\ settled_as 2 (TPromise last) sf = Some (pipeline ls o)
    /\ q_handled sf = q_handled st ++ ex ++ pipeline_errors ls o.
Proof.
  revert o ex d st st'. induction ls as [|l ls IH]; intros o ex d st st' W W' Hq Hr Hp Ho (cbs & Hd & Hdel).
  - destruct Hr as [<- Hr]. destruct Hdel as (_ & _ & Hh & t & Ht & Hs & Hq'). rewrite Hr in Hd. injection Hd as <-.
    exists st'. split_and!; [done|by rewrite Hq', Hq| |simpl; by rewrite app_nil_r].
    simpl. rewrite Hs. destruct o as [v|e]; [by cbn in Ht; subst t|]. destruct Ht as [-> |(x & -> & _ & Hx)]; [done|].
    simpl. by rewrite Hx.
  - apply Forall_cons in Hp as [Hl Hp]. destruct Hr as (r & Hlt & Hdr & Hr). rewrite Hd in Hdr. injection Hdr as ->.
    destruct Hdel as (Hn & Hs & Hh & t & Ht & Hst & Hq'). rewrite Hq in Hq'. cbn [app flush] in Hq'.
    assert (Hr' : ready st' r ls last).
    { eapply ready_frame; [exact W| |exact Hr]. intros x Hx Hx'. apply Hs; [done|lia]. }
    assert (Hpend : exists cbs', q_store st' !! r = Some (Pending cbs')).
    { destruct ls; [destruct Hr' as [_ ->]; by eexists|destruct Hr' as (? & _ & -> & _); by eexists]. }
    destruct Hpend as [cbs' Hpend].
    destruct (link_turns st' t l r cbs' o W' Hq' Ht Hpend Hl Ho) as (s2 & Hturn & Hdel2).
    assert (W2 : q_wf s2) by exact (proj1 (keeps_turns _ _ _ Hturn W')).
    destruct (IH (apply_link l o) (link_errors l o) r (clear_queue st') s2) as (sf & Hf & Hqf & Hlast & Hhf); auto.
    { eapply ready_frame; [exact W'| |exact Hr']. done. }
    { by apply apply_link_plain. }
    { by exists cbs'. }
    exists sf. split_and!; [|done|done|].
    + replace (2 * length (l :: ls)) with (2 + 2 * length ls) by (simpl; lia).
      by rewrite (turns_app 2 _ _ _ Hturn).
    + rewrite Hhf. simpl. rewrite Hh. by rewrite <- !app_assoc.
Qed.


(** A request whose answer is read, refused and recovered from. *)
Definition sample_links : list link :=
  [(Some (fun v => Ret (VResults true [(js "0", v)])), None); (Some (fun v => Exn (VData (jlit "no tasks"))), None);
   (None, None); (None, Some (fun _ => Ret (VData (jlit "recovered"))))].

Lemma sample_links_plain : Forall plain_link sample_links.
Proof. repeat (apply Forall_cons_2; [by split; intros f [= <-]|]). apply Forall_nil_2. Qed.


(** The model of [all], [when] and [finally] on examples: the results by key, the value of a
    promise, and the value kept through [finally]. *)
Example all_ex :
  (let '(d, st) := defer q_empty in
   '(r, st) ← all false [(js "a", VPromise d); (js "b", VData (jint 2))] st;
   '(f, st) ← finally_ r (Some (CUser (fun _ => Ret undefined))) st;
   let '(w, st) := when_ (VPromise f) None None None st in
   st ← turns 40 (resolve d (VData (jint 1)) st);
   Some (settled_as 9 (TPromise w) st))
  = Some (Some (Ret (VResults false [(js "b", VData (jint 2)); (js "a", VData (jint 1))]))).
Proof. vm_compute. reflexivity. Qed.
