(* ===== verification/Scope.v ===== *)
(** * Scopes and their events (angular.js, $RootScopeProvider)

    Scopes live in a store and point at one another as in the code: a scope knows its parent,
    its siblings, and its first and last child.  The root scope is number 0.  Event names are
    names that [Object.prototype] does not have; listeners are known by a number, are called
    in the order of the log, and do not change the scopes themselves. *)

From S2P Require Import Prelude JsString JsObject JsNumber UriCodec Json.

Record scope : Type := Scope {
  s_parent : option nat;                         (** [$parent] *)
  s_next : option nat;                           (** [$$nextSibling] *)
  s_prev : option nat;                           (** [$$prevSibling] *)
  s_head : option nat;                           (** [$$childHead] *)
  s_tail : option nat;                           (** [$$childTail] *)
  s_proto : option nat;                          (** the prototype, of a scope that is not isolate *)
  s_destroyed : option bool;                     (** the own [$$destroyed], if there is one *)
  s_noops : bool;                                (** [$destroy], [$digest], [$on], [$watch] replaced *)
  s_listeners : gmap jstr (list (option nat));   (** [$$listeners]; [None] is a [null] *)
  s_count : gmap jstr (option Z)                 (** [$$listenerCount]; [None] is [NaN] *)
}.

Record scopes : Type := Scopes { sc_store : gmap nat scope; sc_next : nat }.

Definition root : nat := 0.

(** [new Scope()]. *)
Definition root_scope : scope := Scope None None None None None None (Some false) false ∅ ∅.
Definition new_scopes : scopes := Scopes {[root := root_scope]} 1.

Definition with_links (parent next prev head tail : option nat) (s : scope) : scope :=
  Scope parent next prev head tail (s_proto s) (s_destroyed s) (s_noops s) (s_listeners s) (s_count s).
Definition set_next (n : option nat) (s : scope) : scope := with_links (s_parent s) n (s_prev s) (s_head s) (s_tail s) s.
Definition set_prev (p : option nat) (s : scope) : scope := with_links (s_parent s) (s_next s) p (s_head s) (s_tail s) s.
Definition set_head (h : option nat) (s : scope) : scope := with_links (s_parent s) (s_next s) (s_prev s) h (s_tail s) s.
Definition set_tail (t : option nat) (s : scope) : scope := with_links (s_parent s) (s_next s) (s_prev s) (s_head s) t s.
Definition with_events (ls : gmap jstr (list (option nat))) (cs : gmap jstr (option Z)) (s : scope) : scope :=
  Scope (s_parent s) (s_next s) (s_prev s) (s_head s) (s_tail s) (s_proto s) (s_destroyed s) (s_noops s) ls cs.
Definition set_destroyed (s : scope) : scope :=
  Scope (s_parent s) (s_next s) (s_prev s) (s_head s) (s_tail s) (s_proto s) (Some true) (s_noops s) (s_listeners s)
    (s_count s).

Definition change (i : nat) (f : scope -> scope) (st : scopes) : scopes :=
  Scopes (alter f i (sc_store st)) (sc_next st).
Definition change_opt (i : option nat) (f : scope -> scope) (st : scopes) : scopes :=
  match i with Some i => change i f st | None => st end.

(** ** Prototypes *)

(** The nearest scope of the prototype chain with an own [$$destroyed]. *)
Fixpoint chain_destroyed (fuel : nat) (st : scopes) (i : nat) : bool :=
  match sc_store st !! i with
  | None => false
  | Some r => match s_destroyed r, s_proto r, fuel with
              | Some b, _, _ => b
              | None, Some p, S fuel => chain_destroyed fuel st p
              | _, _, _ => false
              end
  end.
Definition destroyed (st : scopes) (i : nat) : bool := chain_destroyed (sc_next st) st i.

(** Whether the scope or one it inherits from has had its methods replaced. *)
Fixpoint chain_noops (fuel : nat) (st : scopes) (i : nat) : bool :=
  match sc_store st !! i with
  | None => false
  | Some r => s_noops r || match s_proto r, fuel with Some p, S fuel => chain_noops fuel st p | _, _ => false end
  end.
Definition noops (st : scopes) (i : nat) : bool := chain_noops (sc_next st) st i.

(** ** [$new] *)

Definition scope_new (isolate : bool) (this : nat) (st : scopes) : result js_error (nat * scopes) :=
  match sc_store st !! this with
  | None => Throw JsTypeError
  | Some r =>
      let child := sc_next st in
      let c := Scope (Some this) None (s_tail r) None None (if isolate then None else Some this)
                 (if isolate then Some false else None) false ∅ ∅ in
      let st := Scopes (<[child := c]> (sc_store st)) (S child) in
      match s_head r, s_tail r with
      | Some _, Some t => Ok (child, change this (set_tail (Some child)) (change t (set_next (Some child)) st))
      | Some _, None => Throw JsTypeError
      | None, _ => Ok (child, change this (set_tail (Some child)) (change this (set_head (Some child)) st))
      end
  end.

(** ** [$on] *)

Definition listeners_of (name : jstr) (s : scope) : list (option nat) := default [] (s_listeners s !! name).

(** [if (!count[name]) count[name] = 0; count[name]++]. *)
Definition increment (name : jstr) (s : scope) : scope :=
  let n := match s_count s !! name with Some (Some z) => z | _ => 0%Z end in
  with_events (s_listeners s) (<[name := Some (n + 1)%Z]> (s_count s)) s.

(** [count[name] -= n], deleted at 0. *)
Definition decrement (name : jstr) (n : option Z) (s : scope) : scope :=
  let c := match s_count s !! name, n with Some (Some z), Some n => Some (z - n)%Z | _, _ => None end in
  with_events (s_listeners s)
    match c with Some 0%Z => delete name (s_count s) | _ => <[name := c]> (s_count s) end s.

(** [do f(current) while (current = current.$parent)]: a parent is older than its child. *)
Fixpoint ancestors_do (fuel : nat) (f : scope -> scope) (i : nat) (st : scopes) : scopes :=
  match sc_store st !! i with
  | None => st
  | Some r => let st := change i f st in
              match s_parent r, fuel with Some p, S fuel => ancestors_do fuel f p st | _, _ => st end
  end.

(** [decrementListenerCount]. *)
Definition decrementListenerCount (i : nat) (count : option Z) (name : jstr) (st : scopes) : scopes :=
  ancestors_do (sc_next st) (decrement name count) i st.

Definition on (name : jstr) (listener : nat) (this : nat) (st : scopes) : scopes :=
  if noops st this then st
  else
    ancestors_do (sc_next st) (increment name) this
      (change this (fun s => with_events (<[name := listeners_of name s ++ [Some listener]]> (s_listeners s)) (s_count s) s) st).

Fixpoint set_null (listener : nat) (l : list (option nat)) : list (option nat) :=
  match l with
  | [] => []
  | x :: l => if decide (x = Some listener) then None :: l else x :: set_null listener l
  end.

(** The function [$on] returns; after [$destroy] the array it holds is no longer the scope's. *)
Definition off (name : jstr) (listener : nat) (this : nat) (st : scopes) : scopes :=
  let st := change this (fun s =>
    if s_noops s then s
    else match s_listeners s !! name with
         | Some l => with_events (<[name := set_null listener l]> (s_listeners s)) (s_count s) s
         | None => s
         end) st in
  decrementListenerCount this (Some 1%Z) name st.

(** ** [$broadcast] and [$emit] *)

(** The calls of listeners, each with its [currentScope]. *)
Definition log : Type := list (nat * nat).

(** The loop on the listeners of a scope: the calls, and the array without its nulls. *)
Fixpoint call_listeners (current : nat) (ls : list (option nat)) : log * list (option nat) :=
  match ls with
  | [] => ([], [])
  | None :: ls => call_listeners current ls
  | Some l :: ls => let '(calls, ls) := call_listeners current ls in ((current, l) :: calls, Some l :: ls)
  end.

Definition fire (name : jstr) (current : nat) (st : scopes) : log * scopes :=
  match sc_store st !! current with
  | Some r =>
      match s_listeners r !! name with
      | Some ls => let '(calls, ls) := call_listeners current ls in
                   (calls, change current (fun s => with_events (<[name := ls]> (s_listeners s)) (s_count s) s) st)
      | None => ([], st)
      end
  | None => ([], st)
  end.

(** [while (current !== target && !(next = current.$$nextSibling)) current = current.$parent];
    [None] is the [TypeError] of a [null] scope. *)
Fixpoint climb (fuel : nat) (st : scopes) (target current : nat) : option (option nat) :=
  if decide (current = target) then Some None
  else match sc_store st !! current with
       | None => None
       | Some r => match s_next r, s_parent r, fuel with
                   | Some n, _, _ => Some (Some n)
                   | None, Some p, S fuel => climb fuel st target p
                   | None, _, _ => None
                   end
       end.

(** The scope visited next; [down] tells whether to go to the children. *)
Definition next_scope (down : scope -> bool) (st : scopes) (target current : nat) : option (option nat) :=
  match sc_store st !! current with
  | None => None
  | Some r =>
      match s_head r with
      | Some h => if down r then Some (Some h) else climb (sc_next st) st target current
      | None => climb (sc_next st) st target current
      end
  end.

(** [current.$$listenerCount[name]] as a truth value. *)
Definition has_count (name : jstr) (s : scope) : bool :=
  match s_count s !! name with Some (Some z) => negb (Z.eqb z 0) | _ => false end.

(** The loop of [$broadcast], every scope being visited at most once. *)
Fixpoint broadcast_from (fuel : nat) (name : jstr) (target current : nat) (st : scopes) : option (log * scopes) :=
  match fuel with
  | 0 => None
  | S fuel =>
      let '(calls, st) := fire name current st in
      match next_scope (has_count name) st target current with
      | None => None
      | Some None => Some (calls, st)
      | Some (Some next) =>
          match broadcast_from fuel name target next st with
          | Some (calls', st) => Some (calls ++ calls', st)
          | None => None
          end
      end
  end.

Definition broadcast (name : jstr) (target : nat) (st : scopes) : option (log * scopes) :=
  broadcast_from (sc_next st) name target target st.

(** [$emit]; [stops] tells the listeners that call [stopPropagation]. *)
Fixpoint emit_from (fuel : nat) (stops : nat -> bool) (name : jstr) (current : nat) (st : scopes) : log * scopes :=
  let '(calls, st) := fire name current st in
  if existsb (fun c => stops c.2) calls then (calls, st)
  else match sc_store st !! current ≫= s_parent, fuel with
       | Some p, S fuel => let '(calls', st) := emit_from fuel stops name p st in (calls ++ calls', st)
       | _, _ => (calls, st)
       end.

Definition emit (stops : nat -> bool) (name : jstr) (this : nat) (st : scopes) : log * scopes :=
  emit_from (sc_next st) stops name this st.

(** ** [$destroy] *)

Definition sever (s : scope) : scope :=
  Scope None None None None None (s_proto s) (s_destroyed s) true ∅ (s_count s).

(** Taking a scope out of the children of its parent. *)
Definition unlink (this parent : nat) (r : scope) (st : scopes) : scopes :=
  let st := change parent (fun p => if decide (s_head p = Some this) then set_head (s_next r) p else p) st in
  let st := change parent (fun p => if decide (s_tail p = Some this) then set_tail (s_prev r) p else p) st in
  let st := change_opt (s_prev r) (set_next (s_next r)) st in
  change_opt (s_next r) (set_prev (s_prev r)) st.

(** [forEach(this.$$listenerCount, ...)]: every count is taken from the ancestors. *)
Definition release_counts (this : nat) (counts : list (jstr * option Z)) (st : scopes) : scopes :=
  fold_left (fun st nc => decrementListenerCount this nc.2 nc.1 st) counts st.

Definition destroy (this : nat) (st : scopes) : option (log * scopes) :=
  if noops st this || destroyed st this then Some ([], st)
  else match broadcast (js "$destroy") this st with
       | None => None
       | Some (calls, st) =>
           let st := change this set_destroyed st in
           if decide (this = root) then Some (calls, st)
           else match sc_store st !! this with
                | Some r =>
                    match s_parent r with
                    | Some parent =>
                        let st := release_counts this (map_to_list (s_count r)) st in
                        Some (calls, change this sever (unlink this parent r st))
                    | None => None
                    end
                | None => None
                end
       end.
