(* ===== verification/ScopeTree.v ===== *)
(** * The tree of scopes that $new, $on, $destroy, $broadcast and $emit promise

    The specification of [Scope]: a forest of lists of children with the listeners of every
    scope, without sibling pointers and without counts.  It speaks of the scopes that are
    still attached to the root. *)

From S2P Require Import Prelude JsString JsObject JsNumber UriCodec Json Scope.

Record forest : Type := Forest {
  f_children : gmap nat (list nat);          (** the attached scopes, with their children in order *)
  f_parent : gmap nat nat;
  f_live : gmap nat (gmap jstr (list nat));  (** the listeners that have not been removed *)
  f_next : nat
}.

Definition new_forest : forest := Forest {[root := []]} ∅ ∅ 1.

Definition children (f : forest) (i : nat) : list nat := default [] (f_children f !! i).
Definition live (f : forest) (i : nat) (name : jstr) : list nat := default [] (default ∅ (f_live f !! i) !! name).

(** A scope, then its children's trees in order. *)
Fixpoint preorder (fuel : nat) (f : forest) (i : nat) : list nat :=
  i :: match fuel with 0 => [] | S fuel => children f i ≫= preorder fuel f end.
(** A child is younger than its parent. *)
Definition subtree (f : forest) (i : nat) : list nat := preorder (f_next f - i) f i.

(** A scope, its parent, and so on. *)
Fixpoint path (fuel : nat) (f : forest) (i : nat) : list nat :=
  i :: match fuel, f_parent f !! i with S fuel, Some p => path fuel f p | _, _ => [] end.

Definition calls_of (f : forest) (name : jstr) (i : nat) : log := pair i <$> live f i name.

Fixpoint calls_until (stops : nat -> bool) (f : forest) (name : jstr) (l : list nat) : log :=
  match l with
  | [] => []
  | i :: l => calls_of f name i
              ++ if existsb (fun c => stops c.2) (calls_of f name i) then [] else calls_until stops f name l
  end.

Definition set_live (i : nat) (name : jstr) (ls : list nat) (f : forest) : forest :=
  Forest (f_children f) (f_parent f) (<[i := <[name := ls]> (default ∅ (f_live f !! i))]> (f_live f)) (f_next f).

(** The listeners without the first occurrence of one of them. *)
Fixpoint remove_first (x : nat) (l : list nat) : list nat :=
  match l with [] => [] | y :: l => if decide (y = x) then l else y :: remove_first x l end.

(** ** Operations *)

Inductive op : Type :=
| New (isolate : bool) (this : nat)
| On (name : jstr) (listener this : nat)
| Off (name : jstr) (listener this : nat)
| Broadcast (name : jstr) (this : nat)
| Emit (stops : nat -> bool) (name : jstr) (this : nat)
| Destroy (this : nat).

Definition op_scope (o : op) : nat :=
  match o with
  | New _ i | On _ _ i | Off _ _ i | Broadcast _ i | Emit _ _ i | Destroy i => i
  end.

(** What is asked of the caller: the scope is attached, a removed listener is there, and the
    root is not destroyed. *)
Definition allowed (f : forest) (o : op) : Prop :=
  is_Some (f_children f !! op_scope o)
  /\ match o with
     | Off name l i => l ∈ live f i name
     | Destroy i => i <> root
     | _ => True
     end.

Definition f_step (f : forest) (o : op) : forest * log :=
  match o with
  | New _ i =>
      let c := f_next f in
      (Forest (<[c := []]> (<[i := children f i ++ [c]]> (f_children f))) (<[c := i]> (f_parent f)) (f_live f) (S c), [])
  | On name l i => (set_live i name (live f i name ++ [l]) f, [])
  | Off name l i => (set_live i name (remove_first l (live f i name)) f, [])
  | Broadcast name i => (f, subtree f i ≫= calls_of f name)
  | Emit stops name i => (f, calls_until stops f name (path (f_next f) f i))
  | Destroy i =>
      let dead := subtree f i in
      let forget (m : gmap nat (list nat)) := filter (fun kv => kv.1 ∉ dead) m in
      let m := match f_parent f !! i with
               | Some p => <[p := filter (fun c => c <> i) (children f p)]> (f_children f)
               | None => f_children f
               end in
      (Forest (forget m) (filter (fun kv => kv.1 ∉ dead) (f_parent f)) (f_live f) (f_next f),
       dead ≫= calls_of f (js "$destroy"))
  end.

(** The same operations of the code. *)
Definition c_step (st : scopes) (o : op) : option (scopes * log) :=
  match o with
  | New b i => match scope_new b i st with Ok (_, st) => Some (st, []) | Throw _ => None end
  | On name l i => Some (on name l i st, [])
  | Off name l i => Some (off name l i st, [])
  | Broadcast name i => match broadcast name i st with Some (calls, st) => Some (st, calls) | None => None end
  | Emit stops name i => let '(calls, st) := emit stops name i st in Some (st, calls)
  | Destroy i => match destroy i st with Some (calls, st) => Some (st, calls) | None => None end
  end.

Fixpoint c_run (st : scopes) (os : list op) : option (scopes * log) :=
  match os with
  | [] => Some (st, [])
  | o :: os => match c_step st o with
               | None => None
               | Some (st, calls) => match c_run st os with Some (st, calls') => Some (st, calls ++ calls') | None => None end
               end
  end.

Fixpoint f_run (f : forest) (os : list op) : forest * log :=
  match os with
  | [] => (f, [])
  | o :: os => let '(f, calls) := f_step f o in let '(f, calls') := f_run f os in (f, calls ++ calls')
  end.

Fixpoint all_allowed (f : forest) (os : list op) : Prop :=
  match os with [] => True | o :: os => allowed f o /\ all_allowed (f_step f o).1 os end.

Definition sample_ops : list op :=
  [New false 0; New true 0; New false 1; On (js "e") 7 3; On (js "e") 8 2; On (js "e") 9 0; New false 0;
   On (js "$destroy") 5 3; Broadcast (js "e") 0; Emit (fun l => Nat.eqb l 7) (js "e") 3; Off (js "e") 8 2;
   Broadcast (js "e") 0; Destroy 1; Broadcast (js "e") 0].

Example sample_run :
  (snd <$> c_run new_scopes sample_ops)
  = Some [(0, 9); (3, 7); (2, 8); (3, 7); (0, 9); (3, 7); (3, 5); (0, 9)]
  /\ (f_run new_forest sample_ops).2 = [(0, 9); (3, 7); (2, 8); (3, 7); (0, 9); (3, 7); (3, 5); (0, 9)].
Proof. by vm_compute. Qed.

(** The function [$on] returns, called twice, hides the other listeners from [$broadcast]. *)
Example off_twice :
  snd <$> c_run new_scopes
    [New false 0; On (js "e") 7 1; On (js "e") 8 1; Off (js "e") 7 1; Off (js "e") 7 1; Broadcast (js "e") 0]
  = Some [].
Proof. by vm_compute. Qed.
