(* ===== verification/ScopeFacts.v ===== *)
(** * The pointers and counts of the scopes represent the forest *)

From S2P Require Import Prelude JsString JsObject JsNumber UriCodec Json Scope ScopeTree.

(** ** Doubly linked lists of siblings *)

Definition hd_or (l : list nat) (next : option nat) : option nat := match l with x :: _ => Some x | [] => next end.
Definition last_or (l : list nat) (prev : option nat) : option nat := match last l with Some x => Some x | None => prev end.

(** [lk] gives the previous and the next sibling. *)
Fixpoint dseg (lk : nat -> option (option nat * option nat)) (prev : option nat) (l : list nat) (next : option nat) : Prop :=
  match l with
  | [] => True
  | c :: l => lk c = Some (prev, hd_or l next) /\ dseg lk (Some c) l next
  end.

Lemma dseg_frame lk lk' prev l next :
  (forall c, c ∈ l -> lk' c = lk c) -> dseg lk prev l next -> dseg lk' prev l next.
Proof.
  revert prev. induction l as [|c l IH]; intros prev H; [done|]. intros [Hc Hl]. split.
  - rewrite H; [done|left].
  - apply IH; [|done]. intros x Hx. apply H. by right.
Qed.

Lemma hd_or_app l1 l2 next : hd_or (l1 ++ l2) next = hd_or l1 (hd_or l2 next).
Proof. destruct l1; reflexivity. Qed.

Lemma last_or_cons c l prev : last_or l (Some c) = last_or (c :: l) prev.
Proof. unfold last_or. rewrite last_cons. by destruct (last l). Qed.

Lemma dseg_app lk prev l1 l2 next :
  dseg lk prev (l1 ++ l2) next <-> dseg lk prev l1 (hd_or l2 next) /\ dseg lk (last_or l1 prev) l2 next.
Proof.
  revert prev. induction l1 as [|c l1 IH]; intros prev; cbn [app dseg]; [tauto|].
  rewrite hd_or_app, IH, (last_or_cons c l1 prev). tauto.
Qed.

(** Only the ends see what is around the segment. *)
Lemma dseg_next lk lk' prev l next next' :
  NoDup l ->
  (forall c, c ∈ l -> last l <> Some c -> lk' c = lk c) ->
  (forall c p n, last l = Some c -> lk c = Some (p, n) -> lk' c = Some (p, next')) ->
  dseg lk prev l next -> dseg lk' prev l next'.
Proof.
  revert prev. induction l as [|c l IH]; intros prev Hd H1 H2; [done|]. intros [Hc Hl].
  apply NoDup_cons in Hd as [Hcl Hd]. destruct l as [|d l].
  - split; [|done]. by eapply H2.
  - split.
    + rewrite H1; [done|left|]. rewrite last_cons_cons. intros E%last_Some_elem_of. done.
    + apply IH; [done|..|done].
      * intros x Hx Hlx. apply H1; [by right|]. by rewrite last_cons_cons.
      * intros x p n Hx. apply H2. by rewrite last_cons_cons.
Qed.

Lemma dseg_prev lk lk' prev prev' l next :
  (forall c l', l = c :: l' -> forall p n, lk c = Some (p, n) -> lk' c = Some (prev', n)) ->
  (forall c, c ∈ tail l -> lk' c = lk c) ->
  dseg lk prev l next -> dseg lk' prev' l next.
Proof.
  destruct l as [|c l]; intros H1 H2; [done|]. intros [Hc Hl]. split; [by eapply H1|].
  eapply dseg_frame; [|exact Hl]. exact H2.
Qed.

(** ** The structure *)

Definition link_of (st : scopes) (i : nat) : option (option nat * option nat) :=
  (fun r => (s_prev r, s_next r)) <$> sc_store st !! i.

Definition live_of (r : scope) (name : jstr) : list nat := omap id (listeners_of name r).

Definition node_ok (f : forest) (i : nat) (cs : list nat) (r : scope) : Prop :=
  s_parent r = f_parent f !! i /\ s_head r = head cs /\ s_tail r = last cs
  /\ forall name, live_of r name = live f i name.

Record tree (st : scopes) (f : forest) : Prop := {
  t_next : sc_next st = f_next f;
  t_node : forall i cs, f_children f !! i = Some cs -> exists r, sc_store st !! i = Some r /\ node_ok f i cs r;
  t_links : forall i cs, f_children f !! i = Some cs -> dseg (link_of st) None cs None;
  t_nodup : forall i cs, f_children f !! i = Some cs -> NoDup cs;
  t_child : forall i cs c, f_children f !! i = Some cs -> c ∈ cs ->
    f_parent f !! c = Some i /\ is_Some (f_children f !! c) /\ i < c;
  t_parent : forall i p, f_parent f !! i = Some p -> exists cs, f_children f !! p = Some cs /\ i ∈ cs;
  t_root : is_Some (f_children f !! root) /\ f_parent f !! root = None;
  t_attached : forall i, is_Some (f_children f !! i) -> i <> root -> is_Some (f_parent f !! i);
  t_fresh : forall i, is_Some (sc_store st !! i) -> i < sc_next st;
  t_fresh_live : forall i, f_next f <= i -> f_live f !! i = None
}.

Lemma tree_older st f i p : tree st f -> f_parent f !! i = Some p -> p < i /\ is_Some (f_children f !! p).
Proof. intros T (cs & Hp & Hi)%(t_parent _ _ T). destruct (t_child _ _ T _ _ _ Hp Hi) as (_ & _ & H). eauto. Qed.

Lemma tree_lt st f i : tree st f -> is_Some (f_children f !! i) -> i < f_next f.
Proof.
  intros T [cs Hc]. destruct (t_node _ _ T _ _ Hc) as (r & Hr & _). rewrite <- (t_next _ _ T).
  apply (t_fresh _ _ T). by eexists.
Qed.

(** Two stores with the same scopes, their listeners up to nulls and their counts apart. *)
Definition ev_eq (st st' : scopes) : Prop :=
  sc_next st' = sc_next st
  /\ forall i, match sc_store st !! i, sc_store st' !! i with
               | Some r, Some r' => exists ls cs, r' = with_events ls cs r
                                      /\ forall name, live_of r' name = live_of r name
               | None, None => True
               | _, _ => False
               end.

#[global] Instance ev_eq_refl : Reflexive ev_eq.
Proof. intros st. split; [done|]. intros i. destruct (_ !! i) as [[]|]; [|done]. by eexists _, _. Qed.
#[global] Instance ev_eq_trans : Transitive ev_eq.
Proof.
  intros s1 s2 s3 [N1 H1] [N2 H2]. split; [congruence|]. intros i. specialize (H1 i). specialize (H2 i).
  destruct (sc_store s1 !! i) as [r|], (sc_store s2 !! i) as [r2|]; try done.
  - destruct (sc_store s3 !! i) as [r3|]; [|done]. destruct H1 as (l1 & c1 & -> & E1), H2 as (l2 & c2 & -> & E2).
    exists l2, c2. split; [done|]. intros n. by rewrite <- E1, <- E2.
Qed.

Lemma ev_eq_some st st' i r : ev_eq st st' -> sc_store st !! i = Some r ->
  exists ls cs, sc_store st' !! i = Some (with_events ls cs r) /\ forall name, live_of (with_events ls cs r) name = live_of r name.
Proof.
  intros [_ H] Hr. specialize (H i). rewrite Hr in H. destruct (sc_store st' !! i) as [r'|]; [|done].
  destruct H as (ls & cs & -> & E). by exists ls, cs.
Qed.

Lemma ev_eq_link st st' i : ev_eq st st' -> link_of st' i = link_of st i.
Proof.
  intros [_ H]. specialize (H i). unfold link_of.
  destruct (sc_store st !! i) as [r|], (sc_store st' !! i) as [r'|]; try done. by destruct H as (ls & cs & -> & _).
Qed.

Lemma ev_eq_dom st st' i : ev_eq st st' -> is_Some (sc_store st' !! i) -> is_Some (sc_store st !! i).
Proof.
  intros [_ H] [r' Hr]. specialize (H i). rewrite Hr in H. by destruct (sc_store st !! i).
Qed.

(** The tree sees the pointers and the live listeners only. *)
Definition tree_eq (st st' : scopes) : Prop :=
  sc_next st' = sc_next st
  /\ forall i, match sc_store st !! i, sc_store st' !! i with
               | Some r, Some r' => s_parent r' = s_parent r /\ s_next r' = s_next r /\ s_prev r' = s_prev r
                                    /\ s_head r' = s_head r /\ s_tail r' = s_tail r
                                    /\ forall name, live_of r' name = live_of r name
               | None, None => True
               | _, _ => False
               end.

Lemma tree_tree_eq st st' f : tree_eq st st' -> tree st f -> tree st' f.
Proof.
  intros [N E] T. constructor; try apply T.
  - rewrite N. apply T.
  - intros i cs Hc. destruct (t_node _ _ T _ _ Hc) as (r & Hr & H1 & H2 & H3 & H4).
    specialize (E i). rewrite Hr in E. destruct (sc_store st' !! i) as [r'|]; [|done].
    destruct E as (E1 & _ & _ & E4 & E5 & E6). exists r'. split; [done|].
    split_and!; [congruence..|]. intros n. by rewrite E6.
  - intros i cs Hc. eapply dseg_frame; [|by eapply T]. intros c _. specialize (E c). unfold link_of.
    destruct (sc_store st !! c), (sc_store st' !! c); try done. destruct E as (_ & E2 & E3 & _). simpl. by rewrite E2, E3.
  - intros i Hi. rewrite N. apply T. specialize (E i). destruct Hi as [r' Hr]. rewrite Hr in E.
    by destruct (sc_store st !! i).
Qed.

Lemma ev_eq_tree_eq st st' : ev_eq st st' -> tree_eq st st'.
Proof.
  intros [N E]. split; [done|]. intros i. specialize (E i).
  destruct (sc_store st !! i), (sc_store st' !! i); try done. by destruct E as (ls & cs & -> & E).
Qed.

Lemma tree_ev_eq st st' f : ev_eq st st' -> tree st f -> tree st' f.
Proof. intros E. by apply tree_tree_eq, ev_eq_tree_eq. Qed.

(** Changing the events of one scope. *)
Lemma ev_eq_change i g st :
  (forall r, sc_store st !! i = Some r -> exists ls cs, g r = with_events ls cs r /\ forall name, live_of (g r) name = live_of r name) ->
  ev_eq st (change i g st).
Proof.
  intros H. split; [done|]. intros j. unfold change. simpl. destruct (decide (i = j)) as [<-|Hne].
  - rewrite lookup_alter_eq. destruct (sc_store st !! i) as [r|] eqn:E; [|done]. simpl. by apply H.
  - rewrite lookup_alter_ne by done. destruct (_ !! j) as [[]|]; [|done]. by eexists _, _.
Qed.

(** ** The counts *)

Local Open Scope Z_scope.

Definition tot_of (r : scope) (name : jstr) : Z := match s_count r !! name with Some (Some z) => z | _ => 0 end.
Definition tot (st : scopes) (name : jstr) (i : nat) : Z :=
  match sc_store st !! i with Some r => tot_of r name | None => 0 end.

Definition zsum (l : list Z) : Z := foldr Z.add 0 l.

(** The listeners of a scope and of the scopes below it. *)
Definition expected (st : scopes) (f : forest) (i : nat) (name : jstr) : Z :=
  Z.of_nat (length (live f i name)) + zsum (tot st name <$> children f i).

Definition count_ok (r : scope) (name : jstr) (t : Z) : Prop :=
  0 <= t /\ s_count r !! name = if Z.eqb t 0 then None else Some (Some t).

(** The counts are right, but for [delta] too few at the scope [d], and any number at [x]. *)
Definition flow (st : scopes) (f : forest) (x : option nat) (name : jstr) (d : option nat) (delta : Z) : Prop :=
  forall i r, is_Some (f_children f !! i) -> x <> Some i -> sc_store st !! i = Some r ->
    count_ok r name (expected st f i name - if decide (d = Some i) then delta else 0).

Lemma count_ok_tot r name t : count_ok r name t -> tot_of r name = t.
Proof. intros [_ H]. unfold tot_of. rewrite H. destruct (Z.eqb_spec t 0); done. Qed.

Lemma zsum_cons (g : nat -> Z) x l : zsum (g <$> x :: l) = g x + zsum (g <$> l).
Proof. done. Qed.

Lemma zsum_change (g h : nat -> Z) c delta l :
  NoDup l -> c ∈ l -> h c = g c + delta -> (forall x, x <> c -> h x = g x) ->
  zsum (h <$> l) = zsum (g <$> l) + delta.
Proof.
  intros Hd Hc Hg Hh. induction l as [|x l IH]; [by apply not_elem_of_nil in Hc|].
  apply NoDup_cons in Hd as [Hx Hd]. rewrite !zsum_cons. apply elem_of_cons in Hc as [<-|Hc].
  - rewrite Hg. assert (E : h <$> l = g <$> l).
    { apply list_fmap_ext. intros j y Hy. apply Hh. intros ->. by apply list_elem_of_lookup_2 in Hy. }
    rewrite E. lia.
  - rewrite (Hh x) by (intros ->; done). specialize (IH Hd Hc). lia.
Qed.

Lemma zsum_same (g h : nat -> Z) l : (forall x, x ∈ l -> h x = g x) -> zsum (h <$> l) = zsum (g <$> l).
Proof.
  intros H. f_equal. apply list_fmap_ext. intros j y Hy. apply H. by eapply list_elem_of_lookup_2.
Qed.

Lemma zsum_nonneg (g : nat -> Z) l : (forall x, x ∈ l -> 0 <= g x) -> 0 <= zsum (g <$> l).
Proof.
  intros H. induction l as [|x l IH]; [done|]. rewrite zsum_cons. assert (0 <= g x) by (apply H; left).
  assert (0 <= zsum (g <$> l)) by (apply IH; intros y Hy; apply H; by right). lia.
Qed.

(** The update a scope of the chain undergoes: [delta] more of one name. *)
Definition bumps (name : jstr) (delta : Z) (g : scope -> scope) : Prop :=
  (forall r, exists cs, g r = with_events (s_listeners r) cs r /\ forall m, m <> name -> cs !! m = s_count r !! m)
  /\ forall r t, count_ok r name t -> 0 <= t + delta -> count_ok (g r) name (t + delta).

Lemma bumps_ev_eq name delta g i st : bumps name delta g -> ev_eq st (change i g st).
Proof.
  intros [H _]. apply ev_eq_change. intros r _. destruct (H r) as (cs & -> & _). by exists (s_listeners r), cs.
Qed.

Lemma bumps_increment name : bumps name 1 (increment name).
Proof.
  split.
  - intros r. eexists. split; [reflexivity|]. intros m Hm. by rewrite lookup_insert_ne.
  - intros r t [Ht Hc] _. split; [lia|]. unfold increment. cbn. rewrite Hc, lookup_insert_eq.
    destruct (Z.eqb_spec (t + 1) 0) as [|_]; [lia|]. by destruct (Z.eqb_spec t 0) as [-> |].
Qed.

Lemma bumps_decrement name n : 0 < n -> bumps name (- n) (decrement name (Some n)).
Proof.
  intros Hn. split.
  - intros r. eexists. split; [reflexivity|]. intros m Hm. repeat case_match; try done; try by rewrite lookup_insert_ne.
    by rewrite lookup_delete_ne.
  - intros r t [Ht Hc] H0. split; [lia|]. unfold decrement. cbn. rewrite Hc.
    destruct (Z.eqb_spec t 0) as [|_]; [lia|]. replace (t + - n) with (t - n) by lia.
    destruct (Z.eqb_spec (t - n) 0) as [E|E].
    + by rewrite E, lookup_delete_eq.
    + destruct (t - n) eqn:Ez; [done|by rewrite lookup_insert_eq..].
Qed.

Lemma tot_change_ne st name i j g : i <> j -> tot (change i g st) name j = tot st name j.
Proof. intros H. unfold tot, change. simpl. by rewrite lookup_alter_ne. Qed.

Lemma tot_change_eq st name i g r :
  sc_store st !! i = Some r -> tot (change i g st) name i = tot_of (g r) name.
Proof. intros H. unfold tot, change. simpl. by rewrite lookup_alter_eq, H. Qed.

(** One step up: the scope is right, and its parent now lacks [delta]. *)
Lemma flow_step st f x name delta g i r :
  tree st f -> is_Some (f_children f !! i) -> sc_store st !! i = Some r -> bumps name delta g ->
  flow st f x name (Some i) delta -> tot_of (g r) name = tot_of r name + delta ->
  (x <> Some i -> count_ok (g r) name (expected st f i name)) ->
  flow (change i g st) f x name (f_parent f !! i) delta.
Proof.
  intros T Hi Hr Hb Hf Htot Hok j rj Hj Hx Hrj.
  assert (Hch : forall k, i ∈ children f k -> f_parent f !! i = Some k /\ (k < i)%nat /\ NoDup (children f k)).
  { intros k Hk. unfold children in Hk. destruct (f_children f !! k) as [cs|] eqn:E; [|by apply not_elem_of_nil in Hk].
    destruct (t_child _ _ T _ _ _ E Hk) as (H1 & _ & H2). split_and!; [done..|]. unfold children. rewrite E. by eapply T. }
  assert (Hsame : forall k, i ∉ children f k -> expected (change i g st) f k name = expected st f k name).
  { intros k Hk. unfold expected. f_equal. apply zsum_same. intros c Hc. apply tot_change_ne. intros ->. done. }
  unfold change in Hrj. simpl in Hrj. destruct (decide (i = j)) as [<-|Hne].
  - rewrite lookup_alter_eq, Hr in Hrj. injection Hrj as <-. rewrite Hsame.
    + rewrite decide_False; [rewrite Z.sub_0_r; auto|]. intros E. destruct (tree_older _ _ _ _ T E). lia.
    + intros Hc. destruct (Hch _ Hc) as (_ & Hlt & _). lia.
  - rewrite lookup_alter_ne in Hrj by done. specialize (Hf j rj Hj Hx Hrj).
    rewrite decide_False in Hf by congruence. destruct (decide (i ∈ children f j)) as [Hc|Hc].
    + destruct (Hch _ Hc) as (Hp & _ & Hd). rewrite decide_True by done.
      unfold expected in *. rewrite (zsum_change (tot st name) _ i delta); [by rewrite Z.sub_0_r, Z.add_assoc, Z.add_simpl_r in *|done|done| |].
      * rewrite (tot_change_eq _ _ _ _ _ Hr), Htot. unfold tot. by rewrite Hr.
      * intros c Hcne. by apply tot_change_ne.
    + rewrite Hsame by done. rewrite decide_False; [done|]. intros E. apply Hc.
      destruct (t_parent _ _ T _ _ E) as (cs & Hcs & Hin). unfold children. by rewrite Hcs.
Qed.

(** The children's totals are not negative. *)
Lemma expected_nonneg st f name d delta x i :
  tree st f -> flow st f x name d delta ->
  (forall y, x = Some y -> 0 <= tot st name y) -> is_Some (f_children f !! i) -> 0 <= expected st f i name.
Proof.
  intros T Hf Hx [cs Hi]. unfold expected. assert (0 <= zsum (tot st name <$> children f i)); [|lia].
  apply zsum_nonneg. intros c Hc. destruct (decide (x = Some c)) as [E|E]; [auto|].
  assert (Hc' := Hc). unfold children in Hc'. rewrite Hi in Hc'.
  destruct (t_child _ _ T _ _ _ Hi Hc') as (_ & Hcc & _). assert (H := Hcc). destruct H as [cs' Hcs'].
  destruct (t_node _ _ T _ _ Hcs') as (r & Hr & _). unfold tot. rewrite Hr.
  destruct (Hf c r Hcc E Hr) as [H1 H2]. by rewrite (count_ok_tot r name _ (conj H1 H2)).
Qed.

(** The count of one name at every scope. *)
Definition cnt (st : scopes) (m : jstr) (i : nat) : option (option (option Z)) :=
  (fun r => s_count r !! m) <$> sc_store st !! i.

Lemma cnt_tot st st' m i : cnt st' m i = cnt st m i -> tot st' m i = tot st m i.
Proof.
  unfold cnt, tot, tot_of. destruct (sc_store st !! i), (sc_store st' !! i); simpl; try done. by intros [= ->].
Qed.

Lemma flow_frame st st' f x m d delta :
  (forall i, cnt st' m i = cnt st m i) -> flow st f x m d delta -> flow st' f x m d delta.
Proof.
  intros H Hf i r Hi Hx Hr. pose proof (H i) as Hc. unfold cnt in Hc. rewrite Hr in Hc.
  destruct (sc_store st !! i) as [r0|] eqn:E; [|done]. injection Hc as Hc.
  destruct (Hf i r0 Hi Hx E) as [H1 H2]. unfold count_ok, expected in *.
  rewrite (zsum_same (tot st m)); [by rewrite Hc|]. intros c _. by apply cnt_tot.
Qed.

Lemma flow_none st f x m delta delta' : flow st f x m None delta -> flow st f x m None delta'.
Proof. intros H i r Hi Hx Hr. specialize (H i r Hi Hx Hr). by rewrite decide_False in * by done. Qed.

(** The first scope of a chain that is not the excluded one. *)
Lemma chain_step st f x name delta g i :
  tree st f -> bumps name delta g -> is_Some (f_children f !! i) ->
  (forall y, x = Some y -> (i < y)%nat /\ 0 <= tot st name y) -> flow st f x name (Some i) delta ->
  exists r, sc_store st !! i = Some r /\ s_parent r = f_parent f !! i
    /\ ev_eq st (change i g st) /\ flow (change i g st) f x name (f_parent f !! i) delta
    /\ (forall y, (i < y)%nat -> sc_store (change i g st) !! y = sc_store st !! y)
    /\ (forall m j, m <> name -> cnt (change i g st) m j = cnt st m j).
Proof.
  intros T Hb Hi Hx Hf. assert (Hi' := Hi). destruct Hi' as [cs Hcs].
  destruct (t_node _ _ T _ _ Hcs) as (r & Hr & Hp & _). exists r.
  assert (Hxi : x <> Some i) by (intros E; destruct (Hx _ E); lia).
  pose proof (Hf i r Hi Hxi Hr) as Hc. rewrite decide_True in Hc by done.
  assert (He : 0 <= expected st f i name) by (eapply expected_nonneg; [done..|by intros y E; apply Hx|done]).
  assert (Hc' : count_ok (g r) name (expected st f i name)).
  { replace (expected st f i name) with (expected st f i name - delta + delta) by lia. apply Hb; [done|lia]. }
  split_and!; [done|done|by eapply bumps_ev_eq| | |].
  - apply (flow_step st f x name delta g i r); try done.
    rewrite (count_ok_tot _ _ _ Hc), (count_ok_tot _ _ _ Hc'). lia.
  - intros y Hy. unfold change. simpl. apply lookup_alter_ne. lia.
  - intros m j Hm. unfold cnt, change. simpl. destruct (decide (i = j)) as [<-|Hne]; [|by rewrite lookup_alter_ne].
    rewrite lookup_alter_eq, Hr. simpl. destruct (proj1 Hb r) as (cs' & -> & Hcs'). simpl. by rewrite Hcs'.
Qed.

Lemma ancestors_flow fuel st f x name delta g i :
  tree st f -> bumps name delta g -> is_Some (f_children f !! i) -> (i <= fuel)%nat ->
  (forall y, x = Some y -> (i < y)%nat /\ 0 <= tot st name y) -> flow st f x name (Some i) delta ->
  ev_eq st (ancestors_do fuel g i st) /\ flow (ancestors_do fuel g i st) f x name None 0
  /\ (forall y, (i < y)%nat -> sc_store (ancestors_do fuel g i st) !! y = sc_store st !! y)
  /\ (forall m j, m <> name -> cnt (ancestors_do fuel g i st) m j = cnt st m j).
Proof.
  revert st i. induction fuel as [|fuel IH]; intros st i T Hb Hi Hfuel Hx Hf;
    destruct (chain_step st f x name delta g i T Hb Hi Hx Hf) as (r & Hr & Hp & Hev & Hf' & Hold & Hcnt);
    cbn [ancestors_do]; rewrite Hr, Hp; destruct (f_parent f !! i) as [p|] eqn:Ep;
    try (split_and!; [done|by eapply flow_none|done|done]); destruct (tree_older _ _ _ _ T Ep) as [Hlt Hpc].
  - lia.
  - destruct (IH (change i g st) p) as (H1 & H2 & H3 & H4); try done.
    + by eapply tree_ev_eq.
    + lia.
    + intros y Hy. destruct (Hx y Hy) as [Hy1 Hy2]. split; [lia|]. unfold tot in *. by rewrite Hold.
    + split_and!; [by etrans|done| |].
      * intros y Hy. rewrite H3 by lia. by apply Hold.
      * intros m j Hm. rewrite H4 by done. by apply Hcnt.
Qed.
