(* ===== verification/ScopeVisit.v ===== *)
(** * The traversal of the scopes visits a subtree in order *)

From S2P Require Import Prelude JsString JsObject JsNumber UriCodec Json Scope ScopeTree ScopeFacts.

Section Tree.
Context (st : scopes) (f : forest) (T : tree st f).

Definition attached (i : nat) : Prop := is_Some (f_children f !! i).

Lemma child_of i c : c ∈ children f i -> f_parent f !! c = Some i /\ attached c /\ i < c /\ attached i.
Proof.
  unfold children. destruct (f_children f !! i) as [cs|] eqn:E; [|by intros ?%not_elem_of_nil].
  intros Hc. destruct (t_child _ _ T _ _ _ E Hc) as (H1 & H2 & H3). split_and!; [done..|by eexists].
Qed.

Lemma parent_child i p : f_parent f !! i = Some p -> i ∈ children f p.
Proof. intros (cs & Hp & Hi)%(t_parent _ _ T). unfold children. by rewrite Hp. Qed.

Lemma children_nodup i : NoDup (children f i).
Proof. unfold children. destruct (f_children f !! i) eqn:E; [by eapply T|apply NoDup_nil_2]. Qed.

(** Induction from the children. *)
Lemma scope_ind (P : nat -> Prop) :
  (forall i, attached i -> (forall c, c ∈ children f i -> P c) -> P i) -> forall i, attached i -> P i.
Proof.
  intros H i. remember (f_next f - i) as n eqn:Hn. revert i Hn. induction (lt_wf n) as [n _ IH].
  intros i -> Hi. apply H; [done|]. intros c Hc. destruct (child_of _ _ Hc) as (_ & Hac & Hlt & _).
  eapply IH; [|done|done]. pose proof (tree_lt _ _ _ T Hac). lia.
Qed.

Lemma preorder_fuel n m i : f_next f - i <= n -> f_next f - i <= m -> preorder n f i = preorder m f i.
Proof.
  revert m i. induction n as [|n IH]; intros m i Hn Hm.
  - assert (Hc : children f i = []).
    { unfold children. destruct (f_children f !! i) eqn:E; [|done]. pose proof (tree_lt _ _ i T (mk_is_Some _ _ E)). lia. }
    destruct m; cbn [preorder]; by rewrite ?Hc.
  - destruct m as [|m].
    + assert (Hc : children f i = []).
      { unfold children. destruct (f_children f !! i) eqn:E; [|done]. pose proof (tree_lt _ _ i T (mk_is_Some _ _ E)). lia. }
      cbn [preorder]. by rewrite Hc.
    + cbn [preorder]. f_equal. apply Forall_bind_ext, Forall_forall. intros c Hc. destruct (child_of _ _ Hc) as (_ & _ & Hlt & _).
      apply IH; lia.
Qed.

Lemma subtree_unfold i : attached i -> subtree f i = i :: (children f i ≫= subtree f).
Proof.
  intros Hi. pose proof (tree_lt _ _ _ T Hi). unfold subtree at 1.
  destruct (f_next f - i) as [|n] eqn:E; [lia|]. cbn [preorder]. f_equal. apply Forall_bind_ext, Forall_forall.
  intros c Hc. destruct (child_of _ _ Hc) as (_ & _ & Hlt & _). apply preorder_fuel; lia.
Qed.

(** Every scope of a subtree but its root has its parent in it. *)
Lemma subtree_in i x : attached i -> x ∈ subtree f i ->
  attached x /\ (x = i \/ i < x /\ exists p, f_parent f !! x = Some p /\ p ∈ subtree f i).
Proof.
  intros Hi. revert x. revert i Hi. apply (scope_ind (fun i => forall x, x ∈ subtree f i -> _)).
  intros i Hi IH x. rewrite subtree_unfold by done. intros [-> |Hx]%elem_of_cons; [by split; [|left]|].
  apply list_elem_of_bind in Hx as (c & Hx & Hc). destruct (IH c Hc x Hx) as [Hax Hcase]. split; [done|]. right.
  destruct (child_of _ _ Hc) as (Hp & _ & Hlt & _). destruct Hcase as [-> |(Hlt' & p & Hxp & Hps)].
  - split; [done|]. exists i. split; [done|left].
  - split; [lia|]. exists p. split; [done|]. right. apply list_elem_of_bind. by exists c.
Qed.

Lemma subtree_root i : attached i -> i ∈ subtree f i.
Proof. intros Hi. rewrite subtree_unfold by done. left. Qed.

(** A subtree has the children of its scopes. *)
Lemma subtree_closed i p c : attached i -> p ∈ subtree f i -> c ∈ children f p -> c ∈ subtree f i.
Proof.
  intros Hi. revert p c. revert i Hi. apply (scope_ind (fun i => forall p c, p ∈ subtree f i -> _ -> c ∈ subtree f i)).
  intros i Hi IH p c. rewrite subtree_unfold by done. intros [-> |Hp]%elem_of_cons Hc; right; apply list_elem_of_bind.
  - exists c. split; [|done]. apply subtree_root. by destruct (child_of _ _ Hc) as (_ & ? & _).
  - apply list_elem_of_bind in Hp as (d & Hp & Hd). exists d. split; [|done]. by eapply IH.
Qed.

(** The subtrees of two children are disjoint. *)
Lemma subtree_disjoint i c d x :
  c ∈ children f i -> d ∈ children f i -> x ∈ subtree f c -> x ∈ subtree f d -> c = d.
Proof.
  intros Hc Hd. destruct (child_of _ _ Hc) as (Hpc & Hac & Hlc & _), (child_of _ _ Hd) as (Hpd & Had & Hld & _).
  induction (lt_wf x) as [x _ IH]. intros Hx1 Hx2.
  destruct (subtree_in _ _ Hac Hx1) as [Hax [-> |(H1 & p & Hp & Hps)]].
  - destruct (subtree_in _ _ Had Hx2) as [_ [E|(H2 & q & Hq & Hqs)]]; [done|].
    rewrite Hpc in Hq. injection Hq as <-. destruct (subtree_in _ _ Had Hqs) as [_ [E|[E _]]]; lia.
  - destruct (subtree_in _ _ Had Hx2) as [_ [-> |(H2 & q & Hq & Hqs)]].
    + rewrite Hpd in Hp. injection Hp as <-. destruct (subtree_in _ _ Hac Hps) as [_ [E|[E _]]]; lia.
    + rewrite Hp in Hq. injection Hq as <-. destruct (tree_older _ _ _ _ T Hp) as [Hlt _]. by apply (IH p).
Qed.

Lemma subtree_nodup i : attached i -> NoDup (subtree f i).
Proof.
  revert i. apply (scope_ind (fun i => NoDup (subtree f i))). intros i Hi IH. rewrite subtree_unfold by done.
  apply NoDup_cons_2.
  - intros (c & Hx & Hc)%list_elem_of_bind. destruct (child_of _ _ Hc) as (_ & Hac & Hlt & _).
    destruct (subtree_in _ _ Hac Hx) as [_ [E|[E _]]]; lia.
  - apply NoDup_bind; [|done|apply children_nodup]. intros c d x Hc Hd Hx1 Hx2. by eapply subtree_disjoint.
Qed.

Lemma subtree_length i : attached i -> length (subtree f i) <= f_next f.
Proof.
  intros Hi. transitivity (length (seq 0 (f_next f))); [|by rewrite length_seq].
  apply submseteq_length, NoDup_submseteq; [by apply subtree_nodup|]. intros x Hx.
  apply elem_of_seq. destruct (subtree_in _ _ Hi Hx) as [Hax _]. pose proof (tree_lt _ _ _ T Hax). lia.
Qed.
End Tree.

(** ** What a traversal leaves unchanged *)

(** Only the nulls of the listener arrays differ. *)
Definition same_events (st st' : scopes) : Prop := ev_eq st st' /\ forall m i, cnt st' m i = cnt st m i.

#[global] Instance same_events_refl : Reflexive same_events.
Proof. by split. Qed.
#[global] Instance same_events_trans : Transitive same_events.
Proof. intros s1 s2 s3 [E1 C1] [E2 C2]. split; [by etrans|]. intros m i. by rewrite C2. Qed.

(** The methods of the attached scopes are those of the prototype, and none is destroyed. *)
Definition usable (st : scopes) (f : forest) : Prop :=
  forall i r, attached f i -> sc_store st !! i = Some r ->
    s_noops r = false /\ (s_proto r = None /\ s_destroyed r = Some false \/ s_proto r = f_parent f !! i /\ s_destroyed r = None).

Definition represents (st : scopes) (f : forest) : Prop :=
  tree st f /\ (forall name, flow st f None name None 0) /\ usable st f.

Lemma usable_ev_eq st st' f : ev_eq st st' -> usable st f -> usable st' f.
Proof.
  intros [_ E] U i r' Hi Hr'. specialize (E i). rewrite Hr' in E. destruct (sc_store st !! i) as [r|] eqn:Hr; [|done].
  destruct E as (ls & cs & -> & _). by apply (U i r).
Qed.

Lemma represents_same st st' f : same_events st st' -> represents st f -> represents st' f.
Proof.
  intros [E C] (T & F & U). split_and!; [by eapply tree_ev_eq| |by eapply usable_ev_eq].
  intros name. eapply flow_frame; [|apply F]. intros i. apply C.
Qed.

Lemma call_listeners_spec i ls : call_listeners i ls = (pair i <$> omap id ls, Some <$> omap id ls).
Proof. induction ls as [|[l|] ls IH]; [done|..]; cbn [call_listeners]; rewrite IH; done. Qed.

Lemma omap_some (l : list nat) : omap id (Some <$> l) = l.
Proof. induction l as [|x l IH]; [done|]. cbn. by f_equal. Qed.

Lemma fire_spec st f name i :
  tree st f -> attached f i -> exists st', fire name i st = (calls_of f name i, st') /\ same_events st st'.
Proof.
  intros T [cs Hi]. destruct (t_node _ _ T _ _ Hi) as (r & Hr & _ & _ & _ & Hl).
  unfold fire. rewrite Hr. specialize (Hl name). unfold live_of, listeners_of in Hl.
  destruct (s_listeners r !! name) as [ls|] eqn:E; cbn in Hl.
  - rewrite call_listeners_spec. eexists. split; [unfold calls_of; by rewrite <- Hl|]. split.
    + apply ev_eq_change. intros r' Hr'. rewrite Hr in Hr'. injection Hr' as <-. eexists _, _. split; [done|].
      intros m. unfold live_of, listeners_of. simpl. destruct (decide (m = name)) as [->|Hm].
      * rewrite lookup_insert_eq, E. simpl. apply omap_some.
      * by rewrite lookup_insert_ne by done.
    + intros m j. unfold cnt, change. simpl. destruct (decide (i = j)) as [<-|Hne].
      * rewrite lookup_alter_eq, Hr. done.
      * by rewrite lookup_alter_ne.
  - exists st. split; [|done]. unfold calls_of. rewrite <- Hl. done.
Qed.

Lemma climb_ev_eq fuel st st' target i : ev_eq st st' -> climb fuel st' target i = climb fuel st target i.
Proof.
  intros E. revert i. induction fuel as [|fuel IH]; intros i; cbn [climb]; destruct (decide (i = target)); try done;
    destruct E as [N E]; pose proof (E i) as H; destruct (sc_store st !! i) as [r|], (sc_store st' !! i) as [r'|]; try done;
    destruct H as (ls & cs & -> & _); simpl; [done|]. destruct (s_next r); [done|]. destruct (s_parent r); [apply IH|done].
Qed.

(** ** The way to the next scope *)

Section Climb.
Context (st : scopes) (f : forest) (T : tree st f).

Lemma climb_fuel n m target i : attached f i -> i <= n -> i <= m -> climb n st target i = climb m st target i.
Proof.
  revert m i. induction n as [|n IH]; intros m i Hi Hn Hm; cbn [climb].
  all: assert (Hi' := Hi); destruct Hi' as [cs Hcs]; destruct (t_node _ _ T _ _ Hcs) as (r & Hr & Hp & _).
  all: assert (Hpar : s_parent r = None \/ exists p, s_parent r = Some p /\ p < i /\ attached f p)
    by (rewrite Hp; destruct (f_parent f !! i) as [p|] eqn:E; [right; exists p; by destruct (tree_older _ _ _ _ T E)|by left]).
  all: destruct m as [|m]; cbn [climb]; rewrite Hr; destruct (decide (i = target)), (s_next r); try done;
    destruct Hpar as [-> |(p & -> & Hlt & Hpa)]; try done; try lia.
  apply IH; [done|lia..].
Qed.

Lemma climb_child target i c prev l :
  target <= i -> dseg (link_of st) prev (c :: l) None -> c ∈ children f i ->
  climb (sc_next st) st target c = match l with d :: _ => Some (Some d) | [] => climb (sc_next st) st target i end.
Proof.
  intros Ht [Hc _] Hin. destruct (child_of _ _ T _ _ Hin) as (Hp & [cs Hac] & Hlt & Hai).
  destruct (t_node _ _ T _ _ Hac) as (r & Hr & Hpr & _). unfold link_of in Hc. rewrite Hr in Hc. injection Hc as _ Hn.
  assert (Hcn : c < sc_next st) by (apply (t_fresh _ _ T); by eexists).
  rewrite (climb_fuel _ (S (pred (sc_next st)))) by (try eexists; eauto; lia).
  cbn [climb]. rewrite decide_False by lia. rewrite Hr, Hn, Hpr, Hp.
  destruct l as [|d l]; [|done]. cbn [hd_or]. apply climb_fuel; [done|lia..].
Qed.
End Climb.

Section Visit.
Context (st : scopes) (f : forest) (R : represents st f).
Local Lemma T : tree st f. Proof. apply R. Qed.

(** ** Counts *)

Lemma tot_calls name i : attached f i -> tot st name i = Z.of_nat (length (subtree f i ≫= calls_of f name)).
Proof.
  revert i. apply (scope_ind _ _ T (fun i => tot st name i = _)). intros i Hi IH. assert (Hi' := Hi). destruct Hi' as [cs Hcs].
  destruct (t_node _ _ T _ _ Hcs) as (r & Hr & _). destruct R as (_ & F & _).
  pose proof (F name i r Hi ltac:(done) Hr) as Hc. rewrite decide_False in Hc by done. apply count_ok_tot in Hc.
  unfold tot. rewrite Hr, Hc. rewrite (subtree_unfold _ _ T) by done. unfold expected. cbn [mbind list_bind].
  rewrite length_app. unfold calls_of at 1. rewrite length_fmap.
  assert (E : zsum (tot st name <$> children f i) = Z.of_nat (length ((children f i ≫= subtree f) ≫= calls_of f name)));
    [|lia].
  revert IH. generalize (children f i). intros l IH. induction l as [|c l IHl]; [done|]. rewrite zsum_cons.
  cbn [mbind list_bind]. rewrite bind_app, length_app, (IH c ltac:(left)), IHl; [lia|]. intros d Hd. apply IH. by right.
Qed.

Lemma has_count_tot name i r : attached f i -> sc_store st !! i = Some r ->
  has_count name r = negb (Z.eqb (tot st name i) 0).
Proof.
  intros Hi Hr. destruct R as (_ & F & _). pose proof (F name i r Hi ltac:(done) Hr) as [H0 H].
  unfold has_count, tot, tot_of. rewrite Hr, H.
  match goal with |- context [if ?b then None else _] => destruct b end; reflexivity.
Qed.

(** A scope without count has no listener below it. *)
Lemma no_count name i r : attached f i -> sc_store st !! i = Some r -> has_count name r = false ->
  (children f i ≫= subtree f) ≫= calls_of f name = [].
Proof.
  intros Hi Hr H. rewrite (has_count_tot name i r Hi Hr) in H. apply negb_false_iff, Z.eqb_eq in H.
  rewrite tot_calls in H by done. rewrite (subtree_unfold _ _ T) in H by done. cbn [mbind list_bind] in H.
  rewrite length_app in H. apply nil_length_inv. unfold mbind in *. lia.
Qed.

Lemma next_scope_same st1 target i name :
  same_events st st1 -> attached f i ->
  next_scope (has_count name) st1 target i
  = match children f i with
    | c :: _ => if negb (Z.eqb (tot st name i) 0) then Some (Some c) else climb (sc_next st) st target i
    | [] => climb (sc_next st) st target i
    end.
Proof.
  intros [E C] Hi. assert (Hi' := Hi). destruct Hi' as [cs Hcs]. destruct (t_node _ _ T _ _ Hcs) as (r & Hr & _ & Hh & _).
  rewrite <- (has_count_tot name i r Hi Hr). destruct (ev_eq_some _ _ _ _ E Hr) as (ls & k & Hr1 & _).
  unfold next_scope. rewrite Hr1, (climb_ev_eq _ _ _ _ _ E). destruct E as [-> _]. cbn [s_head with_events]. rewrite Hh.
  unfold children. rewrite Hcs. simpl. destruct cs as [|c cs]; [done|]. simpl.
  replace (has_count name (with_events ls k r)) with (has_count name r); [done|].
  specialize (C name i). unfold cnt in C. rewrite Hr, Hr1 in C. injection C as C. simpl in C. unfold has_count. by rewrite <- C.
Qed.

(** ** The loop *)

(** What the loop does once it has the next scope. *)
Definition after (name : jstr) (target : nat) (o : option (option nat)) (calls : log) (fuel : nat) (s : scopes)
    : option (log * scopes) :=
  match o with
  | None => None
  | Some None => Some (calls, s)
  | Some (Some n) => match broadcast_from fuel name target n s with
                     | Some (calls', s) => Some (calls ++ calls', s)
                     | None => None
                     end
  end.

Lemma after_app name target o c1 c2 fuel s :
  match after name target o c2 fuel s with Some (c, s') => Some (c1 ++ c, s') | None => None end
  = after name target o (c1 ++ c2) fuel s.
Proof.
  destruct o as [[n|]|]; cbn [after]; [|done..]. destruct (broadcast_from _ _ _ _ _) as [[c s']|]; [|done].
  by rewrite app_assoc.
Qed.

(** From [i] the loop visits its subtree, then what comes after it. *)
Definition visits (name : jstr) (target i : nat) : Prop :=
  forall s fuel, same_events st s -> length (subtree f i) <= fuel -> target <= i ->
  exists s' fuel', same_events st s' /\ fuel <= fuel' + length (subtree f i)
    /\ broadcast_from fuel name target i s
       = after name target (climb (sc_next st) st target i) (subtree f i ≫= calls_of f name) fuel' s'.

(** The children, one after the other. *)
Lemma visits_children name target i l c prev s fuel :
  (forall d, d ∈ children f i -> visits name target d) -> target <= i -> same_events st s ->
  (forall d, d ∈ c :: l -> d ∈ children f i) -> dseg (link_of st) prev (c :: l) None ->
  length ((c :: l) ≫= subtree f) <= fuel ->
  exists s' fuel', same_events st s' /\ fuel <= fuel' + length ((c :: l) ≫= subtree f)
    /\ broadcast_from fuel name target c s
       = after name target (climb (sc_next st) st target i) (((c :: l) ≫= subtree f) ≫= calls_of f name) fuel' s'.
Proof.
  intros HV Ht. revert c prev s fuel. induction l as [|d l IH]; intros c prev s fuel Hs Hin Hseg Hfuel.
  all: rewrite bind_cons in Hfuel |- *; rewrite length_app in Hfuel |- *.
  all: assert (Hc : c ∈ children f i) by (apply Hin; left); destruct (child_of _ _ T _ _ Hc) as (_ & _ & Hlt & _).
  all: destruct (HV c Hc s fuel Hs ltac:(lia) ltac:(lia)) as (s1 & f1 & Hs1 & Hf1 & ->).
  all: rewrite (climb_child _ _ T target i c prev _ Ht Hseg Hc).
  - exists s1, f1. split_and!; [done|simpl; lia|]. by rewrite app_nil_r.
  - destruct (IH d (Some c) s1 f1 Hs1) as (s2 & f2 & Hs2 & Hf2 & E).
    + intros x Hx. apply Hin. by right.
    + apply Hseg.
    + lia.
    + exists s2, f2. split; [done|]. split; [lia|].
      cbn [after]. rewrite E, after_app. by rewrite bind_app.
Qed.

Lemma visits_all name target i : attached f i -> visits name target i.
Proof.
  revert i. apply (scope_ind _ _ T (visits name target)). intros i Hi HV s fuel Hs Hfuel Ht.
  destruct fuel as [|fuel]; [rewrite (subtree_unfold _ _ T) in Hfuel by done; cbn in Hfuel; lia|].
  cbn [broadcast_from]. destruct (fire_spec s f name i (tree_ev_eq _ _ _ (proj1 Hs) T) Hi) as (s1 & -> & Hs1).
  assert (Hs01 : same_events st s1) by (by etrans).
  rewrite (next_scope_same _ _ _ _ Hs01 Hi).
  rewrite (subtree_unfold _ _ T) in Hfuel |- * by done. rewrite bind_cons. cbn [length] in *.
  pose proof Hi as [cs Hcs]. pose proof (t_links _ _ T _ _ Hcs) as Hseg.
  assert (Echild : children f i = cs) by (unfold children; by rewrite Hcs).
  destruct (children f i) as [|c l] eqn:El.
  - exists s1, fuel. split_and!; [done|simpl; lia|]. by rewrite app_nil_r.
  - destruct (negb (Z.eqb (tot st name i) 0)) eqn:Ec.
    + rewrite <- El in HV. subst cs.
      destruct (visits_children name target i l c None s1 fuel HV Ht Hs01) as (s2 & f2 & Hs2 & Hf2 & E);
        [by rewrite El|done|lia|].
      exists s2, f2. split_and!; [done|lia|]. cbn [after]. rewrite E. by rewrite after_app.
    + exists s1, fuel. split_and!; [done|lia|].
      destruct (t_node _ _ T _ _ Hcs) as (r & Hr & _). rewrite <- (has_count_tot name i r Hi Hr) in Ec.
      pose proof (no_count name i r Hi Hr Ec) as Hnil. rewrite El in Hnil.
      rewrite Hnil, app_nil_r. destruct (climb _ _ _ _) as [[n|]|]; done.
Qed.

Lemma broadcast_spec name i : attached f i ->
  exists s, broadcast name i st = Some (subtree f i ≫= calls_of f name, s) /\ same_events st s.
Proof.
  intros Hi. destruct (visits_all name i i Hi st (sc_next st)) as (s & fuel & Hs & _ & E); [done| |done|].
  { rewrite (t_next _ _ T). by apply (subtree_length _ _ T). }
  exists s. split; [|done]. unfold broadcast. rewrite E.
  assert (Hclimb : forall n, climb n st i i = Some None) by (intros n; destruct n; cbn [climb]; by rewrite decide_True).
  by rewrite Hclimb.
Qed.

(** ** The way up *)

Lemma emit_spec stops name n i s : attached f i -> i <= n -> same_events st s ->
  exists s', emit_from n stops name i s = (calls_until stops f name (path n f i), s') /\ same_events st s'.
Proof.
  revert i s. induction n as [|n IH]; intros i s Hi Hn Hs; cbn [emit_from path calls_until].
  all: destruct (fire_spec s f name i (tree_ev_eq _ _ _ (proj1 Hs) T) Hi) as (s1 & -> & Hs1).
  all: assert (Hs01 : same_events st s1) by (by etrans).
  all: destruct (existsb _ (calls_of f name i)); [exists s1; by rewrite app_nil_r|].
  all: pose proof Hi as [cs Hcs]; destruct (t_node _ _ T _ _ Hcs) as (r & Hr & Hp & _).
  all: destruct (ev_eq_some _ _ _ _ (proj1 Hs01) Hr) as (ls & k & Hr1 & _); rewrite Hr1; cbn; rewrite Hp.
  all: destruct (f_parent f !! i) as [p|] eqn:Ep; [destruct (tree_older _ _ _ _ T Ep) as [Hlt Hpa]|exists s1; by rewrite app_nil_r].
  - lia.
  - destruct (IH p s1 Hpa ltac:(lia) Hs01) as (s2 & -> & Hs2). by exists s2.
Qed.
End Visit.
