(* ===== verification/ScopeRun.v ===== *)
(** * The operations of the scopes implement those of the forest *)

From S2P Require Import Prelude JsString JsObject JsNumber UriCodec Json Scope ScopeTree ScopeFacts ScopeVisit.

Lemma change_eq i g st r : sc_store st !! i = Some r -> sc_store (change i g st) !! i = Some (g r).
Proof. intros H. unfold change. simpl. by rewrite lookup_alter_eq, H. Qed.
Lemma change_ne i j g st : i <> j -> sc_store (change i g st) !! j = sc_store st !! j.
Proof. intros H. unfold change. simpl. by rewrite lookup_alter_ne. Qed.

(** ** Attached scopes can be used *)

Section Usable.
Context (st : scopes) (f : forest) (R : represents st f).

Lemma usable_chains n i : attached f i -> chain_noops n st i = false /\ chain_destroyed n st i = false.
Proof.
  destruct R as (T & _ & U). revert i. induction n as [|n IH]; intros i Hi; cbn [chain_noops chain_destroyed].
  all: assert (Hi' := Hi); destruct Hi' as [cs Hcs]; destruct (t_node _ _ T _ _ Hcs) as (r & Hr & _); rewrite Hr.
  all: destruct (U i r Hi Hr) as [-> [[-> ->]|[-> ->]]]; [done|].
  all: destruct (f_parent f !! i) as [p|] eqn:Ep; try done.
  destruct (tree_older _ _ _ _ T Ep) as [_ Hp]. cbn [orb]. by apply IH.
Qed.

Lemma usable_noops i : attached f i -> noops st i = false.
Proof. intros Hi. by apply usable_chains. Qed.
Lemma usable_destroyed i : attached f i -> destroyed st i = false.
Proof. intros Hi. by apply usable_chains. Qed.
End Usable.

(** ** Listeners *)

(** [g] gives the scope [i] the live listeners [ls] under a name. *)
Definition relists (name : jstr) (ls : list nat) (r r' : scope) : Prop :=
  (exists l, r' = with_events l (s_count r) r) /\ live_of r' name = ls
  /\ forall m, m <> name -> live_of r' m = live_of r m.

Lemma live_set_live f i name ls m : live (set_live i name ls f) i m = if decide (m = name) then ls else live f i m.
Proof.
  unfold live, set_live. simpl. rewrite lookup_insert_eq. simpl. destruct (decide (m = name)) as [->|Hm].
  - by rewrite lookup_insert_eq.
  - by rewrite lookup_insert_ne by done.
Qed.

Lemma live_set_live_ne f i j name ls m : i <> j -> live (set_live i name ls f) j m = live f j m.
Proof. intros H. unfold live, set_live. simpl. by rewrite lookup_insert_ne. Qed.

Lemma relist_tree st f i r name ls g :
  tree st f -> attached f i -> sc_store st !! i = Some r -> relists name ls r (g r) ->
  tree (change i g st) (set_live i name ls f).
Proof.
  intros T Hi Hr ((l & Hg) & Hls & Hm).
  assert (Hlink : forall j, link_of (change i g st) j = link_of st j).
  { intros j. unfold link_of. destruct (decide (i = j)) as [<-|Hne]; [|by rewrite change_ne].
    rewrite (change_eq _ _ _ _ Hr), Hr, Hg. done. }
  constructor; try apply T.
  - intros j cs Hcs. destruct (t_node _ _ T _ _ Hcs) as (rj & Hrj & H1 & H2 & H3 & H4).
    destruct (decide (i = j)) as [<-|Hne].
    + rewrite Hr in Hrj. injection Hrj as <-. exists (g r). split; [by apply change_eq|]. rewrite Hg in *.
      split_and!; [done..|]. intros m. rewrite live_set_live. destruct (decide (m = name)) as [->|Hmn]; [done|].
      by rewrite Hm.
    + exists rj. rewrite change_ne by done. split; [done|]. split_and!; [done..|]. intros m. by rewrite live_set_live_ne.
  - intros j cs Hcs. eapply dseg_frame; [|by eapply T]. intros c _. apply Hlink.
  - intros j Hj. apply (t_fresh _ _ T). destruct (decide (i = j)) as [<-|Hne]; [by eexists|].
    by rewrite change_ne in Hj.
  - intros j Hj. simpl in *. rewrite lookup_insert_ne; [by eapply T|]. intros <-.
    pose proof (tree_lt _ _ _ T Hi). lia.
Qed.

Lemma relist_usable st f i r name ls g :
  usable st f -> sc_store st !! i = Some r -> relists name ls r (g r) ->
  usable (change i g st) (set_live i name ls f).
Proof.
  intros U Hr ((l & Hg) & _) j rj Hj Hrj. destruct (decide (i = j)) as [<-|Hne].
  - rewrite (change_eq _ _ _ _ Hr), Hg in Hrj. injection Hrj as <-. by apply (U i r).
  - rewrite change_ne in Hrj by done. by apply (U j rj).
Qed.

(** The counts then lack the difference, at the scope. *)
Lemma relist_flow st f i r name ls g m :
  (forall n, flow st f None n None 0) -> sc_store st !! i = Some r -> relists name ls r (g r) ->
  flow (change i g st) (set_live i name ls f) None m (if decide (m = name) then Some i else None)
    (Z.of_nat (length ls) - Z.of_nat (length (live f i name))).
Proof.
  intros F Hr ((l & Hg) & _) j rj Hj _ Hrj.
  assert (Hcnt : forall k, cnt (change i g st) m k = cnt st m k).
  { intros k. unfold cnt. destruct (decide (i = k)) as [<-|Hne]; [|by rewrite change_ne].
    by rewrite (change_eq _ _ _ _ Hr), Hr, Hg. }
  assert (Hexp : expected (change i g st) (set_live i name ls f) j m
                 = (expected st f j m + if decide (i = j /\ m = name)
                      then Z.of_nat (length ls) - Z.of_nat (length (live f i name)) else 0)%Z).
  { unfold expected. change (children (set_live i name ls f) j) with (children f j).
    rewrite (zsum_same (tot st m)) by (intros c _; by apply cnt_tot).
    destruct (decide (i = j)) as [<-|Hne].
    - rewrite live_set_live. destruct (decide (m = name)) as [->|Hm].
      + rewrite decide_True by done. lia.
      + rewrite decide_False by tauto. lia.
    - rewrite live_set_live_ne, decide_False by (done || tauto). lia. }
  assert (Hr0 : exists r0, sc_store st !! j = Some r0 /\ s_count rj = s_count r0).
  { destruct (decide (i = j)) as [<-|Hne].
    - exists r. split; [done|]. rewrite (change_eq _ _ _ _ Hr), Hg in Hrj. by injection Hrj as <-.
    - rewrite change_ne in Hrj by done. by exists rj. }
  destruct Hr0 as (r0 & Hr0 & Hcount). specialize (F m j r0 Hj ltac:(done) Hr0).
  rewrite decide_False, Z.sub_0_r in F by done. unfold count_ok in *. rewrite Hcount, Hexp.
  match goal with |- (0 <= ?a)%Z /\ _ => replace a with (expected st f j m); [done|] end.
  destruct (decide (m = name)) as [->|Hm].
  - destruct (decide (i = j)) as [<-|Hne]; [rewrite !decide_True by done; lia|].
    rewrite !decide_False by (tauto || congruence). lia.
  - rewrite !decide_False by (tauto || done). lia.
Qed.

Lemma relist_represents st f i r name ls g h delta :
  represents st f -> attached f i -> sc_store st !! i = Some r -> relists name ls r (g r) ->
  bumps name delta h -> delta = (Z.of_nat (length ls) - Z.of_nat (length (live f i name)))%Z ->
  represents (ancestors_do (sc_next st) h i (change i g st)) (set_live i name ls f).
Proof.
  intros (T & F & U) Hi Hr Hg Hh ->. set (f' := set_live i name ls f).
  pose proof (relist_tree _ _ _ _ _ _ _ T Hi Hr Hg) as T'. pose proof (relist_usable _ _ _ _ _ _ _ U Hr Hg) as U'.
  pose proof (relist_flow _ _ _ _ _ _ _ name F Hr Hg) as F'. rewrite decide_True in F' by done.
  assert (Hin : i <= sc_next st) by (rewrite (t_next _ _ T); pose proof (tree_lt _ _ _ T Hi); lia).
  destruct (ancestors_flow (sc_next st) (change i g st) f' None name _ h i T' Hh Hi Hin ltac:(done) F')
    as (E & F1 & _ & C).
  split_and!; [by eapply tree_ev_eq| |by eapply usable_ev_eq]. intros m.
  destruct (decide (m = name)) as [->|Hm]; [done|].
  eapply (flow_frame (change i g st)); [intros k; by apply C|].
  pose proof (relist_flow _ _ _ _ _ _ _ m F Hr Hg) as F2. rewrite decide_False in F2 by done.
  by eapply flow_none.
Qed.

Lemma omap_set_null l ls : omap id (set_null l ls) = remove_first l (omap id ls).
Proof.
  induction ls as [|[x|] ls IH]; [done|..]; cbn [set_null].
  - destruct (decide (Some x = Some l)) as [[= ->]|Hne].
    + cbn. by rewrite decide_True.
    + cbn. rewrite decide_False by congruence. f_equal. apply IH.
  - rewrite decide_False by done. apply IH.
Qed.

Lemma remove_first_length x l : x ∈ l -> S (length (remove_first x l)) = length l.
Proof.
  induction l as [|y l IH]; [by intros ?%not_elem_of_nil|]. cbn. destruct (decide (y = x)) as [->|Hne]; [done|].
  intros [->|H]%elem_of_cons; [done|]. cbn. by rewrite IH.
Qed.

Lemma on_represents st f name l i :
  represents st f -> attached f i -> represents (on name l i st) (set_live i name (live f i name ++ [l]) f).
Proof.
  intros R Hi. unfold on. rewrite (usable_noops _ _ R) by done. pose proof R as (T & _). assert (Hi' := Hi).
  destruct Hi' as [cs Hcs]. destruct (t_node _ _ T _ _ Hcs) as (r & Hr & _ & _ & _ & Hl).
  eapply (relist_represents st f i r name _ _ _ 1 R Hi Hr); [|apply bumps_increment|rewrite length_app; simpl; lia].
  split_and!; [by eexists| |].
  - unfold live_of, listeners_of. simpl. rewrite lookup_insert_eq. simpl. rewrite omap_app. f_equal. apply Hl.
  - intros m Hm. unfold live_of, listeners_of. simpl. by rewrite lookup_insert_ne.
Qed.

Lemma off_represents st f name l i :
  represents st f -> attached f i -> l ∈ live f i name ->
  represents (off name l i st) (set_live i name (remove_first l (live f i name)) f).
Proof.
  intros R Hi Hin. pose proof R as (T & _ & U). assert (Hi' := Hi).
  destruct Hi' as [cs Hcs]. destruct (t_node _ _ T _ _ Hcs) as (r & Hr & _ & _ & _ & Hl).
  unfold off, decrementListenerCount. destruct (U i r Hi Hr) as [Hno _].
  eapply (relist_represents st f i r name _ _ _ (-1) R Hi Hr);
    [|by apply bumps_decrement|pose proof (remove_first_length _ _ Hin); lia].
  rewrite Hno. specialize (Hl name). unfold live_of, listeners_of in Hl.
  destruct (s_listeners r !! name) as [ls|] eqn:E.
  - split_and!; [by eexists| |].
    + unfold live_of, listeners_of. simpl. rewrite lookup_insert_eq. simpl. rewrite omap_set_null. by rewrite <- Hl.
    + intros m Hm. unfold live_of, listeners_of. simpl. by rewrite lookup_insert_ne.
  - simpl in Hl. rewrite <- Hl in Hin. by apply not_elem_of_nil in Hin.
Qed.
