(* ===== verification/ScopeNew.v ===== *)
(** * Adding a scope to the tree *)

From S2P Require Import Prelude JsString JsObject JsNumber UriCodec Json Scope ScopeTree ScopeFacts ScopeVisit ScopeRun.

Section New.
Context (st : scopes) (f : forest) (R : represents st f) (isolate : bool) (i : nat) (Hi : attached f i).

Abbreviation c := (f_next f).
Abbreviation f' := (f_step f (New isolate i)).1.

(** The record of the new scope. *)
Definition new_child (r : scope) : scope :=
  Scope (Some i) None (s_tail r) None None (if isolate then None else Some i)
    (if isolate then Some false else None) false ∅ ∅.

(** What [$new] leaves: the new scope, its parent's ends and the link of its elder sibling. *)
Record created (r : scope) (cs : list nat) (st' : scopes) : Prop := {
  cr_next : sc_next st' = S c;
  cr_child : sc_store st' !! c = Some (new_child r);
  cr_old : forall j, j <> c -> match sc_store st !! j with
    | None => sc_store st' !! j = None
    | Some rj => exists r', sc_store st' !! j = Some r' /\ s_parent r' = s_parent rj /\ s_listeners r' = s_listeners rj
        /\ s_count r' = s_count rj /\ s_proto r' = s_proto rj /\ s_destroyed r' = s_destroyed rj /\ s_noops r' = s_noops rj
        /\ s_prev r' = s_prev rj
        /\ s_next r' = (if decide (last cs = Some j) then Some c else s_next rj)
        /\ s_head r' = (if decide (j = i) then head (cs ++ [c]) else s_head rj)
        /\ s_tail r' = (if decide (j = i) then Some c else s_tail rj)
    end
}.

Lemma new_created : exists r cs st', sc_store st !! i = Some r /\ f_children f !! i = Some cs
  /\ scope_new isolate i st = Ok (c, st') /\ created r cs st'.
Proof.
  destruct R as (T & _ & _). assert (Hi' := Hi). destruct Hi' as [cs Hcs].
  destruct (t_node _ _ T _ _ Hcs) as (r & Hr & Hp & Hh & Ht & _).
  assert (Hic : i < c) by (by apply (tree_lt st)).
  exists r, cs. unfold scope_new. rewrite Hr, Hh, (t_next _ _ T).
  set (s1 := Scopes (<[c := _]> (sc_store st)) (S c)).
  assert (H1 : sc_store s1 !! c = Some (new_child r)) by apply lookup_insert_eq.
  assert (H1n : forall j, j <> c -> sc_store s1 !! j = sc_store st !! j) by (intros j Hj; by apply lookup_insert_ne).
  destruct (last cs) as [t|] eqn:El.
  - assert (Htin : t ∈ cs) by (by apply last_Some_elem_of).
    destruct (t_child _ _ T _ _ _ Hcs Htin) as (_ & Hta & Hit). pose proof (tree_lt _ _ _ T Hta).
    assert (Hhd : exists h, head cs = Some h /\ head (cs ++ [c]) = Some h) by (destruct cs as [|h cs]; [done|by exists h]).
    destruct Hhd as (h & Hh1 & Hh2). rewrite Hh1, Ht.
    eexists. split_and!; [done|done|reflexivity|]. split; [done| |].
    + by rewrite !change_ne by lia.
    + intros j Hj. destruct (sc_store st !! j) as [rj|] eqn:Ej.
      * destruct (decide (j = i)) as [-> |Hji].
        { rewrite Hr in Ej. injection Ej as <-. eexists. split.
          { apply change_eq. rewrite change_ne by lia. rewrite H1n by done. exact Hr. }
          repeat case_decide; simplify_eq; try lia. simpl. by rewrite Hh, Hh1, Hh2. }
        rewrite change_ne by done. destruct (decide (t = j)) as [<-|Htj].
        { eexists. split; [apply change_eq; by rewrite H1n|]. by repeat case_decide; simplify_eq. }
        exists rj. rewrite change_ne, H1n by done. by repeat case_decide; simplify_eq.
      * rewrite !change_ne; [by rewrite H1n|intros <-|intros <-; congruence].
        destruct (t_node _ _ T t) with (cs := default [] (f_children f !! t)) as (rt & Hrt & _); [by destruct Hta as [? ->]|].
        congruence.
  - apply last_None in El as ->. simpl. eexists. split_and!; [done|done|reflexivity|]. split; [done| |].
    + by rewrite !change_ne by lia.
    + intros j Hj. destruct (decide (j = i)) as [-> |Hji].
      * rewrite Hr. eexists. split; [do 2 apply change_eq; by rewrite H1n|done].
      * rewrite !change_ne by done. rewrite H1n by done. destruct (sc_store st !! j) as [rj|]; [by exists rj|done].
Qed.

Lemma new_children j : f_children f' !! j = if decide (j = c) then Some [] else
  if decide (j = i) then Some (children f i ++ [c]) else f_children f !! j.
Proof.
  simpl. destruct (decide (j = c)) as [->|Hj]; [by rewrite lookup_insert_eq|]. rewrite lookup_insert_ne by done.
  destruct (decide (j = i)) as [->|Hji]; [by rewrite lookup_insert_eq|by rewrite lookup_insert_ne].
Qed.

Lemma new_parent j : f_parent f' !! j = if decide (j = c) then Some i else f_parent f !! j.
Proof.
  simpl. destruct (decide (j = c)) as [->|Hj]; [by rewrite lookup_insert_eq|by rewrite lookup_insert_ne].
Qed.

(** The attached scopes before are attached after, with the same children but for [i]. *)
Lemma new_children_inv j cs' : f_children f' !! j = Some cs' -> j <> c ->
  exists cs, f_children f !! j = Some cs /\ cs' = if decide (j = i) then cs ++ [c] else cs.
Proof.
  rewrite new_children. intros H Hj. rewrite decide_False in H by done. destruct (decide (j = i)) as [->|].
  - injection H as <-. unfold children. destruct Hi as [cs Hcs]. exists cs. by rewrite Hcs.
  - by exists cs'.
Qed.

Context (r : scope) (cs : list nat) (st' : scopes).
Context (Hr : sc_store st !! i = Some r) (Hcs : f_children f !! i = Some cs) (Hcr : created r cs st').
Let T : tree st f := proj1 R.

Lemma new_attached_lt j : attached f j -> j < c.
Proof. apply (tree_lt st f _ T). Qed.

(** Nothing is known of the number of the new scope before. *)
Lemma new_unknown : f_children f !! c = None /\ f_parent f !! c = None /\ forall j cs', f_children f !! j = Some cs' -> c ∉ cs'.
Proof.
  assert (H : f_children f !! c = None).
  { destruct (f_children f !! c) eqn:E; [|done]. pose proof (new_attached_lt c (mk_is_Some _ _ E)). lia. }
  assert (Hno : forall j cs', f_children f !! j = Some cs' -> c ∉ cs').
  { intros j cs' Hj Hin. destruct (t_child _ _ T _ _ _ Hj Hin) as (_ & [? Hc] & _). congruence. }
  split_and!; [done| |done]. destruct (f_parent f !! c) as [p|] eqn:E; [|done].
  destruct (t_parent _ _ T _ _ E) as (cs' & Hp & Hin). by apply Hno in Hp.
Qed.

Lemma new_link j : j <> c -> last cs <> Some j -> link_of st' j = link_of st j.
Proof.
  intros Hj Hl. unfold link_of. pose proof (cr_old _ _ _ Hcr j Hj) as H.
  destruct (sc_store st !! j) as [rj|]; [|by rewrite H].
  destruct H as (r' & -> & _ & _ & _ & _ & _ & _ & Hp & Hn & _). simpl. by rewrite Hp, Hn, decide_False.
Qed.

Lemma new_links j cs' : f_children f' !! j = Some cs' -> dseg (link_of st') None cs' None.
Proof.
  intros Hj. destruct (decide (j = c)) as [->|Hjc].
  { rewrite new_children, decide_True in Hj by done. by injection Hj as <-. }
  destruct (new_children_inv j cs' Hj Hjc) as (cs0 & Hcs0 & ->). pose proof (t_links _ _ T _ _ Hcs0) as Hseg.
  destruct new_unknown as (_ & _ & Hno). destruct (decide (j = i)) as [->|Hji].
  - rewrite Hcs in Hcs0. injection Hcs0 as <-. apply dseg_app. split; [|split; [|done]].
    + apply (dseg_next (link_of st) _ _ _ None); [by eapply T| | |done].
      * intros x Hx Hlx. apply new_link; [|done]. intros ->. by apply (Hno i cs).
      * intros x p n Hlx Hx. unfold link_of in *. destruct (sc_store st !! x) as [rx|] eqn:Ex; [|done].
        injection Hx as <- <-. assert (Hxc : x <> c) by (intros ->; apply (Hno i cs Hcs); by apply last_Some_elem_of).
        pose proof (cr_old _ _ _ Hcr x Hxc) as H. rewrite Ex in H.
        destruct H as (r' & -> & _ & _ & _ & _ & _ & _ & Hp & Hn & _). simpl. by rewrite Hp, Hn, decide_True.
    + unfold link_of. rewrite (cr_child _ _ _ Hcr). simpl. unfold last_or.
      destruct (t_node _ _ T _ _ Hcs) as (r0 & Hr0 & _ & _ & Ht & _). rewrite Hr in Hr0. injection Hr0 as <-.
      rewrite Ht. by destruct (last cs).
  - eapply dseg_frame; [|exact Hseg]. intros x Hx. apply new_link.
    + intros ->. by apply (Hno j cs0).
    + intros Hl%last_Some_elem_of. destruct (t_child _ _ T _ _ _ Hcs0 Hx) as (H1 & _).
      destruct (t_child _ _ T _ _ _ Hcs Hl) as (H2 & _). congruence.
Qed.

Lemma new_live j name : live f' j name = live f j name.
Proof. done. Qed.

Lemma new_tree : tree st' f'.
Proof.
  destruct new_unknown as (Hc1 & Hc2 & Hno). constructor.
  - by rewrite (cr_next _ _ _ Hcr).
  - intros j cs' Hj. destruct (decide (j = c)) as [->|Hjc].
    + exists (new_child r). split; [apply Hcr|]. rewrite new_children, decide_True in Hj by done. injection Hj as <-.
      split_and!; [by rewrite new_parent, decide_True|done..|]. intros name. unfold live_of, listeners_of. simpl.
      rewrite lookup_empty. unfold live. simpl. by rewrite (t_fresh_live _ _ T).
    + destruct (new_children_inv j cs' Hj Hjc) as (cs0 & Hcs0 & ->).
      destruct (t_node _ _ T _ _ Hcs0) as (rj & Hrj & H1 & H2 & H3 & H4).
      pose proof (cr_old _ _ _ Hcr j Hjc) as H. rewrite Hrj in H.
      destruct H as (r' & Hr' & E1 & E2 & _ & _ & _ & _ & _ & _ & E3 & E4). exists r'. split; [done|].
      split_and!; [by rewrite E1, new_parent, decide_False| | |by intros name; unfold live_of, listeners_of; rewrite E2; apply H4].
      * rewrite E3. destruct (decide (j = i)) as [->|]; [congruence|done].
      * rewrite E4. destruct (decide (j = i)) as [->|]; [by rewrite last_snoc|done].
  - apply new_links.
  - intros j cs' Hj. destruct (decide (j = c)) as [->|Hjc].
    { rewrite new_children, decide_True in Hj by done. injection Hj as <-. apply NoDup_nil_2. }
    destruct (new_children_inv j cs' Hj Hjc) as (cs0 & Hcs0 & ->). pose proof (t_nodup _ _ T _ _ Hcs0).
    destruct (decide (j = i)); [|done]. apply NoDup_app. split_and!; [done| |apply NoDup_singleton].
    intros x Hx. rewrite list_elem_of_singleton. intros ->. by apply (Hno j cs0).
  - intros j cs' d Hj Hd. rewrite new_parent. destruct (decide (j = c)) as [->|Hjc].
    { rewrite new_children, decide_True in Hj by done. injection Hj as <-. by apply not_elem_of_nil in Hd. }
    destruct (new_children_inv j cs' Hj Hjc) as (cs0 & Hcs0 & ->).
    assert (Hcase : d ∈ cs0 \/ j = i /\ d = c).
    { destruct (decide (j = i)) as [->|]; [|by left]. apply elem_of_app in Hd as [|Hd]; [by left|].
      right. by apply list_elem_of_singleton in Hd. }
    unfold attached. destruct Hcase as [Hd0|[-> ->]].
    + assert (Hdc : d <> c) by (intros ->; by apply (Hno j cs0)).
      destruct (t_child _ _ T _ _ _ Hcs0 Hd0) as (H1 & H2 & H3). rewrite decide_False by done.
      split_and!; [done| |done]. rewrite new_children, decide_False by done.
      destruct (decide (d = i)); [by eexists|done].
    + rewrite decide_True by done. split_and!; [done|rewrite new_children, decide_True by done; by eexists|by apply new_attached_lt].
  - intros j p Hj. rewrite new_parent in Hj. destruct (decide (j = c)) as [->|Hjc].
    + injection Hj as <-. exists (children f i ++ [c]). split; [|apply elem_of_app; right; left].
      pose proof (new_attached_lt i Hi). rewrite new_children, decide_False, decide_True by (done || lia). done.
    + destruct (t_parent _ _ T _ _ Hj) as (cs0 & Hp & Hin). rewrite new_children.
      rewrite decide_False by (intros ->; congruence). destruct (decide (p = i)) as [->|]; [|by exists cs0].
      exists (children f i ++ [c]). split; [done|]. apply elem_of_app. left. unfold children. by rewrite Hp.
  - destruct (t_root _ _ T) as [Hroot Hp]. pose proof (new_attached_lt root Hroot).
    rewrite new_children, new_parent. destruct (decide (root = c)) as [E|_]; [lia|]. split; [|exact Hp].
    destruct (decide (root = i)); [by eexists|exact Hroot].
  - intros j Hj Hroot. rewrite new_parent. destruct (decide (j = c)) as [|Hjc]; [by eexists|].
    destruct Hj as [cs' Hj]. destruct (new_children_inv j cs' Hj Hjc) as (cs0 & Hcs0 & _).
    apply (t_attached _ _ T); [by eexists|done].
  - intros j Hj. rewrite (cr_next _ _ _ Hcr). destruct (decide (j = c)) as [->|Hjc]; [lia|].
    pose proof (cr_old _ _ _ Hcr j Hjc) as H. destruct (sc_store st !! j) as [rj|] eqn:E.
    + pose proof (t_fresh _ _ T j (mk_is_Some _ _ E)). rewrite (t_next _ _ T) in *. lia.
    + rewrite H in Hj. by destruct Hj.
  - intros j Hj. simpl in *. apply (t_fresh_live _ _ T). lia.
Qed.

Lemma new_cnt j m : j <> c -> cnt st' m j = cnt st m j.
Proof.
  intros Hj. unfold cnt. pose proof (cr_old _ _ _ Hcr j Hj) as H. destruct (sc_store st !! j) as [rj|]; [|by rewrite H].
  destruct H as (r' & -> & _ & _ & E & _). simpl. by rewrite E.
Qed.

Lemma new_flow m : flow st' f' None m None 0.
Proof.
  pose proof R as (_ & F & _). destruct new_unknown as (Hc1 & Hc2 & Hno). intros j rj Hj _ Hrj. rewrite decide_False, Z.sub_0_r by done.
  assert (Htc : tot st' m c = 0%Z) by (unfold tot; by rewrite (cr_child _ _ _ Hcr)).
  assert (Hsum : forall l, c ∉ l -> zsum (tot st' m <$> l) = zsum (tot st m <$> l)).
  { intros l Hl. apply zsum_same. intros x Hx. apply cnt_tot, new_cnt. intros ->. done. }
  destruct (decide (j = c)) as [->|Hjc].
  - rewrite (cr_child _ _ _ Hcr) in Hrj. injection Hrj as <-. unfold expected, children.
    rewrite new_children, decide_True, new_live by done. unfold live. by rewrite (t_fresh_live _ _ T).
  - destruct Hj as [cs' Hj]. destruct (new_children_inv j cs' Hj Hjc) as (cs0 & Hcs0 & ->).
    pose proof (new_cnt j m Hjc) as Hcnt. unfold cnt in Hcnt. rewrite Hrj in Hcnt.
    destruct (sc_store st !! j) as [r0|] eqn:E0; [|done]. injection Hcnt as Hcnt.
    pose proof (F m j r0 (mk_is_Some _ _ Hcs0) ltac:(done) E0) as Hc. rewrite decide_False, Z.sub_0_r in Hc by done.
    unfold count_ok in *. rewrite Hcnt. replace (expected st' f' j m) with (expected st f j m); [done|].
    unfold expected. rewrite new_live. f_equal. unfold children. rewrite Hj, Hcs0. simpl.
    pose proof (Hno _ _ Hcs0). destruct (decide (j = i)); [|by rewrite Hsum].
    rewrite fmap_app. unfold zsum at 2. rewrite foldr_app. simpl. rewrite Htc. by rewrite <- (Hsum cs0).
Qed.

Lemma new_usable : usable st' f'.
Proof.
  pose proof R as (_ & _ & U). intros j rj Hj Hrj. rewrite new_parent. destruct (decide (j = c)) as [->|Hjc].
  - rewrite (cr_child _ _ _ Hcr) in Hrj. injection Hrj as <-. split; [done|]. simpl. destruct isolate; [by left|by right].
  - destruct Hj as [cs' Hj]. destruct (new_children_inv j cs' Hj Hjc) as (cs0 & Hcs0 & _).
    pose proof (cr_old _ _ _ Hcr j Hjc) as H. destruct (sc_store st !! j) as [r0|] eqn:E0; [|congruence].
    destruct H as (r' & Hr' & _ & _ & _ & E1 & E2 & E3 & _). rewrite Hr' in Hrj. injection Hrj as <-.
    rewrite E1, E2, E3. apply (U j r0); [by eexists|done].
Qed.
End New.

Lemma new_represents st f b i :
  represents st f -> attached f i ->
  exists st', scope_new b i st = Ok (f_next f, st') /\ represents st' (f_step f (New b i)).1.
Proof.
  intros R Hi. destruct (new_created st f R b i Hi) as (r & cs & st' & Hr & Hcs & E & Hcr). exists st'. split; [done|].
  split_and!; [by eapply new_tree|intros m; by eapply new_flow|by eapply new_usable].
Qed.
