(* ===== verification/ScopeDestroy.v ===== *)
(** * Taking a scope and its subtree out of the tree *)

From S2P Require Import Prelude JsString JsObject JsNumber UriCodec Json Scope ScopeTree ScopeFacts ScopeVisit ScopeRun ScopeNew.

(** ** The counts *)

Section Release.
Context (f : forest) (i p : nat) (Hi : attached f i) (Hip : f_parent f !! i = Some p).

Lemma flow_excluded s n delta : flow s f (Some i) n None 0 -> flow s f (Some i) n (Some i) delta.
Proof.
  intros F j r Hj Hx Hr. specialize (F j r Hj Hx Hr). rewrite decide_False in F by done.
  by rewrite decide_False by congruence.
Qed.

(** Taking one count from the scope and its ancestors. *)
Lemma release_one s n z :
  tree s f -> (forall m, flow s f (Some i) m None 0) -> cnt s n i = Some (Some (Some z)) -> (0 < z)%Z ->
  let s' := decrementListenerCount i (Some z) n s in
  ev_eq s s' /\ (forall m, flow s' f (Some i) m None 0) /\ cnt s' n i = Some None
  /\ forall m, m <> n -> cnt s' m i = cnt s m i.
Proof.
  intros T F Hc Hz s'. pose proof (bumps_decrement n z Hz) as Hb. destruct (tree_older _ _ _ _ T Hip) as [Hlt Hpa].
  assert (Hi' := Hi). destruct Hi' as [cs Hcs]. destruct (t_node _ _ T _ _ Hcs) as (r & Hr & Hp & _).
  unfold cnt in Hc. rewrite Hr in Hc. simpl in Hc. injection Hc as Hc.
  set (g := decrement n (Some z)). set (s1 := change i g s).
  assert (Hg : s_count (g r) = delete n (s_count r)).
  { unfold g, decrement. simpl. rewrite Hc. by rewrite Z.sub_diag. }
  assert (Hilt : i < sc_next s) by (apply (t_fresh _ _ T); by eexists).
  assert (Es' : s' = ancestors_do (pred (sc_next s)) g p s1).
  { unfold s', decrementListenerCount. destruct (sc_next s) as [|k] eqn:En; [lia|]. cbn [ancestors_do pred].
    by rewrite Hr, Hp, Hip. }
  assert (Hs1i : cnt s1 n i = Some None /\ forall m, m <> n -> cnt s1 m i = cnt s m i).
  { unfold cnt, s1. rewrite (change_eq _ _ _ _ Hr), Hr. cbn [fmap option_fmap option_map]. rewrite Hg. split; [by rewrite lookup_delete_eq|].
    intros m Hm. by rewrite lookup_delete_ne. }
  assert (Htot : tot s1 n i = 0%Z).
  { destruct Hs1i as [H _]. unfold cnt in H. unfold tot, tot_of. destruct (sc_store s1 !! i); [|done].
    injection H as H. by rewrite H. }
  pose proof (flow_step s f (Some i) n (- z) g i r T Hi Hr Hb (flow_excluded _ _ _ (F n))) as F1. rewrite Hip in F1.
  assert (Etot : tot_of (g r) n = (tot_of r n + - z)%Z).
  { unfold tot_of. rewrite Hg, lookup_delete_eq, Hc. lia. }
  specialize (F1 Etot ltac:(done)). pose proof (bumps_ev_eq _ _ _ i s Hb) as E1.
  destruct (ancestors_flow (pred (sc_next s)) s1 f (Some i) n (- z) g p) as (E2 & F2 & Hold & Hcnt); try done.
  - by eapply tree_ev_eq.
  - lia.
  - intros y [= <-]. by rewrite Htot.
  - rewrite Es'. unfold cnt in *. split_and!.
    + by etrans.
    + intros m. destruct (decide (m = n)) as [->|Hm]; [done|]. eapply (flow_frame s); [|apply F]. intros k.
      specialize (Hcnt m k Hm). unfold cnt in Hcnt |- *. rewrite Hcnt. unfold s1.
      destruct (decide (i = k)) as [<-|Hne]; [|by rewrite change_ne].
      rewrite (change_eq _ _ _ _ Hr), Hr. cbn [fmap option_fmap option_map]. by rewrite Hg, lookup_delete_ne.
    + rewrite Hold by done. apply Hs1i.
    + intros m Hm. rewrite Hold by done. by apply Hs1i.
Qed.

(** All of them. *)
Lemma release_all l s :
  tree s f -> (forall m, flow s f (Some i) m None 0) ->
  (forall n v, (n, v) ∈ l -> cnt s n i = Some (Some v) /\ exists z, v = Some z /\ (0 < z)%Z) -> NoDup l.*1 ->
  (forall n, n ∉ l.*1 -> tot s n i = 0%Z) ->
  let s' := release_counts i l s in
  ev_eq s s' /\ (forall m, flow s' f (Some i) m None 0) /\ forall m, tot s' m i = 0%Z.
Proof.
  revert s. induction l as [|[n v] l IH]; intros s T F Hl Hd H0.
  - split_and!; [done|done|]. intros m. apply H0. by intros ?%not_elem_of_nil.
  - cbn [release_counts fold_left] in *. destruct (Hl n v ltac:(left)) as (Hc & z & -> & Hz).
    destruct (release_one s n z T F Hc Hz) as (E1 & F1 & C1 & C2). cbn [fst snd].
    set (s1 := decrementListenerCount i (Some z) n s) in *. cbn [fmap list_fmap] in Hd, H0. apply NoDup_cons in Hd as [Hn Hd].
    destruct (IH s1) as (E2 & F2 & H2); [by eapply tree_ev_eq|done| |done| |].
    + intros m w Hm. assert (Hne : m <> n).
      { intros ->. apply Hn. apply list_elem_of_fmap. by exists (n, w). }
      rewrite C2 by done. apply Hl. by right.
    + intros m Hm. destruct (decide (m = n)) as [->|Hne].
      * unfold cnt in C1. unfold tot, tot_of. destruct (sc_store s1 !! i) as [r|]; [|done]. simpl in C1. injection C1 as ->. done.
      * rewrite (cnt_tot s s1 m i) by (by apply C2). apply H0. intros [->|Hin]%elem_of_cons; done.
    + split_and!; [by etrans|done|done].
Qed.
End Release.

(** ** The pointers *)

(** What [unlink] and [sever] do to the other scopes. *)
Record unlinked (i p : nat) (r : scope) (st st' : scopes) : Prop := {
  ul_next : sc_next st' = sc_next st;
  ul_old : forall j, j <> i -> match sc_store st !! j with
    | None => sc_store st' !! j = None
    | Some rj => exists r', sc_store st' !! j = Some r' /\ s_parent r' = s_parent rj /\ s_listeners r' = s_listeners rj
        /\ s_count r' = s_count rj /\ s_proto r' = s_proto rj /\ s_destroyed r' = s_destroyed rj /\ s_noops r' = s_noops rj
        /\ s_next r' = (if decide (s_prev r = Some j) then s_next r else s_next rj)
        /\ s_prev r' = (if decide (s_next r = Some j) then s_prev r else s_prev rj)
        /\ s_head r' = (if decide (p = j /\ s_head rj = Some i) then s_next r else s_head rj)
        /\ s_tail r' = (if decide (p = j /\ s_tail rj = Some i) then s_prev r else s_tail rj)
    end
}.

Lemma change_opt_lookup o g st j :
  sc_store (change_opt o g st) !! j = (if decide (o = Some j) then g else id) <$> sc_store st !! j.
Proof.
  destruct o as [k|]; cbn [change_opt].
  - destruct (decide (Some k = Some j)) as [[= ->]|Hne].
    + unfold change. simpl. by rewrite lookup_alter_eq.
    + rewrite change_ne by congruence. by destruct (sc_store st !! j).
  - by destruct (sc_store st !! j).
Qed.

Lemma change_lookup k g st j :
  sc_store (change k g st) !! j = (if decide (k = j) then g else id) <$> sc_store st !! j.
Proof.
  destruct (decide (k = j)) as [->|Hne].
  - unfold change. simpl. by rewrite lookup_alter_eq.
  - rewrite change_ne by done. by destruct (sc_store st !! j).
Qed.

Lemma unlink_unlinked i p r st : unlinked i p r st (change i sever (unlink i p r st)).
Proof.
  split; [unfold unlink; by destruct (s_prev r), (s_next r)|]. intros j Hj. rewrite change_ne by done.
  unfold unlink. rewrite !change_opt_lookup, !change_lookup.
  destruct (sc_store st !! j) as [rj|]; [|done]. simpl. eexists. split; [done|].
  destruct (decide (s_next r = Some j)), (decide (s_prev r = Some j)), (decide (p = j)) as [->|];
    cbn; repeat case_decide; cbn in *; repeat case_decide; cbn; intuition congruence.
Qed.

Section Unlink.
Context (st : scopes) (f : forest) (T : tree st f) (i p : nat) (Hi : attached f i) (Hip : f_parent f !! i = Some p).
Context (r : scope) (Hlink : link_of st i = Some (s_prev r, s_next r)) (st' : scopes) (Hul : unlinked i p r st st').

Abbreviation f' := (f_step f (Destroy i)).1.
Abbreviation dead := (subtree f i).

(** The children of the parent. *)
Lemma parent_split : exists l1 l2, f_children f !! p = Some (l1 ++ i :: l2) /\ filter (fun c => c <> i) (l1 ++ i :: l2) = l1 ++ l2
  /\ i ∉ l1 ++ l2 /\ s_prev r = last l1 /\ s_next r = head l2.
Proof.
  destruct (t_parent _ _ T _ _ Hip) as (cs & Hcs & Hin). apply list_elem_of_split in Hin as (l1 & l2 & ->).
  exists l1, l2. pose proof (t_nodup _ _ T _ _ Hcs) as Hd. pose proof (t_links _ _ T _ _ Hcs) as Hseg.
  apply NoDup_app in Hd as (Hd1 & Hd12 & Hd2). apply NoDup_cons in Hd2 as [Hi2 Hd2].
  assert (Hi1 : i ∉ l1) by (intros H; apply (Hd12 i H); left).
  assert (Hf : forall l : list nat, i ∉ l -> filter (fun c => c <> i) l = l).
  { intros l Hl. apply list_filter_all, Forall_forall. intros x Hx ->. done. }
  apply dseg_app in Hseg as [_ [Hli _]]. rewrite Hlink in Hli. injection Hli as Hp Hn.
  split_and!; [done| |intros [H|H]%elem_of_app; done| |].
  - rewrite filter_app, filter_cons, decide_False by (intros H; by apply H). by rewrite !Hf.
  - rewrite Hp. unfold last_or. by destruct (last l1).
  - rewrite Hn. by destruct l2.
Qed.

Lemma dead_not_p : p ∉ dead.
Proof.
  intros H. destruct (tree_older _ _ _ _ T Hip) as [Hlt _].
  destruct (subtree_in _ _ T _ _ Hi H) as [_ [E|[E _]]]; lia.
Qed.

(** What is attached afterwards. *)
Lemma destroy_children j : f_children f' !! j = if decide (j ∈ dead) then None else
  if decide (j = p) then Some (filter (fun c => c <> i) (children f p)) else f_children f !! j.
Proof.
  simpl. rewrite Hip. destruct (decide (j ∈ dead)) as [Hj|Hj].
  - apply map_lookup_filter_None. right. intros x _ H. by apply H.
  - destruct (decide (j = p)) as [->|Hjp].
    + apply map_lookup_filter_Some. split; [by rewrite lookup_insert_eq|done].
    + destruct (f_children f !! j) as [cs|] eqn:E.
      * apply map_lookup_filter_Some. split; [by rewrite lookup_insert_ne|done].
      * apply map_lookup_filter_None. left. by rewrite lookup_insert_ne.
Qed.

Lemma destroy_parent j : f_parent f' !! j = if decide (j ∈ dead) then None else f_parent f !! j.
Proof.
  simpl. destruct (decide (j ∈ dead)) as [Hj|Hj].
  - apply map_lookup_filter_None. right. intros x _ H. by apply H.
  - destruct (f_parent f !! j) as [q|] eqn:E.
    + by apply map_lookup_filter_Some.
    + apply map_lookup_filter_None. by left.
Qed.

Lemma destroy_children_inv j cs' : f_children f' !! j = Some cs' ->
  j ∉ dead /\ j <> i /\ exists cs, f_children f !! j = Some cs
  /\ (j <> p /\ cs' = cs \/ j = p /\ exists l1 l2, cs = l1 ++ i :: l2 /\ cs' = l1 ++ l2 /\ i ∉ l1 ++ l2
        /\ s_prev r = last l1 /\ s_next r = head l2).
Proof.
  rewrite destroy_children. destruct (decide (j ∈ dead)) as [|Hj]; [done|]. intros H. split; [done|].
  split; [intros ->; apply Hj; by apply (subtree_root _ _ T)|]. destruct parent_split as (l1 & l2 & Hp & Hf & Hn & H1 & H2).
  destruct (decide (j = p)) as [->|Hjp].
  - exists (l1 ++ i :: l2). split; [done|]. right. split; [done|]. exists l1, l2. unfold children in H. rewrite Hp in H.
    simpl in H. rewrite Hf in H. by injection H as <-.
  - exists cs'. split; [done|]. by left.
Qed.

(** The siblings of the scope are children of its parent only. *)
Lemma sibling_parent k : s_prev r = Some k \/ s_next r = Some k -> f_parent f !! k = Some p /\ k <> i.
Proof.
  destruct parent_split as (l1 & l2 & Hp & _ & Hn & -> & ->). intros Hk.
  assert (Hin : k ∈ l1 ++ l2).
  { apply elem_of_app. destruct Hk as [Hk|Hk]; [left; by apply last_Some_elem_of|right]. destruct l2; [done|].
    injection Hk as ->. left. }
  split; [|intros ->; done]. apply (t_child _ _ T _ _ k Hp).
  apply elem_of_app in Hin as [H|H]; apply elem_of_app; [by left|right; by right].
Qed.

Lemma unlinked_link j : j <> i -> s_prev r <> Some j -> s_next r <> Some j -> link_of st' j = link_of st j.
Proof.
  intros Hj H1 H2. unfold link_of. pose proof (ul_old _ _ _ _ _ Hul j Hj) as H.
  destruct (sc_store st !! j) as [rj|]; [|by rewrite H].
  destruct H as (r' & -> & _ & _ & _ & _ & _ & _ & En & Ep & _). simpl. by rewrite En, Ep, !decide_False.
Qed.

Lemma unlinked_prev j a b : j <> i -> s_prev r = Some j -> s_next r <> Some j ->
  link_of st j = Some (a, b) -> link_of st' j = Some (a, s_next r).
Proof.
  intros Hj H1 H2. unfold link_of. pose proof (ul_old _ _ _ _ _ Hul j Hj) as H.
  destruct (sc_store st !! j) as [rj|]; [|done].
  destruct H as (r' & -> & _ & _ & _ & _ & _ & _ & En & Ep & _). simpl. intros [= <- <-].
  rewrite En, Ep. by repeat case_decide.
Qed.

Lemma unlinked_next j a b : j <> i -> s_next r = Some j -> s_prev r <> Some j ->
  link_of st j = Some (a, b) -> link_of st' j = Some (s_prev r, b).
Proof.
  intros Hj H1 H2. unfold link_of. pose proof (ul_old _ _ _ _ _ Hul j Hj) as H.
  destruct (sc_store st !! j) as [rj|]; [|done].
  destruct H as (r' & -> & _ & _ & _ & _ & _ & _ & En & Ep & _). simpl. intros [= <- <-].
  rewrite En, Ep. by repeat case_decide.
Qed.

(** Taking an element out of a doubly linked list. *)
Lemma unlinked_seg l1 l2 :
  NoDup (l1 ++ i :: l2) -> s_prev r = last l1 -> s_next r = head l2 ->
  dseg (link_of st) None (l1 ++ i :: l2) None -> dseg (link_of st') None (l1 ++ l2) None.
Proof.
  intros Hd Hp Hn [H1 [_ H2]]%dseg_app. apply NoDup_app in Hd as (Hd1 & Hd12 & Hd2). apply NoDup_cons in Hd2 as [Hi2 Hd2].
  assert (Hni : forall x, x ∈ l1 -> x <> i) by (intros x Hx ->; apply (Hd12 i Hx); left).
  assert (Hhd : forall x, s_next r = Some x -> x ∈ l2) by (rewrite Hn; intros x; destruct l2; [done|intros [= ->]; left]).
  assert (Hlst : forall x, s_prev r = Some x -> x ∈ l1) by (rewrite Hp; intros x; apply last_Some_elem_of).
  assert (Hdis : forall x, x ∈ l1 -> x ∈ l2 -> False) by (intros x Hx1 Hx2; apply (Hd12 x Hx1); by right).
  apply dseg_app. split.
  - eapply (dseg_next (link_of st)); [done| | |exact H1].
    + intros x Hx Hlx. apply unlinked_link; [auto|congruence|]. intros E. eauto.
    + intros x a b Hlx Hx. assert (x ∈ l1) by (by apply last_Some_elem_of). rewrite (unlinked_prev x a b); [|auto|congruence| |done].
      * rewrite Hn. by destruct l2.
      * intros E. eauto.
  - eapply (dseg_prev (link_of st)); [| |exact H2].
    + intros x l -> a b Hx. assert (Hxl : x ∈ x :: l) by left. rewrite (unlinked_next x a b); [|intros ->; done|done| |done].
      * rewrite Hp. unfold last_or. by destruct (last l1).
      * intros E. eauto.
    + intros x Hx. destruct l2 as [|y l2]; [by apply not_elem_of_nil in Hx|]. cbn [tail] in Hx.
      apply NoDup_cons in Hd2 as [Hy _].
      apply unlinked_link; [intros ->; apply Hi2; by right|intros E; apply (Hdis x); [auto|by right]|].
      rewrite Hn. intros [= ->]. done.
Qed.

Lemma destroy_tree : tree st' f'.
Proof.
  destruct (tree_older _ _ _ _ T Hip) as [Hpi _]. constructor.
  - rewrite (ul_next _ _ _ _ _ Hul). apply T.
  - intros j cs' Hj. destruct (destroy_children_inv j cs' Hj) as (Hjd & Hji & cs & Hcs & Hcase).
    destruct (t_node _ _ T _ _ Hcs) as (rj & Hrj & H1 & H2 & H3 & H4).
    pose proof (ul_old _ _ _ _ _ Hul j Hji) as H. rewrite Hrj in H.
    destruct H as (r' & Hr' & E1 & E2 & _ & _ & _ & _ & _ & _ & Eh & Et). exists r'. split; [done|].
    split_and!; [by rewrite E1, destroy_parent, decide_False| | |by intros n; unfold live_of, listeners_of; rewrite E2; apply H4].
    + rewrite Eh, H2. destruct Hcase as [[Hjp ->]|(-> & l1 & l2 & -> & -> & Hn & Hp & Hx)]; [by rewrite decide_False by (intros [? _]; congruence)|].
      destruct l1 as [|a l1]; simpl; [by rewrite decide_True, Hx by done|]. rewrite decide_False; [done|].
      intros [_ [= ->]]. apply Hn. left.
    + rewrite Et, H3. destruct Hcase as [[Hjp ->]|(-> & l1 & l2 & -> & -> & Hn & Hp & Hx)]; [by rewrite decide_False by (intros [? _]; congruence)|].
      rewrite !last_app, last_cons, Hp. destruct (last l2) as [b|] eqn:El; [|by rewrite decide_True by done].
      rewrite decide_False; [done|]. intros [_ [= ->]]. apply Hn, elem_of_app. right. by apply last_Some_elem_of.
  - intros j cs' Hj. destruct (destroy_children_inv j cs' Hj) as (Hjd & Hji & cs & Hcs & Hcase).
    pose proof (t_links _ _ T _ _ Hcs) as Hseg. destruct Hcase as [[Hjp ->]|(-> & l1 & l2 & -> & -> & Hn & Hp & Hx)].
    + eapply dseg_frame; [|exact Hseg]. intros x Hx. destruct (t_child _ _ T _ _ _ Hcs Hx) as (Hxp & _).
      apply unlinked_link; [congruence|intros E|intros E]; destruct (sibling_parent x) as [Hpar _]; auto; congruence.
    + apply unlinked_seg; try done. by eapply T.
  - intros j cs' Hj. destruct (destroy_children_inv j cs' Hj) as (_ & _ & cs & Hcs & Hcase).
    pose proof (t_nodup _ _ T _ _ Hcs) as Hd. destruct Hcase as [[_ ->]|(_ & l1 & l2 & -> & -> & _)]; [done|].
    apply NoDup_app in Hd as (Hd1 & Hd12 & Hd2). apply NoDup_cons in Hd2 as [_ Hd2]. apply NoDup_app.
    split_and!; [done| |done]. intros x Hx Hx2. apply (Hd12 x Hx). by right.
  - intros j cs' c Hj Hc. destruct (destroy_children_inv j cs' Hj) as (Hjd & _ & cs & Hcs & Hcase).
    assert (Hcc : c ∈ cs /\ c <> i).
    { destruct Hcase as [[Hjp ->]|(-> & l1 & l2 & -> & -> & Hn & _)].
      - split; [done|]. intros ->. destruct (t_child _ _ T _ _ _ Hcs Hc) as (Hci & _). congruence.
      - split; [|intros ->; done]. apply elem_of_app in Hc as [|]; apply elem_of_app; [by left|right; by right]. }
    destruct Hcc as [Hcc Hci]. destruct (t_child _ _ T _ _ _ Hcs Hcc) as (H1 & [cs2 H2] & H3).
    assert (Hcd : c ∉ dead).
    { intros H. destruct (subtree_in _ _ T _ _ Hi H) as [_ [|(_ & q & Hq & Hqd)]]; [done|]. congruence. }
    rewrite destroy_parent, destroy_children, !(decide_False (P := c ∈ dead)) by done. split_and!; [done| |done].
    destruct (decide (c = p)); [by eexists|by eexists].
  - intros j q Hj. rewrite destroy_parent in Hj. destruct (decide (j ∈ dead)) as [|Hjd]; [done|].
    destruct (t_parent _ _ T _ _ Hj) as (cs & Hq & Hin). assert (Hqd : q ∉ dead).
    { intros H. apply Hjd. apply (subtree_closed _ _ T i q j Hi H). unfold children. by rewrite Hq. }
    rewrite destroy_children, decide_False by done. destruct (decide (q = p)) as [->|]; [|by exists cs].
    eexists. split; [done|]. apply list_elem_of_filter. split; [intros ->; apply Hjd; by apply (subtree_root _ _ T)|].
    unfold children. by rewrite Hq.
  - destruct (t_root _ _ T) as [[cs Hroot] Hp]. assert (Hrd : root ∉ dead).
    { intros H. destruct (subtree_in _ _ T _ _ Hi H) as [_ [E|[E _]]]; [congruence|unfold root in E; lia]. }
    rewrite destroy_parent, destroy_children, !(decide_False (P := root ∈ dead)) by done. split; [|done].
    destruct (decide (root = p)); by eexists.
  - intros j [cs' Hj] Hroot. destruct (destroy_children_inv j cs' Hj) as (Hjd & _ & cs & Hcs & _).
    rewrite destroy_parent, decide_False by done. apply (t_attached _ _ T); [by eexists|done].
  - intros j Hj. rewrite (ul_next _ _ _ _ _ Hul). destruct (decide (j = i)) as [->|Hji].
    + destruct Hi as [cs Hcs]. destruct (t_node _ _ T _ _ Hcs) as (ri & Hri & _). apply (t_fresh _ _ T). by eexists.
    + pose proof (ul_old _ _ _ _ _ Hul j Hji) as H. destruct (sc_store st !! j) as [rj|] eqn:E.
      * apply (t_fresh _ _ T). by eexists.
      * rewrite H in Hj. by destruct Hj.
  - intros j Hj. by apply (t_fresh_live _ _ T).
Qed.

Lemma destroy_flow m :
  flow st f (Some i) m None 0 -> tot st m i = 0%Z -> flow st' f' None m None 0.
Proof.
  intros F H0 j rj [cs' Hj] _ Hrj. destruct (destroy_children_inv j cs' Hj) as (Hjd & Hji & cs & Hcs & Hcase).
  assert (Hcnt : forall k, k <> i -> cnt st' m k = cnt st m k).
  { intros k Hk. unfold cnt. pose proof (ul_old _ _ _ _ _ Hul k Hk) as H. destruct (sc_store st !! k); [|by rewrite H].
    destruct H as (r' & -> & _ & _ & E & _). simpl. by rewrite E. }
  assert (Hsum : forall l, i ∉ l -> zsum (tot st' m <$> l) = zsum (tot st m <$> l)).
  { intros l Hl. apply zsum_same. intros x Hx. apply cnt_tot, Hcnt. intros ->. done. }
  pose proof (Hcnt j Hji) as Hc. unfold cnt in Hc. rewrite Hrj in Hc. destruct (sc_store st !! j) as [r0|] eqn:E0; [|done].
  injection Hc as Hc. specialize (F j r0 (mk_is_Some _ _ Hcs) ltac:(congruence) E0).
  rewrite decide_False, Z.sub_0_r in F |- * by done. unfold count_ok in *. rewrite Hc.
  replace (expected st' f' j m) with (expected st f j m); [done|].
  unfold expected. change (live f' j m) with (live f j m). f_equal. unfold children. rewrite Hj, Hcs. simpl.
  destruct Hcase as [[Hjp ->]|(-> & l1 & l2 & -> & -> & Hn & _)].
  - symmetry. apply Hsum. intros Hin. destruct (t_child _ _ T _ _ _ Hcs Hin) as (Hci & _). congruence.
  - rewrite Hsum by done. rewrite !fmap_app. unfold zsum. rewrite !foldr_app. f_equal. simpl. by rewrite H0.
Qed.

Lemma destroy_usable :
  (forall j rj, attached f j -> j <> i -> sc_store st !! j = Some rj ->
     s_noops rj = false /\ (s_proto rj = None /\ s_destroyed rj = Some false \/ s_proto rj = f_parent f !! j /\ s_destroyed rj = None)) ->
  usable st' f'.
Proof.
  intros U j rj [cs' Hj] Hrj. destruct (destroy_children_inv j cs' Hj) as (Hjd & Hji & cs & Hcs & _).
  pose proof (ul_old _ _ _ _ _ Hul j Hji) as H. destruct (sc_store st !! j) as [r0|] eqn:E0; [|congruence].
  destruct H as (r' & Hr' & _ & _ & _ & E1 & E2 & E3 & _). rewrite Hr' in Hrj. injection Hrj as <-.
  rewrite E1, E2, E3, destroy_parent, decide_False by done. apply U; [by eexists|done..].
Qed.
End Unlink.

Lemma destroy_represents st f i :
  represents st f -> attached f i -> i <> root ->
  exists st', destroy i st = Some ((f_step f (Destroy i)).2, st') /\ represents st' (f_step f (Destroy i)).1.
Proof.
  intros R Hi Hroot. unfold destroy. rewrite (usable_noops _ _ R), (usable_destroyed _ _ R) by done. cbn [orb].
  destruct (broadcast_spec st f R (js "$destroy") i Hi) as (s1 & -> & Hs1).
  pose proof (represents_same _ _ _ Hs1 R) as (T1 & F1 & U1). rewrite decide_False by done.
  destruct (t_attached _ _ T1 i Hi Hroot) as [p Hip].
  assert (Hi' := Hi). destruct Hi' as [cs Hcs]. destruct (t_node _ _ T1 _ _ Hcs) as (r1 & Hr1 & Hp1 & _).
  set (s2 := change i set_destroyed s1). set (r := set_destroyed r1).
  assert (Hr : sc_store s2 !! i = Some r) by (by apply change_eq).
  rewrite Hr. replace (s_parent r) with (Some p) by (by rewrite <- Hip, <- Hp1). set (l := map_to_list (s_count r)).
  assert (T2 : tree s2 f).
  { eapply tree_tree_eq; [|exact T1]. split; [done|]. intros j. unfold s2. rewrite change_lookup.
    destruct (sc_store s1 !! j) as [rj|]; [|done]. simpl. by destruct (decide (i = j)). }
  assert (C2 : forall m j, cnt s2 m j = cnt s1 m j).
  { intros m j. unfold cnt, s2. rewrite change_lookup. destruct (sc_store s1 !! j) as [rj|]; [|done]. simpl.
    by destruct (decide (i = j)). }
  pose proof (fun m => F1 m i r1 Hi ltac:(done) Hr1) as Fi.
  destruct (release_all f i p Hi Hip l s2) as (E3 & F3 & H3).
  - done.
  - intros m. eapply flow_frame; [apply C2|]. intros j rj Hj _ Hrj. by apply F1.
  - intros n v Hn. apply elem_of_map_to_list in Hn. unfold cnt. rewrite Hr. simpl. simpl in Hn. rewrite Hn. split; [done|].
    destruct (Fi n) as [Hz Hc]. rewrite decide_False in Hz, Hc by done. rewrite Hn in Hc.
    destruct (Z.eqb_spec (expected s1 f i n - 0) 0) as [|Hne]; [done|]. injection Hc as ->. eexists. split; [done|lia].
  - apply NoDup_fst_map_to_list.
  - intros n Hn. unfold tot. rewrite Hr. unfold tot_of. destruct (s_count r !! n) as [v|] eqn:E; [|done]. exfalso.
    apply Hn, list_elem_of_fmap. exists (n, v). split; [done|]. by apply elem_of_map_to_list.
  - set (s3 := release_counts i l s2) in *. pose proof (unlink_unlinked i p r s3) as Hul.
    assert (T3 : tree s3 f) by (by eapply tree_ev_eq).
    assert (Hl3 : link_of s3 i = Some (s_prev r, s_next r)) by (rewrite (ev_eq_link _ _ _ E3); unfold link_of; by rewrite Hr).
    eexists. split; [done|]. split_and!.
    + by eapply destroy_tree.
    + intros m. by eapply destroy_flow.
    + eapply destroy_usable; try done. intros j rj Hj Hji Hrj. destruct E3 as [_ E3]. specialize (E3 j). rewrite Hrj in E3.
      unfold s2 in E3. rewrite change_ne in E3 by done. destruct (sc_store s1 !! j) as [rj1|] eqn:E1; [|done].
      destruct E3 as (ls & k & -> & _). by apply (U1 j rj1).
Qed.

(** ** The refinement *)

Lemma step_refines st f o :
  represents st f -> allowed f o ->
  exists st', c_step st o = Some (st', (f_step f o).2) /\ represents st' (f_step f o).1.
Proof.
  intros R [Hi Ho]. destruct o as [b i|name l i|name l i|name i|stops name i|i]; cbn [op_scope c_step] in *.
  - destruct (new_represents st f b i R Hi) as (st' & -> & R'). by exists st'.
  - eexists. split; [done|]. by apply on_represents.
  - eexists. split; [done|]. by apply off_represents.
  - destruct (broadcast_spec st f R name i Hi) as (st' & -> & Hs). exists st'. split; [done|]. by eapply represents_same.
  - unfold emit. pose proof R as (T & _). destruct (emit_spec st f R stops name (sc_next st) i st Hi) as (st' & -> & Hs); [|done|].
    + rewrite (t_next _ _ T). pose proof (tree_lt _ _ _ T Hi). lia.
    + exists st'. rewrite (t_next _ _ T). split; [done|]. by eapply represents_same.
  - destruct (destroy_represents st f i R Hi Ho) as (st' & -> & R'). by exists st'.
Qed.

Lemma new_represents_root : represents new_scopes new_forest.
Proof.
  assert (Hch : forall i cs, f_children new_forest !! i = Some cs -> i = root /\ cs = []).
  { intros i cs H. simpl in H. by apply lookup_singleton_Some in H as [<- <-]. }
  split_and!.
  - constructor; try done.
    + intros i cs [-> ->]%Hch. exists root_scope. split; [done|]. split_and!; done.
    + by intros i cs [_ ->]%Hch.
    + intros i cs [_ ->]%Hch. apply NoDup_nil_2.
    + intros i cs c [_ ->]%Hch Hc. by apply not_elem_of_nil in Hc.
    + intros i [cs [-> _]%Hch]. done.
    + intros i [r H]. simpl in *. apply lookup_singleton_Some in H as [<- _]. unfold root. lia.
  - intros name i r [cs [-> ->]%Hch] _ Hr. injection Hr as <-. done.
  - intros i r [cs [-> ->]%Hch] Hr. injection Hr as <-. split; [done|]. by left.
Qed.

Lemma run_refines os st f :
  represents st f -> all_allowed f os ->
  exists st', c_run st os = Some (st', (f_run f os).2) /\ represents st' (f_run f os).1.
Proof.
  revert st f. induction os as [|o os IH]; intros st f R Ha; [by exists st|].
  destruct Ha as [Ho Ha]. destruct (step_refines st f o R Ho) as (s1 & E & R1). cbn [c_run f_run]. rewrite E.
  destruct (f_step f o) as [f1 c1]. destruct (IH s1 f1 R1 Ha) as (s2 & -> & R2). exists s2.
  by destruct (f_run f1 os) as [f2 c2].
Qed.

(** C17: the scopes implement the tree of scopes.  Whatever scopes are made, listened to and
    destroyed, [$broadcast] calls the listeners of the scope and of all the scopes below it,
    in depth-first order and each once, though it walks sibling pointers without a stack and
    skips the branches whose counts are zero; [$emit] calls those of the scope and of its
    ancestors until one stops the event; [$destroy] tells the whole subtree before it detaches
    it.  No operation reads a missing scope or runs out of steps. *)
Theorem scopes_refine os :
  all_allowed new_forest os ->
  exists st, c_run new_scopes os = Some (st, (f_run new_forest os).2).
Proof.
  intros Ha. destruct (run_refines os _ _ new_represents_root Ha) as (st & E & _). by exists st.
Qed.

Lemma scopes_refine_witness : exists st, c_run new_scopes sample_ops = Some (st, (f_run new_forest sample_ops).2).
Proof.
  apply (scopes_refine sample_ops). unfold sample_ops. cbn [all_allowed]. unfold allowed.
  repeat match goal with
  | |- _ /\ _ => split
  | |- is_Some _ => eexists; vm_compute; reflexivity
  | |- _ <> _ => done
  | |- True => exact I
  | |- _ ∈ _ => vm_compute; left
  end.
Defined.
