(* ===== verification/Heap.v ===== *)
(** * Objects of the language, their copies and their comparison (angular.js, the helpers)

    The objects of a page live in a heap: arrays, plain objects with their prototype, dates,
    regular expressions and functions.  [copy] and [equals] follow the references of the heap,
    so that shared objects and cycles are those of the code.

    The names of own properties are none of those that [Array.prototype], [Date.prototype] and
    the like define (those of [Object.prototype] are modelled), and not ["__proto__"]. *)

From Stdlib Require Import QArith.
From S2P Require Import Prelude JsString JsObject JsNumber UriCodec Json.
#[local] Open Scope nat_scope.
Local Open Scope handler_scope.

Inductive hval : Type :=
| HUndef
| HNull
| HBool (b : bool)
| HNum (n : num)
| HStr (s : jstr)
| HNative (name : jstr)        (** a function of [Object.prototype], by its name *)
| HRef (r : nat).

Inductive hobj : Type :=
| OArr (l : list hval)
| OObj (proto : option nat) (o : jsobj hval)
| ODate (time : option Z)                   (** [None] is an invalid date *)
| ORegExp (source flags : jstr)
| OFun (f : nat).

Record heap : Type := Heap { h_store : gmap nat hobj; h_next : nat }.

Definition heap_set (r : nat) (o : hobj) (h : heap) : heap := Heap (<[r := o]> (h_store h)) (h_next h).
Definition heap_alloc (o : hobj) (h : heap) : nat * heap :=
  (h_next h, Heap (<[h_next h := o]> (h_store h)) (S (h_next h))).

(** A prototype is older than the objects made from it. *)
Definition proto_below (r : nat) (o : hobj) : Prop :=
  match o with OObj (Some p) _ => p < r | _ => True end.
Definition val_ok (h : heap) (v : hval) : Prop :=
  match v with HRef r => is_Some (h_store h !! r) | _ => True end.
(** The own properties have distinct names, and the references lead to objects of the heap. *)
Definition obj_ok (h : heap) (o : hobj) : Prop :=
  match o with
  | OArr l => Forall (val_ok h) l
  | OObj _ o => ob_wf o /\ Forall (fun kv => val_ok h kv.2) o
  | _ => True
  end.
Definition heap_wf (h : heap) : Prop :=
  forall r o, h_store h !! r = Some o -> r < h_next h /\ proto_below r o /\ obj_ok h o.

(** ** Properties *)

(** [o.k] along the prototypes; an inherited name of [Object.prototype] is a function. *)
Fixpoint chain_get (fuel : nat) (h : heap) (r : nat) (k : jstr) : hval :=
  let inherited := if in_object_proto k then HNative k else HUndef in
  match h_store h !! r with
  | Some (OObj proto o) =>
      match ob_get o k, proto, fuel with
      | Some v, _, _ => v
      | None, Some p, S fuel => chain_get fuel h p k
      | _, _, _ => inherited
      end
  | Some (OArr l) => if is_index k then default HUndef (l !! N.to_nat (dec_val k)) else inherited
  | _ => inherited
  end.
Definition obj_get (h : heap) (r : nat) (k : jstr) : hval := chain_get (h_next h) h r k.

(** The names [for (k in o)] visits: the own ones, then those of the prototypes. *)
Fixpoint chain_names (fuel : nat) (h : heap) (r : nat) : list jstr :=
  match h_store h !! r with
  | Some (OObj proto o) =>
      enum_names o ++
      match proto, fuel with
      | Some p, S fuel => filter (fun k => ob_has o k = false) (chain_names fuel h p)
      | _, _ => []
      end
  | Some (OArr l) => dec_of_N <$> (N.of_nat <$> seq 0 (length l))
  | _ => []
  end.
Definition for_in (h : heap) (r : nat) : list jstr := chain_names (h_next h) h r.

(** ** Kinds of values *)

Definition htruthy (v : hval) : bool :=
  match v with
  | HUndef | HNull => false
  | HBool b => b
  | HNum n => jtruthy (JNum n)
  | HStr s => truthy s
  | HNative _ | HRef _ => true
  end.

Definition isFunction (h : heap) (v : hval) : bool :=
  match v with
  | HNative _ => true
  | HRef r => match h_store h !! r with Some (OFun _) => true | _ => false end
  | _ => false
  end.

(** [isObject]: not [null], and its [typeof] is 'object'. *)
Definition isObject (h : heap) (v : hval) : bool :=
  match v with HRef _ => negb (isFunction h v) | _ => false end.

Definition has_truthy (h : heap) (r : nat) (k : lit) : bool := htruthy (obj_get h r (js k)).
Arguments has_truthy h r k%_string_scope.

Definition isWindow (h : heap) (r : nat) : bool :=
  has_truthy h r "document" && has_truthy h r "location" && has_truthy h r "alert" && has_truthy h r "setInterval".
Definition isScope (h : heap) (r : nat) : bool := has_truthy h r "$evalAsync" && has_truthy h r "$watch".

(** [a === b]. *)
Definition num_eqb (x y : num) : bool :=
  match x, y with
  | Fin p, Fin q => Qeq_bool p q
  | Inf s, Inf t => Bool.eqb s t
  | _, _ => false
  end.
Definition strict_eq (a b : hval) : bool :=
  match a, b with
  | HUndef, HUndef | HNull, HNull => true
  | HBool a, HBool b => Bool.eqb a b
  | HNum x, HNum y => num_eqb x y
  | HStr s, HStr t => jeqb s t
  | HNative k, HNative l => jeqb k l
  | HRef r, HRef s => Nat.eqb r s
  | _, _ => false
  end.
Definition is_NaN (v : hval) : bool := match v with HNum NaN => true | _ => false end.

(** ** [copy] *)

(** The heap, and the arrays [stackSource] and [stackDest]. *)
Record copying : Type := Copying { cp_heap : heap; cp_stack : list (nat * nat) }.

Definition set_heap (h : heap) (st : copying) : copying := Copying h (cp_stack st).
Definition alloc (o : hobj) : handler copying nat := fun st =>
  let '(r, h) := heap_alloc o (cp_heap st) in (Ok r, set_heap h st).
Definition push_pair (s d : nat) : handler copying unit :=
  hmodify (fun st => Copying (cp_heap st) (cp_stack st ++ [(s, d)])).
(** [stackDest[indexOf(stackSource, source)]]. *)
Fixpoint stack_find (s : nat) (l : list (nat * nat)) : option nat :=
  match l with [] => None | (s', d) :: l => if Nat.eqb s' s then Some d else stack_find s l end.

Definition array_push (d : nat) (v : hval) : handler copying unit :=
  hmodify (fun st => set_heap (match h_store (cp_heap st) !! d with
                               | Some (OArr l) => heap_set d (OArr (l ++ [v])) (cp_heap st)
                               | _ => cp_heap st
                               end) st).
Definition object_update (d : nat) (f : jsobj hval -> jsobj hval) : handler copying unit :=
  hmodify (fun st => set_heap (match h_store (cp_heap st) !! d with
                               | Some (OObj p o) => heap_set d (OObj p (f o)) (cp_heap st)
                               | _ => cp_heap st
                               end) st).

Definition hashKey : jstr := js "$$hashKey".
Definition copy_error : js_error := JsMinErr (js "ng:cpws").

Section Fill.
Context (copy : hval -> handler copying hval).

(** The copy of one element or property, remembered when it is an object. *)
Definition copy_item (x : hval) : handler copying hval :=
  result <- copy x ;;
  st <- hgets id ;;
  match x, result with
  | HRef s, HRef d => hwhen (isObject (cp_heap st) x) (push_pair s d)
  | _, _ => hret tt
  end ;;;
  hret result.

Fixpoint fill_array (d : nat) (l : list hval) : handler copying unit :=
  match l with
  | [] => hret tt
  | x :: l => result <- copy_item x ;; array_push d result ;;; fill_array d l
  end.

Fixpoint fill_object (d : nat) (l : list (jstr * hval)) : handler copying unit :=
  match l with
  | [] => hret tt
  | (k, x) :: l => result <- copy_item x ;; object_update d (fun o => ob_set o k result) ;;; fill_object d l
  end.
End Fill.

(** [copy(source)], the stacks being part of the state; [fuel] bounds the nesting. *)
Fixpoint copy_value (fuel : nat) (source : hval) : handler copying hval :=
  match source with
  | HRef s =>
      st <- hgets id ;;
      let h := cp_heap st in
      if isWindow h s || isScope h s then hthrow copy_error
      else match h_store h !! s with
           | Some (ODate t) => d <- alloc (ODate t) ;; hret (HRef d)
           | Some (ORegExp source _) => d <- alloc (ORegExp source []) ;; hret (HRef d)
           | Some (OArr l) =>
               d <- alloc (OArr []) ;;
               match stack_find s (cp_stack st), fuel with
               | Some d', _ => hret (HRef d')
               | None, 0 => hthrow JsRangeError
               | None, S fuel =>
                   push_pair s d ;;; fill_array (copy_value fuel) d l ;;; hret (HRef d)
               end
           | Some (OObj _ _) =>
               d <- alloc (OObj None []) ;;
               match stack_find s (cp_stack st), fuel with
               | Some d', _ => hret (HRef d')
               | None, 0 => hthrow JsRangeError
               | None, S fuel =>
                   push_pair s d ;;;
                   fill_object (copy_value fuel) d ((fun k => (k, obj_get h s k)) <$> for_in h s) ;;;
                   object_update d (fun o => ob_delete o hashKey) ;;;
                   hret (HRef d)
               end
           | _ => hret source
           end
  | _ => hret source
  end.

(** An object of the source is entered once, so there are never more nested calls than objects. *)
Definition copy (source : hval) (h : heap) : result js_error hval * heap :=
  let '(r, st) := copy_value (h_next h) source (Copying h []) in (r, cp_heap st).

(** ** [equals] *)

Inductive js_type : Type := TyUndefined | TyBoolean | TyNumber | TyString | TyFunction | TyObject.
#[global] Instance js_type_eq_dec : EqDecision js_type.
Proof. solve_decision. Defined.

Definition typeof (h : heap) (v : hval) : js_type :=
  match v with
  | HUndef => TyUndefined
  | HBool _ => TyBoolean
  | HNum _ => TyNumber
  | HStr _ => TyString
  | HNull => TyObject
  | HNative _ => TyFunction
  | HRef _ => if isFunction h v then TyFunction else TyObject
  end.

Definition is_null (v : hval) : bool := match v with HNull => true | _ => false end.
Definition is_undefined (v : hval) : bool := match v with HUndef => true | _ => false end.
(** [key.charAt(0) === '$'], and two of them. *)
Definition is_private (k : jstr) : bool := starts_with (js "$") k.
Definition is_private2 (k : jstr) : bool := starts_with (js "$$") k.

Section Equal.
Context (h : heap) (equals : hval -> hval -> result js_error bool).

Fixpoint equal_items (l1 l2 : list hval) : result js_error bool :=
  match l1, l2 with
  | x :: l1, y :: l2 => rbind (equals x y) (fun b => if b then equal_items l1 l2 else Ok false)
  | _, _ => Ok true
  end.

(** The loop on the names of [o1]: the [keySet], or [None] once two values differ. *)
Fixpoint equal_props (r1 r2 : nat) (keys : list jstr) : result js_error (option (list jstr)) :=
  match keys with
  | [] => Ok (Some [])
  | k :: keys =>
      if is_private k || isFunction h (obj_get h r1 k) then equal_props r1 r2 keys
      else rbind (equals (obj_get h r1 k) (obj_get h r2 k)) (fun b =>
             if b then rbind (equal_props r1 r2 keys) (fun r => Ok (match r with Some ks => Some (k :: ks) | None => None end))
             else Ok None)
  end.

(** The loop on the names of [o2]; a [keySet] with a property 'hasOwnProperty' has lost the method. *)
Fixpoint no_other_props (keySet : list jstr) (r2 : nat) (keys : list jstr) : result js_error bool :=
  match keys with
  | [] => Ok true
  | k :: keys =>
      if bool_decide (js "hasOwnProperty" ∈ keySet) then Throw JsTypeError
      else if negb (bool_decide (k ∈ keySet)) && negb (is_private k) && negb (is_undefined (obj_get h r2 k))
              && negb (isFunction h (obj_get h r2 k)) then Ok false
      else no_other_props keySet r2 keys
  end.

Definition equal_objects (r1 r2 : nat) : result js_error bool :=
  if isScope h r1 || isScope h r2 || isWindow h r1 || isWindow h r2 then Ok false
  else rbind (equal_props r1 r2 (for_in h r1)) (fun r =>
         match r with Some keySet => no_other_props keySet r2 (for_in h r2) | None => Ok false end).
End Equal.

(** [fuel] bounds the depth of the recursion: see [equals]. *)
Fixpoint equals_fuel (fuel : nat) (h : heap) (o1 o2 : hval) : result js_error bool :=
  if strict_eq o1 o2 then Ok true
  else if is_null o1 || is_null o2 then Ok false
  else if is_NaN o1 && is_NaN o2 then Ok true
  else match o1, o2, fuel with
       | HRef r1, HRef r2, S fuel =>
           match h_store h !! r1, h_store h !! r2 with
           | Some (OFun _), _ | _, Some (OFun _) => Ok false
           | Some (OArr l1), Some (OArr l2) =>
               if Nat.eqb (length l1) (length l2) then equal_items (equals_fuel fuel h) l1 l2 else Ok false
           | Some (OArr _), _ => Ok false
           | Some (ODate (Some t1)), Some (ODate (Some t2)) => Ok (Z.eqb t1 t2)
           | Some (ODate _), _ => Ok false
           | Some (ORegExp s1 f1), Some (ORegExp s2 f2) => Ok (jeqb s1 s2 && jeqb f1 f2)
           | _, Some (OArr _) => Ok false
           | _, _ => equal_objects h (equals_fuel fuel h) r1 r2
           end
       | HRef _, HRef _, 0 => Throw JsRangeError
       | _, _, _ => Ok false
       end.

(** A recursion deeper than the number of pairs of objects meets a pair again: it never ends,
    and the code exhausts its call stack. *)
Definition equals (h : heap) (o1 o2 : hval) : result js_error bool :=
  equals_fuel (S (h_next h * h_next h)) h o1 o2.

(** ** [shallowCopy], [size], [indexOf], [arrayRemove] *)

(** [shallowCopy(src, dst)] for an object without a prototype. *)
Definition shallow_props (src dst : jsobj hval) : jsobj hval :=
  fold_left (fun o k => if is_private2 k then o else ob_set o k (default HUndef (ob_get src k))) (enum_names src) dst.
Definition shallowCopy (src : hval) (h : heap) : hval * heap :=
  match src with
  | HRef r =>
      match h_store h !! r with
      | Some (OArr l) => let '(d, h) := heap_alloc (OArr l) h in (HRef d, h)
      | Some (OObj _ o) => let '(d, h) := heap_alloc (OObj None (shallow_props o [])) h in (HRef d, h)
      | Some (ODate _) | Some (ORegExp _ _) => let '(d, h) := heap_alloc (OObj None []) h in (HRef d, h)
      | _ => (src, h)
      end
  | _ => (src, h)
  end.

(** [size(obj, ownPropsOnly)]. *)
Definition size (h : heap) (v : hval) (ownPropsOnly : bool) : nat :=
  match v with
  | HStr s => length s
  | HRef r =>
      match h_store h !! r with
      | Some (OArr l) => length l
      | Some (OObj _ o) => if ownPropsOnly then length o else length (for_in h r)
      | _ => 0
      end
  | _ => 0
  end.

Fixpoint value_index (l : list hval) (v : hval) : option nat :=
  match l with
  | [] => None
  | x :: l => if strict_eq x v then Some 0 else S <$> value_index l v
  end.

(** [indexOf(array, obj) >= 0] and [array.splice(index, 1)]. *)
Definition arrayRemove (l : list hval) (v : hval) : list hval :=
  match value_index l v with Some i => take i l ++ drop (S i) l | None => l end.
