(* ===== verification/HeapCopy.v ===== *)
(** * [copy] makes an isomorphic graph of fresh objects *)

From Stdlib Require Import QArith.
From S2P Require Import Prelude JsString JsObject JsNumber UriCodec Json Heap.
#[local] Open Scope nat_scope.
Local Open Scope handler_scope.

(** ** Frames *)

(** The objects of [h] are unchanged in [h']. *)
Definition heap_le (h h' : heap) : Prop :=
  h_next h <= h_next h' /\ forall r, r < h_next h -> h_store h' !! r = h_store h !! r.

#[global] Instance heap_le_refl : Reflexive heap_le.
Proof. by split. Qed.
#[global] Instance heap_le_trans : Transitive heap_le.
Proof. intros h1 h2 h3 [L1 E1] [L2 E2]. split; [lia|]. intros r Hr. rewrite E2 by lia. by apply E1. Qed.

Section Frame.
Context (h h' : heap) (W : heap_wf h) (F : heap_le h h').

Lemma chain_get_frame n m r k : r < h_next h -> r <= n -> r <= m -> chain_get m h' r k = chain_get n h r k.
Proof.
  revert m r. induction n as [|n IH]; intros m r Hr Hn Hm; destruct m as [|m]; cbn [chain_get];
    rewrite (proj2 F r Hr); destruct (h_store h !! r) as [[|[p|]| | |]|] eqn:E; try done.
  all: destruct (W _ _ E) as (_ & Hp & _); cbn in Hp; destruct (ob_get _ k); try done; try lia.
  apply IH; lia.
Qed.

Lemma obj_get_frame r k : r < h_next h -> obj_get h' r k = obj_get h r k.
Proof. intros Hr. pose proof (proj1 F). apply chain_get_frame; lia. Qed.

Lemma chain_names_frame n m r : r < h_next h -> r <= n -> r <= m -> chain_names m h' r = chain_names n h r.
Proof.
  revert m r. induction n as [|n IH]; intros m r Hr Hn Hm; destruct m as [|m]; cbn [chain_names];
    rewrite (proj2 F r Hr); destruct (h_store h !! r) as [[|[p|]| | |]|] eqn:E; try done.
  all: destruct (W _ _ E) as (_ & Hp & _); cbn in Hp; try lia.
  f_equal. by rewrite (IH m) by lia.
Qed.

Lemma for_in_frame r : r < h_next h -> for_in h' r = for_in h r.
Proof. intros Hr. pose proof (proj1 F). apply chain_names_frame; lia. Qed.

Lemma isScope_frame r : r < h_next h -> isScope h' r = isScope h r.
Proof. intros Hr. unfold isScope, has_truthy. by rewrite !obj_get_frame. Qed.
Lemma isWindow_frame r : r < h_next h -> isWindow h' r = isWindow h r.
Proof. intros Hr. unfold isWindow, has_truthy. by rewrite !obj_get_frame. Qed.

Lemma isFunction_frame v : val_ok h v -> isFunction h' v = isFunction h v.
Proof. destruct v; try done. intros [o Ho]. simpl. by rewrite (proj2 F) by apply (W _ _ Ho). Qed.
End Frame.

(** ** What the names and the values are *)

Lemma chain_names_nodup h n r : heap_wf h -> NoDup (chain_names n h r).
Proof.
  intros W. revert r. induction n as [|n IH]; intros r; cbn [chain_names];
    destruct (h_store h !! r) as [[l|p o| | |]|] eqn:E; try apply NoDup_nil_2.
  1, 3: apply NoDup_fmap_2_strong; [intros x y _ _; apply dec_of_N_inj|];
    apply NoDup_fmap_2; [intros ??; lia|apply NoDup_seq].
  all: destruct (W _ _ E) as (_ & _ & Ho & _);
    assert (Hn : NoDup (enum_names o)) by (by rewrite enum_names_perm).
  - destruct p; by rewrite app_nil_r.
  - destruct p as [p|]; [|by rewrite app_nil_r]. apply NoDup_app. split_and!; [done| |by apply NoDup_filter].
    intros k Hk [Hh _]%list_elem_of_filter. rewrite enum_names_perm, ob_get_names in Hk. unfold ob_has in Hh.
    by destruct Hk as [? Hk]; rewrite Hk in Hh.
Qed.

Lemma chain_get_ok h n r k : heap_wf h -> val_ok h (chain_get n h r k).
Proof.
  intros W. assert (Hi : val_ok h (if in_object_proto k then HNative k else HUndef)) by by destruct (in_object_proto k).
  revert r. induction n as [|n IH]; intros r; cbn [chain_get]; destruct (h_store h !! r) as [[l|p o| | |]|] eqn:E; try done.
  1, 3: destruct (is_index k); [|done]; destruct (l !! _) as [v|] eqn:Ev; [|done]; simpl;
    destruct (W _ _ E) as (_ & _ & Ho); apply (proj1 (Forall_lookup _ _) Ho _ _ Ev).
  all: destruct (W _ _ E) as (_ & _ & _ & Ho); destruct (ob_get o k) as [v|] eqn:Ev.
  2, 4: destruct p; done.
  all: assert (Hin : val_ok h v)
    by (clear - Ho Ev; induction Ho as [|[k' v'] o Hv Ho IH]; simpl in Ev; [done|];
        destruct (jeqb k k'); [by injection Ev as <-|by apply IH]); by destruct p.
Qed.

(** ** The relation between a graph and its copy *)

Section Copy.
Context (h0 : heap) (W0 : heap_wf h0).

(** The pairs of a stack: a source and its copy. *)
Implicit Types (S : list (nat * nat)) (st : copying).

Definition val_rel S (v w : hval) : Prop :=
  match v with
  | HRef s => if isObject h0 v then exists d, w = HRef d /\ (s, d) ∈ S else w = v
  | _ => w = v
  end.

(** The properties a copy gets: all but [$$hashKey]. *)
Definition copied_names (s : nat) : list jstr := filter (fun k => k <> hashKey) (for_in h0 s).

Definition props_rel S (s : nat) (ks : list jstr) (o : jsobj hval) : Prop :=
  Forall2 (fun k kv => kv.1 = k /\ val_rel S (obj_get h0 s k) kv.2) ks o.

Definition obj_rel S (s : nat) (o' : hobj) : Prop :=
  match h_store h0 !! s with
  | Some (OArr l) => exists l', o' = OArr l' /\ Forall2 (val_rel S) l l'
  | Some (OObj _ _) => exists o, o' = OObj None o /\ props_rel S s (copied_names s) o
  | Some (ODate t) => o' = ODate t
  | Some (ORegExp src _) => o' = ORegExp src []
  | _ => False
  end.

Lemma val_rel_mono S S' v w : S ⊆ S' -> val_rel S v w -> val_rel S' v w.
Proof.
  intros HS. unfold val_rel. destruct v; try done. destruct (isObject h0 (HRef r)); [|done].
  intros (d & -> & Hd). exists d. split; [done|by apply HS].
Qed.

Lemma props_rel_mono S S' s ks o : S ⊆ S' -> props_rel S s ks o -> props_rel S' s ks o.
Proof. intros HS H. eapply Forall2_impl; [exact H|]. intros k kv [? ?]. split; [done|by eapply val_rel_mono]. Qed.

Lemma obj_rel_mono S S' s o : S ⊆ S' -> obj_rel S s o -> obj_rel S' s o.
Proof.
  intros HS. unfold obj_rel. destruct (h_store h0 !! s) as [[]|]; try done.
  - intros (l' & -> & H). exists l'. split; [done|]. eapply Forall2_impl; [exact H|]. intros. by eapply val_rel_mono.
  - intros (o' & -> & H). exists o'. split; [done|]. by eapply props_rel_mono.
Qed.

(** Arrays and plain objects are entered, and copied once. *)
Definition container (s : nat) : bool :=
  match h_store h0 !! s with Some (OArr _) | Some (OObj _ _) => true | _ => false end.

(** The copies of [S] are apart from [h0], and their contents are related but for those in [P],
    which are being filled. *)
Record copy_inv (P : list nat) (st : copying) : Prop := {
  ci_frame : heap_le h0 (cp_heap st);
  ci_fresh r : is_Some (h_store (cp_heap st) !! r) -> r < h_next (cp_heap st);
  ci_pair s d : (s, d) ∈ cp_stack st ->
    is_Some (h_store h0 !! s) /\ h_next h0 <= d < h_next (cp_heap st) /\ isObject h0 (HRef s) = true;
  ci_done s d : (s, d) ∈ cp_stack st -> d ∉ P ->
    exists o, h_store (cp_heap st) !! d = Some o /\ obj_rel (cp_stack st) s o;
  ci_once s d d' : (s, d) ∈ cp_stack st -> (s, d') ∈ cp_stack st -> container s = true -> d = d';
  ci_inj s s' d : (s, d) ∈ cp_stack st -> (s', d) ∈ cp_stack st -> s = s'
}.

(** What running a part of the copy does to the state. *)
Definition grows (st st' : copying) : Prop :=
  heap_le (cp_heap st) (cp_heap st') /\ cp_stack st ⊆ cp_stack st'.

#[local] Instance grows_refl : Reflexive grows.
Proof. by split. Qed.
#[local] Instance grows_trans : Transitive grows.
Proof. intros a b c [H1 H2] [H3 H4]. split; [by etrans|by etrans]. Qed.

(** The sources not yet entered: the measure of the recursion. *)
Definition unvisited st : nat :=
  length (filter (fun s => stack_find s (cp_stack st) = None) (seq 0 (h_next h0))).

Lemma stack_find_elem s d S : stack_find s S = Some d -> (s, d) ∈ S.
Proof.
  induction S as [|[s' d'] S IH]; simpl; [done|]. destruct (Nat.eqb_spec s' s) as [->|]; [intros [= ->]; left|].
  intros H. right. by apply IH.
Qed.
Lemma stack_find_none s S : stack_find s S = None <-> forall d, (s, d) ∉ S.
Proof.
  induction S as [|[s' d'] S IH]; simpl; [split; [intros _ d; apply not_elem_of_nil|done]|].
  destruct (Nat.eqb_spec s' s) as [->|Hne]; [split; [done|intros H; destruct (H d'); left]|].
  rewrite IH. split; intros H d; specialize (H d); [intros [E|E]%elem_of_cons; congruence|].
  intros E. apply H. by right.
Qed.

Lemma unvisited_grows st st' : cp_stack st ⊆ cp_stack st' -> unvisited st' <= unvisited st.
Proof.
  intros HS. unfold unvisited. generalize (seq 0 (h_next h0)). intros l.
  induction l as [|s l IH]; [done|]. rewrite !filter_cons.
  destruct (decide (stack_find s (cp_stack st') = None)) as [H'|H'];
    destruct (decide (stack_find s (cp_stack st) = None)) as [H|H]; simpl; try lia.
  exfalso. apply H. rewrite stack_find_none in H' |- *. intros d Hd. by apply (H' d), HS.
Qed.

Lemma unvisited_push st s d :
  s < h_next h0 -> stack_find s (cp_stack st) = None ->
  unvisited (Copying (cp_heap st) (cp_stack st ++ [(s, d)])) < unvisited st.
Proof.
  intros Hs Hn. unfold unvisited. simpl.
  assert (Hin : s ∈ seq 0 (h_next h0)) by (apply elem_of_seq; lia).
  assert (Hnd : NoDup (seq 0 (h_next h0))) by apply NoDup_seq.
  assert (Hmono : forall l, length (filter (fun s0 => stack_find s0 (cp_stack st ++ [(s, d)]) = None) l)
                  <= length (filter (fun s0 => stack_find s0 (cp_stack st) = None) l)).
  { induction l as [|x l IH]; [done|]. rewrite !filter_cons. do 2 case_decide; simpl; try lia.
    exfalso. apply H0. rewrite stack_find_none in H |- *. intros e He. apply (H e), elem_of_app. by left. }
  apply list_elem_of_split in Hin as (l1 & l2 & ->). rewrite !filter_app, !length_app, !filter_cons.
  rewrite (decide_True (P := stack_find s (cp_stack st) = None)) by done. rewrite decide_False.
  - pose proof (Hmono l1). pose proof (Hmono l2). simpl. lia.
  - rewrite stack_find_none. intros H. apply (H d), elem_of_app. right. left.
Qed.

(** ** Running the parts of the copy *)

Definition runs {A} (m : handler copying A) st (Q : A -> copying -> Prop) : Prop :=
  exists a st', m st = (Ok a, st') /\ Q a st'.

Lemma runs_ret {A} (a : A) st (Q : A -> copying -> Prop) : Q a st -> runs (hret a) st Q.
Proof. intros H. by exists a, st. Qed.
Lemma runs_bind {A B} (m : handler copying A) (f : A -> handler copying B) st Q :
  runs m st (fun a st => runs (f a) st Q) -> runs (hbind m f) st Q.
Proof. intros (a & st' & E & b & st'' & E' & HQ). exists b, st''. split; [|done]. by rewrite (hbind_ok _ _ _ _ _ E). Qed.
Lemma runs_weaken {A} (m : handler copying A) st (Q Q' : A -> copying -> Prop) :
  runs m st Q -> (forall a st', Q a st' -> Q' a st') -> runs m st Q'.
Proof. intros (a & st' & E & H) HQ. exists a, st'. auto. Qed.

(** What [copy] gives for one value: a date or a regular expression is not yet on the stack. *)
Definition copied (st' : copying) (v w : hval) : Prop :=
  match v with
  | HRef s =>
      if isObject h0 v then
        exists d, w = HRef d /\
          if container s then (s, d) ∈ cp_stack st'
          else h_next h0 <= d < h_next (cp_heap st') /\ (forall s', (s', d) ∉ cp_stack st') /\
               exists o, h_store (cp_heap st') !! d = Some o /\ obj_rel (cp_stack st') s o
      else w = v
  | _ => w = v
  end.

Definition copies (P : list nat) (st : copying) (x : hval) (m : handler copying hval) : Prop :=
  runs m st (fun w st' => copy_inv P st' /\ grows st st' /\ copied st' x w).

Lemma inv_alloc P st o :
  copy_inv P st ->
  copy_inv P (set_heap (heap_alloc o (cp_heap st)).2 st) /\ grows st (set_heap (heap_alloc o (cp_heap st)).2 st).
Proof.
  intros [Hf Hr Hp Hd Ho Hi]. assert (G : heap_le (cp_heap st) (heap_alloc o (cp_heap st)).2).
  { split; simpl; [lia|]. intros r Hlt. rewrite lookup_insert_ne by lia. done. }
  split; [|by split]. split; simpl; [by etrans| | | |done|done].
  - intros r. destruct (decide (r = h_next (cp_heap st))) as [->|]; [lia|].
    rewrite lookup_insert_ne by done. intros ?%Hr. lia.
  - intros s d Hin. destruct (Hp _ _ Hin) as (? & ? & ?). split_and!; [done|lia..|done].
  - intros s d Hin HP. destruct (Hp _ _ Hin) as (_ & Hlt & _). rewrite lookup_insert_ne by lia. by apply Hd.
Qed.

(** Adding a pair whose copy is new, or a pair already there. *)
Lemma inv_push P P' st s d :
  copy_inv P st -> is_Some (h_store h0 !! s) -> isObject h0 (HRef s) = true -> h_next h0 <= d < h_next (cp_heap st) ->
  P ⊆ P' -> (forall s', (s', d) ∈ cp_stack st -> s' = s) ->
  (container s = true -> forall d', (s, d') ∈ cp_stack st -> d' = d) ->
  (d ∉ P' -> exists o, h_store (cp_heap st) !! d = Some o /\ obj_rel (cp_stack st) s o) ->
  copy_inv P' (Copying (cp_heap st) (cp_stack st ++ [(s, d)])).
Proof.
  intros [Hf Hr Hp Hd Ho Hi] Hs Hobj Hlt HP Hinj Honce Hdone.
  assert (Hin : forall x e, (x, e) ∈ cp_stack st ++ [(s, d)] <-> (x, e) ∈ cp_stack st \/ x = s /\ e = d).
  { intros x e. rewrite elem_of_app, list_elem_of_singleton. split; [intros [?|[=]]; auto|intros [?|[-> ->]]; auto]. }
  assert (HS : cp_stack st ⊆ cp_stack st ++ [(s, d)]) by (intros x; rewrite elem_of_app; auto).
  split; simpl; [done|done| | | |].
  - intros x e [H|[-> ->]]%Hin; [by apply Hp|done].
  - intros x e [H|[-> ->]]%Hin HPe.
    + destruct (Hd x e H) as (o & E & Hrel); [by intros ?%HP|]. exists o. split; [done|by eapply obj_rel_mono].
    + destruct (Hdone HPe) as (o & E & Hrel). exists o. split; [done|by eapply obj_rel_mono].
  - intros x e e' [H|[-> ->]]%Hin [H'|[E' ->]]%Hin Hc; subst; [by eapply Ho|by apply Honce|symmetry; by apply Honce|done].
  - intros x x' e [H|[-> ->]]%Hin [H'|[-> E]]%Hin; subst; [by eapply Hi|by apply Hinj|symmetry; by apply Hinj|done].
Qed.

(** Writing a copy that is being filled. *)
Lemma inv_write P st d o :
  copy_inv P st -> d ∈ P -> h_next h0 <= d < h_next (cp_heap st) -> copy_inv P (set_heap (heap_set d o (cp_heap st)) st).
Proof.
  intros [[Hl Hf] Hr Hp Hd Ho Hi] HP Hlt. split; simpl; [|  |done| |done|done].
  - split; [done|]. simpl. intros r Hr0. rewrite lookup_insert_ne by lia. by apply Hf.
  - intros r. destruct (decide (r = d)) as [->|]; [simpl; lia|]. rewrite lookup_insert_ne by done. apply Hr.
  - intros s e Hin He. rewrite lookup_insert_ne by (intros ->; done). by apply Hd.
Qed.

Lemma copy_item_runs P st x rec :
  val_ok h0 x -> copies P st x (rec x) ->
  runs (copy_item rec x) st (fun w st' => copy_inv P st' /\ grows st st' /\ val_rel (cp_stack st') x w).
Proof.
  intros Hx (w & st' & E & I & G & C). unfold copy_item. apply runs_bind. exists w, st'. split; [done|].
  apply runs_bind. exists st', st'. split; [done|].
  assert (Hplain : val_rel (cp_stack st') x w -> runs (hret w) st' (fun w st' => copy_inv P st' /\ grows st st' /\ val_rel (cp_stack st') x w)).
  { intros H. by apply runs_ret. }
  destruct x as [| | | | | |s]; try (apply runs_bind, runs_ret, Hplain, C).
  unfold copied in C. unfold val_rel in *. pose proof (isFunction_frame _ _ W0 (ci_frame _ _ I) _ Hx) as Hfun.
  assert (Hobj : isObject (cp_heap st') (HRef s) = isObject h0 (HRef s)) by (unfold isObject; by rewrite Hfun).
  destruct (isObject h0 (HRef s)) eqn:Eo.
  2: { subst w. rewrite Hobj. simpl hwhen. apply runs_bind, runs_ret. by apply runs_ret. }
  destruct C as (d & -> & C). rewrite Hobj. simpl hwhen. apply runs_bind. eexists _, _. split; [done|].
  apply runs_ret. simpl. assert (HS : cp_stack st' ⊆ cp_stack st' ++ [(s, d)]) by (intros y; rewrite elem_of_app; auto).
  split_and!.
  - destruct (container s) eqn:Ec.
    + destruct (ci_pair _ _ I _ _ C) as (H1 & H2 & H3). eapply inv_push; try done.
      * intros s' Hs'. by eapply (ci_inj _ _ I).
      * intros _ d' Hd'. by eapply (ci_once _ _ I).
      * intros HP. by apply (ci_done _ _ I).
    + destruct C as (Hlt & Hnew & Hrel). eapply inv_push; try done; [|by rewrite Ec].
      intros s' Hs'. by destruct (Hnew s').
  - etrans; [exact G|]. split; [done|exact HS].
  - exists d. split; [done|]. apply elem_of_app. right. left.
Qed.

(** ** The loops *)

(** Only the object [d] is written, and it is given the content [o]. *)
Definition fills (d : nat) (st st' : copying) (o : hobj) : Prop :=
  h_next (cp_heap st) <= h_next (cp_heap st') /\ cp_stack st ⊆ cp_stack st' /\
  (forall r, r < h_next (cp_heap st) -> r <> d -> h_store (cp_heap st') !! r = h_store (cp_heap st) !! r) /\
  h_store (cp_heap st') !! d = Some o.

Section Loops.
Context (P : list nat) (d : nat) (n : nat) (rec : hval -> handler copying hval).
Context (Hrec : forall st x, copy_inv (d :: P) st -> val_ok h0 x -> unvisited st <= n -> copies (d :: P) st x (rec x)).

(** One turn of a loop: an item is copied, then [d] gets the content [new]. *)
Lemma item_runs st x o new :
  copy_inv (d :: P) st -> unvisited st <= n -> val_ok h0 x -> h_next h0 <= d -> h_store (cp_heap st) !! d = Some o ->
  runs (copy_item rec x) st (fun w st' => val_rel (cp_stack st') x w /\ h_store (cp_heap st') !! d = Some o /\
    let st'' := set_heap (heap_set d (new w) (cp_heap st')) st' in
    copy_inv (d :: P) st'' /\ unvisited st'' <= n /\ fills d st st'' (new w)).
Proof.
  intros I Hu Hx Hd Hs. eapply runs_weaken; [by apply copy_item_runs, Hrec|]. intros w st' (I' & [[Gl Gs] GS] & Hv).
  assert (Hlt : d < h_next (cp_heap st)) by (apply (ci_fresh _ _ I); by eexists).
  split; [done|]. split; [by rewrite Gs|]. split_and!; simpl.
  - apply inv_write; [done|left|lia].
  - pose proof (unvisited_grows _ _ GS). unfold unvisited in *. simpl. lia.
  - split_and!; simpl; [lia|done| |by rewrite lookup_insert_eq]. intros r Hr Hne. rewrite lookup_insert_ne by done. by apply Gs.
Qed.

Lemma fills_trans st1 st2 st3 o o' : fills d st1 st2 o -> fills d st2 st3 o' -> fills d st1 st3 o'.
Proof.
  intros (L1 & S1 & E1 & D1) (L2 & S2 & E2 & D2). split_and!; [lia|by etrans| |done].
  intros r Hr Hne. rewrite E2 by (done || lia). by apply E1.
Qed.

Lemma fill_array_runs l st pre :
  copy_inv (d :: P) st -> unvisited st <= n -> Forall (val_ok h0) l -> h_next h0 <= d ->
  h_store (cp_heap st) !! d = Some (OArr pre) ->
  runs (fill_array rec d l) st (fun _ st' => copy_inv (d :: P) st' /\
    exists l', fills d st st' (OArr (pre ++ l')) /\ Forall2 (val_rel (cp_stack st')) l l').
Proof.
  revert st pre. induction l as [|x l IH]; intros st pre I Hu Hl Hd Hs; cbn [fill_array].
  - apply runs_ret. split; [done|]. exists []. rewrite app_nil_r. by repeat split.
  - apply Forall_cons in Hl as [Hx Hl]. apply runs_bind. eapply runs_weaken; [by eapply (item_runs _ _ _ (fun w => OArr (pre ++ [w])))|].
    intros w st' (Hv & Hs' & I' & Hu' & Hf). apply runs_bind. unfold array_push. eexists _, _. split; [done|].
    rewrite Hs'. eapply runs_weaken; [eapply (IH _ (pre ++ [w])); [done..|]; simpl; by rewrite lookup_insert_eq|].
    intros _ st'' (I'' & l' & Hf' & HF). split; [done|]. exists (w :: l'). split.
    + rewrite <- app_assoc in Hf'. by eapply fills_trans.
    + constructor; [|done]. destruct Hf' as (_ & HS & _). by eapply val_rel_mono.
Qed.

Lemma fill_object_runs l st pre :
  copy_inv (d :: P) st -> unvisited st <= n -> Forall (fun kv => val_ok h0 kv.2) l -> h_next h0 <= d ->
  h_store (cp_heap st) !! d = Some (OObj None pre) -> NoDup (map fst (pre ++ l)) ->
  runs (fill_object rec d l) st (fun _ st' => copy_inv (d :: P) st' /\
    exists l', fills d st st' (OObj None (pre ++ l')) /\
               Forall2 (fun kv kw => kw.1 = kv.1 /\ val_rel (cp_stack st') kv.2 kw.2) l l').
Proof.
  revert st pre. induction l as [|[k x] l IH]; intros st pre I Hu Hl Hd Hs Hn; cbn [fill_object].
  - apply runs_ret. split; [done|]. exists []. rewrite app_nil_r. by repeat split.
  - apply Forall_cons in Hl as [Hx Hl]. apply runs_bind.
    eapply runs_weaken; [by eapply (item_runs _ _ _ (fun w => OObj None (ob_set pre k w)))|].
    intros w st' (Hv & Hs' & I' & Hu' & Hf). apply runs_bind. unfold object_update. eexists _, _. split; [done|].
    assert (Hset : ob_set pre k w = pre ++ [(k, w)]).
    { apply ob_names_set_new, ob_get_None. unfold ob_names. rewrite map_app in Hn. intros Hin.
      apply NoDup_app in Hn as (_ & Hn & _). apply (Hn k Hin). left. }
    rewrite Hs', Hset in *. eapply runs_weaken; [eapply (IH _ (pre ++ [(k, w)])); [done..| |]|].
    + simpl. by rewrite lookup_insert_eq.
    + rewrite <- app_assoc. rewrite map_app in Hn |- *. exact Hn.
    + intros _ st'' (I'' & l' & Hf' & HF). split; [done|]. exists ((k, w) :: l'). split.
      * rewrite <- app_assoc in Hf'. by eapply fills_trans.
      * constructor; [|done]. split; [done|]. destruct Hf' as (_ & HS & _). by eapply val_rel_mono.
Qed.
End Loops.

(** ** [copy_value] *)

Lemma container_object s : container s = true -> isObject h0 (HRef s) = true /\ is_Some (h_store h0 !! s).
Proof.
  unfold container, isObject, isFunction. by destruct (h_store h0 !! s) as [[]|] eqn:E.
Qed.

(** Entering the container [s], whose copy is the new object [d]. *)
Lemma inv_enter P st s e :
  copy_inv P st -> container s = true -> stack_find s (cp_stack st) = None ->
  let d := h_next (cp_heap st) in
  let st' := Copying (heap_alloc e (cp_heap st)).2 (cp_stack st ++ [(s, d)]) in
  copy_inv (d :: P) st' /\ unvisited st' < unvisited st /\ h_next h0 <= d /\ h_store (cp_heap st') !! d = Some e.
Proof.
  intros I Hc Hn d st'. destruct (container_object s Hc) as [Ho [o Hs]]. destruct (inv_alloc _ _ e I) as [I' G'].
  pose proof (proj1 (ci_frame _ _ I)) as Hle. rewrite stack_find_none in Hn. split_and!.
  - change (copy_inv (d :: P) (Copying (cp_heap (set_heap (heap_alloc e (cp_heap st)).2 st))
      (cp_stack (set_heap (heap_alloc e (cp_heap st)).2 st) ++ [(s, d)]))).
    eapply inv_push; [exact I'|by eexists|done| | | | |].
    + subst d. simpl. lia.
    + set_solver.
    + intros s' Hs'. destruct (ci_pair _ _ I _ _ Hs') as (_ & Hlt & _). subst d. lia.
    + intros _ d' Hd'. by destruct (Hn d').
    + intros Hd. destruct Hd. left.
  - apply (unvisited_push (set_heap (heap_alloc e (cp_heap st)).2 st)); [by apply (W0 _ _ Hs)|].
    by apply stack_find_none.
  - done.
  - simpl. by rewrite lookup_insert_eq.
Qed.

(** Leaving it, its content being complete. *)
Lemma inv_leave P st s d o :
  copy_inv (d :: P) st -> (s, d) ∈ cp_stack st -> h_store (cp_heap st) !! d = Some o ->
  obj_rel (cp_stack st) s o -> copy_inv P st.
Proof.
  intros [Hf Hr Hp Hd Ho Hi] Hin Hs Hrel. split; [done..| |done|done].
  intros s' d' Hin' HP. destruct (decide (d' = d)) as [->|Hne].
  - rewrite (Hi s' s d) by done. by exists o.
  - apply Hd; [done|]. intros [?|?]%elem_of_cons; done.
Qed.

Context (NoHost : forall s, isWindow h0 s = false /\ isScope h0 s = false).

Lemma fills_grows st d e o st' s :
  d = h_next (cp_heap st) -> fills d (Copying (heap_alloc e (cp_heap st)).2 (cp_stack st ++ [(s, d)])) st' o ->
  grows st st' /\ (s, d) ∈ cp_stack st'.
Proof.
  intros -> (L & S & E & _). simpl in *. split; [split; [split; [lia|]|]|].
  - intros r Hr. rewrite E by lia. by rewrite lookup_insert_ne by lia.
  - intros x Hx. apply S, elem_of_app. by left.
  - apply S, elem_of_app. right. left.
Qed.

(** A container on the stack is not entered again; what has been allocated for it is dropped. *)
Lemma found_copies P st s d e :
  copy_inv P st -> container s = true -> stack_find s (cp_stack st) = Some d ->
  copies P st (HRef s) (fun st => hret (HRef d) (set_heap (heap_alloc e (cp_heap st)).2 st)).
Proof.
  intros I Hc Hd. destruct (inv_alloc _ _ e I) as [I' G']. destruct (container_object s Hc) as [Ho _].
  eexists _, _. split; [done|]. split_and!; [done..|]. unfold copied. rewrite Ho, Hc. exists d.
  split; [done|]. by apply stack_find_elem.
Qed.

(** A date or a regular expression. *)
Lemma leaf_copies P st s o :
  copy_inv P st -> container s = false -> isObject h0 (HRef s) = true -> obj_rel (cp_stack st) s o ->
  copies P st (HRef s) (fun st => (d <- alloc o ;; hret (HRef d)) st).
Proof.
  intros I Hc Ho Hrel. destruct (inv_alloc _ _ o I) as [I' G']. pose proof (proj1 (ci_frame _ _ I)) as Hle.
  eexists _, _. split; [done|]. split_and!; [done..|]. unfold copied. rewrite Ho, Hc. eexists. split; [done|]. simpl. split_and!; [done|lia| |].
  - intros s' Hs'. destruct (ci_pair _ _ I _ _ Hs') as (_ & Hlt & _). lia.
  - rewrite lookup_insert_eq. by exists o.
Qed.

Lemma names_of_map (f : jstr -> hval) ks : map fst ((fun k => (k, f k)) <$> ks) = ks.
Proof. induction ks as [|k ks IH]; [done|]. simpl. by f_equal. Qed.

Lemma filled_props S s o :
  Forall2 (fun kv kw => kw.1 = kv.1 /\ val_rel S kv.2 kw.2) ((fun k => (k, obj_get h0 s k)) <$> for_in h0 s) o ->
  NoDup (for_in h0 s) -> props_rel S s (copied_names s) (ob_delete o hashKey).
Proof.
  unfold copied_names. generalize (for_in h0 s). intros ks. revert o. induction ks as [|k ks IH]; intros o H Hn.
  - apply Forall2_nil_inv_l in H as ->. constructor.
  - apply Forall2_cons_inv_l in H as ([k' w] & o' & [E Hv] & H & ->). simpl in E, Hv. subst k'.
    apply NoDup_cons in Hn as [Hk Hn]. rewrite filter_cons. cbn [ob_delete]. destruct (jeqb hashKey k) eqn:Ek.
    + apply jeqb_true in Ek as <-. rewrite decide_False by congruence. rewrite list_filter_all.
      * apply Forall2_fmap_l in H. eapply Forall2_impl; [exact H|]. by intros x [y z].
      * apply Forall_forall. intros x Hx ->. done.
    + apply jeqb_false in Ek. rewrite decide_True by congruence. constructor; [done|]. by apply IH.
Qed.

(** What the recursive calls are known to do. *)
Definition copies_below (fuel : nat) : Prop :=
  forall P st v, copy_inv P st -> val_ok h0 v -> unvisited st <= fuel -> copies P st v (copy_value fuel v).

Lemma enter_array fuel P st s l :
  copies_below fuel -> copy_inv P st -> h_store h0 !! s = Some (OArr l) -> stack_find s (cp_stack st) = None ->
  unvisited st <= S fuel ->
  copies P st (HRef s) (d <- alloc (OArr []) ;; push_pair s d ;;; fill_array (copy_value fuel) d l ;;; hret (HRef d)).
Proof.
  intros IH I Es Ef Hu. assert (Hc : container s = true) by (unfold container; by rewrite Es).
  destruct (inv_enter P st s (OArr []) I Hc Ef) as (I1 & U1 & Hd1 & Hs1).
  destruct (container_object s Hc) as [Ho _]. destruct (W0 _ _ Es) as (_ & _ & Hok).
  apply runs_bind. eexists _, _. split; [done|]. apply runs_bind. eexists _, _. split; [done|].
  apply runs_bind. eapply runs_weaken; [eapply (fill_array_runs P _ fuel); [|exact I1|apply Nat.lt_succ_r; by eapply Nat.lt_le_trans|exact Hok|done|exact Hs1]|].
  { intros st2 x I2 Hx U2. by apply IH. }
  intros _ st2 (I2 & l' & Hf & HF). destruct (fills_grows _ _ _ _ _ _ eq_refl Hf) as [G Hin].
  apply runs_ret. split_and!; [|done|].
  - eapply inv_leave; [exact I2|exact Hin|by apply Hf|]. unfold obj_rel. rewrite Es. by eexists.
  - unfold copied. rewrite Ho, Hc. by eexists.
Qed.

Lemma enter_object fuel P st s p o ks :
  copies_below fuel -> copy_inv P st -> h_store h0 !! s = Some (OObj p o) -> stack_find s (cp_stack st) = None ->
  unvisited st <= S fuel -> ks = ((fun k => (k, obj_get h0 s k)) <$> for_in h0 s) ->
  copies P st (HRef s)
    (d <- alloc (OObj None []) ;; push_pair s d ;;; fill_object (copy_value fuel) d ks ;;;
     object_update d (fun o => ob_delete o hashKey) ;;; hret (HRef d)).
Proof.
  intros IH I Es Ef Hu ->. assert (Hc : container s = true) by (unfold container; by rewrite Es).
  destruct (inv_enter P st s (OObj None []) I Hc Ef) as (I1 & U1 & Hd1 & Hs1).
  destruct (container_object s Hc) as [Ho _]. assert (Hn : NoDup (for_in h0 s)) by by apply chain_names_nodup.
  apply runs_bind. eexists _, _. split; [done|]. apply runs_bind. eexists _, _. split; [done|].
  apply runs_bind. eapply runs_weaken; [eapply (fill_object_runs P _ fuel); [|exact I1|apply Nat.lt_succ_r; by eapply Nat.lt_le_trans| |done|exact Hs1|]|].
  { intros st2 x I2 Hx U2. by apply IH. }
  { apply Forall_fmap, Forall_true. intros k. by apply chain_get_ok. }
  { by rewrite app_nil_l, names_of_map. }
  intros _ st2 (I2 & o' & Hf & HF). destruct (fills_grows _ _ _ _ _ _ eq_refl Hf) as [[[Gl Gs] GS] Hin].
  pose proof (ci_pair _ _ I2 _ _ Hin) as (_ & Hlt & _). destruct Hf as (_ & _ & _ & D2).
  apply runs_bind. unfold object_update. eexists _, _. split; [done|]. rewrite D2. apply runs_ret. split_and!.
  - eapply inv_leave with (d := h_next (cp_heap st)); [apply inv_write; [exact I2|left|done]|exact Hin| |].
    + simpl. by rewrite lookup_insert_eq.
    + unfold obj_rel. rewrite Es. eexists. split; [done|]. by apply filled_props.
  - split; [split|done]; [done|]. simpl. intros r Hr. rewrite lookup_insert_ne by lia. by apply Gs.
  - unfold copied. rewrite Ho, Hc. by eexists.
Qed.

(** The part of [copy_value] that all kinds of objects share. *)
Lemma copy_value_copies fuel : copies_below fuel.
Proof.
  induction fuel as [|fuel IH]; intros P st v I Hv Hu;
    (destruct v as [| | | | | |s]; try (by eexists _, st));
    destruct (h_store h0 !! s) as [obj|] eqn:Es; try (by destruct Hv as [? E]; rewrite Es in E);
    assert (Hlt : s < h_next h0) by (by apply (W0 _ _ Es)); pose proof (ci_frame _ _ I) as F;
    assert (Es' : h_store (cp_heap st) !! s = Some obj) by (by rewrite (proj2 F));
    cbn [copy_value]; apply runs_bind; exists st, st; (split; [done|]);
    rewrite (isWindow_frame h0), (isScope_frame h0) by done;
    rewrite (proj1 (NoHost s)), (proj2 (NoHost s)); cbn [orb]; change (id st) with st; rewrite Es'.
  all: assert (Hlu := unvisited_push st s 0 Hlt).
  all: destruct obj as [l|p o|t|src fl|fn];
    try (apply leaf_copies; [done|by unfold container; rewrite Es|by unfold isObject, isFunction; rewrite Es|by unfold obj_rel; rewrite Es]);
    try (apply runs_ret; split_and!; [done..|]; unfold copied, isObject, isFunction; by rewrite Es).
  all: destruct (stack_find s (cp_stack st)) as [d'|] eqn:Ef;
    [eapply found_copies; [done|by unfold container; rewrite Es|done]|].
  1, 2: specialize (Hlu eq_refl); lia.
  - by apply enter_array.
  - eapply enter_object; [done..|]. rewrite (for_in_frame h0) by done. apply list_fmap_ext. intros _ k _.
    by rewrite (obj_get_frame h0).
Qed.
End Copy.

(** No object of the heap is the window or a scope. *)
Definition no_host (h : heap) : Prop := forall s, isWindow h s = false /\ isScope h s = false.

(** C18: [copy] of a value of a heap without windows and scopes always succeeds.  The objects
    of the heap are unchanged, and the value and its copy are two isomorphic graphs: there is a
    relation between sources and copies, one to one on arrays and plain objects, under which
    every copy has the elements, or the own and inherited properties but [$$hashKey], of its
    source; shared objects stay shared and cycles stay cycles. *)
Theorem copy_isomorphic h v :
  heap_wf h -> no_host h -> val_ok h v ->
  exists w h' S, copy v h = (Ok w, h') /\ heap_le h h' /\ val_rel h S v w /\
    (forall s d, (s, d) ∈ S -> h_next h <= d /\ exists o, h_store h' !! d = Some o /\ obj_rel h S s o) /\
    (forall s d d', (s, d) ∈ S -> (s, d') ∈ S -> container h s = true -> d = d') /\
    (forall s s' d, (s, d) ∈ S -> (s', d) ∈ S -> s = s').
Proof.
  intros W N Hv. assert (I : copy_inv h [] (Copying h [])).
  { split; simpl; try (by intros ?? ?%elem_of_nil || by intros ??? ?%elem_of_nil); [done|].
    intros r [o Ho]. by apply (W _ _ Ho). }
  destruct (copy_item_runs h W [] (Copying h []) v (copy_value (h_next h)) Hv) as (w & st & E & I' & G & Hw).
  { apply copy_value_copies; [done..|]. unfold unvisited. etrans; [apply length_filter|]. by rewrite length_seq. }
  destruct (copy_value_copies h W N (h_next h) [] (Copying h []) v I Hv) as (w' & st' & E' & I'' & G' & Hw').
  { unfold unvisited. etrans; [apply length_filter|]. by rewrite length_seq. }
  unfold copy. rewrite E'. unfold copy_item in E. rewrite (hbind_ok _ _ _ _ _ E') in E.
  assert (Hst : w = w' /\ cp_heap st = cp_heap st').
  { rewrite (hbind_ok _ _ st' st' st') in E by done.
    destruct v as [| | | | | |s]; try (by injection E as <- <-). destruct w' as [| | | | | |d]; try (by injection E as <- <-).
    unfold hwhen in E. destruct (isObject _ _); by injection E as <- <-. }
  destruct Hst as [-> Hst]. exists w', (cp_heap st'), (cp_stack st). rewrite <- Hst.
  split_and!; [done|apply I'|done| |apply I'|apply I'].
  intros s d Hin. destruct (ci_pair _ _ _ I' _ _ Hin) as (_ & [Hlt _] & _). split; [done|].
  apply (ci_done _ _ _ I' _ _ Hin). apply not_elem_of_nil.
Qed.

(** ** Concrete heaps *)

#[global] Instance val_ok_dec h v : Decision (val_ok h v).
Proof. destruct v; simpl; apply _. Defined.
#[global] Instance proto_below_dec r o : Decision (proto_below r o).
Proof. destruct o as [|[p|]| | |]; simpl; apply _. Defined.
#[global] Instance obj_ok_dec h o : Decision (obj_ok h o).
Proof. destruct o; simpl; unfold ob_wf; apply _. Defined.

(** The well-formedness of a given heap is computed. *)
Definition heap_check (h : heap) : bool :=
  bool_decide (map_Forall (fun r o => r < h_next h /\ proto_below r o /\ obj_ok h o) (h_store h)) &&
  bool_decide (map_Forall (fun r _ => isWindow h r = false /\ isScope h r = false) (h_store h)).

Lemma heap_check_wf h : heap_check h = true -> heap_wf h /\ no_host h.
Proof.
  unfold heap_check. intros [H1%bool_decide_eq_true H2%bool_decide_eq_true]%andb_true_iff. split; [exact H1|].
  intros s. destruct (h_store h !! s) as [o|] eqn:E; [by eapply H2|].
  assert (Hget : forall k, in_object_proto k = false -> htruthy (obj_get h s k) = false).
  { intros k Hk. unfold obj_get. destruct (h_next h); cbn [chain_get]; by rewrite E, Hk. }
  unfold isWindow, isScope, has_truthy. by rewrite !Hget.
Qed.

(** Two names for one array, and a cycle. *)
Definition sample_heap : heap :=
  Heap (<[0 := OObj None [(js "tags", HRef 1); (js "self", HRef 0); (js "$$hashKey", HStr (js "003"))]]>
         (<[1 := OArr [HNum (Fin 1); HRef 2]]>
           (<[2 := ODate (Some 0%Z)]> (<[3 := OObj (Some 0) [(js "again", HRef 1); (js "up", HRef 0)]]> ∅)))) 4.

Lemma copy_isomorphic_witness :
  heap_wf sample_heap /\ no_host sample_heap /\ val_ok sample_heap (HRef 3) /\
  exists w h' S, copy (HRef 3) sample_heap = (Ok w, h') /\ heap_le sample_heap h' /\ val_rel sample_heap S (HRef 3) w /\
    (forall s d, (s, d) ∈ S -> h_next sample_heap <= d /\ exists o, h_store h' !! d = Some o /\ obj_rel sample_heap S s o) /\
    (forall s d d', (s, d) ∈ S -> (s, d') ∈ S -> container sample_heap s = true -> d = d') /\
    (forall s s' d, (s, d) ∈ S -> (s', d) ∈ S -> s = s').
Proof.
  assert (H : heap_wf sample_heap /\ no_host sample_heap) by (apply heap_check_wf; by vm_compute).
  assert (Hv : val_ok sample_heap (HRef 3)) by by eexists.
  split_and!; [apply H|apply H|exact Hv|]. exact (copy_isomorphic sample_heap (HRef 3) (proj1 H) (proj2 H) Hv).
Defined.

(** The copy of object 3: the array is shared by two properties, the cycle is closed on the copy. *)
Example copy_ex :
  let '(w, h) := copy (HRef 3) sample_heap in
  w = Ok (HRef 4) /\
  h_store h !! 4 = Some (OObj None [(js "again", HRef 5); (js "up", HRef 7); (js "tags", HRef 5); (js "self", HRef 7)]) /\
  h_store h !! 7 = Some (OObj None [(js "tags", HRef 5); (js "self", HRef 7)]).
Proof. by vm_compute. Qed.
