(* ===== verification/HeapEqual.v ===== *)
(** * [equals] holds between a value and its copy *)

From Stdlib Require Import QArith.
From S2P Require Import Prelude JsString JsObject JsNumber UriCodec Json Heap HeapCopy.
#[local] Open Scope nat_scope.

Lemma num_eqb_refl n : n <> NaN -> num_eqb n n = true.
Proof. destruct n as [|s|q]; simpl; [done|by destruct s|]. intros _. by apply Qeq_bool_iff. Qed.

(** Every test but the last but one is reflexive. *)
Lemma equals_same fuel h v : equals_fuel fuel h v v = Ok true.
Proof.
  destruct (strict_eq v v) eqn:E; [destruct fuel; cbn [equals_fuel]; by rewrite E|].
  destruct v as [| |b|n|s|k|r]; simpl in E; try done.
  - by destruct b.
  - destruct n; [|by rewrite num_eqb_refl in E..]. by destruct fuel.
  - by rewrite jeqb_refl in E.
  - by rewrite jeqb_refl in E.
  - by rewrite Nat.eqb_refl in E.
Qed.

(** ** Inherited names *)

Definition inherited (k : jstr) : hval := if in_object_proto k then HNative k else HUndef.

Lemma index_inherited k : is_index k = true -> inherited k = HUndef.
Proof.
  unfold inherited, in_object_proto. destruct (bool_decide_reflect (k ∈ object_proto_names)) as [Hk|]; [|done].
  intros Hi. exfalso. assert (Hall : Forall (fun k => is_index k = false) object_proto_names) by (repeat constructor).
  rewrite Forall_forall in Hall. by rewrite (Hall k Hk) in Hi.
Qed.

Lemma array_absent (l : list hval) k : is_index k = true -> k ∉ (dec_of_N <$> (N.of_nat <$> seq 0 (length l))) ->
  l !! N.to_nat (dec_val k) = None.
Proof.
  unfold is_index. intros [[_ E%jeqb_true]%andb_true_iff _]%andb_true_iff Hk. apply lookup_ge_None.
  destruct (decide (length l <= N.to_nat (dec_val k))) as [|Hlt]; [done|]. destruct Hk.
  rewrite <- E at 1. apply list_elem_of_fmap_2, list_elem_of_fmap. exists (N.to_nat (dec_val k)). split; [lia|].
  apply elem_of_seq. lia.
Qed.

(** A name that is not enumerated is that of a function of [Object.prototype], or absent. *)
Lemma chain_get_absent h n r k : k ∉ chain_names n h r -> chain_get n h r k = inherited k.
Proof.
  assert (Hno : forall o, k ∉ enum_names o -> ob_get (V := hval) o k = None).
  { intros o Hk. apply ob_get_None. by rewrite <- enum_names_perm. }
  assert (Harr : forall l, k ∉ (dec_of_N <$> (N.of_nat <$> seq 0 (length l))) ->
    (if is_index k then default HUndef (l !! N.to_nat (dec_val k)) else inherited k) = inherited k).
  { intros l Hk. destruct (is_index k) eqn:Ei; [|done]. by rewrite array_absent, index_inherited. }
  revert r. induction n as [|n IH]; intros r Hk; cbn [chain_get chain_names] in *;
    destruct (h_store h !! r) as [[l|p o| | |]|] eqn:E; try done; try (by apply Harr);
    apply not_elem_of_app in Hk as [Hk Hp]; rewrite (Hno _ Hk); destruct p as [p|]; try done.
  apply IH. intros Hin. apply Hp, list_elem_of_filter. split; [|done]. unfold ob_has. by rewrite Hno.
Qed.

Lemma obj_get_absent h r k : k ∉ for_in h r -> obj_get h r k = inherited k.
Proof. apply chain_get_absent. Qed.

(** ** The two loops of [equals] on objects *)

Section Objects.
Context (h : heap) (eq : hval -> hval -> result js_error bool) (s d : nat).

(** The names [equals] compares. *)
Definition compared (k : jstr) : Prop := is_private k = false /\ isFunction h (obj_get h s k) = false.

#[global] Instance compared_dec k : Decision (compared k).
Proof. apply _. Defined.

Lemma equal_props_all keys :
  (forall k, k ∈ keys -> compared k -> eq (obj_get h s k) (obj_get h d k) = Ok true) ->
  equal_props h eq s d keys = Ok (Some (filter compared keys)).
Proof.
  induction keys as [|k keys IH]; intros H; [done|]. cbn [equal_props]. rewrite filter_cons.
  assert (IH' : equal_props h eq s d keys = Ok (Some (filter compared keys))) by (apply IH; intros; apply H; [by right|done]).
  destruct (decide (compared k)) as [[H1 H2]|Hn].
  - rewrite H1, H2. cbn [orb]. rewrite (H k) by (by left || done). cbn [rbind]. by rewrite IH'.
  - destruct (is_private k) eqn:E1; [done|]. destruct (isFunction h (obj_get h s k)) eqn:E2; [done|]. by destruct Hn.
Qed.

Lemma no_other_props_all ks keys :
  js "hasOwnProperty" ∉ ks ->
  (forall k, k ∈ keys -> k ∈ ks \/ is_private k = true \/ isFunction h (obj_get h d k) = true) ->
  no_other_props h ks d keys = Ok true.
Proof.
  intros Hh. induction keys as [|k keys IH]; intros H; [done|]. cbn [no_other_props].
  rewrite bool_decide_eq_false_2 by done.
  assert (IH' : no_other_props h ks d keys = Ok true) by (apply IH; intros; apply H; by right).
  destruct (H k) as [Hk|[Hk|Hk]]; [by left|..].
  - by rewrite bool_decide_eq_true_2.
  - rewrite Hk. by rewrite andb_false_r.
  - rewrite Hk. by rewrite andb_false_r.
Qed.
End Objects.

(** ** A value and its copy *)

Section Copied.
Context (h : heap) (W : heap_wf h) (N : no_host h).
Context (h' : heap) (F : heap_le h h') (S : list (nat * nat)).
Context (HS : forall s d, (s, d) ∈ S -> h_next h <= d /\ exists o, h_store h' !! d = Some o /\ obj_rel h S s o).

Lemma val_rel_truthy v w : val_rel h S v w -> htruthy w = htruthy v.
Proof. unfold val_rel. destruct v; try (by intros ->). destruct (isObject h (HRef r)); [by intros (d & -> & _)|by intros ->]. Qed.

Lemma props_get s ks o k :
  props_rel h S s ks o -> k ∈ ks -> NoDup ks -> exists w, ob_get o k = Some w /\ val_rel h S (obj_get h s k) w.
Proof.
  intros H. induction H as [|k1 [k2 w] ks o [E Hv] H IH]; [by intros ?%elem_of_nil|]. simpl in E. subst k2.
  intros [<-|Hk]%elem_of_cons [H1 H2]%NoDup_cons; cbn [ob_get]; [rewrite jeqb_refl; by exists w|].
  rewrite (proj2 (jeqb_false k k1)) by (intros ->; done). by apply IH.
Qed.

Lemma props_names s ks o : props_rel h S s ks o -> ob_names o = ks.
Proof. induction 1 as [|k [k' w] ks o [E _] H IH]; [done|]. simpl in *. unfold ob_names in *. simpl. by rewrite E, IH. Qed.

Lemma copied_names_nodup s : NoDup (copied_names h s).
Proof. apply NoDup_filter. by apply chain_names_nodup. Qed.

Lemma copied_names_elem s k : k ∈ copied_names h s <-> k <> hashKey /\ k ∈ for_in h s.
Proof. unfold copied_names. by rewrite list_elem_of_filter. Qed.

(** Reading a property of the copy of an object. *)
Lemma copy_get s d o k :
  h_store h' !! d = Some (OObj None o) -> props_rel h S s (copied_names h s) o -> k <> hashKey -> s < h_next h ->
  (forall l, h_store h !! s <> Some (OArr l)) ->
  val_rel h S (obj_get h s k) (obj_get h' d k) \/ obj_get h s k = inherited k /\ obj_get h' d k = inherited k.
Proof.
  intros Hd Ho Hk Hs Ha. assert (Hget : obj_get h' d k = default (inherited k) (ob_get o k)).
  { unfold obj_get. destruct (h_next h'); cbn [chain_get]; rewrite Hd; by destruct (ob_get o k). }
  destruct (decide (k ∈ for_in h s)) as [Hin|Hin].
  - destruct (props_get s _ o k Ho) as (w & E & Hw); [by apply copied_names_elem|apply copied_names_nodup|].
    left. by rewrite Hget, E.
  - right. split; [by apply obj_get_absent|]. rewrite Hget.
    assert (E : ob_get o k = None); [|by rewrite E]. apply ob_get_None. rewrite (props_names _ _ _ Ho).
    by intros [_ ?]%copied_names_elem.
Qed.

Lemma copy_not_host s d o :
  h_store h' !! d = Some (OObj None o) -> props_rel h S s (copied_names h s) o -> s < h_next h ->
  (forall l, h_store h !! s <> Some (OArr l)) -> isScope h' d = false /\ isWindow h' d = false.
Proof.
  intros Hd Ho Hs Ha. destruct (N s) as [N1 N2].
  assert (Hg : forall k, k <> hashKey -> htruthy (obj_get h' d k) = htruthy (obj_get h s k)).
  { intros k Hk. destruct (copy_get s d o k Hd Ho Hk Hs Ha) as [Hv|[-> ->]]; [by eapply val_rel_truthy|done]. }
  unfold isScope, isWindow, has_truthy in *. by rewrite !Hg.
Qed.

(** The values [equals] visits, the depth of its recursion, and what it is not reflexive on. *)
Context (rank : nat -> nat).
Definition visited (s : nat) (x : hval) : Prop :=
  match h_store h !! s with
  | Some (OArr l) => x ∈ l
  | Some (OObj _ _) => exists k, k ∈ for_in h s /\ is_private k = false /\ x = obj_get h s k
  | _ => False
  end.
Context (Acyclic : forall s r, visited s (HRef r) -> isObject h (HRef r) = true -> rank r < rank s).
Definition comparable (s : nat) : Prop :=
  match h_store h !! s with
  | Some (OObj _ _) => js "hasOwnProperty" ∉ for_in h s
  | Some (ODate t) => t <> None
  | Some (ORegExp _ flags) => flags = []
  | _ => True
  end.
Context (Comparable : forall s, comparable s).

Definition value_rank (v : hval) : nat := match v with HRef s => if isObject h v then Datatypes.S (rank s) else 0 | _ => 0 end.

Lemma visited_rank s x : visited s x -> value_rank x <= rank s.
Proof.
  intros H. unfold value_rank. destruct x as [| | | | | |r]; try lia. destruct (isObject h (HRef r)) eqn:E; [|lia].
  by apply Acyclic.
Qed.

Lemma equal_items_copy fuel s l l' :
  (forall v w, val_rel h S v w -> val_ok h v -> value_rank v <= fuel -> equals_fuel fuel h' v w = Ok true) ->
  h_store h !! s = Some (OArr l) -> rank s <= fuel -> Forall2 (val_rel h S) l l' ->
  equal_items (equals_fuel fuel h') l l' = Ok true.
Proof.
  intros IH Es Hr HF. assert (Hall : Forall (fun x => val_ok h x /\ value_rank x <= fuel) l).
  { destruct (W _ _ Es) as (_ & _ & Hok). apply Forall_forall. intros x Hx. split; [by apply (proj1 (Forall_forall _ _) Hok)|].
    etrans; [apply (visited_rank s)|done]. unfold visited. by rewrite Es. }
  clear Es. induction HF as [|x y l l' Hv HF IHF]; [done|]. apply Forall_cons in Hall as [[Hx Hrx] Hall].
  cbn [equal_items]. rewrite (IH x y) by done. by apply IHF.
Qed.

Lemma equal_objects_copy fuel s d p o o' :
  (forall v w, val_rel h S v w -> val_ok h v -> value_rank v <= fuel -> equals_fuel fuel h' v w = Ok true) ->
  h_store h !! s = Some (OObj p o) -> h_store h' !! d = Some (OObj None o') -> rank s <= fuel ->
  props_rel h S s (copied_names h s) o' ->
  equal_objects h' (equals_fuel fuel h') s d = Ok true.
Proof.
  intros IH Es Ed Hr Ho. destruct (W _ _ Es) as (Hlt & _ & _). destruct (N s) as [N1 N2].
  assert (Ha : forall l, h_store h !! s <> Some (OArr l)) by (intros l; by rewrite Es).
  destruct (copy_not_host s d o' Ed Ho Hlt Ha) as [M1 M2].
  assert (Hn : for_in h' d = enum_names o').
  { unfold for_in. destruct (h_next h'); cbn [chain_names]; rewrite Ed; by rewrite app_nil_r. }
  unfold equal_objects. rewrite (isScope_frame h), (isWindow_frame h), N1, N2, M1, M2 by done. cbn [orb].
  rewrite (for_in_frame h), Hn by done. rewrite equal_props_all.
  - cbn [rbind]. apply no_other_props_all.
    + intros [_ Hin]%list_elem_of_filter. specialize (Comparable s). unfold comparable in Comparable. by rewrite Es in Comparable.
    + intros k Hk. rewrite enum_names_perm, (props_names _ _ _ Ho) in Hk. apply copied_names_elem in Hk as [Hh Hk].
      destruct (decide (compared h' s k)) as [Hc|Hc]; [left; by apply list_elem_of_filter|right].
      destruct (is_private k) eqn:Ep; [by left|right]. unfold compared in Hc.
      rewrite (obj_get_frame h) in Hc by done. assert (Hok : val_ok h (obj_get h s k)) by by apply chain_get_ok.
      rewrite (isFunction_frame h) in Hc by done. destruct (isFunction h (obj_get h s k)) eqn:Ef; [|by destruct Hc].
      destruct (copy_get s d o' k Ed Ho Hh Hlt Ha) as [Hv|[E1 E2]].
      * assert (E : obj_get h' d k = obj_get h s k); [|by rewrite E, (isFunction_frame h)].
        unfold val_rel in Hv. destruct (obj_get h s k) as [| | | | | |r]; try done. unfold isObject in Hv. by rewrite Ef in Hv.
      * rewrite E2, <- E1. by rewrite (isFunction_frame h).
  - intros k Hk [Hp _]. rewrite (obj_get_frame h) by done.
    assert (Hh : k <> hashKey) by (intros ->; by vm_compute in Hp).
    assert (Hv : val_rel h S (obj_get h s k) (obj_get h' d k) \/ obj_get h s k = obj_get h' d k).
    { destruct (copy_get s d o' k Ed Ho Hh Hlt Ha) as [Hv|[-> ->]]; [by left|by right]. }
    destruct Hv as [Hv| ->]; [|apply equals_same]. apply IH; [done|by apply chain_get_ok|].
    etrans; [apply (visited_rank s)|done]. unfold visited. rewrite Es. by exists k.
Qed.

Lemma equals_copied fuel v w :
  val_rel h S v w -> val_ok h v -> value_rank v <= fuel -> equals_fuel fuel h' v w = Ok true.
Proof.
  revert v w. induction fuel as [|fuel IH]; intros v w Hv Hok Hr;
    (destruct v as [| | | | | |s]; try (simpl in Hv; subst w; apply equals_same));
    unfold val_rel in Hv; unfold value_rank in Hr;
    destruct (isObject h (HRef s)) eqn:Eo; try (subst w; apply equals_same).
  - lia.
  - destruct Hv as (d & -> & Hin). destruct (HS _ _ Hin) as (Hd & o' & Ed & Ho).
    destruct Hok as [o Es]. destruct (W _ _ Es) as (Hlt & _ & _).
    assert (Es' : h_store h' !! s = Some o) by (by rewrite (proj2 F)).
    cbn [equals_fuel strict_eq is_null is_NaN]. rewrite (proj2 (Nat.eqb_neq s d)) by lia. cbn [orb andb].
    rewrite Es', Ed. unfold obj_rel in Ho. rewrite Es in Ho. pose proof (Comparable s) as Hcmp. unfold comparable in Hcmp.
    rewrite Es in Hcmp. destruct o as [l|p o|[t|]|src fl|f].
    + destruct Ho as (l' & -> & HF). rewrite (proj2 (Nat.eqb_eq _ _)) by (by eapply Forall2_length).
      eapply equal_items_copy; [done..|lia|done].
    + destruct Ho as (o2 & -> & HF). eapply equal_objects_copy; [done..|lia|done].
    + subst o'. by rewrite Z.eqb_refl.
    + done.
    + subst o' fl. by rewrite !jeqb_refl.
    + done.
Qed.
End Copied.

(** C19: a value of an acyclic heap equals its copy, whatever it contains: nested arrays and
    objects, shared parts, inherited and private properties, functions, [NaN].  It need only
    have no invalid date, no regular expression with flags and no property 'hasOwnProperty',
    on which [equals] or [copy] fail.  This is what makes a watch with [objectEquality] clean
    right after its value has been remembered. *)
Theorem equals_copy h v rank :
  heap_wf h -> no_host h -> val_ok h v ->
  (forall s r, visited h s (HRef r) -> isObject h (HRef r) = true -> rank r < rank s) ->
  (forall s, rank s < h_next h) -> (forall s, comparable h s) ->
  exists w h', copy v h = (Ok w, h') /\ heap_le h h' /\ equals h' v w = Ok true.
Proof.
  intros W N Hv Ha Hr Hc. destruct (copy_isomorphic h v W N Hv) as (w & h' & S & E & F & Hw & HS & _).
  exists w, h'. split_and!; [done|done|]. unfold equals. eapply (equals_copied h W N h' F S HS rank); [done..|].
  unfold value_rank. destruct F as [Hle _]. destruct v as [| | | | | |s]; try lia.
  destruct (isObject h (HRef s)); [|lia]. specialize (Hr s). nia.
Qed.

(** A row of a table, with a private property, a function and a shared cell. *)
Definition row_heap : heap :=
  Heap (<[0 := OObj None [(js "id", HNum (Fin 7)); (js "cells", HRef 1); (js "$$hashKey", HStr (js "003")); (js "go", HRef 3)]]>
         (<[1 := OArr [HRef 2; HNum NaN; HRef 2]]> (<[2 := ODate (Some 5%Z)]> (<[3 := OFun 0]> ∅)))) 4.
Definition row_rank (s : nat) : nat := if Nat.leb s 2 then 2 - s else 0.

Lemma row_acyclic s r : visited row_heap s (HRef r) -> isObject row_heap (HRef r) = true -> row_rank r < row_rank s.
Proof.
  unfold visited. destruct (h_store row_heap !! s) as [o|] eqn:E; [|done].
  assert (Hs : s = 0 \/ s = 1 \/ s = 2 \/ s = 3).
  { destruct s as [|[|[|[|s]]]]; auto. simpl in E. by rewrite !lookup_insert_ne, lookup_empty in E by done. }
  destruct Hs as [-> |[-> |[-> | ->]]]; vm_compute in E; injection E as <-; [| |done|done].
  - intros (k & Hk & Hp & Hx) Ho. vm_compute in Hk.
    repeat (apply elem_of_cons in Hk as [-> |Hk]; [vm_compute in Hp, Hx; first [done | injection Hx as ->; vm_compute in Ho; first [done | vm_compute; lia]]|]).
    by apply elem_of_nil in Hk.
  - intros Hx Ho. repeat (apply elem_of_cons in Hx as [Hx|Hx]; [first [discriminate Hx | injection Hx as ->; vm_compute; lia]|]).
    by apply elem_of_nil in Hx.
Qed.

Lemma row_comparable s : comparable row_heap s.
Proof.
  unfold comparable. destruct (h_store row_heap !! s) as [o|] eqn:E; [|done].
  destruct s as [|[|[|[|s]]]]; try (vm_compute in E; injection E as <-).
  - assert (bool_decide (js "hasOwnProperty" ∈ for_in row_heap 0) = false) as H by by vm_compute.
    by apply bool_decide_eq_false in H.
  - done.
  - done.
  - done.
  - simpl in E. by rewrite !lookup_insert_ne, lookup_empty in E by done.
Qed.

Lemma equals_copy_witness :
  exists w h', copy (HRef 0) row_heap = (Ok w, h') /\ heap_le row_heap h' /\ equals h' (HRef 0) w = Ok true.
Proof.
  assert (H : heap_wf row_heap /\ no_host row_heap) by (apply heap_check_wf; by vm_compute).
  apply (equals_copy row_heap (HRef 0) row_rank (proj1 H) (proj2 H)).
  - by eexists.
  - exact row_acyclic.
  - intros s. unfold row_rank. destruct (Nat.leb s 2); simpl; lia.
  - exact row_comparable.
Defined.

(** Where [equals] is not what its name says: it is not symmetric, a plain object equals a
    date, a property 'hasOwnProperty' makes it throw, an invalid date differs from itself copied. *)
Example equals_odd :
  let h := Heap (<[0 := OObj None []]> (<[1 := ODate (Some 0%Z)]> (<[2 := OObj None [(js "f", HRef 4)]]>
             (<[3 := OObj None [(js "f", HUndef)]]> (<[4 := OFun 0]>
             (<[5 := OObj None [(js "hasOwnProperty", HNum (Fin 1))]]> (<[6 := ODate None]> ∅))))))) 7 in
  equals h (HRef 0) (HRef 1) = Ok true /\ equals h (HRef 1) (HRef 0) = Ok false /\
  equals h (HRef 2) (HRef 3) = Ok true /\ equals h (HRef 3) (HRef 2) = Ok false /\
  (let '(w, h') := copy (HRef 5) h in match w with Ok w => equals h' (HRef 5) w = Throw JsTypeError | _ => False end) /\
  (let '(w, h') := copy (HRef 6) h in match w with Ok w => equals h' (HRef 6) w = Ok false | _ => False end).
Proof. by vm_compute. Qed.
