(* ===== verification/Uid.v ===== *)
(** * [nextUid] never gives the same text twice (angular.js, the helpers) *)

From S2P Require Import Prelude JsString.

(** The array [uid] counts in base 36 with the digits 0-9 and A-Z; the loop goes from the last
    digit to the first, so the digits are given in that order. *)
Fixpoint uid_increment (digits : jstr) : jstr :=
  match digits with
  | [] => [chr "0"]
  | digit :: digits =>
      if (digit =? 57)%N then chr "A" :: digits
      else if (digit =? 90)%N then chr "0" :: uid_increment digits
      else (digit + 1)%N :: digits
  end.
Definition nextUid (uid : jstr) : jstr := rev (uid_increment (rev uid)).

(** [var uid = ['0', '0', '0']], and the array after [n] calls. *)
Definition first_uid : jstr := js "000".
Definition uid (n : nat) : jstr := Nat.iter n nextUid first_uid.

Definition uid_digit (c : unit16) : Prop := (48 <= c <= 57 \/ 65 <= c <= 90)%N.
Definition uid_value (c : unit16) : nat := N.to_nat (if (c <=? 57)%N then c - 48 else c - 55).

(** The place of a text among the texts of digits, the shorter ones first. *)
Fixpoint place (digits : jstr) : nat :=
  match digits with [] => 0 | c :: digits => uid_value c + 1 + 36 * place digits end.

Lemma uid_increment_spec ds :
  Forall uid_digit ds -> Forall uid_digit (uid_increment ds) /\ place (uid_increment ds) = S (place ds).
Proof.
  assert (H0 : uid_digit (chr "0")) by by left.
  induction 1 as [|c ds Hc Hds [IH1 IH2]]; [split; [by apply Forall_singleton|done]|].
  cbn [uid_increment]. unfold uid_digit in Hc. destruct (N.eqb_spec c 57) as [->|H57]; [|destruct (N.eqb_spec c 90) as [->|H90]].
  - split; [constructor; [by right|done]|reflexivity].
  - split; [by constructor|]. cbn [place]. rewrite IH2. change (uid_value (chr "0")) with 0.
    change (uid_value 90) with 35. lia.
  - split; [constructor; [unfold uid_digit; lia|done]|]. cbn [place]. unfold uid_value.
    destruct (N.leb_spec c 57), (N.leb_spec (c + 1) 57); lia.
Qed.

Lemma uid_spec n : Forall uid_digit (uid n) /\ place (rev (uid n)) = place (rev first_uid) + n.
Proof.
  induction n as [|n [IH1 IH2]]; [split; [repeat apply Forall_cons_2; by (left || constructor)|by rewrite Nat.add_0_r]|].
  change (uid (S n)) with (nextUid (uid n)). unfold nextUid. rewrite rev_involutive.
  assert (Hr : Forall uid_digit (rev (uid n))) by by apply Forall_rev.
  destruct (uid_increment_spec _ Hr) as [H1 H2]. split; [by apply Forall_rev|]. rewrite H2, IH2. lia.
Qed.

(** The texts [nextUid] gives are made of digits and capital letters, and no two calls give
    the same one, beyond the 46656 texts of three digits too. *)
Theorem uid_unique n m : Forall uid_digit (uid n) /\ (uid n = uid m <-> n = m).
Proof.
  destruct (uid_spec n) as [Hn Pn], (uid_spec m) as [Hm Pm]. split; [done|]. split; [|by intros ->].
  intros E. rewrite E in Pn. lia.
Qed.

Example uid_ex : uid 10 = js "00A" /\ uid 36 = js "010" /\ nextUid (js "ZZZ") = js "0000".
Proof. by vm_compute. Qed.
