(* ===== verification/Digest.v ===== *)
(** * Watchers and the digest (angular.js, $RootScopeProvider)

    The functions of an application (listeners, tasks of [$evalAsync] and [$$postDigest]) read
    and change the heap; what they ask of the scopes is a list of commands.  The functions that
    are watched only read the heap.  The scopes, which [$digest] traverses through their
    pointers, are neither created nor destroyed during a digest.  [$exceptionHandler] logs. *)

From S2P Require Import Prelude JsString JsObject JsNumber UriCodec Json Heap Scope.

Inductive cmd : Type :=
| CWatch (scope : nat) (get : heap -> result js_error hval)
    (fn : hval -> hval -> heap -> result js_error unit * heap * list cmd) (objectEquality constant : bool)
| CUnwatch (id : nat)                                                     (** the function [$watch] returns *)
| CEvalAsync (task : heap -> result js_error hval * heap * list cmd)
| CPostDigest (fn : heap -> result js_error hval * heap * list cmd).

(** A run of a function of the application, with the commands it gives. *)
Definition act (A : Type) : Type := heap -> result js_error A * heap * list cmd.

Record watcher : Type := Watcher {
  w_scope : nat;                     (** the scope whose array holds it *)
  w_get : heap -> result js_error hval;
  w_fn : hval -> hval -> act unit;
  w_eq : bool;
  w_once : bool;                     (** the watched expression is constant *)
  w_last : option hval               (** [None] is [initWatchVal] *)
}.

Inductive phase : Type := PhApply | PhDigest.

Record dstate : Type := DState {
  d_heap : heap;
  d_arrays : gmap nat (list nat);    (** [$$watchers] of the scopes *)
  d_watches : gmap nat watcher;
  d_next : nat;
  d_async : list (act hval);         (** [$$asyncQueue] *)
  d_post : list (act hval);          (** [$$postDigestQueue] *)
  d_dirty : option nat;              (** [lastDirtyWatch] *)
  d_phase : option phase;
  d_timers : nat;                    (** the digests [$evalAsync] has deferred *)
  d_handled : list js_error          (** given to [$exceptionHandler] *)
}.

Definition set_dheap (h : heap) (st : dstate) : dstate :=
  DState h (d_arrays st) (d_watches st) (d_next st) (d_async st) (d_post st) (d_dirty st) (d_phase st) (d_timers st) (d_handled st).
Definition set_array (s : nat) (l : list nat) (st : dstate) : dstate :=
  DState (d_heap st) (<[s := l]> (d_arrays st)) (d_watches st) (d_next st) (d_async st) (d_post st) (d_dirty st) (d_phase st)
    (d_timers st) (d_handled st).
Definition set_async (q : list (act hval)) (timers : nat) (st : dstate) : dstate :=
  DState (d_heap st) (d_arrays st) (d_watches st) (d_next st) q (d_post st) (d_dirty st) (d_phase st) timers (d_handled st).
Definition set_post (q : list (act hval)) (st : dstate) : dstate :=
  DState (d_heap st) (d_arrays st) (d_watches st) (d_next st) (d_async st) q (d_dirty st) (d_phase st) (d_timers st) (d_handled st).
Definition set_lastDirty (w : option nat) (st : dstate) : dstate :=
  DState (d_heap st) (d_arrays st) (d_watches st) (d_next st) (d_async st) (d_post st) w (d_phase st) (d_timers st) (d_handled st).
Definition set_phase (p : option phase) (st : dstate) : dstate :=
  DState (d_heap st) (d_arrays st) (d_watches st) (d_next st) (d_async st) (d_post st) (d_dirty st) p (d_timers st) (d_handled st).
Definition set_last (id : nat) (v : hval) (st : dstate) : dstate :=
  DState (d_heap st) (d_arrays st)
    (alter (fun w => Watcher (w_scope w) (w_get w) (w_fn w) (w_eq w) (w_once w) (Some v)) id (d_watches st))
    (d_next st) (d_async st) (d_post st) (d_dirty st) (d_phase st) (d_timers st) (d_handled st).
Definition handle (e : js_error) (st : dstate) : dstate :=
  DState (d_heap st) (d_arrays st) (d_watches st) (d_next st) (d_async st) (d_post st) (d_dirty st) (d_phase st) (d_timers st)
    (d_handled st ++ [e]).

Definition clearPhase (st : dstate) : dstate := set_phase None st.
Definition beginPhase (p : phase) (st : dstate) : result js_error unit * dstate :=
  match d_phase st with
  | Some _ => (Throw (JsMinErr (js "$rootScope:inprog")), st)
  | None => (Ok tt, set_phase (Some p) st)
  end.

Definition array_of (st : dstate) (s : nat) : list nat := default [] (d_arrays st !! s).
(** [arrayRemove(array, watcher)]. *)
Definition remove_watch (id : nat) (l : list nat) : list nat := filter (fun x => x <> id) l.

(** [$watch], with the watch's number, and the function it returns. *)
Definition watch (scope : nat) (get : heap -> result js_error hval) (fn : hval -> hval -> act unit) (eq constant : bool)
    (st : dstate) : nat * dstate :=
  let id := d_next st in
  (id, DState (d_heap st) (<[scope := id :: array_of st scope]> (d_arrays st))
         (<[id := Watcher scope get fn eq constant None]> (d_watches st)) (S id)
         (d_async st) (d_post st) None (d_phase st) (d_timers st) (d_handled st)).

Definition drop_watch (id : nat) (st : dstate) : dstate :=
  match d_watches st !! id with
  | Some w => set_array (w_scope w) (remove_watch id (array_of st (w_scope w))) st
  | None => st
  end.
Definition deregisterWatch (id : nat) (st : dstate) : dstate := set_lastDirty None (drop_watch id st).

(** [$evalAsync]: outside of a digest the first task also defers one. *)
Definition evalAsync (task : act hval) (st : dstate) : dstate :=
  let timers := match d_phase st, d_async st with None, [] => S (d_timers st) | _, _ => d_timers st end in
  set_async (d_async st ++ [task]) timers st.

Definition postDigest (fn : act hval) (st : dstate) : dstate := set_post (d_post st ++ [fn]) st.

Definition run_cmd (st : dstate) (c : cmd) : dstate :=
  match c with
  | CWatch scope get fn eq constant => (watch scope get fn eq constant st).2
  | CUnwatch id => deregisterWatch id st
  | CEvalAsync task => evalAsync task st
  | CPostDigest fn => postDigest fn st
  end.

(** Running a function of the application. *)
Definition exec {A} (m : act A) (st : dstate) : result js_error A * dstate :=
  let '(r, h, cs) := m (d_heap st) in (r, fold_left run_cmd cs (set_dheap h st)).

(** ** One watch *)

(** [(value = watch.get(current)) !== (last = watch.last) && !(watch.eq ? equals(value, last) : NaN)]. *)
Definition differs (h : heap) (w : watcher) (value : hval) : result js_error bool :=
  match w_last w with
  | None => Ok true
  | Some last =>
      if strict_eq value last then Ok false
      else if w_eq w then rbind (equals h value last) (fun b => Ok (negb b))
      else Ok (negb (is_NaN value && is_NaN last))
  end.

(** What the watch finds: its new value, or nothing to do, or an exception. *)
Definition probe (h : heap) (w : watcher) : result js_error (option hval) :=
  rbind (w_get w h) (fun value => rbind (differs h w value) (fun b => Ok (if b then Some value else None))).

(** [watch.last = ...; watch.fn(value, last, current)]. *)
Definition fire_watch (id : nat) (w : watcher) (value : hval) (st : dstate) : result js_error unit * dstate :=
  let '(saved, h) := if w_eq w then copy value (d_heap st) else (Ok value, d_heap st) in
  let st := set_dheap h st in
  match saved with
  | Throw e => (Throw e, st)
  | Ok v =>
      let st := set_last id v st in
      let '(r, st) := exec (w_fn w value (default value (w_last w))) st in
      (r, if w_once w && is_ok r then drop_watch id st else st)
  end.

Definition caught {A} (r : result js_error A * dstate) : dstate :=
  match r with (Ok _, st) => st | (Throw e, st) => handle e (clearPhase st) end.

(** The body of the loop on the watchers: [dirty], and whether the traversal breaks. *)
Definition check_watch (id : nat) (st : dstate) (dirty : bool) : dstate * bool * bool :=
  match d_watches st !! id with
  | None => (st, dirty, false)
  | Some w =>
      match probe (d_heap st) w with
      | Throw e => (handle e (clearPhase st), dirty, false)
      | Ok (Some value) => (caught (fire_watch id w value (set_lastDirty (Some id) st)), true, false)
      | Ok None => if decide (d_dirty st = Some id) then (st, false, true) else (st, dirty, false)
      end
  end.

(** [while (length--)]: the watches before the index [n]. *)
Fixpoint scan (n : nat) (s : nat) (st : dstate) (dirty : bool) : dstate * bool * bool :=
  match n with
  | 0 => (st, dirty, false)
  | S n =>
      match array_of st s !! n with
      | Some id =>
          let '(st, dirty, stop) := check_watch id st dirty in
          if stop then (st, dirty, true) else scan n s st dirty
      | None => scan n s st dirty
      end
  end.

(** ** The digest *)

Section Digest.
Context (sc : scopes) (target : nat).

(** The loop on the scopes; a [null] scope is a [TypeError]. *)
Fixpoint traverse (fuel : nat) (current : nat) (st : dstate) (dirty : bool) : result js_error bool * dstate :=
  let '(st, dirty, stop) := scan (length (array_of st current)) current st dirty in
  if stop then (Ok dirty, st)
  else match next_scope (fun _ => true) sc target current, fuel with
       | Some None, _ => (Ok dirty, st)
       | Some (Some next), S fuel => traverse fuel next st dirty
       | _, _ => (Throw JsTypeError, st)
       end.

(** [while (asyncQueue.length)]; [None] when the queue is not empty after [fuel] tasks. *)
Fixpoint run_async (fuel : nat) (st : dstate) : option dstate :=
  match d_async st, fuel with
  | [], _ => Some st
  | task :: q, S fuel => run_async fuel (set_lastDirty None (caught (exec task (set_async q (d_timers st) st))))
  | _ :: _, 0 => None
  end.

(** The rounds: [ttl] is decreased from one to the next, and the digest fails below 0. *)
Fixpoint rounds (ttl : nat) (fuel : nat) (st : dstate) : option (result js_error unit * dstate) :=
  match run_async fuel st with
  | None => None
  | Some st =>
      match traverse (sc_next sc) target st false with
      | (Throw e, st) => Some (Throw e, st)
      | (Ok dirty, st) =>
          if dirty || match d_async st with [] => false | _ => true end then
            match ttl with
            | 0 => Some (Throw (JsMinErr (js "$rootScope:infdig")), clearPhase st)
            | S ttl => rounds ttl fuel st
            end
          else Some (Ok tt, st)
      end
  end.

Definition TTL : nat := 10.

(** [while (postDigestQueue.length)]. *)
Fixpoint run_post (fuel : nat) (st : dstate) : option dstate :=
  match d_post st, fuel with
  | [], _ => Some st
  | fn :: q, S fuel =>
      run_post fuel (match exec fn (set_post q st) with (Ok _, st) => st | (Throw e, st) => handle e st end)
  | _ :: _, 0 => None
  end.

(** [$digest] of the scope [target]; [fuel] bounds the tasks of each queue. *)
Definition digest (fuel : nat) (st : dstate) : option (result js_error unit * dstate) :=
  match beginPhase PhDigest st with
  | (Throw e, st) => Some (Throw e, st)
  | (Ok _, st) =>
      match rounds TTL fuel (set_lastDirty None st) with
      | Some (Ok _, st) => match run_post fuel (clearPhase st) with Some st => Some (Ok tt, st) | None => None end
      | r => r
      end
  end.
End Digest.

(** [$apply(expr)]: the digest is that of the root scope. *)
Definition apply (sc : scopes) (fuel : nat) (expr : act hval) (st : dstate) : option (result js_error hval * dstate) :=
  let '(r, st) :=
    match beginPhase PhApply st with
    | (Ok _, st) => exec expr st
    | (Throw e, st) => (Throw e, st)
    end in
  let '(value, st) := match r with Ok v => (v, st) | Throw e => (HUndef, handle e st) end in
  match digest sc root fuel (clearPhase st) with
  | Some (Ok _, st) => Some (Ok value, st)
  | Some (Throw e, st) => Some (Throw e, handle e st)
  | None => None
  end.

(** The timer of [$evalAsync]. *)
Definition flush_timer (sc : scopes) (fuel : nat) (st : dstate) : option (result js_error unit * dstate) :=
  let st := set_async (d_async st) (pred (d_timers st)) st in
  match d_async st with [] => Some (Ok tt, st) | _ => digest sc root fuel st end.
