(* ===== verification/DigestFacts.v ===== *)
(** * A digest that ends has left no dirty watch *)

From S2P Require Import Prelude JsString JsObject JsNumber UriCodec Json Heap Scope ScopeTree ScopeFacts ScopeVisit Digest.

(** ** The traversal visits the scopes of the subtree in order *)

(** The loop on the watchers, for a list of scopes. *)
Fixpoint sweep (l : list nat) (st : dstate) (dirty : bool) : dstate * bool * bool :=
  match l with
  | [] => (st, dirty, false)
  | s :: l =>
      let '(st, dirty, stop) := scan (length (array_of st s)) s st dirty in
      if stop then (st, dirty, true) else sweep l st dirty
  end.

Lemma sweep_app l1 l2 st dirty :
  sweep (l1 ++ l2) st dirty
  = let '(st1, dirty1, stop) := sweep l1 st dirty in if stop then (st1, dirty1, true) else sweep l2 st1 dirty1.
Proof.
  revert st dirty. induction l1 as [|s l1 IH]; intros st dirty; [done|]. simpl.
  destruct (scan _ s st dirty) as [[st1 d1] [|]]; [done|apply IH].
Qed.

Section Traverse.
Context (sc : scopes) (f : forest) (T : tree sc f) (target : nat).

(** What the traversal does once it knows the next scope. *)
Definition go_on (o : option (option nat)) (fuel : nat) (r : dstate * bool * bool) : result js_error bool * dstate :=
  let '(st, dirty, stop) := r in
  if stop then (Ok dirty, st)
  else match o, fuel with
       | Some None, _ => (Ok dirty, st)
       | Some (Some next), S fuel => traverse sc target fuel next st dirty
       | _, _ => (Throw JsTypeError, st)
       end.

Lemma traverse_unfold fuel i st dirty :
  traverse sc target fuel i st dirty
  = go_on (next_scope (fun _ => true) sc target i) fuel (scan (length (array_of st i)) i st dirty).
Proof. destruct fuel; cbn [traverse]; by destruct (scan _ i st dirty) as [[? ?] [|]]. Qed.

Definition travels (i : nat) : Prop :=
  forall fuel st dirty, length (subtree f i) <= S fuel -> target <= i ->
  traverse sc target fuel i st dirty
  = go_on (climb (sc_next sc) sc target i) (fuel - pred (length (subtree f i))) (sweep (subtree f i) st dirty).

Lemma subtree_size i : attached f i -> 1 <= length (subtree f i).
Proof. intros Hi. rewrite (subtree_unfold _ _ T) by done. simpl. lia. Qed.

Lemma travels_children i c l prev fuel st dirty :
  (forall d, d ∈ children f i -> travels d) -> target <= i ->
  (forall d, d ∈ c :: l -> d ∈ children f i) -> dseg (link_of sc) prev (c :: l) None ->
  length ((c :: l) ≫= subtree f) <= S fuel ->
  traverse sc target fuel c st dirty
  = go_on (climb (sc_next sc) sc target i) (fuel - pred (length ((c :: l) ≫= subtree f))) (sweep ((c :: l) ≫= subtree f) st dirty).
Proof.
  intros HV Ht. revert c prev fuel st dirty. induction l as [|d l IH]; intros c prev fuel st dirty Hin Hseg Hfuel.
  all: rewrite bind_cons in Hfuel |- *; rewrite length_app in Hfuel |- *; rewrite sweep_app.
  all: assert (Hc : c ∈ children f i) by (apply Hin; left); destruct (child_of _ _ T _ _ Hc) as (_ & Ha & Hlt & _).
  all: pose proof (subtree_size c Ha) as Hs; rewrite (HV c Hc) by lia.
  all: rewrite (climb_child _ _ T target i c prev _ Ht Hseg Hc).
  all: destruct (sweep (subtree f c) st dirty) as [[st1 d1] [|]]; [done|].
  - cbn [mbind list_bind length sweep]. by rewrite Nat.add_0_r.
  - assert (Hd : d ∈ children f i) by (apply Hin; right; left). destruct (child_of _ _ T _ _ Hd) as (_ & Had & _ & _).
    pose proof (subtree_size d Had) as Hsd. rewrite bind_cons, length_app in Hfuel.
    unfold go_on at 1. destruct (fuel - pred (length (subtree f c))) as [|f2] eqn:Ef; [lia|].
    rewrite (IH d (Some c) f2); [|intros x Hx; apply Hin; by right|apply Hseg|rewrite bind_cons, length_app; lia].
    rewrite bind_cons, length_app. f_equal. lia.
Qed.

Lemma travels_all i : attached f i -> travels i.
Proof.
  revert i. apply (scope_ind _ _ T travels). intros i Hi HV fuel st dirty Hfuel Ht. rewrite traverse_unfold.
  rewrite (subtree_unfold _ _ T) in Hfuel |- * by done. cbn [length pred sweep] in *.
  destruct (scan _ i st dirty) as [[st1 d1] [|]]; [done|].
  pose proof Hi as [cs Hcs]. pose proof (t_links _ _ T _ _ Hcs) as Hseg.
  destruct (t_node _ _ T _ _ Hcs) as (r & Hr & _ & Hh & _). unfold next_scope. rewrite Hr, Hh.
  assert (Echild : children f i = cs) by (unfold children; by rewrite Hcs). rewrite Echild in *.
  destruct cs as [|c l].
  - cbn [head mbind list_bind length sweep]. by rewrite Nat.sub_0_r.
  - cbn [head]. unfold go_on at 1. destruct fuel as [|fuel].
    { rewrite bind_cons, length_app in Hfuel. assert (Hc : c ∈ children f i) by (rewrite Echild; left).
      destruct (child_of _ _ T _ _ Hc) as (_ & Ha & _). pose proof (subtree_size c Ha). lia. }
    rewrite (travels_children i c l None fuel); [|by rewrite Echild|done|by rewrite Echild|done|lia].
    destruct (length ((c :: l) ≫= subtree f)) as [|k] eqn:Ek; [|done].
    rewrite bind_cons, length_app in Ek. assert (Hc : c ∈ children f i) by (rewrite Echild; left).
    destruct (child_of _ _ T _ _ Hc) as (_ & Ha & _). pose proof (subtree_size c Ha). lia.
Qed.

(** The whole traversal: it ends normally, having swept the subtree of [target]. *)
Lemma traverse_spec st dirty : attached f target ->
  traverse sc target (sc_next sc) target st dirty
  = let '(st', dirty', _) := sweep (subtree f target) st dirty in (Ok dirty', st').
Proof.
  intros Hi. rewrite travels_all; [|done| |done].
  - assert (Hclimb : climb (sc_next sc) sc target target = Some None)
      by (destruct (sc_next sc); cbn [climb]; by rewrite decide_True).
    rewrite Hclimb. unfold go_on. by destruct (sweep _ st dirty) as [[? ?] [|]].
  - rewrite (t_next _ _ T). pose proof (subtree_length _ _ T target Hi). lia.
Qed.
End Traverse.

(** ** Well-formed watchers *)

(** The watches of an array belong to its scope, once; numbers are not reused. *)
Record watches_wf (st : dstate) : Prop := {
  ww_nodup s : NoDup (array_of st s);
  ww_scope s id : id ∈ array_of st s -> exists w, d_watches st !! id = Some w /\ w_scope w = s;
  ww_next id : is_Some (d_watches st !! id) -> id < d_next st
}.

(** Functions of the application change the arrays by commands only. *)
Definition same_watches (st st' : dstate) : Prop :=
  d_arrays st' = d_arrays st /\ d_watches st' = d_watches st /\ d_next st' = d_next st.

Lemma wf_same st st' : same_watches st st' -> watches_wf st -> watches_wf st'.
Proof.
  intros (Ea & Ew & En) [H1 H2 H3]. unfold array_of in *. split; unfold array_of; rewrite ?Ea, ?Ew, ?En; [exact H1|exact H2|exact H3].
Qed.

Lemma array_set st s l s' : array_of (set_array s l st) s' = if decide (s = s') then l else array_of st s'.
Proof.
  unfold array_of. simpl. case_decide as E; [subst; by rewrite lookup_insert_eq|by rewrite lookup_insert_ne].
Qed.

Lemma wf_drop id st : watches_wf st -> watches_wf (drop_watch id st).
Proof.
  intros W. unfold drop_watch. destruct (d_watches st !! id) as [w|] eqn:E; [|done]. destruct W as [H1 H2 H3].
  split; [| |done].
  - intros s. rewrite array_set. case_decide; [by apply NoDup_filter|done].
  - intros s x. rewrite array_set. case_decide as Es; [|apply H2].
    intros [_ Hx]%list_elem_of_filter. simpl. subst s. by apply H2.
Qed.

Lemma wf_watch scope get fn eq constant st : watches_wf st -> watches_wf (watch scope get fn eq constant st).2.
Proof.
  intros [H1 H2 H3]. assert (Hnew : forall s, d_next st ∉ array_of st s).
  { intros s (w & E & _)%H2. assert (d_next st < d_next st); [|lia]. apply H3. by eexists. }
  assert (Ha : forall s, array_of (watch scope get fn eq constant st).2 s
                = if decide (scope = s) then d_next st :: array_of st s else array_of st s).
  { intros s. unfold array_of at 1. simpl. case_decide as E; [subst; by rewrite lookup_insert_eq|by rewrite lookup_insert_ne]. }
  split.
  - intros s. rewrite Ha. case_decide; [by apply NoDup_cons_2|done].
  - intros s id. rewrite Ha. simpl. intros Hin. destruct (decide (id = d_next st)) as [->|Hne].
    + rewrite lookup_insert_eq. case_decide as E; [by eexists|by apply Hnew in Hin].
    + rewrite lookup_insert_ne by done. apply H2. case_decide; [|done]. by apply elem_of_cons in Hin as [?|?].
  - intros id. simpl. destruct (decide (id = d_next st)) as [->|Hne]; [lia|]. rewrite lookup_insert_ne by done.
    intros ?%H3. lia.
Qed.

Lemma wf_cmd st c : watches_wf st -> watches_wf (run_cmd st c).
Proof.
  intros W. destruct c; cbn [run_cmd]; [by apply wf_watch| |by apply (wf_same st)|by apply (wf_same st)].
  by apply (wf_same (drop_watch id st)), wf_drop.
Qed.

Lemma wf_cmds cs st : watches_wf st -> watches_wf (fold_left run_cmd cs st).
Proof. revert st. induction cs as [|c cs IH]; intros st W; [done|]. by apply IH, wf_cmd. Qed.

Lemma wf_exec {A} (m : act A) st : watches_wf st -> watches_wf (exec m st).2.
Proof. intros W. unfold exec. destruct (m (d_heap st)) as [[r h] cs]. simpl. by apply wf_cmds, (wf_same st). Qed.

Lemma wf_last id v st : watches_wf st -> watches_wf (set_last id v st).
Proof.
  intros [H1 H2 H3]. split; [done| |].
  - intros s x (w & E & Es)%H2. simpl. destruct (decide (x = id)) as [->|].
    + rewrite lookup_alter_eq, E. by eexists.
    + rewrite lookup_alter_ne by done. by exists w.
  - intros x. simpl. destruct (decide (x = id)) as [->|].
    + rewrite lookup_alter_eq. intros [w Hw]. apply H3. destruct (d_watches st !! id); [by eexists|done].
    + rewrite lookup_alter_ne by done. apply H3.
Qed.

Lemma wf_caught {A} (r : result js_error A * dstate) : watches_wf r.2 -> watches_wf (caught r).
Proof. destruct r as [[a|e] st]; [done|]. by apply (wf_same st). Qed.

Lemma wf_fire id w v st : watches_wf st -> watches_wf (fire_watch id w v st).2.
Proof.
  intros W. unfold fire_watch. destruct (if w_eq w then _ else _) as [[x|e] h]; [|by apply (wf_same st)].
  assert (W' : watches_wf (set_last id x (set_dheap h st))) by (by apply wf_last, (wf_same st)).
  pose proof (wf_exec (w_fn w v (default v (w_last w))) _ W') as W''.
  destruct (exec _ _) as [r st']. destruct (w_once w && is_ok r); [by apply wf_drop|done].
Qed.

Lemma wf_check id st dirty : watches_wf st -> watches_wf (check_watch id st dirty).1.1.
Proof.
  intros W. unfold check_watch. destruct (d_watches st !! id) as [w|]; [|done].
  destruct (probe (d_heap st) w) as [[v|]|e]; [|by case_decide|by apply (wf_same st)].
  by apply wf_caught, wf_fire, (wf_same st).
Qed.

(** ** What a dirty watch leaves *)

(** Either [lastDirtyWatch] is forgotten, or the arrays are as they were. *)
Definition keeps_arrays (st st' : dstate) : Prop :=
  d_dirty st' = None \/ d_dirty st' = d_dirty st /\ d_arrays st' = d_arrays st.

Lemma keeps_cmds cs st : keeps_arrays st (fold_left run_cmd cs st).
Proof.
  revert st. induction cs as [|c cs IH]; intros st; [by right|]. cbn [fold_left].
  assert (H : keeps_arrays st (run_cmd st c)) by (destruct c; first [by left|by right]).
  destruct (IH (run_cmd st c)) as [?|[E1 E2]]; [by left|]. destruct H as [H|[F1 F2]]; [left|right].
  - by rewrite E1.
  - by rewrite E1, E2.
Qed.

Lemma drop_absent id st s : watches_wf st -> id ∉ array_of (drop_watch id st) s.
Proof.
  intros W Hin. unfold drop_watch in Hin. destruct (d_watches st !! id) as [w|] eqn:E.
  - rewrite array_set in Hin. case_decide as Es; [by apply list_elem_of_filter in Hin as [? _]|].
    destruct (ww_scope _ W _ _ Hin) as (w' & E' & Es'). congruence.
  - destruct (ww_scope _ W _ _ Hin) as (w' & E' & _). congruence.
Qed.

(** After a dirty watch: it is no longer the last dirty one, or no array changed, or it has been removed. *)
Lemma fire_keeps id w v st :
  watches_wf st -> d_dirty st = Some id ->
  let st' := caught (fire_watch id w v st) in
  d_dirty st' = None \/ d_dirty st' = Some id /\ (d_arrays st' = d_arrays st \/ forall s, id ∉ array_of st' s).
Proof.
  intros W Hd. unfold fire_watch. destruct (if w_eq w then _ else _) as [[x|e] h]; [|right; split; [done|by left]].
  assert (W' : watches_wf (set_last id x (set_dheap h st))) by (by apply wf_last, (wf_same st)).
  pose proof (wf_exec (w_fn w v (default v (w_last w))) _ W') as W''. unfold exec in *.
  destruct (w_fn w v _ _) as [[r h'] cs]. simpl in W''.
  pose proof (keeps_cmds cs (set_dheap h' (set_last id x (set_dheap h st)))) as K. simpl in K.
  set (st1 := fold_left run_cmd cs _) in *. clearbody st1. unfold keeps_arrays in K. simpl in K.
  assert (K' : d_dirty st1 = None \/ d_dirty st1 = Some id /\ d_arrays st1 = d_arrays st).
  { destruct K as [?|[E1 E2]]; [by left|right]. by rewrite E1. }
  clear K. destruct (w_once w && is_ok r) eqn:Eo.
  - apply andb_true_iff in Eo as [_ Hr]. destruct r as [u|]; [|done]. simpl.
    assert (Ed : d_dirty (drop_watch id st1) = d_dirty st1) by (unfold drop_watch; by destruct (d_watches st1 !! id)).
    rewrite Ed. destruct K' as [K'|[K' _]]; [by left|right]. split; [done|right]. intros s. by apply drop_absent.
  - destruct r; simpl; destruct K' as [?|[? ?]]; auto.
Qed.

(** ** The order of the watches *)

(** The watches of a list of scopes, in the order of the loops. *)
Definition order (st : dstate) (l : list nat) : list nat := l ≫= (fun s => rev (array_of st s)).

(** A watch whose function finds no change, or throws. *)
Definition quiet (st : dstate) (id : nat) : Prop :=
  forall w v, d_watches st !! id = Some w -> probe (d_heap st) w <> Ok (Some v).

(** The states of the heap, the watches and the arrays are the same. *)
Definition still (st st' : dstate) : Prop :=
  d_heap st' = d_heap st /\ d_arrays st' = d_arrays st /\ d_watches st' = d_watches st /\ d_next st' = d_next st.

Lemma still_quiet st st' id : still st st' -> quiet st id -> quiet st' id.
Proof. intros (E1 & _ & E3 & _) Q w v. rewrite E1, E3. apply Q. Qed.
Lemma still_order st st' l : still st st' -> order st' l = order st l.
Proof. intros (_ & E2 & _). unfold order, array_of. by rewrite E2. Qed.
Lemma still_wf st st' : still st st' -> watches_wf st -> watches_wf st'.
Proof. intros (_ & E2 & E3 & E4). by apply wf_same. Qed.

Lemma order_nodup st l : watches_wf st -> NoDup l -> NoDup (order st l).
Proof.
  intros W Hl. apply NoDup_bind; [|intros s _|done].
  - intros s s' id Hs Hs'. rewrite <- !Permutation_rev. intros (w & E & <-)%(ww_scope _ W) (w' & E' & <-)%(ww_scope _ W). congruence.
  - rewrite <- Permutation_rev. by apply ww_nodup.
Qed.

Lemma nodup_split (l1 l2 k1 k2 : list nat) x :
  NoDup (l1 ++ x :: l2) -> l1 ++ x :: l2 = k1 ++ x :: k2 -> l1 = k1 /\ l2 = k2.
Proof.
  revert k1. induction l1 as [|y l1 IH]; intros [|z k1] Hn E; simpl in *.
  - by injection E as <-.
  - injection E as E1 E2. subst. apply NoDup_cons in Hn as [Hn _]. destruct Hn. apply elem_of_app. right. left.
  - injection E as E1 E2. subst. apply NoDup_cons in Hn as [Hn _]. destruct Hn. apply elem_of_app. right. left.
  - injection E as -> E. apply NoDup_cons in Hn as [_ Hn]. destruct (IH k1 Hn E) as [-> ->]. done.
Qed.

(** ** The invariant of a round

    [seen] and [rest] split the order of the watches at the place the loops have reached. *)
Section Round.
Context (scopes_of : list nat) (Nodup : NoDup scopes_of).

Record round_inv (st : dstate) (seen rest : list nat) (dirty : bool) : Prop := {
  ri_wf : watches_wf st;
  ri_order : order st scopes_of = seen ++ rest;
  ri_clean : dirty = false -> Forall (quiet st) seen;
  ri_last w : d_dirty st = Some w -> w ∈ order st scopes_of ->
    exists pre post, order st scopes_of = pre ++ w :: post /\
      (if dirty then exists mid, post = mid ++ rest /\ Forall (quiet st) mid else Forall (quiet st) post)
}.

(** The loops end with all watches quiet. *)
Definition all_quiet (st : dstate) : Prop := watches_wf st /\ Forall (quiet st) (order st scopes_of).

Lemma inv_still st st' seen rest dirty :
  still st st' -> d_dirty st' = d_dirty st -> round_inv st seen rest dirty -> round_inv st' seen rest dirty.
Proof.
  intros S Ed [W O C L]. assert (Q : forall l, Forall (quiet st) l -> Forall (quiet st') l).
  { intros l H. eapply Forall_impl; [exact H|]. intros id. by apply still_quiet. }
  split; [by eapply still_wf|by rewrite (still_order _ _ _ S)|by intros ?%C%Q|].
  intros w. rewrite Ed, (still_order _ _ _ S). intros Hw Hin. destruct (L w Hw Hin) as (pre & post & E & H).
  exists pre, post. split; [done|]. destruct dirty; [|by apply Q]. destruct H as (mid & -> & H). exists mid. split; [done|by apply Q].
Qed.

(** A watch that is quiet is seen. *)
Lemma inv_seen st seen id rest dirty :
  quiet st id -> round_inv st seen (id :: rest) dirty -> round_inv st (seen ++ [id]) rest dirty.
Proof.
  intros Q [W O C L]. split; [done|by rewrite <- app_assoc| |].
  - intros ?%C. by apply Forall_app_2; [|constructor].
  - intros w Hw Hin. destruct (L w Hw Hin) as (pre & post & E & H). exists pre, post. split; [done|].
    destruct dirty; [|done]. destruct H as (mid & -> & H). exists (mid ++ [id]). split; [by rewrite <- app_assoc|].
    by apply Forall_app_2; [|constructor].
Qed.

(** The last dirty watch being quiet, all are. *)
Lemma inv_stop st seen id rest dirty :
  d_dirty st = Some id -> quiet st id -> round_inv st seen (id :: rest) dirty -> all_quiet st.
Proof.
  intros Hd Q [W O C L]. split; [done|]. assert (Hn : NoDup (order st scopes_of)) by by apply order_nodup.
  destruct (L id Hd) as (pre & post & E & H); [rewrite O; apply elem_of_app; right; left|].
  rewrite O in Hn, E. destruct (nodup_split _ _ _ _ _ Hn E) as [-> ->]. rewrite O. destruct dirty.
  - exfalso. destruct H as (mid & E' & _). rewrite E' in Hn. apply NoDup_app in Hn as (_ & _ & Hn).
    apply NoDup_cons in Hn as [Hn _]. apply Hn, elem_of_app. right. left.
  - apply Forall_app. split; [by apply C|by constructor].
Qed.

(** ** The loops *)

Section Scope.
Context (before after : list nat) (s : nat) (Split : scopes_of = before ++ s :: after).

Definition seen_of (st : dstate) (n : nat) : list nat := order st before ++ rev (drop n (array_of st s)).
Definition rest_of (st : dstate) (n : nat) : list nat := rev (take n (array_of st s)) ++ order st after.

Lemma order_split st n : order st scopes_of = seen_of st n ++ rest_of st n.
Proof.
  unfold seen_of, rest_of, order. rewrite Split, bind_app, bind_cons. rewrite <- (take_drop n (array_of st s)) at 1.
  rewrite rev_app_distr, <- !app_assoc. done.
Qed.

Lemma at_index st n id : array_of st s !! n = Some id ->
  rest_of st (S n) = id :: rest_of st n /\ seen_of st n = seen_of st (S n) ++ [id].
Proof.
  intros E. unfold rest_of, seen_of. rewrite (take_S_r _ _ id) by done. rewrite (drop_S _ id n) by done.
  rewrite rev_app_distr. simpl. by rewrite <- app_assoc.
Qed.

Lemma past_end st n : array_of st s !! n = None -> rest_of st (S n) = rest_of st n /\ seen_of st n = seen_of st (S n).
Proof.
  intros E%lookup_ge_None. unfold rest_of, seen_of. by rewrite !take_ge, !drop_ge by lia.
Qed.

Lemma check_inv st n id dirty :
  array_of st s !! n = Some id -> round_inv st (seen_of st (S n)) (rest_of st (S n)) dirty ->
  let '(st', dirty', stop) := check_watch id st dirty in
  if stop then dirty' = false /\ all_quiet st' else round_inv st' (seen_of st' n) (rest_of st' n) dirty'.
Proof.
  intros E I. destruct (at_index _ _ _ E) as [Er Es]. rewrite Er in I. assert (W := ri_wf _ _ _ _ I).
  destruct (ww_scope _ W s id) as (w & Ew & _); [by eapply list_elem_of_lookup_2|].
  pose proof (wf_check id st dirty W) as W'. unfold check_watch in *. rewrite Ew in *.
  destruct (probe (d_heap st) w) as [[v|]|e] eqn:Ep.
  - clear W'. assert (W1 : watches_wf (set_lastDirty (Some id) st)) by (by apply (wf_same st)).
    pose proof (fire_keeps id w v _ W1 eq_refl) as K. pose proof (wf_fire id w v _ W1) as W2. apply wf_caught in W2.
    set (st' := caught _) in *. clearbody st'. simpl in K. split; [done|apply order_split|done|].
    intros x Hx Hin. destruct K as [K|[K [Ka|Ka]]]; rewrite K in Hx; [done|..]; injection Hx as <-.
    + assert (Ha : forall s', array_of st' s' = array_of st s') by (intros s'; unfold array_of; by rewrite Ka).
      assert (Eo : order st' scopes_of = order st scopes_of) by (unfold order, array_of; by rewrite Ka).
      exists (seen_of st (S n)), (rest_of st n). rewrite Eo, (order_split st (S n)), Er. split; [done|].
      exists []. split; [|done]. unfold rest_of, order, array_of. by rewrite Ka.
    + unfold order in Hin. apply list_elem_of_bind in Hin as (s' & Hin & _). rewrite <- Permutation_rev in Hin. by apply Ka in Hin.
  - assert (Q : quiet st id) by (intros w' v'; rewrite Ew; intros [= <-]; by rewrite Ep).
    case_decide as Hd; [split; [done|]; by eapply inv_stop|]. rewrite Es. by apply inv_seen.
  - assert (Q : quiet st id) by (intros w' v'; rewrite Ew; intros [= <-]; by rewrite Ep).
    assert (S : still st (handle e (clearPhase st))) by by split_and!.
    apply (inv_still _ _ _ _ _ S); [done|]. unfold seen_of, rest_of, order, array_of in *. cbn [d_arrays handle clearPhase set_phase].
    rewrite Es. by apply inv_seen.
Qed.

Lemma scan_inv n st dirty :
  round_inv st (seen_of st n) (rest_of st n) dirty ->
  let '(st', dirty', stop) := scan n s st dirty in
  if stop then dirty' = false /\ all_quiet st' else round_inv st' (order st' (before ++ [s])) (order st' after) dirty'.
Proof.
  revert st dirty. induction n as [|n IH]; intros st dirty I; cbn [scan].
  - unfold seen_of, rest_of in I. unfold order at 1. rewrite bind_app, bind_cons. by rewrite app_nil_r.
  - destruct (array_of st s !! n) as [id|] eqn:E.
    + pose proof (check_inv st n id dirty E I) as H. destruct (check_watch id st dirty) as [[st' d'] [|]]; [done|by apply IH].
    + destruct (past_end _ _ E) as [Er Es]. apply IH. by rewrite Es, <- Er.
Qed.
End Scope.

Lemma sweep_inv before l st dirty :
  scopes_of = before ++ l -> round_inv st (order st before) (order st l) dirty ->
  let '(st', dirty', stop) := sweep l st dirty in
  if stop then dirty' = false /\ all_quiet st' else round_inv st' (order st' scopes_of) [] dirty'.
Proof.
  revert before st dirty. induction l as [|s l IH]; intros before st dirty Hs I; cbn [sweep].
  - rewrite Hs, app_nil_r. done.
  - assert (I0 : round_inv st (seen_of before s st (length (array_of st s))) (rest_of l s st (length (array_of st s))) dirty).
    { unfold seen_of, rest_of. rewrite drop_all, take_ge, app_nil_r by done. unfold order in I. by rewrite bind_cons in I. }
    pose proof (scan_inv before l s Hs _ st dirty I0) as H. destruct (scan _ s st dirty) as [[st' d'] [|]]; [done|].
    apply (IH (before ++ [s])); [by rewrite <- app_assoc|done].
Qed.
End Round.
