(* ===== verification/DigestEnd.v ===== *)
(** * The end of a digest: every watch is clean, a second digest does nothing, and it comes *)

From Stdlib Require Import QArith.
From S2P Require Import Prelude JsString JsObject JsNumber UriCodec Json Heap Scope ScopeTree ScopeFacts ScopeVisit ScopeNew ScopeDestroy Digest DigestFacts.
#[local] Open Scope nat_scope.

(** Only the phase and the log of exceptions differ. *)
Definition logs (st st' : dstate) : Prop :=
  still st st' /\ d_async st' = d_async st /\ d_post st' = d_post st /\ d_dirty st' = d_dirty st.

#[global] Instance still_refl : Reflexive still.
Proof. intros st. by split_and!. Qed.
#[global] Instance logs_refl : Reflexive logs.
Proof. intros st. by split_and!. Qed.
#[global] Instance logs_trans : Transitive logs.
Proof.
  intros a b c ((A1 & A2 & A3 & A4) & A5 & A6 & A7) ((B1 & B2 & B3 & B4) & B5 & B6 & B7).
  unfold logs, still. split_and!; congruence.
Qed.

(** ** Quiet watches change nothing *)

Lemma check_quiet id st dirty :
  quiet st id -> d_dirty st = None -> exists st', check_watch id st dirty = (st', dirty, false) /\ logs st st'.
Proof.
  intros Q Hd. unfold check_watch. destruct (d_watches st !! id) as [w|] eqn:E; [|by exists st].
  specialize (Q w). destruct (probe (d_heap st) w) as [[v|]|e]; [by destruct (Q v)|rewrite Hd; by exists st|].
  eexists. split; [done|]. by split_and!.
Qed.

Lemma scan_quiet n s st dirty :
  (forall id, id ∈ array_of st s -> quiet st id) -> d_dirty st = None ->
  exists st', scan n s st dirty = (st', dirty, false) /\ logs st st'.
Proof.
  revert st. induction n as [|n IH]; intros st Q Hd; cbn [scan]; [by exists st|].
  destruct (array_of st s !! n) as [id|] eqn:E; [|by apply IH].
  destruct (check_quiet id st dirty) as (st1 & -> & L1); [by apply Q; eapply list_elem_of_lookup_2|done|].
  assert (S1 := proj1 L1). destruct (IH st1) as (st2 & -> & L2).
  - intros x Hx. eapply still_quiet; [exact S1|]. apply Q. unfold array_of in *. by rewrite (proj1 (proj2 S1)) in Hx.
  - by rewrite (proj2 (proj2 (proj2 L1))).
  - exists st2. split; [done|by etrans].
Qed.

Lemma sweep_quiet l st dirty :
  Forall (quiet st) (order st l) -> d_dirty st = None -> exists st', sweep l st dirty = (st', dirty, false) /\ logs st st'.
Proof.
  revert st. induction l as [|s l IH]; intros st Q Hd; cbn [sweep]; [by exists st|].
  unfold order in Q. rewrite bind_cons in Q. apply Forall_app in Q as [Qs Q]. rewrite Forall_forall in Qs.
  destruct (scan_quiet (length (array_of st s)) s st dirty) as (st1 & -> & L1); [|done|].
  { intros id Hid. apply Qs. by rewrite <- Permutation_rev. }
  assert (S1 := proj1 L1). destruct (IH st1) as (st2 & -> & L2).
  - fold (order st l) in Q. rewrite (still_order _ _ _ S1). eapply Forall_impl; [exact Q|]. intros id. by apply still_quiet.
  - by rewrite (proj2 (proj2 (proj2 L1))).
  - exists st2. split; [done|by etrans].
Qed.

(** ** The rounds *)

Section Rounds.
Context (sc : scopes) (f : forest) (T : tree sc f) (target : nat) (Ht : attached f target).
Local Abbreviation V := (subtree f target).

(** A round begins. *)
Definition starts (st : dstate) : Prop := round_inv V st [] (order st V) false.

Lemma starts_none st : watches_wf st -> d_dirty st = None -> starts st.
Proof. intros W Hd. split; [done|done|by constructor|]. intros w Hw. congruence. Qed.

Lemma starts_again st : round_inv V st (order st V) [] true -> starts st.
Proof.
  intros [W O C L]. split; [done|done|by constructor|]. intros w Hw Hin.
  destruct (L w Hw Hin) as (pre & post & E & mid & -> & H). exists pre, (mid ++ []). split; [done|]. by rewrite app_nil_r.
Qed.

Lemma run_async_starts fuel st st' : starts st -> run_async fuel st = Some st' -> starts st' /\ d_async st' = [].
Proof.
  revert st. induction fuel as [|fuel IH]; intros st H; cbn [run_async]; destruct (d_async st) as [|task q] eqn:E; try done.
  - by intros [= <-].
  - by intros [= <-].
  - apply IH, starts_none; [|done]. apply (wf_same (caught (exec task (set_async q (d_timers st) st)))); [done|].
    apply wf_caught, wf_exec, (wf_same st); [done|]. apply H.
Qed.

Lemma traverse_starts st :
  starts st -> exists d st', traverse sc target (sc_next sc) target st false = (Ok d, st') /\
    if d then starts st' else all_quiet V st'.
Proof.
  intros H. rewrite (traverse_spec sc f T target) by done.
  assert (HV : NoDup V) by by apply (subtree_nodup _ _ T).
  pose proof (sweep_inv V HV [] V st false eq_refl H) as S. destruct (sweep V st false) as [[st' d'] [|]].
  - destruct S as [-> S]. by exists false, st'.
  - exists d', st'. split; [done|]. destruct d'; [by apply starts_again|]. destruct S as [W O C L].
    split; [done|by apply C].
Qed.

Lemma rounds_quiet ttl fuel st st' :
  starts st -> rounds sc target ttl fuel st = Some (Ok tt, st') -> d_async st' = [] /\ all_quiet V st'.
Proof.
  revert st. induction ttl as [|ttl IH]; intros st H; cbn [rounds];
    (destruct (run_async fuel st) as [st1|] eqn:E; [|done]);
    destruct (run_async_starts _ _ _ H E) as [H1 _];
    destruct (traverse_starts st1 H1) as (d & st2 & -> & H2);
    destruct d; cbn [orb]; try done; try (by apply IH);
    destruct (d_async st2) eqn:Eq; try done; try (by intros [= <-]).
  intros Hr. eapply IH; [|exact Hr]. destruct H2 as [W Q]. split; [done|done|by constructor|]. intros w Hw Hin.
  apply list_elem_of_split in Hin as (pre & post & Eo). exists pre, post. split; [done|].
  rewrite Eo in Q. apply Forall_app in Q as [_ Q]. by apply Forall_cons in Q as [_ Q].
Qed.

Lemma rounds_again ttl fuel st :
  Forall (quiet st) (order st V) -> d_async st = [] -> d_dirty st = None ->
  exists st', rounds sc target ttl fuel st = Some (Ok tt, st') /\ logs st st'.
Proof.
  intros Q Ha Hd. assert (Hr : run_async fuel st = Some st) by (destruct fuel; cbn [run_async]; by rewrite Ha).
  destruct (sweep_quiet V st false Q Hd) as (st' & E & L). exists st'. split; [|done].
  assert (Et : traverse sc target (sc_next sc) target st false = (Ok false, st'))
    by (rewrite (traverse_spec sc f T target) by done; by rewrite E).
  destruct ttl; cbn [rounds]; rewrite Hr, Et; cbn [orb]; by rewrite (proj1 (proj2 L)), Ha.
Qed.
End Rounds.

(** C21: when [$digest] ends normally, then before the functions of [$$postDigest] are called
    the queue of [$evalAsync] is empty and every watch of the scope and of its descendants is
    clean, or throws, although the last round stops at the last dirty watch, although listeners
    add and remove watches during the loops and although functions throw.  If there is no
    function to call, a second [$digest] finds nothing to do: it leaves the heap, the watches
    and the queues as they are. *)
Theorem digest_clean sc f target fuel st st2 :
  tree sc f -> attached f target -> watches_wf st -> digest sc target fuel st = Some (Ok tt, st2) ->
  exists st1, d_async st1 = [] /\
    (forall s id, s ∈ subtree f target -> id ∈ array_of st1 s -> quiet st1 id) /\
    run_post fuel (clearPhase st1) = Some st2 /\
    (d_post st1 = [] -> forall fuel', exists st3, digest sc target fuel' st2 = Some (Ok tt, st3) /\ still st2 st3 /\ d_async st3 = []).
Proof.
  intros T Ht W. unfold digest at 1. unfold beginPhase. destruct (d_phase st); [by intros [= ? ?]|].
  assert (H0 : starts f target (set_lastDirty None (set_phase (Some PhDigest) st))) by (apply starts_none; [by apply (wf_same st)|done]).
  destruct (rounds sc target TTL fuel _) as [[[[]|e] st1]|] eqn:E; [|by intros [= ? ?]|done].
  destruct (rounds_quiet sc f T target Ht _ _ _ _ H0 E) as [Ha [W1 Q]].
  destruct (run_post fuel (clearPhase st1)) as [st2'|] eqn:Ep; [|done]. intros [= ->]. exists st1.
  split; [done|]. split; [|split; [done|]].
  - intros s id Hs Hid. rewrite Forall_forall in Q. apply Q, list_elem_of_bind. exists s. split; [|done]. by rewrite <- Permutation_rev.
  - intros Hp fuel'. assert (E2 : st2 = clearPhase st1).
    { destruct fuel; cbn [run_post] in Ep; change (d_post (clearPhase st1)) with (d_post st1) in Ep; rewrite Hp in Ep; congruence. }
    subst st2. unfold digest, beginPhase. cbn [clearPhase set_phase d_phase].
    destruct (rounds_again sc f T target Ht TTL fuel' (set_lastDirty None (set_phase (Some PhDigest) (clearPhase st1)))) as (st3 & -> & L).
    + exact Q.
    + exact Ha.
    + done.
    + destruct L as (S & L1 & L2 & _). exists (clearPhase st3). split_and!; [|apply S..|exact (eq_trans L1 Ha)].
      destruct fuel'; cbn [run_post]; change (d_post (clearPhase st3)) with (d_post st3); rewrite L2;
        change (d_post (set_lastDirty None (set_phase (Some PhDigest) (clearPhase st1)))) with (d_post st1); by rewrite Hp.
Qed.

(** ** A digest of two scopes *)

Definition two_scopes : scopes := match scope_new false root new_scopes with Ok (_, st) => st | Throw _ => new_scopes end.
Definition two_forest : forest := (f_step new_forest (New false root)).1.

Lemma two_tree : tree two_scopes two_forest /\ attached two_forest root.
Proof.
  assert (Hr : attached new_forest root) by by eexists.
  destruct (new_represents _ _ false root new_represents_root Hr) as (st' & E & R & _).
  unfold two_scopes. rewrite E. split; [exact R|]. by eexists.
Qed.

(** Object 0 is the data: the watch of the root copies [a] to [b], with a task that raises [c];
    the watch of the child compares [list] by its contents; a third one throws. *)
Definition put (k : lit) (v : hval) (h : heap) : heap :=
  match h_store h !! 0 with Some (OObj p o) => heap_set 0 (OObj p (ob_set o (js k) v)) h | _ => h end.
Arguments put k%_string_scope v h.
Definition read (k : lit) (h : heap) : result js_error hval := Ok (obj_get h 0 (js k)).
Arguments read k%_string_scope h.

Definition sample_digest : dstate :=
  let h := Heap (<[0 := OObj None [(js "a", HNum (Fin 1)); (js "list", HRef 1)]]> (<[1 := OArr [HNum (Fin 5)]]> ∅)) 2 in
  let st := DState h ∅ ∅ 0 [] [] None None 0 [] in
  let raise : act hval := fun h => (Ok HUndef, put "c" (HBool true) h, []) in
  let st := (watch root (read "a") (fun v _ h => (Ok tt, put "b" v h, [CEvalAsync raise])) false false st).2 in
  let st := (watch root (fun _ => Throw JsTypeError) (fun _ _ h => (Ok tt, h, [])) false false st).2 in
  let st := (watch 1 (read "list") (fun _ _ h => (Ok tt, put "a" (HNum (Fin 2)) h, [])) true false st).2 in
  evalAsync (fun h => (Ok HUndef, put "a" (HNum (Fin 3)) h, [])) st.

Definition digested : dstate :=
  match digest two_scopes root 5 sample_digest with Some (_, st) => st | None => sample_digest end.

Lemma digested_ok : digest two_scopes root 5 sample_digest = Some (Ok tt, digested).
Proof.
  assert (H : match digest two_scopes root 5 sample_digest with Some (Ok _, _) => true | _ => false end = true) by by vm_compute.
  unfold digested. by destruct (digest two_scopes root 5 sample_digest) as [[[[]|e] st]|].
Qed.

Example digest_values :
  map (fun k => obj_get (d_heap digested) 0 k) [js "a"; js "b"; js "c"] = [HNum (Fin 2); HNum (Fin 2); HBool true].
Proof. by vm_compute. Qed.

Lemma sample_wf : watches_wf sample_digest.
Proof.
  unfold sample_digest. cbv zeta. apply (wf_cmd _ (CEvalAsync _)). repeat apply wf_watch.
  split; [intros s; apply NoDup_nil_2|by intros s id ?%elem_of_nil|by intros id [? ?]].
Qed.

Lemma digest_clean_witness :
  exists st1, d_async st1 = [] /\
    (forall s id, s ∈ subtree two_forest root -> id ∈ array_of st1 s -> quiet st1 id) /\
    run_post 5 (clearPhase st1) = Some digested /\
    (d_post st1 = [] -> forall fuel', exists st3, digest two_scopes root fuel' digested = Some (Ok tt, st3) /\ still digested st3 /\ d_async st3 = []).
Proof.
  exact (digest_clean two_scopes two_forest root 5 sample_digest digested (proj1 two_tree) (proj2 two_tree) sample_wf digested_ok).
Defined.
