(* ===== verification/DigestCalm.v ===== *)
(** * A digest whose functions ask for no further task ends *)

From Stdlib Require Import QArith.
From S2P Require Import Prelude JsString JsObject JsNumber UriCodec Json Heap Scope ScopeTree ScopeFacts ScopeVisit Digest DigestFacts DigestEnd.
#[local] Open Scope nat_scope.

(** Commands that add and remove watches only, and so do the listeners of the watches added. *)
Inductive calm : cmd -> Prop :=
| calm_unwatch id : calm (CUnwatch id)
| calm_watch scope get fn eq constant :
    (forall v v' h, Forall calm (fn v v' h).2) -> calm (CWatch scope get fn eq constant).

Definition calm_act {A} (m : act A) : Prop := forall h, Forall calm (m h).2.

Record calm_state (st : dstate) : Prop := {
  cs_watch id w : d_watches st !! id = Some w -> forall v v', calm_act (w_fn w v v');
  cs_async : Forall calm_act (d_async st);
  cs_post : Forall calm_act (d_post st)
}.

(** The queues are those of [st]. *)
Definition same_queues (st st' : dstate) : Prop := d_async st' = d_async st /\ d_post st' = d_post st.
Definition calmly (st st' : dstate) : Prop := calm_state st' /\ same_queues st st'.

Lemma calmly_trans a b c : calmly a b -> calmly b c -> calmly a c.
Proof. intros [_ [A1 A2]] [H [B1 B2]]. split; [done|]. split; congruence. Qed.

Lemma calm_same st st' :
  d_watches st' = d_watches st -> same_queues st st' -> calm_state st -> calmly st st'.
Proof. intros E [Q1 Q2] [H1 H2 H3]. split; [|done]. split; by rewrite ?E, ?Q1, ?Q2. Qed.

(** Neither the watches nor the queues change. *)
Ltac calm_frame st := apply (calm_same st); [done|by split|done].

Lemma calm_drop id st : calm_state st -> calmly st (drop_watch id st).
Proof. intros [H1 H2 H3]. unfold drop_watch. by destruct (d_watches st !! id). Qed.

Lemma calm_cmd st c : calm_state st -> calm c -> calmly st (run_cmd st c).
Proof.
  intros S Hc. destruct Hc as [id|scope get fn eq constant Hfn]; cbn [run_cmd].
  - eapply calmly_trans; [by apply (calm_drop id st)|]. apply calm_same; [done|by split|by apply calm_drop].
  - destruct S as [H1 H2 H3]. split; [|done]. split; [|done..].
    intros id w. simpl. destruct (decide (id = d_next st)) as [->|].
    + rewrite lookup_insert_eq. intros [= <-] v v' h. apply Hfn.
    + rewrite lookup_insert_ne by done. apply H1.
Qed.

Lemma calm_cmds cs st : calm_state st -> Forall calm cs -> calmly st (fold_left run_cmd cs st).
Proof.
  intros S H. revert st S. induction H as [|c cs Hc Hcs IH]; intros st S; [by split|]. cbn [fold_left].
  pose proof (calm_cmd st c S Hc) as C. eapply calmly_trans; [exact C|]. apply IH, C.
Qed.

Lemma calm_exec {A} (m : act A) st : calm_state st -> calm_act m -> calmly st (exec m st).2.
Proof.
  intros S Hm. unfold exec. specialize (Hm (d_heap st)). destruct (m (d_heap st)) as [[r h] cs]. simpl in *.
  destruct (calm_cmds cs (set_dheap h st)) as [S' HQ]; [calm_frame st|done|by split].
Qed.

Lemma calm_caught {A} (r : result js_error A * dstate) st : calmly st r.2 -> calmly st (caught r).
Proof. destruct r as [[a|e] st']; [done|]. intros C. eapply calmly_trans; [exact C|]. apply calm_same; [done|by split|apply C]. Qed.

Lemma calm_fire id w v st :
  calm_state st -> (forall v v', calm_act (w_fn w v v')) -> calmly st (fire_watch id w v st).2.
Proof.
  intros S Hw. unfold fire_watch. destruct (if w_eq w then _ else _) as [[x|e] h]; [|calm_frame st].
  assert (S1 : calm_state (set_last id x (set_dheap h st))).
  { destruct S as [H1 H2 H3]. split; [|done..]. intros i w'. simpl. destruct (decide (i = id)) as [->|].
    - rewrite lookup_alter_eq. destruct (d_watches st !! id) as [w0|] eqn:E; [|done]. intros [= <-]. intros v1 v2. exact (H1 _ _ E v1 v2).
    - rewrite lookup_alter_ne by done. apply H1. }
  pose proof (calm_exec (w_fn w v (default v (w_last w))) _ S1 (Hw _ _)) as [S2 Q2].
  destruct (exec _ _) as [r st2]. simpl in *. destruct (w_once w && is_ok r); [|done].
  destruct (calm_drop id st2 S2) as [S3 Q3]. eapply calmly_trans; [split; [exact S2|exact Q2]|by split].
Qed.

Lemma calm_check id st dirty : calm_state st -> calmly st (check_watch id st dirty).1.1.
Proof.
  intros S. unfold check_watch. destruct (d_watches st !! id) as [w|] eqn:E; [|by split].
  destruct (probe (d_heap st) w) as [[v|]|e].
  - apply calm_caught. destruct (calm_fire id w v (set_lastDirty (Some id) st)) as [S' HQ]; [calm_frame st| |by split].
    by apply (cs_watch _ S _ _ E).
  - case_decide; calm_frame st.
  - calm_frame st.
Qed.

Lemma calm_scan n s st dirty : calm_state st -> calmly st (scan n s st dirty).1.1.
Proof.
  revert st dirty. induction n as [|n IH]; intros st dirty S; cbn [scan]; [by split|].
  destruct (array_of st s !! n) as [id|]; [|by apply IH]. pose proof (calm_check id st dirty S) as C.
  destruct (check_watch id st dirty) as [[st' d'] [|]]; [done|]. eapply calmly_trans; [exact C|]. apply IH, C.
Qed.

Lemma calm_sweep l st dirty : calm_state st -> calmly st (sweep l st dirty).1.1.
Proof.
  revert st dirty. induction l as [|s l IH]; intros st dirty S; cbn [sweep]; [by split|].
  pose proof (calm_scan (length (array_of st s)) s st dirty S) as C.
  destruct (scan _ s st dirty) as [[st' d'] [|]]; [done|]. eapply calmly_trans; [exact C|]. apply IH, C.
Qed.

(** ** The queues *)

Lemma calm_run_async fuel st :
  calm_state st -> length (d_async st) <= fuel ->
  exists st', run_async fuel st = Some st' /\ calm_state st' /\ d_async st' = [] /\ d_post st' = d_post st.
Proof.
  revert st. induction fuel as [|fuel IH]; intros st S Hl; cbn [run_async];
    destruct (d_async st) as [|task q] eqn:E; simpl in Hl; try lia; try (by exists st).
  assert (Hq := cs_async _ S). rewrite E in Hq. apply Forall_cons in Hq as [Ht Hq].
  assert (S1 : calm_state (set_async q (d_timers st) st)) by (destruct S; by split).
  destruct (calm_caught _ _ (calm_exec task _ S1 Ht)) as [S2 [Q1 Q2]].
  destruct (IH (set_lastDirty None (caught (exec task (set_async q (d_timers st) st))))) as (st' & Hr & S3 & Ha & Hp).
  - destruct S2; by split.
  - simpl. rewrite Q1. simpl. lia.
  - exists st'. split_and!; [done..|]. rewrite Hp. exact Q2.
Qed.

Lemma calm_run_post fuel st :
  calm_state st -> length (d_post st) <= fuel -> exists st', run_post fuel st = Some st'.
Proof.
  revert st. induction fuel as [|fuel IH]; intros st S Hl; cbn [run_post];
    destruct (d_post st) as [|fn q] eqn:E; simpl in Hl; try lia; try (by exists st).
  assert (Hq := cs_post _ S). rewrite E in Hq. apply Forall_cons in Hq as [Hf Hq].
  assert (S1 : calm_state (set_post q st)) by (destruct S; by split).
  destruct (calm_exec fn _ S1 Hf) as [S2 [_ Q2]]. destruct (exec fn (set_post q st)) as [[v|e] st2]; simpl in *.
  - apply IH; [done|]. rewrite Q2. simpl. lia.
  - apply IH; [destruct S2; by split|]. simpl. rewrite Q2. simpl. lia.
Qed.

Definition infdig : js_error := JsMinErr (js "$rootScope:infdig").
Definition inprog : js_error := JsMinErr (js "$rootScope:inprog").

Lemma calm_rounds sc f target ttl fuel st :
  tree sc f -> attached f target -> calm_state st -> length (d_async st) <= fuel ->
  exists r st', rounds sc target ttl fuel st = Some (r, st') /\ calm_state st' /\ d_post st' = d_post st /\
    (r = Ok tt \/ r = Throw infdig).
Proof.
  intros T Ht. revert st. induction ttl as [|ttl IH]; intros st S Hl; cbn [rounds];
    destruct (calm_run_async fuel st S Hl) as (st1 & -> & S1 & Ha & Hp); rewrite (traverse_spec sc f T target) by done;
    pose proof (calm_sweep (subtree f target) st1 false S1) as [S2 [Q1 Q2]];
    destruct (sweep _ st1 false) as [[st2 d] ?]; simpl in S2, Q1, Q2; rewrite Q1, Ha; destruct d; cbn [orb].
  - eexists _, _. split; [done|]. destruct S2. split_and!; [by split|by rewrite <- Hp, <- Q2|by right].
  - eexists _, _. split; [done|]. split_and!; [done|by rewrite <- Hp, <- Q2|by left].
  - destruct (IH st2 S2) as (r & st3 & E & S3 & P3 & H3); [by rewrite Q1, Ha; simpl; lia|].
    exists r, st3. split_and!; [done..|congruence|done].
  - eexists _, _. split; [done|]. split_and!; [done|by rewrite <- Hp, <- Q2|by left].
Qed.


(** A listener that writes one more than the new value. *)
Definition copy_to (k : lit) : hval -> hval -> act unit :=
  fun v _ h => (Ok tt, put k (match v with HNum n => HNum (num_add n (Fin 1)) | _ => v end) h, []).
Arguments copy_to k%_string_scope.

(** Two listeners that undo each other's work. *)
Definition unstable : dstate :=
  let h := Heap {[0 := OObj None [(js "a", HNum (Fin 0)); (js "b", HNum (Fin 0))]]} 1 in
  let st := DState h ∅ ∅ 0 [] [] None None 0 [] in
  let st := (watch root (read "a") (copy_to "b") false false st).2 in
  (watch root (read "b") (copy_to "a") false false st).2.

Lemma unstable_calm : calm_state unstable.
Proof.
  assert (E : forall s get fn c st, calm (CWatch s get fn false c) -> calm_state st -> calm_state (watch s get fn false c st).2).
  { intros s get fn c st Hc S. exact (proj1 (calm_cmd st _ S Hc)). }
  unfold unstable. cbv zeta. do 2 (apply E; [by constructor; intros; constructor|]).
  split; [|constructor|constructor]. intros id w H. simpl in H. by rewrite lookup_empty in H.
Qed.

