(* ===== verification/Eval.v ===== *)
(** * The evaluation of Angular expressions (angular.js, OPERATORS, Parser, setter, getterFn)

    An expression runs on a heap, with a scope, and the object of locals if there is one.  What
    the language provides is a record: the members of its built-in prototypes, the calls of
    functions, the conversion of objects to primitive values, the prototype setter; so are the
    filters.  Arrays, dates and functions have no named properties of their own: writing one
    has no effect here.  The option [unwrapPromises] is off, as by default. *)

From Stdlib Require Import QArith Qround.
From S2P Require Import Prelude JsString JsObject JsNumber UriCodec Json Heap Lexer Parser.
#[local] Open Scope nat_scope.
Local Open Scope handler_scope.

Abbreviation run A := (handler heap A).

(** The built-in prototypes. *)
Inductive kind : Type := KPrimitive | KObject | KArray | KDate | KRegExp | KFunction.
Definition kind_of (h : heap) (v : hval) : kind :=
  match v with
  | HRef r => match h_store h !! r with
              | Some (OArr _) => KArray
              | Some (ODate _) => KDate
              | Some (ORegExp _ _) => KRegExp
              | Some (OFun _) => KFunction
              | _ => KObject
              end
  | HNative _ => KFunction
  | _ => KPrimitive
  end.

Record host : Type := Host {
  ho_member : kind -> hval -> jstr -> hval;            (** a member of the built-in prototype of a value *)
  ho_call : hval -> hval -> list hval -> run hval;     (** a function applied to [this] and arguments *)
  ho_primitive : bool -> hval -> run hval;             (** ToPrimitive of an object; [true] is the hint string *)
  ho_set_proto : nat -> hval -> run unit;              (** [o.__proto__ = v] *)
  ho_Object : hval;
  ho_special : list hval;                              (** [CALL], [APPLY], [BIND] *)
  ho_filter : jstr -> hval -> list hval -> run hval    (** the filter of a name, with [self] *)
}.

Section Eval.
Context (ho : host).

(** ** Reading and writing properties *)

(** The own property of the object or of its prototypes. *)
Fixpoint chain_find (fuel : nat) (h : heap) (r : nat) (k : jstr) : option hval :=
  match h_store h !! r with
  | Some (OObj proto o) =>
      match ob_get o k, proto, fuel with
      | Some v, _, _ => Some v
      | None, Some p, S fuel => chain_find fuel h p k
      | None, _, _ => None
      end
  | Some (OArr l) =>
      if jeqb k (js "length") then Some (HNum (fin_of_Z (Z.of_nat (length l))))
      else if is_index k then l !! N.to_nat (dec_val k) else None
  | _ => None
  end.

(** [v[k]]. *)
Definition read (h : heap) (v : hval) (k : jstr) : result js_error hval :=
  match v with
  | HUndef | HNull => Throw JsTypeError
  | HRef r => Ok (match chain_find (h_next h) h r k with Some x => x | None => ho_member ho (kind_of h v) v k end)
  | HStr s =>
      Ok (if jeqb k (js "length") then HNum (fin_of_Z (Z.of_nat (length s)))
          else match (if is_index k then s !! N.to_nat (dec_val k) else None) with
               | Some c => HStr [c]
               | None => ho_member ho (kind_of h v) v k
               end)
  | _ => Ok (ho_member ho (kind_of h v) v k)
  end.
Definition get_prop (v : hval) (k : jstr) : run hval := fun h => (read h v k, h).

(** [array.length = n], [array[i] = x]. *)
Definition set_length (n : nat) (l : list hval) : list hval := take n l ++ repeat HUndef (n - length l).
Definition set_item (i : nat) (x : hval) (l : list hval) : list hval :=
  if Nat.ltb i (length l) then <[i := x]> l else l ++ repeat HUndef (i - length l) ++ [x].

(** [v[k] = x] in strict mode. *)
Definition set_prop (v : hval) (k : jstr) (x : hval) : run unit := fun h =>
  match v with
  | HRef r =>
      if jeqb k (js "__proto__") then ho_set_proto ho r x h
      else match h_store h !! r with
           | Some (OObj proto o) => (Ok tt, heap_set r (OObj proto (ob_set o k x)) h)
           | Some (OArr l) =>
               if jeqb k (js "length") then
                 match x with
                 | HNum (Fin q) =>
                     if (Qeq_bool (inject_Z (Qfloor q)) q && (0 <=? Qfloor q)%Z && (Qfloor q <? 2 ^ 32)%Z)%bool
                     then (Ok tt, heap_set r (OArr (set_length (Z.to_nat (Qfloor q)) l)) h)
                     else (Throw JsRangeError, h)
                 | _ => (Throw JsRangeError, h)
                 end
               else if is_index k then (Ok tt, heap_set r (OArr (set_item (N.to_nat (dec_val k)) x l)) h)
               else (Ok tt, h)
           | _ => (Ok tt, h)
           end
  | HNative _ => (Ok tt, h)
  | _ => (Throw JsTypeError, h)
  end.

Definition new_object (o : hobj) : run hval := fun h => let '(r, h) := heap_alloc o h in (Ok (HRef r), h).

(** ** Conversions *)

Definition is_object (v : hval) : bool := match v with HRef _ | HNative _ => true | _ => false end.
Definition is_nullish (v : hval) : bool := match v with HUndef | HNull => true | _ => false end.

(** The text and the number of a primitive value. *)
Definition prim_json (v : hval) : json :=
  match v with
  | HUndef => JUndef | HNull => JNull | HBool b => JBool b | HNum n => JNum n | HStr s => JStr s
  | HNative _ | HRef _ => JUndef
  end.
Definition prim_text (v : hval) : jstr := jtext (prim_json v).
Definition prim_num (v : hval) : num := jnumber (prim_json v).

Definition to_prim (hint_string : bool) (v : hval) : run hval :=
  if is_object v then
    p <- ho_primitive ho hint_string v ;;
    if is_object p then hthrow JsTypeError else hret p
  else hret v.
Definition to_text (v : hval) : run jstr := p <- to_prim true v ;; hret (prim_text p).
Definition to_num (v : hval) : run num := p <- to_prim false v ;; hret (prim_num p).

(** [x % y]: the sign is that of [x]. *)
Definition num_rem (x y : num) : num :=
  match x, y with
  | Fin a, Fin b =>
      if (Qnum b =? 0)%Z then NaN
      else let q := (a / b)%Q in
           let t := if (Qnum q <? 0)%Z then (- Qfloor (- q))%Z else Qfloor q in
           Fin (a - inject_Z t * b)%Q
  | Fin a, Inf _ => Fin a
  | _, _ => NaN
  end.

Fixpoint str_lt (s t : jstr) : bool :=
  match s, t with
  | _, [] => false
  | [], _ :: _ => true
  | c :: s, d :: t => if (c <? d)%N then true else if (c =? d)%N then str_lt s t else false
  end.
Definition num_le (x y : num) : bool :=
  match x, y with NaN, _ | _, NaN => false | _, _ => negb (num_lt y x) end.

(** [a < b] and [a <= b] on primitive values. *)
Definition prim_lt (a b : hval) : bool :=
  match a, b with HStr s, HStr t => str_lt s t | _, _ => num_lt (prim_num a) (prim_num b) end.
Definition prim_le (a b : hval) : bool :=
  match a, b with HStr s, HStr t => negb (str_lt t s) | _, _ => num_le (prim_num a) (prim_num b) end.

(** [a == b]. *)
Definition loose_eq (a b : hval) : run bool :=
  if is_nullish a || is_nullish b then hret (is_nullish a && is_nullish b)
  else if is_object a && is_object b then hret (strict_eq a b)
  else
    a <- to_prim false a ;; b <- to_prim false b ;;
    hret (match a, b with
          | HStr s, HStr t => jeqb s t
          | _, _ => negb (is_nullish a) && negb (is_nullish b) && num_eqb (prim_num a) (prim_num b)
          end).

(** [a + b]. *)
Definition js_add (a b : hval) : run hval :=
  a <- to_prim false a ;; b <- to_prim false b ;;
  hret (match a, b with
        | HStr _, _ | _, HStr _ => HStr (prim_text a ++ prim_text b)
        | _, _ => HNum (num_add (prim_num a) (prim_num b))
        end).

Definition arith (f : num -> num -> num) (a b : hval) : run hval :=
  x <- to_num a ;; y <- to_num b ;; hret (HNum (f x y)).
Definition compare_prim (f : hval -> hval -> bool) (a b : hval) : run hval :=
  a <- to_prim false a ;; b <- to_prim false b ;; hret (HBool (f a b)).

(** ** [OPERATORS] on two values; [&&] and [||] are in [eval]. *)
Definition op_is (op : jstr) (s : lit) : bool := jeqb op (js s).
Arguments op_is op s%_string_scope.

Definition binary_op (op : jstr) (a b : hval) : run hval :=
  if op_is op "+" then
    if negb (is_undefined a) then (if negb (is_undefined b) then js_add a b else hret a)
    else hret (if negb (is_undefined b) then b else HUndef)
  else if op_is op "-" then
    arith num_sub (if is_undefined a then HNum (Fin 0) else a) (if is_undefined b then HNum (Fin 0) else b)
  else if op_is op "*" then arith num_mul a b
  else if op_is op "/" then arith num_div a b
  else if op_is op "%" then arith num_rem a b
  else if op_is op "===" then hret (HBool (strict_eq a b))
  else if op_is op "!==" then hret (HBool (negb (strict_eq a b)))
  else if op_is op "==" then e <- loose_eq a b ;; hret (HBool e)
  else if op_is op "!=" then e <- loose_eq a b ;; hret (HBool (negb e))
  else if op_is op "<" then compare_prim prim_lt a b
  else if op_is op ">" then compare_prim (fun a b => prim_lt b a) a b
  else if op_is op "<=" then compare_prim prim_le a b
  else if op_is op ">=" then compare_prim (fun a b => prim_le b a) a b
  else hret HUndef.

(** ** Safety checks *)

Definition ensureSafeName (name : hval) : run unit :=
  match name with
  | HStr s => if bool_decide (s ∈ unsafe_names) then hthrow (parse_error "isecfld") else hret tt
  | _ => hret tt
  end.

Fixpoint all_truthy (v : hval) (ks : list jstr) : run bool :=
  match ks with
  | [] => hret true
  | k :: ks => x <- get_prop v k ;; if htruthy x then all_truthy v ks else hret false
  end.

Definition ensureSafeObject (obj : hval) : run hval :=
  if htruthy obj then
    constructor <- get_prop obj (js "constructor") ;;
    if strict_eq constructor obj then hthrow (parse_error "isecfn")
    else
      is_window <- all_truthy obj (words "document location alert setInterval") ;;
      if is_window then hthrow (parse_error "isecwindow")
      else
        has_children <- all_truthy obj (words "children") ;;
        is_element <- (if has_children then
                         has_name <- all_truthy obj (words "nodeName") ;;
                         if has_name then hret true else all_truthy obj (words "prop attr find")
                       else hret false) ;;
        if is_element then hthrow (parse_error "isecdom")
        else if strict_eq obj (ho_Object ho) then hthrow (parse_error "isecobj")
        else hret obj
  else hret obj.

Definition ensureSafeFunction (obj : hval) : run unit :=
  if htruthy obj then
    constructor <- get_prop obj (js "constructor") ;;
    if strict_eq constructor obj then hthrow (parse_error "isecfn")
    else if existsb (strict_eq obj) (ho_special ho) then hthrow (parse_error "isecff")
    else hret tt
  else hret tt.

(** ** Paths *)

(** [locals && locals.hasOwnProperty(key0)]. *)
Definition has_own (h : heap) (locals : option nat) (k : jstr) : bool :=
  match locals with
  | Some r => match h_store h !! r with Some (OObj _ o) => ob_has o k | _ => false end
  | None => false
  end.
Definition pick (locals : option nat) (k : jstr) (scope : hval) : run hval := fun h =>
  (Ok (match locals with Some r => if has_own h locals k then HRef r else scope | None => scope end), h).

Definition simpleGetterFn1 (key0 : jstr) (scope : hval) (locals : option nat) : run hval :=
  if is_nullish scope then hret HUndef
  else s <- pick locals key0 scope ;; get_prop s key0.

Definition simpleGetterFn2 (key0 key1 : jstr) (scope : hval) (locals : option nat) : run hval :=
  if is_nullish scope then hret HUndef
  else
    s <- pick locals key0 scope ;;
    scope <- get_prop s key0 ;;
    if is_nullish scope then hret HUndef else get_prop scope key1.

(** [cspSafeGetterFn] on at most five keys: a missing or empty key ends the path. *)
Fixpoint csp_rest (keys : list jstr) (pathVal : hval) : run hval :=
  match keys with
  | [] | [] :: _ => hret pathVal
  | k :: keys => if is_nullish pathVal then hret HUndef else v <- get_prop pathVal k ;; csp_rest keys v
  end.
Definition cspSafeGetter (keys : list jstr) (scope : hval) (locals : option nat) : run hval :=
  match keys with
  | [] => hret scope
  | key0 :: keys =>
      pathVal <- pick locals key0 scope ;;
      if is_nullish pathVal then hret pathVal else v <- get_prop pathVal key0 ;; csp_rest keys v
  end.

(** [do { val = cspSafeGetterFn(five keys)(scope, locals); locals = undefined } while (i < length)]. *)
Fixpoint csp_chunks (fuel : nat) (keys : list jstr) (scope : hval) (locals : option nat) : run hval :=
  val <- cspSafeGetter (take 5 keys) scope locals ;;
  match drop 5 keys, fuel with
  | [], _ => hret val
  | keys, S fuel => csp_chunks fuel keys val None
  | _, 0 => hret val
  end.

(** The function generated for a longer path. *)
Fixpoint rest_getter (keys : list jstr) (s : hval) : run hval :=
  match keys with
  | [] => hret s
  | k :: keys => if is_nullish s then hret HUndef else s <- get_prop s k ;; rest_getter keys s
  end.
Definition evaledFnGetter (keys : list jstr) (s : hval) (locals : option nat) : run hval :=
  match keys with
  | [] => hret s
  | k :: keys =>
      if is_nullish s then hret HUndef
      else s' <- pick locals k s ;; s <- get_prop s' k ;; rest_getter keys s
  end.

Definition getterFn (path : jstr) (scope : hval) (locals : option nat) : run hval :=
  match split (chr ".") path with
  | [k] => simpleGetterFn1 k scope locals
  | [k0; k1] => simpleGetterFn2 k0 k1 scope locals
  | keys => evaledFnGetter keys scope locals
  end.

(** The same when the page has a content security policy ([options.csp]). *)
Definition getterFn_csp (path : jstr) (scope : hval) (locals : option nat) : run hval :=
  match split (chr ".") path with
  | [k] => simpleGetterFn1 k scope locals
  | [k0; k1] => simpleGetterFn2 k0 k1 scope locals
  | keys => if Nat.ltb (length keys) 6 then cspSafeGetter keys scope locals else csp_chunks (length keys) keys scope locals
  end.

(** [setter], on the keys of the path. *)
Fixpoint setter_keys (obj : hval) (element : list jstr) (setValue : hval) : run hval :=
  match element with
  | [] => hret setValue
  | [key] =>
      ensureSafeName (HStr key) ;;;
      ensureSafeObject obj ;;;
      old <- get_prop obj key ;; ensureSafeObject old ;;;
      set_prop obj key setValue ;;; hret setValue
  | key :: element =>
      ensureSafeName (HStr key) ;;;
      propertyObj <- get_prop obj key ;;
      propertyObj <- (if htruthy propertyObj then hret propertyObj
                      else o <- new_object (OObj None []) ;; set_prop obj key o ;;; hret o) ;;
      setter_keys propertyObj element setValue
  end.
Definition setter (obj : hval) (path : jstr) (setValue : hval) : run hval := setter_keys obj (split (chr ".") path) setValue.

(** ** Expressions *)

Definition hconst (v : json) : hval :=
  match v with
  | JNull => HNull | JBool b => HBool b | JNum n => HNum n | JStr s => HStr s
  | _ => HUndef
  end.

Section MapRun.
Context {A : Type} (f : A -> run hval).
Fixpoint map_run (l : list A) : run (list hval) :=
  match l with
  | [] => hret []
  | x :: l => v <- f x ;; vs <- map_run l ;; hret (v :: vs)
  end.
(** The last value, or [undefined]. *)
Fixpoint last_run (value : hval) (l : list A) : run hval :=
  match l with [] => hret value | x :: l => v <- f x ;; last_run v l end.
End MapRun.

(** [fnPtr.apply ? fnPtr.apply(context, args) : fnPtr(...)]. *)
Definition invoke (fnPtr context : hval) (args : list hval) : run hval := fun h =>
  if isFunction h fnPtr then ho_call ho fnPtr context args h
  else
    (apply <- get_prop fnPtr (js "apply") ;;
     array <- new_object (OArr args) ;;
     (fun h => if isFunction h apply then ho_call ho apply fnPtr [context; array] h else (Throw JsTypeError, h))) h.

Section Scope.
Context (scope : hval) (locals : option nat).

Definition object_index (o i : hval) : run hval :=
  ensureSafeName i ;;;
  if htruthy o then k <- to_text i ;; v <- get_prop o k ;; ensureSafeObject v else hret HUndef.

(** The properties of an object literal. *)
Fixpoint set_all (r : hval) (kvs : list (jstr * hval)) : run unit :=
  match kvs with [] => hret tt | (k, v) :: kvs => set_prop r k v ;;; set_all r kvs end.

Fixpoint eval (e : expr) : run hval :=
  match e with
  | EConst v => hret (hconst v)
  | EOperator op => if op_is op "=" then hret HUndef else hthrow JsTypeError
  | EPath ident => getterFn ident scope locals
  | EBin op l r =>
      a <- eval l ;;
      if op_is op "&&" then (if htruthy a then eval r else hret a)
      else if op_is op "||" then (if htruthy a then hret a else eval r)
      else b <- eval r ;; binary_op op a b
  | ENot e => v <- eval e ;; hret (HBool (negb (htruthy v)))
  | ETernary c a b => v <- eval c ;; if htruthy v then eval a else eval b
  | EArray es => vs <- map_run eval es ;; new_object (OArr vs)
  | EObject kvs =>
      (* the object is made first *)
      r <- new_object (OObj None []) ;;
      (fix fields kvs := match kvs with
                         | [] => hret tt
                         | kv :: kvs => v <- eval kv.2 ;; set_prop r kv.1 v ;;; fields kvs
                         end) kvs ;;;
      hret r
  | EField o field => self <- eval o ;; getterFn field self None
  | EIndex o i => o <- eval o ;; i <- eval i ;; object_index o i
  | ECall fn contextGetter args =>
      context <- (match contextGetter with Some c => eval c | None => hret scope end) ;;
      args <- map_run eval args ;;
      fnPtr <- (match fn with
                | EField o field => self <- (if htruthy context then hret context else eval o) ;; getterFn field self None
                | _ => eval fn
                end) ;;
      ensureSafeObject context ;;;
      (if htruthy fnPtr then
         ensureSafeFunction fnPtr ;;; v <- invoke fnPtr context args ;; ensureSafeObject v
       else hret HUndef)
  | EFilter e name args =>
      input <- eval e ;; args <- map_run eval args ;; ho_filter ho name scope (input :: args)
  | EAssign l r =>
      value <- eval r ;;
      match l with
      | EPath ident => setter scope ident value
      | EField o field => o <- eval o ;; setter o field value
      | EIndex o i =>
          key <- eval i ;; o <- eval o ;; safe <- ensureSafeObject o ;;
          k <- to_text key ;; set_prop safe k value ;;; hret value
      | _ => hret HUndef
      end
  | EStatements es => last_run eval HUndef es
  end.
End Scope.
End Eval.
Arguments op_is op s%_string_scope.

(** ** [$parse] *)

Section Parse.
Context (has_filter : jstr -> bool).

(** [$parse(exp)] of a string, with the cache of the service. *)
Definition parse_service (exp : jstr) (cache : gmap jstr expr) : result parse_failure expr * gmap jstr expr :=
  match cache !! exp with
  | Some e => (Ok e, cache)
  | None =>
      match parse has_filter exp with
      | Ok e => (Ok e, if jeqb exp (js "hasOwnProperty") then cache else <[exp := e]> cache)
      | Throw e => (Throw e, cache)
      end
  end.
End Parse.

(** [scope.$eval(text)]. *)
Definition eval_text (ho : host) (has_filter : jstr -> bool) (text : jstr) (scope : hval) (locals : option nat)
    : run (result parse_failure hval) :=
  match parse has_filter text with
  | Ok e => v <- eval ho scope locals e ;; hret (Ok v)
  | Throw e => hret (Throw e)
  end.
