(* ===== verification/EvalFacts.v ===== *)
(** * Getters, constant expressions and the cache of [$parse] *)

From S2P Require Import Prelude JsString JsObject JsNumber UriCodec Json Heap Lexer Parser Eval.
Local Open Scope handler_scope.

(** Running the first half of a sequence. *)
Ltac step E := rewrite !(hbind_ok _ _ _ _ _ E); cbv beta.

(** ** The getters *)

Section Getters.
Context (ho : host).

(** Two results that agree, [null] and [undefined] being the same. *)
Definition same_value (a b : result js_error hval * heap) : Prop :=
  a.2 = b.2 /\ (a.1 = b.1 \/ exists v w, a.1 = Ok v /\ b.1 = Ok w /\ is_nullish v = true /\ is_nullish w = true).

Lemma same_refl a : same_value a a.
Proof. split; [done|by left]. Qed.

Lemma get_prop_run v k h : is_nullish v = false -> exists x, get_prop ho v k h = (Ok x, h).
Proof. destruct v; try done; intros _; by eexists. Qed.

(** The rest of a path from a value that is [null] or [undefined]. *)
Lemma rest_nullish keys v h : is_nullish v = true -> same_value (rest_getter ho keys v h) (Ok v, h).
Proof.
  intros Hv. destruct keys as [|k keys]; cbn [rest_getter]; [apply same_refl|]. rewrite Hv. split; [done|right].
  by exists HUndef, v.
Qed.

Lemma same_trans a b c : same_value a b -> same_value b c -> same_value a c.
Proof.
  intros [H1 [E1|(v & w & A & B & C & D)]] [H2 [E2|(v' & w' & A' & B' & C' & D')]]; (split; [congruence|]).
  - left. congruence.
  - right. exists v', w'. by rewrite E1.
  - right. exists v, w. by rewrite <- E2.
  - right. exists v, w'. done.
Qed.
Lemma same_sym a b : same_value a b -> same_value b a.
Proof. intros [H [E|(v & w & A & B & C & D)]]; (split; [done|]); [by left|right]. by exists w, v. Qed.

(** A chunk of keys, then the rest of the path. *)
Lemma csp_rest_spec n keys v h : [] ∉ keys -> length keys <= n ->
  same_value (csp_rest ho keys v h) (rest_getter ho keys v h).
Proof.
  revert keys v. induction n as [|n IH]; intros keys v Hk Hl; (destruct keys as [|k keys]; [apply same_refl|]); simpl in Hl; [lia|].
  assert (Hne : k <> []) by (intros ->; apply Hk; left). destruct k as [|c k]; [done|].
  cbn [csp_rest rest_getter]. destruct (is_nullish v) eqn:Ev; [apply same_refl|].
  destruct (get_prop_run v (c :: k) h Ev) as [x Ex]. step Ex. apply IH; [|lia].
  intros Hin. apply Hk. by right.
Qed.

Lemma rest_app k1 k2 v h x h' :
  rest_getter ho k1 v h = (Ok x, h') -> same_value (rest_getter ho (k1 ++ k2) v h) (rest_getter ho k2 x h').
Proof.
  revert v. induction k1 as [|k k1 IH]; intros v; cbn [rest_getter app].
  - intros [= <- <-]. apply same_refl.
  - destruct (is_nullish v) eqn:Ev.
    + intros [= <- <-]. apply same_sym, rest_nullish. done.
    + destruct (get_prop_run v k h Ev) as [y Ey]. step Ey. apply IH.
Qed.

Lemma rest_total keys v h : exists x, rest_getter ho keys v h = (Ok x, h).
Proof.
  revert v. induction keys as [|k keys IH]; intros v; cbn [rest_getter]; [by eexists|].
  destruct (is_nullish v) eqn:Ev; [by eexists|]. destruct (get_prop_run v k h Ev) as [y Ey]. step Ey. apply IH.
Qed.

(** From two values that agree. *)
Lemma rest_same keys v w h : same_value (Ok v, h) (Ok w, h) -> same_value (rest_getter ho keys v h) (rest_getter ho keys w h).
Proof.
  intros [_ [[= <-]|(v' & w' & [= <-] & [= <-] & Hv & Hw)]]; [apply same_refl|].
  eapply same_trans; [by apply rest_nullish|]. apply same_sym. eapply same_trans; [by apply rest_nullish|].
  split; [done|right]. by exists w, v.
Qed.

(** Without locals the generated getter is [rest_getter]. *)
Lemma evaled_rest keys s h : keys <> [] -> evaledFnGetter ho keys s None h = rest_getter ho keys s h.
Proof. destruct keys as [|k keys]; [done|]. intros _. cbn [evaledFnGetter rest_getter]. by destruct (is_nullish s). Qed.

Lemma pick_run locals k s h :
  exists t, pick locals k s h = (Ok t, h) /\ (is_nullish s = false -> is_nullish t = false) /\ (locals = None -> t = s).
Proof. unfold pick. eexists. split; [done|]. destruct locals as [r|]; [|done]. split; [|done]. by destruct (has_own _ _ _). Qed.

Lemma csp_getter_spec keys s locals h :
  [] ∉ keys -> keys <> [] -> is_nullish s = false \/ locals = None ->
  same_value (cspSafeGetter ho keys s locals h) (evaledFnGetter ho keys s locals h).
Proof.
  intros Hk Hne Hs. destruct keys as [|k keys]; [done|]. cbn [cspSafeGetter evaledFnGetter].
  destruct (pick_run locals k s h) as (t & Et & Ht1 & Ht2). step Et.
  destruct (is_nullish s) eqn:Es.
  - destruct Hs as [Hs|Hs]; [done|]. rewrite (Ht2 Hs), Es. split; [done|right]. by exists s, HUndef.
  - rewrite Ht1 by done. step Et. destruct (get_prop_run t k h (Ht1 eq_refl)) as [x Ex].
    step Ex. apply (csp_rest_spec (length keys)); [|done]. intros Hin. apply Hk. by right.
Qed.

Lemma evaled_app k1 k2 s locals h : k1 <> [] ->
  exists x, evaledFnGetter ho k1 s locals h = (Ok x, h) /\
    same_value (evaledFnGetter ho (k1 ++ k2) s locals h) (rest_getter ho k2 x h).
Proof.
  destruct k1 as [|k k1]; [done|]. intros _. cbn [evaledFnGetter app]. destruct (is_nullish s) eqn:Es.
  - eexists. split; [done|]. apply same_sym, rest_nullish. done.
  - destruct (pick_run locals k s h) as (t & Et & Ht & _). step Et. destruct (get_prop_run t k h (Ht Es)) as [y Ey]. step Ey.
    destruct (rest_total k1 y h) as [x Ex]. exists x. split; [done|]. by apply rest_app.
Qed.

Lemma csp_chunks_spec fuel keys s locals h :
  [] ∉ keys -> keys <> [] -> length keys <= fuel -> is_nullish s = false \/ locals = None ->
  same_value (csp_chunks ho fuel keys s locals h) (evaledFnGetter ho keys s locals h).
Proof.
  revert keys s locals. induction fuel as [|fuel IH]; intros keys s locals Hk Hne Hl Hs; [destruct keys; [done|simpl in Hl; lia]|].
  assert (H1 : [] ∉ take 5 keys) by (intros Hin; apply Hk; rewrite <- (take_drop 5 keys); apply elem_of_app; by left).
  assert (H2 : [] ∉ drop 5 keys) by (intros Hin; apply Hk; rewrite <- (take_drop 5 keys); apply elem_of_app; by right).
  assert (Hne1 : take 5 keys <> []) by (by destruct keys).
  cbn [csp_chunks]. pose proof (csp_getter_spec (take 5 keys) s locals h H1 Hne1 Hs) as C.
  destruct (evaled_app (take 5 keys) (drop 5 keys) s locals h Hne1) as (x & Ex & Hx).
  rewrite take_drop in Hx. rewrite Ex in C.
  assert (Hc : exists v, cspSafeGetter ho (take 5 keys) s locals h = (Ok v, h) /\ same_value (Ok v, h) (Ok x, h)).
  { destruct (cspSafeGetter ho (take 5 keys) s locals h) as [r h'] eqn:Ec. pose proof C as [Eh [Ev|(v & w & Ev & _)]]; simpl in Eh, Ev; subst.
    - by exists x.
    - by exists v. }
  destruct Hc as (v & Ev & Hv). step Ev. destruct (drop 5 keys) as [|k ks] eqn:Ed.
  - eapply same_trans; [exact Hv|]. apply same_sym. exact Hx.
  - rewrite <- Ed in *. assert (Hd : drop 5 keys <> []) by by rewrite Ed.
    eapply same_trans; [apply IH; [done|done| |by right]|].
    + rewrite length_drop. lia.
    + rewrite evaled_rest by done. eapply same_trans; [by apply rest_same|]. by apply same_sym.
Qed.

(** The getters of short paths are those generated for longer ones. *)
Lemma simple1_evaled k scope locals h : simpleGetterFn1 ho k scope locals h = evaledFnGetter ho [k] scope locals h.
Proof.
  unfold simpleGetterFn1. cbn [evaledFnGetter]. destruct (is_nullish scope) eqn:Es; [done|].
  destruct (pick_run locals k scope h) as (t & Et & Ht & _). step Et.
  destruct (get_prop_run t k h (Ht Es)) as [y Ey]. rewrite Ey. by step Ey.
Qed.
Lemma simple2_evaled k k' scope locals h : simpleGetterFn2 ho k k' scope locals h = evaledFnGetter ho [k; k'] scope locals h.
Proof.
  unfold simpleGetterFn2. cbn [evaledFnGetter]. destruct (is_nullish scope) eqn:Es; [done|].
  destruct (pick_run locals k scope h) as (t & Et & Ht & _). step Et.
  destruct (get_prop_run t k h (Ht Es)) as [y Ey]. step Ey. cbn [rest_getter]. destruct (is_nullish y) eqn:Ely; [done|].
  destruct (get_prop_run y k' h Ely) as [z Ez]. rewrite Ez. by step Ez.
Qed.
Lemma getterFn_evaled path scope locals h :
  getterFn ho path scope locals h = evaledFnGetter ho (split (chr ".") path) scope locals h.
Proof.
  unfold getterFn. destruct (split (chr ".") path) as [|k [|k' [|k'' ks]]]; [done|apply simple1_evaled|apply simple2_evaled|done].
Qed.

(** C23: the getters of a path agree.  The closures for paths of one and of two names, and the
    function generated for longer ones, give the same result on every heap.  With a content
    security policy the getter, which reads five names at a time, gives the same value as well,
    up to [null] in place of [undefined] at the end of a broken path, if the path has no empty
    name and the scope is an object (or there are no locals). *)
Theorem getters_agree path scope locals h :
  getterFn ho path scope locals h = evaledFnGetter ho (split (chr ".") path) scope locals h /\
  ([] ∉ split (chr ".") path -> is_nullish scope = false \/ locals = None ->
   same_value (getterFn_csp ho path scope locals h) (getterFn ho path scope locals h)).
Proof.
  split; [apply getterFn_evaled|]. intros Hk Hs. rewrite getterFn_evaled. unfold getterFn_csp.
  pose proof (split_not_nil (chr ".") path) as Hn.
  destruct (split (chr ".") path) as [|k [|k' [|k'' ks]]];
    [done|rewrite simple1_evaled; apply same_refl|rewrite simple2_evaled; apply same_refl|].
  destruct (Nat.ltb _ 6); [by apply csp_getter_spec|by apply csp_chunks_spec].
Qed.
End Getters.

(** A browser without built-in members. *)
Definition bare_host : host :=
  Host (fun _ _ _ => HUndef) (fun _ _ _ => hret HUndef) (fun _ _ => hret HUndef) (fun _ _ => hret tt) (HNative (js "Object")) []
       (fun _ _ _ => hret HUndef).

(** A path of six names: two chunks of the getter under the policy. *)
Lemma getters_agree_witness :
  let h := Heap (<[0 := OObj None (ob_set [] (js "a") (HRef 0))]> ∅) 1 in
  same_value (getterFn_csp bare_host (js "a.a.a.a.a.a.b") (HRef 0) None h) (getterFn bare_host (js "a.a.a.a.a.a.b") (HRef 0) None h).
Proof.
  intros h. apply (getters_agree bare_host); [|by right]. refine (bool_decide_unpack _ _). vm_compute. exact I.
Defined.

(** ** Constant expressions *)

(** Induction on the expressions that can be constant. *)
Section ConstantInd.
Context (P : expr -> Prop).
Context (HConst : forall v, P (EConst v)) (HBin : forall op l r, P l -> P r -> P (EBin op l r)).
Context (HNot : forall e, P e -> P (ENot e)) (HTern : forall c a b, P c -> P a -> P b -> P (ETernary c a b)).
Context (HArray : forall es, Forall P es -> P (EArray es)) (HObject : forall kvs, Forall (fun kv => P kv.2) kvs -> P (EObject kvs)).
Context (HOther : forall e, is_constant e = false -> P e).

Fixpoint constant_ind (e : expr) : P e :=
  match e with
  | EConst v => HConst v
  | EBin op l r => HBin op l r (constant_ind l) (constant_ind r)
  | ENot e => HNot e (constant_ind e)
  | ETernary c a b => HTern c a b (constant_ind c) (constant_ind a) (constant_ind b)
  | EArray es =>
      HArray es ((fix all l : Forall P l :=
        match l with [] => Forall_nil_2 P | x :: l => Forall_cons_2 P x l (constant_ind x) (all l) end) es)
  | EObject kvs =>
      HObject kvs ((fix all l : Forall (fun kv => P kv.2) l :=
        match l with
        | [] => Forall_nil_2 (fun kv => P kv.2)
        | kv :: l => Forall_cons_2 (fun kv => P kv.2) kv l (constant_ind kv.2) (all l)
        end) kvs)
  | e => HOther e eq_refl
  end.
End ConstantInd.

Lemma hbind_ext {A B} (m m' : run A) (f f' : A -> run B) h :
  m h = m' h -> (forall a h, f a h = f' a h) -> hbind m f h = hbind m' f' h.
Proof. intros E Hf. unfold hbind. rewrite E. destruct (m' h) as [[a|e] h']; [apply Hf|done]. Qed.

(** C24: what the parser calls constant is: such an expression has the same value, the same
    exceptions and the same effects on the heap whatever the scope and the locals.  ([$watch]
    relies on it when it drops the watch of a constant expression after its first call.) *)
Theorem constant_sound ho e :
  if is_constant e then forall s l s' l' h, eval ho s l e h = eval ho s' l' e h else True.
Proof.
  destruct (is_constant e) eqn:Hc; [|done]. intros s l s' l'. revert Hc.
  apply (constant_ind (fun e => is_constant e = true -> forall h, eval ho s l e h = eval ho s' l' e h)).
  - done.
  - intros op a b IHa IHb [Ha Hb]%andb_true_iff h. cbn [eval]. apply hbind_ext; [by apply IHa|]. intros v h'.
    destruct (op_is op "&&"); [destruct (htruthy v); [by apply IHb|done]|].
    destruct (op_is op "||"); [destruct (htruthy v); [done|by apply IHb]|]. apply hbind_ext; [by apply IHb|done].
  - intros a IH Ha h. cbn [eval]. by apply hbind_ext; [apply IH|].
  - intros c a b IHc IHa IHb [[Hc Ha]%andb_true_iff Hb]%andb_true_iff h. cbn [eval]. apply hbind_ext; [by apply IHc|].
    intros v h'. destruct (htruthy v); [by apply IHa|by apply IHb].
  - intros es IH Hes h. cbn [eval]. apply hbind_ext; [|done]. cbn [is_constant] in Hes. revert h.
    induction IH as [|x es Hx _ IHes]; [done|]. cbn [forallb] in Hes. apply andb_true_iff in Hes as [Hxc Hes].
    intros h. cbn [map_run]. apply hbind_ext; [by apply Hx|]. intros v h'. apply hbind_ext; [by apply IHes|done].
  - intros kvs IH Hkvs h. cbn [eval]. apply hbind_ext; [done|]. intros r h1. apply hbind_ext; [|done]. cbn [is_constant] in Hkvs.
    revert h1. induction IH as [|kv kvs Hx _ IHkvs]; [done|]. cbn [forallb] in Hkvs. apply andb_true_iff in Hkvs as [Hkc Hkvs].
    intros h1. apply hbind_ext; [by apply Hx|]. intros v h'. apply hbind_ext; [done|]. intros _ h''. by apply IHkvs.
  - intros a Ha. congruence.
Qed.

(** ** The cache of [$parse] *)

(** A sequence of calls of [$parse]. *)
Fixpoint parse_all (has_filter : jstr -> bool) (exps : list jstr) (cache : gmap jstr expr) : list (result parse_failure expr) :=
  match exps with
  | [] => []
  | exp :: exps => let '(r, cache) := parse_service has_filter exp cache in r :: parse_all has_filter exps cache
  end.

(** The cache of [$parse] is transparent: on every sequence of expressions each call answers
    as the parser does. *)
Theorem parse_cached has_filter exps : parse_all has_filter exps ∅ = parse has_filter <$> exps.
Proof.
  assert (H : forall exps cache, (forall exp e, cache !! exp = Some e -> parse has_filter exp = Ok e) ->
    parse_all has_filter exps cache = parse has_filter <$> exps).
  { clear exps. induction exps as [|exp exps IH]; intros cache Hc; [done|]. cbn [parse_all fmap list_fmap].
    unfold parse_service. destruct (cache !! exp) as [e|] eqn:E.
    - rewrite (Hc _ _ E). f_equal. by apply IH.
    - destruct (parse has_filter exp) as [e|e] eqn:Ep; f_equal; apply IH; [|done].
      destruct (jeqb exp _); [done|]. intros exp' e'. destruct (decide (exp = exp')) as [<-|].
      + rewrite lookup_insert_eq. congruence.
      + rewrite lookup_insert_ne by done. apply Hc. }
  apply H. intros exp e. by rewrite lookup_empty.
Qed.
