(* ===== verification/EvalAssign.v ===== *)
(** * Assignments of Angular expressions, and what scopes inherit *)

From Stdlib Require Import QArith.
From S2P Require Import Prelude JsString JsObject JsNumber UriCodec Json Heap Lexer Parser Eval EvalFacts.
#[local] Open Scope nat_scope.
Local Open Scope handler_scope.

(** Prototypes are older than the objects made from them. *)
Definition protos_ok (h : heap) : Prop := forall r o, h_store h !! r = Some o -> r < h_next h /\ proto_below r o.

Section Assign.
Context (ho : host).

(** ** Reading after a write *)

(** The number of steps does not matter beyond the age of the object. *)
Lemma chain_fuel h n m r k : protos_ok h -> r <= n -> r <= m -> chain_find n h r k = chain_find m h r k.
Proof.
  intros W. revert m r. induction n as [|n IH]; intros m r Hn Hm; destruct m as [|m]; cbn [chain_find];
    destruct (h_store h !! r) as [[|[p|] o| | |]|] eqn:E; try done; destruct (ob_get o k); try done;
    destruct (W _ _ E) as [_ Hp]; cbn in Hp; try lia.
  apply IH; lia.
Qed.

(** Two heaps that look the same from the objects younger than [b] only. *)
Lemma chain_same h h' n r k b :
  protos_ok h -> r < b -> (forall r, r < b -> h_store h' !! r = h_store h !! r) -> chain_find n h' r k = chain_find n h r k.
Proof.
  intros W. revert r. induction n as [|n IH]; intros r Hr E; cbn [chain_find]; rewrite (E r Hr);
    destruct (h_store h !! r) as [[|[p|] o| | |]|] eqn:Er; try done.
  destruct (ob_get o k); [done|]. destruct (W _ _ Er) as [_ Hp]. cbn in Hp. apply IH; [lia|done].
Qed.

Lemma chain_unknown h n r k : h_store h !! r = None -> chain_find n h r k = None.
Proof. intros E. destruct n; cbn [chain_find]; by rewrite E. Qed.

(** The heap after a new object, seen from the old ones. *)
Lemma read_alloc h o v k : protos_ok h -> v <> HRef (h_next h) -> read ho (heap_alloc o h).2 v k = read ho h v k.
Proof.
  intros W Hv. destruct v as [| | | | | |r]; try done. assert (Hne : r <> h_next h) by congruence.
  assert (Es : h_store (heap_alloc o h).2 !! r = h_store h !! r) by (simpl; by rewrite lookup_insert_ne).
  assert (Ec : chain_find (h_next (heap_alloc o h).2) (heap_alloc o h).2 r k = chain_find (h_next h) h r k).
  { destruct (h_store h !! r) as [x|] eqn:E; [|by rewrite !chain_unknown].
    destruct (W _ _ E) as [Hlt _]. rewrite (chain_same h (heap_alloc o h).2 _ r k (h_next h) W Hlt).
    - apply chain_fuel; [done|simpl; lia|lia].
    - intros r' Hr'. simpl. by rewrite lookup_insert_ne by lia. }
  unfold read, kind_of. by rewrite Ec, Es.
Qed.

Definition plain (h : heap) (v : hval) : bool :=
  match v with HRef r => match h_store h !! r with Some (OObj _ _) => true | _ => false end | _ => false end.

(** Writing a property of a plain object leaves the others, on every value. *)
Lemma chain_set h n r p o k x r' k' :
  h_store h !! r = Some (OObj p o) -> k' <> k ->
  chain_find n (heap_set r (OObj p (ob_set o k x)) h) r' k' = chain_find n h r' k'.
Proof.
  intros E Hk. revert r'. induction n as [|n IH]; intros r'; cbn [chain_find heap_set h_store];
    destruct (decide (r = r')) as [<-|Hne];
    rewrite ?lookup_insert_eq, ?lookup_insert_ne, ?E by done; try done; rewrite ?ob_get_set_ne by done; try done.
  - destruct (ob_get o k'); [done|]. destruct p; [apply IH|done].
  - destruct (h_store h !! r') as [[|[q|] o'| | |]|]; try done. destruct (ob_get o' k'); [done|apply IH].
Qed.

Lemma kind_set h r p o o' v :
  h_store h !! r = Some (OObj p o) -> kind_of (heap_set r (OObj p o') h) v = kind_of h v.
Proof.
  intros E. unfold kind_of. destruct v as [| | | | | |r']; try done. simpl. destruct (decide (r = r')) as [<-|].
  - by rewrite lookup_insert_eq, E.
  - by rewrite lookup_insert_ne.
Qed.

Lemma read_unwritten h r p o k x v k' :
  h_store h !! r = Some (OObj p o) -> k' <> k -> read ho (heap_set r (OObj p (ob_set o k x)) h) v k' = read ho h v k'.
Proof.
  intros E Hk. unfold read. destruct v; try done. rewrite (kind_set _ _ _ _ _ _ E). by rewrite (chain_set _ _ _ _ _ _ _ _ _ E Hk).
Qed.

Lemma read_written h r p o k x :
  h_store h !! r = Some (OObj p o) -> read ho (heap_set r (OObj p (ob_set o k x)) h) (HRef r) k = Ok x.
Proof.
  intros E. unfold read. assert (Hf : forall n, chain_find n (heap_set r (OObj p (ob_set o k x)) h) r k = Some x).
  { intros n. destruct n; cbn [chain_find heap_set h_store]; rewrite lookup_insert_eq, ob_get_set_eq; by destruct p. }
  by rewrite Hf.
Qed.

Lemma protos_set h r p o o' : h_store h !! r = Some (OObj p o) -> protos_ok h -> protos_ok (heap_set r (OObj p o') h).
Proof.
  intros E W s x. simpl. destruct (decide (r = s)) as [<-|].
  - rewrite lookup_insert_eq. intros [= <-]. apply (W _ _ E).
  - rewrite lookup_insert_ne by done. apply W.
Qed.

Lemma protos_alloc h o : protos_ok h -> protos_ok (heap_alloc (OObj None o) h).2.
Proof.
  intros W s x. simpl. destruct (decide (s = h_next h)) as [->|].
  - rewrite lookup_insert_eq. intros [= <-]. split; [lia|done].
  - rewrite lookup_insert_ne by done. intros [? ?]%W. split; [lia|done].
Qed.

(** ** Inversion of a run *)

Lemma bind_inv {A B} (m : run A) (f : A -> run B) h b h' :
  hbind m f h = (Ok b, h') -> exists a h1, m h = (Ok a, h1) /\ f a h1 = (Ok b, h').
Proof. unfold hbind. destruct (m h) as [[a|e] h1]; [|done]. by exists a, h1. Qed.

(** Computations that only read the heap. *)
Definition reads {A} (m : run A) : Prop := forall h, (m h).2 = h.
Lemma reads_bind {A B} (m : run A) (f : A -> run B) : reads m -> (forall a, reads (f a)) -> reads (hbind m f).
Proof. intros Hm Hf h. unfold hbind. specialize (Hm h). destruct (m h) as [[a|e] h1]; simpl in *; [rewrite Hf|]; done. Qed.
Lemma reads_ret {A} (a : A) : reads (hret a).
Proof. done. Qed.
Lemma reads_throw {A} e : reads (@hthrow heap A e).
Proof. done. Qed.
Lemma reads_get v k : reads (get_prop ho v k).
Proof. done. Qed.

Lemma reads_all_truthy v ks : reads (all_truthy ho v ks).
Proof.
  induction ks as [|k ks IH]; cbn [all_truthy]; [apply reads_ret|]. apply reads_bind; [apply reads_get|].
  intros x. destruct (htruthy x); [apply IH|apply reads_ret].
Qed.

#[local] Hint Resolve reads_bind reads_ret reads_throw reads_get reads_all_truthy : dodo.

Lemma reads_safe_object v : reads (ensureSafeObject ho v).
Proof.
  unfold ensureSafeObject. destruct (htruthy v); [|apply reads_ret].
  repeat (apply reads_bind; [auto with dodo|intros ?] || apply reads_ret || apply reads_throw || break_match); auto with dodo.
Qed.

Lemma safe_name_ok name h h' : ensureSafeName (HStr name) h = (Ok tt, h') -> h' = h /\ name <> js "__proto__".
Proof.
  unfold ensureSafeName. destruct (bool_decide_reflect (name ∈ unsafe_names)) as [|Hn]; [done|]. intros [= <-]. split; [done|].
  intros ->. apply Hn. unfold unsafe_names. do 4 right. left.
Qed.

Lemma safe_object_ok v h x h' : ensureSafeObject ho v h = (Ok x, h') -> h' = h.
Proof. intros E. pose proof (reads_safe_object v h) as H. by rewrite E in H. Qed.

(** ** [setter] *)

(** The reference leads to an object. *)
Definition known (h : heap) (v : hval) : bool :=
  match v with HRef r => bool_decide (is_Some (h_store h !! r)) | _ => true end.

(** The objects that an assignment to a path writes are plain ones. *)
Fixpoint plain_path (h : heap) (v : hval) (keys : list jstr) : bool :=
  match keys with
  | [] => true
  | [_] => plain h v
  | k :: keys =>
      known h v &&
      match read ho h v k with
      | Ok x => if htruthy x then plain_path h x keys else plain h v
      | Throw _ => true
      end
  end.

(** [Object.prototype] has no member of these names. *)
Definition own_names (keys : list jstr) : Prop :=
  forall k r, k ∈ keys -> htruthy (ho_member ho KObject (HRef r) k) = false.

Lemma plain_inv h v : plain h v = true -> exists r p o, v = HRef r /\ h_store h !! r = Some (OObj p o).
Proof.
  unfold plain. destruct v as [| | | | | |r]; try done. destruct (h_store h !! r) as [[|p o| | |]|] eqn:E; try done.
  intros _. by exists r, p, o.
Qed.

Lemma set_prop_plain r p o k x h :
  h_store h !! r = Some (OObj p o) -> k <> js "__proto__" ->
  set_prop ho (HRef r) k x h = (Ok tt, heap_set r (OObj p (ob_set o k x)) h).
Proof. intros E Hk. unfold set_prop. rewrite (proj2 (jeqb_false k _) Hk). by rewrite E. Qed.

(** What is read of the objects known before, under a name that is not of the path. *)
Definition unchanged_but (keys : list jstr) (h h' : heap) : Prop :=
  forall v k, k ∉ keys -> known h v = true -> read ho h' v k = read ho h v k /\ known h' v = true.

Lemma known_set h r p o o' v : h_store h !! r = Some (OObj p o) -> known h v = true -> known (heap_set r (OObj p o') h) v = true.
Proof.
  intros E. unfold known. destruct v as [| | | | | |s]; try done. rewrite !bool_decide_eq_true. simpl.
  destruct (decide (r = s)) as [<-|]; [by rewrite lookup_insert_eq|by rewrite lookup_insert_ne].
Qed.

Lemma unchanged_set keys h r p o k x :
  h_store h !! r = Some (OObj p o) -> k ∈ keys -> unchanged_but keys h (heap_set r (OObj p (ob_set o k x)) h).
Proof.
  intros E Hk v k' Hk' Hv. split; [|by eapply known_set]. apply (read_unwritten _ _ _ _ _ _ _ _ E). intros ->. done.
Qed.

Lemma unchanged_alloc keys h o : protos_ok h -> unchanged_but keys h (heap_alloc o h).2.
Proof.
  intros W v k _ Hv. assert (Hne : v <> HRef (h_next h)).
  { intros ->. unfold known in Hv. apply bool_decide_eq_true in Hv as [x Hx]. apply W in Hx as [? _]. lia. }
  split; [by apply read_alloc|]. unfold known in *. destruct v as [| | | | | |s]; try done. simpl.
  assert (s <> h_next h) by congruence. by rewrite lookup_insert_ne.
Qed.

Lemma unchanged_trans keys h1 h2 h3 : unchanged_but keys h1 h2 -> unchanged_but keys h2 h3 -> unchanged_but keys h1 h3.
Proof.
  intros U1 U2 v k Hk Hv. destruct (U1 v k Hk Hv) as [E1 K1]. destruct (U2 v k Hk K1) as [E2 K2]. split; [congruence|done].
Qed.

Lemma unchanged_weaken k keys h1 h2 : unchanged_but keys h1 h2 -> unchanged_but (k :: keys) h1 h2.
Proof. intros U v k' Hk. apply U. intros Hin. apply Hk. by right. Qed.

Lemma get_prop_read v k h x h' : get_prop ho v k h = (Ok x, h') -> h' = h /\ read ho h v k = Ok x.
Proof. unfold get_prop. intros [= E1 <-]. done. Qed.

(** What an assignment has done. *)
Definition assigned (keys : list jstr) (obj x : hval) (h : heap) (r : hval) (h' : heap) : Prop :=
  r = x /\ protos_ok h' /\ unchanged_but keys h h' /\ rest_getter ho keys obj h' = (Ok x, h').

Lemma setter_last_inv k obj x h y h' :
  plain h obj = true -> setter_keys ho obj [k] x h = (Ok y, h') ->
  exists r p o, obj = HRef r /\ h_store h !! r = Some (OObj p o) /\ y = x /\ h' = heap_set r (OObj p (ob_set o k x)) h /\
    k <> js "__proto__".
Proof.
  intros (r & p & o & -> & E)%plain_inv H. exists r, p, o. cbn [setter_keys] in H.
  apply bind_inv in H as ([] & h1 & H1 & H). apply safe_name_ok in H1 as [-> Hk].
  apply bind_inv in H as (? & h1 & H1 & H). apply safe_object_ok in H1 as ->.
  apply bind_inv in H as (old & h1 & H1 & H). apply get_prop_read in H1 as [-> _].
  apply bind_inv in H as (? & h1 & H1 & H). apply safe_object_ok in H1 as ->.
  apply bind_inv in H as ([] & h1 & H1 & H). rewrite (set_prop_plain _ _ _ _ _ _ E Hk) in H1. injection H1 as <-.
  by injection H as <- <-.
Qed.

Lemma setter_last k obj x h y h' :
  protos_ok h -> plain h obj = true -> setter_keys ho obj [k] x h = (Ok y, h') -> assigned [k] obj x h y h'.
Proof.
  intros W Hp H. destruct (setter_last_inv _ _ _ _ _ _ Hp H) as (r & p & o & -> & E & -> & -> & _).
  split_and!; [done|by apply (protos_set _ _ _ o)|apply unchanged_set; [done|left]|].
  cbn [rest_getter is_nullish]. assert (Er : get_prop ho (HRef r) k (heap_set r (OObj p (ob_set o k x)) h) = (Ok x, heap_set r (OObj p (ob_set o k x)) h)).
  { unfold get_prop. by rewrite (read_written _ _ _ _ _ _ E). }
  rewrite (hbind_ok _ _ _ _ _ Er). done.
Qed.

(** A missing object of the path is created: what the rest of the path starts from. *)
Lemma create_object k2 ks r p o k h :
  own_names (k2 :: ks) -> protos_ok h -> h_store h !! r = Some (OObj p o) ->
  let d := h_next h in
  let h2 := heap_set r (OObj p (ob_set o k (HRef d))) (heap_alloc (OObj None []) h).2 in
  protos_ok h2 /\ plain_path h2 (HRef d) (k2 :: ks) = true /\ read ho h2 (HRef r) k = Ok (HRef d) /\
  unchanged_but [k] h h2 /\ known h2 (HRef r) = true.
Proof.
  intros Ho W E d h2. assert (Hd : r <> d) by (subst d; destruct (W _ _ E); lia).
  assert (E1 : h_store (heap_alloc (OObj None []) h).2 !! r = Some (OObj p o)) by (simpl; by rewrite lookup_insert_ne).
  assert (W1 : protos_ok (heap_alloc (OObj None []) h).2) by by apply protos_alloc.
  assert (Hdo : h_store h2 !! d = Some (OObj None [])) by (simpl; by rewrite lookup_insert_ne, lookup_insert_eq).
  split_and!.
  - by apply (protos_set _ _ _ o).
  - assert (Hpl : plain h2 (HRef d) = true) by (unfold plain; by rewrite Hdo).
    destruct ks as [|k3 ks]; [exact Hpl|]. cbn [plain_path].
    assert (Hr : read ho h2 (HRef d) k2 = Ok (ho_member ho KObject (HRef d) k2)).
    { unfold read, kind_of. rewrite Hdo. assert (Hf : forall n, chain_find n h2 d k2 = None)
        by (intros n; destruct n; cbn [chain_find]; by rewrite Hdo). by rewrite Hf. }
    rewrite Hr, Ho, Hpl by left. unfold known. rewrite Hdo. done.
  - by apply read_written.
  - eapply unchanged_trans; [by apply unchanged_alloc|]. apply unchanged_set; [exact E1|left].
  - unfold known. simpl. by rewrite lookup_insert_eq.
Qed.

(** The step of [setter] on a key that is not the last one. *)
Definition object_at (obj : hval) (k : jstr) : run hval :=
  propertyObj <- get_prop ho obj k ;;
  if htruthy propertyObj then hret propertyObj
  else o <- new_object (OObj None []) ;; set_prop ho obj k o ;;; hret o.

Lemma object_at_ok obj k k2 ks h po h2 :
  own_names (k2 :: ks) -> protos_ok h -> plain_path h obj (k :: k2 :: ks) = true -> k <> js "__proto__" ->
  object_at obj k h = (Ok po, h2) ->
  protos_ok h2 /\ plain_path h2 po (k2 :: ks) = true /\ read ho h2 obj k = Ok po /\ unchanged_but [k] h h2 /\ known h2 obj = true.
Proof.
  intros Ho W Hp Hk H.
  change (plain_path h obj (k :: k2 :: ks)) with (known h obj && match read ho h obj k with
    | Ok x => if htruthy x then plain_path h x (k2 :: ks) else plain h obj | Throw _ => true end) in Hp.
  apply andb_true_iff in Hp as [Hv Hp]. apply bind_inv in H as (pv & h1 & H1 & H). apply get_prop_read in H1 as [-> Er].
  rewrite Er in Hp. destruct (htruthy pv) eqn:Et; [by injection H as <- <-; split_and!|].
  apply plain_inv in Hp as (r & p & o & -> & E). apply bind_inv in H as (d & h1 & Ha & H1). injection Ha as <- <-.
  destruct (create_object k2 ks r p o k h Ho W E) as (C1 & C2 & C3 & C4 & C5).
  apply bind_inv in H1 as ([] & h3 & Hs & H1).
  change (set_prop ho (HRef r) k (HRef (h_next h)) (heap_alloc (OObj None []) h).2 = (Ok tt, h3)) in Hs.
  rewrite (set_prop_plain r p o) in Hs; [|simpl; rewrite lookup_insert_ne; [done|destruct (W _ _ E); lia]|done].
  injection Hs as <-. by injection H1 as <- <-.
Qed.

Lemma setter_step obj k k2 ks x h y h' :
  setter_keys ho obj (k :: k2 :: ks) x h = (Ok y, h') ->
  k <> js "__proto__" /\ is_nullish obj = false /\
  exists po h2, object_at obj k h = (Ok po, h2) /\ setter_keys ho po (k2 :: ks) x h2 = (Ok y, h').
Proof.
  intros H.
  change (setter_keys ho obj (k :: k2 :: ks) x) with (ensureSafeName (HStr k) ;;;
      propertyObj <- get_prop ho obj k ;;
      propertyObj <- (if htruthy propertyObj then hret propertyObj
                      else o <- new_object (OObj None []) ;; set_prop ho obj k o ;;; hret o) ;;
      setter_keys ho propertyObj (k2 :: ks) x) in H.
  apply bind_inv in H as ([] & h1 & H1 & H). apply safe_name_ok in H1 as [-> Hkp].
  apply bind_inv in H as (pv & h1 & H1 & H). assert (H1' := H1). apply get_prop_read in H1' as [-> Er].
  apply bind_inv in H as (po & h2 & H2 & H). split_and!; [done|by destruct obj|]. exists po, h2. split; [|done].
  unfold object_at. by rewrite (hbind_ok _ _ _ _ _ H1).
Qed.

Lemma setter_assigned keys obj x h y h' :
  keys <> [] -> NoDup keys -> own_names keys -> protos_ok h -> plain_path h obj keys = true ->
  setter_keys ho obj keys x h = (Ok y, h') -> assigned keys obj x h y h'.
Proof.
  revert obj h. induction keys as [|k [|k2 ks] IH]; intros obj h Hne Hn Ho W Hp H; [done|by apply setter_last|].
  apply NoDup_cons in Hn as [Hk Hn]. assert (Ho' : own_names (k2 :: ks)) by (intros k' r Hin; apply Ho; by right).
  destruct (setter_step _ _ _ _ _ _ _ _ H) as (Hkp & Hnull & po & h2 & Ha & Hs).
  destruct (object_at_ok _ _ _ _ _ _ _ Ho' W Hp Hkp Ha) as (W2 & Hpp & Hro & U & K2).
  destruct (IH po h2) as (-> & W3 & U3 & Hg); [done..|]. split_and!; [done|done| |].
  - eapply unchanged_trans; [|by apply unchanged_weaken]. intros v k' Hk' Hv'. apply U; [|done].
    intros ->%list_elem_of_singleton. apply Hk'. left.
  - change (rest_getter ho (k :: k2 :: ks) obj h') with ((if is_nullish obj then hret HUndef else s <- get_prop ho obj k ;; rest_getter ho (k2 :: ks) s) h').
    rewrite Hnull. assert (Er : get_prop ho obj k h' = (Ok po, h')).
    { unfold get_prop. f_equal. rewrite <- Hro. by apply U3. }
    by rewrite (hbind_ok _ _ _ _ _ Er).
Qed.

(** ** When an assignment fails *)

Definition security_errors : list js_error :=
  [parse_error "isecfld"; parse_error "isecfn"; parse_error "isecwindow"; parse_error "isecdom"; parse_error "isecobj"].

Lemma bind_throw {A B} (m : run A) (f : A -> run B) h e h' :
  hbind m f h = (Throw e, h') -> m h = (Throw e, h') \/ exists a h1, m h = (Ok a, h1) /\ f a h1 = (Throw e, h').
Proof. unfold hbind. destruct (m h) as [[a|e0] h1]; [right; by exists a, h1|]. intros [= -> ->]. by left. Qed.

(** Computations that read the heap and fail only as the safety checks do. *)
Definition fails_safely {A} (m : run A) : Prop := forall h e h', m h = (Throw e, h') -> h' = h /\ e ∈ security_errors.

Lemma fails_bind {A B} (m : run A) (f : A -> run B) :
  reads m -> fails_safely m -> (forall a, fails_safely (f a)) -> fails_safely (hbind m f).
Proof.
  intros Hr Hm Hf h e h' [E|(a & h1 & E & E1)]%bind_throw; [by apply Hm|].
  pose proof (Hr h) as R. rewrite E in R. cbn in R. subst h1. by apply (Hf a).
Qed.
Lemma fails_ret {A} (a : A) : fails_safely (hret a).
Proof. by intros h e h'. Qed.
Lemma fails_throw {A} e : e ∈ security_errors -> fails_safely (@hthrow heap A e).
Proof. by intros He h e' h' [= <- <-]. Qed.
Lemma fails_get v k : is_nullish v = false -> fails_safely (get_prop ho v k).
Proof. intros Hv h e h' H. destruct (get_prop_run ho v k h Hv) as [x Ex]. congruence. Qed.
Lemma truthy_not_nullish v : htruthy v = true -> is_nullish v = false.
Proof. by destruct v. Qed.
Lemma fails_all_truthy v ks : is_nullish v = false -> fails_safely (all_truthy ho v ks).
Proof.
  intros Hv. induction ks as [|k ks IH]; cbn [all_truthy]; [apply fails_ret|].
  apply fails_bind; [apply reads_get|by apply fails_get|]. intros x. destruct (htruthy x); [apply IH|apply fails_ret].
Qed.
Lemma fails_safe_name k : fails_safely (ensureSafeName (HStr k)).
Proof. unfold ensureSafeName. destruct (bool_decide _); [apply fails_throw; left|apply fails_ret]. Qed.

#[local] Hint Resolve fails_ret fails_all_truthy fails_get : dodo.
Lemma fails_safe_object v : fails_safely (ensureSafeObject ho v).
Proof.
  unfold ensureSafeObject. destruct (htruthy v) eqn:Hv; [|apply fails_ret]. apply truthy_not_nullish in Hv.
  apply fails_bind; [auto with dodo..|intros c]. destruct (strict_eq c v); [apply fails_throw; by right; left|].
  apply fails_bind; [auto with dodo..|intros w]. destruct w; [apply fails_throw; by do 2 right; left|].
  apply fails_bind; [auto with dodo..|intros b]. apply fails_bind.
  - destruct b; [|apply reads_ret]. apply reads_bind; [auto with dodo|]. intros [|]; auto with dodo.
  - destruct b; [|apply fails_ret]. apply fails_bind; [auto with dodo..|]. intros [|]; auto with dodo.
  - intros [|]; [apply fails_throw; by do 3 right; left|].
    destruct (strict_eq v (ho_Object ho)); [apply fails_throw; by do 4 right; left|apply fails_ret].
Qed.

Lemma hbind_assoc {A B C} (m : run A) (f : A -> run B) (g : B -> run C) h :
  hbind m (fun a => hbind (f a) g) h = hbind (hbind m f) g h.
Proof. unfold hbind. by destruct (m h) as [[a|e] h1]. Qed.

Lemma setter_unfold obj k k2 ks x h :
  setter_keys ho obj (k :: k2 :: ks) x h =
  hbind (ensureSafeName (HStr k)) (fun _ => hbind (object_at obj k) (fun po => setter_keys ho po (k2 :: ks) x)) h.
Proof.
  change (setter_keys ho obj (k :: k2 :: ks) x h) with ((ensureSafeName (HStr k) ;;;
      propertyObj <- get_prop ho obj k ;;
      propertyObj <- (if htruthy propertyObj then hret propertyObj
                      else o <- new_object (OObj None []) ;; set_prop ho obj k o ;;; hret o) ;;
      setter_keys ho propertyObj (k2 :: ks) x) h).
  unfold object_at. apply hbind_ext; [done|]. intros _ h1. by rewrite <- hbind_assoc.
Qed.

Lemma object_at_runs obj k k2 ks h :
  protos_ok h -> plain_path h obj (k :: k2 :: ks) = true -> is_nullish obj = false -> k <> js "__proto__" ->
  exists po h2, object_at obj k h = (Ok po, h2) /\ is_nullish po = false.
Proof.
  intros W Hp Hn Hk. unfold object_at. destruct (get_prop_run ho obj k h Hn) as [pv Ev]. assert (Er := Ev).
  apply get_prop_read in Er as [_ Er]. rewrite (hbind_ok _ _ _ _ _ Ev).
  change (plain_path h obj (k :: k2 :: ks)) with (known h obj && match read ho h obj k with
    | Ok x => if htruthy x then plain_path h x (k2 :: ks) else plain h obj | Throw _ => true end) in Hp.
  apply andb_true_iff in Hp as [_ Hp]. rewrite Er in Hp.
  destruct (htruthy pv) eqn:Et; [exists pv, h; split; [done|by apply truthy_not_nullish]|].
  apply plain_inv in Hp as (r & p & o & -> & E). do 2 eexists. split; [|shelve].
  assert (Ea : new_object (OObj None []) h = (Ok (HRef (h_next h)), (heap_alloc (OObj None []) h).2)) by done.
  rewrite (hbind_ok _ _ _ _ _ Ea). assert (Es : h_store (heap_alloc (OObj None []) h).2 !! r = Some (OObj p o))
    by (simpl; rewrite lookup_insert_ne; [done|destruct (W _ _ E); lia]).
  rewrite (hbind_ok _ _ _ _ _ (set_prop_plain _ _ _ _ (HRef (h_next h)) _ Es Hk)). reflexivity.
  Unshelve. done.
Qed.

Lemma setter_last_fails k obj x h e h' :
  plain h obj = true -> setter_keys ho obj [k] x h = (Throw e, h') -> e ∈ security_errors /\ h' = h.
Proof.
  intros (r & p & o & -> & E)%plain_inv H. cbn [setter_keys] in H.
  apply bind_throw in H as [H|([] & h1 & H1 & H)]; [by apply fails_safe_name in H as [-> ?]|].
  apply safe_name_ok in H1 as [-> Hk].
  apply bind_throw in H as [H|(? & h1 & H1 & H)]; [by apply fails_safe_object in H as [-> ?]|].
  apply safe_object_ok in H1 as ->.
  apply bind_throw in H as [H|(old & h1 & H1 & H)]; [done|]. apply get_prop_read in H1 as [-> _].
  apply bind_throw in H as [H|(? & h1 & H1 & H)]; [by apply fails_safe_object in H as [-> ?]|].
  apply safe_object_ok in H1 as ->. by rewrite (hbind_ok _ _ _ _ _ (set_prop_plain _ _ _ _ x _ E Hk)) in H.
Qed.

Lemma setter_fails keys obj x h e h' :
  keys <> [] -> own_names keys -> protos_ok h -> plain_path h obj keys = true -> is_nullish obj = false ->
  setter_keys ho obj keys x h = (Throw e, h') -> e ∈ security_errors /\ unchanged_but keys h h'.
Proof.
  revert obj h. induction keys as [|k [|k2 ks] IH]; intros obj h Hne Ho W Hp Hn H; [done| |].
  - by destruct (setter_last_fails _ _ _ _ _ _ Hp H) as [? ->].
  - rewrite setter_unfold in H. assert (Ho' : own_names (k2 :: ks)) by (intros k' r Hin; apply Ho; by right).
    apply bind_throw in H as [H|([] & h1 & H1 & H)]; [by apply fails_safe_name in H as [-> ?]|].
    apply safe_name_ok in H1 as [-> Hk]. destruct (object_at_runs _ _ _ _ _ W Hp Hn Hk) as (po & h2 & Ea & Hnp).
    rewrite (hbind_ok _ _ _ _ _ Ea) in H. destruct (object_at_ok _ _ _ _ _ _ _ Ho' W Hp Hk Ea) as (W2 & Hp2 & _ & U & _).
    destruct (IH po h2) as [He U2]; [done..|]. split; [done|].
    eapply unchanged_trans; [|by apply unchanged_weaken]. intros v k' Hk' Hv'. apply U; [|done].
    intros ->%list_elem_of_singleton. apply Hk'. left.
Qed.


(** ** Inheritance between scopes *)

(** What [read] of an older object sees after a change of a younger one. *)
Lemma read_older h c p o o' r k :
  protos_ok h -> h_store h !! c = Some (OObj p o) -> r < c ->
  read ho (heap_set c (OObj p o') h) (HRef r) k = read ho h (HRef r) k.
Proof.
  intros W E Hr. unfold read. rewrite (kind_set _ _ _ _ _ _ E). change (h_next (heap_set c (OObj p o') h)) with (h_next h).
  rewrite (chain_same h (heap_set c (OObj p o') h) (h_next h) r k c W Hr); [done|].
  intros r' Hr'. simpl. by rewrite lookup_insert_ne by lia.
Qed.

Lemma read_inherited h c p o k v :
  protos_ok h -> h_store h !! c = Some (OObj (Some p) o) -> ob_get o k = None ->
  chain_find (h_next h) h p k = Some v -> read ho h (HRef c) k = Ok v.
Proof.
  intros W E Ho Hv. unfold read. destruct (W _ _ E) as [Hc Hp]. cbn in Hp.
  assert (Hf : chain_find (h_next h) h c k = Some v).
  { rewrite (chain_fuel _ _ (S (h_next h)) c k W) by lia. cbn [chain_find]. by rewrite E, Ho. }
  by rewrite Hf.
Qed.

(** What a child scope assigns.  A plain name is written on the child itself, hides what the
    child inherits, and no older scope (its parents among them) sees it.  A path with a dot
    whose first name the child only inherits is written where the parent's is: the assignment on
    the child and the one on the parent are the same. *)
Theorem scope_assign path p c o x h :
  protos_ok h -> h_store h !! c = Some (OObj (Some p) o) ->
  match split (chr ".") path with
  | [k] =>
      match setter ho (HRef c) path x h with
      | (Ok _, h') =>
          read ho h' (HRef c) k = Ok x /\ forall r k', r < c -> read ho h' (HRef r) k' = read ho h (HRef r) k'
      | (Throw e, h') => e ∈ security_errors /\ h' = h
      end
  | k :: _ =>
      if ob_has o k then True
      else match chain_find (h_next h) h p k with
           | Some v => htruthy v = true -> setter ho (HRef c) path x h = setter ho (HRef p) path x h
           | None => True
           end
  | [] => True
  end.
Proof.
  intros W E. unfold setter. destruct (split (chr ".") path) as [|k [|k2 ks]]; [done| |].
  - assert (Hp : plain_path h (HRef c) [k] = true) by (cbn; by rewrite E).
    destruct (setter_keys ho (HRef c) [k] x h) as [[y|e] h'] eqn:Es.
    + destruct (setter_last_inv _ _ _ _ _ _ Hp Es) as (r & q & o' & [= <-] & E' & _ & -> & _).
      split; [by apply (read_written _ _ q o')|]. intros r k' Hr. by apply (read_older _ _ _ o').
    + by destruct (setter_last_fails _ _ _ _ _ _ Hp Es).
  - unfold ob_has. destruct (ob_get o k) as [w|] eqn:Eo; [done|].
    destruct (chain_find (h_next h) h p k) as [v|] eqn:Ev; [|done]. intros Ht.
    assert (G : forall r, read ho h (HRef r) k = Ok v -> object_at (HRef r) k h = (Ok v, h)).
    { intros r Er. unfold object_at. assert (Eg : get_prop ho (HRef r) k h = (Ok v, h)) by (unfold get_prop; by rewrite Er).
      by rewrite (hbind_ok _ _ _ _ _ Eg), Ht. }
    rewrite !setter_unfold. destruct (ensureSafeName (HStr k) h) as [[[]|e] h1] eqn:En.
    + assert (En' := En). apply safe_name_ok in En' as [-> _]. rewrite !(hbind_ok _ _ _ _ _ En).
      rewrite (hbind_ok _ _ _ _ _ (G c (read_inherited _ _ _ _ _ _ W E Eo Ev))).
      by rewrite (hbind_ok _ _ _ _ _ (G p ltac:(unfold read; by rewrite Ev))).
    + unfold hbind at 1. rewrite En. unfold hbind at 1. by rewrite En.
Qed.
End Assign.

(** ** A sample *)

(** A controller's scope 0 with a model 1, and a scope 2 made from it. *)
Definition sample_heap : heap :=
  Heap (<[0 := OObj None (ob_set (ob_set [] (js "user") (HRef 1)) (js "name") (HStr (js "root")))]>
       (<[1 := OObj None (ob_set [] (js "name") (HStr (js "ann")))]>
       (<[2 := OObj (Some 0) []]> ∅))) 3.

Lemma sample_protos : protos_ok sample_heap.
Proof.
  intros r o E. destruct r as [|[|[|r]]]; [vm_compute in E; injection E as <-; split; [apply le_n_S, Nat.le_0_l || (cbn; lia)|cbn; try lia; exact I]..|].
  unfold sample_heap in E. cbn [h_store] in E. by rewrite !lookup_insert_ne, lookup_empty in E by lia.
Qed.


Lemma scope_assign_witness :
  exists h', setter bare_host (HRef 2) (js "name") HNull sample_heap = (Ok HNull, h') /\
    read bare_host h' (HRef 2) (js "name") = Ok HNull /\
    read bare_host h' (HRef 0) (js "name") = Ok (HStr (js "root")) /\
    setter bare_host (HRef 2) (js "user.name") HNull sample_heap = setter bare_host (HRef 0) (js "user.name") HNull sample_heap.
Proof.
  pose proof (scope_assign bare_host (js "name") 0 2 [] HNull sample_heap sample_protos eq_refl) as H.
  pose proof (scope_assign bare_host (js "user.name") 0 2 [] HNull sample_heap sample_protos eq_refl eq_refl) as Hd.
  assert (Es : split (chr ".") (js "name") = [js "name"]) by reflexivity. rewrite Es in H.
  destruct (setter bare_host (HRef 2) (js "name") HNull sample_heap) as [[y|e] h'] eqn:E; [|vm_compute in E; discriminate].
  destruct H as [Hc Ho]. exists h'. assert (Ey : y = HNull) by (vm_compute in E; congruence). subst y.
  split_and!; [done|done|by rewrite Ho by lia|exact Hd].
Defined.
