(* ===== verification/Filters.v ===== *)
(** * The filters limitTo, filter and orderBy (angular.js)

    The filters run on the heap of the page.  What the functions of the application do to the heap
    while a filter runs (its comparators and its predicates, the conversions to primitive values)
    is not modelled, only what they return. *)

From Stdlib Require Import QArith Qround.
From S2P Require Import Prelude JsString JsObject JsNumber UriCodec Json Heap Lexer Parser Eval.
#[local] Open Scope nat_scope.
Local Open Scope result_scope.
Local Open Scope handler_scope.

(** A computation for what it returns. *)
Definition result_of {A} (m : run A) (h : heap) : result js_error A := (m h).1.

Section Filters.
Context (ho : host).
(** [String.prototype.toLowerCase], on Unicode text. *)
Context (toLowerCase : jstr -> jstr).

Definition text_in (h : heap) (v : hval) : result js_error jstr := result_of (to_text ho v) h.
(** [(''+v).toLowerCase()]. *)
Definition lower_text (h : heap) (v : hval) : result js_error jstr :=
  let* s := text_in h v in Ok (toLowerCase s).
Definition call (h : heap) (f : hval) (args : list hval) : result js_error hval :=
  if isFunction h f then result_of (ho_call ho f HUndef args) h else Throw JsTypeError.
Definition isArray (h : heap) (v : hval) : option (list hval) :=
  match v with HRef r => match h_store h !! r with Some (OArr l) => Some l | _ => None end | _ => None end.

(** ** limitTo *)

Inductive limiting : Type := LimNaN | LimInfinite (neg : bool) | LimInt (z : Z).

(** [Number(limit)] if it is infinite, else [int(limit)]. *)
Definition get_limit (limit : hval) : run limiting :=
  n <- to_num ho limit ;;
  match n with
  | Inf neg => hret (LimInfinite neg)
  | _ => t <- to_text ho limit ;; hret (match parseInt_str t with Some z => LimInt z | None => LimNaN end)
  end.

(** [s.slice(start, end)] of a string or an array; a negative position counts from the end. *)
Definition slice_pos (len : nat) (p : Z) : nat :=
  if (p <? 0)%Z then Z.to_nat (Z.max 0 (Z.of_nat len + p)) else Nat.min len (Z.to_nat p).
Definition slice {A} (start fin : Z) (l : list A) : list A :=
  let a := slice_pos (length l) start in let b := slice_pos (length l) fin in take (b - a) (drop a l).

Definition limit_string (input : jstr) (limit : limiting) : jstr :=
  match limit with
  | LimNaN => []
  | LimInfinite false => input
  | LimInfinite true => input
  | LimInt z =>
      if (z =? 0)%Z then []
      else if (0 <=? z)%Z then slice 0 z input else slice z (Z.of_nat (length input)) input
  end.

(** [for (; i<n; i++) out.push(input[i])]. *)
Fixpoint push_items (fuel : nat) (input : list hval) (i n : Z) (out : list hval) : list hval :=
  match fuel with
  | 0 => out
  | S fuel =>
      if (i <? n)%Z then push_items fuel input (i + 1) n (out ++ [default HUndef (input !! Z.to_nat i)]) else out
  end.

Definition limit_items (input : list hval) (limit : limiting) : list hval :=
  let len := Z.of_nat (length input) in
  let trimmed :=
    match limit with
    | LimNaN => None
    | LimInfinite neg => Some (if neg then - len else len)%Z
    | LimInt z => Some (if (len <? z)%Z then len else if (z <? - len)%Z then - len else z)%Z
    end in
  match trimmed with
  | None => []                                       (* i is NaN *)
  | Some limit =>
      let '(i, n) := if (0 <? limit)%Z then (0%Z, limit) else ((len + limit)%Z, len) in
      push_items (length input) input i n []
  end.

Definition limitTo (input limit : hval) : run hval := fun h =>
  match input, isArray h input with
  | HStr s, _ => (limit <- get_limit limit ;; hret (HStr (limit_string s limit))) h
  | _, Some l => (limit <- get_limit limit ;; new_object (OArr (limit_items l limit))) h
  | _, None => (Ok input, h)
  end.

(** ** filter *)

Definition is_found (o : option nat) : bool := match o with Some _ => true | None => false end.
(** [typeof v === 'object'], for [null] too. *)
Definition object_type (h : heap) (v : hval) : bool := bool_decide (typeof h v = TyObject).

(** A loop that returns true at the first name that passes. *)
Fixpoint any_name (f : jstr -> result js_error bool) (ks : list jstr) : result js_error bool :=
  match ks with
  | [] => Ok false
  | k :: ks => let* b := f k in if b then Ok true else any_name f ks
  end.
Definition names (h : heap) (v : hval) : list jstr := match v with HRef r => for_in h r | _ => [] end.
(** [hasOwnProperty.call(v, k)], for a name of [for in]. *)
Definition own_name (h : heap) (v : hval) (k : jstr) : bool :=
  match v with
  | HRef r => match h_store h !! r with Some (OObj _ o) => ob_has o k | Some (OArr _) => true | _ => false end
  | _ => false
  end.

(** The comparator when none is given; [stack] is the depth of calls. *)
Fixpoint default_comparator (stack : nat) (h : heap) (obj text : hval) : result js_error bool :=
  if htruthy obj && htruthy text && object_type h obj && object_type h text then
    match stack with
    | 0 => Throw JsRangeError
    | S stack =>
        any_name (fun objKey =>
          if negb (is_private objKey) && own_name h obj objKey then
            let* o := read ho h obj objKey in let* t := read ho h text objKey in default_comparator stack h o t
          else Ok false) (names h obj)
    end
  else
    let* text := lower_text h text in
    let* obj := lower_text h obj in
    Ok (is_found (indexOf obj text)).

(** The comparator of the call: a function, [true], or anything else. *)
Definition comparator_fn (stack : nat) (h : heap) (comparator obj text : hval) : result js_error bool :=
  if isFunction h comparator then let* b := call h comparator [obj; text] in Ok (htruthy b)
  else match comparator with
       | HBool true => equals h obj text
       | _ => default_comparator stack h obj text
       end.

Section Search.
Context (stack : nat) (h : heap) (comparator : hval -> hval -> result js_error bool).

Definition negated (text : hval) : option hval :=
  match text with
  | HStr (c :: t) => if (c =? chr "!")%N then Some (HStr t) else None
  | _ => None
  end.

Fixpoint search (stack : nat) (obj text : hval) : result js_error bool :=
  match negated text, stack with
  | Some text, S stack => let* b := search stack obj text in Ok (negb b)
  | Some _, 0 => Throw JsRangeError
  | None, _ =>
      match typeof h obj with
      | TyBoolean | TyNumber | TyString => comparator obj text
      | TyObject =>
          if object_type h text then comparator obj text
          else any_name (fun objKey =>
                 if is_private objKey then Ok false
                 else let* v := read ho h obj objKey in
                      match stack with S stack => search stack v text | 0 => Throw JsRangeError end) (names h obj)
      | TyFunction | TyUndefined => Ok false
      end
  end.

Inductive predicate : Type := PSearch (path : jstr) (text : hval) | PFunction (f : hval).

Definition holds (value : hval) (p : predicate) : result js_error bool :=
  match p with
  | PSearch path text =>
      let* v := (if jeqb path (js "$") then Ok value else if htruthy value then read ho h value path else Ok value) in
      search stack v text
  | PFunction f => let* b := call h f [value] in Ok (htruthy b)
  end.

(** [predicates.check]. *)
Fixpoint check (predicates : list predicate) (value : hval) : result js_error bool :=
  match predicates with
  | [] => Ok true
  | p :: predicates => let* b := holds value p in if b then check predicates value else Ok false
  end.

Fixpoint filtered (predicates : list predicate) (array : list hval) : result js_error (list hval) :=
  match array with
  | [] => Ok []
  | value :: array =>
      let* b := check predicates value in
      let* rest := filtered predicates array in
      Ok (if b then value :: rest else rest)
  end.

(** The predicates of an expression; [None]: the array is returned as it is. *)
Definition predicates_of (expression : hval) : option (list predicate) :=
  match typeof h expression with
  | TyBoolean | TyNumber | TyString => Some [PSearch (js "$") expression]
  | TyObject =>
      Some (omap (fun key => match read ho h expression key with
                             | Ok HUndef | Throw _ => None
                             | Ok text => Some (PSearch key text)
                             end) (names h expression))
  | TyFunction => Some [PFunction expression]
  | TyUndefined => None
  end.
End Search.

Definition filterFilter (stack : nat) (array expression comparator : hval) : run hval := fun h =>
  match isArray h array, predicates_of h expression with
  | Some l, Some predicates =>
      match filtered stack h (comparator_fn stack h comparator) predicates l with
      | Ok out => new_object (OArr out) h
      | Throw e => (Throw e, h)
      end
  | _, _ => (Ok array, h)
  end.

(** ** orderBy *)

(** [toBoolean]. *)
Definition toBoolean (h : heap) (value : hval) : result js_error bool :=
  if isFunction h value then Ok true
  else if htruthy value then
    let* len := read ho h value (js "length") in
    if strict_eq len (HNum (Fin 0)) then Ok false
    else let* v := lower_text h value in
         Ok (negb (existsb (jeqb v) (words "f 0 false no n []")))
  else Ok false.

(** The name that [typeof] gives. *)
Definition type_name (t : js_type) : jstr :=
  js match t with
     | TyUndefined => "undefined" | TyBoolean => "boolean" | TyNumber => "number"
     | TyString => "string" | TyFunction => "function" | TyObject => "object"
     end.

Definition compare (h : heap) (v1 v2 : hval) : result js_error Z :=
  let t1 := typeof h v1 in let t2 := typeof h v2 in
  if bool_decide (t1 = t2) then
    let lower v := match v with HStr s => HStr (toLowerCase s) | _ => v end in
    let v1 := lower v1 in let v2 := lower v2 in
    if strict_eq v1 v2 then Ok 0%Z
    else let* less := result_of (compare_prim ho prim_lt v1 v2) h in
         Ok (if htruthy less then -1 else 1)%Z
  else Ok (if str_lt (type_name t1) (type_name t2) then -1 else 1)%Z.

Definition comparison := hval -> hval -> result js_error Z.
Definition reversed (descending : bool) (comp : comparison) : comparison := fun a b =>
  if descending then comp b a else comp a b.

(** The comparison of two values by what [get] finds in them. *)
Definition compare_by (h : heap) (get : hval -> result js_error hval) : comparison := fun a b =>
  let* x := get a in let* y := get b in compare h x y.

Section OrderBy.
Context (has_filter : jstr -> bool).
(** [Array.prototype.sort] with a comparison function. *)
Context (array_sort : comparison -> list hval -> result js_error (list hval)).

Definition parse_order (text : jstr) : result js_error expr :=
  match parse has_filter text with
  | Ok e => Ok e
  | Throw (Failed e) => Throw e
  | Throw OutOfFuel => Throw JsRangeError
  end.

(** What a predicate of the list compares: [descending] and [get]. *)
Definition order_getter (h : heap) (predicate : hval) : result js_error (bool * (hval -> result js_error hval)) :=
  match predicate with
  | HStr text =>
      let sign := charAt text 0 in
      let prefixed := jeqb sign (js "+") || jeqb sign (js "-") in
      let descending := prefixed && jeqb sign (js "-") in
      let* e := parse_order (if prefixed then drop 1 text else text) in
      if is_constant e then
        let* key := result_of (eval ho HUndef None e) h in
        Ok (descending, fun a => let* k := text_in h key in read ho h a k)
      else Ok (descending, fun a => result_of (eval ho a None e) h)
  | _ => Ok (false, fun a => if htruthy predicate then call h predicate [a] else Ok a)
  end.
Definition order_predicate (h : heap) (predicate : hval) : result js_error comparison :=
  let* g := order_getter h predicate in Ok (reversed g.1 (compare_by h g.2)).

Fixpoint comparator (predicates : list comparison) (o1 o2 : hval) : result js_error Z :=
  match predicates with
  | [] => Ok 0%Z
  | p :: predicates =>
      let* comp := p o1 o2 in
      if (comp =? 0)%Z then comparator predicates o1 o2 else Ok comp
  end.

Definition orderBy (array sortPredicate reverseOrder : hval) : run hval := fun h =>
  match isArray h array with
  | None => (Ok array, h)
  | Some l =>
      if htruthy sortPredicate then
        match (let* predicates := map_result (order_predicate h) (default [sortPredicate] (isArray h sortPredicate)) in
               let* reverse := toBoolean h reverseOrder in
               array_sort (reversed reverse (comparator predicates)) l) with
        | Ok sorted => new_object (OArr sorted) h
        | Throw e => (Throw e, h)
        end
      else (Ok array, h)
  end.
End OrderBy.
End Filters.
