(* ===== verification/FilterFacts.v ===== *)
(** * What limitTo and filter select *)

From Stdlib Require Import QArith Qround.
From S2P Require Import Prelude JsString JsObject JsNumber UriCodec Json Heap Lexer Parser Eval EvalFacts Filters.
#[local] Open Scope nat_scope.
Local Open Scope result_scope.
Local Open Scope handler_scope.

(** ** limitTo *)

(** The first [z] items, or the last [-z]; a limit that is not a number selects nothing. *)
Definition limited {A} (limit : limiting) (l : list A) : list A :=
  match limit with
  | LimNaN => []
  | LimInfinite _ => l
  | LimInt z => if (0 <=? z)%Z then take (Z.to_nat z) l else drop (length l - Z.to_nat (- z)) l
  end.

Lemma push_items_spec fuel (input : list hval) a b out :
  b - a <= fuel -> b <= length input ->
  push_items fuel input (Z.of_nat a) (Z.of_nat b) out = out ++ take (b - a) (drop a input).
Proof.
  revert a out. induction fuel as [|fuel IH]; intros a out Hf Hb; cbn [push_items].
  - assert (b - a = 0) as -> by lia. by rewrite take_0, app_nil_r.
  - destruct (Z.ltb_spec (Z.of_nat a) (Z.of_nat b)) as [Hlt|Hge].
    + replace (Z.of_nat a + 1)%Z with (Z.of_nat (S a)) by lia. rewrite IH by lia. rewrite Nat2Z.id.
      destruct (lookup_lt_is_Some_2 input a) as [x Hx]; [lia|]. rewrite Hx. cbn [default].
      rewrite (drop_S _ _ _ Hx). replace (b - a) with (S (b - S a)) by lia. cbn [take]. by rewrite <- app_assoc.
    + assert (b - a = 0) as -> by lia. by rewrite take_0, app_nil_r.
Qed.

Lemma limit_items_spec input limit : limit_items input limit = limited limit input.
Proof.
  assert (H : forall a b, a <= b -> b <= length input ->
    push_items (length input) input (Z.of_nat a) (Z.of_nat b) [] = take (b - a) (drop a input)).
  { intros a b Ha Hb. by rewrite push_items_spec by lia. }
  unfold limit_items, limited. destruct limit as [|[|]|z]; [done| | |].
  - destruct (Z.ltb_spec 0 (- Z.of_nat (length input))); [lia|].
    replace (Z.of_nat (length input) + - Z.of_nat (length input))%Z with (Z.of_nat 0) by lia.
    rewrite H by lia. rewrite drop_0, Nat.sub_0_r. by apply take_ge.
  - destruct (Z.ltb_spec 0 (Z.of_nat (length input))) as [Hl|Hl].
    + change 0%Z with (Z.of_nat 0). rewrite H by lia. rewrite drop_0, Nat.sub_0_r. by apply take_ge.
    + destruct input; [done|simpl in Hl; lia].
  - destruct (Z.ltb_spec (Z.of_nat (length input)) z) as [H1|H1]; [|destruct (Z.ltb_spec z (- Z.of_nat (length input))) as [H2|H2]].
    + destruct (Z.leb_spec 0 z); [|lia]. rewrite take_ge by lia.
      destruct (Z.ltb_spec 0 (Z.of_nat (length input))) as [Hl|Hl].
      * change 0%Z with (Z.of_nat 0). rewrite H by lia. rewrite drop_0, Nat.sub_0_r. by apply take_ge.
      * destruct input; [done|simpl in Hl; lia].
    + destruct (Z.leb_spec 0 z); [lia|]. destruct (Z.ltb_spec 0 (- Z.of_nat (length input))); [lia|].
      replace (Z.of_nat (length input) + - Z.of_nat (length input))%Z with (Z.of_nat 0) by lia.
      rewrite H by lia. replace (length input - Z.to_nat (- z)) with 0 by lia. rewrite drop_0, Nat.sub_0_r. by apply take_ge.
    + destruct (Z.ltb_spec 0 z) as [H3|H3].
      * destruct (Z.leb_spec 0 z); [|lia]. change 0%Z with (Z.of_nat 0). rewrite <- (Z2Nat.id z) at 1 by lia.
        rewrite H by lia. by rewrite drop_0, Nat.sub_0_r.
      * replace (Z.of_nat (length input) + z)%Z with (Z.of_nat (length input - Z.to_nat (- z))) by lia.
        rewrite H by lia. destruct (Z.leb_spec 0 z) as [H4|H4].
        { assert (z = 0%Z) as -> by lia. cbn. by rewrite Nat.sub_0_r, Nat.sub_diag. }
        apply take_ge. rewrite length_drop. lia.
Qed.

Lemma slice_front {A} (l : list A) z : (0 <= z)%Z -> slice 0 z l = take (Z.to_nat z) l.
Proof.
  intros Hz. unfold slice, slice_pos. destruct (Z.ltb_spec z 0); [lia|]. cbn [Z.ltb Z.compare].
  replace (Nat.min (length l) (Z.to_nat 0)) with 0 by lia. rewrite drop_0, Nat.sub_0_r.
  destruct (Nat.le_ge_cases (Z.to_nat z) (length l)); [by rewrite Nat.min_r|]. rewrite Nat.min_l by done.
  by rewrite !take_ge by lia.
Qed.
Lemma slice_back {A} (l : list A) z : (z < 0)%Z -> slice z (Z.of_nat (length l)) l = drop (length l - Z.to_nat (- z)) l.
Proof.
  intros Hz. unfold slice, slice_pos. destruct (Z.ltb_spec z 0); [|lia]. destruct (Z.ltb_spec (Z.of_nat (length l)) 0); [lia|].
  replace (Z.to_nat (Z.max 0 (Z.of_nat (length l) + z))) with (length l - Z.to_nat (- z)) by lia.
  apply take_ge. rewrite length_drop. lia.
Qed.

Lemma limit_string_spec input limit : limit_string input limit = limited limit input.
Proof.
  unfold limit_string, limited. destruct limit as [|[|]|z]; [done..|]. destruct (Z.eqb_spec z 0) as [->|]; [done|].
  destruct (Z.leb_spec 0 z); [by apply slice_front|by apply slice_back].
Qed.

(** [limitTo].  It gives a new array of the first items (a string of the first characters) for
    a limit that is positive or null, of the last ones for a negative limit, all of them for an
    infinite one or one beyond the length, none for one that is not a number; the array of the
    call is not changed, and what is neither an array nor a string is returned as it is. *)
Theorem limitTo_spec ho input limit h :
  match input, isArray h input with
  | HStr s, _ => limitTo ho input limit h = (l <- get_limit ho limit ;; hret (HStr (limited l s))) h
  | _, Some items => limitTo ho input limit h = (l <- get_limit ho limit ;; new_object (OArr (limited l items))) h
  | _, None => limitTo ho input limit h = (Ok input, h)
  end /\
  forall z (items : list hval), length (limited (LimInt z) items) = Nat.min (Z.to_nat (Z.abs z)) (length items).
Proof.
  split.
  - unfold limitTo. destruct input as [| | | |s| |r]; try done.
    + apply hbind_ext; [done|]. intros l h'. by rewrite limit_string_spec.
    + destruct (isArray h (HRef r)) as [items|]; [|done]. apply hbind_ext; [done|]. intros l h'. by rewrite limit_items_spec.
  - intros z items. unfold limited. destruct (Z.leb_spec 0 z).
    + rewrite length_take. lia.
    + rewrite length_drop. lia.
Qed.

(** ** filter *)

Section Text.
Context (ho : host) (lower : jstr -> jstr) (h : heap).
(** The objects reached through enumerable properties have no cycle. *)
Context (rank : nat -> nat).
Context (Hrank : forall r k r', k ∈ for_in h r -> read ho h (HRef r) k = Ok (HRef r') -> rank r' < rank r).
Context (t : jstr) (Ht : negated (HStr t) = None).

Definition height (v : hval) : nat := match v with HRef r => S (rank r) | _ => 0 end.
Definition contains (v : hval) : bool := is_found (indexOf (lower (prim_text v)) (lower t)).

Lemma default_comparator_text n v :
  is_object v = false -> v <> HNull -> default_comparator ho lower n h v (HStr t) = Ok (contains v).
Proof.
  intros Ho Hn. assert (E : object_type h v = false) by (unfold object_type; by destruct v).
  destruct n; cbn [default_comparator]; rewrite E, andb_false_r; unfold lower_text, text_in, result_of, to_text, to_prim;
    cbn; by rewrite Ho.
Qed.

Lemma typeof_primitive v : typeof h v ∈ [TyBoolean; TyNumber; TyString] -> is_object v = false /\ v <> HNull.
Proof.
  rewrite !list_elem_of_In. destruct v as [| | | | | |r]; try done; cbn [typeof]; [simpl; intuition congruence..|].
  destruct (isFunction h (HRef r)); simpl; intuition congruence.
Qed.

Lemma any_name_ok f g ks : (forall k, k ∈ ks -> f k = Ok (g k)) -> any_name f ks = Ok (existsb g ks).
Proof.
  induction ks as [|k ks IH]; intros H; [done|]. cbn [any_name existsb]. rewrite H by left. cbn.
  destruct (g k); [done|]. apply IH. intros k' Hk'. apply H. by right.
Qed.

Abbreviation found n v := (search ho h (default_comparator ho lower n h) n v (HStr t)).
Abbreviation run_search m n v := (search ho h (default_comparator ho lower m h) n v (HStr t)).

(** What is kept, to a depth. *)
Fixpoint keeps (n : nat) (v : hval) : bool :=
  match typeof h v with
  | TyBoolean | TyNumber | TyString => contains v
  | TyObject =>
      existsb (fun k => negb (is_private k) &&
        match read ho h v k, n with Ok x, S n => keeps n x | _, _ => false end) (names h v)
  | _ => false
  end.

Lemma keeps_S n v :
  keeps (S n) v = match typeof h v with
                  | TyBoolean | TyNumber | TyString => contains v
                  | TyObject => existsb (fun k => negb (is_private k) && match read ho h v k with Ok x => keeps n x | Throw _ => false end) (names h v)
                  | TyFunction | TyUndefined => false
                  end.
Proof. cbn [keeps]. by destruct (typeof h v). Qed.

Lemma existsb_ext_in {A} (f g : A -> bool) l : (forall x, x ∈ l -> f x = g x) -> existsb f l = existsb g l.
Proof.
  induction l as [|x l IH]; intros H; [done|]. cbn. rewrite H by left. f_equal. apply IH. intros y Hy. apply H. by right.
Qed.

Lemma child_height v k x : k ∈ names h v -> read ho h v k = Ok x -> height x < height v.
Proof.
  destruct v as [| | | | | |r]; cbn [names]; intros Hk; [by apply elem_of_nil in Hk..|]. intros Hx.
  destruct x as [| | | | | |r']; cbn [height]; [lia..|]. pose proof (Hrank r k r' Hk Hx). lia.
Qed.

Lemma keeps_depth n m v : height v <= n -> height v <= m -> keeps n v = keeps m v.
Proof.
  revert m v. induction n as [|n IH]; intros m v Hn Hm.
  - destruct v, m; try done. simpl in Hn. lia.
  - destruct m as [|m]; [destruct v; try done; simpl in Hm; lia|]. cbn [keeps]. destruct (typeof h v); try done.
    apply existsb_ext_in. intros k Hk. f_equal. destruct (read ho h v k) as [x|] eqn:E; [|done].
    pose proof (child_height v k x Hk E). apply IH; lia.
Qed.

Lemma search_keeps m n v : height v <= n -> run_search m n v = Ok (keeps n v).
Proof.
  revert v. induction n as [|n IH]; intros v Hn; cbn [search keeps]; rewrite Ht.
  - destruct v; cbn [typeof] in *; try done; try (by rewrite default_comparator_text); simpl in Hn; lia.
  - destruct (typeof h v) eqn:Ety; try done;
      try (apply default_comparator_text; apply typeof_primitive; rewrite Ety, list_elem_of_In; simpl; tauto).
    change (object_type h (HStr t)) with false. cbn [negb]. apply any_name_ok. intros k Hk. destruct (is_private k); [done|].
    destruct (read ho h v k) as [x|e] eqn:E; [|destruct v; try done; by apply elem_of_nil in Hk].
    cbn. apply IH. pose proof (child_height v k x Hk E). lia.
Qed.

Lemma filtered_ok stack comparator text (keep : hval -> bool) l :
  (forall v, search ho h comparator stack v text = Ok (keep v)) ->
  filtered ho stack h comparator [PSearch (js "$") text] l = Ok (List.filter keep l).
Proof.
  intros H. induction l as [|v l IH]; [done|]. cbn [filtered check holds List.filter]. rewrite jeqb_refl. cbn. rewrite H. cbn.
  rewrite IH. by destruct (keep v).
Qed.
End Text.

(** C29: [filter] with a text [t] that does not start with '!'.  On objects without cycles, and with
    enough stack for their depth, the call gives a new array with the items that match, in their
    order, and the call with ['!' + t] gives the others.  A boolean, a number or a text matches when its lower case
    text contains that of [t]; an object or an array when one of its enumerable properties does, those
    with a name in '$' apart; a function, [undefined] and [null] never do. *)
Theorem filter_text ho lower h rank depth stack t :
  (forall r k r', k ∈ for_in h r -> read ho h (HRef r) k = Ok (HRef r') -> rank r' < rank r) ->
  (forall r, rank r <= depth) -> depth + 2 <= stack -> charAt t 0 <> js "!" ->
  exists keep : hval -> bool,
    (forall array l, isArray h array = Some l ->
       filterFilter ho lower stack array (HStr t) HUndef h = new_object (OArr (List.filter keep l)) h /\
       filterFilter ho lower stack array (HStr (js "!" ++ t)) HUndef h = new_object (OArr (List.filter (fun v => negb (keep v)) l)) h) /\
    forall v, keep v =
      match typeof h v with
      | TyBoolean | TyNumber | TyString => is_found (indexOf (lower (prim_text v)) (lower t))
      | TyObject => existsb (fun k => negb (is_private k) && match read ho h v k with Ok x => keep x | Throw _ => false end) (names h v)
      | TyFunction | TyUndefined => false
      end.
Proof.
  intros Hrank Hdepth Hstack Ht0.
  assert (Ht : negated (HStr t) = None).
  { destruct t as [|c u]; [done|]. cbn. destruct (N.eqb_spec c (chr "!")) as [->|]; [|done]. by destruct Ht0. }
  assert (Hh : forall v, height rank v <= S depth) by (intros v; destruct v; cbn [height]; try lia; specialize (Hdepth r); lia).
  pose proof (search_keeps ho lower h rank Hrank t Ht) as Hs. exists (keeps ho lower h t (S depth)). split.
  - intros array l El. unfold filterFilter. rewrite El. cbn [predicates_of typeof]. split.
    + rewrite (filtered_ok _ _ _ _ _ (keeps ho lower h t (S depth))); [done|]. intros v.
      rewrite <- (keeps_depth ho lower h rank Hrank t stack (S depth)) by (specialize (Hh v); lia).
      apply Hs. specialize (Hh v). lia.
    + rewrite (filtered_ok _ _ _ _ _ (fun v => negb (keeps ho lower h t (S depth) v))); [done|]. intros v.
      destruct stack as [|s]; [lia|]. cbn [search]. change (negated (HStr (js "!" ++ t))) with (Some (HStr t)). cbv iota.
      rewrite (keeps_depth ho lower h rank Hrank t (S depth) s) by (specialize (Hh v); lia).
      change (comparator_fn ho lower (S s) h HUndef) with (default_comparator ho lower (S s) h).
      rewrite (Hs (S s) s v) by (specialize (Hh v); lia). done.
  - intros v. etransitivity; [apply keeps_S|]. destruct (typeof h v); try done. apply existsb_ext_in. intros k Hk. f_equal.
    destruct (read ho h v k) as [x|] eqn:E; [|done]. pose proof (child_height ho h rank Hrank v k x Hk E) as Hc.
    apply (keeps_depth ho lower h rank Hrank t); specialize (Hh v); lia.
Qed.

(** Two people, by a part of a name. *)
Lemma filter_text_witness :
  let h := Heap (<[0 := OArr [HRef 1; HRef 2; HStr (js "Joann")]]>
                (<[1 := OObj None (ob_set [] (js "name") (HStr (js "Ann")))]>
                (<[2 := OObj None (ob_set [] (js "$id") (HStr (js "ann")))]> ∅))) 3 in
  exists keep : hval -> bool,
    filterFilter bare_host (map lower_ascii) 5 (HRef 0) (HStr (js "!aNN")) HUndef h =
      new_object (OArr (List.filter (fun v => negb (keep v)) [HRef 1; HRef 2; HStr (js "Joann")])) h /\
    keep (HStr (js "Joann")) = true.
Proof.
  intros h. destruct (filter_text bare_host (map lower_ascii) h (fun r => if Nat.eqb r 0 then 1 else 0) 1 5 (js "aNN"))
    as (keep & Hf & Hk); [|by intros r; destruct (Nat.eqb r 0); lia|lia|done|].
  - intros r k r' Hk Hr. destruct r as [|[|[|r]]].
    + assert (E : for_in h 0 = [js "0"; js "1"; js "2"]) by (vm_compute; reflexivity). rewrite E in Hk. rewrite !elem_of_cons, elem_of_nil in Hk. destruct Hk as [->|[->|[->|[]]]]; vm_compute in Hr; try done;
        injection Hr as <-; apply Nat.lt_0_1.
    + apply list_elem_of_singleton in Hk as ->. by vm_compute in Hr.
    + apply list_elem_of_singleton in Hk as ->. by vm_compute in Hr.
    + assert (E : h_store h !! S (S (S r)) = None) by (unfold h; cbn [h_store]; by rewrite !lookup_insert_ne, lookup_empty by lia).
      unfold for_in in Hk. cbn [h_next h chain_names] in Hk. rewrite E in Hk. by apply elem_of_nil in Hk.
  - exists keep. split; [by apply (Hf (HRef 0))|]. rewrite Hk. vm_compute. reflexivity.
Defined.
