(* ===== verification/OrderFacts.v ===== *)
(** * The order of orderBy *)

From Stdlib Require Import QArith Qround Sorted.
From S2P Require Import Prelude JsString JsObject JsNumber UriCodec Json Heap Lexer Parser Eval EvalFacts Filters.
#[local] Open Scope nat_scope.
Local Open Scope result_scope.
Local Open Scope handler_scope.

(** ** Comparison functions *)

(** A consistent comparison function on the values of a set, as [Array.prototype.sort] needs it. *)
Record consistent {A} (P : A -> Prop) (c : A -> A -> Z) : Prop := {
  cmp_flip : forall x y, P x -> P y -> (c x y < 0 <-> 0 < c y x)%Z;
  cmp_trans : forall x y z, P x -> P y -> P z -> (c x y <= 0 -> c y z <= 0 -> c x z <= 0)%Z
}.

Section Consistent.
Context {A : Type} (P : A -> Prop).
Implicit Types c : A -> A -> Z.

Lemma cmp_zero c x y : consistent P c -> P x -> P y -> (c x y = 0 -> c y x = 0)%Z.
Proof. intros C Hx Hy E. pose proof (cmp_flip _ _ C x y Hx Hy). pose proof (cmp_flip _ _ C y x Hy Hx). lia. Qed.

Lemma consistent_flip c : consistent P c -> consistent P (fun x y => c y x).
Proof.
  intros C. split.
  - intros x y Hx Hy. by apply (cmp_flip _ _ C).
  - intros x y z Hx Hy Hz H1 H2. by apply (cmp_trans _ _ C z y x).
Qed.

Lemma consistent_pull {B} (Q : B -> Prop) (f : B -> A) c :
  consistent P c -> (forall b, Q b -> P (f b)) -> consistent Q (fun x y => c (f x) (f y)).
Proof.
  intros C Hf. split.
  - intros x y Hx Hy. apply (cmp_flip _ _ C); auto.
  - intros x y z Hx Hy Hz. apply (cmp_trans _ _ C); auto.
Qed.

Lemma consistent_lex c d : consistent P c -> consistent P d -> consistent P (fun x y => if (c x y =? 0)%Z then d x y else c x y).
Proof.
  intros C D. split.
  - intros x y Hx Hy. pose proof (cmp_flip _ _ C x y Hx Hy). pose proof (cmp_flip _ _ C y x Hy Hx).
    pose proof (cmp_flip _ _ D x y Hx Hy). destruct (Z.eqb_spec (c x y) 0), (Z.eqb_spec (c y x) 0); lia.
  - intros x y z Hx Hy Hz. pose proof (cmp_trans _ _ C x y z Hx Hy Hz). pose proof (cmp_trans _ _ D x y z Hx Hy Hz).
    pose proof (cmp_trans _ _ C z x y Hz Hx Hy). pose proof (cmp_trans _ _ C y z x Hy Hz Hx).
    pose proof (cmp_flip _ _ C x y Hx Hy). pose proof (cmp_flip _ _ C y x Hy Hx).
    pose proof (cmp_flip _ _ C z y Hz Hy). pose proof (cmp_flip _ _ C y z Hy Hz).
    pose proof (cmp_flip _ _ C x z Hx Hz). pose proof (cmp_flip _ _ C z x Hz Hx).
    destruct (Z.eqb_spec (c x y) 0), (Z.eqb_spec (c y z) 0), (Z.eqb_spec (c x z) 0); lia.
Qed.

(** The three ways of a total preorder. *)
Definition three_way (le : A -> A -> bool) (x y : A) : Z := if le x y then if le y x then 0%Z else (-1)%Z else 1%Z.
Lemma consistent_three_way le :
  (forall x y, P x -> P y -> le x y = true \/ le y x = true) ->
  (forall x y z, P x -> P y -> P z -> le x y = true -> le y z = true -> le x z = true) -> consistent P (three_way le).
Proof.
  intros Ht Htr. unfold three_way. split.
  - intros x y Hx Hy. pose proof (Ht x y Hx Hy) as H. destruct (le x y), (le y x); destruct H; try done; lia.
  - intros x y z Hx Hy Hz H1 H2. destruct (le x y) eqn:E1; [|lia]. destruct (le y z) eqn:E2; [|lia].
    rewrite (Htr x y z) by done. destruct (le z x); lia.
Qed.
End Consistent.

(** ** The comparison of keys *)

Lemma str_lt_irrefl s : str_lt s s = false.
Proof. induction s as [|c s IH]; [done|]. cbn. by rewrite N.ltb_irrefl, N.eqb_refl. Qed.
Lemma str_lt_trans s t u : str_lt s t = true -> str_lt t u = true -> str_lt s u = true.
Proof.
  revert t u. induction s as [|c s IH]; intros [|d t] [|e u]; cbn; try done.
  destruct (N.ltb_spec c d), (N.eqb_spec c d), (N.ltb_spec d e), (N.eqb_spec d e), (N.ltb_spec c e), (N.eqb_spec c e); try done; try lia.
  apply IH.
Qed.
Lemma str_lt_total s t : s = t \/ str_lt s t = true \/ str_lt t s = true.
Proof.
  revert t. induction s as [|c s IH]; intros [|d t]; cbn; auto.
  destruct (N.ltb_spec c d), (N.eqb_spec c d), (N.ltb_spec d c), (N.eqb_spec d c); auto; try lia. subst.
  destruct (IH t) as [->|[?|?]]; auto.
Qed.
Lemma str_lt_false s t : str_lt t s = false <-> s = t \/ str_lt s t = true.
Proof.
  split.
  - intros E. destruct (str_lt_total s t) as [?|[?|?]]; auto. congruence.
  - intros [->|E]; [apply str_lt_irrefl|]. destruct (str_lt t s) eqn:E'; [|done].
    by rewrite <- (str_lt_irrefl s), (str_lt_trans _ _ _ E E').
Qed.

Section Keys.
Context (ho : host) (lower : jstr -> jstr) (h : heap).

(** The keys that compare as a person expects: not objects, not functions, not [NaN]. *)
Definition comparable (v : hval) : bool :=
  match v with HUndef | HNull | HBool _ | HStr _ | HNum (Fin _) | HNum (Inf _) => true | _ => false end.

(** Booleans come before numbers, then [null], texts and [undefined]. *)
Definition type_rank (v : hval) : nat :=
  match v with HBool _ => 0 | HNum _ => 1 | HStr _ => 3 | HUndef => 4 | _ => 2 end.
Definition key_le (v w : hval) : bool :=
  Nat.ltb (type_rank v) (type_rank w) ||
  Nat.eqb (type_rank v) (type_rank w) &&
  match v, w with
  | HBool a, HBool b => implb a b
  | HNum x, HNum y => num_le x y
  | HStr s, HStr t => negb (str_lt (lower t) (lower s))
  | _, _ => true
  end.
Definition key_cmp : hval -> hval -> Z := three_way key_le.

Lemma Qle_bool_total (p q : Q) : Qle_bool p q = true \/ Qle_bool q p = true.
Proof. rewrite !Qle_bool_iff. destruct (Qlt_le_dec p q); [left; by apply Qlt_le_weak|by right]. Qed.

Lemma key_cmp_consistent : consistent (fun v => comparable v = true) key_cmp.
Proof.
  apply consistent_three_way.
  - intros x y Hx Hy. unfold key_le. destruct x as [| |a|[|b|p]|s| |r], y as [| |a'|[|b'|p']|s'| |r']; try done; auto; cbn.
    + destruct a, a'; auto.
    + destruct b, b'; auto.
    + destruct b; auto.
    + destruct b'; auto.
    + rewrite !negb_involutive. apply Qle_bool_total.
    + destruct (str_lt_total (lower s) (lower s')) as [E|[E|E]].
      * left. rewrite E. by rewrite str_lt_irrefl.
      * left. rewrite (proj2 (str_lt_false _ _)); auto.
      * right. rewrite (proj2 (str_lt_false _ _)); auto.
  - intros x y z Hx Hy Hz. unfold key_le.
    destruct x as [| |a|[|b|p]|s| |r], y as [| |a'|[|b'|p']|s'| |r'], z as [| |a''|[|b''|p'']|s''| |r'']; try done; cbn;
      try (by destruct b); try (by destruct b'); try (by destruct b''); try (by destruct b, b'); try (by destruct b, b'');
      try (by destruct b', b''); try (by destruct b, b', b'').
    + by destruct a, a', a''.
    + rewrite !negb_involutive, !Qle_bool_iff. apply Qle_trans.
    + rewrite !negb_true_iff, !str_lt_false. intros [->|H1] [H2|H2]; [by left|by right|rewrite <- H2; by right|].
      right. by eapply str_lt_trans.
Qed.

(** What [compare] computes. *)
Lemma compare_keys v w : comparable v = true -> comparable w = true -> compare ho lower h v w = Ok (key_cmp v w).
Proof.
  intros Hv Hw. destruct v as [| |a|[|b|p]|s| |r], w as [| |a'|[|b'|p']|s'| |r']; try done; try (by destruct a, a');
    try (by destruct b); try (by destruct b'); try (by destruct b, b').
  - unfold compare. cbn. unfold key_cmp, three_way, key_le. cbn. rewrite !negb_involutive.
    destruct (Qeq_bool p p') eqn:E.
    + apply Qeq_bool_iff in E. by rewrite !(proj2 (Qle_bool_iff _ _)) by (rewrite E; apply Qle_refl).
    + destruct (Qle_bool p' p) eqn:E1, (Qle_bool p p') eqn:E2; try done.
      * exfalso. apply Qeq_bool_neq in E. apply E, Qle_antisym; by apply Qle_bool_iff.
      * destruct (Qle_bool_total p p'); congruence.
  - unfold compare. cbn. unfold key_cmp, three_way, key_le. cbn.
    destruct (jeqb (lower s) (lower s')) eqn:E.
    + apply jeqb_true in E. by rewrite E, !str_lt_irrefl.
    + apply jeqb_false in E. destruct (str_lt_total (lower s) (lower s')) as [?|[H|H]]; [done| |]; rewrite H; cbn.
      * by rewrite (proj2 (str_lt_false (lower s) (lower s'))) by auto.
      * rewrite (proj2 (str_lt_false (lower s') (lower s))); auto.
Qed.
End Keys.

(** ** Sorting *)

(** [SortCompare] of the standard: [undefined] is last, and the function is not asked about it. *)
Definition sort_compare (c : hval -> hval -> Z) (x y : hval) : Z :=
  match x, y with
  | HUndef, HUndef => 0
  | HUndef, _ => 1
  | _, HUndef => -1
  | _, _ => c x y
  end.
Definition defined (l : list hval) (x : hval) : Prop := x ∈ l /\ x <> HUndef.

(** [Array.prototype.sort] (ECMAScript 5, 15.4.4.11): with a comparison function that is consistent
    on the items, the result is a permutation of them in ascending order. *)
Definition es5_sort (array_sort : comparison -> list hval -> result js_error (list hval)) : Prop :=
  forall cmp c l,
    (forall x y, defined l x -> defined l y -> cmp x y = Ok (c x y)) -> consistent (defined l) c ->
    exists l', array_sort cmp l = Ok l' /\ l' ≡ₚ l /\ StronglySorted (fun x y => (sort_compare c x y <= 0)%Z) l'.

Section Sorting.
Context (ho : host) (lower : jstr -> jstr) (has_filter : jstr -> bool) (h : heap).

Abbreviation getter := (bool * (hval -> result js_error hval))%type.

(** The order of the keys, in the order of the predicates. *)
Definition signed_cmp (g : getter) (x y : hval) : Z :=
  match g.2 x, g.2 y with
  | Ok a, Ok b => if g.1 then key_cmp lower b a else key_cmp lower a b
  | _, _ => 0%Z
  end.
Fixpoint lexicographic (getters : list getter) (x y : hval) : Z :=
  match getters with
  | [] => 0%Z
  | g :: getters => if (signed_cmp g x y =? 0)%Z then lexicographic getters x y else signed_cmp g x y
  end.

(** Every key of the item is comparable. *)
Definition keyed (getters : list getter) (x : hval) : Prop :=
  Forall (fun g => exists k, g.2 x = Ok k /\ comparable k = true) getters.

Lemma comparator_lex getters x y :
  keyed getters x -> keyed getters y ->
  comparator ((fun g => reversed g.1 (compare_by ho lower h g.2)) <$> getters) x y = Ok (lexicographic getters x y).
Proof.
  induction getters as [|[d g] gs IH]; intros Hx Hy; [done|].
  apply Forall_cons in Hx as [(a & Ea & Ca) Hx]. apply Forall_cons in Hy as [(b & Eb & Cb) Hy]. cbn in Ea, Eb.
  assert (E : reversed d (compare_by ho lower h g) x y = Ok (signed_cmp (d, g) x y)).
  { unfold reversed, compare_by, signed_cmp. cbn. rewrite Ea, Eb. destruct d; cbn; by rewrite compare_keys. }
  cbn [comparator fmap list_fmap lexicographic fst snd]. rewrite E. cbn. destruct (signed_cmp (d, g) x y =? 0)%Z; auto.
Qed.

Lemma lexicographic_consistent P getters :
  (forall x, P x -> keyed getters x) -> consistent P (lexicographic getters).
Proof.
  induction getters as [|[d g] gs IH]; intros Hk; [by split|]. cbn [lexicographic]. apply consistent_lex.
  - pose (key x := match g x with Ok k => k | Throw _ => HUndef end).
    assert (Hc : forall x, P x -> comparable (key x) = true /\ g x = Ok (key x)).
    { intros x Hx. apply Hk in Hx. apply Forall_cons in Hx as [(k & Ek & Ck) _]. unfold key. cbn in Ek. by rewrite Ek. }
    pose proof (key_cmp_consistent lower) as C.
    assert (E : forall x y, P x -> P y -> signed_cmp (d, g) x y = if d then key_cmp lower (key y) (key x) else key_cmp lower (key x) (key y)).
    { intros x y Hx Hy. unfold signed_cmp. cbn. destruct (Hc x Hx) as [_ Ex], (Hc y Hy) as [_ Ey]. by rewrite Ex, Ey. }
    assert (Cd : consistent P (fun x y => if d then key_cmp lower (key y) (key x) else key_cmp lower (key x) (key y))).
    { destruct d; [apply consistent_flip|]; apply (consistent_pull _ _ key _ C); intros x Hx; by apply Hc. }
    split.
    + intros x y Hx Hy. rewrite !E by done. by apply (cmp_flip _ _ Cd).
    + intros x y z Hx Hy Hz. rewrite !E by done. by apply (cmp_trans _ _ Cd x y z).
  - apply IH. intros x Hx. apply Hk in Hx. by apply Forall_cons in Hx as [_ ?].
Qed.

Lemma order_predicates preds getters :
  map_result (order_getter ho has_filter h) preds = Ok getters ->
  map_result (order_predicate ho lower has_filter h) preds = Ok ((fun g => reversed g.1 (compare_by ho lower h g.2)) <$> getters).
Proof.
  revert getters. induction preds as [|p ps IH]; intros getters; cbn [map_result]; [by intros [= <-]|].
  unfold order_predicate. destruct (order_getter ho has_filter h p) as [g|e]; [|done]. cbn.
  destruct (map_result (order_getter ho has_filter h) ps) as [gs|e]; [|done]. cbn. intros [= <-].
  fold (order_predicate ho lower has_filter h). by rewrite (IH gs eq_refl).
Qed.

(** C30: [orderBy].  When every key that the predicates find in the items is a boolean, a number, a
    text, [null] or [undefined], the call gives a new array with the same items, ordered by the
    first predicate, then by the second where the first does not decide, and so on; a predicate
    in '-' orders the other way, as [reverse] does with the whole; [undefined] items are last in
    any case.  Texts are compared in lower case, and keys of several types by their type. *)
Theorem orderBy_sorts array_sort array l sortPredicate reverseOrder reverse getters :
  es5_sort array_sort -> isArray h array = Some l -> htruthy sortPredicate = true ->
  map_result (order_getter ho has_filter h) (default [sortPredicate] (isArray h sortPredicate)) = Ok getters ->
  toBoolean ho lower h reverseOrder = Ok reverse ->
  (forall x, defined l x -> keyed getters x) ->
  exists l',
    orderBy ho lower has_filter array_sort array sortPredicate reverseOrder h = new_object (OArr l') h /\ l' ≡ₚ l /\
    StronglySorted (fun x y => (sort_compare (fun x y => if reverse then lexicographic getters y x else lexicographic getters x y) x y <= 0)%Z) l'.
Proof.
  intros Hs El Ht Eg Er Hk. unfold orderBy. rewrite El, Ht, (order_predicates _ _ Eg). cbn. rewrite Er. cbn.
  destruct (Hs (reversed reverse (comparator ((fun g => reversed g.1 (compare_by ho lower h g.2)) <$> getters)))
    (fun x y => if reverse then lexicographic getters y x else lexicographic getters x y) l) as (l' & E & Hp & Hsort).
  - intros x y Hx%Hk Hy%Hk. unfold reversed. destruct reverse; by apply comparator_lex.
  - pose proof (lexicographic_consistent (defined l) getters Hk). destruct reverse; [by apply consistent_flip|done].
  - exists l'. by rewrite E.
Qed.
End Sorting.

(** ** A sort *)

Definition ask (cmp : comparison) (x y : hval) : result js_error Z :=
  match x, y with
  | HUndef, HUndef => Ok 0%Z
  | HUndef, _ => Ok 1%Z
  | _, HUndef => Ok (-1)%Z
  | _, _ => cmp x y
  end.
Fixpoint sort_insert (cmp : comparison) (x : hval) (l : list hval) : result js_error (list hval) :=
  match l with
  | [] => Ok [x]
  | y :: l => let* c := ask cmp x y in
              if (c <=? 0)%Z then Ok (x :: y :: l) else let* l := sort_insert cmp x l in Ok (y :: l)
  end.
Fixpoint insertion_sort (cmp : comparison) (l : list hval) : result js_error (list hval) :=
  match l with [] => Ok [] | x :: l => let* l := insertion_sort cmp l in sort_insert cmp x l end.

Lemma sort_compare_consistent l c : consistent (defined l) c -> consistent (fun x => x ∈ l) (sort_compare c).
Proof.
  intros C. assert (D : forall x, x ∈ l -> x = HUndef \/ defined l x) by (intros [] Hx; (by left) || (right; by split)).
  assert (U : forall x y, x <> HUndef -> y <> HUndef -> sort_compare c x y = c x y) by (intros [] []; done).
  assert (U1 : forall x, x <> HUndef -> sort_compare c x HUndef = (-1)%Z /\ sort_compare c HUndef x = 1%Z) by (by intros []).
  split.
  - intros x y [->|[Hx Hx']]%D [->|[Hy Hy']]%D; [done|destruct (U1 y Hy') as [-> ->]; lia|destruct (U1 x Hx') as [-> ->]; lia|].
    rewrite !U by done. by apply (cmp_flip _ _ C).
  - intros x y z [->|[Hx Hx']]%D [->|[Hy Hy']]%D [->|[Hz Hz']]%D; try done;
      rewrite ?(proj1 (U1 x Hx')), ?(proj2 (U1 x Hx')), ?(proj1 (U1 y Hy')), ?(proj2 (U1 y Hy')), ?(proj1 (U1 z Hz')), ?(proj2 (U1 z Hz')); try lia.
    rewrite !U by done. by apply (cmp_trans _ _ C x y z).
Qed.

Section InsertionSort.
Context (cmp : comparison) (c : hval -> hval -> Z) (S : hval -> Prop).
Context (Hcmp : forall x y, S x -> S y -> ask cmp x y = Ok (sort_compare c x y)) (C : consistent S (sort_compare c)).

Abbreviation ascending := (StronglySorted (fun x y => (sort_compare c x y <= 0)%Z)).

Lemma sort_insert_ok x l :
  S x -> Forall S l -> ascending l -> exists l', sort_insert cmp x l = Ok l' /\ l' ≡ₚ x :: l /\ ascending l'.
Proof.
  intros Hx. induction l as [|y l IH]; intros Hl Hs; cbn [sort_insert].
  - exists [x]. split_and!; [done|done|by repeat constructor].
  - apply Forall_cons in Hl as [Hy Hl]. apply StronglySorted_inv in Hs as [Hs Hyl]. rewrite Hcmp by done. cbn.
    destruct (Z.leb_spec (sort_compare c x y) 0) as [Hle|Hgt].
    + exists (x :: y :: l). split_and!; [done|done|]. constructor; [by constructor|]. constructor; [done|].
      rewrite Forall_forall in Hyl |- *. intros z Hz. apply (cmp_trans _ _ C x y z); auto. by eapply Forall_forall in Hl; [|exact Hz].
    + destruct (IH Hl Hs) as (l' & -> & Hp & Hs'). exists (y :: l'). cbn. split_and!; [done|rewrite Hp; apply Permutation_swap|].
      constructor; [done|]. rewrite Hp. constructor; [|done]. pose proof (cmp_flip _ _ C y x Hy Hx). lia.
Qed.

Lemma insertion_sort_ok l :
  Forall S l -> exists l', insertion_sort cmp l = Ok l' /\ l' ≡ₚ l /\ ascending l'.
Proof.
  induction l as [|x l IH]; intros Hl; cbn [insertion_sort]; [exists []; split_and!; [done|done|constructor]|].
  apply Forall_cons in Hl as [Hx Hl]. destruct (IH Hl) as (l1 & -> & Hp & Hs). cbn.
  destruct (sort_insert_ok x l1 Hx) as (l' & -> & Hp' & Hs'); [by rewrite Hp|done|]. exists l'. split_and!; [done|by rewrite Hp', Hp|done].
Qed.
End InsertionSort.

(** The hypothesis on the sort can be met. *)
Lemma insertion_sort_es5 : es5_sort insertion_sort.
Proof.
  intros cmp c l Hcmp C. apply (insertion_sort_ok cmp c (fun x => x ∈ l)).
  - intros x y Hx Hy. destruct x, y; try done; by apply Hcmp.
  - by apply sort_compare_consistent.
  - by apply Forall_forall.
Qed.

(** A test of the keys. *)
Definition keyed_check (getters : result js_error (list (bool * (hval -> result js_error hval)))) (l : list hval) : bool :=
  match getters with
  | Ok gs => forallb (fun x => forallb (fun g => match g.2 x with Ok k => comparable k | Throw _ => false end) gs) l
  | Throw _ => false
  end.
Lemma keyed_check_ok gs l : keyed_check (Ok gs) l = true -> forall x, x ∈ l -> keyed gs x.
Proof.
  intros H x Hx. cbn in H. rewrite forallb_forall in H. apply list_elem_of_In in Hx. apply H in Hx. rewrite forallb_forall in Hx.
  apply Forall_forall. intros g Hg. apply list_elem_of_In, Hx in Hg. destruct (g.2 x) as [k|e]; [by exists k|done].
Qed.

(** Friends by age, the oldest first, then by name. *)
Definition friends : heap :=
  let friend n a := OObj None (ob_set (ob_set [] (js "name") (HStr n)) (js "age") (HNum (Fin a))) in
  Heap (<[0 := OArr [HRef 1; HUndef; HRef 2; HRef 3]]> (<[1 := friend (js "Mary") 19%Q]> (<[2 := friend (js "John") 10%Q]>
       (<[3 := friend (js "adam") 19%Q]> (<[4 := OArr [HStr (js "-age"); HStr (js "name")]]> ∅))))) 5.

Lemma orderBy_sorts_witness :
  orderBy bare_host (map lower_ascii) (fun _ => false) insertion_sort (HRef 0) (HRef 4) HUndef friends =
    new_object (OArr [HRef 3; HRef 1; HRef 2; HUndef]) friends /\
  exists l', orderBy bare_host (map lower_ascii) (fun _ => false) insertion_sort (HRef 0) (HRef 4) HUndef friends =
    new_object (OArr l') friends /\ l' ≡ₚ [HRef 1; HUndef; HRef 2; HRef 3].
Proof.
  split; [vm_compute; reflexivity|].
  assert (Hk : keyed_check (map_result (order_getter bare_host (fun _ => false) friends) (default [HRef 4] (isArray friends (HRef 4))))
                 [HRef 1; HRef 2; HRef 3] = true) by (vm_compute; reflexivity).
  destruct (map_result _ _) as [gs|e] eqn:Eg; [|discriminate].
  destruct (orderBy_sorts bare_host (map lower_ascii) (fun _ => false) friends insertion_sort (HRef 0) [HRef 1; HUndef; HRef 2; HRef 3]
    (HRef 4) HUndef false gs insertion_sort_es5 eq_refl eq_refl Eg eq_refl) as (l' & E & Hp & _); [|by exists l'].
  intros x [Hx Hu]. apply (keyed_check_ok _ _ Hk). set_solver.
Defined.

(** Without such keys the comparison is not consistent: [NaN], and two dates of the same time, are
    greater than each other. *)
Example compare_inconsistent :
  compare bare_host (fun s => s) friends (HNum NaN) (HNum NaN) = Ok 1%Z /\
  let h := Heap (<[0 := ODate (Some 0%Z)]> (<[1 := ODate (Some 0%Z)]> ∅)) 2 in
  let ho := Host (fun _ _ _ => HUndef) (fun _ _ _ => hret HUndef) (fun _ _ => hret (HNum (Fin 0))) (fun _ _ => hret tt)
                 HUndef [] (fun _ _ _ => hret HUndef) in
  compare ho (fun s => s) h (HRef 0) (HRef 1) = Ok 1%Z /\ compare ho (fun s => s) h (HRef 1) (HRef 0) = Ok 1%Z.
Proof. vm_compute. auto. Qed.
