(* ===== verification/Form.v ===== *)
(** * Forms and their controls (angular.js, FormController and NgModelController)

    The forms and the controls of a page are the nodes of one store.  Names of validators are not those of
    [Object.prototype], names of controls do not start with '$'.  The classes are those of the
    element of the node. *)

From S2P Require Import Prelude JsString JsObject Json.
Local Open Scope result_scope.

Inductive body : Type :=
| BForm (errors : jsobj (option (list nat))) (controls : list nat) (published : jsobj nat)
    (** [form.$error]: [None] is false, a list the invalid controls of the token *)
| BControl (error : jsobj bool).

Record node : Type := Node {
  n_name : jstr;
  n_parent : option nat;
  n_live : bool;               (** not removed: the methods of a removed form do nothing *)
  n_dirty : bool; n_pristine : bool;
  n_valid : bool; n_invalid : bool;
  n_count : Z;                 (** [invalidCount] *)
  n_classes : gset jstr;
  n_body : body
}.
Record page : Type := Page { p_nodes : gmap nat node; p_next : nat }.

Definition VALID_CLASS : jstr := js "ng-valid".
Definition INVALID_CLASS : jstr := js "ng-invalid".
Definition PRISTINE_CLASS : jstr := js "ng-pristine".
Definition DIRTY_CLASS : jstr := js "ng-dirty".

(** ** Nodes *)

(** [snake_case(name, '-')]. *)
Fixpoint snake_case (pos : nat) (name : jstr) : jstr :=
  match name with
  | [] => []
  | c :: name =>
      (if ((65 <=? c) && (c <=? 90))%N then (match pos with 0 => [] | _ => js "-" end) ++ [(c + 32)%N] else [c]) ++
      snake_case (S pos) name
  end.

Definition set_classes (f : gset jstr -> gset jstr) (n : node) : node :=
  Node (n_name n) (n_parent n) (n_live n) (n_dirty n) (n_pristine n) (n_valid n) (n_invalid n) (n_count n)
       (f (n_classes n)) (n_body n).
Definition toggleValidCss (isValid : bool) (validationErrorKey : option jstr) (n : node) : node :=
  let key := match validationErrorKey with Some (c :: k) => js "-" ++ snake_case 0 (c :: k) | _ => [] end in
  set_classes (fun cs => {[ (if isValid then VALID_CLASS else INVALID_CLASS) ++ key ]}
                         ∪ (cs ∖ {[ (if isValid then INVALID_CLASS else VALID_CLASS) ++ key ]})) n.

Definition set_valid (isValid : bool) (n : node) : node :=
  Node (n_name n) (n_parent n) (n_live n) (n_dirty n) (n_pristine n) isValid (negb isValid) (n_count n) (n_classes n) (n_body n).
Definition add_count (z : Z) (n : node) : node :=
  Node (n_name n) (n_parent n) (n_live n) (n_dirty n) (n_pristine n) (n_valid n) (n_invalid n) (n_count n + z)%Z (n_classes n) (n_body n).
Definition set_body (b : body) (n : node) : node :=
  Node (n_name n) (n_parent n) (n_live n) (n_dirty n) (n_pristine n) (n_valid n) (n_invalid n) (n_count n) (n_classes n) b.
Definition mark_dirty (n : node) : node :=
  set_classes (fun cs => {[ DIRTY_CLASS ]} ∪ (cs ∖ {[ PRISTINE_CLASS ]}))
    (Node (n_name n) (n_parent n) (n_live n) true false (n_valid n) (n_invalid n) (n_count n) (n_classes n) (n_body n)).
Definition mark_pristine (n : node) : node :=
  set_classes (fun cs => {[ PRISTINE_CLASS ]} ∪ (cs ∖ {[ DIRTY_CLASS ]}))
    (Node (n_name n) (n_parent n) (n_live n) false true (n_valid n) (n_invalid n) (n_count n) (n_classes n) (n_body n)).
Definition mark_dead (n : node) : node :=
  Node (n_name n) (n_parent n) false (n_dirty n) (n_pristine n) (n_valid n) (n_invalid n) (n_count n) (n_classes n) (n_body n).

Definition change_node (i : nat) (f : node -> node) (p : page) : page := Page (alter f i (p_nodes p)) (p_next p).

(** [arrayRemove]. *)
Fixpoint remove_id (i : nat) (l : list nat) : list nat :=
  match l with [] => [] | j :: l => if Nat.eqb j i then l else j :: remove_id i l end.

(** ** Validity *)

(** [form.$setValidity]; [fuel] is more than the number of forms around. *)
Fixpoint form_set_validity (fuel : nat) (form : nat) (token : jstr) (isValid : bool) (control : nat) (p : page) : page :=
  match fuel, p_nodes p !! form with
  | S fuel, Some n =>
      match n_body n with
      | BForm errors controls published =>
          let queue := match ob_get errors token with Some q => q | None => None end in
          let notify p := match n_parent n with Some parent => form_set_validity fuel parent token isValid form p | None => p end in
          let set_error q := set_body (BForm (ob_set errors token q) controls published) in
          if negb (n_live n) then p
          else if isValid then
            match queue with
            | Some queue =>
                match remove_id control queue with
                | [] =>
                    notify (change_node form (fun n =>
                      let n := add_count (-1) n in
                      let n := if (n_count n =? 0)%Z then set_valid true (toggleValidCss true None n) else n in
                      toggleValidCss true (Some token) (set_error None n)) p)
                | queue => change_node form (set_error (Some queue)) p
                end
            | None => p
            end
          else
            let toggle n := if (n_count n =? 0)%Z then toggleValidCss false None n else n in
            match queue with
            | Some queue =>
                if bool_decide (control ∈ queue) then change_node form toggle p
                else change_node form (fun n => set_valid false (set_error (Some (queue ++ [control])) (toggle n))) p
            | None =>
                let p := notify (change_node form (fun n =>
                           toggleValidCss false (Some token) (add_count 1 (set_error (Some []) (toggle n)))) p) in
                change_node form (fun n => set_valid false (set_error (Some [control]) n)) p
            end
      | BControl _ => p
      end
  | _, _ => p
  end.

(** [parentForm.$setValidity]; a missing parent is [nullFormCtrl]. *)
Definition parent_set_validity (parent : option nat) (token : jstr) (isValid : bool) (control : nat) (p : page) : page :=
  match parent with Some f => form_set_validity (S f) f token isValid control p | None => p end.

(** [NgModelController.$setValidity]. *)
Definition control_set_validity (c : nat) (key : jstr) (isValid : bool) (p : page) : page :=
  match p_nodes p !! c with
  | Some n =>
      match n_body n with
      | BControl error =>
          if bool_decide (ob_get error key = Some (negb isValid)) then p
          else
            parent_set_validity (n_parent n) key isValid c
              (change_node c (fun n =>
                let n :=
                  if isValid then
                    let n := if default false (ob_get error key) then add_count (-1) n else n in
                    if (n_count n =? 0)%Z then set_valid true (toggleValidCss true None n) else n
                  else add_count 1 (set_valid false (toggleValidCss false None n)) in
                toggleValidCss isValid (Some key) (set_body (BControl (ob_set error key (negb isValid))) n)) p)
      | BForm _ _ _ => p
      end
  | None => p
  end.

(** ** Pristine and dirty *)

Fixpoint form_set_dirty (fuel : nat) (form : nat) (p : page) : page :=
  match fuel, p_nodes p !! form with
  | S fuel, Some n =>
      if n_live n then
        let p := change_node form mark_dirty p in
        match n_parent n with Some parent => form_set_dirty fuel parent p | None => p end
      else p
  | _, _ => p
  end.

(** The part of [$setViewValue] that makes a control dirty. *)
Definition control_set_dirty (c : nat) (p : page) : page :=
  match p_nodes p !! c with
  | Some n =>
      if n_pristine n then
        let p := change_node c mark_dirty p in
        match n_parent n with Some parent => form_set_dirty (S parent) parent p | None => p end
      else p
  | None => p
  end.

(** [$setPristine] of a control, of a form and the controls in it. *)
Fixpoint set_pristine (fuel : nat) (i : nat) (p : page) : page :=
  match fuel, p_nodes p !! i with
  | S fuel, Some n =>
      match n_body n with
      | BControl _ => change_node i mark_pristine p
      | BForm _ controls _ =>
          if n_live n then fold_left (fun p c => set_pristine fuel c p) controls (change_node i mark_pristine p) else p
      end
  | _, _ => p
  end.

(** ** Controls that come and go *)

Definition bad_name : js_error := JsMinErr (js "ng:badname").

(** [form.$addControl]. *)
Definition add_control (form control : nat) (name : jstr) (p : page) : result js_error page :=
  match p_nodes p !! form with
  | Some n =>
      match n_body n with
      | BForm errors controls published =>
          if negb (n_live n) then Ok p
          else if jeqb name (js "hasOwnProperty") then Throw bad_name
          else
            let published := if truthy name then ob_set published name control else published in
            Ok (change_node form (set_body (BForm errors (controls ++ [control]) published)) p)
      | BControl _ => Ok p
      end
  | None => Ok p
  end.

(** [form.$removeControl]. *)
Definition remove_control (form control : nat) (name : jstr) (p : page) : page :=
  match p_nodes p !! form with
  | Some n =>
      match n_body n with
      | BForm errors controls published =>
          if negb (n_live n) then p
          else
            let published := if truthy name && bool_decide (ob_get published name = Some control) then ob_delete published name
                             else published in
            let p := change_node form (set_body (BForm errors controls published)) p in
            let p := fold_left (fun p token => form_set_validity (S form) form token true control p) (enum_names errors) p in
            change_node form (fun n => match n_body n with
                                       | BForm errors controls published =>
                                           set_body (BForm errors (remove_id control controls) published) n
                                       | BControl _ => n
                                       end) p
      | BControl _ => p
      end
  | None => p
  end.

Definition fresh_node (name : jstr) (parent : option nat) (b : body) : node :=
  Node name parent true false true true false 0 {[ VALID_CLASS; PRISTINE_CLASS ]} b.
Definition push_node (n : node) (p : page) : page := Page (<[p_next p := n]> (p_nodes p)) (S (p_next p)).

(** The constructor of a form: an exception leaves the form unmade. *)
Definition new_form (name : jstr) (parent : option nat) (p : page) : result js_error page :=
  let i := p_next p in
  let made := push_node (fresh_node name parent (BForm [] [] [])) p in
  match parent with Some f => add_control f i name made | None => Ok made end.

(** [ngModel]: the constructor of the controller, then [$addControl] in the link function. *)
Definition new_control (name : jstr) (parent : option nat) (p : page) : page * result js_error unit :=
  let i := p_next p in
  let made := push_node (fresh_node name parent (BControl [])) p in
  match parent with
  | Some f => match add_control f i name made with Ok p => (p, Ok tt) | Throw e => (made, Throw e) end
  | None => (made, Ok tt)
  end.

(** The listener of [$destroy] on the scope of a control; a link function that threw has set none. *)
Definition destroy_control (c : nat) (p : page) : page :=
  match p_nodes p !! c with
  | Some n => if jeqb (n_name n) (js "hasOwnProperty") then p else
              change_node c mark_dead (match n_parent n with Some f => remove_control f c (n_name n) p | None => p end)
  | None => p
  end.

(** The listener of [$destroy] on the element of a form; a form without a parent has none. *)
Definition destroy_form (f : nat) (p : page) : page :=
  match p_nodes p !! f with
  | Some n => match n_parent n with
              | Some parent => change_node f mark_dead (remove_control parent f (n_name n) p)
              | None => p
              end
  | None => p
  end.

(** ** The life of a page *)

Inductive op : Type :=
| OpForm (name : jstr) (parent : option nat)
| OpControl (name : jstr) (parent : option nat)
| OpValidity (c : nat) (key : jstr) (isValid : bool)      (** a validator of the control *)
| OpDirty (c : nat)
| OpPristine (i : nat)
| OpDestroyControl (c : nat)
| OpDestroyForm (f : nat).

Definition parent_ok (parent : option nat) (p : page) : bool :=
  match parent with
  | Some f => match p_nodes p !! f with Some n => match n_body n with BForm _ _ _ => true | BControl _ => false end | None => false end
  | None => true
  end.

(** The operations of the page: nodes are made under forms, and the validators that run are those
    of controls that are there. *)
Definition apply (o : op) (p : page) : option page :=
  match o with
  | OpForm name parent =>
      if parent_ok parent p then Some (match new_form name parent p with Ok p' => p' | Throw _ => p end) else None
  | OpControl name parent => if parent_ok parent p then Some (new_control name parent p).1 else None
  | OpValidity c key isValid =>
      match p_nodes p !! c with
      | Some n => if n_live n && truthy key then Some (control_set_validity c key isValid p) else None
      | None => None
      end
  | OpDirty c => Some (control_set_dirty c p)
  | OpPristine i => Some (set_pristine (p_next p) i p)
  | OpDestroyControl c => Some (destroy_control c p)
  | OpDestroyForm f => Some (destroy_form f p)
  end.
Fixpoint run (ops : list op) (p : page) : option page :=
  match ops with
  | [] => Some p
  | o :: ops => match apply o p with Some p => run ops p | None => None end
  end.
Definition empty_page : page := Page ∅ 0.
