(* ===== verification/FormFacts.v ===== *)
(** * A form is valid when the controls in it are *)

From S2P Require Import Prelude JsString JsObject Json Form.

(** ** Errors of a node *)

Definition is_form (n : node) : bool := match n_body n with BForm _ _ _ => true | BControl _ => false end.
Definition is_some {A} (o : option A) : bool := match o with Some _ => true | None => false end.

(** The token is in [$error]. *)
Definition in_error (n : node) (t : jstr) : bool :=
  match n_body n with
  | BForm errors _ _ => match ob_get errors t with Some q => is_some q | None => false end
  | BControl error => default false (ob_get error t)
  end.
Definition queue_of (n : node) (t : jstr) : list nat :=
  match n_body n with
  | BForm errors _ _ => match ob_get errors t with Some (Some q) => q | _ => [] end
  | BControl _ => []
  end.

(** How many entries pass a test. *)
Definition opens {V} (P : V -> bool) (o : jsobj V) : Z := Z.of_nat (length (List.filter (fun kv => P kv.2) o)).

Lemma opens_set {V} (P : V -> bool) o k v :
  opens P (ob_set o k v) =
  (opens P o - Z.b2z (match ob_get o k with Some w => P w | None => false end) + Z.b2z (P v))%Z.
Proof.
  unfold opens. induction o as [|[k' w] o IH]; cbn; [by destruct (P v)|].
  destruct (jeqb k k'); cbn; [destruct (P v), (P w); cbn; lia|]. destruct (P w); cbn [length]; lia.
Qed.

Lemma ob_get_entry {V} (o : jsobj V) k v : ob_get o k = Some v -> (k, v) ∈ o.
Proof.
  induction o as [|[k' w] o IH]; [done|]. cbn. destruct (jeqb k k') eqn:E.
  - intros [= ->]. apply jeqb_true in E as ->. left.
  - intros H. right. by apply IH.
Qed.

Lemma opens_zero {V} (P : V -> bool) o :
  ob_wf o -> opens P o = 0%Z <-> forall k, match ob_get o k with Some w => P w | None => false end = false.
Proof.
  unfold opens, ob_wf. intros Hw. split.
  - intros H k. destruct (ob_get o k) as [w|] eqn:E; [|done]. apply ob_get_entry in E. destruct (P w) eqn:Ep; [|done].
    assert (Hin : (k, w) ∈ List.filter (fun kv => P kv.2) o) by (rewrite list_elem_of_In, filter_In, <- list_elem_of_In; done).
    destruct (List.filter _ o); [by apply elem_of_nil in Hin|done].
  - induction o as [|[k w] o IH]; intros H; [done|]. cbn in Hw. apply NoDup_cons in Hw as [Hk Hw]. cbn.
    pose proof (H k) as Hp. cbn in Hp. rewrite jeqb_refl in Hp. rewrite Hp. apply IH; [done|]. intros k'.
    pose proof (H k') as Hp'. cbn in Hp'. destruct (jeqb k' k) eqn:E; [|done]. apply jeqb_true in E as ->.
    destruct (ob_get o k) as [v|] eqn:Eg; [|done]. apply ob_get_entry in Eg. destruct Hk. apply (list_elem_of_fmap_2 fst) in Eg. done.
Qed.

Definition open_errors (n : node) : Z :=
  match n_body n with BForm errors _ _ => opens is_some errors | BControl error => opens (fun b => b) error end.

(** What holds of a node alone. *)
Record node_ok (n : node) : Prop := {
  ok_wf : match n_body n with BForm errors _ _ => ob_wf errors /\ [] ∉ ob_names errors | BControl error => ob_wf error end;
  ok_count : n_count n = open_errors n;
  ok_valid : n_valid n = (n_count n =? 0)%Z;
  ok_invalid : n_invalid n = negb (n_valid n);
  ok_class : (VALID_CLASS ∈ n_classes n <-> n_valid n = true) /\ (INVALID_CLASS ∈ n_classes n <-> n_valid n = false);
  ok_queues : forall t, in_error n t = true -> is_form n = true -> queue_of n t <> [] /\ NoDup (queue_of n t)
}.

Lemma count_zero n : node_ok n -> n_count n = 0%Z <-> forall t, in_error n t = false.
Proof.
  intros H. rewrite (ok_count _ H). pose proof (ok_wf _ H) as W. unfold open_errors, in_error.
  destruct (n_body n) as [errors cs pub|error].
  - destruct W. by rewrite opens_zero.
  - rewrite opens_zero by done. split; intros E t; specialize (E t); by destruct (ob_get error t).
Qed.

Lemma remove_id_elem i l j : NoDup l -> j ∈ remove_id i l <-> j ∈ l /\ j <> i.
Proof.
  induction l as [|k l IH]; cbn; [set_solver|]. intros [Hk Hn]%NoDup_cons. destruct (Nat.eqb_spec k i) as [->|]; [set_solver|].
  rewrite !elem_of_cons, IH by done. set_solver.
Qed.
Lemma remove_id_nodup i l : NoDup l -> NoDup (remove_id i l).
Proof.
  induction l as [|k l IH]; cbn; [done|]. intros [Hk Hn]%NoDup_cons. destruct (Nat.eqb k i); [done|].
  apply NoDup_cons. split; [|auto]. rewrite remove_id_elem by done. tauto.
Qed.

(** The classes of a token do not touch those of the whole node. *)
Lemma token_class (t : jstr) : t <> [] ->
  forall b c, c ∈ [VALID_CLASS; INVALID_CLASS] -> (if b : bool then VALID_CLASS else INVALID_CLASS) ++ js "-" ++ snake_case 0 t <> c.
Proof.
  intros _ b c Hc E. apply (f_equal (take 11)) in E as E1. apply (f_equal length) in E.
  rewrite !length_app in E. rewrite list_elem_of_In in Hc.
  destruct b, Hc as [<-|[<-|[]]]; cbn in E; try lia; by vm_compute in E1.
Qed.

Lemma toggle_token b t n :
  t <> [] ->
  (VALID_CLASS ∈ n_classes (toggleValidCss b (Some t) n) <-> VALID_CLASS ∈ n_classes n) /\
  (INVALID_CLASS ∈ n_classes (toggleValidCss b (Some t) n) <-> INVALID_CLASS ∈ n_classes n).
Proof.
  intros Ht. destruct t as [|c k]; [done|]. cbn [toggleValidCss set_classes n_classes].
  pose proof (token_class (c :: k) Ht b) as H1. pose proof (token_class (c :: k) Ht (negb b)) as H2.
  assert (E1 : forall d, d ∈ [VALID_CLASS; INVALID_CLASS] -> d <> (if b then VALID_CLASS else INVALID_CLASS) ++ js "-" ++ snake_case 0 (c :: k))
    by (intros d Hd E; by apply (H1 d)).
  assert (E2 : forall d, d ∈ [VALID_CLASS; INVALID_CLASS] -> d <> (if b then INVALID_CLASS else VALID_CLASS) ++ js "-" ++ snake_case 0 (c :: k))
    by (intros d Hd E; destruct b; by apply (H2 d)).
  split; rewrite elem_of_union, elem_of_singleton, elem_of_difference, elem_of_singleton;
    (split; [intros [E|[? _]]; [exfalso; eapply E1; [|exact E]; set_solver|done]|intros ?; right; split; [done|apply E2; set_solver]]).
Qed.

Lemma toggle_all b n :
  (VALID_CLASS ∈ n_classes (toggleValidCss b None n) <-> b = true) /\
  (INVALID_CLASS ∈ n_classes (toggleValidCss b None n) <-> b = false).
Proof.
  assert (VALID_CLASS <> INVALID_CLASS) by done. cbn [toggleValidCss set_classes n_classes].
  destruct b; rewrite !app_nil_r; set_solver.
Qed.

(** ** A change of one entry *)

Definition classes_ok (n : node) : Prop :=
  (VALID_CLASS ∈ n_classes n <-> n_valid n = true) /\ (INVALID_CLASS ∈ n_classes n <-> n_valid n = false).

Lemma error_set n m e cs pub t v :
  n_body n = BForm e cs pub -> n_body m = BForm (ob_set e t v) cs pub ->
  forall t', in_error m t' = (if jeqb t' t then is_some v else in_error n t') /\
             queue_of m t' = (if jeqb t' t then default [] v else queue_of n t').
Proof.
  intros En Em t'. unfold in_error, queue_of. rewrite En, Em. destruct (jeqb t' t) eqn:E.
  - apply jeqb_true in E as ->. rewrite ob_get_set_eq. by destruct v.
  - apply jeqb_false in E. by rewrite ob_get_set_ne.
Qed.

Lemma node_ok_set n m e cs pub t v :
  t <> [] -> node_ok n -> n_body n = BForm e cs pub -> n_body m = BForm (ob_set e t v) cs pub ->
  n_count m = (n_count n - Z.b2z (in_error n t) + Z.b2z (is_some v))%Z ->
  n_valid m = (n_count m =? 0)%Z -> n_invalid m = negb (n_valid m) -> classes_ok m ->
  (forall q, v = Some q -> q <> [] /\ NoDup q) -> node_ok m.
Proof.
  intros Ht H En Em Ec Hv Hi Hcl Hq. pose proof (error_set n m e cs pub t v En Em) as He. split; [| |done|done|done|].
  - rewrite Em. pose proof (ok_wf _ H) as W. rewrite En in W. destruct W as [W1 W2]. split; [by apply ob_wf_set|].
    rewrite ob_names_set. destruct (ob_has e t); [done|]. set_solver.
  - rewrite Ec, (ok_count _ H). unfold open_errors, in_error. rewrite En, Em, opens_set. done.
  - intros t'. destruct (He t') as [-> ->]. destruct (jeqb t' t) eqn:E.
    + destruct v as [q|]; [|done]. intros _ _. by apply Hq.
    + intros Hin _. apply (ok_queues _ H t'); [done|]. unfold is_form. by rewrite En.
Qed.

(** What a change of validity leaves in a node. *)
Definition same_place (n m : node) : Prop :=
  n_name m = n_name n /\ n_parent m = n_parent n /\ n_live m = n_live n /\ is_form m = is_form n /\
  match n_body n, n_body m with
  | BForm _ cs pub, BForm _ cs' pub' => cs' = cs /\ pub' = pub
  | BControl _, BControl _ => True
  | _, _ => False
  end.

Section FormNode.
Context (n : node) (e : jsobj (option (list nat))) (cs : list nat) (pub : jsobj nat) (token : jstr).
Context (Hn : node_ok n) (Eb : n_body n = BForm e cs pub) (Ht : token <> []).

Definition set_error (q : option (list nat)) : node -> node := set_body (BForm (ob_set e token q) cs pub).
Definition set_error_ok (q : option (list nat)) (m : node) : Prop :=
  node_ok m /\ same_place n m /\ forall t', in_error m t' = (if jeqb t' token then is_some q else in_error n t') /\
                          queue_of m t' = (if jeqb t' token then default [] q else queue_of n t').

Lemma set_error_intro q m :
  n_body m = BForm (ob_set e token q) cs pub -> n_name m = n_name n -> n_parent m = n_parent n -> n_live m = n_live n ->
  n_count m = (n_count n - Z.b2z (in_error n token) + Z.b2z (is_some q))%Z ->
  n_valid m = (n_count m =? 0)%Z -> n_invalid m = negb (n_valid m) -> classes_ok m ->
  (forall l, q = Some l -> l <> [] /\ NoDup l) -> set_error_ok q m.
Proof.
  intros Em E1 E2 E3 Ec Hv Hi Hc Hq. split_and!; [by apply (node_ok_set n m e cs pub token q Ht)| |by apply (error_set n m e cs pub token q)].
  unfold same_place, is_form. by rewrite Eb, Em.
Qed.

(** The last control of the token leaves. *)
Lemma close_ok :
  in_error n token = true ->
  set_error_ok None
    (let n := add_count (-1) n in
     let n := if (n_count n =? 0)%Z then set_valid true (toggleValidCss true None n) else n in
     toggleValidCss true (Some token) (set_error None n)).
Proof.
  intros Hin. pose proof (ok_valid _ Hn) as V. pose proof (ok_invalid _ Hn) as I. pose proof (ok_class _ Hn) as C.
  assert (Hc0 : n_count n <> 0%Z) by (rewrite (count_zero n Hn); intros H; by rewrite H in Hin).
  assert (Vf : n_valid n = false) by (rewrite V; by apply Z.eqb_neq).
  cbv zeta. cbn [n_count add_count]. destruct (Z.eqb_spec (n_count n + -1) 0) as [E0|E0]; apply set_error_intro; try done;
    cbn [n_count n_valid n_invalid toggleValidCss set_error set_body set_classes set_valid add_count]; try (rewrite Hin; cbn; lia).
  - by rewrite E0.
  - unfold classes_ok. cbn [n_valid toggleValidCss set_error set_body set_classes set_valid add_count].
    destruct (toggle_token true token (set_error None (set_valid true (toggleValidCss true None (add_count (-1) n)))) Ht) as [T1 T2].
    destruct (toggle_all true (add_count (-1) n)) as [A1 A2]. split; [rewrite T1|rewrite T2]; [exact A1|exact A2].
  - rewrite Vf. symmetry. by apply Z.eqb_neq.
  - unfold classes_ok. destruct (toggle_token true token (set_error None (add_count (-1) n)) Ht) as [T1 T2].
    split; [rewrite T1|rewrite T2]; [apply C|apply C].
Qed.

(** The queue of a token changes. *)
Lemma queue_ok q q' :
  ob_get e token = Some (Some q) -> q' <> [] -> NoDup q' ->
  set_error_ok (Some q') (set_error (Some q') n) /\
  set_error_ok (Some q') (set_valid false (set_error (Some q') (if (n_count n =? 0)%Z then toggleValidCss false None n else n))).
Proof.
  intros Eq Hq' Hd. pose proof (ok_valid _ Hn) as V. pose proof (ok_invalid _ Hn) as I. pose proof (ok_class _ Hn) as C.
  assert (Hin : in_error n token = true) by (unfold in_error; by rewrite Eb, Eq).
  assert (Hc0 : n_count n <> 0%Z) by (rewrite (count_zero n Hn); intros H; by rewrite H in Hin).
  assert (Vf : n_valid n = false) by (rewrite V; by apply Z.eqb_neq).
  rewrite (proj2 (Z.eqb_neq _ _) Hc0). split; apply set_error_intro; try done; try (by intros l [= <-]);
    cbn [n_count n_valid n_invalid set_error set_body set_valid]; try (rewrite Hin; cbn; lia); try done.
  - symmetry. by apply Z.eqb_neq.
  - unfold classes_ok. cbn. rewrite Vf in C. exact C.
Qed.

(** The first control of the token comes. *)
Lemma open_ok c :
  in_error n token = false ->
  set_error_ok (Some [c])
    (set_valid false (set_error (Some [c]) (toggleValidCss false (Some token) (add_count 1 (set_error (Some [])
      (if (n_count n =? 0)%Z then toggleValidCss false None n else n)))))).
Proof.
  intros Hin. pose proof (ok_valid _ Hn) as V. pose proof (ok_class _ Hn) as C.
  assert (Hc0 : (0 <= n_count n)%Z) by (rewrite (ok_count _ Hn); unfold open_errors, opens; rewrite Eb; lia).
  apply set_error_intro; try done; try (by destruct (n_count n =? 0)%Z).
  - destruct (n_count n =? 0)%Z; cbn; rewrite Hin; cbn; lia.
  - symmetry. apply Z.eqb_neq. destruct (n_count n =? 0)%Z; cbn; lia.
  - unfold classes_ok. cbn [n_valid set_valid n_classes set_error set_body].
    destruct (toggle_token false token (add_count 1 (set_error (Some []) (if (n_count n =? 0)%Z then toggleValidCss false None n else n))) Ht) as [T1 T2].
    rewrite T1, T2. destruct (Z.eqb_spec (n_count n) 0) as [E|E].
    + apply (toggle_all false n).
    + rewrite V in C. exact C.
  - intros l [= <-]. split; [done|]. apply NoDup_singleton.
Qed.
End FormNode.

(** ** The invariant of a page *)

Definition status (p : page) (c f : nat) (t : jstr) : Prop :=
  exists m, p_nodes p !! c = Some m /\ n_live m = true /\ n_parent m = Some f /\ in_error m t = true.

Definition old_parents (p : page) : Prop :=
  forall i n, p_nodes p !! i = Some n ->
    i < p_next p /\ forall f, n_parent n = Some f -> f < i /\ exists m, p_nodes p !! f = Some m /\ is_form m = true.

(** The queues of a form hold its controls in error, but where [ex] says. *)
Record inv (ex : nat -> nat -> jstr -> Prop) (p : page) : Prop := {
  inv_old : old_parents p;
  inv_node : forall i n, p_nodes p !! i = Some n -> node_ok n;
  inv_edge : forall f m c t, p_nodes p !! f = Some m -> n_live m = true -> is_form m = true ->
    ~ ex f c t -> (c ∈ queue_of m t <-> status p c f t)
}.

Lemma inv_weaken (ex ex' : nat -> nat -> jstr -> Prop) p : (forall f c t, ex f c t -> ex' f c t) -> inv ex p -> inv ex' p.
Proof. intros H [H1 H2 H3]. split; [done|done|]. intros f m c t Ef Hl Hf Hx. apply (H3 f m); auto. Qed.

Definition write_node (i : nat) (n : node) (p : page) : page := Page (<[i := n]> (p_nodes p)) (p_next p).
Lemma change_write i f p n : p_nodes p !! i = Some n -> change_node i f p = write_node i (f n) p.
Proof.
  intros E. unfold change_node, write_node. f_equal. apply map_eq. intros j. destruct (decide (j = i)) as [->|].
  - by rewrite lookup_alter_eq, E, lookup_insert_eq.
  - by rewrite lookup_alter_ne, lookup_insert_ne by done.
Qed.

Lemma same_place_refl n : same_place n n.
Proof. unfold same_place. split_and!; try done. by destruct (n_body n). Qed.
Lemma same_place_trans a b c : same_place a b -> same_place b c -> same_place a c.
Proof.
  intros (A1 & A2 & A3 & A4 & A5) (B1 & B2 & B3 & B4 & B5). split_and!; try congruence.
  destruct (n_body a), (n_body b), (n_body c); try done. destruct A5, B5. split; congruence.
Qed.

(** Where a change of validity stays: the nodes older than a bound, in their places. *)
Definition frame (b : nat) (p p' : page) : Prop :=
  p_next p' = p_next p /\
  forall i, match p_nodes p !! i, p_nodes p' !! i with
            | Some n, Some n' => same_place n n' /\ (b <= i -> n' = n)
            | None, None => True
            | _, _ => False
            end.
Lemma frame_refl b p : frame b p p.
Proof. split; [done|]. intros i. destruct (p_nodes p !! i); [|done]. split; [apply same_place_refl|done]. Qed.
Lemma frame_trans b p q r : frame b p q -> frame b q r -> frame b p r.
Proof.
  intros [A1 A2] [B1 B2]. split; [congruence|]. intros i. specialize (A2 i). specialize (B2 i).
  destruct (p_nodes p !! i), (p_nodes q !! i), (p_nodes r !! i); try done. destruct A2 as [A A'], B2 as [B B'].
  split; [by eapply same_place_trans|]. intros Hb. rewrite B', A' by done. done.
Qed.
Lemma frame_weaken b b' p q : b <= b' -> frame b p q -> frame b' p q.
Proof.
  intros Hb [A1 A2]. split; [done|]. intros i. specialize (A2 i). destruct (p_nodes p !! i), (p_nodes q !! i); try done.
  destruct A2. split; [done|]. intros. auto with lia.
Qed.
Lemma frame_write b p i n m : p_nodes p !! i = Some n -> same_place n m -> i < b -> frame b p (write_node i m p).
Proof.
  intros E S Hi. split; [done|]. intros j. cbn. destruct (decide (j = i)) as [->|].
  - rewrite E, lookup_insert_eq. split; [done|lia].
  - rewrite lookup_insert_ne by done. destruct (p_nodes p !! j); [|done]. split; [apply same_place_refl|done].
Qed.

Lemma frame_old b p p' : frame b p p' -> old_parents p -> old_parents p'.
Proof.
  intros [E F] H i n' En'. rewrite E. pose proof (F i) as Fi. rewrite En' in Fi.
  destruct (p_nodes p !! i) as [n|] eqn:En; [|done]. destruct Fi as [(_ & Ep & _) _]. destruct (H i n En) as [Hi Hp].
  split; [done|]. intros f Hf. rewrite Ep in Hf. destruct (Hp f Hf) as (Hlt & m & Em & Hm). split; [done|].
  pose proof (F f) as Ff. rewrite Em in Ff. destruct (p_nodes p' !! f) as [m'|]; [|done]. exists m'. split; [done|].
  destruct Ff as [(_ & _ & _ & Eq & _) _]. congruence.
Qed.

(** One entry of a form changes. *)
Lemma entry_write ex (ex' : nat -> nat -> jstr -> Prop) p form n m token (q : option (list nat)) :
  inv ex p -> p_nodes p !! form = Some n -> node_ok m -> same_place n m ->
  (forall t', in_error m t' = (if jeqb t' token then is_some q else in_error n t') /\
              queue_of m t' = (if jeqb t' token then default [] q else queue_of n t')) ->
  (forall c, ~ ex' form c token -> (c ∈ default [] q <-> status p c form token)) ->
  (forall f c t, ~ ex' f c t -> (f = form /\ t = token) \/ ~ ex f c t) ->
  (forall parent, n_parent n = Some parent -> in_error n token = is_some q \/ ex' parent form token) ->
  inv ex' (write_node form m p).
Proof.
  intros [I1 I2 I3] En Hok Hs He Hq Hex Hup.
  assert (F : frame (S form) p (write_node form m p)) by (eapply frame_write; [done|done|lia]).
  assert (Hst : forall c f t, ~ (c = form /\ t = token) -> status (write_node form m p) c f t <-> status p c f t).
  { intros c f t Hne. unfold status. cbn. destruct (decide (c = form)) as [->|].
    - rewrite lookup_insert_eq, En. destruct Hs as (_ & Ep & El & _). destruct (He t) as [Ee _].
      rewrite (proj2 (jeqb_false t token)) in Ee by naive_solver.
      split; intros (x & [= <-] & Hx & Hp & Hi); eexists; (split; [reflexivity|]); split_and!; congruence.
    - by rewrite lookup_insert_ne. }
  split; [by eapply frame_old| |].
  - intros i x. cbn. destruct (decide (i = form)) as [->|]; [rewrite lookup_insert_eq; by intros [= <-]|].
    rewrite lookup_insert_ne by done. apply I2.
  - intros f x c t Ex Hl Hf Hx. cbn in Ex. destruct (decide (f = form)) as [->|Hne].
    + rewrite lookup_insert_eq in Ex. injection Ex as <-. destruct (He t) as [_ ->].
      assert (Hcf : c = form -> ~ status p c form t /\ ~ status (write_node form m p) c form t).
      { intros ->. split; intros (y & Ey & _ & Hp & _).
        - rewrite En in Ey. injection Ey as <-. destruct (I1 _ _ En) as [_ H]. destruct (H _ Hp). lia.
        - cbn in Ey. rewrite lookup_insert_eq in Ey. injection Ey as <-. destruct Hs as (_ & Ep & _). rewrite Ep in Hp.
          destruct (I1 _ _ En) as [_ H]. destruct (H _ Hp). lia. }
      assert (E1 : status (write_node form m p) c form t <-> status p c form t).
      { destruct (decide (c = form)) as [Hc|Hc]; [destruct (Hcf Hc); tauto|]. apply Hst. naive_solver. }
      rewrite E1. destruct (jeqb t token) eqn:Et; [apply jeqb_true in Et as ->; by apply Hq|].
      apply jeqb_false in Et. destruct (Hex form c t Hx) as [[_ ?]|Hx']; [done|].
      destruct Hs as (_ & _ & El & Ef & _). apply (I3 form n c t En); congruence.
    + rewrite lookup_insert_ne in Ex by done. destruct (Hex f c t Hx) as [[? _]|Hx']; [done|].
      rewrite (I3 f x c t Ex Hl Hf Hx'). destruct (decide (c = form /\ t = token)) as [[-> ->]|Hne2]; [|by rewrite Hst].
      assert (Hsame : status p form f token <-> (n_live n = true /\ n_parent n = Some f /\ in_error n token = true)).
      { unfold status. rewrite En. split; [by intros (y & [= <-] & ?)|intros ?; by exists n]. }
      assert (Hsame' : status (write_node form m p) form f token <-> (n_live m = true /\ n_parent m = Some f /\ in_error m token = true)).
      { unfold status. cbn. rewrite lookup_insert_eq. split; [by intros (y & [= <-] & ?)|intros ?; by exists m]. }
      rewrite Hsame, Hsame'. destruct Hs as (_ & -> & -> & _). destruct (He token) as [-> _]. rewrite jeqb_refl.
      split; intros (Hl' & Hp' & Hi'); (split_and!; [done|done|]); destruct (Hup f Hp') as [E|E]; congruence || done.
Qed.

(** ** [form.$setValidity] *)

Definition older (p : page) : Prop := forall j n f, p_nodes p !! j = Some n -> n_parent n = Some f -> f < j.
Lemma older_change i g p : (forall n, n_parent (g n) = n_parent n) -> older p -> older (change_node i g p).
Proof.
  intros Hg H j n f. cbn. destruct (decide (j = i)) as [->|].
  - rewrite lookup_alter_eq. destruct (p_nodes p !! i) as [x|] eqn:E; [|done]. intros [= <-]. rewrite Hg. by apply H.
  - rewrite lookup_alter_ne by done. apply H.
Qed.
Lemma change_commute i j f g p : i <> j -> change_node i f (change_node j g p) = change_node j g (change_node i f p).
Proof.
  intros H. unfold change_node. cbn. f_equal. apply map_eq. intros k.
  destruct (decide (k = i)) as [->|]; [|destruct (decide (k = j)) as [->|]];
    by rewrite ?lookup_alter_eq, ?lookup_alter_ne, ?lookup_alter_eq, ?lookup_alter_ne by done.
Qed.
Lemma change_change i f g p : change_node i f (change_node i g p) = change_node i (fun n => f (g n)) p.
Proof.
  unfold change_node. cbn. f_equal. apply map_eq. intros k. destruct (decide (k = i)) as [->|].
  - rewrite !lookup_alter_eq. by destruct (p_nodes p !! i).
  - by rewrite !lookup_alter_ne by done.
Qed.

(** It does not look at younger nodes. *)
Lemma fsv_commute fuel form token b c p i g :
  older p -> form < i ->
  form_set_validity fuel form token b c (change_node i g p) = change_node i g (form_set_validity fuel form token b c p).
Proof.
  revert form b c p. induction fuel as [|fuel IH]; intros form b c p Ho Hi; [done|]. cbn [form_set_validity].
  change (p_nodes (change_node i g p)) with (alter g i (p_nodes p)). rewrite lookup_alter_ne by lia.
  destruct (p_nodes p !! form) as [n|] eqn:En; [|done]. destruct (n_body n) as [e cs pub|]; [|done].
  destruct (n_live n); [|done]. cbn [negb].
  assert (Hn : forall F, (forall n, n_parent (F n) = n_parent n) ->
    match n_parent n with Some parent => form_set_validity fuel parent token b form (change_node form F (change_node i g p)) | None => change_node form F (change_node i g p) end =
    change_node i g (match n_parent n with Some parent => form_set_validity fuel parent token b form (change_node form F p) | None => change_node form F p end)).
  { intros F HF. rewrite (change_commute form i) by lia. destruct (n_parent n) as [f|] eqn:Ef; [|done]. apply IH.
    - by apply older_change.
    - pose proof (Ho _ _ _ En Ef). lia. }
  destruct b.
  - destruct (match ob_get e token with Some q => q | None => None end) as [q|]; [|done].
    destruct (remove_id c q); [|rewrite change_commute by lia; done]. apply Hn. intros x. cbn. by destruct (n_count x + -1 =? 0)%Z.
  - destruct (match ob_get e token with Some q => q | None => None end) as [q|].
    + destruct (bool_decide (c ∈ q)); by rewrite change_commute by lia.
    + rewrite Hn; [by rewrite (change_commute form i) by lia|]. intros x. cbn. by destruct (n_count x =? 0)%Z.
Qed.

Lemma remove_id_nil c q : q <> [] -> remove_id c q = [] -> q = [c].
Proof. destruct q as [|j [|k q]]; [done| |]; intros _; cbn; destruct (Nat.eqb_spec j c) as [->|]; done. Qed.

Lemma entry_case n e cs pub token :
  n_body n = BForm e cs pub ->
  match (match ob_get e token with Some q => q | None => None end) with
  | Some q => ob_get e token = Some (Some q) /\ in_error n token = true /\ queue_of n token = q
  | None => in_error n token = false /\ queue_of n token = []
  end.
Proof. intros E. unfold in_error, queue_of. rewrite E. by destruct (ob_get e token) as [[q|]|]. Qed.

(** The exception [ex] without one edge. *)
Definition but (ex : nat -> nat -> jstr -> Prop) (f c : nat) (t : jstr) : nat -> nat -> jstr -> Prop :=
  fun f' c' t' => ex f' c' t' /\ ~ (f' = f /\ c' = c /\ t' = t).

(** The form's own entry is written, then its parent is told. *)
Lemma notify_inv fuel form token b c p ex n m q :
  (forall form' c' p' ex' n', form' < form -> token <> [] -> form' < fuel -> inv ex' p' -> p_nodes p' !! form' = Some n' -> is_form n' = true ->
     (status p' c' form' token <-> b = false) ->
     inv (but ex' form' c' token) (form_set_validity fuel form' token b c' p') /\
     frame (S form') p' (form_set_validity fuel form' token b c' p')) ->
  token <> [] -> form < S fuel -> inv ex p -> p_nodes p !! form = Some n -> n_live n = true ->
  node_ok m -> same_place n m ->
  (forall t', in_error m t' = (if jeqb t' token then is_some q else in_error n t') /\
              queue_of m t' = (if jeqb t' token then default [] q else queue_of n t')) ->
  (forall c', ~ but ex form c token form c' token -> (c' ∈ default [] q <-> status p c' form token)) ->
  is_some q = negb b ->
  let p' := write_node form m p in
  let p'' := match n_parent n with Some parent => form_set_validity fuel parent token b form p' | None => p' end in
  inv (but ex form c token) p'' /\ frame (S form) p p''.
Proof.
  intros IH Ht Hf I En Hl Hok Hs He Hq Hb p' p''. subst p''.
  assert (F : frame (S form) p p') by (eapply frame_write; [done|done|lia]).
  destruct (n_parent n) as [parent|] eqn:Ep.
  - destruct (inv_old _ _ I _ _ En) as [_ Hp]. destruct (Hp _ Ep) as (Hlt & pn & Epn & Hpf).
    pose (ex' f' c' t' := but ex form c token f' c' t' \/ (f' = parent /\ c' = form /\ t' = token)).
    assert (I' : inv ex' p').
    { apply (entry_write ex ex' p form n m token q I En Hok Hs He).
      - intros c' Hc'. apply Hq. intros H. apply Hc'. by left.
      - intros f' c' t' Hx. destruct (decide (f' = form /\ t' = token)) as [?|Hne]; [by left|right]. intros H. apply Hx. left.
        split; [done|]. naive_solver.
      - intros f' Hf'. rewrite Ep in Hf'. injection Hf' as <-. right. right. done. }
    destruct (IH parent form p' ex' pn Hlt Ht) as [I2 F2].
    + lia.
    + exact I'.
    + cbn. rewrite lookup_insert_ne by lia. done.
    + done.
    + unfold status. cbn. rewrite lookup_insert_eq. destruct Hs as (_ & Epm & Elm & _). destruct (He token) as [Em _].
      rewrite jeqb_refl, Hb in Em. destruct b; cbn in Em; (split; [intros (y & [= <-] & _ & _ & Hy)|]); try done; try congruence.
      intros _. exists m. split_and!; congruence || done.
    + split; [|eapply frame_trans; [exact F|eapply frame_weaken; [|exact F2]; lia]].
      eapply inv_weaken; [|exact I2]. intros f' c' t' [[?|?] ?]; [done|tauto].
  - split; [|done]. apply (entry_write ex _ p form n m token q I En Hok Hs He Hq); [|by rewrite Ep].
    intros f' c' t' Hx. destruct (decide (f' = form /\ t' = token)) as [?|Hne]; [by left|right]. intros H. apply Hx.
    split; [done|]. naive_solver.
Qed.

Lemma inv_but ex p f c t : inv ex p ->
  (forall m, p_nodes p !! f = Some m -> n_live m = true -> is_form m = true -> c ∈ queue_of m t <-> status p c f t) ->
  inv (but ex f c t) p.
Proof.
  intros [I1 I2 I3] H. split; [done|done|]. intros f' m c' t' Em Hl Hf Hx.
  destruct (decide (f' = f /\ c' = c /\ t' = t)) as [(-> & -> & ->)|Hne]; [by apply H|]. apply (I3 f' m); try done.
  intros ?. by apply Hx.
Qed.

Lemma old_older p : old_parents p -> older p.
Proof. intros H j n f Ej Ep. destruct (H j n Ej) as [_ Hp]. by destruct (Hp f Ep). Qed.

Lemma status_set_queue ex p form n c token (q' : list nat) b :
  inv ex p -> p_nodes p !! form = Some n -> n_live n = true -> is_form n = true ->
  (status p c form token <-> b = false) ->
  (forall c', c' ∈ q' <-> (if b then c' ∈ queue_of n token /\ c' <> c else c' ∈ queue_of n token \/ c' = c)) ->
  forall c', ~ but ex form c token form c' token -> (c' ∈ q' <-> status p c' form token).
Proof.
  intros I En Hl Hf Hs Hq c' Hx. rewrite Hq. destruct (decide (c' = c)) as [->|Hne].
  - rewrite Hs. destruct b; naive_solver.
  - assert (Hx' : ~ ex form c' token) by (intros ?; apply Hx; split; [done|naive_solver]).
    rewrite <- (inv_edge _ _ I form n c' token En Hl Hf Hx'). destruct b; naive_solver.
Qed.

Lemma fsv_inv fuel token b : token <> [] -> forall form c p ex n,
  form < fuel -> inv ex p -> p_nodes p !! form = Some n -> is_form n = true ->
  (status p c form token <-> b = false) ->
  inv (but ex form c token) (form_set_validity fuel form token b c p) /\
  frame (S form) p (form_set_validity fuel form token b c p).
Proof.
  intros Ht. induction fuel as [|fuel IH]; intros form c p ex n Hfu I En Hf Hs; [lia|]. cbn [form_set_validity]. rewrite En.
  pose proof (inv_node _ _ I _ _ En) as Hn. destruct (n_body n) as [e cs pub|] eqn:Eb; [|unfold is_form in Hf; by rewrite Eb in Hf].
  destruct (n_live n) eqn:Hl; cbn [negb].
  2: { split; [|apply frame_refl]. apply inv_but; [done|]. intros m Em Hlm. congruence. }
  pose proof (entry_case n e cs pub token Eb) as Ec.
  pose proof (status_set_queue ex p form n c token) as Hset.
  assert (IH' : forall form' c' p' ex' n', form' < form -> token <> [] -> form' < fuel -> inv ex' p' -> p_nodes p' !! form' = Some n' ->
     is_form n' = true -> (status p' c' form' token <-> b = false) ->
     inv (but ex' form' c' token) (form_set_validity fuel form' token b c' p') /\
     frame (S form') p' (form_set_validity fuel form' token b c' p')) by (intros; by eapply IH).
  destruct b.
  - destruct (match ob_get e token with Some q => q | None => None end) as [q|] eqn:Eq.
    + destruct Ec as (Eg & Hin & Hqn). destruct (ok_queues _ Hn token Hin Hf) as [Hq0 Hqd]. rewrite Hqn in Hq0, Hqd.
      assert (Hrem : forall c', c' ∈ remove_id c q <-> c' ∈ queue_of n token /\ c' <> c) by (intros c'; rewrite Hqn; by apply remove_id_elem).
      pose proof (Hset (remove_id c q) true I En Hl Hf Hs Hrem) as Hedge.
      destruct (remove_id c q) as [|j q'] eqn:Er.
      * destruct (close_ok n e cs pub token Hn Eb Ht Hin) as (Hok & Hsp & He).
        rewrite (change_write form _ p n En). by apply (notify_inv fuel form token true c p ex n _ None).
      * assert (Hd : NoDup (j :: q')) by (rewrite <- Er; by apply remove_id_nodup).
        destruct (queue_ok n e cs pub token Hn Eb Ht q (j :: q') Eg) as [(Hok & Hsp & He) _]; [done|done|].
        rewrite (change_write form _ p n En). split; [|eapply frame_write; [done|done|lia]].
        apply (entry_write ex _ p form n _ token (Some (j :: q')) I En Hok Hsp He Hedge).
        -- intros f' c' t' Hx. destruct (decide (f' = form /\ t' = token)) as [?|Hne]; [by left|right]. intros H. apply Hx. split; [done|naive_solver].
        -- intros f' _. by left.
    + destruct Ec as [Hin Hqn]. split; [|apply frame_refl]. apply inv_but; [done|]. intros m Em Hlm Hfm.
      assert (m = n) as -> by congruence. rewrite Hqn, Hs. split; [by intros ?%elem_of_nil|done].
  - destruct (match ob_get e token with Some q => q | None => None end) as [q|] eqn:Eq.
    + destruct Ec as (Eg & Hin & Hqn). destruct (ok_queues _ Hn token Hin Hf) as [Hq0 Hqd]. rewrite Hqn in Hq0, Hqd.
      destruct (bool_decide_reflect (c ∈ q)) as [Hc|Hc].
      * rewrite (change_write form _ p n En).
        assert (E0 : (if (n_count n =? 0)%Z then toggleValidCss false None n else n) = n).
        { rewrite (proj2 (Z.eqb_neq _ _)); [done|]. rewrite (count_zero n Hn). intros H. by rewrite H in Hin. }
        rewrite E0. assert (E1 : write_node form n p = p) by (unfold write_node; rewrite insert_id by done; by destruct p).
        rewrite E1. split; [|apply frame_refl]. apply inv_but; [done|]. intros m Em Hlm Hfm.
        assert (m = n) as -> by congruence. rewrite Hqn, Hs. tauto.
      * assert (Hd : NoDup (q ++ [c])) by (apply NoDup_app; split_and!; [done|set_solver|apply NoDup_singleton]).
        assert (Happ : forall c', c' ∈ q ++ [c] <-> c' ∈ queue_of n token \/ c' = c) by (intros c'; rewrite Hqn, elem_of_app, list_elem_of_singleton; done).
        pose proof (Hset (q ++ [c]) false I En Hl Hf Hs Happ) as Hedge.
        destruct (queue_ok n e cs pub token Hn Eb Ht q (q ++ [c]) Eg) as [_ (Hok & Hsp & He)]; [by destruct q|done|].
        rewrite (change_write form _ p n En). split; [|eapply frame_write; [done|done|lia]].
        apply (entry_write ex _ p form n _ token (Some (q ++ [c])) I En Hok Hsp He Hedge).
        -- intros f' c' t' Hx. destruct (decide (f' = form /\ t' = token)) as [?|Hne]; [by left|right]. intros H. apply Hx. split; [done|naive_solver].
        -- intros f' _. by left.
    + destruct Ec as [Hin Hqn]. destruct (open_ok n e cs pub token Hn Eb Ht c Hin) as (Hok & Hsp & He).
      assert (Hone : forall c', c' ∈ [c] <-> c' ∈ queue_of n token \/ c' = c) by (intros c'; rewrite Hqn; set_solver).
      pose proof (Hset [c] false I En Hl Hf Hs Hone) as Hedge.
      pose (opened n := toggleValidCss false (Some token) (add_count 1 (set_error e cs pub token (Some [])
        (if (n_count n =? 0)%Z then toggleValidCss false None n else n)))).
      pose (pushed n := set_valid false (set_error e cs pub token (Some [c]) n)).
      pose proof (notify_inv fuel form token false c p ex n (pushed (opened n)) (Some [c]) IH' Ht Hfu I En Hl Hok Hsp He Hedge eq_refl) as H.
      cbv zeta in H. rewrite <- (change_write form (fun n => pushed (opened n)) p n En) in H.
      rewrite <- (change_change form pushed opened) in H. destruct (n_parent n) as [f|] eqn:Ep; [|exact H].
      rewrite fsv_commute in H; [exact H| |].
      * apply older_change; [|apply old_older, (inv_old _ _ I)]. intros x. cbn. by destruct (n_count x =? 0)%Z.
      * apply (old_older _ (inv_old _ _ I) _ _ _ En Ep).
Qed.

(** ** [NgModelController.$setValidity] *)

Abbreviation whole := (fun (_ _ : nat) (_ : jstr) => False).

Definition control_flag (error : jsobj bool) (key : jstr) (isValid : bool) (n : node) : node :=
  let n :=
    if isValid then
      let n := if default false (ob_get error key) then add_count (-1) n else n in
      if (n_count n =? 0)%Z then set_valid true (toggleValidCss true None n) else n
    else add_count 1 (set_valid false (toggleValidCss false None n)) in
  toggleValidCss isValid (Some key) (set_body (BControl (ob_set error key (negb isValid))) n).

Lemma open_nonneg n : node_ok n -> (0 <= n_count n)%Z.
Proof. intros H. rewrite (ok_count _ H). unfold open_errors, opens. destruct (n_body n); lia. Qed.

Lemma control_flag_ok n error key isValid :
  node_ok n -> n_body n = BControl error -> key <> [] -> ob_get error key <> Some (negb isValid) ->
  let m := control_flag error key isValid n in
  node_ok m /\ same_place n m /\
  forall t', in_error m t' = (if jeqb t' key then negb isValid else in_error n t') /\ queue_of m t' = [].
Proof.
  intros Hn Eb Hk Hne m. pose proof (open_nonneg n Hn) as Hc0. pose proof (ok_valid _ Hn) as V.
  pose proof (ok_invalid _ Hn) as I. pose proof (ok_class _ Hn) as C.
  set (old := default false (ob_get error key)).
  assert (Em : n_body m = BControl (ob_set error key (negb isValid))) by (subst m; unfold control_flag; by destruct isValid).
  assert (He : forall t', in_error m t' = (if jeqb t' key then negb isValid else in_error n t') /\ queue_of m t' = []).
  { intros t'. unfold in_error, queue_of. rewrite Em, Eb. split; [|done]. destruct (jeqb t' key) eqn:E.
    - apply jeqb_true in E as ->. by rewrite ob_get_set_eq.
    - apply jeqb_false in E. by rewrite ob_get_set_ne. }
  assert (Hold : isValid = false -> old = false) by (intros ->; subst old; destruct (ob_get error key) as [[]|]; done).
  assert (Ecount : n_count m = (n_count n - Z.b2z old + Z.b2z (negb isValid))%Z).
  { subst m. unfold control_flag. fold old. destruct isValid.
    - destruct old; cbn; [destruct (n_count n + -1 =? 0)%Z|destruct (n_count n =? 0)%Z]; cbn; lia.
    - rewrite Hold by done. cbn. lia. }
  assert (Hopen : open_errors m = n_count m).
  { rewrite Ecount, (ok_count _ Hn). unfold open_errors. rewrite Em, Eb, opens_set. subst old.
    by destruct (ob_get error key). }
  assert (Hm0 : (0 <= n_count m)%Z) by (rewrite <- Hopen; unfold open_errors, opens; destruct (n_body m); lia).
  assert (Hvalid : n_valid m = (n_count m =? 0)%Z /\ n_invalid m = negb (n_valid m) /\ classes_ok m).
  { unfold classes_ok. subst m. unfold control_flag in *. fold old in Ecount, Hm0 |- *. destruct isValid.
    - set (n1 := if old then add_count (-1) n else n) in *.
      assert (E1 : n_valid n1 = n_valid n /\ n_invalid n1 = n_invalid n /\ n_classes n1 = n_classes n /\ n_count n1 = (n_count n - Z.b2z old)%Z)
        by (subst n1; destruct old; cbn; split_and!; try done; lia).
      destruct E1 as (E1 & E2 & E3 & E4). destruct (Z.eqb_spec (n_count n1) 0) as [E0|E0].
      + cbn [n_valid n_invalid n_count toggleValidCss set_classes set_body set_valid]. rewrite E0. split_and!; [done|done| |].
        * rewrite (proj1 (toggle_token true key _ Hk)). apply (toggle_all true n1).
        * rewrite (proj2 (toggle_token true key _ Hk)). apply (toggle_all true n1).
      + cbn [n_valid n_invalid n_count toggleValidCss set_classes set_body set_valid]. rewrite E1, E2, V.
        rewrite (proj2 (Z.eqb_neq (n_count n1) 0)) by done.
        assert (Hc : n_count n <> 0%Z) by (rewrite E4 in E0; cbn in Hm0; destruct old; cbn in *; lia).
        assert (Vf : n_valid n = false) by (rewrite V; by apply Z.eqb_neq).
        rewrite (proj2 (Z.eqb_neq _ _) Hc). split_and!; [done|by rewrite I, Vf| |].
        * rewrite (proj1 (toggle_token true key _ Hk)). cbn. rewrite E3. rewrite Vf in C. apply C.
        * rewrite (proj2 (toggle_token true key _ Hk)). cbn. rewrite E3. rewrite Vf in C. apply C.
    - cbn [n_valid n_invalid n_count toggleValidCss set_classes set_body set_valid add_count].
      rewrite (proj2 (Z.eqb_neq (n_count n + 1) 0)) by lia. split_and!; [done|done| |].
      + rewrite (proj1 (toggle_token false key _ Hk)). apply (toggle_all false n).
      + rewrite (proj2 (toggle_token false key _ Hk)). apply (toggle_all false n). }
  split_and!; [|unfold same_place, is_form; rewrite Eb, Em; subst m; unfold control_flag; destruct isValid; [|done];
    destruct (default false (ob_get error key)); cbn; [by destruct (n_count n + -1 =? 0)%Z|by destruct (n_count n =? 0)%Z]|exact He].
  destruct Hvalid as (H1 & H2 & H3). split; [|done|done|done|done|].
  - rewrite Em. pose proof (ok_wf _ Hn) as W. rewrite Eb in W. by apply ob_wf_set.
  - intros t _. unfold is_form. by rewrite Em.
Qed.

(** What a validator leaves: the invariant of the page, its own token in the control, nothing else there. *)
Definition flagged (key : jstr) (isValid : bool) (n m : node) : Prop :=
  same_place n m /\ n_pristine m = n_pristine n /\
  forall t, in_error m t = if jeqb t key then negb isValid else in_error n t.

Lemma control_flag_flagged n error key isValid :
  node_ok n -> n_body n = BControl error -> key <> [] -> ob_get error key <> Some (negb isValid) ->
  flagged key isValid n (control_flag error key isValid n).
Proof.
  intros Hn Eb Hk Hne. destruct (control_flag_ok n error key isValid Hn Eb Hk Hne) as (_ & Hs & He).
  split_and!; [exact Hs| |intros t; apply He]. unfold control_flag. destruct isValid; [|done].
  destruct (default false (ob_get error key)); cbn; [by destruct (n_count n + -1 =? 0)%Z|by destruct (n_count n =? 0)%Z].
Qed.

Lemma control_set_validity_ok c key isValid p n :
  inv whole p -> p_nodes p !! c = Some n -> key <> [] -> n_live n = true -> is_form n = false ->
  inv whole (control_set_validity c key isValid p) /\
  exists m, p_nodes (control_set_validity c key isValid p) !! c = Some m /\ flagged key isValid n m.
Proof.
  intros I En Hk Hl. unfold control_set_validity. rewrite En. intros Hcf.
  destruct (n_body n) as [| error] eqn:Eb; [unfold is_form in Hcf; by rewrite Eb in Hcf|]. clear Hcf.
  destruct (bool_decide_reflect (ob_get error key = Some (negb isValid))) as [Heq|Hne].
  { split; [done|]. exists n. split; [done|]. split_and!; [apply same_place_refl|done|]. intros t. destruct (jeqb t key) eqn:Et; [|done].
    apply jeqb_true in Et as ->. unfold in_error. by rewrite Eb, Heq. }
  pose proof (control_flag_flagged n error key isValid (inv_node _ _ I _ _ En) Eb Hk Hne) as Hflag.
  change (fun n0 : node => toggleValidCss isValid (Some key) _) with (control_flag error key isValid).
  destruct (control_flag_ok n error key isValid (inv_node _ _ I _ _ En) Eb Hk Hne) as (Hok & Hs & He).
  rewrite (change_write c _ p n En). set (m := control_flag error key isValid n) in *.
  pose (edge f c' t' := n_parent n = Some f /\ c' = c /\ t' = key).
  assert (I' : inv edge (write_node c m p)).
  { apply (entry_write whole edge p c n m key (if isValid then None else Some []) I En Hok Hs).
    - intros t'. destruct (He t') as [-> ->]. unfold queue_of. rewrite Eb. by destruct isValid, (jeqb t' key).
    - intros c' _. split; [destruct isValid; by intros ?%elem_of_nil|]. intros (x & Ex & _ & Hp & _).
      destruct (inv_old _ _ I _ _ Ex) as [_ H]. destruct (H _ Hp) as (_ & y & Ey & Hy). unfold is_form in Hy.
      rewrite En in Ey. injection Ey as <-. by rewrite Eb in Hy.
    - intros f c' t' _. right. auto.
    - intros f Hf. right. done. }
  unfold parent_set_validity. destruct (n_parent n) as [f|] eqn:Ep.
  - destruct (inv_old _ _ I _ _ En) as [_ H]. destruct (H _ Ep) as (Hlt & fn & Ef & Hff).
    destruct (fsv_inv (S f) key isValid Hk f c (write_node c m p) edge fn) as [I2 [_ F]]; [lia|done| |done| |].
    + cbn. by rewrite lookup_insert_ne by lia.
    + unfold status. cbn. rewrite lookup_insert_eq. destruct Hs as (_ & Epm & Elm & _). destruct (He key) as [Em _].
      rewrite jeqb_refl in Em. split.
      * intros (x & [= <-] & _ & _ & Hx). rewrite Em in Hx. by destruct isValid.
      * intros ->. exists m. split_and!; congruence || done.
    + split; [eapply inv_weaken; [|exact I2]; intros f' c' t' [(Hf' & -> & ->) Hx]; apply Hx; split_and!; [congruence|done|done]|].
      specialize (F c). cbn [p_nodes write_node] in F. rewrite lookup_insert_eq in F.
      destruct (p_nodes (form_set_validity _ _ _ _ _ _) !! c) as [m'|]; [|done]. destruct F as [_ F]. rewrite F by lia. by exists m.
  - split; [eapply inv_weaken; [|exact I']; intros f c' t' (Hf & _); congruence|].
    exists m. cbn. rewrite lookup_insert_eq. done.
Qed.

Lemma control_set_validity_inv c key isValid p n :
  inv whole p -> p_nodes p !! c = Some n -> key <> [] -> n_live n = true -> inv whole (control_set_validity c key isValid p).
Proof.
  intros I En Hk Hl. destruct (is_form n) eqn:Hf; [|by apply (control_set_validity_ok c key isValid p n)].
  unfold control_set_validity, is_form in *. rewrite En. by destruct (n_body n).
Qed.

(** ** Nodes that come and go *)

(** What a change keeps of a node when it is not about its validity. *)
Definition keeps (g : node -> node) (n : node) : Prop :=
  (node_ok n -> node_ok (g n)) /\ n_parent (g n) = n_parent n /\ n_live (g n) = n_live n /\ is_form (g n) = is_form n /\
  forall t, in_error (g n) t = in_error n t /\ queue_of (g n) t = queue_of n t.

Lemma lookup_change p i g j :
  p_nodes (change_node i g p) !! j = (if decide (j = i) then g <$> p_nodes p !! i else p_nodes p !! j).
Proof. cbn. destruct (decide (j = i)) as [->|]; [by rewrite lookup_alter_eq|by rewrite lookup_alter_ne]. Qed.

Lemma inv_keeps ex p i g : (forall n, p_nodes p !! i = Some n -> keeps g n) -> inv ex p -> inv ex (change_node i g p).
Proof.
  intros Hg [I1 I2 I3].
  assert (Hst : forall c f t, status (change_node i g p) c f t <-> status p c f t).
  { intros c f t. unfold status. rewrite lookup_change. destruct (decide (c = i)) as [->|]; [|done].
    destruct (p_nodes p !! i) as [n|]; cbn; [|done]. destruct (Hg n eq_refl) as (_ & Hp & Hl & _ & He). destruct (He t) as [Hin _].
    split; intros (m & [= <-] & ?); eexists; (split; [done|]); [by rewrite <- Hp, <- Hl, <- Hin|by rewrite Hp, Hl, Hin]. }
  split.
  - intros j n. rewrite lookup_change. intros Ej.
    assert (Hold : exists n0, p_nodes p !! j = Some n0 /\ n_parent n = n_parent n0).
    { destruct (decide (j = i)) as [->|]; [|by exists n]. destruct (p_nodes p !! i) as [n0|]; [|done]. injection Ej as <-.
      exists n0. split; [done|]. by apply Hg. }
    destruct Hold as (n0 & E0 & Ep). destruct (I1 j n0 E0) as [Hj Hp]. split; [done|]. intros f Hf. rewrite Ep in Hf.
    destruct (Hp f Hf) as (Hlt & m & Em & Hm). split; [done|]. rewrite lookup_change. destruct (decide (f = i)) as [->|]; [|by exists m].
    rewrite Em. exists (g m). split; [done|]. by rewrite (proj1 (proj2 (proj2 (proj2 (Hg m Em))))).
  - intros j n. rewrite lookup_change. destruct (decide (j = i)) as [->|]; [|apply I2].
    destruct (p_nodes p !! i) as [n0|] eqn:E; [|done]. intros [= <-]. apply Hg; [done|]. by apply (I2 i).
  - intros f m c t. rewrite lookup_change, Hst. destruct (decide (f = i)) as [->|]; [|apply I3].
    destruct (p_nodes p !! i) as [n0|] eqn:E; [|done]. intros [= <-]. destruct (Hg n0 eq_refl) as (_ & _ & -> & -> & He). destruct (He t) as [_ ->].
    by apply (I3 i n0).
Qed.

Lemma keeps_dirty n : keeps mark_dirty n.
Proof.
  split_and!; try done. intros [H1 H2 H3 H4 H5 H6]. split; try done. cbn. assert (VALID_CLASS <> DIRTY_CLASS) by done.
  assert (VALID_CLASS <> PRISTINE_CLASS) by done. assert (INVALID_CLASS <> DIRTY_CLASS) by done. assert (INVALID_CLASS <> PRISTINE_CLASS) by done.
  set_solver.
Qed.
Lemma keeps_pristine n : keeps mark_pristine n.
Proof.
  split_and!; try done. intros [H1 H2 H3 H4 H5 H6]. split; try done. cbn. assert (VALID_CLASS <> DIRTY_CLASS) by done.
  assert (VALID_CLASS <> PRISTINE_CLASS) by done. assert (INVALID_CLASS <> DIRTY_CLASS) by done. assert (INVALID_CLASS <> PRISTINE_CLASS) by done.
  set_solver.
Qed.
Lemma keeps_lists e cs pub cs' pub' n : n_body n = BForm e cs pub -> keeps (set_body (BForm e cs' pub')) n.
Proof.
  intros E. set (m := set_body (BForm e cs' pub') n). assert (Hq : forall t, in_error m t = in_error n t /\ queue_of m t = queue_of n t) by (intros t; unfold in_error, queue_of; by rewrite E).
  split_and!; try done; [|unfold is_form; by rewrite E]. intros [H1 H2 H3 H4 H5 H6]. rewrite E in H1. split; try done.
  - change (n_count n = open_errors (set_body (BForm e cs' pub') n)). rewrite H2. unfold open_errors. by rewrite E.
  - intros t Hin _. fold m. fold m in Hin. destruct (Hq t) as [E1 E2]. rewrite E1 in Hin. rewrite E2. apply H6; [done|].
    unfold is_form. by rewrite E.
Qed.

Lemma form_set_dirty_inv ex fuel form p : inv ex p -> inv ex (form_set_dirty fuel form p).
Proof.
  revert form p. induction fuel as [|fuel IH]; intros form p I; [done|]. cbn [form_set_dirty].
  destruct (p_nodes p !! form) as [n|]; [|done]. destruct (n_live n); [|done].
  assert (I' : inv ex (change_node form mark_dirty p)) by (apply inv_keeps; [intros; apply keeps_dirty|done]).
  destruct (n_parent n); [by apply IH|done].
Qed.
Lemma control_set_dirty_inv ex c p : inv ex p -> inv ex (control_set_dirty c p).
Proof.
  intros I. unfold control_set_dirty. destruct (p_nodes p !! c) as [n|]; [|done]. destruct (n_pristine n); [|done].
  assert (I' : inv ex (change_node c mark_dirty p)) by (apply inv_keeps; [intros; apply keeps_dirty|done]).
  destruct (n_parent n); [by apply form_set_dirty_inv|done].
Qed.
(** Where nodes are made dirty, they are that and nothing else. *)
Lemma form_set_dirty_node fuel form p i n :
  p_nodes p !! i = Some n -> exists m, p_nodes (form_set_dirty fuel form p) !! i = Some m /\ (m = n \/ m = mark_dirty n).
Proof.
  assert (Hm : forall x, mark_dirty (mark_dirty x) = mark_dirty x).
  { intros x. unfold mark_dirty, set_classes. cbn. f_equal. apply set_eq. intros y. destruct (decide (PRISTINE_CLASS = DIRTY_CLASS)); set_solver. }
  revert form p n. induction fuel as [|fuel IH]; intros form p n E; cbn [form_set_dirty]; [exists n; by auto|].
  destruct (p_nodes p !! form) as [f|] eqn:Ef; [|exists n; by auto]. destruct (n_live f); [|exists n; by auto].
  assert (E1 : exists m, p_nodes (change_node form mark_dirty p) !! i = Some m /\ (m = n \/ m = mark_dirty n)).
  { rewrite lookup_change. destruct (decide (i = form)) as [->|]; [|exists n; by auto]. rewrite E. exists (mark_dirty n). by auto. }
  destruct (n_parent f) as [g|]; [|done]. destruct E1 as (m & E1 & Hn). destruct (IH g _ m E1) as (m' & E2 & Hm').
  exists m'. split; [done|]. destruct Hn as [-> | ->], Hm' as [-> | ->]; rewrite ?Hm; by auto.
Qed.
Lemma dirty_place n : same_place n (mark_dirty n) /\ forall t, in_error (mark_dirty n) t = in_error n t.
Proof. split; [|done]. unfold same_place, is_form. cbn. split_and!; try done. by destruct (n_body n). Qed.
Lemma control_set_dirty_ok c p n :
  p_nodes p !! c = Some n ->
  exists m, p_nodes (control_set_dirty c p) !! c = Some m /\ same_place n m /\ n_pristine m = false /\
    forall t, in_error m t = in_error n t.
Proof.
  intros E. unfold control_set_dirty. rewrite E. destruct (n_pristine n) eqn:Hp.
  - destruct (dirty_place n) as [Hs He]. assert (E1 : p_nodes (change_node c mark_dirty p) !! c = Some (mark_dirty n))
      by (rewrite lookup_change, decide_True by done; by rewrite E).
    destruct (n_parent n) as [f|]; [|exists (mark_dirty n); by auto].
    destruct (form_set_dirty_node (S f) f _ c _ E1) as (m & Em & [-> | ->]); eexists; (split; [exact Em|]); [by auto|].
    destruct (dirty_place (mark_dirty n)) as [Hs' He']. split_and!; [by eapply same_place_trans|done|]. intros t. by rewrite He'.
  - exists n. split_and!; [done|apply same_place_refl|done|done].
Qed.

Lemma set_pristine_inv ex fuel i p : inv ex p -> inv ex (set_pristine fuel i p).
Proof.
  revert i p. induction fuel as [|fuel IH]; intros i p I; [done|]. cbn [set_pristine].
  destruct (p_nodes p !! i) as [n|]; [|done].
  assert (I' : inv ex (change_node i mark_pristine p)) by (apply inv_keeps; [intros; apply keeps_pristine|done]).
  destruct (n_body n) as [e cs pub|]; [|done]. destruct (n_live n); [|done].
  generalize dependent (change_node i mark_pristine p). induction cs as [|c cs IHc]; intros q I'; [done|]. cbn. by apply IHc, IH.
Qed.

Lemma add_control_inv ex f c name p p' : inv ex p -> add_control f c name p = Ok p' -> inv ex p'.
Proof.
  intros I. unfold add_control. destruct (p_nodes p !! f) as [n|] eqn:E; [|by intros [= <-]].
  destruct (n_body n) as [e cs pub|] eqn:Eb; [|by intros [= <-]]. destruct (negb (n_live n)); [by intros [= <-]|].
  destruct (jeqb name _); [done|]. intros [= <-]. apply inv_keeps; [|done]. intros m Em.
  assert (m = n) as -> by congruence. by apply (keeps_lists e cs pub).
Qed.

Lemma fresh_ok name parent b : match b with BForm [] _ _ | BControl [] => True | _ => False end -> node_ok (fresh_node name parent b).
Proof.
  intros Hb. assert (VALID_CLASS <> INVALID_CLASS) by done. assert (INVALID_CLASS <> PRISTINE_CLASS) by done.
  assert (Hin : forall t, in_error (fresh_node name parent b) t = false) by (intros t; unfold in_error; by destruct b as [[] ? ?|[]]).
  split; [|by destruct b as [[] ? ?|[]]|done|done|cbn; set_solver|intros t; by rewrite Hin].
  destruct b as [[] ? ?|[]]; try done; cbn; [split|]; try constructor. by intros ?%elem_of_nil.
Qed.

Lemma push_inv p name parent b :
  match b with BForm [] _ _ | BControl [] => True | _ => False end ->
  (forall f, parent = Some f -> exists m, p_nodes p !! f = Some m /\ is_form m = true) ->
  inv whole p -> inv whole (push_node (fresh_node name parent b) p).
Proof.
  intros Hb Hp [I1 I2 I3]. set (n := fresh_node name parent b).
  assert (Hin : forall t, in_error n t = false /\ queue_of n t = []) by (intros t; unfold in_error, queue_of; by destruct b as [[] ? ?|[]]).
  assert (Hnone : p_nodes p !! p_next p = None) by (destruct (p_nodes p !! p_next p) eqn:E; [destruct (I1 _ _ E); lia|done]).
  assert (Hst : forall c f t, status (push_node n p) c f t <-> status p c f t).
  { intros c f t. unfold status. cbn. destruct (decide (c = p_next p)) as [->|]; [|by rewrite lookup_insert_ne].
    rewrite lookup_insert_eq, Hnone. destruct (Hin t) as [Ht _].
    split; [intros (m & [= <-] & _ & _ & Hm); congruence|by intros (m & ? & _)]. }
  split.
  - intros i m. cbn. destruct (decide (i = p_next p)) as [->|Hne].
    + rewrite lookup_insert_eq. intros [= <-]. split; [lia|]. intros f Hf. destruct (Hp f Hf) as (x & Ex & Hx).
      destruct (I1 _ _ Ex). split; [done|]. exists x. by rewrite lookup_insert_ne by lia.
    + rewrite lookup_insert_ne by done. intros Em. destruct (I1 i m Em) as [Hi Hpm]. split; [lia|]. intros f Hf.
      destruct (Hpm f Hf) as (Hlt & x & Ex & Hx). split; [done|]. exists x. by rewrite lookup_insert_ne by lia.
  - intros i m. cbn. destruct (decide (i = p_next p)) as [->|].
    + rewrite lookup_insert_eq. intros [= <-]. by apply fresh_ok.
    + rewrite lookup_insert_ne by done. apply I2.
  - intros f m c t. rewrite Hst. cbn. destruct (decide (f = p_next p)) as [->|].
    + rewrite lookup_insert_eq. intros [= <-] _ _ _. destruct (Hin t) as [_ ->]. split; [by intros ?%elem_of_nil|].
      intros (x & Ex & _ & Hx & _). destruct (I1 _ _ Ex) as [_ H]. destruct (H _ Hx) as (_ & y & Ey & _). congruence.
    + rewrite lookup_insert_ne by done. apply I3.
Qed.

(** ** [$removeControl] *)

Definition excused (p : page) (n : node) (c : nat) (tokens : list jstr) (f c' : nat) (t : jstr) : Prop :=
  n_parent n = Some f /\ c' = c /\ t ∈ tokens.
Definition errors_of (n : node) : list jstr := match n_body n with BForm e _ _ => ob_names e | BControl _ => [] end.

Lemma queue_absent n t : t ∉ errors_of n -> queue_of n t = [].
Proof.
  unfold errors_of, queue_of. destruct (n_body n) as [e cs pub|]; [|done]. intros H. destruct (ob_get e t) as [q|] eqn:E; [|done].
  destruct H. apply ob_get_entry in E. by apply (list_elem_of_fmap_2 fst) in E.
Qed.

(** The control dies, its form still knowing of its errors. *)
Lemma dead_inv p c n :
  inv whole p -> p_nodes p !! c = Some n ->
  inv (fun f c' t => n_parent n = Some f /\ c' = c /\ exists m, p_nodes p !! f = Some m /\ t ∈ errors_of m) (change_node c mark_dead p).
Proof.
  intros [I1 I2 I3] E. rewrite (change_write _ _ _ _ E).
  assert (F : forall i, exists x', p_nodes (write_node c (mark_dead n) p) !! i = x' /\ match p_nodes p !! i with
     Some x => exists y, x' = Some y /\ n_parent y = n_parent x /\ is_form y = is_form x | None => x' = None end).
  { intros i. eexists. split; [done|]. cbn. destruct (decide (i = c)) as [->|].
    - rewrite lookup_insert_eq, E. by eexists.
    - rewrite lookup_insert_ne by done. destruct (p_nodes p !! i) as [x|]; [by exists x|done]. }
  split.
  - intros i x Ex. destruct (F i) as (x' & E' & Hx'). rewrite Ex in E'. subst x'.
    destruct (p_nodes p !! i) as [y|] eqn:Ey; [|done]. destruct Hx' as (z & [= <-] & Ep & _).
    destruct (I1 i y Ey) as [Hi Hp]. split; [done|]. intros f Hf. rewrite Ep in Hf. destruct (Hp f Hf) as (Hlt & m & Em & Hm). split; [done|].
    destruct (F f) as (m' & E' & Hm'). rewrite Em in Hm'. destruct Hm' as (z & -> & _ & Ez). exists z. split; [done|congruence].
  - intros i x. cbn. destruct (decide (i = c)) as [->|].
    + rewrite lookup_insert_eq. intros [= <-]. pose proof (I2 _ _ E) as [H1 H2 H3 H4 H5 H6]. by split.
    + rewrite lookup_insert_ne by done. apply I2.
  - intros f m c' t Em Hl Hf Hx. cbn in Em. destruct (decide (f = c)) as [->|Hne].
    { rewrite lookup_insert_eq in Em. injection Em as <-. done. }
    rewrite lookup_insert_ne in Em by done. rewrite (I3 f m c' t Em Hl Hf) by tauto. unfold status. cbn.
    destruct (decide (c' = c)) as [->|]; [|by rewrite lookup_insert_ne]. rewrite lookup_insert_eq, E. split.
    + intros (x & [= <-] & Hlx & Hp & Hi). exfalso. destruct (decide (t ∈ errors_of m)) as [Ht|Ht]; [apply Hx; by eauto|].
      assert (Hq : c ∈ queue_of m t) by (apply (I3 f m c t Em Hl Hf); [tauto|exists n; done]).
      rewrite queue_absent in Hq by done. by apply elem_of_nil in Hq.
    + intros (x & [= <-] & Hlx & _). done.
Qed.

Lemma older_fsv fuel form token b c p : older p -> older (form_set_validity fuel form token b c p).
Proof.
  revert form b c p. induction fuel as [|fuel IH]; intros form b c p Ho; [done|]. cbn [form_set_validity].
  destruct (p_nodes p !! form) as [n|]; [|done]. destruct (n_body n) as [e cs pub|]; [|done]. destruct (negb (n_live n)); [done|].
  destruct (match ob_get e token with Some q => q | None => None end) as [q|]; destruct b; try done.
  - destruct (remove_id c q); [|by apply older_change].
    assert (Ho' : forall F, (forall n, n_parent (F n) = n_parent n) -> older (change_node form F p)) by (intros; by apply older_change).
    destruct (n_parent n); [apply IH|]; apply Ho'; intros x; cbn; by destruct (n_count x + -1 =? 0)%Z.
  - destruct (bool_decide (c ∈ q)); apply older_change; try done; intros x; cbn; by destruct (n_count x =? 0)%Z.
  - apply older_change; [done|].
    assert (Ho' : forall F, (forall n, n_parent (F n) = n_parent n) -> older (change_node form F p)) by (intros; by apply older_change).
    destruct (n_parent n); [apply IH|]; apply Ho'; intros x; cbn; by destruct (n_count x =? 0)%Z.
Qed.

Abbreviation clear_tokens f c tokens p := (fold_left (fun q token => form_set_validity (S f) f token true c q) tokens p).

Lemma clear_commute f c tokens p i g :
  older p -> f < i -> clear_tokens f c tokens (change_node i g p) = change_node i g (clear_tokens f c tokens p).
Proof.
  revert p. induction tokens as [|t tokens IH]; intros p Ho Hi; [done|]. cbn [fold_left]. rewrite fsv_commute by done.
  apply IH; [by apply older_fsv|done].
Qed.

Lemma remove_commute f c name p i g :
  older p -> f < i -> remove_control f c name (change_node i g p) = change_node i g (remove_control f c name p).
Proof.
  intros Ho Hi. unfold remove_control. rewrite lookup_change. rewrite decide_False by lia.
  destruct (p_nodes p !! f) as [n|]; [|done]. destruct (n_body n) as [e cs pub|]; [|done]. destruct (negb (n_live n)); [done|].
  cbv zeta. rewrite (change_commute f i) by lia. rewrite clear_commute by (done || by apply older_change).
  by rewrite (change_commute f i) by lia.
Qed.

Lemma clear_inv tokens f c p ex n cn :
  Forall (fun t => t <> []) tokens -> inv ex p -> f < c -> p_nodes p !! f = Some n -> is_form n = true ->
  p_nodes p !! c = Some cn -> n_live cn = false ->
  inv (fun f' c' t' => ex f' c' t' /\ ~ (f' = f /\ c' = c /\ t' ∈ tokens)) (clear_tokens f c tokens p) /\
  frame (S f) p (clear_tokens f c tokens p).
Proof.
  revert p ex n. induction tokens as [|t tokens IH]; intros p ex n Ht I Hfc En Hf Ec Hl.
  - cbn. split; [|apply frame_refl]. eapply inv_weaken; [|exact I]. intros f' c' t' H. split; [done|].
    intros (_ & _ & Hin). by apply elem_of_nil in Hin.
  - apply Forall_cons in Ht as [Ht Hts]. cbn [fold_left].
    destruct (fsv_inv (S f) t true Ht f c p ex n) as [I1 F1]; [lia|done|done|done| |].
    { split; [|done]. intros (x & Ex & Hx & _). congruence. }
    set (p1 := form_set_validity (S f) f t true c p) in *. pose proof F1 as [_ F1'].
    pose proof (F1' f) as Ff. rewrite En in Ff. destruct (p_nodes p1 !! f) as [n1|] eqn:En1; [|done].
    pose proof (F1' c) as Fc. rewrite Ec in Fc. destruct (p_nodes p1 !! c) as [cn1|] eqn:Ec1; [|done].
    destruct Ff as [(_ & _ & _ & Ef & _) _]. destruct Fc as [_ Ecn]. rewrite Ecn in Ec1 by lia.
    destruct (IH p1 (but ex f c t) n1) as [I2 F2]; [done|done|done|done|congruence|done|done|].
    split; [|by eapply frame_trans]. eapply inv_weaken; [|exact I2]. intros f' c' t' [[Hx Hne] Hnin]. split; [done|].
    intros (-> & -> & Hin). apply elem_of_cons in Hin as [->|Hin]; [by apply Hne|by apply Hnin].
Qed.

Lemma remove_inv p f c name cn :
  inv (fun f' c' t => f' = f /\ c' = c /\ exists m, p_nodes p !! f' = Some m /\ t ∈ errors_of m) p ->
  f < c -> p_nodes p !! c = Some cn -> n_live cn = false -> inv whole (remove_control f c name p).
Proof.
  intros I Hfc Ec Hl. unfold remove_control. destruct (p_nodes p !! f) as [n|] eqn:En.
  2: { eapply inv_weaken; [|exact I]. intros f' c' t (-> & _ & m & Em & _). congruence. }
  destruct (n_body n) as [e cs pub|] eqn:Eb.
  2: { eapply inv_weaken; [|exact I]. intros f' c' t (-> & _ & m & Em & Ht). assert (m = n) as -> by congruence.
       unfold errors_of in Ht. rewrite Eb in Ht. by apply elem_of_nil in Ht. }
  destruct (n_live n) eqn:Eln; cbn [negb].
  2: { destruct I as [I1 I2 I3]. split; [done|done|]. intros f' m c' t Em Hlm Hfm _. apply (I3 f' m c' t Em Hlm Hfm).
       intros (-> & _). congruence. }
  cbv zeta. set (pub' := if truthy name && bool_decide (ob_get pub name = Some c) then ob_delete pub name else pub).
  assert (Hk : forall m, p_nodes p !! f = Some m -> keeps (set_body (BForm e cs pub')) m).
  { intros m Em. assert (m = n) as -> by congruence. by apply (keeps_lists e cs pub). }
  assert (Htok : Forall (fun t => t <> []) (enum_names e)).
  { apply Forall_forall. intros t Ht ->. pose proof (ok_wf _ (inv_node _ _ I _ _ En)) as W. rewrite Eb in W. destruct W as [_ W].
    apply W. by rewrite <- (enum_names_perm e). }
  destruct (clear_inv (enum_names e) f c (change_node f (set_body (BForm e cs pub')) p) _ (set_body (BForm e cs pub') n) cn Htok
    (inv_keeps _ p f _ Hk I) Hfc) as [I2 _].
  - rewrite lookup_change, decide_True by done. by rewrite En.
  - done.
  - rewrite lookup_change, decide_False by lia. done.
  - done.
  - apply inv_keeps.
    + intros m Em. destruct (n_body m) as [e' cs' pub''|] eqn:Ebm; [|unfold keeps; rewrite Ebm; by split_and!].
      pose proof (keeps_lists e' cs' pub'' (remove_id c cs') pub'' m Ebm) as (K1 & K2 & K3 & K4 & K5).
      unfold keeps. rewrite Ebm. split_and!; done.
    + eapply inv_weaken; [|exact I2]. intros f' c' t [(-> & -> & m & Em & Ht) Hne]. apply Hne. split_and!; [done|done|].
      assert (m = n) as -> by congruence. rewrite enum_names_perm. unfold errors_of in Ht. by rewrite Eb in Ht.
Qed.

Lemma destroy_inv p f c n name :
  inv whole p -> p_nodes p !! c = Some n -> n_parent n = Some f -> inv whole (change_node c mark_dead (remove_control f c name p)).
Proof.
  intros I E Ep. destruct (inv_old _ _ I _ _ E) as [_ H]. destruct (H _ Ep) as (Hlt & m & Em & Hm).
  rewrite <- remove_commute by (try done; apply old_older, (inv_old _ _ I)).
  apply (remove_inv _ f c name (mark_dead n)); [|done| |done].
  - eapply inv_weaken; [|by apply (dead_inv p c n)]. intros f' c' t (Hf & -> & x & Ex & Ht).
    assert (f' = f) as -> by congruence. split_and!; [done|done|]. exists x. rewrite lookup_change, decide_False by lia. done.
  - rewrite lookup_change, decide_True by done. by rewrite E.
Qed.
