(* ===== verification/FormRun.v ===== *)
(** * The validity of forms on every page *)

From S2P Require Import Prelude JsString JsObject Json Form FormFacts.

Lemma parent_ok_spec parent p : parent_ok parent p = true ->
  forall f, parent = Some f -> exists m, p_nodes p !! f = Some m /\ is_form m = true.
Proof.
  intros H f ->. cbn in H. destruct (p_nodes p !! f) as [m|] eqn:E; [|done]. exists m. split; [done|]. unfold is_form.
  by destruct (n_body m).
Qed.

Lemma apply_inv o p p' : inv whole p -> apply o p = Some p' -> inv whole p'.
Proof.
  intros I. destruct o as [name parent|name parent|c key b|c|i|c|f]; cbn [apply].
  - destruct (parent_ok parent p) eqn:Hp; [|done]. intros [= <-]. pose proof (parent_ok_spec _ _ Hp) as Hp'.
    assert (I' : inv whole (push_node (fresh_node name parent (BForm [] [] [])) p)) by by apply push_inv.
    unfold new_form. destruct parent as [f|]; [|done].
    destruct (add_control f (p_next p) name _) as [q|e] eqn:E; [|done]. by eapply add_control_inv.
  - destruct (parent_ok parent p) eqn:Hp; [|done]. intros [= <-]. pose proof (parent_ok_spec _ _ Hp) as Hp'.
    assert (I' : inv whole (push_node (fresh_node name parent (BControl [])) p)) by by apply push_inv.
    unfold new_control. destruct parent as [f|]; [|done].
    destruct (add_control f (p_next p) name _) as [q|e] eqn:E; [|done]. by eapply add_control_inv.
  - destruct (p_nodes p !! c) as [n|] eqn:E; [|done]. destruct (n_live n) eqn:Hl; [|done]. destruct key as [|k key]; [done|].
    intros [= <-]. by apply (control_set_validity_inv c (k :: key) b p n).
  - intros [= <-]. by apply control_set_dirty_inv.
  - intros [= <-]. by apply set_pristine_inv.
  - intros [= <-]. unfold destroy_control. destruct (p_nodes p !! c) as [n|] eqn:E; [|done]. destruct (jeqb (n_name n) _); [done|].
    destruct (n_parent n) as [f|] eqn:Ep; [by apply (destroy_inv p f c n)|].
    eapply inv_weaken; [|by apply (dead_inv p c n)]. intros f c' t (Hf & _). congruence.
  - intros [= <-]. unfold destroy_form. destruct (p_nodes p !! f) as [n|] eqn:E; [|done].
    destruct (n_parent n) as [g|] eqn:Ep; [by apply (destroy_inv p g f n)|done].
Qed.

Lemma run_inv ops p p' : inv whole p -> run ops p = Some p' -> inv whole p'.
Proof.
  revert p. induction ops as [|o ops IH]; intros p I; cbn; [by intros [= <-]|].
  destruct (apply o p) as [q|] eqn:E; [|done]. apply IH. by eapply apply_inv.
Qed.

Lemma empty_inv : inv whole empty_page.
Proof.
  split.
  - intros i n. unfold empty_page. cbn. by rewrite lookup_empty.
  - intros i n. unfold empty_page. cbn. by rewrite lookup_empty.
  - intros f m c t. unfold empty_page. cbn. by rewrite lookup_empty.
Qed.

(** The nodes of a form, those of the forms in it among them, that have not been removed. *)
Inductive below (p : page) (f : nat) : nat -> Prop :=
| below_child c n : p_nodes p !! c = Some n -> n_live n = true -> n_parent n = Some f -> below p f c
| below_deep g c n : below p f g -> p_nodes p !! c = Some n -> n_live n = true -> n_parent n = Some g -> below p f c.

Section Errors.
Context (p : page) (I : inv whole p).

Lemma child_error c n f m t :
  p_nodes p !! c = Some n -> n_live n = true -> n_parent n = Some f -> p_nodes p !! f = Some m -> n_live m = true ->
  in_error n t = true -> in_error m t = true.
Proof.
  intros En Hl Hp Em Hlm Hin. destruct (inv_old _ _ I _ _ En) as [_ H]. destruct (H _ Hp) as (_ & m' & Em' & Hf).
  assert (m' = m) as -> by congruence.
  assert (Hq : c ∈ queue_of m t) by (apply (inv_edge _ _ I f m c t Em Hlm Hf); [tauto|by exists n]).
  unfold queue_of, in_error in *. destruct (n_body m) as [e cs pub|]; [|by apply elem_of_nil in Hq].
  destruct (ob_get e t) as [[q|]|]; [done|by apply elem_of_nil in Hq..].
Qed.

Lemma below_live f c : below p f c -> exists n, p_nodes p !! c = Some n /\ n_live n = true.
Proof. by intros [? n ? ?|? ? n ? ? ?]; exists n. Qed.

Lemma below_error f m c n t :
  p_nodes p !! f = Some m -> n_live m = true -> below p f c -> p_nodes p !! c = Some n -> in_error n t = true -> in_error m t = true.
Proof.
  intros Em Hl B. revert n. induction B as [c n' En' Hl' Hp'|g c n' B IH En' Hl' Hp']; intros n En Hin.
  - assert (n' = n) as -> by congruence. by apply (child_error c n f m t).
  - assert (n' = n) as -> by congruence. destruct (below_live _ _ B) as (x & Ex & Hx). apply (IH x Ex).
    by apply (child_error c n g x t).
Qed.

Lemma below_trans f g c : below p f g -> below p g c -> below p f c.
Proof. intros B1 B2. induction B2 as [c n ? ? ?|h c n ? ? ? ? ?]; by eapply below_deep. Qed.

(** A form in error has a control in error. *)
Lemma error_source t d : forall f m,
  p_next p - f <= d -> p_nodes p !! f = Some m -> n_live m = true -> is_form m = true -> in_error m t = true ->
  exists c n, below p f c /\ p_nodes p !! c = Some n /\ is_form n = false /\ in_error n t = true.
Proof.
  induction d as [|d IH]; intros f m Hd Em Hl Hf Hin.
  - destruct (inv_old _ _ I _ _ Em). lia.
  - destruct (ok_queues _ (inv_node _ _ I _ _ Em) t Hin Hf) as [Hq _].
    destruct (queue_of m t) as [|c q] eqn:Eq; [done|]. assert (Hc : c ∈ queue_of m t) by (rewrite Eq; left).
    apply (inv_edge _ _ I f m c t Em Hl Hf) in Hc as (n & En & Hln & Hp & Hn); [|tauto].
    assert (B : below p f c) by by eapply below_child. destruct (is_form n) eqn:Efn; [|by exists c, n].
    destruct (inv_old _ _ I _ _ En) as [Hcn H]. destruct (H _ Hp) as [Hlt _].
    destruct (IH c n) as (c' & n' & B' & ?); [lia|done..|]. exists c', n'. split; [by eapply below_trans|done].
Qed.
End Errors.


(** A form in a form, with a control each; the inner control is in error, then removed. *)
Definition sample_ops : list op :=
  [OpForm (js "outer") None; OpForm (js "inner") (Some 0); OpControl (js "a") (Some 0); OpControl (js "b") (Some 1);
   OpValidity 3 (js "required") false; OpValidity 2 (js "required") true].


(** A validator that runs after its control has been removed leaves the form in error for ever. *)
Example removed_control_error :
  let p := default empty_page (run [OpForm [] None; OpControl [] (Some 0); OpDestroyControl 1] empty_page) in
  n_valid <$> p_nodes (control_set_validity 1 (js "required") false p) !! 0 = Some false.
Proof. vm_compute. reflexivity. Qed.
