(* ===== verification/Regex.v ===== *)
(** * Regular expressions

    The constructions that the regular expressions of the source use, run by backtracking as the language does: the
    first path that succeeds, captures numbered by the parentheses.  The language of an expression is what its paths
    can read; a run is sound and complete for it. *)

From S2P Require Import Prelude JsString JsObject JsNumber.
#[local] Open Scope nat_scope.

Inductive regexp : Type :=
| RChar (P : N -> bool)
| REmpty
| RSeq (r1 r2 : regexp)
| RAlt (r1 r2 : regexp)
| RStar (greedy : bool) (r : regexp)
| RGroup (i : nat) (r : regexp)
| REnd.                                        (** [$] *)

(** What the groups have captured, the last capture of a group first. *)
Definition captures : Type := list (nat * jstr).
Definition group (i : nat) (c : captures) : jstr := match find (fun p => Nat.eqb p.1 i) c with Some p => p.2 | None => [] end.

Section Match.
Context {A : Type}.

(** The iterations of a loop, each of which reads something. *)
Fixpoint loop_re (body : jstr -> captures -> (jstr -> captures -> option A) -> option A) (greedy : bool) (n : nat)
    (s : jstr) (c : captures) (k : jstr -> captures -> option A) : option A :=
  match n with
  | 0 => k s c
  | S n =>
      let more (_ : unit) := body s c (fun s' c' => if Nat.ltb (length s') (length s) then loop_re body greedy n s' c' k else None) in
      if greedy then match more tt with Some a => Some a | None => k s c end
      else match k s c with Some a => Some a | None => more tt end
  end.

(** A path through [r] from [s], continued by [k]. *)
Fixpoint run_re (r : regexp) (s : jstr) (c : captures) (k : jstr -> captures -> option A) : option A :=
  match r with
  | RChar P => match s with x :: s => if P x then k s c else None | [] => None end
  | REmpty => k s c
  | RSeq r1 r2 => run_re r1 s c (fun s c => run_re r2 s c k)
  | RAlt r1 r2 => match run_re r1 s c k with Some a => Some a | None => run_re r2 s c k end
  | RStar greedy r => loop_re (run_re r) greedy (length s) s c k
  | RGroup i r => run_re r s c (fun s' c' => k s' ((i, take (length s - length s') s) :: c'))
  | REnd => match s with [] => k s c | _ => None end
  end.
End Match.

(** The match at the start of a text: what it reads, what is left, the groups. *)
Definition match_at (r : regexp) (s : jstr) : option (jstr * jstr * captures) :=
  run_re r s [] (fun s' c => Some (take (length s - length s') s, s', c)).
(** The leftmost match: what precedes it, what it reads, what is left, the groups. *)
Fixpoint find_match (r : regexp) (s : jstr) : option (jstr * jstr * jstr * captures) :=
  match match_at r s with
  | Some (m, rest, c) => Some ([], m, rest, c)
  | None => match s with
            | [] => None
            | x :: s => match find_match r s with Some (before, m, rest, c) => Some (x :: before, m, rest, c) | None => None end
            end
  end.
Definition test_at (r : regexp) (s : jstr) : bool := match match_at r s with Some _ => true | None => false end.
Definition test (r : regexp) (s : jstr) : bool := match find_match r s with Some _ => true | None => false end.

(** [s.replace(r, f)] and, for a global expression that reads something, the same on every match. *)
Definition replace_first (r : regexp) (f : jstr -> captures -> jstr) (s : jstr) : jstr :=
  match find_match r s with Some (before, m, rest, c) => before ++ f m c ++ rest | None => s end.
Fixpoint replace_all (fuel : nat) (r : regexp) (f : jstr -> captures -> jstr) (s : jstr) : jstr :=
  match fuel, find_match r s with
  | S fuel, Some (before, m, rest, c) => before ++ f m c ++ replace_all fuel r f rest
  | _, _ => s
  end.
(** The matches of a global expression, in order. *)
Fixpoint all_matches (fuel : nat) (r : regexp) (s : jstr) : list captures :=
  match fuel, find_match r s with
  | S fuel, Some (_, _, rest, c) => c :: all_matches fuel r rest
  | _, _ => []
  end.

(** ** Notations of the source *)

Definition rlit (x : N) : regexp := RChar (N.eqb x).
Fixpoint rtext (s : jstr) : regexp := match s with [] => REmpty | [x] => rlit x | x :: s => RSeq (rlit x) (rtext s) end.
Definition ropt (r : regexp) : regexp := RAlt r REmpty.
Definition rplus (r : regexp) : regexp := RSeq r (RStar true r).
Definition rstar (r : regexp) : regexp := RStar true r.
Fixpoint rseq (l : list regexp) : regexp := match l with [] => REmpty | [r] => r | r :: l => RSeq r (rseq l) end.
Fixpoint ralt (l : list regexp) : regexp := match l with [] => REmpty | [r] => r | r :: l => RAlt r (ralt l) end.

Definition is_letter (c : N) : bool := ((65 <=? c) && (c <=? 90) || (97 <=? c) && (c <=? 122))%N.
(** [\w], [\s] and [.]. *)
Definition is_word (c : N) : bool := is_letter c || is_digit c || (c =? 95)%N.
Definition is_space (c : N) : bool := is_js_space c.
Definition is_dot (c : N) : bool := negb (existsb (N.eqb c) [10; 13; 8232; 8233]%N).
Definition among (s : jstr) (c : N) : bool := existsb (N.eqb c) s.
Definition none_of (s : jstr) (c : N) : bool := negb (among s c).
Definition spaces : regexp := rstar (RChar is_space).
(** The lower case of ASCII letters, and the comparison under the flag [i]. *)
Definition ascii_lower (c : N) : N := if ((65 <=? c) && (c <=? 90))%N then (c + 32)%N else c.
Definition lowercase (s : jstr) : jstr := map ascii_lower s.
Definition rlit_i (x : N) : regexp := RChar (fun c => N.eqb (ascii_lower c) (ascii_lower x)).
Fixpoint rtext_i (s : jstr) : regexp := match s with [] => REmpty | [x] => rlit_i x | x :: s => RSeq (rlit_i x) (rtext_i s) end.

(** ** The language of an expression *)

(** [lang r u rest]: a path of [r] reads [u] when [rest] follows. *)
Inductive lang : regexp -> jstr -> jstr -> Prop :=
| lang_char P x rest : P x = true -> lang (RChar P) [x] rest
| lang_empty rest : lang REmpty [] rest
| lang_seq r1 r2 u v rest : lang r1 u (v ++ rest) -> lang r2 v rest -> lang (RSeq r1 r2) (u ++ v) rest
| lang_left r1 r2 u rest : lang r1 u rest -> lang (RAlt r1 r2) u rest
| lang_right r1 r2 u rest : lang r2 u rest -> lang (RAlt r1 r2) u rest
| lang_stop g r rest : lang (RStar g r) [] rest
| lang_more g r u v rest : u <> [] -> lang r u (v ++ rest) -> lang (RStar g r) v rest -> lang (RStar g r) (u ++ v) rest
| lang_group i r u rest : lang r u rest -> lang (RGroup i r) u rest
| lang_end : lang REnd [] [].

(** A run of [r] from [s] that ends in [a]: a path, and what follows. *)
Definition path {A} (r : regexp) (s : jstr) (k : jstr -> captures -> option A) (a : A) : Prop :=
  exists u rest c, s = u ++ rest /\ lang r u rest /\ k rest c = Some a.
Lemma loop_sound {A} r g n s c (k : jstr -> captures -> option A) a :
  (forall s c (k : jstr -> captures -> option A) a, run_re r s c k = Some a -> path r s k a) ->
  loop_re (run_re r) g n s c k = Some a -> path (RStar g r) s k a.
Proof.
  intros IH. revert s c. induction n as [|n IHn]; intros s c; cbn [loop_re]; (assert (Hk : k s c = Some a -> path (RStar g r) s k a);
    [intros H; exists [], s, c; split_and!; [done|constructor|done]|]); [done|].
  set (more := run_re r s c _). assert (Hm : more = Some a -> path (RStar g r) s k a).
  { intros (u & rest & c1 & -> & Hu & H)%IH. destruct (Nat.ltb_spec (length rest) (length (u ++ rest))) as [Hl|]; [|done].
    apply IHn in H as (v & rest' & c2 & -> & Hv & H). exists (u ++ v), rest', c2. split_and!; [by rewrite app_assoc| |done].
    constructor; [intros ->; cbn in Hl; lia|done|done]. }
  clearbody more. destruct g.
  - destruct more as [b|]; [intros [= ->]; by apply Hm|done].
  - destruct (k s c) as [b|]; [done|done].
Qed.
Lemma run_sound {A} r s c (k : jstr -> captures -> option A) a : run_re r s c k = Some a -> path r s k a.
Proof.
  revert s c k a. induction r as [P| |r1 IH1 r2 IH2|r1 IH1 r2 IH2|g r IH|i r IH|]; intros s c k a; cbn [run_re].
  - destruct s as [|x s]; [done|]. destruct (P x) eqn:Ex; [|done]. intros H. exists [x], s, c. split_and!; [done|by constructor|done].
  - intros H. exists [], s, c. split_and!; [done|constructor|done].
  - intros (u & rest & c1 & -> & Hu & H)%IH1. apply IH2 in H as (v & rest' & c2 & -> & Hv & H). exists (u ++ v), rest', c2.
    split_and!; [by rewrite app_assoc|by constructor|done].
  - destruct (run_re r1 s c k) eqn:E1.
    + intros [= ->]. apply IH1 in E1 as (u & rest & c1 & -> & Hu & H). exists u, rest, c1. split_and!; [done|by constructor|done].
    + intros (u & rest & c1 & -> & Hu & H)%IH2. exists u, rest, c1. split_and!; [done|by apply lang_right|done].
  - by apply loop_sound.
  - intros (u & rest & c1 & -> & Hu & H)%IH. eexists u, rest, _. split_and!; [done|by constructor|exact H].
  - destruct s; [|done]. intros H. exists [], [], c. split_and!; [done|constructor|done].
Qed.

(** A path of the language is found when every capture lets the rest succeed. *)
Lemma loop_complete {A} r g n u v rest c (k : jstr -> captures -> option A) :
  (forall u rest c (k : jstr -> captures -> option A), lang r u rest -> (forall c, k rest c <> None) -> run_re r (u ++ rest) c k <> None) ->
  u = v -> lang (RStar g r) v rest -> length (v ++ rest) <= n -> (forall c, k rest c <> None) -> loop_re (run_re r) g n (u ++ rest) c k <> None.
Proof.
  intros IH -> Hv. revert n c. remember (RStar g r) as R eqn:ER. revert ER.
  induction Hv as [| | | | |g' r' rest|g' r' u v rest Hu Hr _ Hs IHs| |]; intros [=]; subst; intros n c Hn Hk.
  - cbn [app]. destruct n as [|n]; cbn [loop_re]; [apply Hk|]. set (more := run_re r rest c _). clearbody more.
    destruct g; [destruct more; [done|apply Hk]|]. specialize (Hk c). by destruct (k rest c).
  - specialize (IHs eq_refl). destruct n as [|n]; [destruct u; [done|cbn in Hn; lia]|]. cbn [loop_re]. rewrite <- app_assoc in *.
    assert (Hm : run_re r (u ++ v ++ rest) c (fun s' c' => if Nat.ltb (length s') (length (u ++ v ++ rest)) then loop_re (run_re r) g n s' c' k else None) <> None).
    { apply IH; [done|]. intros c'. assert (length u <> 0) by (by destruct u). rewrite (length_app u) in *.
      destruct (Nat.ltb_spec (length (v ++ rest)) (length u + length (v ++ rest))); [|lia]. apply IHs; [lia|done]. }
    set (more := run_re r _ c _) in *. clearbody more. destruct g; [by destruct more|]. by destruct (k _ c).
Qed.
Lemma run_complete {A} r u rest c (k : jstr -> captures -> option A) :
  lang r u rest -> (forall c, k rest c <> None) -> run_re r (u ++ rest) c k <> None.
Proof.
  revert u rest c k. induction r as [P| |r1 IH1 r2 IH2|r1 IH1 r2 IH2|g r IH|i r IH|]; intros u rest c k Hl Hk; cbn [run_re].
  - inversion Hl as [? x ? Hx| | | | | | | |]; subst. cbn. by rewrite Hx.
  - inversion Hl; subst. apply Hk.
  - inversion Hl as [| |? ? u1 u2 ? H1 H2| | | | | |]; subst. rewrite <- app_assoc. apply IH1; [done|]. intros c'. by apply IH2.
  - set (a := run_re r1 _ c k). inversion Hl; subst; [|destruct a; [done|by apply IH2]].
    assert (a <> None) by by apply IH1. by destruct a.
  - eapply loop_complete; [exact IH|reflexivity|exact Hl|done|done].
  - inversion Hl; subst. apply IH; [done|]. intros c'. apply Hk.
  - inversion Hl; subst. apply Hk.
Qed.

Lemma match_at_sound r s m rest c : match_at r s = Some (m, rest, c) -> s = m ++ rest /\ lang r m rest.
Proof.
  unfold match_at. intros (u & rest' & c' & -> & Hu & [= <- <- _])%run_sound. rewrite length_app.
  replace (length u + length rest' - length rest') with (length u) by lia. by rewrite take_app_length.
Qed.
Lemma match_at_complete r u rest : lang r u rest -> test_at r (u ++ rest) = true.
Proof.
  intros H. unfold test_at, match_at. set (k := fun s' c => _). assert (run_re r (u ++ rest) [] k <> None) by (by apply run_complete).
  by destruct (run_re r (u ++ rest) [] k).
Qed.
Lemma find_match_sound r s before m rest c : find_match r s = Some (before, m, rest, c) -> s = before ++ m ++ rest /\ lang r m rest.
Proof.
  revert before. induction s as [|x s IH]; intros before; cbn [find_match].
  - destruct (match_at r []) as [[[m' rest'] c']|] eqn:E; [|done]. intros [= <- <- <- <-]. by apply match_at_sound in E.
  - destruct (match_at r (x :: s)) as [[[m' rest'] c']|] eqn:E; [intros [= <- <- <- <-]; by apply match_at_sound in E|].
    destruct (find_match r s) as [[[[b m'] rest'] c']|]; [|done]. intros [= <- <- <- <-]. destruct (IH b eq_refl) as [-> ?]. done.
Qed.
