(* ===== verification/NgModel.v ===== *)
(** * Input controls (angular.js, NgModelController, the input types, required, ngList, ngChange)

    A control passes what the user types through its [$parsers] to the model, and a change of the model
    through its [$formatters] to the view.  The validators of the source are the constructors of [pipe];
    the control is a node of the page of [Form], the model is read and written by the evaluation of [Eval].
    The regular expression of [ng-pattern] is a literal one; the separator of [ng-list] is a text. *)

From Stdlib Require Import QArith.
From S2P Require Import Prelude JsString JsObject JsNumber UriCodec Json Form Heap Lexer Parser Eval Regex.
#[local] Open Scope nat_scope.
Local Open Scope handler_scope.

(** ** The state of a control *)

Record field : Type := Field {
  f_heap : heap;
  f_page : page;
  f_view : hval;                      (** [$viewValue] *)
  f_model : hval;                     (** [$modelValue] *)
  f_required : bool;                  (** [attr.required] *)
  f_validity : option (list jstr);    (** the flags of the validity state of the element, where the browser has one *)
  f_last : nat;                       (** [lastIndex] of the regular expression of [ng-pattern] *)
  f_composing : bool;
  f_placeholder : jstr;
  f_shown : hval;                     (** what [$render] has put in the element *)
  f_seen : option hval;               (** [last] of the watch of the control *)
  f_thrown : list js_error            (** what [$exceptionHandler] was given *)
}.

Definition set_fheap (h : heap) (st : field) : field :=
  Field h (f_page st) (f_view st) (f_model st) (f_required st) (f_validity st) (f_last st) (f_composing st) (f_placeholder st)
        (f_shown st) (f_seen st) (f_thrown st).
Definition set_fpage (p : page) (st : field) : field :=
  Field (f_heap st) p (f_view st) (f_model st) (f_required st) (f_validity st) (f_last st) (f_composing st) (f_placeholder st)
        (f_shown st) (f_seen st) (f_thrown st).
Definition set_view (v : hval) (st : field) : field :=
  Field (f_heap st) (f_page st) v (f_model st) (f_required st) (f_validity st) (f_last st) (f_composing st) (f_placeholder st)
        (f_shown st) (f_seen st) (f_thrown st).
Definition set_model (v : hval) (st : field) : field :=
  Field (f_heap st) (f_page st) (f_view st) v (f_required st) (f_validity st) (f_last st) (f_composing st) (f_placeholder st)
        (f_shown st) (f_seen st) (f_thrown st).
Definition set_required (b : bool) (st : field) : field :=
  Field (f_heap st) (f_page st) (f_view st) (f_model st) b (f_validity st) (f_last st) (f_composing st) (f_placeholder st)
        (f_shown st) (f_seen st) (f_thrown st).
Definition set_last (n : nat) (st : field) : field :=
  Field (f_heap st) (f_page st) (f_view st) (f_model st) (f_required st) (f_validity st) n (f_composing st) (f_placeholder st)
        (f_shown st) (f_seen st) (f_thrown st).
Definition set_composing (b : bool) (st : field) : field :=
  Field (f_heap st) (f_page st) (f_view st) (f_model st) (f_required st) (f_validity st) (f_last st) b (f_placeholder st)
        (f_shown st) (f_seen st) (f_thrown st).
Definition set_placeholder (s : jstr) (st : field) : field :=
  Field (f_heap st) (f_page st) (f_view st) (f_model st) (f_required st) (f_validity st) (f_last st) (f_composing st) s
        (f_shown st) (f_seen st) (f_thrown st).
Definition set_shown (v : hval) (st : field) : field :=
  Field (f_heap st) (f_page st) (f_view st) (f_model st) (f_required st) (f_validity st) (f_last st) (f_composing st) (f_placeholder st)
        v (f_seen st) (f_thrown st).
Definition set_seen (v : hval) (st : field) : field :=
  Field (f_heap st) (f_page st) (f_view st) (f_model st) (f_required st) (f_validity st) (f_last st) (f_composing st) (f_placeholder st)
        (f_shown st) (Some v) (f_thrown st).
Definition report (e : js_error) (st : field) : field :=
  Field (f_heap st) (f_page st) (f_view st) (f_model st) (f_required st) (f_validity st) (f_last st) (f_composing st) (f_placeholder st)
        (f_shown st) (f_seen st) (f_thrown st ++ [e]).

Definition on_heap {A} (m : run A) : handler field A := fun st => let '(r, h) := m (f_heap st) in (r, set_fheap h st).
Definition on_page (f : page -> page) : handler field unit := hmodify (fun st => set_fpage (f (f_page st)) st).
(** [try { m } catch (e) { $exceptionHandler(e) }]. *)
Definition reporting (m : handler field unit) : handler field unit := fun st =>
  match m st with (Ok tt, st) => (Ok tt, st) | (Throw e, st) => (Ok tt, report e st) end.

(** ** What a control is made of *)

(** The regular expression of [ng-pattern]: whether it begins with a caret, the rest of it, its flag [g]. *)
Record pattern : Type := Pattern { pt_start : bool; pt_re : regexp; pt_global : bool }.

Inductive pipe : Type :=
| PRequired
| PPattern (re : pattern)
| PMinlength (n : num)
| PMaxlength (n : num)
| PUrl
| PEmail
| PNumberParse                                       (** the parser of [numberInputType] *)
| PNative (validatorName : jstr) (badFlags : option (list jstr)) (ignoreFlags : option (list jstr))
| PNumberText                                        (** its formatters *)
| PNumberCheck
| PMin (attr : jstr)
| PMax (attr : jstr)
| PCheckboxParse (trueValue falseValue : hval)
| PCheckboxFormat (trueValue : hval)
| PListParse (separator : jstr)
| PListFormat
| PFunction (f : hval).                              (** a function that a directive of the page has added *)

(** [$isEmpty]: of the controller, of a checkbox, of [ngList]. *)
Inductive emptiness : Type := EDefault | ECheckbox (trueValue : hval) | EList.
Inductive renderer : Type := RText | RRadio (value : hval) | RCheckbox | RNone.

Record ngmodel : Type := NgModel {
  m_id : nat;                       (** the node of the page *)
  m_scope : hval;
  m_expr : expr;                    (** [ng-model] *)
  m_parsers : list pipe;
  m_formatters : list pipe;
  m_listeners : list expr;          (** [$viewChangeListeners], those of [ng-change] *)
  m_empty : emptiness;
  m_render : renderer;
  m_native : bool                   (** [$$hasNativeValidators] *)
}.

Definition push_parser (p : pipe) (m : ngmodel) : ngmodel :=
  NgModel (m_id m) (m_scope m) (m_expr m) (m_parsers m ++ [p]) (m_formatters m) (m_listeners m) (m_empty m) (m_render m) (m_native m).
Definition unshift_parser (p : pipe) (m : ngmodel) : ngmodel :=
  NgModel (m_id m) (m_scope m) (m_expr m) (p :: m_parsers m) (m_formatters m) (m_listeners m) (m_empty m) (m_render m) (m_native m).
Definition push_formatter (p : pipe) (m : ngmodel) : ngmodel :=
  NgModel (m_id m) (m_scope m) (m_expr m) (m_parsers m) (m_formatters m ++ [p]) (m_listeners m) (m_empty m) (m_render m) (m_native m).
Definition push_listener (e : expr) (m : ngmodel) : ngmodel :=
  NgModel (m_id m) (m_scope m) (m_expr m) (m_parsers m) (m_formatters m) (m_listeners m ++ [e]) (m_empty m) (m_render m) (m_native m).
Definition set_emptiness (e : emptiness) (m : ngmodel) : ngmodel :=
  NgModel (m_id m) (m_scope m) (m_expr m) (m_parsers m) (m_formatters m) (m_listeners m) e (m_render m) (m_native m).
Definition set_renderer (r : renderer) (m : ngmodel) : ngmodel :=
  NgModel (m_id m) (m_scope m) (m_expr m) (m_parsers m) (m_formatters m) (m_listeners m) (m_empty m) r (m_native m).
Definition set_native (m : ngmodel) : ngmodel :=
  NgModel (m_id m) (m_scope m) (m_expr m) (m_parsers m) (m_formatters m) (m_listeners m) (m_empty m) (m_render m) true.
Definition push_both (p : pipe) (m : ngmodel) : ngmodel := push_formatter p (push_parser p m).

(** The constructor: an expression that cannot be assigned is refused. *)
Definition new_ngmodel (id : nat) (scope : hval) (e : expr) : result js_error ngmodel :=
  if can_assign e then Ok (NgModel id scope e [] [] [] EDefault RNone false) else Throw (JsMinErr (js "ngModel:nonassign")).
(** A control as its directives leave it: [required] makes [attr.required] true. *)
Definition initial (h : heap) (p : page) (required : bool) (validity : option (list jstr)) (placeholder : jstr) : field :=
  Field h p (HNum NaN) (HNum NaN) required validity 0 false placeholder HUndef None [].

(** ** Regular expressions of the source *)

Definition digits : regexp := rplus (RChar is_digit).
Definition NUMBER_REGEXP : regexp :=
  rseq [spaces; ropt (RChar (among (js "-+")));
        RAlt digits (RSeq (rstar (RChar is_digit)) (RSeq (rlit (chr ".")) (rstar (RChar is_digit)))); spaces; REnd].
Definition URL_REGEXP : regexp :=
  rseq [ralt [rtext (js "ftp"); rtext (js "http"); rtext (js "https")]; rtext (js "://");
        ropt (rseq [rplus (RChar is_word); ropt (rlit (chr ":")); rstar (RChar is_word); rlit (chr "@")]);
        rplus (RChar (fun c => negb (is_space c))); ropt (RSeq (rlit (chr ":")) digits);
        ropt (RAlt (rlit (chr "/")) (RSeq (rlit (chr "/")) (RChar (fun c => is_word c || among (js "#!:.?+=&%@!-/") c)))); REnd].
Definition email_char (c : N) : bool := is_letter c || is_digit c || among (js "!#$%&'*+/=?^_`{|}~.-") c.
Definition host_char (c : N) : bool := is_letter c || is_digit c || (c =? chr "-")%N.
Definition EMAIL_REGEXP : regexp :=
  rseq [rplus (RChar email_char); rlit (chr "@"); rplus (RChar host_char);
        rstar (RSeq (rlit (chr ".")) (rplus (RChar host_char))); REnd].

(** [regexp.test(s)]: with the flag [g] it goes on from [lastIndex]. *)
Definition find_at (re : pattern) (i : nat) (s : jstr) : option nat :=
  if pt_start re then
    if Nat.eqb i 0 then match match_at (pt_re re) s with Some (u, _, _) => Some (length u) | None => None end else None
  else match find_match (pt_re re) (drop i s) with Some (before, u, _, _) => Some (i + length before + length u) | None => None end.
Definition regexp_test (re : pattern) (last : nat) (s : jstr) : bool * nat :=
  if pt_global re then
    if Nat.ltb (length s) last then (false, 0)
    else match find_at re last s with Some i => (true, i) | None => (false, 0) end
  else (match find_at re 0 s with Some _ => true | None => false end, last).

(** [parseInt(s, 10)], [parseFloat(s)]: the longest prefix that is a number. *)
Definition parse_int10 (s : jstr) : num :=
  let '(neg, t) := signed (skip_space s) in
  match (span is_digit t).1 with
  | [] => NaN
  | ds => to_double (inject_Z (if neg then - Z.of_N (dec_val ds) else Z.of_N (dec_val ds)))%Z
  end.
Definition is_float (s : jstr) : bool :=
  negb (existsb (among (js "xXoObB")) s) && match s with [] => false | _ => match num_of_str s with NaN => false | _ => true end end.
Fixpoint longest_float (n : nat) (s : jstr) : num :=
  if is_float (take n s) then num_of_str (take n s) else match n with 0 => NaN | S n => longest_float n s end.
Definition parse_float (s : jstr) : num := let t := skip_space s in longest_float (length t) t.

(** [s.split(separator)] for a text that is not empty. *)
Fixpoint split_text (fuel : nat) (separator s : jstr) : list jstr :=
  match fuel, indexOf s separator with
  | S fuel, Some i => take i s :: split_text fuel separator (drop (i + length separator) s)
  | _, _ => [s]
  end.

(** ** Parsers and formatters *)

Section Control.
Context (ho : host) (m : ngmodel).

Definition is_empty (v : hval) : bool :=
  match v with HUndef | HNull | HStr [] | HNum NaN => true | _ => false end.
Definition length_of (value : hval) : handler field hval := on_heap (get_prop ho value (js "length")).
Definition isEmpty (v : hval) : handler field bool :=
  match m_empty m with
  | EDefault => hret (is_empty v)
  | ECheckbox trueValue => hret (negb (strict_eq v trueValue))
  | EList =>
      if htruthy v then l <- length_of v ;; hret (negb (htruthy l)) else hret true
  end.

Definition setValidity (key : jstr) (isValid : bool) : handler field unit := on_page (control_set_validity (m_id m) key isValid).
(** [ctrl.$error[key]]. *)
Definition error_of (p : page) (key : jstr) : bool :=
  match p_nodes p !! m_id m with
  | Some n => match n_body n with BControl error => default false (ob_get error key) | BForm _ _ _ => false end
  | None => false
  end.

Definition validate (validatorName : jstr) (validity : bool) (value : hval) : handler field hval :=
  setValidity validatorName validity ;;; hret (if validity then value else HUndef).
(** [validate(ctrl, name, ctrl.$isEmpty(value) || test, value)]. *)
Definition validate_unless_empty (validatorName : jstr) (test : handler field bool) (value : hval) : handler field hval :=
  empty <- isEmpty value ;; validity <- (if empty then hret true else test) ;; validate validatorName validity value.

Definition test_pattern (re : pattern) (value : hval) : handler field bool :=
  s <- on_heap (to_text ho value) ;;
  last <- hgets f_last ;;
  let '(found, last) := regexp_test re last s in
  hmodify (set_last last) ;;; hret found.
Definition test_text (re : regexp) (value : hval) : handler field bool := s <- on_heap (to_text ho value) ;; hret (test_at re s).
(** [a >= b] and [a <= b]. *)
Definition at_least (a b : hval) : handler field bool := v <- on_heap (compare_prim ho (fun a b => prim_le b a) a b) ;; hret (htruthy v).
Definition at_most (a b : hval) : handler field bool := v <- on_heap (compare_prim ho prim_le a b) ;; hret (htruthy v).

Definition testFlags (validity : list jstr) (flags : option (list jstr)) : bool :=
  match flags with Some flags => existsb (fun flag => bool_decide (flag ∈ validity)) flags | None => false end.

Definition isNumber (v : hval) : bool := match v with HNum _ => true | _ => false end.

(** [a.join(', ')]. *)
Fixpoint texts (l : list hval) : run (list jstr) :=
  match l with
  | [] => hret []
  | v :: l => s <- (if is_nullish v then hret [] else to_text ho v) ;; ss <- texts l ;; hret (s :: ss)
  end.

Definition run_pipe (p : pipe) (value : hval) : handler field hval :=
  match p with
  | PRequired =>
      required <- hgets f_required ;;
      empty <- (if required then isEmpty value else hret false) ;;
      if empty then setValidity (js "required") false ;;; hret HUndef else setValidity (js "required") true ;;; hret value
  | PPattern re => validate_unless_empty (js "pattern") (test_pattern re value) value
  | PMinlength n => validate_unless_empty (js "minlength") (l <- length_of value ;; at_least l (HNum n)) value
  | PMaxlength n => validate_unless_empty (js "maxlength") (l <- length_of value ;; at_most l (HNum n)) value
  | PUrl => validate_unless_empty (js "url") (test_text URL_REGEXP value) value
  | PEmail => validate_unless_empty (js "email") (test_text EMAIL_REGEXP value) value
  | PNumberParse =>
      empty <- isEmpty value ;;
      numeric <- (if empty then hret true else test_text NUMBER_REGEXP value) ;;
      if numeric then
        setValidity (js "number") true ;;;
        (if strict_eq value (HStr []) then hret HNull
         else if empty then hret value
         else s <- on_heap (to_text ho value) ;; hret (HNum (parse_float s)))
      else setValidity (js "number") false ;;; hret HUndef
  | PNative validatorName badFlags ignoreFlags =>
      st <- hgets (fun st => st) ;;
      match f_validity st with
      | Some validity =>
          if negb (error_of (f_page st) validatorName) && negb (testFlags validity ignoreFlags) && testFlags validity badFlags
          then setValidity validatorName false ;;; hret HUndef
          else hret value
      | None => hret value
      end
  | PNumberText => empty <- isEmpty value ;; if empty then hret (HStr []) else on_heap (js_add ho (HStr []) value)
  | PNumberCheck => validate_unless_empty (js "number") (hret (isNumber value)) value
  | PMin attr => validate_unless_empty (js "min") (at_least value (HNum (parse_float attr))) value
  | PMax attr => validate_unless_empty (js "max") (at_most value (HNum (parse_float attr))) value
  | PCheckboxParse trueValue falseValue => hret (if htruthy value then trueValue else falseValue)
  | PCheckboxFormat trueValue => hret (HBool (strict_eq value trueValue))
  | PListParse separator =>
      if is_undefined value then hret HUndef
      else if htruthy value then
        match value with
        | HStr s =>
            on_heap (new_object (OArr (map (fun s => HStr (trim s)) (List.filter truthy (split_text (length s) separator s)))))
        | _ => hthrow JsTypeError
        end
      else on_heap (new_object (OArr []))
  | PListFormat =>
      h <- hgets f_heap ;;
      match value with
      | HRef r => match h_store h !! r with
                  | Some (OArr l) => on_heap (ss <- texts l ;; hret (HStr (join (js ", ") ss)))
                  | _ => hret HUndef
                  end
      | _ => hret HUndef
      end
  | PFunction f => on_heap (ho_call ho f HUndef [value])
  end.

(** [forEach(this.$parsers, ...)]; the formatters run from the last one. *)
Fixpoint run_pipes (ps : list pipe) (value : hval) : handler field hval :=
  match ps with
  | [] => hret value
  | p :: ps => value <- run_pipe p value ;; run_pipes ps value
  end.

(** ** The two directions *)

(** [ngModelGet($scope)] and [ngModelSet($scope, value)]. *)
Definition model_get : handler field hval := on_heap (eval ho (m_scope m) None (m_expr m)).
Definition model_set (value : hval) : handler field unit :=
  on_heap
    (match m_expr m with
     | EPath ident => setter ho (m_scope m) ident value ;;; hret tt
     | EField o field => o <- eval ho (m_scope m) None o ;; setter ho o field value ;;; hret tt
     | EIndex o i =>
         key <- eval ho (m_scope m) None i ;; o <- eval ho (m_scope m) None o ;; safe <- ensureSafeObject ho o ;;
         k <- to_text ho key ;; set_prop ho safe k value
     | _ => hthrow JsTypeError
     end).

Fixpoint run_listeners (es : list expr) : handler field unit :=
  match es with
  | [] => hret tt
  | e :: es => reporting (on_heap (eval ho (m_scope m) None e ;;; hret tt)) ;;; run_listeners es
  end.

(** The controller keeps the value that the parsers have made. *)
Definition commit (value : hval) : handler field unit :=
  model <- hgets f_model ;;
  if strict_eq model value then hret tt
  else hmodify (set_model value) ;;; model_set value ;;; run_listeners (m_listeners m).

Definition setViewValue (value : hval) : handler field unit :=
  hmodify (set_view value) ;;;
  on_page (control_set_dirty (m_id m)) ;;;
  value <- run_pipes (m_parsers m) value ;;
  commit value.

Definition render : handler field unit :=
  view <- hgets f_view ;;
  match m_render m with
  | RText => empty <- isEmpty view ;; hmodify (set_shown (if empty then HStr [] else view))
  | RRadio value => same <- on_heap (loose_eq ho value view) ;; hmodify (set_shown (HBool same))
  | RCheckbox => hmodify (set_shown (HBool (htruthy view)))
  | RNone => hret tt
  end.

Definition ngModelWatch : handler field hval :=
  value <- model_get ;;
  model <- hgets f_model ;;
  if strict_eq model value then hret value
  else
    hmodify (set_model value) ;;;
    value <- run_pipes (rev (m_formatters m)) value ;;
    view <- hgets f_view ;;
    (if strict_eq view value then hret tt else hmodify (set_view value) ;;; render) ;;;
    hret value.

(** ** The digest, as far as the watch of the control goes *)

(** One round: whether the watch was dirty; what it throws is reported. *)
Definition watch_round : handler field bool := fun st =>
  match ngModelWatch st with
  | (Ok value, st) =>
      match f_seen st with
      | Some last => if strict_eq value last || is_NaN value && is_NaN last then (Ok false, st) else (Ok true, set_seen value st)
      | None => (Ok true, set_seen value st)
      end
  | (Throw e, st) => (Ok false, report e st)
  end.
Fixpoint digest (ttl : nat) : handler field unit :=
  dirty <- watch_round ;;
  if dirty then match ttl with 0 => hthrow (JsMinErr (js "$rootScope:infdig")) | S ttl => digest ttl end else hret tt.
Definition apply_control (f : handler field unit) : handler field unit := reporting f ;;; digest 10.

(** ** Events of the element *)

(** What the element shows when an event comes: its text, whether the event is [input], its placeholder. *)
Record text_event : Type := TextEvent { te_text : jstr; te_input : bool; te_placeholder : jstr }.

(** [toBoolean(attr.ngTrim || 'T')]. *)
Definition trims (ngTrim : jstr) : bool :=
  negb (existsb (jeqb (lowercase (if truthy ngTrim then ngTrim else js "T"))) (words "f 0 false no n []")).

Definition text_listener (msie in_phase : bool) (ngTrim : jstr) (ev : text_event) : handler field unit := fun st =>
  if f_composing st then (Ok tt, st)
  else if msie && te_input ev && negb (jeqb (te_placeholder ev) (f_placeholder st))
  then (Ok tt, set_placeholder (te_placeholder ev) st)
  else
    let value := HStr (if trims ngTrim then trim (te_text ev) else te_text ev) in
    let revalidate := match f_validity st with Some _ => m_native m | None => false end in
    if negb (strict_eq (f_view st) value) || strict_eq value (HStr []) && revalidate
    then (if in_phase then setViewValue value else apply_control (setViewValue value)) st
    else (Ok tt, st).
Definition compositionstart : handler field unit := hmodify (set_composing true).
Definition compositionend (ngTrim text placeholder : jstr) : handler field unit :=
  hmodify (set_composing false) ;;; text_listener false false ngTrim (TextEvent text false placeholder).

Definition radio_click (value : hval) (checked : bool) : handler field unit :=
  if checked then apply_control (setViewValue value) else hret tt.
Definition checkbox_click (checked : bool) : handler field unit := apply_control (setViewValue (HBool checked)).

(** [attr.$observe('required', ...)]. *)
Definition observe_required (required : bool) : handler field unit :=
  hmodify (set_required required) ;;; view <- hgets f_view ;; run_pipe PRequired view ;;; hret tt.
End Control.

(** Where the browser has no event [input], a key defers the listener, which has no event then. *)
Record typing : Type := Typing { ty_field : field; ty_timeout : bool }.
Definition ignored_key (key : Z) : bool := ((key =? 91) || (15 <? key) && (key <? 19) || (37 <=? key) && (key <=? 40))%Z.
Definition deferListener (ty : typing) : typing := Typing (ty_field ty) true.
Definition keydown (key : Z) (ty : typing) : typing := if ignored_key key then ty else deferListener ty.
(** The deferred function: [timeout] is reset when the listener has returned. *)
Definition run_deferred (listener : handler field unit) (ty : typing) : result js_error unit * typing :=
  let '(r, st) := listener (ty_field ty) in (r, Typing st match r with Ok _ => false | Throw _ => true end).

(** ** The directives *)

Record text_attrs : Type := TextAttrs {
  ta_pattern : option pattern; ta_minlength : jstr; ta_maxlength : jstr; ta_min : jstr; ta_max : jstr
}.

Definition when_some {A} (o : option A) (f : A -> ngmodel -> ngmodel) (m : ngmodel) : ngmodel :=
  match o with Some a => f a m | None => m end.
Definition when_text (s : jstr) (f : ngmodel -> ngmodel) (m : ngmodel) : ngmodel := if truthy s then f m else m.

Definition textInputType (a : text_attrs) (m : ngmodel) : ngmodel :=
  let m := set_renderer RText m in
  let m := when_some (ta_pattern a) (fun re => push_both (PPattern re)) m in
  let m := when_text (ta_minlength a) (push_both (PMinlength (parse_int10 (ta_minlength a)))) m in
  when_text (ta_maxlength a) (push_both (PMaxlength (parse_int10 (ta_maxlength a)))) m.

Definition numberBadFlags : list jstr := [js "badInput"].
Definition addNativeHtml5Validators (validatorName : jstr) (badFlags ignoreFlags : option (list jstr)) (validity : option (list jstr)) (m : ngmodel) : ngmodel :=
  match validity with Some _ => push_parser (PNative validatorName badFlags ignoreFlags) (set_native m) | None => m end.
Definition numberInputType (a : text_attrs) (validity : option (list jstr)) (m : ngmodel) : ngmodel :=
  let m := push_parser PNumberParse (textInputType a m) in
  let m := addNativeHtml5Validators (js "number") (Some numberBadFlags) None validity m in
  let m := push_formatter PNumberText m in
  let m := when_text (ta_min a) (push_both (PMin (ta_min a))) m in
  let m := when_text (ta_max a) (push_both (PMax (ta_max a))) m in
  push_formatter PNumberCheck m.
Definition urlInputType (a : text_attrs) (m : ngmodel) : ngmodel := push_both PUrl (textInputType a m).
Definition emailInputType (a : text_attrs) (m : ngmodel) : ngmodel := push_both PEmail (textInputType a m).
Definition radioInputType (value : hval) (m : ngmodel) : ngmodel := set_renderer (RRadio value) m.
Definition checkbox_value (attr : option jstr) (d : bool) : hval := match attr with Some s => HStr s | None => HBool d end.
Definition checkboxInputType (ngTrueValue ngFalseValue : option jstr) (m : ngmodel) : ngmodel :=
  let trueValue := checkbox_value ngTrueValue true in
  let falseValue := checkbox_value ngFalseValue false in
  push_parser (PCheckboxParse trueValue falseValue)
    (push_formatter (PCheckboxFormat trueValue) (set_emptiness (ECheckbox trueValue) (set_renderer RCheckbox m))).
Definition requiredDirective (m : ngmodel) : ngmodel := unshift_parser PRequired (push_formatter PRequired m).
Definition ngListDirective (ngList : jstr) (m : ngmodel) : ngmodel :=
  set_emptiness EList (push_formatter PListFormat (push_parser (PListParse (if truthy ngList then ngList else js ",")) m)).
Definition ngChangeDirective (ngChange : expr) (m : ngmodel) : ngmodel := push_listener ngChange m.
