(* ===== verification/NgModelFacts.v ===== *)
(** * What a control makes of a text, in both directions *)

From Stdlib Require Import QArith.
From S2P Require Import Prelude JsString JsObject JsNumber UriCodec Json Form FormFacts FormRun Heap Lexer Parser Eval EvalFacts EvalAssign Regex NgModel.
#[local] Open Scope nat_scope.
Local Open Scope handler_scope.

(** ** The validators of a text *)

Definition key_of (p : pipe) : jstr :=
  match p with
  | PRequired => js "required" | PPattern _ => js "pattern" | PMinlength _ => js "minlength" | PMaxlength _ => js "maxlength"
  | PUrl => js "url" | PEmail => js "email" | _ => []
  end.
(** The validators that a text has; the regular expression of [ng-pattern] without the flag [g]. *)
Definition validator (p : pipe) : bool :=
  match p with
  | PRequired | PMinlength _ | PMaxlength _ | PUrl | PEmail => true
  | PPattern re => negb (pt_global re)
  | _ => false
  end.
Definition is_required (p : pipe) : bool := match p with PRequired => true | _ => false end.

Definition test_of (p : pipe) (s : jstr) : bool :=
  match p with
  | PPattern re => (regexp_test re 0 s).1
  | PMinlength n => num_le n (fin_of_Z (Z.of_nat (length s)))
  | PMaxlength n => num_le (fin_of_Z (Z.of_nat (length s))) n
  | PUrl => test_at URL_REGEXP s
  | PEmail => test_at EMAIL_REGEXP s
  | _ => true
  end.
(** Whether a validator accepts a text, or the [undefined] that another has left. *)
Definition holds (required : bool) (p : pipe) (v : hval) : bool :=
  match p, v with
  | PRequired, _ => negb (required && is_empty v)
  | _, HStr (c :: s) => test_of p (c :: s)
  | _, _ => true
  end.
Definition is_text (v : hval) : bool := match v with HUndef | HStr _ => true | _ => false end.

Section Facts.
Context (ho : host) (m : ngmodel).

Lemma fpage_eta st : set_fpage (f_page st) st = st. Proof. by destruct st. Qed.
Lemma heap_eta st : set_fheap (f_heap st) st = st. Proof. by destruct st. Qed.
Lemma last_eta st : set_last (f_last st) st = st. Proof. by destruct st. Qed.

Lemma on_heap_ok {A} (x : run A) st a : x (f_heap st) = (Ok a, f_heap st) -> on_heap x st = (Ok a, st).
Proof. intros E. unfold on_heap. by rewrite E, heap_eta. Qed.

Lemma validate_if key (test : handler field bool) b v st :
  m_empty m = EDefault -> is_text v = true -> (is_empty v = false -> test st = (Ok b, st)) -> (is_empty v = true -> b = true) ->
  validate_unless_empty ho m key test v st =
  (Ok (if b then v else HUndef), set_fpage (control_set_validity (m_id m) key b (f_page st)) st).
Proof.
  intros He Hv Ht Hb. unfold validate_unless_empty, isEmpty. rewrite He. rewrite hbind_hret.
  destruct (is_empty v); [by rewrite hbind_hret, Hb|]. by rewrite (hbind_ok _ _ _ _ _ (Ht eq_refl)).
Qed.

(** What the code of a validator does. *)
Lemma run_validator p v st :
  m_empty m = EDefault -> validator p = true -> is_text v = true ->
  let b := holds (f_required st) p v in
  run_pipe ho m p v st = (Ok (if b then v else HUndef), set_fpage (control_set_validity (m_id m) (key_of p) b (f_page st)) st).
Proof.
  intros He Hp Hv b.
  assert (Hs : is_empty v = false -> exists c s, v = HStr (c :: s)) by (destruct v as [| | | |[|c s]| |]; try done; by exists c, s).
  destruct p as [|re|n|n| | | | | | | | | | | | |]; try done; cbn [run_pipe key_of].
  - unfold hgets, isEmpty. rewrite He. subst b. cbn [holds]. unfold hbind at 1. destruct (f_required st); cbn; [|done]. by destruct (is_empty v).
  - apply validate_if; [done|done| |]; subst b.
    + intros (c & s & ->)%Hs. unfold test_pattern. cbn [holds test_of].
      rewrite (hbind_ok _ _ st (c :: s) st) by (by apply on_heap_ok). unfold hgets. unfold hbind at 1.
      cbn in Hp. apply negb_true_iff in Hp. unfold regexp_test. rewrite Hp. cbn [fst snd]. unfold hbind, hmodify. by rewrite last_eta.
    + destruct v as [| | | |[|c s]| |]; done.
  - apply validate_if; [done|done| |]; subst b.
    + intros (c & s & ->)%Hs. cbn [holds test_of]. rewrite (hbind_ok _ _ st (HNum (fin_of_Z (Z.of_nat (length (c :: s))))) st) by (by apply on_heap_ok).
      unfold at_least. by rewrite (hbind_ok _ _ st (HBool (num_le n (fin_of_Z (Z.of_nat (length (c :: s)))))) st) by (by apply on_heap_ok).
    + destruct v as [| | | |[|c s]| |]; done.
  - apply validate_if; [done|done| |]; subst b.
    + intros (c & s & ->)%Hs. cbn [holds test_of]. rewrite (hbind_ok _ _ st (HNum (fin_of_Z (Z.of_nat (length (c :: s))))) st) by (by apply on_heap_ok).
      unfold at_most. by rewrite (hbind_ok _ _ st (HBool (num_le (fin_of_Z (Z.of_nat (length (c :: s)))) n)) st) by (by apply on_heap_ok).
    + destruct v as [| | | |[|c s]| |]; done.
  - apply validate_if; [done|done| |]; subst b.
    + intros (c & s & ->)%Hs. cbn [holds test_of]. unfold test_text. by rewrite (hbind_ok _ _ st (c :: s) st) by (by apply on_heap_ok).
    + destruct v as [| | | |[|c s]| |]; done.
  - apply validate_if; [done|done| |]; subst b.
    + intros (c & s & ->)%Hs. cbn [holds test_of]. unfold test_text. by rewrite (hbind_ok _ _ st (c :: s) st) by (by apply on_heap_ok).
    + destruct v as [| | | |[|c s]| |]; done.
Qed.

(** ** The validators in a row *)

Fixpoint checks (required : bool) (ps : list pipe) (v : hval) (p : page) : hval * page :=
  match ps with
  | [] => (v, p)
  | q :: ps => let b := holds required q v in
               checks required ps (if b then v else HUndef) (control_set_validity (m_id m) (key_of q) b p)
  end.
(** The value they leave, and what each has said. *)
Fixpoint outcome (required : bool) (ps : list pipe) (v : hval) : hval :=
  match ps with [] => v | q :: ps => outcome required ps (if holds required q v then v else HUndef) end.
Fixpoint verdicts (required : bool) (ps : list pipe) (v : hval) : jsobj bool :=
  match ps with
  | [] => []
  | q :: ps => let b := holds required q v in (key_of q, b) :: verdicts required ps (if b then v else HUndef)
  end.
(** The first validator that rejects the value. *)
Definition rejecting (required : bool) (ps : list pipe) (v : hval) : option pipe := List.find (fun q => negb (holds required q v)) ps.

Lemma checks_value required ps v p : (checks required ps v p).1 = outcome required ps v.
Proof. revert v p. induction ps as [|q ps IH]; intros v p; [done|]. cbn. apply IH. Qed.

Lemma text_or_undefined (b : bool) v : is_text v = true -> is_text (if b then v else HUndef) = true.
Proof. by destruct b. Qed.
Lemma outcome_text required ps v : is_text v = true -> is_text (outcome required ps v) = true.
Proof. revert v. induction ps as [|q ps IH]; intros v Hv; [done|]. cbn. by apply IH, text_or_undefined. Qed.

Lemma run_validators ps v st :
  m_empty m = EDefault -> forallb validator ps = true -> is_text v = true ->
  run_pipes ho m ps v st =
  (Ok (outcome (f_required st) ps v), set_fpage (checks (f_required st) ps v (f_page st)).2 st).
Proof.
  intros He. revert v st. induction ps as [|q ps IH]; intros v st Hps Hv; [cbn [checks snd]; by rewrite fpage_eta|].
  cbn in Hps. apply andb_true_iff in Hps as [Hq Hps]. cbn [run_pipes].
  rewrite (hbind_ok _ _ _ _ _ (run_validator q v st He Hq Hv)). rewrite IH; [done|done|by apply text_or_undefined].
Qed.

Lemma key_not_nil q : validator q = true -> key_of q <> [].
Proof. by destruct q. Qed.

(** What they leave in the node of the control. *)
Lemma checks_flags required ps v p n :
  inv whole p -> p_nodes p !! m_id m = Some n -> n_live n = true -> is_form n = false ->
  forallb validator ps = true -> NoDup (key_of <$> ps) ->
  inv whole (checks required ps v p).2 /\
  exists n', p_nodes (checks required ps v p).2 !! m_id m = Some n' /\ same_place n n' /\ n_pristine n' = n_pristine n /\
    forall t, in_error n' t = match ob_get (verdicts required ps v) t with Some b => negb b | None => in_error n t end.
Proof.
  revert v p n. induction ps as [|q ps IH]; intros v p n I En Hl Hf Hps Hd.
  { split; [done|]. exists n. split_and!; [done|apply same_place_refl|done|done]. }
  cbn in Hps. apply andb_true_iff in Hps as [Hq Hps]. cbn in Hd. apply NoDup_cons in Hd as [Hn Hd]. cbn [checks verdicts ob_get].
  destruct (control_set_validity_ok (m_id m) (key_of q) (holds required q v) p n I En (key_not_nil _ Hq) Hl Hf)
    as (I1 & n1 & E1 & Hs1 & Hp1 & He1).
  destruct (IH (if holds required q v then v else HUndef) _ n1 I1 E1) as (I2 & n2 & E2 & Hs2 & Hp2 & He2); [| |done|done|].
  { destruct Hs1 as (_ & _ & -> & _). done. }
  { destruct Hs1 as (_ & _ & _ & -> & _). done. }
  split; [done|]. exists n2. split_and!; [done|by eapply same_place_trans|congruence|]. intros t. rewrite He2, He1.
  destruct (jeqb t (key_of q)) eqn:Et; [|done]. apply jeqb_true in Et as ->.
  destruct (ob_get (verdicts _ _ _) (key_of q)) as [b|] eqn:Eb; [|done]. destruct Hn. apply ob_get_entry in Eb.
  assert (Hk : forall v, (verdicts required ps v).*1 = key_of <$> ps).
  { clear. induction ps as [|q ps IH]; intros v; [done|]. cbn. by rewrite IH. }
  rewrite <- (Hk (if holds required q v then v else HUndef)). by apply (list_elem_of_fmap_2 fst) in Eb.
Qed.

Lemma holds_undefined required q : is_required q = false -> holds required q HUndef = true.
Proof. by destruct q. Qed.
Lemma rejecting_undefined required ps : forallb (fun q => negb (is_required q)) ps = true -> rejecting required ps HUndef = None.
Proof.
  induction ps as [|q ps IH]; [done|]. cbn. intros [Hq H]%andb_true_iff. apply negb_true_iff in Hq.
  rewrite holds_undefined by done. by apply IH.
Qed.

Lemma outcome_undefined required ps : outcome required ps HUndef = HUndef.
Proof. induction ps as [|q ps IH]; [done|]. cbn. by destruct (holds required q HUndef). Qed.
Lemma outcome_spec required ps v : outcome required ps v = match rejecting required ps v with Some _ => HUndef | None => v end.
Proof.
  induction ps as [|q ps IH]; [done|]. cbn. destruct (holds required q v); cbn; [exact IH|apply outcome_undefined].
Qed.

(** Only the first that rejects the value speaks. *)
Lemma verdicts_first required ps v t :
  forallb (fun q => negb (is_required q)) (tail ps) = true -> NoDup (key_of <$> ps) ->
  ob_get (verdicts required ps v) t =
  if bool_decide (t ∈ key_of <$> ps)
  then Some (negb match rejecting required ps v with Some q => jeqb t (key_of q) | None => false end)
  else None.
Proof.
  revert v. induction ps as [|q ps IH]; intros v Ht Hd; [done|]. cbn [tail] in Ht. cbn in Hd. apply NoDup_cons in Hd as [Hn Hd].
  assert (Ht' : forallb (fun q => negb (is_required q)) (tail ps) = true).
  { destruct ps as [|q' ps]; [done|]. cbn in Ht. by apply andb_true_iff in Ht as [_ Ht]. }
  cbn [verdicts ob_get]. unfold rejecting. cbn [List.find]. fold (rejecting required ps v).
  destruct (jeqb t (key_of q)) eqn:Et.
  - apply jeqb_true in Et as ->. rewrite bool_decide_true by (cbn; left). f_equal. destruct (holds required q v); cbn [negb]; [|by rewrite jeqb_refl].
    destruct (rejecting required ps v) as [q'|] eqn:Er; [|done]. destruct (jeqb (key_of q) (key_of q')) eqn:E; [|done].
    apply jeqb_true in E. destruct Hn. rewrite E. apply list_elem_of_fmap_2. apply List.find_some in Er as [Hin _]. by apply list_elem_of_In.
  - apply jeqb_false in Et. assert (Hb : bool_decide (t ∈ key_of <$> q :: ps) = bool_decide (t ∈ key_of <$> ps)).
    { apply bool_decide_ext. cbn. rewrite elem_of_cons. tauto. }
    rewrite Hb. destruct (holds required q v); cbn [negb]; [by apply IH|].
    rewrite IH by done. rewrite rejecting_undefined by done. by rewrite (proj2 (jeqb_false t _) Et).
Qed.

(** ** From the view to the model *)

Record text_control (path : jstr) : Prop := {
  tc_empty : m_empty m = EDefault;
  tc_expr : m_expr m = EPath path;
  tc_listeners : m_listeners m = [];
  tc_parsers : forallb validator (m_parsers m) = true;
  tc_tail : forallb (fun q => negb (is_required q)) (tail (m_parsers m)) = true;
  tc_keys : NoDup (key_of <$> m_parsers m)
}.
(** The path of [ng-model] leads through plain objects, and the control knows the value of the model. *)
Record model_ready (path : jstr) (st : field) : Prop := {
  mr_keys : NoDup (split (chr ".") path);
  mr_own : own_names ho (split (chr ".") path);
  mr_protos : protos_ok (f_heap st);
  mr_plain : plain_path ho (f_heap st) (m_scope m) (split (chr ".") path) = true;
  mr_scope : is_nullish (m_scope m) = false;
  mr_model : getterFn ho path (m_scope m) None (f_heap st) = (Ok (f_model st), f_heap st)
}.

Lemma strict_text x w : is_text w = true -> strict_eq x w = true -> x = w.
Proof. destruct w, x; try done. intros _ H. cbn in H. by apply jeqb_true in H as ->. Qed.
Lemma strict_text_refl w : is_text w = true -> strict_eq w w = true.
Proof. destruct w; try done. intros _. apply jeqb_refl. Qed.

Lemma model_get_path path st r :
  m_expr m = EPath path -> getterFn ho path (m_scope m) None (f_heap st) = (r, f_heap st) -> model_get ho m st = (r, st).
Proof. intros He E. unfold model_get, on_heap. rewrite He. cbn [eval]. by rewrite E, heap_eta. Qed.

Lemma commit_run w st :
  commit ho m w st = if strict_eq (f_model st) w then (Ok tt, st)
                     else (model_set ho m w ;;; run_listeners ho m (m_listeners m)) (set_model w st).
Proof. unfold commit, hgets, hbind at 1. by destruct (strict_eq (f_model st) w). Qed.

(** What the controller makes of the value of the parsers. *)
Lemma commit_text path w st :
  m_expr m = EPath path -> m_listeners m = [] -> model_ready path st -> is_text w = true ->
  exists h, (commit ho m w st).2 = set_fheap h (set_model w st) /\ unchanged_but ho (split (chr ".") path) (f_heap st) h /\
  match (commit ho m w st).1 with
  | Ok _ => getterFn ho path (m_scope m) None h = (Ok w, h)
  | Throw e => e ∈ security_errors
  end.
Proof.
  intros He Hls [Hd Ho Wp Hp Hs Hg] Hw. rewrite commit_run, Hls. cbn [run_listeners]. destruct (strict_eq (f_model st) w) eqn:Eq.
  - apply strict_text in Eq; [|done]. subst w. exists (f_heap st). cbn. split; [by destruct st|]. split; [intros v k _ Hk; by split|exact Hg].
  - pose proof (split_not_nil (chr ".") path) as Hne. unfold model_set, on_heap. rewrite He. unfold setter, hbind. cbn [f_heap set_model].
    destruct (setter_keys ho (m_scope m) (split (chr ".") path) w (f_heap st)) as [[y|e] h'] eqn:Es; cbn.
    + destruct (setter_assigned ho _ _ _ _ _ _ Hne Hd Ho Wp Hp Es) as (-> & _ & U & G). exists h'. split; [done|]. split; [done|].
      by rewrite getterFn_evaled, evaled_rest.
    + destruct (setter_fails ho (split (chr ".") path) (m_scope m) w (f_heap st) e h') as [Hse U]; [done..|]. by exists h'.
Qed.

(** What typing leaves: the view, the flags of the validators, the model. *)
Lemma typed_outcome path s st n :
  text_control path -> model_ready path st ->
  inv whole (f_page st) -> p_nodes (f_page st) !! m_id m = Some n -> n_live n = true -> is_form n = false ->
  let first := rejecting (f_required st) (m_parsers m) (HStr s) in
  let w := match first with Some _ => HUndef | None => HStr s end in
  let '(r, st') := setViewValue ho m (HStr s) st in
  f_view st' = HStr s /\ f_model st' = w /\ unchanged_but ho (split (chr ".") path) (f_heap st) (f_heap st') /\
  inv whole (f_page st') /\
  (exists n', p_nodes (f_page st') !! m_id m = Some n' /\ same_place n n' /\ n_pristine n' = false /\
     forall t, in_error n' t = if bool_decide (t ∈ key_of <$> m_parsers m)
                               then match first with Some q => jeqb t (key_of q) | None => false end
                               else in_error n t) /\
  match r with
  | Ok _ => model_get ho m st' = (Ok w, st') /\ ngModelWatch ho m st' = (Ok w, st')
  | Throw e => e ∈ security_errors
  end.
Proof.
  intros [Tem Tex Tls Tps Ttl Tk] R I En Hl Hf first w. unfold setViewValue, on_page, hmodify. unfold hbind at 1 2.
  set (p1 := control_set_dirty (m_id m) (f_page (set_view (HStr s) st))).
  destruct (control_set_dirty_ok (m_id m) (f_page st) n En) as (n1 & E1 & Hs1 & Hp1 & He1).
  assert (I1 : inv whole p1) by by apply control_set_dirty_inv.
  set (st1 := set_fpage p1 (set_view (HStr s) st)).
  destruct (checks_flags (f_required st) (m_parsers m) (HStr s) p1 n1 I1 E1) as (I2 & n2 & E2 & Hs2 & Hp2 & He2); [| |done|done|].
  { destruct Hs1 as (_ & _ & -> & _). done. }
  { destruct Hs1 as (_ & _ & _ & -> & _). done. }
  rewrite (hbind_ok _ _ _ _ _ (run_validators (m_parsers m) (HStr s) st1 Tem Tps eq_refl)).
  change (f_required st1) with (f_required st). rewrite outcome_spec. fold first. change (f_page st1) with p1.
  set (st2 := set_fpage _ st1).
  assert (Hw : is_text w = true) by (subst w; by destruct first).
  assert (R2 : model_ready path st2) by (destruct R; by split).
  destruct (commit_text path w st2 Tex Tls R2 Hw) as (h & Ec & U & Er). fold w.
  destruct (commit ho m w st2) as [r st'] eqn:Ecm. cbn in Ec, Er. subst st'. split_and!; [done|done|exact U|exact I2| |].
  - exists n2. split; [done|]. split; [by eapply same_place_trans|]. split; [congruence|]. intros t.
    rewrite He2, verdicts_first by done. fold first. rewrite He1. case_bool_decide; [by rewrite negb_involutive|done].
  - destruct r as [[]|e]; [|exact Er]. assert (Eg : model_get ho m (set_fheap h (set_model w st2)) = (Ok w, set_fheap h (set_model w st2)))
      by (by apply (model_get_path path)).
    split; [exact Eg|]. unfold ngModelWatch. rewrite (hbind_ok _ _ _ _ _ Eg). unfold hgets, hbind at 1. cbn [f_model set_fheap set_model].
    by rewrite strict_text_refl.
Qed.

(** ** From the model to the view *)

Definition text_formatters (path : jstr) : Prop :=
  m_empty m = EDefault /\ m_expr m = EPath path /\ m_render m = RText /\ forallb validator (rev (m_formatters m)) = true.

(** What the watch leaves when the model is a text. *)
Definition shown_state (x : hval) (st : field) : field :=
  let fs := rev (m_formatters m) in
  let v := outcome (f_required st) fs x in
  let st := set_fpage (checks (f_required st) fs x (f_page st)).2 (set_model x st) in
  if strict_eq (f_view st) v then st else set_shown (if is_empty v then HStr [] else v) (set_view v st).

Lemma watch_text path x st :
  text_formatters path -> is_text x = true -> getterFn ho path (m_scope m) None (f_heap st) = (Ok x, f_heap st) ->
  ngModelWatch ho m st =
  if strict_eq (f_model st) x then (Ok x, st)
  else (Ok (outcome (f_required st) (rev (m_formatters m)) x), shown_state x st).
Proof.
  intros (Tem & Tex & Tr & Tf) Hx Hg. unfold ngModelWatch. rewrite (hbind_ok _ _ _ _ _ (model_get_path path st _ Tex Hg)).
  unfold hgets, hbind at 1. destruct (strict_eq (f_model st) x); [done|]. unfold hmodify, hbind at 1.
  rewrite (hbind_ok _ _ _ _ _ (run_validators (rev (m_formatters m)) x (set_model x st) Tem Tf Hx)).
  unfold shown_state. cbn [f_required set_model f_page]. set (st1 := set_fpage _ (set_model x st)). unfold hbind at 1.
  destruct (strict_eq (f_view st1) _) eqn:Ev; [done|]. unfold render, isEmpty. rewrite Tr, Tem. done.
Qed.

Lemma shown_heap x st : f_heap (shown_state x st) = f_heap st /\ f_model (shown_state x st) = x.
Proof. unfold shown_state. by destruct (strict_eq _ _). Qed.

(** A round that finds the model as the control knows it leaves the control alone. *)
Lemma round_known path x st :
  text_formatters path -> is_text x = true -> getterFn ho path (m_scope m) None (f_heap st) = (Ok x, f_heap st) -> f_model st = x ->
  watch_round ho m st = (Ok false, st) \/ watch_round ho m st = (Ok true, set_seen x st).
Proof.
  intros T Hx Hg Hm. unfold watch_round. rewrite (watch_text path x st T Hx Hg), Hm, strict_text_refl by done.
  destruct (f_seen st) as [l|]; [|by right]. destruct (_ || _); [by left|by right].
Qed.

Lemma digest_known path x st ttl :
  text_formatters path -> is_text x = true -> getterFn ho path (m_scope m) None (f_heap st) = (Ok x, f_heap st) -> f_model st = x ->
  exists l, digest ho m (S ttl) st = (Ok tt, match l with Some v => set_seen v st | None => st end).
Proof.
  intros T Hx Hg Hm. cbn [digest]. destruct (round_known path x st T Hx Hg Hm) as [E|E]; rewrite (hbind_ok _ _ _ _ _ E); [by exists None|].
  exists (Some x). assert (E2 : watch_round ho m (set_seen x st) = (Ok false, set_seen x st)).
  { unfold watch_round. rewrite (watch_text path x (set_seen x st) T Hx Hg). cbn [f_model set_seen f_seen].
    rewrite Hm, strict_text_refl by done. cbn. by rewrite strict_text_refl. }
  destruct ttl; cbn [digest]; by rewrite (hbind_ok _ _ _ _ _ E2).
Qed.
End Facts.

(** ** The controls of the text types *)

Inductive text_kind : Type := TText | TUrl | TEmail.
Definition text_type (k : text_kind) (a : text_attrs) (m : ngmodel) : ngmodel :=
  match k with TText => textInputType a m | TUrl => urlInputType a m | TEmail => emailInputType a m end.
(** An input with its directives, linked in the order of the compiler: the last name first. *)
Definition text_field (k : text_kind) (a : text_attrs) (required : bool) (id : nat) (scope : hval) (path : jstr) : ngmodel :=
  let m := NgModel id scope (EPath path) [] [] [] EDefault RNone false in
  text_type k a (if required then requiredDirective m else m).
Definition plain_pattern (a : text_attrs) : bool := match ta_pattern a with Some re => negb (pt_global re) | None => true end.

Lemma text_field_made k a required id scope path :
  exists m, new_ngmodel id scope (EPath path) = Ok m /\
    text_field k a required id scope path = text_type k a (if required then requiredDirective m else m).
Proof. by eexists. Qed.

Ltac split_attrs a :=
  destruct a as [[re|] mn mx mi ma]; unfold text_field, text_type, urlInputType, emailInputType, textInputType, when_text; cbn [ta_pattern ta_minlength ta_maxlength];
  destruct (truthy mn), (truthy mx).

(** What is the same of all of them. *)
Lemma text_field_fixed k a required id scope path :
  let m := text_field k a required id scope path in
  m_id m = id /\ m_scope m = scope /\ m_expr m = EPath path /\ m_listeners m = [] /\ m_empty m = EDefault /\ m_render m = RText.
Proof. split_attrs a; by destruct k, required. Qed.

Lemma text_field_control k a required id scope path :
  plain_pattern a = true -> text_control (text_field k a required id scope path) path.
Proof.
  intros Hp. destruct (text_field_fixed k a required id scope path) as (_ & _ & H1 & H2 & H3 & _).
  split; [done|done|done|clear H1 H2 H3..].
  - split_attrs a; destruct k, required; cbn in *; by rewrite ?Hp.
  - split_attrs a; by destruct k, required.
  - apply (bool_decide_unpack _). split_attrs a; destruct k, required; vm_compute; exact I.
Qed.
Lemma text_field_formatters k a required id scope path :
  plain_pattern a = true -> text_formatters (text_field k a required id scope path) path.
Proof.
  intros Hp. destruct (text_field_fixed k a required id scope path) as (_ & _ & H1 & _ & H3 & H4).
  split_and!; [done..|clear H1 H3 H4]. split_attrs a; destruct k, required; cbn in *; by rewrite ?Hp.
Qed.

(** The tokens of the validators of a control. *)
Definition tokens (m : ngmodel) : list jstr := key_of <$> m_parsers m.

(** C34: what a text typed in an input does.  The view is the text; the control is dirty.  Where the validators of
    the input ([required], [ng-pattern], [ng-minlength], [ng-maxlength], of a URL, of an address) all accept it, the
    model is the text and none of their tokens is in [$error]; otherwise the model is [undefined], and the token of
    the first validator that rejects the text is there and no other of theirs.  The control is valid when it has no
    other error.  The path of [ng-model] then reads the model back, every other property of the objects that were
    there reads as before, and the watch of the control finds nothing to do: the digest does not write over what was
    typed.  An assignment that does not go through throws an error of the safety checks. *)
Theorem typed_text ho k a required id scope path s st n :
  let m := text_field k a required id scope path in
  plain_pattern a = true -> model_ready ho m path st ->
  inv whole (f_page st) -> p_nodes (f_page st) !! id = Some n -> n_live n = true -> is_form n = false ->
  let first := rejecting (f_required st) (m_parsers m) (HStr s) in
  let w := match first with Some _ => HUndef | None => HStr s end in
  let '(r, st') := setViewValue ho m (HStr s) st in
  f_view st' = HStr s /\ f_model st' = w /\ unchanged_but ho (split (chr ".") path) (f_heap st) (f_heap st') /\
  inv whole (f_page st') /\
  (exists n', p_nodes (f_page st') !! id = Some n' /\ n_pristine n' = false /\
     (forall t, t ∈ tokens m -> in_error n' t = match first with Some q => jeqb t (key_of q) | None => false end) /\
     (forall t, t ∉ tokens m -> in_error n' t = in_error n t) /\
     ((forall t, t ∉ tokens m -> in_error n t = false) -> n_valid n' = true <-> first = None)) /\
  match r with
  | Ok _ => model_get ho m st' = (Ok w, st') /\ ngModelWatch ho m st' = (Ok w, st')
  | Throw e => e ∈ security_errors
  end.
Proof.
  intros m Hp R I En Hl Hf first w. destruct (text_field_fixed k a required id scope path) as (Eid & _). fold m in Eid.
  assert (T : text_control m path) by by apply text_field_control.
  pose proof (typed_outcome ho m path s st n T R I) as H. rewrite Eid in H. specialize (H En Hl Hf). cbv zeta in H. fold first w in H.
  destruct (setViewValue ho m (HStr s) st) as [r st']. destruct H as (H1 & H2 & H3 & I' & (n' & E' & _ & Hd & He) & H4).
  split_and!; [done..| |done]. exists n'. split_and!; [done|done| | |].
  - intros t Ht. by rewrite He, bool_decide_true.
  - intros t Ht. by rewrite He, bool_decide_false.
  - intros Hoth. rewrite (ok_valid _ (inv_node _ _ I' _ _ E')), Z.eqb_eq, (count_zero n' (inv_node _ _ I' _ _ E')). split.
    + intros Hno. destruct first as [q|] eqn:Ef; [|done]. exfalso. specialize (Hno (key_of q)). rewrite He in Hno.
      rewrite bool_decide_true in Hno; [by rewrite jeqb_refl in Hno|]. apply list_elem_of_fmap_2, list_elem_of_In.
      unfold first in Ef. by apply List.find_some in Ef as [Hin _].
    + intros -> t. rewrite He. case_bool_decide as Ht; [done|]. by apply Hoth.
Qed.

(** A change of the model reaches the view.  When the model reads as a text (or [undefined]), the digest ends within the
    rounds it has and throws nothing.  If the control knew the value, its view stays; if not, the view is the text
    when the validators accept it and [undefined] otherwise, the element shows the text, or nothing, unless the view
    was that already, and a text that is rejected still is the model. *)
Theorem text_shown ho k a required id scope path x st :
  let m := text_field k a required id scope path in
  plain_pattern a = true -> is_text x = true -> getterFn ho path scope None (f_heap st) = (Ok x, f_heap st) ->
  exists st', digest ho m 10 st = (Ok tt, st') /\ f_heap st' = f_heap st /\ f_thrown st' = f_thrown st /\ f_model st' = x /\
    if strict_eq (f_model st) x then f_view st' = f_view st /\ f_shown st' = f_shown st /\ f_page st' = f_page st
    else
      let v := match rejecting (f_required st) (rev (m_formatters m)) x with Some _ => HUndef | None => x end in
      f_view st' = v /\ (f_view st = v \/ f_shown st' = if is_empty v then HStr [] else v).
Proof.
  intros m Hp Hx Hg. pose proof (text_field_formatters k a required id scope path Hp) as T. fold m in T.
  destruct (text_field_fixed k a required id scope path) as (_ & Es & _). fold m in Es. rewrite <- Es in Hg.
  destruct (strict_eq (f_model st) x) eqn:Eq.
  - pose proof (strict_text _ _ Hx Eq) as Em. destruct (digest_known ho m path x st 9 T Hx Hg Em) as [l E]. eexists. split; [exact E|]. by destruct l.
  - set (v := match rejecting _ _ _ with Some _ => _ | None => _ end).
    assert (Hv : is_text v = true) by (subst v; by destruct (rejecting _ _ _)).
    pose proof (watch_text ho m path x st T Hx Hg) as W. rewrite Eq, outcome_spec in W. fold v in W.
    assert (S : let st1 := shown_state m x st in f_heap st1 = f_heap st /\ f_thrown st1 = f_thrown st /\ f_model st1 = x /\ f_view st1 = v /\
      (f_view st = v \/ f_shown st1 = if is_empty v then HStr [] else v)).
    { unfold shown_state. rewrite outcome_spec. fold v. cbn [f_view set_fpage set_model].
      destruct (strict_eq (f_view st) v) eqn:Ev; [apply strict_text in Ev; [|done]; split_and!; [done..|by left]|split_and!; [done..|by right]]. }
    set (st1 := shown_state m x st) in *. destruct S as (Sh & St & Sm & Sv & Ss).
    assert (R : exists l, watch_round ho m st = (Ok match l with Some _ => true | None => false end, match l with Some u => set_seen u st1 | None => st1 end)).
    { unfold watch_round. rewrite W. destruct (f_seen st1) as [u|]; [|by exists (Some v)]. destruct (_ || _); [by exists None|by exists (Some v)]. }
    destruct R as [l R]. change (digest ho m 10) with (dirty <- watch_round ho m ;;
      if dirty then match 10 with 0 => hthrow (JsMinErr (js "$rootScope:infdig")) | S ttl => digest ho m ttl end else hret tt).
    rewrite (hbind_ok _ _ _ _ _ R). destruct l as [u|]; [|by exists st1].
    destruct (digest_known ho m path x (set_seen u st1) 8 T Hx) as [l E]; [cbn [f_heap set_seen]; by rewrite Sh|done|].
    eexists. split; [exact E|]. by destruct l.
Qed.

(** ** Check boxes *)

(** A check box without [required] shows the model it has set. *)
Lemma checkbox_roundtrip ho ngTrue ngFalse id scope e b st :
  let m := checkboxInputType ngTrue ngFalse (NgModel id scope e [] [] [] EDefault RNone false) in
  checkbox_value ngTrue true <> checkbox_value ngFalse false ->
  (v <- run_pipes ho m (m_parsers m) (HBool b) ;; run_pipes ho m (rev (m_formatters m)) v) st = (Ok (HBool b), st).
Proof.
  intros m Hne. cbn. unfold hbind, hret. repeat f_equal. destruct b, ngTrue as [t|], ngFalse as [f|]; cbn in *; try done; rewrite ?jeqb_refl; try done.
  apply jeqb_false. congruence.
Qed.

(** With [ng-true-value] and [required], the validator sees what the box says and not the value of it: whether the box
    is checked or not, it is in error and the model is the value of a box that is not checked. *)
Lemma checkbox_required ho t ngFalse id scope e b st :
  let m := checkboxInputType (Some t) ngFalse (requiredDirective (NgModel id scope e [] [] [] EDefault RNone false)) in
  f_required st = true ->
  run_pipes ho m (m_parsers m) (HBool b) st =
  (Ok (checkbox_value ngFalse false), set_fpage (control_set_validity id (js "required") false (f_page st)) st).
Proof. intros m Hr. cbn. unfold hgets, hbind at 1 2. by rewrite Hr. Qed.

(** ** Lists *)

Lemma index_of_word c w s i : c ∉ w -> index_from i [c] (w ++ c :: s) = Some (i + length w).
Proof.
  revert i. induction w as [|d w IH]; intros i H; cbn [index_from starts_with app length]; [rewrite N.eqb_refl; cbn; f_equal; lia|].
  apply not_elem_of_cons in H as [Hd H]. rewrite (proj2 (N.eqb_neq c d)) by done. cbn [andb]. rewrite IH by done. f_equal. lia.
Qed.
Lemma index_of_none c w i : c ∉ w -> index_from i [c] w = None.
Proof.
  revert i. induction w as [|d w IH]; intros i H; cbn [index_from starts_with]; [done|].
  apply not_elem_of_cons in H as [Hd H]. rewrite (proj2 (N.eqb_neq c d)) by done. by apply IH.
Qed.
Lemma join_head sep u w ws : u ++ join sep (w :: ws) = join sep ((u ++ w) :: ws).
Proof. destruct ws; [done|]. by rewrite !join_cons2, app_assoc. Qed.

Lemma split_words c sp w ws fuel :
  c ∉ sp -> c ∉ w -> Forall (fun w => c ∉ w) ws -> length ws <= fuel ->
  split_text fuel [c] (join (c :: sp) (w :: ws)) = w :: map (app sp) ws.
Proof.
  intros Hsp. revert w fuel. induction ws as [|w' ws IH]; intros w fuel Hw Hws Hf.
  - cbn [join map]. assert (E : indexOf w [c] = None) by by apply index_of_none. by destruct fuel; cbn [split_text]; rewrite ?E.
  - apply Forall_cons in Hws as [Hw' Hws]. cbn in Hf. destruct fuel as [|fuel]; [lia|]. rewrite join_cons2.
    assert (E : indexOf (w ++ (c :: sp) ++ join (c :: sp) (w' :: ws)) [c] = Some (length w)) by by apply index_of_word.
    cbn [split_text]. rewrite E, take_app_length. f_equal. cbn [length]. rewrite <- (drop_drop _ 1), drop_app_length by done.
    cbn [app drop]. rewrite join_head. cbn [map]. apply IH; [|done|lia]. rewrite elem_of_app. tauto.
Qed.

Lemma join_length sep ws : sep <> [] -> length ws <= S (length (join sep ws)).
Proof.
  intros Hs. induction ws as [|w [|w' ws] IH]; [cbn; lia..|]. rewrite join_cons2, !length_app. cbn [length] in *.
  destruct sep; [done|]. cbn [length]. lia.
Qed.

Lemma texts_strings ho ws h : texts ho (HStr <$> ws) h = (Ok ws, h).
Proof.
  induction ws as [|w ws IH]; [done|]. cbn [fmap list_fmap texts is_nullish].
  rewrite (hbind_ok _ _ h w h) by done. by rewrite (hbind_ok _ _ _ _ _ IH).
Qed.

(** The words that a list of [ng-list] can hold: not empty, without a comma, without spaces around. *)
Definition list_word (w : jstr) : Prop := w <> [] /\ chr "," ∉ w /\ trim w = w.

Lemma parse_words ws :
  ws <> [] -> Forall list_word ws ->
  map (fun s => HStr (trim s)) (List.filter truthy (split_text (length (join (js ", ") ws)) (js ",") (join (js ", ") ws))) = HStr <$> ws.
Proof.
  intros Hne Hws. destruct ws as [|w ws]; [done|]. apply Forall_cons in Hws as [(H1 & H2 & H3) Hws].
  pose proof (join_length (js ", ") (w :: ws) ltac:(done)) as Hl. cbn [length] in Hl.
  rewrite (split_words (chr ",") [32%N]); [|apply (bool_decide_unpack _); vm_compute; exact I|done| |lia].
  2: { eapply Forall_impl; [exact Hws|]. by intros ? (_ & ? & _). }
  destruct w as [|c w]; [done|]. cbn [List.filter truthy map fmap list_fmap]. rewrite H3. f_equal. clear -Hws.
  induction Hws as [|w ws (H1 & H2 & H3) _ IH]; [done|]. cbn [map app List.filter truthy fmap list_fmap]. f_equal; [|exact IH].
  f_equal. exact H3.
Qed.

(** What [ng-list] shows of a list of such words parses to a new list of the same words. *)
Lemma ngList_roundtrip ho m r ws st :
  h_store (f_heap st) !! r = Some (OArr (HStr <$> ws)) -> Forall list_word ws ->
  (s <- run_pipe ho m PListFormat (HRef r) ;; run_pipe ho m (PListParse (js ",")) s) st =
  (Ok (HRef (h_next (f_heap st))), set_fheap (heap_alloc (OArr (HStr <$> ws)) (f_heap st)).2 st).
Proof.
  intros E Hws. rewrite (hbind_ok _ _ st (HStr (join (js ", ") ws)) st).
  - cbn [run_pipe is_undefined]. destruct ws as [|w ws]; [done|]. assert (Ht : htruthy (HStr (join (js ", ") (w :: ws))) = true).
    { cbn [htruthy]. apply Forall_cons in Hws as [(H1 & _) _]. destruct w as [|c w]; [done|]. by destruct ws. }
    rewrite Ht. unfold on_heap, new_object. by rewrite parse_words by done.
  - cbn [run_pipe]. unfold hgets, hbind at 1. rewrite E. apply on_heap_ok. by rewrite (hbind_ok _ _ _ _ _ (texts_strings ho ws (f_heap st))).
Qed.

(** ** Samples *)

(** A required input of a name of three units at least, in a form; the model is the name of [sample_heap]. *)
Definition name_field : ngmodel := text_field TText (TextAttrs None (js "3") [] [] []) true 1 (HRef 1) (js "name").
Definition name_page : page := default empty_page (Form.run [OpForm (js "f") None; OpControl (js "who") (Some 0)] empty_page).
Definition name_state : field := set_model (HStr (js "ann")) (initial sample_heap name_page true None []).
Definition error_tokens (st : field) : list jstr :=
  List.filter (error_of name_field (f_page st)) (words "required pattern minlength maxlength number").
Definition number_field : ngmodel := numberInputType (TextAttrs None [] [] [] []) None (NgModel 1 (HRef 1) (EPath (js "name")) [] [] [] EDefault RNone false).

Lemma name_ready : model_ready bare_host name_field (js "name") name_state.
Proof.
  split; [apply (bool_decide_unpack _); vm_compute; exact I|by intros k r _|apply sample_protos|reflexivity..].
Qed.

Lemma name_page_inv : inv whole name_page.
Proof. apply (run_inv [OpForm (js "f") None; OpControl (js "who") (Some 0)] empty_page); [apply empty_inv|vm_compute; reflexivity]. Qed.

Lemma typed_text_witness :
  exists st', setViewValue bare_host name_field (HStr (js "bo")) name_state = (Ok tt, st') /\
    f_model st' = HUndef /\ ngModelWatch bare_host name_field st' = (Ok HUndef, st') /\
    exists n', p_nodes (f_page st') !! 1 = Some n' /\ in_error n' (js "minlength") = true /\ in_error n' (js "required") = false /\
      n_valid n' = false.
Proof.
  destruct (p_nodes name_page !! 1) as [n|] eqn:En; [|exfalso; revert En; vm_compute; discriminate].
  assert (Hn : n_live n = true /\ is_form n = false /\ n_body n = BControl [])
    by (revert En; vm_compute; intros [= <-]; by split_and!).
  destruct Hn as (Hl & Hf & Hb).
  pose proof (typed_text bare_host TText (TextAttrs None (js "3") [] [] []) true 1 (HRef 1) (js "name") (js "bo") name_state n
    eq_refl name_ready name_page_inv En Hl Hf) as H.
  cbv zeta in H. fold name_field in H. destruct (setViewValue bare_host name_field (HStr (js "bo")) name_state) as [[[]|e] st'] eqn:E;
    [|exfalso; revert E; vm_compute; discriminate].
  assert (Er : rejecting (f_required name_state) (m_parsers name_field) (HStr (js "bo")) = Some (PMinlength (parse_int10 (js "3"))))
    by (vm_compute; reflexivity).
  rewrite Er in H. destruct H as (_ & Hm & _ & _ & (n' & E' & _ & Ht & _ & Hv) & _ & Hw).
  exists st'. split_and!; [done|done|exact Hw|]. exists n'. split_and!; [done| | |].
  - rewrite Ht; [reflexivity|]. apply (bool_decide_unpack _). vm_compute. exact I.
  - rewrite Ht; [reflexivity|]. apply (bool_decide_unpack _). vm_compute. exact I.
  - destruct (n_valid n') eqn:En'; [|done]. exfalso.
    assert (X := proj1 (Hv ltac:(intros t _; unfold in_error; by rewrite Hb)) eq_refl). discriminate X.
Defined.

(** A name of the model that is too short is told to be missing as well: the formatter of [required] runs last, on
    what the others have left. *)
Example short_name_shown :
  let st := (digest bare_host name_field 10 (initial (heap_set 1 (OObj None (ob_set [] (js "name") (HStr (js "bo")))) sample_heap) name_page true None [])).2 in
  error_tokens st = [js "required"; js "minlength"] /\ f_view st = HUndef /\ f_shown st = HStr [].
Proof. vm_compute. auto. Qed.

(** A lone dot is a number for the expression of the source: the model is NaN, and the digest empties the element. *)
Example dot_erased :
  let st := (text_listener bare_host number_field false false [] (TextEvent (js ".") true []) name_state).2 in
  f_model st = HNum NaN /\ f_view st = HStr [] /\ f_shown st = HStr [].
Proof. vm_compute. auto. Qed.

Example number_typed :
  let st := (text_listener bare_host number_field false false [] (TextEvent (js " -12.50 ") true []) name_state).2 in
  f_model st = HNum (to_double (-25 # 2)) /\ f_view st = HStr (js "-12.50") /\ f_thrown st = [].
Proof. vm_compute. auto. Qed.

(** With the flag [g] the expression of [ng-pattern] goes on where the last text left it. *)
Example global_pattern :
  let m := text_field TText (TextAttrs (Some (Pattern false (rlit (chr "a")) true)) [] [] [] []) false 1 (HRef 1) (js "name") in
  let type text st := (setViewValue bare_host m (HStr text) st).2 in
  f_model (type (js "a") name_state) = HStr (js "a") /\
  f_model (type (js "a") (type (js "a") name_state)) = HUndef.
Proof. vm_compute. auto. Qed.

(** A list with a separator of its own is shown with commas, and read back as one word. *)
Example separator_lost :
  let m := ngListDirective (js ";") (NgModel 1 (HRef 1) (EPath (js "name")) [] [] [] EDefault RNone false) in
  let st := (setViewValue bare_host m (HStr (js "a;b")) name_state).2 in
  let shown := (run_pipes bare_host m (rev (m_formatters m)) (f_model st) st).1 in
  shown = Ok (HStr (js "a, b")) /\
  match (setViewValue bare_host m (HStr (js "a, b")) st).2 with
  | st' => match f_model st' with HRef r => h_store (f_heap st') !! r = Some (OArr [HStr (js "a, b")]) | _ => False end
  end.
Proof. vm_compute. auto. Qed.
