(* ===== verification/Collection.v ===== *)
(** * Watched collections (angular.js, Scope, $watchCollection)

    What the watch reads of the heap at each digest is a parameter.  No watched object has a
    property ['hasOwnProperty'], none is a DOM node, and a number named ['length'] is an integer.  The copies that the watch keeps are not shared, so they are values here. *)

From Stdlib Require Import QArith Qround.
From S2P Require Import Prelude JsString JsObject JsNumber Json Heap Eval.
#[local] Open Scope nat_scope.

(** ** Collections of the heap *)

Section View.
Context (ho : host).

Definition prop_of (h : heap) (v : hval) (k : jstr) : hval := match read ho h v k with Ok x => x | Throw _ => HUndef end.
Definition has_index (h : heap) (r : nat) (n : nat) : bool :=
  match chain_find (h_next h) h r (dec_of_N (N.of_nat n)) with Some _ => true | None => false end.

(** [isArrayLike], of an object: its items. *)
Definition array_items (h : heap) (r : nat) : option (list hval) :=
  match h_store h !! r with
  | Some (OArr l) => Some l
  | _ =>
      if isWindow h r then None
      else match prop_of h (HRef r) (js "length") with
           | HNum (Fin q) =>
               let n := Z.to_nat (Qfloor q) in
               if Qeq_bool q 0 then Some []
               else if Qle_bool 0 q && Qeq_bool (inject_Z (Qfloor q)) q && has_index h r (n - 1)
                    then Some (map (fun i => prop_of h (HRef r) (dec_of_N (N.of_nat i))) (seq 0 n))
                    else None
           | _ => None
           end
  end.

(** The own properties that [for in] visits. *)
Definition own_props (h : heap) (r : nat) : jsobj hval :=
  match h_store h !! r with
  | Some (OObj _ o) => omap (fun k => (fun v => (k, v)) <$> ob_get o k) (enum_names o)
  | _ => []
  end.
End View.

(** What the watch sees of a value, and the copies it keeps. *)
Inductive seen : Type :=
| SeenValue (v : hval)                  (** not an object *)
| SeenArray (items : list hval)
| SeenObject (props : jsobj hval).

Definition view (ho : host) (h : heap) (v : hval) : seen :=
  match v with
  | HRef r =>
      if isObject h v then
        match array_items ho h r with Some items => SeenArray items | None => SeenObject (own_props h r) end
      else SeenValue v
  | _ => SeenValue v
  end.

(** ** [$watchCollectionWatch] *)

Record collection : Type := Collection {
  w_old : seen;                 (** [oldValue]: a value, [internalArray] or [internalObject] *)
  w_length : nat;               (** [oldLength] *)
  w_changes : nat               (** [changeDetected] *)
}.
Definition first_collection : collection := Collection (SeenValue HUndef) 0 0.

Definition item_same (a b : hval) : bool := (is_NaN a && is_NaN b) || strict_eq a b.

(** The loop on the items, [oldValue] having the length of [newValue]. *)
Fixpoint copy_items (old new : list hval) (changes : nat) : list hval * nat :=
  match old, new with
  | a :: old, b :: new =>
      let '(l, n) := copy_items old new (if item_same a b then changes else S changes) in
      ((if item_same a b then a else b) :: l, n)
  | _, _ => ([], changes)
  end.

Definition watch_array (old : list hval) (oldLength : nat) (new : list hval) (changes : nat) : collection :=
  let newLength := length new in
  let '(old, changes) := if Nat.eqb oldLength newLength then (old, changes) else (set_length newLength old, S changes) in
  let '(old, changes) := copy_items old new changes in
  Collection (SeenArray old) newLength changes.

(** The loop on the properties. *)
Fixpoint copy_props (old : jsobj hval) (oldLength : nat) (new : list (jstr * hval)) (changes : nat) : jsobj hval * nat * nat :=
  match new with
  | [] => (old, oldLength, changes)
  | (k, v) :: new =>
      match ob_get old k with
      | Some w =>
          if strict_eq w v then copy_props old oldLength new changes
          else copy_props (ob_set old k v) oldLength new (S changes)
      | None => copy_props (ob_set old k v) (S oldLength) new (S changes)
      end
  end.
(** The loop that deletes the properties that are no more. *)
Fixpoint drop_props (names : list jstr) (old new : jsobj hval) (oldLength : nat) : jsobj hval * nat :=
  match names with
  | [] => (old, oldLength)
  | k :: names =>
      if ob_has old k && negb (ob_has new k) then drop_props names (ob_delete old k) new (oldLength - 1)
      else drop_props names old new oldLength
  end.

Definition watch_object (old : jsobj hval) (oldLength : nat) (new : jsobj hval) (changes : nat) : collection :=
  let newLength := length new in
  let '(old, oldLength, changes) := copy_props old oldLength new changes in
  if Nat.ltb newLength oldLength then
    let '(old, oldLength) := drop_props (enum_names old) old new oldLength in
    Collection (SeenObject old) oldLength (S changes)
  else Collection (SeenObject old) oldLength changes.

Definition watchCollectionWatch (new : seen) (st : collection) : collection :=
  match new with
  | SeenValue v =>
      match w_old st with
      | SeenValue w => if strict_eq w v then st else Collection new (w_length st) (S (w_changes st))
      | _ => Collection new (w_length st) (S (w_changes st))
      end
  | SeenArray items =>
      match w_old st with
      | SeenArray old => watch_array old (w_length st) items (w_changes st)
      | _ => watch_array [] 0 items (S (w_changes st))
      end
  | SeenObject props =>
      match w_old st with
      | SeenObject old => watch_object old (w_length st) props (w_changes st)
      | _ => watch_object [] 0 props (S (w_changes st))
      end
  end.

(** ** [$watchCollectionAction], and the digests *)

(** A call of the listener: the new collection, as it is seen, and the copy of the old one. *)
Definition call_args : Type := (seen * seen)%type.

Record watched : Type := Watched {
  c_watch : collection;
  c_last : option nat;          (** [watch.last] *)
  c_init : bool;                (** [initRun] *)
  c_very_old : seen;            (** [veryOldValue] *)
  c_calls : list call_args
}.
Definition watchCollection : watched := Watched first_collection None true (SeenValue HUndef) [].

Definition watchCollectionAction (new : seen) (st : watched) : watched :=
  let old := if c_init st then new else c_very_old st in
  Watched (c_watch st) (c_last st) false new (c_calls st ++ [(new, old)]).

(** One check of the watch: the listener is called when the count is not that of the last check. *)
Definition check_collection (new : seen) (st : watched) : watched :=
  let w := watchCollectionWatch new (c_watch st) in
  let st' := Watched w (c_last st) (c_init st) (c_very_old st) (c_calls st) in
  if bool_decide (c_last st = Some (w_changes w)) then st'
  else watchCollectionAction new (Watched w (Some (w_changes w)) (c_init st) (c_very_old st) (c_calls st)).
Definition check_all (values : list seen) (st : watched) : watched := fold_left (fun st v => check_collection v st) values st.
