(* ===== verification/CollectionFacts.v ===== *)
(** * When the listener of a watched collection is called *)

From Stdlib Require Import QArith Qround.
From S2P Require Import Prelude JsString JsObject JsNumber Json Heap HeapEqual Eval Collection.
#[local] Open Scope nat_scope.

(** ** Equality of items *)

Lemma num_eqb_sym x y : num_eqb x y = num_eqb y x.
Proof.
  destruct x as [|a|p], y as [|b|q]; try done; cbn; [by destruct a, b|]. apply eq_true_iff_eq. rewrite !Qeq_bool_iff. by split; symmetry.
Qed.
Lemma num_eqb_trans x y z : num_eqb x y = true -> num_eqb x z = num_eqb y z.
Proof.
  destruct x as [|a|p], y as [|b|q]; try done; cbn; [by destruct a, b|]. intros H%Qeq_bool_iff. destruct z as [| |r]; try done.
  apply eq_true_iff_eq. rewrite !Qeq_bool_iff. by rewrite H.
Qed.
Lemma strict_eq_sym a b : strict_eq a b = strict_eq b a.
Proof.
  destruct a, b; try done; cbn; [by destruct b, b0|apply num_eqb_sym| | |apply Nat.eqb_sym];
    unfold jeqb; apply bool_decide_ext; by split.
Qed.
Lemma strict_eq_trans a b c : strict_eq a b = true -> strict_eq a c = strict_eq b c.
Proof.
  destruct a, b; try done; cbn; [by destruct b, b0|intros H; destruct c; try done; by apply num_eqb_trans| | |];
    [by intros ->%jeqb_true..|by intros ->%Nat.eqb_eq].
Qed.

Lemma item_same_refl a : item_same a a = true.
Proof. unfold item_same. destruct a as [| |b|[| |]|s|k|r]; cbn; try done; [by destruct b|by destruct neg| | | |];
  [by rewrite Qeq_bool_refl|apply jeqb_refl|apply jeqb_refl|apply Nat.eqb_refl]. Qed.
Lemma item_same_sym a b : item_same a b = item_same b a.
Proof. unfold item_same. by rewrite strict_eq_sym, (andb_comm (is_NaN a)). Qed.
Lemma item_same_trans a b c : item_same a b = true -> item_same a c = item_same b c.
Proof.
  unfold item_same. intros [[Ha Hb]%andb_true_iff|H]%orb_true_iff.
  - destruct a as [| |?|[| |]|?|?|?], b as [| |?|[| |]|?|?|?]; try done.
  - rewrite (strict_eq_trans _ _ _ H). f_equal. f_equal. destruct a as [| |?|[| |]|?|?|?], b as [| |?|[| |]|?|?|?]; done.
Qed.

(** ** Equality of collections *)

Fixpoint items_same (a b : list hval) : bool :=
  match a, b with
  | [], [] => true
  | x :: a, y :: b => item_same x y && items_same a b
  | _, _ => false
  end.
(** The same names, with equal values ([NaN] is not equal to itself). *)
Definition props_same (a b : jsobj hval) : bool :=
  Nat.eqb (length a) (length b) &&
  forallb (fun kv => match ob_get a kv.1 with Some w => strict_eq w kv.2 | None => false end) b.
Definition seen_same (a b : seen) : bool :=
  match a, b with
  | SeenValue v, SeenValue w => strict_eq v w
  | SeenArray l, SeenArray m => items_same l m
  | SeenObject o, SeenObject p => props_same o p
  | _, _ => false
  end.

Lemma items_same_refl a : items_same a a = true.
Proof. induction a as [|x a IH]; [done|]. cbn. by rewrite item_same_refl, IH. Qed.
Lemma items_same_trans a b c : items_same a b = true -> items_same a c = items_same b c.
Proof.
  revert b c. induction a as [|x a IH]; intros [|y b] c; try done. cbn. intros [H1 H2]%andb_true_iff. destruct c as [|z c]; [done|].
  by rewrite (item_same_trans _ _ _ H1), (IH _ _ H2).
Qed.
Lemma items_same_length a b : items_same a b = true -> length a = length b.
Proof. revert b. induction a as [|x a IH]; intros [|y b]; try done. cbn. intros [_ H]%andb_true_iff. by rewrite (IH b). Qed.

(** ** The loops *)

Lemma copy_items_spec old new n : length old = length new ->
  let '(l, m) := copy_items old new n in
  items_same l new = true /\ if items_same old new then l = old /\ m = n else n < m.
Proof.
  revert new n. induction old as [|a old IH]; intros [|b new] n; try done. cbn [copy_items items_same]. intros [= Hl].
  specialize (IH new (if item_same a b then n else S n) Hl). destruct (copy_items _ _ _) as [l m]. destruct IH as [H1 H2].
  destruct (item_same a b) eqn:E; cbn [andb items_same].
  - rewrite E. split; [done|]. destruct (items_same old new); [destruct H2 as [-> ->]; done|done].
  - rewrite item_same_refl. split; [done|]. destruct (items_same old new); lia.
Qed.

Lemma watch_array_spec old n items :
  let st := watch_array old (length old) items n in
  exists l, w_old st = SeenArray l /\ w_length st = length l /\ items_same l items = true /\
    if items_same old items then l = old /\ w_changes st = n else n < w_changes st.
Proof.
  unfold watch_array. destruct (Nat.eqb_spec (length old) (length items)) as [E|E].
  - pose proof (copy_items_spec old items n E) as H. destruct (copy_items old items n) as [l m]. destruct H as [H1 H2].
    exists l. cbn. split_and!; [done|symmetry; by apply items_same_length|done|done].
  - pose proof (copy_items_spec (set_length (length items) old) items (S n)) as H.
    destruct (copy_items _ items (S n)) as [l m]. destruct H as [H1 H2].
    { unfold set_length. rewrite length_app, length_take, repeat_length. lia. }
    exists l. cbn. split_and!; [done|symmetry; by apply items_same_length|done|].
    assert (En : items_same old items = false) by (destruct (items_same old items) eqn:Ei; [apply items_same_length in Ei; done|done]).
    rewrite En. destruct (items_same (set_length (length items) old) items); [destruct H2|]; lia.
Qed.

(** The value is copied, or equal to the one that is there. *)
Definition value_copied (w v : hval) : Prop := w = v \/ strict_eq w v = true.
Definition props_copied (o p : jsobj hval) : Prop :=
  ob_wf o /\ length o = length p /\
  forall k, match ob_get p k with Some v => exists w, ob_get o k = Some w /\ value_copied w v | None => ob_get o k = None end.

Lemma length_set (o : jsobj hval) k v : length (ob_set o k v) = if ob_has o k then length o else S (length o).
Proof.
  unfold ob_has. induction o as [|[k' w] o IH]; [done|]. cbn. destruct (jeqb k k'); [done|]. cbn. rewrite IH. by destruct (ob_get o k).
Qed.
Lemma length_delete (o : jsobj hval) k : ob_has o k = true -> length (ob_delete o k) = length o - 1.
Proof.
  unfold ob_has. induction o as [|[k' w] o IH]; [done|]. cbn. destruct (jeqb k k'); [intros _; lia|]. intros H. cbn. rewrite IH by done.
  destruct o; [done|cbn; lia].
Qed.
Definition all_equal (old : jsobj hval) (new : list (jstr * hval)) : bool :=
  forallb (fun kv => match ob_get old kv.1 with Some w => strict_eq w kv.2 | None => false end) new.

Lemma all_equal_set old k v new : k ∉ ob_names new -> all_equal (ob_set old k v) new = all_equal old new.
Proof.
  unfold all_equal. induction new as [|[k' w] new IH]; [done|]. cbn. intros [Hk Hn]%not_elem_of_cons.
  rewrite ob_get_set_ne by done. by rewrite IH.
Qed.

Lemma copy_props_spec new : forall old n, ob_wf old -> NoDup (ob_names new) ->
  let '(o, len, m) := copy_props old (length old) new n in
  ob_wf o /\ len = length o /\
  (forall k, match ob_get new k with Some v => exists w, ob_get o k = Some w /\ value_copied w v | None => ob_get o k = ob_get old k end) /\
  if all_equal old new then o = old /\ m = n else n < m.
Proof.
  induction new as [|[k v] new IH]; intros old n Hw Hn; [done|]. cbn [copy_props]. cbn in Hn. apply NoDup_cons in Hn as [Hk Hn].
  assert (Hset : forall n', n < n' ->
    let '(o, len, m) := copy_props (ob_set old k v) (length (ob_set old k v)) new n' in
    ob_wf o /\ len = length o /\
    (forall k', match ob_get ((k, v) :: new) k' with Some x => exists w, ob_get o k' = Some w /\ value_copied w x | None => ob_get o k' = ob_get old k' end) /\
    n < m).
  { intros n' Hlt. specialize (IH (ob_set old k v) n' (ob_wf_set _ _ _ Hw) Hn). destruct (copy_props _ _ _ _) as [[o len] m].
    destruct IH as (H1 & H2 & H3 & H4). split_and!; [done|done| |destruct (all_equal _ _); [destruct H4|]; lia].
    intros k'. specialize (H3 k'). cbn [ob_get]. destruct (jeqb k' k) eqn:E.
    - apply jeqb_true in E as ->. rewrite (proj1 (ob_get_None new k) Hk) in H3. rewrite ob_get_set_eq in H3. exists v. split; [done|by left].
    - apply jeqb_false in E. destruct (ob_get new k'); [done|]. by rewrite H3, ob_get_set_ne. }
  cbn [all_equal forallb fst snd]. destruct (ob_get old k) as [w|] eqn:Eg.
  - destruct (strict_eq w v) eqn:Ev.
    + specialize (IH old n Hw Hn). destruct (copy_props _ _ _ _) as [[o len] m]. destruct IH as (H1 & H2 & H3 & H4).
      split_and!; [done|done| |done]. intros k'. specialize (H3 k'). cbn [ob_get]. destruct (jeqb k' k) eqn:E; [|done].
      apply jeqb_true in E as ->. rewrite (proj1 (ob_get_None new k) Hk) in H3. rewrite H3. exists w. split; [done|by right].
    + specialize (Hset (S n) ltac:(lia)). rewrite length_set in Hset. unfold ob_has in Hset. rewrite Eg in Hset. cbn [andb].
      destruct (copy_props _ _ _ _) as [[o len] m]. by destruct Hset as (H1 & H2 & H3 & H4).
  - specialize (Hset (S n) ltac:(lia)). rewrite length_set in Hset. unfold ob_has in Hset. rewrite Eg in Hset. cbn [andb].
    destruct (copy_props _ _ _ _) as [[o len] m]. by destruct Hset as (H1 & H2 & H3 & H4).
Qed.

Lemma drop_props_spec names new : forall old, ob_wf old ->
  let '(o, len) := drop_props names old new (length old) in
  ob_wf o /\ len = length o /\ forall k, ob_get o k = if bool_decide (k ∈ names) && negb (ob_has new k) then None else ob_get old k.
Proof.
  induction names as [|k names IH]; intros old Hw; [done|]. cbn [drop_props]. destruct (ob_has old k && negb (ob_has new k)) eqn:E.
  - apply andb_true_iff in E as [E1 E2]. specialize (IH (ob_delete old k) (ob_wf_delete _ k Hw)). rewrite length_delete in IH by done.
    destruct (drop_props _ _ _ _) as [o len]. destruct IH as (H1 & H2 & H3). split_and!; [done|done|]. intros k'. rewrite H3.
    destruct (decide (k' = k)) as [->|Hne].
    + rewrite ob_get_delete_eq by done. rewrite (bool_decide_true (k ∈ k :: names)) by left. rewrite E2. by destruct (bool_decide _ && _).
    + rewrite ob_get_delete_ne by done. rewrite (bool_decide_ext (k' ∈ k :: names) (k' ∈ names)); [done|]. rewrite elem_of_cons. naive_solver.
  - specialize (IH old Hw). destruct (drop_props _ _ _ _) as [o len]. destruct IH as (H1 & H2 & H3). split_and!; [done|done|].
    intros k'. rewrite H3. destruct (decide (k' = k)) as [->|Hne].
    + rewrite (bool_decide_true (k ∈ k :: names)) by left. cbn [andb].
      destruct (ob_has new k); [by rewrite andb_false_r|]. unfold ob_has in E. destruct (ob_get old k); [done|].
      by destruct (bool_decide _ && _).
    + rewrite (bool_decide_ext (k' ∈ k :: names) (k' ∈ names)); [done|]. rewrite elem_of_cons. naive_solver.
Qed.

Lemma same_names (o p : jsobj hval) :
  ob_wf o -> ob_wf p -> (forall k, ob_has o k = ob_has p k) -> length o = length p.
Proof.
  intros Ho Hp H. unfold ob_wf in *. assert (E : ob_names o ≡ₚ ob_names p).
  { apply NoDup_Permutation; [done|done|]. intros k. rewrite !ob_get_names. specialize (H k). unfold ob_has in H.
    destruct (ob_get o k), (ob_get p k); try done; (split; intros []; done). }
  apply Permutation_length in E. unfold ob_names in E. by rewrite !length_map in E.
Qed.

Lemma subset_names (o p : jsobj hval) :
  ob_wf p -> (forall k, ob_has p k = true -> ob_has o k = true) -> length p <= length o /\
  (length o <= length p -> forall k, ob_has o k = true -> ob_has p k = true).
Proof.
  intros Hp H. unfold ob_wf in Hp.
  assert (Hh : forall q k, ob_has (q : jsobj hval) k = true <-> k ∈ ob_names q).
  { intros q k. rewrite ob_get_names. unfold ob_has. destruct (ob_get q k); split; done || by intros []. }
  assert (S : ob_names p ⊆+ ob_names o) by (apply NoDup_submseteq; [done|]; intros k; rewrite <- !Hh; apply H).
  pose proof (submseteq_length _ _ S) as Hl. unfold ob_names in Hl. rewrite !length_map in Hl. split; [done|]. intros Hle k.
  rewrite !Hh. pose proof (submseteq_length_Permutation _ _ S) as P. rewrite P; [done|]. unfold ob_names. rewrite !length_map. lia.
Qed.

Lemma watch_object_spec old props n :
  ob_wf old -> ob_wf props ->
  let st := watch_object old (length old) props n in
  exists o, w_old st = SeenObject o /\ w_length st = length o /\ props_copied o props /\
    if props_same old props then o = old /\ w_changes st = n else n < w_changes st.
Proof.
  intros Hw Hp. unfold watch_object. pose proof (copy_props_spec props old n Hw Hp) as H.
  destruct (copy_props old (length old) props n) as [[o len] m]. destruct H as (H1 & -> & H3 & H4).
  assert (Hsub : forall k, ob_has props k = true -> ob_has o k = true).
  { intros k. specialize (H3 k). unfold ob_has. destruct (ob_get props k); [|done]. by destruct H3 as (w & -> & _). }
  destruct (subset_names o props Hp Hsub) as [Hle Hback].
  change (props_same old props) with (Nat.eqb (length old) (length props) && all_equal old props).
  destruct (Nat.ltb_spec (length props) (length o)) as [Hlt|Hge].
  - pose proof (drop_props_spec (enum_names o) props o H1) as D. destruct (drop_props (enum_names o) o props (length o)) as [r len].
    destruct D as (D1 & -> & D3). exists r. cbn.
    assert (Hr : forall k, ob_get r k = if ob_has props k then ob_get o k else None).
    { intros k. rewrite D3. unfold ob_has at 2. destruct (ob_get props k) as [v|] eqn:E; unfold ob_has; rewrite E; [by rewrite andb_false_r|].
      rewrite andb_true_r. destruct (bool_decide_reflect (k ∈ enum_names o)) as [|Hk]; [done|].
      rewrite enum_names_perm in Hk. by apply ob_get_None. }
    split_and!; [done|done| |].
    + split_and!; [done| |].
      * apply same_names; [done|done|]. intros k. unfold ob_has at 1. rewrite Hr. destruct (ob_has props k) eqn:E; [|done].
        apply Hsub in E. unfold ob_has in E. by destruct (ob_get o k).
      * intros k. specialize (H3 k). rewrite Hr. unfold ob_has. by destruct (ob_get props k).
    + destruct (all_equal old props); [|rewrite andb_false_r; lia]. destruct H4 as [-> ->].
      destruct (Nat.eqb_spec (length old) (length props)); [lia|]. cbn. lia.
  - exists o. cbn. split_and!; [done|done| |].
    + split_and!; [done|lia|]. intros k. specialize (H3 k). destruct (ob_get props k) as [v|] eqn:E; [done|].
      destruct (ob_get o k) as [w|] eqn:Eo; [|done]. specialize (Hback Hge k). unfold ob_has in Hback. rewrite Eo, E in Hback. by specialize (Hback eq_refl).
    + destruct (all_equal old props); [|by rewrite andb_false_r]. destruct H4 as [-> ->].
      assert (length old = length props) as -> by lia. by rewrite Nat.eqb_refl.
Qed.

(** ** The watch *)

Definition seen_wf (v : seen) : Prop := match v with SeenObject p => ob_wf p | _ => True end.

(** The state keeps a copy of what was seen at the last change. *)
Definition keeps_copy (st : collection) (prev : seen) : Prop :=
  seen_wf prev /\
  match w_old st, prev with
  | SeenValue w, SeenValue v => w = v
  | SeenArray l, SeenArray m => items_same l m = true /\ w_length st = length l
  | SeenObject o, SeenObject p => props_copied o p /\ w_length st = length o
  | _, _ => False
  end.

Lemma value_copied_eq w v x : value_copied w v -> strict_eq w x = strict_eq v x.
Proof. intros [->|H]; [done|]. by apply strict_eq_trans. Qed.

Lemma props_copied_same o p q : props_copied o p -> props_same o q = props_same p q.
Proof.
  intros (_ & Hl & H). unfold props_same. rewrite Hl. f_equal. induction q as [|[k v] q IH]; [done|]. cbn. rewrite IH. f_equal.
  specialize (H k). destruct (ob_get p k) as [w|]; [|by rewrite H]. destruct H as (u & -> & Hc). by apply value_copied_eq.
Qed.

Lemma watch_spec st prev v :
  keeps_copy st prev -> seen_wf v ->
  let st' := watchCollectionWatch v st in
  if seen_same prev v then w_changes st' = w_changes st /\ keeps_copy st' prev
  else w_changes st < w_changes st' /\ keeps_copy st' v.
Proof.
  intros [Hwf K] Hv. destruct v as [v|items|props].
  - destruct prev as [w|m|p]; cbn [seen_same watchCollectionWatch]; destruct (w_old st) as [u|l|o] eqn:Eo; try done.
    + subst u. destruct (strict_eq w v) eqn:E; [split; [done|]; split; [done|]; by rewrite Eo|]. split; [cbn; lia|done].
    + split; [cbn; lia|done].
    + split; [cbn; lia|done].
  - assert (Hnew : forall n, let st' := watch_array [] 0 items (S n) in n < w_changes st' /\ keeps_copy st' (SeenArray items)).
    { intros n. destruct (watch_array_spec [] (S n) items) as (l & E1 & E2 & E3 & E4). cbn [length] in *.
      split; [destruct (items_same [] items); [destruct E4|]; lia|]. split; [done|]. by rewrite E1. }
    destruct prev as [w|m|p]; cbn [seen_same watchCollectionWatch]; destruct (w_old st) as [u|l|o] eqn:Eo; try done.
    destruct K as [Hm ->]. destruct (watch_array_spec l (w_changes st) items) as (l' & E1 & E2 & E3 & E4).
    rewrite <- (items_same_trans _ _ items Hm). destruct (items_same l items).
    + destruct E4 as [-> ->]. split; [done|]. split; [done|]. by rewrite E1.
    + split; [done|]. split; [done|]. by rewrite E1.
  - assert (Hnew : forall n, let st' := watch_object [] 0 props (S n) in n < w_changes st' /\ keeps_copy st' (SeenObject props)).
    { intros n. destruct (watch_object_spec [] props (S n)) as (o & E1 & E2 & E3 & E4); [by constructor|done|]. cbn [length] in *.
      split; [destruct (props_same [] props); [destruct E4|]; lia|]. split; [done|]. by rewrite E1. }
    destruct prev as [w|m|p]; cbn [seen_same watchCollectionWatch]; destruct (w_old st) as [u|l|o] eqn:Eo; try done.
    destruct K as [Hc ->]. destruct (watch_object_spec o props (w_changes st)) as (o' & E1 & E2 & E3 & E4); [by destruct Hc|done|].
    rewrite <- (props_copied_same _ _ props Hc). destruct (props_same o props).
    + destruct E4 as [-> ->]. split; [done|]. split; [done|]. by rewrite E1.
    + split; [done|]. split; [done|]. by rewrite E1.
Qed.

(** ** The calls of the listener *)

Fixpoint later_calls (prev : seen) (values : list seen) : list call_args :=
  match values with
  | [] => []
  | v :: values => if seen_same prev v then later_calls prev values else (v, prev) :: later_calls v values
  end.
(** The first check always calls; then every change does, with the collection of the last change. *)
Definition expected_calls (values : list seen) : list call_args :=
  match values with [] => [] | v :: values => (v, v) :: later_calls v values end.

Record checked (st : watched) (prev : seen) : Prop := {
  ck_copy : keeps_copy (c_watch st) prev;
  ck_last : c_last st = Some (w_changes (c_watch st));
  ck_init : c_init st = false;
  ck_very_old : c_very_old st = prev
}.

Lemma check_step st prev v :
  checked st prev -> seen_wf v ->
  let st' := check_collection v st in
  if seen_same prev v then checked st' prev /\ c_calls st' = c_calls st
  else checked st' v /\ c_calls st' = c_calls st ++ [(v, prev)].
Proof.
  intros [Kc Kl Ki Ko] Hv. pose proof (watch_spec (c_watch st) prev v Kc Hv) as W. unfold check_collection. rewrite Kl.
  cbv zeta in W |- *. destruct (seen_same prev v).
  - destruct W as [E K]. rewrite E, bool_decide_true by done. split; [|done]. by split; cbn; rewrite ?E.
  - destruct W as [E K]. rewrite bool_decide_false by (intros [= ?]; lia). unfold watchCollectionAction. cbn. rewrite Ki, Ko.
    by split.
Qed.

Lemma check_later values st prev :
  checked st prev -> Forall seen_wf values -> c_calls (check_all values st) = c_calls st ++ later_calls prev values.
Proof.
  revert st prev. induction values as [|v values IH]; intros st prev K Hv; [by rewrite app_nil_r|]. apply Forall_cons in Hv as [Hv Hvs].
  cbn [check_all fold_left later_calls]. pose proof (check_step st prev v K Hv) as S. cbv zeta in S.
  fold (check_all values (check_collection v st)). destruct (seen_same prev v); destruct S as [K' E].
  - by rewrite (IH _ prev K' Hvs), E.
  - by rewrite (IH _ v K' Hvs), E, <- app_assoc.
Qed.

Lemma check_first v : seen_wf v -> checked (check_collection v watchCollection) v /\ c_calls (check_collection v watchCollection) = [(v, v)].
Proof.
  intros Hv. pose proof (watch_spec first_collection (SeenValue HUndef) v) as W. cbv zeta in W. unfold check_collection, watchCollection. cbn [c_watch c_last].
  rewrite bool_decide_false by done. unfold watchCollectionAction. cbn. split; [|done].
  destruct (seen_same (SeenValue HUndef) v) eqn:E.
  - destruct v as [[]| |]; try done.
  - destruct W as [_ K]; [done|done|]. by split.
Qed.

(** The objects of a heap have each property once. *)
Definition heap_objects (h : heap) : Prop := forall r p o, h_store h !! r = Some (OObj p o) -> ob_wf o.

Lemma view_wf ho h v : heap_objects h -> seen_wf (view ho h v).
Proof.
  intros H. unfold view. destruct v as [| | | | | |r]; try done. destruct (isObject h (HRef r)); [|done].
  destruct (array_items ho h r); [done|]. cbn. unfold own_props. destruct (h_store h !! r) as [[|p o| | |]|] eqn:E; try constructor.
  pose proof (H _ _ _ E) as W. unfold ob_wf in *. assert (Hn : NoDup (enum_names o)) by by rewrite enum_names_perm.
  clear -Hn. induction (enum_names o) as [|k ks IH]; [constructor|]. apply NoDup_cons in Hn as [Hk Hn]. cbn.
  destruct (ob_get o k); cbn; [|by apply IH]. apply NoDup_cons. split; [|by apply IH].
  intros Hin. apply Hk. clear -Hin. induction ks as [|k' ks IH]; [by apply elem_of_nil in Hin|]. cbn in Hin.
  destruct (ob_get o k'); cbn in Hin; [|right; auto]. apply elem_of_cons in Hin as [->|Hin]; [left|right; auto].
Qed.

(** C32: [$watchCollection].  Over any sequence of checks, on heaps that change between them in any way, the
    listener is called at the first check, and then exactly when the collection differs from the one of the last
    call: another value, another length, an item or a property added, removed or replaced (two [NaN]
    items being the same).  It gets the collection and the copy made at the last call. *)
Theorem watchCollection_calls ho readings :
  Forall (fun r => heap_objects r.1) readings ->
  let values := map (fun r => view ho r.1 r.2) readings in
  c_calls (check_all values watchCollection) = expected_calls values.
Proof.
  intros H values. assert (Hv : Forall seen_wf values).
  { subst values. induction H as [|[h v] readings Hh _ IH]; constructor; [by apply view_wf|done]. }
  clearbody values. destruct values as [|v values]; [done|]. apply Forall_cons in Hv as [Hv Hvs].
  destruct (check_first v Hv) as [K E]. cbn [check_all fold_left expected_calls].
  fold (check_all values (check_collection v watchCollection)). by rewrite (check_later _ _ v K Hvs), E.
Qed.

(** An array, twice as it is, then with an item more, then an object. *)
Lemma watchCollection_calls_witness :
  let h1 := Heap (<[0 := OArr [HNull]]> ∅) 1 in let h2 := Heap (<[0 := OArr [HNull; HNull]]> ∅) 1 in
  let ho := Host (fun _ _ _ => HUndef) (fun _ _ _ => hret HUndef) (fun _ _ => hret HUndef) (fun _ _ => hret tt) HUndef []
                 (fun _ _ _ => hret HUndef) in
  let readings := [(h1, HRef 0); (h1, HRef 0); (h2, HRef 0); (h2, HNull)] in
  c_calls (check_all (map (fun r => view ho r.1 r.2) readings) watchCollection) =
    [(SeenArray [HNull], SeenArray [HNull]); (SeenArray [HNull; HNull], SeenArray [HNull]); (SeenValue HNull, SeenArray [HNull; HNull])].
Proof.
  intros h1 h2 ho readings. refine (eq_trans (watchCollection_calls ho readings _) _); [|vm_compute; reflexivity].
  assert (H : forall l n, heap_objects (Heap (<[0 := OArr l]> ∅) n)).
  { intros l n r p o. cbn. destruct (decide (r = 0)) as [->|]; [by rewrite lookup_insert_eq|by rewrite lookup_insert_ne, lookup_empty]. }
  repeat constructor; apply H.
Defined.

(** A property that is [NaN] is a change at every check: a digest with such a collection never settles. *)
Example nan_property_never_settles :
  let v := SeenObject [(js "x", HNum NaN)] in
  map w_changes [watchCollectionWatch v first_collection; watchCollectionWatch v (watchCollectionWatch v first_collection)] = [2; 3].
Proof. reflexivity. Qed.
