(* ===== verification/Interpolate.v ===== *)
(** * Texts with expressions (angular.js, $interpolate)

    [JSON.stringify] and the service [$sce] are parameters. *)

From Stdlib Require Import QArith.
From S2P Require Import Prelude JsString JsObject JsNumber UriCodec Json Heap Lexer Parser Eval Filters.
#[local] Open Scope nat_scope.
Local Open Scope result_scope.
Local Open Scope handler_scope.

(** ** The parts of a text *)

Inductive segment : Type := SText (text : jstr) | SExp (exp : jstr).

Section Symbols.
Context (startSymbol endSymbol : jstr).

(** [while (index < length)]; each turn but the last reads two symbols. *)
Fixpoint segments_from (fuel : nat) (text : jstr) (index : nat) : list segment :=
  match fuel with
  | 0 => []
  | S fuel =>
      if Nat.ltb index (length text) then
        let last := if Nat.eqb index (length text) then [] else [SText (substr_from text index)] in
        match indexOf_at text startSymbol index with
        | Some startIndex =>
            match indexOf_at text endSymbol (startIndex + length startSymbol) with
            | Some endIndex =>
                (if Nat.eqb index startIndex then [] else [SText (substring text index startIndex)]) ++
                SExp (substring text (startIndex + length startSymbol) endIndex) ::
                segments_from fuel text (endIndex + length endSymbol)
            | None => last
            end
        | None => last
        end
      else []
  end.
Definition segments (text : jstr) : list segment := segments_from (S (length text)) text 0.

(** ** [$interpolate] *)

Inductive part : Type := PText (text : jstr) | PExp (exp : jstr) (e : expr).

Section Service.
Context (has_filter : jstr -> bool).

Definition parse_segment (s : segment) : result parse_failure part :=
  match s with
  | SText t => Ok (PText t)
  | SExp exp => let* e := parse has_filter exp in Ok (PExp exp e)
  end.

Definition has_exp (s : segment) : bool := match s with SExp _ => true | SText _ => false end.

(** The parts of the interpolation function; [None] for a text without an expression when there
    must be one. *)
Definition interpolate (text : jstr) (mustHaveExpression : bool) (trustedContext : option jstr)
    : result parse_failure (option (list part)) :=
  let segs := segments text in
  let* parts := map_result parse_segment segs in
  let parts := match parts with [] => [PText []] | _ => parts end in
  if (match trustedContext with Some (_ :: _) => true | _ => false end) && Nat.ltb 1 (length parts)
  then Throw (Failed (JsMinErr (js "$interpolate:noconcat")))
  else Ok (if negb mustHaveExpression || existsb has_exp segs then Some parts else None).

(** ** The interpolation function *)

Context (ho : host).
(** [$sce.getTrusted(context, value)], [$sce.valueOf(value)] and [toJson(value)], [None] being [undefined]. *)
Context (getTrusted : jstr -> hval -> run hval) (valueOf : hval -> run hval) (toJson : hval -> run (option jstr)).

Definition trusted_or_value (trustedContext : option jstr) (v : hval) : run hval :=
  match trustedContext with
  | Some (c :: s) => getTrusted (c :: s) v
  | _ => valueOf v
  end.

Definition part_text (v : hval) : run jstr :=
  match v with
  | HUndef | HNull => hret []
  | HStr s => hret s
  | HNum n => hret (num_to_str n)
  | _ => t <- toJson v ;; hret (default [] t)
  end.

Fixpoint concat_parts (trustedContext : option jstr) (context : hval) (parts : list part) : run jstr :=
  match parts with
  | [] => hret []
  | PText t :: parts => rest <- concat_parts trustedContext context parts ;; hret (t ++ rest)
  | PExp _ e :: parts =>
      v <- eval ho context None e ;;
      v <- trusted_or_value trustedContext v ;;
      t <- part_text v ;;
      rest <- concat_parts trustedContext context parts ;; hret (t ++ rest)
  end.

(** The function: an exception goes to [$exceptionHandler], and there is no text then. *)
Definition interpolated (trustedContext : option jstr) (parts : list part) (context : hval) (h : heap)
    : option jstr * option js_error * heap :=
  match concat_parts trustedContext context parts h with
  | (Ok t, h) => (Some t, None, h)
  | (Throw _, h) => (None, Some (JsMinErr (js "$interpolate:interr")), h)
  end.
End Service.
End Symbols.
