(* ===== verification/InterpolateFacts.v ===== *)
(** * What $interpolate finds in a text *)

From Stdlib Require Import QArith.
From S2P Require Import Prelude JsString JsObject JsNumber UriCodec Json Heap Lexer Parser Eval Filters EvalFacts Interpolate.
#[local] Open Scope nat_scope.
Local Open Scope result_scope.
Local Open Scope handler_scope.

(** ** The first occurrence of a text *)

Lemma index_from_some p s i k : index_from i p s = Some k ->
  exists a b, s = a ++ p ++ b /\ k = i + length a /\ forall a' b', s = a' ++ p ++ b' -> length a <= length a'.
Proof.
  revert i. induction s as [|c s IH]; intros i; cbn [index_from].
  - destruct (starts_with p []) eqn:E; [|done]. intros [= <-]. apply starts_with_spec in E as [t Et].
    exists [], t. split_and!; [done|cbn; lia|cbn; lia].
  - destruct (starts_with p (c :: s)) eqn:E.
    + intros [= <-]. apply starts_with_spec in E as [t Et]. exists [], t. split_and!; [done|cbn; lia|cbn; lia].
    + intros (a & b & -> & -> & Hmin)%IH. exists (c :: a), b. split_and!; [done|cbn; lia|]. intros [|d a'] b' Hs.
      * cbn in Hs. rewrite Hs, starts_with_app in E. done.
      * injection Hs as -> Hs. cbn. by apply le_n_S, (Hmin a' b').
Qed.
Lemma index_from_none p s i : index_from i p s = None -> forall a b, s <> a ++ p ++ b.
Proof.
  revert i. induction s as [|c s IH]; intros i; cbn [index_from].
  - destruct (starts_with p []) eqn:E; [done|]. intros _ [|? a] b Hs; [|done]. cbn in Hs. by rewrite Hs, starts_with_app in E.
  - destruct (starts_with p (c :: s)) eqn:E; [done|]. intros H [|d a] b Hs.
    + cbn in Hs. by rewrite Hs, starts_with_app in E.
    + injection Hs as -> Hs. by apply (IH _ H a b).
Qed.

(** In [t ++ p ++ ...] the first [p] is after [t]. *)
Definition first_at (p t : jstr) : Prop := forall a b, t ++ p = a ++ p ++ b -> length t <= length a.

Lemma app_long {A} (t p a q c b : list A) : t ++ p ++ q = a ++ c ++ b -> length a + length c <= length t + length p ->
  exists b', t ++ p = a ++ c ++ b'.
Proof.
  intros E Hl. exists (drop (length a + length c) (t ++ p)). rewrite !app_assoc in E. rewrite (app_assoc a).
  etransitivity; [symmetry; apply (take_drop (length a + length c))|]. f_equal.
  apply (f_equal (take (length (a ++ c)))) in E. rewrite (take_app_le (a ++ c)) in E by done. rewrite (take_ge (a ++ c)) in E by done.
  rewrite take_app_le in E by (rewrite !length_app; lia). by rewrite length_app in E.
Qed.

Lemma first_occurrence p t q : first_at p t -> forall i, index_from i p (t ++ p ++ q) = Some (i + length t).
Proof.
  intros F i. destruct (index_from i p (t ++ p ++ q)) as [k|] eqn:E.
  - apply index_from_some in E as (a & b & Es & -> & Hmin). f_equal. f_equal. specialize (Hmin t q eq_refl).
    destruct (app_long t p a q p b Es) as [b' Hb]; [lia|]. specialize (F a b' Hb). lia.
  - by apply index_from_none with (a := t) (b := q) in E.
Qed.

Lemma first_at_min p t q : (forall a' b', t ++ p ++ q = a' ++ p ++ b' -> length t <= length a') -> first_at p t.
Proof. intros H a b E. apply (H a (b ++ q)). rewrite (app_assoc t), E. by rewrite <- !app_assoc. Qed.

Section Symbols.
Context (st en : jstr) (Hst : st <> []) (Hen : en <> []).

(** The text that segments come from. *)
Definition rebuild (segs : list segment) : jstr :=
  concat (map (fun s => match s with SText t => t | SExp e => st ++ e ++ en end) segs).

(** No start symbol with an end symbol after it. *)
Definition no_pair (t : jstr) : Prop := forall a e b, t <> a ++ st ++ e ++ en ++ b.

(** The shape of what [$interpolate] finds. *)
Fixpoint clean (segs : list segment) : Prop :=
  match segs with
  | [] => True
  | SExp e :: rest => first_at en e /\ clean rest
  | [SText t] => t <> [] /\ no_pair t
  | SText t :: SExp e :: rest => t <> [] /\ first_at st t /\ first_at en e /\ clean rest
  | SText _ :: SText _ :: _ => False
  end.

Lemma index_at (pre s p : jstr) : indexOf_at (pre ++ s) p (length pre) = index_from (length pre) p s.
Proof. unfold indexOf_at. rewrite Nat.min_l by (rewrite length_app; lia). by rewrite drop_app_length. Qed.

Lemma substring_mid (pre a s : jstr) : substring (pre ++ a ++ s) (length pre) (length pre + length a) = a.
Proof.
  unfold substring. rewrite !length_app.
  replace (Nat.max _ _ - Nat.min _ _) with (length a) by lia. replace (Nat.min _ _) with (length pre) by lia.
  rewrite drop_app_length. by rewrite take_app_length.
Qed.

(** One turn of the loop, on what is left of the text. *)
Lemma turn fuel pre s :
  s <> [] ->
  segments_from st en (S fuel) (pre ++ s) (length pre) =
  match index_from 0 st s with
  | Some i =>
      match index_from 0 en (drop (i + length st) s) with
      | Some j =>
          (match take i s with [] => [] | t => [SText t] end) ++ SExp (take j (drop (i + length st) s)) ::
          segments_from st en fuel (pre ++ s) (length pre + i + length st + j + length en)
      | None => [SText s]
      end
  | None => [SText s]
  end.
Proof.
  intros Hs. cbn [segments_from]. rewrite (proj2 (Nat.ltb_lt _ _)) by (rewrite length_app; destruct s; [done|cbn; lia]).
  rewrite (proj2 (Nat.eqb_neq (length pre) _)) by (rewrite length_app; destruct s; [done|cbn; lia]).
  assert (Elast : substr_from (pre ++ s) (length pre) = s) by (unfold substr_from; by rewrite drop_app_length). rewrite Elast.
  rewrite index_at. assert (Sh : forall p q n, index_from n p q = (fun k => n + k) <$> index_from 0 p q).
  { clear. intros p q. enough (H : forall n m, index_from (n + m) p q = (fun k => n + k) <$> index_from m p q)
      by (intros n; specialize (H n 0); by rewrite Nat.add_0_r in H).
    induction q as [|c q IH]; intros n m; cbn [index_from]; destruct (starts_with p _); try done. rewrite <- IH. f_equal. lia. }
  rewrite (Sh st s (length pre)). destruct (index_from 0 st s) as [i|] eqn:Ei; [|done]. cbn [fmap option_fmap option_map].
  apply index_from_some in Ei as (a & b & -> & -> & _). cbn [plus].
  assert (E1 : pre ++ a ++ st ++ b = (pre ++ a ++ st) ++ b) by by rewrite <- !app_assoc.
  replace (length pre + length a + length st) with (length (pre ++ a ++ st)) by (rewrite !length_app; lia).
  rewrite E1, index_at, (Sh en b). replace (drop (length a + length st) (a ++ st ++ b)) with b
    by (by rewrite app_assoc, <- length_app, drop_app_length).
  destruct (index_from 0 en b) as [j|] eqn:Ej; [|by rewrite <- E1]. cbn [fmap option_fmap option_map].
  apply index_from_some in Ej as (e & b2 & -> & -> & _). cbn [plus]. f_equal; [|f_equal].
  - rewrite take_app_length. destruct (Nat.eqb_spec (length pre) (length pre + length a)) as [E|E].
    + by destruct a; [|simpl in E; lia].
    + rewrite <- E1, substring_mid. by destruct a; [simpl in E; lia|].
  - f_equal. rewrite take_app_length. apply (substring_mid (pre ++ a ++ st) e (en ++ b2)).
Qed.

Lemma rebuild_cons s segs : rebuild (s :: segs) = (match s with SText t => t | SExp e => st ++ e ++ en end) ++ rebuild segs.
Proof. done. Qed.

Lemma segments_spec fuel : forall pre s, length s < fuel ->
  rebuild (segments_from st en fuel (pre ++ s) (length pre)) = s /\ clean (segments_from st en fuel (pre ++ s) (length pre)).
Proof.
  induction fuel as [|fuel IH]; intros pre s Hf; [lia|]. destruct s as [|c0 s0] eqn:Es.
  { cbn [segments_from]. rewrite app_nil_r, Nat.ltb_irrefl. done. }
  rewrite <- Es in *. assert (Hs : s <> []) by by rewrite Es. clear c0 s0 Es. rewrite turn by done.
  assert (Hlast : no_pair s -> rebuild [SText s] = s /\ clean [SText s]) by (intros H; split; [cbn; by rewrite app_nil_r|done]).
  destruct (index_from 0 st s) as [i|] eqn:Ei.
  2: { apply Hlast. intros a e b. by apply (index_from_none st s 0 Ei a (e ++ en ++ b)). }
  apply index_from_some in Ei as (a & b & -> & -> & Hmin). cbn [plus].
  replace (drop (length a + length st) (a ++ st ++ b)) with b by (by rewrite app_assoc, <- length_app, drop_app_length).
  destruct (index_from 0 en b) as [j|] eqn:Ej.
  2: { apply Hlast. intros a' e b' E. pose proof (Hmin a' (e ++ en ++ b') E) as Hl.
       apply (index_from_none en b 0 Ej (drop (length a + length st) (a' ++ st ++ e)) b').
       apply (f_equal (drop (length a + length st))) in E. rewrite app_assoc, <- length_app, drop_app_length in E.
       rewrite E, !app_assoc. rewrite length_app. rewrite drop_app_le by (rewrite !length_app; lia).
       rewrite drop_app_le by (rewrite !length_app; lia). by rewrite <- !app_assoc. }
  apply index_from_some in Ej as (e & b2 & -> & -> & Hmin2). cbn [plus].
  rewrite !take_app_length. assert (E1 : pre ++ a ++ st ++ e ++ en ++ b2 = (pre ++ a ++ st ++ e ++ en) ++ b2) by by rewrite <- !app_assoc.
  replace (length pre + length a + length st + length e + length en) with (length (pre ++ a ++ st ++ e ++ en)) by (rewrite !length_app; lia).
  rewrite E1. destruct (IH (pre ++ a ++ st ++ e ++ en) b2) as [R C].
  { rewrite !length_app in Hf. destruct st; [done|]. cbn in Hf. lia. }
  pose proof (first_at_min st a (e ++ en ++ b2) Hmin) as F1. pose proof (first_at_min en e b2 Hmin2) as F2.
  set (rest := segments_from st en fuel _ _) in *. clearbody rest. clear E1 Hf.
  destruct a as [|x a]; cbn [app].
  - rewrite rebuild_cons, R, <- !app_assoc. done.
  - rewrite !rebuild_cons, R, <- !app_assoc. done.
Qed.

Lemma rebuild_spec segs : forall fuel pre, clean segs -> length (rebuild segs) < fuel ->
  segments_from st en fuel (pre ++ rebuild segs) (length pre) = segs.
Proof.
  induction segs as [segs IH] using list_len_ind; intros fuel pre Hc Hf.
  assert (Hexp : forall t e rest fuel pre, length rest < length segs ->
    first_at st t -> first_at en e -> clean rest -> length (t ++ (st ++ e ++ en) ++ rebuild rest) < S fuel ->
    segments_from st en (S fuel) (pre ++ t ++ (st ++ e ++ en) ++ rebuild rest) (length pre) =
      (match t with [] => [] | _ => [SText t] end) ++ SExp e :: rest).
  { clear fuel pre Hc Hf. intros t e rest fuel pre Hl F1 F2 Hc Hf.
    rewrite turn by (destruct t; [destruct st|]; done). rewrite <- !app_assoc.
    rewrite (first_occurrence st t (e ++ en ++ rebuild rest) F1 0). cbn [plus].
    replace (drop (length t + length st) (t ++ st ++ e ++ en ++ rebuild rest)) with (e ++ en ++ rebuild rest)
      by (by rewrite (app_assoc t), <- length_app, drop_app_length).
    rewrite (first_occurrence en e (rebuild rest) F2 0). cbn [plus]. rewrite !take_app_length. f_equal; [by destruct t|]. f_equal.
    assert (E1 : pre ++ t ++ st ++ e ++ en ++ rebuild rest = (pre ++ t ++ st ++ e ++ en) ++ rebuild rest) by by rewrite <- !app_assoc.
    replace (length pre + length t + length st + length e + length en) with (length (pre ++ t ++ st ++ e ++ en)) by (rewrite !length_app; lia).
    rewrite E1. apply IH; [done|done|]. rewrite !length_app in Hf. destruct st; [done|]. cbn in Hf. lia. }
  destruct fuel as [|fuel]; [lia|]. destruct segs as [|[t|e] rest].
  - cbn [rebuild map concat]. cbn [segments_from]. by rewrite app_nil_r, Nat.ltb_irrefl.
  - destruct rest as [|[u|e] rest]; [|done|].
    + destruct Hc as [Ht Hn]. cbn [rebuild map concat] in *. rewrite app_nil_r in *. rewrite turn by done.
      destruct (index_from 0 st t) as [i|] eqn:Ei; [|done]. destruct (index_from 0 en _) as [j|] eqn:Ej; [|done]. exfalso.
      apply index_from_some in Ei as (a & b & -> & -> & _). cbn [plus] in Ej.
      rewrite app_assoc, <- length_app, drop_app_length in Ej. apply index_from_some in Ej as (e & b2 & -> & _). by apply (Hn a e b2).
    + destruct Hc as (Ht & F1 & F2 & Hc). rewrite !rebuild_cons in *. rewrite Hexp; [by destruct t|cbn; lia|done|done|done|done].
  - destruct Hc as (F2 & Hc). rewrite rebuild_cons in *. apply (Hexp [] e rest); [cbn; lia| |done|done|done].
    intros a b _. cbn. lia.
Qed.
End Symbols.

(** C33: the parts that [$interpolate] finds.  Whatever the symbols, the loop ends with a list of texts and
    expressions that give the text back, in which an expression ends at the first end symbol, a text
    at the first start symbol, and the last text has no complete pair; and every list
    of that shape is what the loop finds in the text it gives. *)
Theorem interpolate_segments startSymbol endSymbol :
  startSymbol <> [] -> endSymbol <> [] ->
  (forall text, rebuild startSymbol endSymbol (segments startSymbol endSymbol text) = text /\
                clean startSymbol endSymbol (segments startSymbol endSymbol text)) /\
  forall segs, clean startSymbol endSymbol segs ->
    segments startSymbol endSymbol (rebuild startSymbol endSymbol segs) = segs.
Proof.
  intros Hs He. split.
  - intros text. apply (segments_spec startSymbol endSymbol Hs (S (length text)) [] text). lia.
  - intros segs Hc. apply (rebuild_spec startSymbol endSymbol Hs segs (S _) []); [done|lia].
Qed.

Lemma interpolate_segments_witness :
  segments (js "{{") (js "}}") (js "Hello {{name}}!") = [SText (js "Hello "); SExp (js "name"); SText (js "!")] /\ clean (js "{{") (js "}}") (segments (js "{{") (js "}}") (js "Hello {{name}}!")).
Proof.
  split; [vm_compute; reflexivity|]. apply (interpolate_segments (js "{{") (js "}}")); done.
Defined.

(** Parsing keeps the segments. *)
Definition segment_of (p : part) : segment := match p with PText t => SText t | PExp exp _ => SExp exp end.
Lemma parse_segments has_filter segs parts :
  map_result (parse_segment has_filter) segs = Ok parts -> map segment_of parts = segs /\
  Forall (fun p => match p with PExp exp e => parse has_filter exp = Ok e | PText _ => True end) parts.
Proof.
  revert parts. induction segs as [|s segs IH]; intros parts; cbn [map_result]; [by intros [= <-]|].
  destruct (parse_segment has_filter s) as [p|e] eqn:E; [|done]. cbn. destruct (map_result _ segs) as [ps|e']; [|done]. cbn.
  intros [= <-]. destruct (IH ps eq_refl) as [<- Hf]. destruct s as [t|exp]; cbn in E.
  - injection E as <-. split; [done|]. by constructor.
  - destruct (parse has_filter exp) as [x|] eqn:Ep; [|done]. injection E as <-. split; [done|]. by constructor.
Qed.

Section Trusted.
Context (st en : jstr) (Hst : st <> []) (has_filter : jstr -> bool) (ho : host).
Context (getTrusted : jstr -> hval -> run hval) (valueOf : hval -> run hval) (toJson : hval -> run (option jstr)).

(** A trusted context.  When [$interpolate] accepts a text for such a context (the URL of a frame, say), the text
    has no expression at all, or it is one expression between the symbols and nothing else; what the function
    gives then is the text of what [$sce.getTrusted] gives for the value, on every scope and every heap. *)
Theorem interpolate_trusted text mustHaveExpression trustedContext parts :
  trustedContext <> [] -> interpolate st en has_filter text mustHaveExpression (Some trustedContext) = Ok (Some parts) ->
  (parts = [PText text] /\ forall context h,
     concat_parts ho getTrusted valueOf toJson (Some trustedContext) context parts h = (Ok text, h)) \/
  exists exp e, text = st ++ exp ++ en /\ parse has_filter exp = Ok e /\ parts = [PExp exp e] /\
    forall context h,
      concat_parts ho getTrusted valueOf toJson (Some trustedContext) context parts h =
      (v <- eval ho context None e ;; v <- getTrusted trustedContext v ;; part_text toJson v) h.
Proof.
  intros Hc. unfold interpolate. destruct (map_result _ _) as [ps|e] eqn:Ep; [|done]. cbn [rbind]. destruct trustedContext as [|c ctx]; [done|].
  apply parse_segments in Ep as [Es Hf]. destruct (segments_spec st en Hst (S (length text)) [] text) as [R _]; [lia|].
  change (segments_from st en (S (length text)) ([] ++ text) (length [])) with (segments st en text) in R. rewrite <- Es in R.
  cbv zeta. destruct ps as [|p [|p2 ps]].
  - cbn. destruct (negb mustHaveExpression || _); [|done]. intros [= <-]. cbn in R. subst text. left. split; done.
  - cbn [length Nat.ltb Nat.leb andb]. destruct (negb mustHaveExpression || _); [|done]. intros [= <-]. destruct p as [t|exp e]; cbn in R.
    + rewrite app_nil_r in R. subst t. left. split; [done|]. intros context h. cbn. unfold hbind, hret. by rewrite app_nil_r.
    + rewrite app_nil_r in R. right. exists exp, e. apply Forall_cons in Hf as [Hp _]. split_and!; [done|done|done|]. intros context h.
      cbn [concat_parts trusted_or_value]. apply hbind_ext; [done|]. intros v h1. apply hbind_ext; [done|]. intros w h2.
      unfold hbind at 1. destruct (part_text toJson w h2) as [[t|x] h3]; [|done]. unfold hbind, hret. by rewrite app_nil_r.
  - done.
Qed.
End Trusted.

Lemma interpolate_trusted_witness :
  interpolate (js "{{") (js "}}") (fun _ => false) (js "{{url}}") true (Some (js "resourceUrl")) = Ok (Some [PExp (js "url") (EPath (js "url"))]) /\
  (([PExp (js "url") (EPath (js "url"))] = [PText (js "{{url}}")] /\ forall context h,
     concat_parts bare_host (fun _ v => hret v) hret (fun _ => hret None) (Some (js "resourceUrl")) context [PExp (js "url") (EPath (js "url"))] h = (Ok (js "{{url}}"), h)) \/
   exists exp e, js "{{url}}" = js "{{" ++ exp ++ js "}}" /\ parse (fun _ => false) exp = Ok e /\ [PExp (js "url") (EPath (js "url"))] = [PExp exp e] /\
    forall context h,
      concat_parts bare_host (fun _ v => hret v) hret (fun _ => hret None) (Some (js "resourceUrl")) context [PExp (js "url") (EPath (js "url"))] h =
      (v <- eval bare_host context None e ;; v <- hret v ;; part_text (fun _ => hret None) v) h).
Proof.
  assert (E : interpolate (js "{{") (js "}}") (fun _ => false) (js "{{url}}") true (Some (js "resourceUrl")) = Ok (Some [PExp (js "url") (EPath (js "url"))]))
    by (vm_compute; reflexivity).
  split; [exact E|]. assert (Hs : js "{{" <> []) by done.
  exact (interpolate_trusted (js "{{") (js "}}") Hs (fun _ => false) bare_host (fun _ v => hret v) hret (fun _ => hret None)
    (js "{{url}}") true (js "resourceUrl") [PExp (js "url") (EPath (js "url"))] ltac:(done) E).
Defined.
