(* ===== verification/Repeat.v ===== *)
(** * Repeated elements (angular.js, ngRepeat)

    The children of one parent are a list of nodes; the directive's comment is one of them, and the
    copies of its template follow it.  Nodes leave at once (without ngAnimate).  What the collection gives
    at each call is a parameter: in order, the values with their tracking names, or the exception of the tracking
    expression.  No tracking name is ['__proto__']. *)

From S2P Require Import Prelude JsString JsObject Json Heap.

Record block : Type := Block {
  b_id : jstr;
  b_scope : nat;
  b_clone : list nat              (** the nodes of the copy, an end comment last *)
}.

(** What the scope of a block shows. *)
Record shown : Type := Shown {
  sh_value : hval; sh_index : nat;
  sh_first : bool; sh_last : bool; sh_middle : bool; sh_even : bool; sh_odd : bool
}.

Record repeater : Type := Repeater {
  r_dom : list nat;
  r_last : jsobj block;           (** [lastBlockMap] *)
  r_nodes : nat;                  (** the nodes made so far *)
  r_scopes : nat;                 (** the scopes made so far *)
  r_destroyed : list nat;
  r_shown : gmap nat shown
}.

Inductive entry : Type := Seen (b : block) | Fresh (id : jstr).     (** [nextBlockOrder] *)
Abbreviation collection := (list (result js_error jstr * hval)).

Section Repeat.
Context (anchor : nat).           (** [$element[0]] *)
Context (template : nat).         (** the number of nodes of the template *)

(** ** Nodes *)

Fixpoint from_node (start : nat) (dom : list nat) : list nat :=
  match dom with [] => [] | x :: rest => if Nat.eqb x start then dom else from_node start rest end.
Fixpoint up_to (stop : nat) (nodes : list nat) : list nat :=
  match nodes with [] => [] | x :: rest => x :: (if Nat.eqb x stop then [] else up_to stop rest) end.

Definition getBlockStart (clone : list nat) : nat := hd 0 clone.
Definition getBlockEnd (clone : list nat) : nat := List.last clone 0.
Definition getBlockElements (clone dom : list nat) : list nat :=
  if Nat.eqb (getBlockStart clone) (getBlockEnd clone) then [getBlockStart clone]
  else up_to (getBlockEnd clone) (from_node (getBlockStart clone) dom).

Fixpoint detach (x : nat) (dom : list nat) : list nat :=
  match dom with [] => [] | y :: dom => if Nat.eqb y x then dom else y :: detach x dom end.
Fixpoint attach (after x : nat) (dom : list nat) : list nat :=
  match dom with [] => [] | y :: dom => if Nat.eqb y after then y :: x :: dom else y :: attach after x dom end.
Definition nextSibling (x : nat) (dom : list nat) : option nat :=
  match from_node x dom with _ :: y :: _ => Some y | _ => None end.

(** [element.remove()], and [after.after(elements)]. *)
Definition leave (elements dom : list nat) : list nat := fold_left (fun dom x => detach x dom) elements dom.
Fixpoint enter (after : nat) (elements dom : list nat) : list nat :=
  match elements with [] => dom | x :: elements => enter x elements (attach after x (detach x dom)) end.

(** ** Locating the blocks *)

(** The restoring of [lastBlockMap] from [nextBlockOrder]. *)
Definition restore (order : list entry) (last : jsobj block) : jsobj block :=
  fold_left (fun last e => match e with Seen b => ob_set last (b_id b) b | Fresh _ => last end) order last.

(** The first loop: an exception comes with what it has made of [lastBlockMap]. *)
Fixpoint locate (items : collection) (last : jsobj block) (next : jsobj (option block)) (order : list entry)
    : (js_error * jsobj block) + (jsobj block * jsobj (option block) * list entry) :=
  match items with
  | [] => inr (last, next, order)
  | (Throw e, _) :: _ => inl (e, last)
  | (Ok trackById, _) :: items =>
      if jeqb trackById (js "hasOwnProperty") then inl (JsMinErr (js "ng:badname"), last)
      else match ob_get last trackById with
           | Some b => locate items (ob_delete last trackById) (ob_set next trackById (Some b)) (order ++ [Seen b])
           | None =>
               if ob_has next trackById then inl (JsMinErr (js "ngRepeat:dupes"), restore order last)
               else locate items last (ob_set next trackById None) (order ++ [Fresh trackById])
           end
  end.

(** The second loop: the blocks that are left. *)
Definition remove_block (b : block) (st : repeater) : repeater :=
  Repeater (leave (getBlockElements (b_clone b) (r_dom st)) (r_dom st)) (r_last st) (r_nodes st) (r_scopes st)
           (r_destroyed st ++ [b_scope b]) (r_shown st).

(** ** Placing the blocks *)

Definition show (length index : nat) (value : hval) : shown :=
  let first := Nat.eqb index 0 in let last := Nat.eqb index (length - 1) in
  Shown value index first last (negb (first || last)) (Nat.even index) (negb (Nat.even index)).

(** One turn of the third loop; [previous] is the node that the block follows. *)
Definition place (length index : nat) (value : hval) (e : entry) (previous : nat) (st : repeater) : block * repeater :=
  match e with
  | Seen b =>
      let moved := negb (bool_decide (nextSibling previous (r_dom st) = Some (getBlockStart (b_clone b)))) in
      let dom := if moved then enter previous (getBlockElements (b_clone b) (r_dom st)) (r_dom st) else r_dom st in
      (b, Repeater dom (r_last st) (r_nodes st) (r_scopes st) (r_destroyed st) (<[b_scope b := show length index value]> (r_shown st)))
  | Fresh id =>
      let clone := seq (r_nodes st) (S template) in
      let b := Block id (r_scopes st) clone in
      (b, Repeater (enter previous clone (r_dom st)) (r_last st) (r_nodes st + S template) (S (r_scopes st)) (r_destroyed st)
                   (<[r_scopes st := show length index value]> (r_shown st)))
  end.

Fixpoint place_all (length index : nat) (items : list (entry * hval)) (previous : nat) (st : repeater) (next : jsobj (option block))
    : repeater * jsobj (option block) :=
  match items with
  | [] => (st, next)
  | (e, value) :: items =>
      let '(b, st) := place length index value e previous st in
      place_all length (S index) items (getBlockEnd (b_clone b)) st
        (match e with Fresh id => ob_set next id (Some b) | Seen _ => next end)
  end.

Definition set_last (last : jsobj block) (st : repeater) : repeater :=
  Repeater (r_dom st) last (r_nodes st) (r_scopes st) (r_destroyed st) (r_shown st).

(** [lastBlockMap = nextBlockMap]. *)
Definition blocks_of (next : jsobj (option block)) : jsobj block :=
  omap (fun kb => (fun b => (kb.1, b)) <$> kb.2) next.

Definition ngRepeatAction (items : collection) (st : repeater) : result js_error unit * repeater :=
  match locate items (r_last st) [] [] with
  | inl (e, last) => (Throw e, set_last last st)
  | inr (last, next, order) =>
      let st := fold_left (fun st k => match ob_get last k with Some b => remove_block b st | None => st end) (enum_names last) st in
      let '(st, next) := place_all (length items) 0 (combine order (map snd items)) anchor st next in
      (Ok tt, set_last (blocks_of next) st)
  end.
End Repeat.
