(* ===== verification/RepeatFacts.v ===== *)
(** * The nodes of a repeater *)

From S2P Require Import Prelude JsString JsObject Json Heap Repeat.

(** ** Lists of nodes *)

Lemma from_node_app start A B : start ∉ A -> from_node start (A ++ start :: B) = start :: B.
Proof.
  induction A as [|x A IH]; cbn; [by rewrite Nat.eqb_refl|]. intros [Hx Ha]%not_elem_of_cons.
  destruct (Nat.eqb_spec x start); [congruence|]. by apply IH.
Qed.
Lemma up_to_app stop A B : stop ∉ A -> up_to stop (A ++ stop :: B) = A ++ [stop].
Proof.
  induction A as [|x A IH]; cbn; [by rewrite Nat.eqb_refl|]. intros [Hx Ha]%not_elem_of_cons.
  destruct (Nat.eqb_spec x stop); [congruence|]. by rewrite IH.
Qed.
Lemma detach_mid x A B : x ∉ A -> detach x (A ++ x :: B) = A ++ B.
Proof.
  induction A as [|y A IH]; cbn; [by rewrite Nat.eqb_refl|]. intros [Hx Ha]%not_elem_of_cons.
  destruct (Nat.eqb_spec y x); [congruence|]. by rewrite IH.
Qed.
Lemma detach_absent x A : x ∉ A -> detach x A = A.
Proof.
  induction A as [|y A IH]; cbn; [done|]. intros [Hx Ha]%not_elem_of_cons. destruct (Nat.eqb_spec y x); [congruence|]. by rewrite IH.
Qed.
Lemma attach_mid after x A B : after ∉ A -> attach after x (A ++ after :: B) = A ++ after :: x :: B.
Proof.
  induction A as [|y A IH]; cbn; [by rewrite Nat.eqb_refl|]. intros [Hx Ha]%not_elem_of_cons.
  destruct (Nat.eqb_spec y after); [congruence|]. by rewrite IH.
Qed.

(** The elements of a block that is in the page. *)
Lemma block_elements clone A B : NoDup (A ++ clone ++ B) -> clone <> [] -> getBlockElements clone (A ++ clone ++ B) = clone.
Proof.
  intros Hn Hc. destruct (exists_last Hc) as (c & stop & ->). unfold getBlockElements, getBlockEnd.
  rewrite List.last_last. destruct c as [|start c]; cbn [getBlockStart hd app]; [by rewrite Nat.eqb_refl|].
  apply NoDup_app in Hn as (HA & Hd & Hn). apply NoDup_app in Hn as (Hn & _ & _). cbn in Hn. apply NoDup_cons in Hn as [Hs Hn].
  apply NoDup_app in Hn as (_ & Hn & _).
  destruct (Nat.eqb_spec start stop) as [->|Hne]; [exfalso; apply Hs; set_solver|].
  rewrite from_node_app by (intros Hin; apply (Hd start Hin); set_solver).
  replace (start :: (c ++ [stop]) ++ B) with ((start :: c) ++ stop :: B) by (cbn; by rewrite <- app_assoc).
  rewrite up_to_app; [done|]. apply not_elem_of_cons. split; [done|]. intros Hin. apply (Hn stop Hin). set_solver.
Qed.

Lemma leave_mid clone A B : NoDup (A ++ clone ++ B) -> leave clone (A ++ clone ++ B) = A ++ B.
Proof.
  unfold leave. induction clone as [|x clone IH]; intros Hn; [done|]. cbn [fold_left app].
  rewrite detach_mid by (intros Hin; apply NoDup_app in Hn as (_ & Hd & _); apply (Hd x Hin); left).
  apply IH. revert Hn. rewrite !NoDup_app. cbn. rewrite NoDup_cons. set_solver.
Qed.

(** A block that comes after its place. *)
Lemma enter_moved clone : forall P prev X Y, NoDup (P ++ prev :: X ++ clone ++ Y) ->
  enter prev clone (P ++ prev :: X ++ clone ++ Y) = P ++ prev :: clone ++ X ++ Y.
Proof.
  induction clone as [|c clone IH]; intros P prev X Y Hn; [done|]. cbn [enter app].
  assert (E : P ++ prev :: X ++ c :: clone ++ Y = (P ++ prev :: X) ++ c :: clone ++ Y) by by rewrite <- app_assoc.
  assert (Hn' := Hn). cbn [app] in Hn'. rewrite E in Hn'. apply NoDup_app in Hn' as (H1 & H2 & H3).
  apply NoDup_app in H1 as (H4 & H5 & H6). apply NoDup_cons in H3 as [H7 H8]. rewrite E.
  rewrite detach_mid by (intros Hin; apply (H2 c Hin); left). rewrite <- app_assoc. cbn [app].
  rewrite attach_mid by (intros Hin; apply (H5 prev Hin); left).
  replace (P ++ prev :: c :: X ++ clone ++ Y) with ((P ++ [prev]) ++ c :: X ++ clone ++ Y) by (by rewrite <- app_assoc).
  rewrite IH; [by rewrite <- app_assoc|]. revert Hn. cbn [app]. intros Hn.
  assert (Pm : (P ++ [prev]) ++ c :: X ++ clone ++ Y ≡ₚ P ++ prev :: X ++ c :: clone ++ Y).
  { rewrite <- app_assoc. cbn. apply Permutation_app_head. constructor. apply Permutation_middle. }
  by rewrite Pm.
Qed.
(** A new block. *)
Lemma enter_fresh clone : forall P prev Y, NoDup (P ++ prev :: clone ++ Y) ->
  enter prev clone (P ++ prev :: Y) = P ++ prev :: clone ++ Y.
Proof.
  induction clone as [|c clone IH]; intros P prev Y Hn; [done|]. cbn [enter app].
  assert (Hc : c ∉ P ++ prev :: Y) by (revert Hn; rewrite NoDup_app; cbn; rewrite !NoDup_cons; set_solver).
  rewrite detach_absent by done.
  rewrite attach_mid by (revert Hn; rewrite NoDup_app; set_solver).
  replace (P ++ prev :: c :: Y) with ((P ++ [prev]) ++ c :: Y) by (by rewrite <- app_assoc).
  rewrite IH; [by rewrite <- app_assoc|]. by rewrite <- app_assoc.
Qed.

Lemma next_sibling P prev Y : prev ∉ P -> nextSibling prev (P ++ prev :: Y) = head Y.
Proof. intros H. unfold nextSibling. rewrite from_node_app by done. by destruct Y. Qed.

(** ** Locating *)

Abbreviation clones bs := (concat (map b_clone bs)).

Definition entry_of (last : jsobj block) (id : jstr) : entry :=
  match ob_get last id with Some b => Seen b | None => Fresh id end.
Definition next_of (last : jsobj block) (id : jstr) : option block := ob_get last id.
(** Items whose tracking names are these. *)
Definition tracked (items : collection) (ids : list jstr) : Prop :=
  map fst items = map Ok ids /\ js "hasOwnProperty" ∉ ids.

Lemma locate_ok items ids : forall last next order,
  tracked items ids -> ob_wf last -> NoDup ids -> (forall id, id ∈ ids -> ob_has next id = false) ->
  locate items last next order =
    inr (fold_left ob_delete ids last, fold_left (fun n id => ob_set n id (ob_get last id)) ids next, order ++ map (entry_of last) ids).
Proof.
  revert ids. induction items as [|[r v] items IH]; intros [|id ids] last next order [Ht Hh] Hw Hn Hx; try done.
  { cbn. by rewrite app_nil_r. }
  cbn in Ht. injection Ht as -> Ht. apply not_elem_of_cons in Hh as [Hh Hhs]. apply NoDup_cons in Hn as [Hid Hn]. cbn [locate].
  rewrite (proj2 (jeqb_false id _)) by congruence. cbn [fold_left map].
  assert (Hnx : forall x o, (forall id', id' ∈ ids -> ob_has (ob_set next id x) id' = false) /\ tracked items ids /\ (o = o :> nat)).
  { intros x o. split_and!; [|done|done]. intros id' Hin. unfold ob_has. rewrite ob_get_set_ne by congruence.
    pose proof (Hx id' ltac:(by right)) as H. unfold ob_has in H. done. }
  assert (Hext : forall last' n0, (forall id', id' ∈ ids -> ob_get last' id' = ob_get last id') ->
    fold_left (fun n id => ob_set n id (ob_get last' id)) ids n0 = fold_left (fun n id => ob_set n id (ob_get last id)) ids n0 /\
    map (entry_of last') ids = map (entry_of last) ids).
  { clear. induction ids as [|i ids IH]; intros last' n0 H; [done|]. cbn. unfold entry_of at 1 3. rewrite H by left.
    destruct (IH last' (ob_set n0 i (ob_get last i))) as [-> E]; [intros; apply H; by right|]. split; [done|]. by rewrite E. }
  unfold entry_of at 1. destruct (ob_get last id) as [b|] eqn:Eg.
  - destruct (Hnx (Some b) 0) as (H1 & H2 & _). rewrite (IH ids) by (try done; by apply ob_wf_delete).
    destruct (Hext (ob_delete last id) (ob_set next id (Some b))) as [-> ->].
    + intros id' Hin. apply ob_get_delete_ne. congruence.
    + by rewrite <- app_assoc.
  - rewrite (Hx id) by left. destruct (Hnx None 0) as (H1 & H2 & _). rewrite (IH ids) by done.
    rewrite (ob_delete_absent last id Eg). by rewrite <- app_assoc.
Qed.

Definition dupes_error : js_error := JsMinErr (js "ngRepeat:dupes").

Lemma restore_ext order : forall l1 l2 k, ob_get l1 k = ob_get l2 k -> ob_get (restore order l1) k = ob_get (restore order l2) k.
Proof.
  unfold restore. induction order as [|e order IH]; intros l1 l2 k H; [done|]. cbn. apply IH. destruct e as [b|id]; [|done].
  destruct (decide (k = b_id b)) as [->|Hne]; [by rewrite !ob_get_set_eq|by rewrite !ob_get_set_ne by congruence].
Qed.
Lemma restore_wf order : forall last, ob_wf last -> ob_wf (restore order last).
Proof.
  unfold restore. induction order as [|e order IH]; intros last H; [done|]. cbn. apply IH. destruct e; [by apply ob_wf_set|done].
Qed.

(** Duplicates are found, and the blocks found till then are put back. *)
Lemma locate_cases last0 items ids : forall last next order,
  tracked items ids -> ob_wf last ->
  (forall id b, ob_get last0 id = Some b -> b_id b = id) ->
  (forall id b, ob_get last id = Some b -> ob_get last0 id = Some b) ->
  (forall id, ob_get (restore order last) id = ob_get last0 id) ->
  (forall id, ob_has next id = true -> ob_get last id = None) ->
  match locate items last next order with
  | inl (e, l) => e = dupes_error /\ ob_wf l /\ forall id, ob_get l id = ob_get last0 id
  | inr _ => NoDup ids /\ forall id, id ∈ ids -> ob_has next id = false
  end.
Proof.
  revert ids. induction items as [|[r v] items IH]; intros [|id ids] last next order [Ht Hh] Hw H0 Hsub Hres Hnx; try done.
  { cbn. split; [constructor|]. intros id Hin. by apply elem_of_nil in Hin. }
  cbn in Ht. injection Ht as -> Ht. apply not_elem_of_cons in Hh as [Hh Hhs]. cbn [locate].
  rewrite (proj2 (jeqb_false id _)) by congruence.
  assert (Hend : forall x, ob_has next id = false -> NoDup ids /\ (forall id', id' ∈ ids -> ob_has (ob_set next id x) id' = false) ->
    NoDup (id :: ids) /\ forall id', id' ∈ id :: ids -> ob_has next id' = false).
  { intros x Hid [Hn Hd]. assert (Hni : id ∉ ids) by (intros Hin; apply Hd in Hin; unfold ob_has in Hin; by rewrite ob_get_set_eq in Hin).
    split; [by apply NoDup_cons|]. intros id' [->|Hin]%elem_of_cons; [done|]. pose proof (Hd id' Hin) as E. unfold ob_has in *.
    rewrite ob_get_set_ne in E by congruence. done. }
  assert (Hnext : forall x last', (forall id', id' <> id -> ob_get last' id' = ob_get last id') -> ob_get last' id = None ->
    forall id', ob_has (ob_set next id x) id' = true -> ob_get last' id' = None).
  { intros x last' El En id' Hx. destruct (decide (id' = id)) as [->|Hne]; [done|]. rewrite El by done. apply Hnx.
    unfold ob_has in *. by rewrite ob_get_set_ne in Hx by congruence. }
  destruct (ob_get last id) as [b|] eqn:Eg.
  - assert (Hid : ob_has next id = false) by (destruct (ob_has next id) eqn:E; [apply Hnx in E; congruence|done]).
    specialize (IH ids (ob_delete last id) (ob_set next id (Some b)) (order ++ [Seen b])).
    destruct (locate items _ _ _) as [[e l]|x]; [apply IH|apply (Hend (Some b) Hid), IH]; try done; try (by apply ob_wf_delete).
    all: try (intros id' b'; destruct (decide (id' = id)) as [->|Hne]; [by rewrite ob_get_delete_eq|rewrite ob_get_delete_ne by congruence; apply Hsub]).
    all: try (apply Hnext; [intros id' Hne; apply ob_get_delete_ne; congruence|by apply ob_get_delete_eq]).
    all: intros id'; unfold restore; rewrite fold_left_app; cbn; fold (restore order (ob_delete last id)); rewrite (H0 id b (Hsub id b Eg));
      (destruct (decide (id' = id)) as [->|Hne]; [rewrite ob_get_set_eq; symmetry; by apply Hsub|rewrite ob_get_set_ne by congruence;
        rewrite <- Hres; apply restore_ext, ob_get_delete_ne; congruence]).
  - destruct (ob_has next id) eqn:Ex.
    + split_and!; [done|by apply restore_wf|done].
    + specialize (IH ids last (ob_set next id None) (order ++ [Fresh id])).
      destruct (locate items _ _ _) as [[e l]|x]; [apply IH|apply (Hend None eq_refl), IH]; try done.
      all: try (by apply Hnext).
      all: intros id'; unfold restore; rewrite fold_left_app; cbn; apply Hres.
Qed.

(** ** Removing *)

Definition removal (last : jsobj block) (st : repeater) (k : jstr) : repeater :=
  match ob_get last k with Some b => remove_block b st | None => st end.

Lemma filter_mid (ks : list jstr) L1 (b : block) L2 :
  NoDup (map b_id (L1 ++ b :: L2)) -> b_id b ∈ ks ->
  filter (fun x => b_id x ∉ ks) (L1 ++ b :: L2) = filter (fun x => b_id x ∉ ks) (L1 ++ L2).
Proof. intros Hn Hb. rewrite !filter_app. f_equal. by rewrite filter_cons_False by (intros H; by apply H). Qed.

Lemma filter_agree {A} (P Q : A -> Prop) `{forall x, Decision (P x)} `{forall x, Decision (Q x)} (l : list A) :
  (forall x, x ∈ l -> P x <-> Q x) -> filter P l = filter Q l.
Proof.
  induction l as [|x l IH]; intros Hl; [done|]. rewrite !filter_cons, IH by (intros; apply Hl; by right).
  specialize (Hl x ltac:(left)). destruct (decide (P x)), (decide (Q x)); tauto.
Qed.

Lemma clones_app A B : clones (A ++ B) = clones A ++ clones B.
Proof. by rewrite map_app, concat_app. Qed.

Lemma remove_names last (ks : list jstr) : forall st cur Q post,
  NoDup ks -> (forall k, k ∈ ks -> exists b, ob_get last k = Some b /\ b_id b = k /\ b ∈ cur) ->
  NoDup (map b_id cur) -> Forall (fun b => b_clone b <> []) cur ->
  r_dom st = Q ++ clones cur ++ post -> NoDup (r_dom st) ->
  let st' := fold_left (removal last) ks st in
  r_dom st' = Q ++ clones (filter (fun b => b_id b ∉ ks) cur) ++ post /\
  r_destroyed st' = r_destroyed st ++ map b_scope (omap (ob_get last) ks) /\
  r_last st' = r_last st /\ r_nodes st' = r_nodes st /\ r_scopes st' = r_scopes st /\ r_shown st' = r_shown st.
Proof.
  induction ks as [|k ks IH]; intros st cur Q post Hk Hin Hc Hcl Hd Hn.
  - cbn. rewrite app_nil_r. split_and!; try done. rewrite list_filter_all; [done|]. apply Forall_forall. intros b _. by intros ?%elem_of_nil.
  - apply NoDup_cons in Hk as [Hk Hks]. destruct (Hin k) as (b & Eb & Ek & Hb); [left|]. subst k.
    apply list_elem_of_split in Hb as (L1 & L2 & ->). cbv zeta. cbn [fold_left omap list_omap].
    replace (removal last st (b_id b)) with (remove_block b st) by (unfold removal; by rewrite Eb). rewrite Eb.
    rewrite clones_app in Hd. cbn [map concat] in Hd.
    assert (Ed : r_dom st = (Q ++ clones L1) ++ b_clone b ++ (clones L2 ++ post)) by (rewrite Hd, <- !app_assoc; done).
    assert (Hbc : b_clone b <> []) by (rewrite Forall_app in Hcl; destruct Hcl as [_ Hcl]; by apply Forall_cons in Hcl as [? _]).
    assert (Er : r_dom (remove_block b st) = Q ++ clones (L1 ++ L2) ++ post).
    { unfold remove_block. cbn. rewrite Ed in Hn |- *. rewrite block_elements by done. rewrite leave_mid by done.
      by rewrite clones_app, <- !app_assoc. }
    destruct (IH (remove_block b st) (L1 ++ L2) Q post) as (H1 & H2 & H3 & H4 & H5 & H6); [done| | | |done| |].
    + intros k Hkin. destruct (Hin k) as (b' & Eb' & Ek' & Hb'); [by right|]. exists b'. split_and!; [done|done|].
      rewrite elem_of_app, elem_of_cons in Hb'. destruct Hb' as [?|[->|?]]; [set_solver| |set_solver]. by subst k.
    + revert Hc. rewrite !map_app. cbn. intros Hc. eapply sublist_NoDup; [exact Hc|]. apply sublist_app; [done|by apply sublist_cons].
    + rewrite Forall_app in *. destruct Hcl as [? Hcl]. by apply Forall_cons in Hcl as [_ ?].
    + rewrite Er. rewrite Hd in Hn. eapply sublist_NoDup; [exact Hn|]. rewrite clones_app, <- !app_assoc.
      apply sublist_app; [done|]. apply sublist_app; [done|]. by apply sublist_inserts_l.
    + rewrite H1, H2, H3, H4, H5, H6. cbn [map r_destroyed r_last r_nodes r_scopes r_shown remove_block]. rewrite <- app_assoc. split_and!; try done.
      rewrite (filter_mid (b_id b :: ks)) by (done || left). f_equal. f_equal. f_equal. f_equal.
      apply filter_agree. intros x Hx. rewrite not_elem_of_cons. split; [|tauto]. intros Hxk. split; [|done].
      intros E. revert Hc. rewrite map_app. cbn. intros Hc. apply NoDup_app in Hc as (_ & Hd1 & Hc2). apply NoDup_cons in Hc2 as [Hc2 _].
      apply elem_of_app in Hx as [Hx|Hx]; apply (list_elem_of_fmap_2 b_id) in Hx; rewrite E in Hx.
      * apply (Hd1 _ Hx). left.
      * by apply Hc2.
Qed.

(** ** Placing *)

Section Place.
Context (template : nat).

(** The blocks that the entries give. *)
Fixpoint made (nodes scopes : nat) (order : list entry) : list block :=
  match order with
  | [] => []
  | Seen b :: order => b :: made nodes scopes order
  | Fresh id :: order => Block id scopes (seq nodes (S template)) :: made (nodes + S template) (S scopes) order
  end.
Definition seen_of (order : list entry) : list block := omap (fun e => match e with Seen b => Some b | Fresh _ => None end) order.
Definition id_of (e : entry) : jstr := match e with Seen b => b_id b | Fresh id => id end.

Lemma made_ids order : forall nodes scopes, map b_id (made nodes scopes order) = map id_of order.
Proof. induction order as [|[b|id] order IH]; intros; cbn; [done| |]; by rewrite IH. Qed.
Lemma made_length order : forall nodes scopes, length (made nodes scopes order) = length order.
Proof. induction order as [|[b|id] order IH]; intros; cbn; [done| |]; by rewrite IH. Qed.

(** One turn: the block follows [prev], wherever it was. *)
Lemma place_seen len i v P prev R1 b R2 post st :
  r_dom st = P ++ prev :: clones (R1 ++ b :: R2) ++ post -> NoDup (r_dom st) -> Forall (fun b => b_clone b <> []) (R1 ++ b :: R2) ->
  place template len i v (Seen b) prev st =
    (b, Repeater (P ++ prev :: b_clone b ++ clones (R1 ++ R2) ++ post) (r_last st) (r_nodes st) (r_scopes st) (r_destroyed st)
                 (<[b_scope b := show len i v]> (r_shown st))).
Proof.
  intros Hd Hn Hc. cbn [place]. f_equal. f_equal. rewrite Hd in Hn |- *. apply Forall_app in Hc as [Hc1 Hc]. apply Forall_cons in Hc as [Hb _].
  assert (Hp : prev ∉ P) by (apply NoDup_app in Hn as (_ & Hx & _); intros Hin; apply (Hx prev Hin); left).
  rewrite next_sibling by done.
  destruct R1 as [|b1 R1].
  - cbn [app map concat]. destruct (b_clone b) as [|c cs] eqn:E; [done|]. cbn. rewrite bool_decide_eq_true_2 by done. cbn. by rewrite <- app_assoc.
  - assert (E : clones ((b1 :: R1) ++ b :: R2) ++ post = clones (b1 :: R1) ++ b_clone b ++ (clones R2 ++ post))
      by (rewrite clones_app; cbn [map concat app]; by rewrite <- !app_assoc).
    rewrite E in Hn |- *. rewrite bool_decide_eq_false_2.
    2: { apply Forall_cons in Hc1 as [Hb1 _]. cbn [map concat] in Hn |- *. destruct (b_clone b1) as [|c1 cs1]; [done|]. cbn [app head].
         destruct (b_clone b) as [|c cs]; [done|]. cbn [getBlockStart hd]. intros [= ->]. apply NoDup_app in Hn as (_ & _ & Hn). cbn [app] in Hn.
         apply NoDup_cons in Hn as [_ Hn]. apply NoDup_cons in Hn as [Hn _]. set_solver. }
    cbn [negb]. assert (E2 : P ++ prev :: clones (b1 :: R1) ++ b_clone b ++ clones R2 ++ post = (P ++ prev :: clones (b1 :: R1)) ++ b_clone b ++ (clones R2 ++ post))
      by by rewrite <- app_assoc.
    rewrite E2 at 1. rewrite block_elements by (done || by rewrite <- E2). rewrite enter_moved by done.
    by rewrite (clones_app (b1 :: R1)), <- !app_assoc.
Qed.

Lemma place_fresh len i v P prev id Y st :
  r_dom st = P ++ prev :: Y -> NoDup (r_dom st) -> Forall (fun n => n < r_nodes st) (r_dom st) ->
  place template len i v (Fresh id) prev st =
    (Block id (r_scopes st) (seq (r_nodes st) (S template)),
     Repeater (P ++ prev :: seq (r_nodes st) (S template) ++ Y) (r_last st) (r_nodes st + S template) (S (r_scopes st)) (r_destroyed st)
              (<[r_scopes st := show len i v]> (r_shown st))).
Proof.
  intros Hd Hn Hf. cbn [place]. rewrite Hd in Hn, Hf |- *. rewrite enter_fresh; [done|].
  assert (Pm : P ++ prev :: seq (r_nodes st) (S template) ++ Y ≡ₚ seq (r_nodes st) (S template) ++ (P ++ prev :: Y))
    by (rewrite !(app_assoc (seq _ _)), (Permutation_app_comm (seq _ _) P), <- !app_assoc; apply Permutation_app_head, Permutation_middle).
  rewrite Pm. apply NoDup_app. split_and!; [apply NoDup_seq| |done].
  intros x Hx%elem_of_seq Hy. rewrite Forall_forall in Hf. specialize (Hf x Hy). cbn in Hf. lia.
Qed.

(** Where the nodes are after all the turns. *)
Lemma place_all_dom len order : forall i vals P prev rem post st next,
  length vals = length order -> seen_of order ≡ₚ rem -> Forall (fun b => b_clone b <> []) rem ->
  r_dom st = P ++ prev :: clones rem ++ post -> NoDup (r_dom st) -> Forall (fun n => n < r_nodes st) (r_dom st) ->
  let st' := (place_all template len i (combine order vals) prev st next).1 in
  let bs := made (r_nodes st) (r_scopes st) order in
  r_dom st' = P ++ prev :: clones bs ++ post /\ NoDup (r_dom st') /\ Forall (fun n => n < r_nodes st') (r_dom st') /\
  Forall (fun b => b_clone b <> []) bs /\ r_scopes st <= r_scopes st' /\ r_destroyed st' = r_destroyed st.
Proof.
  induction order as [|e order IH]; intros i [|v vals] P prev rem post st next Hl Hs Hc Hd Hn Hf; try done.
  { cbn in Hs. symmetry in Hs. apply Permutation_nil_r in Hs. subst rem. cbn. by split_and!. }
  cbn in Hl. injection Hl as Hl. destruct e as [b|id]; cbv zeta; cbn [combine place_all made].
  - cbn in Hs. assert (Hb : b ∈ rem) by (rewrite <- Hs; left). apply list_elem_of_split in Hb as (R1 & R2 & ->).
    rewrite place_seen with (P := P) (R1 := R1) (R2 := R2) (post := post) by done.
    apply Forall_app in Hc as [Hc1 Hc]. apply Forall_cons in Hc as [Hb Hc2].
    destruct (exists_last Hb) as (c & stop & Ec). unfold getBlockEnd. rewrite Ec, List.last_last.
    assert (Pm : P ++ prev :: (c ++ [stop]) ++ clones (R1 ++ R2) ++ post ≡ₚ r_dom st).
    { rewrite Hd, !clones_app. cbn [map concat]. rewrite Ec. apply Permutation_app_head. constructor.
      rewrite !app_assoc. apply Permutation_app_tail. rewrite <- !app_assoc. rewrite !(app_assoc c). apply Permutation_app_swap_app. }
    destruct (IH (S i) vals (P ++ prev :: c) stop (R1 ++ R2) post (Repeater (P ++ prev :: (c ++ [stop]) ++ clones (R1 ++ R2) ++ post)
      (r_last st) (r_nodes st) (r_scopes st) (r_destroyed st) (<[b_scope b := show len i v]> (r_shown st))) next) as (H1 & H2 & H3 & H4 & H5 & H6).
    + done.
    + cbn in Hs. rewrite <- Permutation_middle in Hs. by apply Permutation_cons_inv in Hs.
    + by apply Forall_app.
    + cbn. by rewrite <- !app_assoc.
    + cbn. by rewrite Pm.
    + cbn. by rewrite Pm.
    + split_and!; [|exact H2|exact H3|by constructor|exact H5|exact H6]. rewrite H1. cbn [map concat r_nodes r_scopes]. rewrite Ec.
      by rewrite <- !app_assoc.
  - rewrite place_fresh with (P := P) (Y := clones rem ++ post) by done.
    assert (Ec : seq (r_nodes st) (S template) = seq (r_nodes st) template ++ [r_nodes st + template]) by by rewrite seq_S.
    assert (El : List.last (seq (r_nodes st) (S template)) 0 = r_nodes st + template) by (rewrite Ec; apply List.last_last).
    unfold getBlockEnd. cbn [b_clone]. rewrite El.
    set (new := seq (r_nodes st) (S template)) in *.
    assert (Pm : P ++ prev :: new ++ clones rem ++ post ≡ₚ new ++ r_dom st).
    { rewrite Hd, !(app_assoc new), (Permutation_app_comm new P), <- !app_assoc. apply Permutation_app_head. symmetry.
      rewrite (Permutation_middle new). done. }
    destruct (IH (S i) vals (P ++ prev :: seq (r_nodes st) template) (r_nodes st + template) rem post (Repeater (P ++ prev :: new ++ clones rem ++ post)
      (r_last st) (r_nodes st + S template) (S (r_scopes st)) (r_destroyed st) (<[r_scopes st := show len i v]> (r_shown st)))
      (ob_set next id (Some (Block id (r_scopes st) new)))) as (H1 & H2 & H3 & H4 & H5 & H6); cbn [r_dom r_nodes r_scopes r_destroyed] in *.
    + done.
    + done.
    + done.
    + rewrite Ec. by rewrite <- !app_assoc.
    + rewrite Pm. apply NoDup_app. split_and!; [apply NoDup_seq| |done].
      intros x Hx%elem_of_seq Hy. rewrite Forall_forall in Hf. specialize (Hf x Hy). cbn in Hf. lia.
    + rewrite Pm. apply Forall_app. split; [apply Forall_forall; intros x Hx%elem_of_seq; lia|].
      eapply Forall_impl; [exact Hf|]. cbn. intros. lia.
    + split_and!; [|exact H2|exact H3|by constructor|lia|exact H6]. rewrite H1. cbn [map concat b_clone]. rewrite Ec. by rewrite <- !app_assoc.
Qed.

(** One turn, without the nodes. *)
Lemma place_turn len i v e prev st b st1 : place template len i v e prev st = (b, st1) ->
  r_shown st1 = <[b_scope b := show len i v]> (r_shown st) /\
  (forall order, made (r_nodes st) (r_scopes st) (e :: order) = b :: made (r_nodes st1) (r_scopes st1) order) /\
  b_id b = id_of e /\ match e with Seen b' => b = b' | Fresh _ => True end.
Proof. destruct e as [b'|id]; cbn; by intros [= <- <-]. Qed.

Lemma place_all_shown len order : forall i vals prev st next,
  length vals = length order ->
  let bs := made (r_nodes st) (r_scopes st) order in
  NoDup (map b_scope bs) ->
  let st' := (place_all template len i (combine order vals) prev st next).1 in
  (forall s, s ∉ map b_scope bs -> r_shown st' !! s = r_shown st !! s) /\
  forall j b v, bs !! j = Some b -> vals !! j = Some v -> r_shown st' !! b_scope b = Some (show len (i + j) v).
Proof.
  induction order as [|e order IH]; intros i [|v vals] prev st next Hl bs Hn; try done.
  cbn in Hl. injection Hl as Hl. cbv zeta. cbn [combine place_all]. unfold bs in *. clear bs.
  destruct (place template len i v e prev st) as [b st1] eqn:E. apply place_turn in E as (E1 & E2 & _). rewrite E2 in Hn |- *.
  cbn [map] in *. apply NoDup_cons in Hn as [Hb Hn].
  destruct (IH (S i) vals (getBlockEnd (b_clone b)) st1 (match e with Fresh id => ob_set next id (Some b) | Seen _ => next end) Hl Hn) as [H1 H2].
  split.
  - intros s [Hs Hss]%not_elem_of_cons. rewrite H1, E1 by done. by rewrite lookup_insert_ne by congruence.
  - intros [|j] b' v' Hj Hv; cbn in Hj, Hv.
    + injection Hj as <-. injection Hv as <-. rewrite H1, E1, lookup_insert_eq by done. by rewrite Nat.add_0_r.
    + rewrite (H2 j b' v' Hj Hv). by rewrite Nat.add_succ_comm.
Qed.

(** The map of the blocks by their names. *)
Lemma place_all_next len order : forall i vals prev st next,
  length vals = length order -> NoDup (map id_of order) -> ob_wf next ->
  (forall b, Seen b ∈ order -> ob_get next (b_id b) = Some (Some b)) ->
  let next' := (place_all template len i (combine order vals) prev st next).2 in
  ob_wf next' /\ (forall id, id ∉ map id_of order -> ob_get next' id = ob_get next id) /\
  forall b, b ∈ made (r_nodes st) (r_scopes st) order -> ob_get next' (b_id b) = Some (Some b).
Proof.
  induction order as [|e order IH]; intros i [|v vals] prev st next Hl Hn Hw Hs; try done.
  { cbn. split_and!; [done|done|]. intros b Hb. by apply elem_of_nil in Hb. }
  cbn in Hl. injection Hl as Hl. cbv zeta. cbn [combine place_all].
  destruct (place template len i v e prev st) as [b st1] eqn:E. apply place_turn in E as (_ & E2 & E3 & E4). rewrite E2.
  cbn [map] in Hn. apply NoDup_cons in Hn as [Hid Hn].
  set (next1 := match e with Fresh id => ob_set next id (Some b) | Seen _ => next end).
  assert (Hw1 : ob_wf next1) by (unfold next1; destruct e; [done|by apply ob_wf_set]).
  assert (Hne : forall id, id <> id_of e -> ob_get next1 id = ob_get next id)
    by (intros id Hne; unfold next1; destruct e; [done|]; cbn in Hne; by rewrite ob_get_set_ne by congruence).
  assert (Hb1 : ob_get next1 (id_of e) = Some (Some b)).
  { unfold next1. destruct e as [b'|id]; cbn; [subst b'; apply Hs; left|by rewrite ob_get_set_eq]. }
  destruct (IH (S i) vals (getBlockEnd (b_clone b)) st1 next1 Hl Hn Hw1) as (H1 & H2 & H3).
  { intros b' Hb'. rewrite Hne; [apply Hs; by right|]. intros Eb. apply Hid. rewrite <- Eb.
    change (b_id b') with (id_of (Seen b')). by apply (list_elem_of_fmap_2 id_of). }
  split_and!; [exact H1| |].
  - intros id [Hx Hxs]%not_elem_of_cons. by rewrite H2, Hne.
  - intros b' [->|Hb']%elem_of_cons; [|by apply H3]. rewrite E3, H2 by done. done.
Qed.
End Place.

Lemma blocks_of_names next id : id ∈ ob_names (blocks_of next) -> id ∈ ob_names next.
Proof.
  induction next as [|[k [b|]] next IH]; cbn; [done| |].
  - rewrite !elem_of_cons. intros [->|H]; [by left|right; by apply IH].
  - intros H. right. by apply IH.
Qed.
Lemma blocks_of_wf next : ob_wf next -> ob_wf (blocks_of next).
Proof.
  unfold ob_wf. induction next as [|[k [b|]] next IH]; cbn; [done| |]; intros [Hk Hn]%NoDup_cons; [|by apply IH].
  apply NoDup_cons. split; [|by apply IH]. by intros ?%blocks_of_names.
Qed.
Lemma blocks_of_get next id : ob_wf next -> ob_get (blocks_of next) id = mjoin (ob_get next id).
Proof.
  unfold ob_wf. induction next as [|[k ob] next IH]; [done|]. cbn. intros [Hk Hn]%NoDup_cons. specialize (IH Hn).
  destruct ob as [b|]; cbn; destruct (jeqb id k) eqn:E; try done.
  apply jeqb_true in E as ->. change (omap _ next) with (blocks_of next). apply ob_get_None. intros Hin. apply Hk. by apply blocks_of_names.
Qed.
