(* ===== verification/RepeatRun.v ===== *)
(** * What a call of ngRepeat leaves *)

From S2P Require Import Prelude JsString JsObject Json Heap Repeat RepeatFacts.

Section Made.
Context (template : nat).

Lemma made_seen b order : forall n s, Seen b ∈ order -> b ∈ made template n s order.
Proof.
  induction order as [|[b'|id] order IH]; intros n s; [by intros ?%elem_of_nil| |]; cbn [made]; rewrite !elem_of_cons.
  - intros [[= ->]|H]; [by left|right; by apply IH].
  - intros [?|H]; [done|right; by apply IH].
Qed.
Lemma made_in b order : forall n s, b ∈ made template n s order ->
  Seen b ∈ order \/ (Fresh (b_id b) ∈ order /\ s <= b_scope b /\ length (b_clone b) = S template).
Proof.
  induction order as [|[b'|id] order IH]; intros n s; [by intros ?%elem_of_nil| |]; cbn [made]; rewrite !elem_of_cons.
  - intros [->|H]; [by left; left|]. destruct (IH _ _ H) as [?|(? & ? & ?)]; [left; by right|right; split_and!; [by right|lia|done]].
  - intros [->|H]; [right; cbn; split_and!; [by left|lia|by rewrite length_seq]|].
    destruct (IH _ _ H) as [?|(? & ? & ?)]; [left; by right|right; split_and!; [by right|lia|done]].
Qed.

Lemma made_scopes order : forall n s,
  NoDup (map b_scope (seen_of order)) -> Forall (fun b => b_scope b < s) (seen_of order) -> NoDup (map b_scope (made template n s order)).
Proof.
  assert (Hseen : forall b, Seen b ∈ order -> b ∈ seen_of order).
  { intros b Hb. apply list_elem_of_omap. exists (Seen b). done. }
  induction order as [|[b|id] order IH]; intros n s Hn Hf; cbn [made map]; [constructor| |].
  - cbn in Hn, Hf. apply NoDup_cons in Hn as [Hb Hn]. apply Forall_cons in Hf as [Hbs Hf]. apply NoDup_cons. split.
    + rewrite list_elem_of_fmap. intros (b' & E & Hb'). apply made_in in Hb' as [Hs|(_ & Hs & _)]; [|lia].
      apply Hb. rewrite E. apply (list_elem_of_fmap_2 b_scope). apply list_elem_of_omap. by exists (Seen b').
    + apply IH; [|done|done]. intros b' Hb'. apply list_elem_of_omap. by exists (Seen b').
  - cbn in Hn, Hf. apply NoDup_cons. cbn [b_scope]. split.
    + rewrite list_elem_of_fmap. intros (b' & E & Hb'). apply made_in in Hb' as [Hs|(_ & Hs & _)]; [|lia].
      rewrite Forall_forall in Hf. assert (b_scope b' < s); [|lia]. apply Hf. apply list_elem_of_omap. by exists (Seen b').
    + apply IH; [|done|eapply Forall_impl; [exact Hf|cbn; lia]]. intros b' Hb'. apply list_elem_of_omap. by exists (Seen b').
Qed.

Lemma place_all_scopes len order : forall i vals prev st next,
  length vals = length order -> Forall (fun b => b_scope b < r_scopes st) (seen_of order) ->
  let st' := (place_all template len i (combine order vals) prev st next).1 in
  r_scopes st <= r_scopes st' /\ Forall (fun b => b_scope b < r_scopes st') (made template (r_nodes st) (r_scopes st) order).
Proof.
  induction order as [|e order IH]; intros i [|v vals] prev st next Hl Hf; try done. injection Hl as Hl. cbv zeta. cbn [combine place_all].
  destruct (place template len i v e prev st) as [b st1] eqn:E. assert (Et := E). apply place_turn in Et as (_ & E2 & _). rewrite E2.
  assert (Hs : r_scopes st <= r_scopes st1 /\ b_scope b < r_scopes st1).
  { destruct e as [b'|id]; cbn in E; injection E as <- <-; cbn; [|lia]. cbn in Hf. apply Forall_cons in Hf as [? _]. lia. }
  destruct (IH (S i) vals (getBlockEnd (b_clone b)) st1 (match e with Fresh id => ob_set next id (Some b) | Seen _ => next end) Hl) as [H1 H2].
  { assert (Hf' : Forall (fun b => b_scope b < r_scopes st) (seen_of order)) by (destruct e; cbn in Hf; [by apply Forall_cons in Hf as [_ ?]|done]).
    eapply Forall_impl; [exact Hf'|]. cbn. lia. }
  split; [lia|]. constructor; [lia|done].
Qed.
End Made.

(** ** The state between the calls *)

Record laid (anchor : nat) (pre post : list nat) (st : repeater) (blocks : list block) : Prop := Laid {
  laid_dom : r_dom st = pre ++ anchor :: clones blocks ++ post;
  laid_nodup : NoDup (r_dom st);
  laid_nodes : Forall (fun n => n < r_nodes st) (r_dom st);
  laid_clones : Forall (fun b => b_clone b <> []) blocks;
  laid_ids : NoDup (map b_id blocks);
  laid_wf : ob_wf (r_last st);
  laid_last : forall id b, ob_get (r_last st) id = Some b <-> b ∈ blocks /\ b_id b = id;
  laid_scopes : NoDup (map b_scope blocks);
  laid_made : Forall (fun b => b_scope b < r_scopes st) blocks
}.

Lemma omap_nodup (get : jstr -> option block) ids : (forall id b, get id = Some b -> b_id b = id) -> NoDup ids -> NoDup (omap get ids).
Proof.
  intros Hg. induction ids as [|id ids IH]; [constructor|]. intros [Hid Hn]%NoDup_cons. cbn. destruct (get id) as [b|] eqn:E; [|by apply IH].
  apply NoDup_cons. split; [|by apply IH]. rewrite list_elem_of_omap. intros (id' & Hid' & E'). apply Hg in E, E'. congruence.
Qed.

Lemma deleted_get ids : forall (last : jsobj block) id, ob_wf last -> ob_wf (fold_left ob_delete ids last) /\
  ob_get (fold_left ob_delete ids last) id = if decide (id ∈ ids) then None else ob_get last id.
Proof.
  induction ids as [|i ids IH]; intros last id Hw; [done|]. cbn [fold_left]. destruct (IH (ob_delete last i) id) as [H1 ->]; [by apply ob_wf_delete|].
  split; [done|]. destruct (decide (id = i)) as [->|Hne].
  - rewrite ob_get_delete_eq by done. rewrite (decide_True (P := i ∈ i :: ids)) by left. by destruct (decide _).
  - rewrite ob_get_delete_ne by congruence. destruct (decide (id ∈ ids)); [by rewrite decide_True by (by right)|].
    rewrite decide_False; [done|]. by intros [?|?]%elem_of_cons.
Qed.

Lemma seen_entries last ids : seen_of (map (entry_of last) ids) = omap (ob_get last) ids.
Proof.
  unfold seen_of. induction ids as [|id l IH]; [done|]. cbn. unfold entry_of at 1. destruct (ob_get last id); cbn; [f_equal|]; exact IH.
Qed.

Lemma forall_filter {A} (P Q : A -> Prop) `{forall x, Decision (Q x)} (l : list A) : Forall P l -> Forall P (filter Q l).
Proof. rewrite !Forall_forall. intros Hf x [_ Hx]%list_elem_of_filter. by apply Hf. Qed.
Lemma clones_sublist (P : block -> Prop) `{forall b, Decision (P b)} bs : sublist (clones (filter P bs)) (clones bs).
Proof.
  induction bs as [|b bs IH]; [constructor|]. rewrite filter_cons. cbn [map concat]. destruct (decide (P b)); cbn [map concat].
  - by apply sublist_app.
  - by apply sublist_inserts_l.
Qed.

Section Laid.
Context (anchor template : nat) (pre post : list nat) (st : repeater) (blocks : list block) (ids : list jstr).
Context (Hlaid : laid anchor pre post st blocks) (Hids : NoDup ids).

Let last' := fold_left ob_delete ids (r_last st).
Let kept := filter (fun b => b_id b ∈ ids) blocks.
Let gone := filter (fun b => b_id b ∉ ids) blocks.
Let order := map (entry_of (r_last st)) ids.

Lemma last_ids id b : ob_get (r_last st) id = Some b -> b_id b = id.
Proof. intros H. by apply (laid_last _ _ _ _ _ Hlaid) in H as [_ ?]. Qed.
Lemma order_ids : map id_of order = ids.
Proof.
  unfold order. rewrite map_map. rewrite <- (map_id ids) at 2. apply map_ext. intros id. unfold entry_of.
  destruct (ob_get (r_last st) id) as [b|] eqn:E; [|done]. by apply last_ids in E.
Qed.
Lemma order_seen : seen_of order = omap (ob_get (r_last st)) ids.
Proof. apply seen_entries. Qed.
Lemma blocks_nodup : NoDup blocks.
Proof. apply (NoDup_fmap_1 b_id), (laid_ids _ _ _ _ _ Hlaid). Qed.
Lemma order_kept : seen_of order ≡ₚ kept.
Proof.
  rewrite order_seen. apply NoDup_Permutation; [apply omap_nodup; [exact last_ids|done]|apply NoDup_filter, blocks_nodup|].
  intros b. unfold kept. rewrite list_elem_of_omap, list_elem_of_filter. split.
  - intros (id & Hid & E). apply (laid_last _ _ _ _ _ Hlaid) in E as [? <-]. done.
  - intros [Hid Hb]. exists (b_id b). split; [done|]. by apply (laid_last _ _ _ _ _ Hlaid).
Qed.

(** The second loop takes the other blocks out. *)
Lemma removed_state : let st1 := fold_left (removal last') (enum_names last') st in
  r_dom st1 = pre ++ anchor :: clones kept ++ post /\ r_destroyed st1 ≡ₚ r_destroyed st ++ map b_scope gone /\
  r_nodes st1 = r_nodes st /\ r_scopes st1 = r_scopes st /\ r_shown st1 = r_shown st.
Proof.
  destruct (deleted_get ids (r_last st) (js "") (laid_wf _ _ _ _ _ Hlaid)) as [Hw _]. fold last' in Hw.
  assert (Hget : forall id, ob_get last' id = if decide (id ∈ ids) then None else ob_get (r_last st) id)
    by (intros id; by apply deleted_get, (laid_wf _ _ _ _ _ Hlaid)).
  assert (Hk : NoDup (enum_names last')) by (rewrite enum_names_perm; exact Hw).
  assert (Hin : forall id b, ob_get last' id = Some b <-> b ∈ gone /\ b_id b = id).
  { intros id b. rewrite Hget. unfold gone. rewrite list_elem_of_filter. destruct (decide (id ∈ ids)).
    - split; [done|]. intros [[Hx _] E]. by rewrite E in Hx.
    - rewrite (laid_last _ _ _ _ _ Hlaid). split; [intros [? <-]; done|by intros [[_ ?] ?]]. }
  assert (Hks : forall b, b ∈ blocks -> b_id b ∉ enum_names last' <-> b_id b ∈ ids).
  { intros b Hb. rewrite enum_names_perm, ob_get_None, Hget. destruct (decide (b_id b ∈ ids)); [done|]. split; [|done].
    rewrite (proj2 (laid_last _ _ _ _ _ Hlaid (b_id b) b)) by done. done. }
  destruct (remove_names last' (enum_names last') st blocks (pre ++ [anchor]) post) as (H1 & H2 & _ & H4 & H5 & H6).
  - done.
  - intros k Hkin. rewrite enum_names_perm, ob_get_names in Hkin. destruct Hkin as [b Eb]. exists b. split; [done|].
    apply Hin in Eb as [Hg <-]. split; [done|]. by apply list_elem_of_filter in Hg as [_ ?].
  - apply (laid_ids _ _ _ _ _ Hlaid).
  - apply (laid_clones _ _ _ _ _ Hlaid).
  - rewrite <- app_assoc. apply (laid_dom _ _ _ _ _ Hlaid).
  - apply (laid_nodup _ _ _ _ _ Hlaid).
  - cbv zeta. rewrite H1, H2, H4, H5, H6. split_and!; try done.
    + rewrite <- app_assoc. cbn [app]. by rewrite (filter_agree _ (fun b => b_id b ∈ ids) blocks Hks).
    + apply Permutation_app_head, Permutation_map, NoDup_Permutation.
      * apply omap_nodup; [|done]. intros id b Eb. by apply Hin in Eb as [_ ?].
      * apply NoDup_filter, blocks_nodup.
      * intros b. rewrite list_elem_of_omap. split; [by intros (id & _ & Eb%Hin); tauto|]. intros Hb. exists (b_id b).
        assert (Eb : ob_get last' (b_id b) = Some b) by by apply Hin. split; [|done]. rewrite enum_names_perm, ob_get_names. by exists b.
Qed.

(** What the blocks are after a call. *)
Definition next_blocks : list block := made template (r_nodes st) (r_scopes st) order.

Lemma next_kept b : b ∈ blocks -> b_id b ∈ ids -> b ∈ next_blocks.
Proof.
  intros Hb Hid. apply made_seen. unfold order. apply list_elem_of_fmap. exists (b_id b). split; [|done].
  unfold entry_of. rewrite (proj2 (laid_last _ _ _ _ _ Hlaid (b_id b) b)) by done. done.
Qed.
Lemma next_new b : b ∈ next_blocks -> b ∉ blocks -> r_scopes st <= b_scope b /\ length (b_clone b) = S template.
Proof.
  intros Hb Hn. apply made_in in Hb as [Hs|(_ & ? & ?)]; [|done]. exfalso. apply Hn.
  unfold order in Hs. apply list_elem_of_fmap in Hs as (id & E & _). unfold entry_of in E.
  destruct (ob_get (r_last st) id) as [b'|] eqn:Eg; [|done]. injection E as ->. by apply (laid_last _ _ _ _ _ Hlaid) in Eg as [? _].
Qed.
Lemma next_ids : map b_id next_blocks = ids.
Proof. unfold next_blocks. by rewrite made_ids, order_ids. Qed.
Lemma kept_scopes : NoDup (map b_scope (seen_of order)) /\ Forall (fun b => b_scope b < r_scopes st) (seen_of order).
Proof.
  rewrite order_kept. unfold kept. split; [eapply sublist_NoDup; [apply (laid_scopes _ _ _ _ _ Hlaid)|apply (fmap_sublist b_scope), sublist_filter]|].
  apply forall_filter, (laid_made _ _ _ _ _ Hlaid).
Qed.
Lemma kept_clones : Forall (fun b => b_clone b <> []) kept.
Proof. apply forall_filter, (laid_clones _ _ _ _ _ Hlaid). Qed.

Lemma located_get (l : list jstr) : forall (next : jsobj (option block)), NoDup l ->
  ob_wf next -> let n := fold_left (fun n id => ob_set n id (ob_get (r_last st) id)) l next in
  ob_wf n /\ forall id, ob_get n id = if decide (id ∈ l) then Some (ob_get (r_last st) id) else ob_get next id.
Proof.
  induction l as [|i l IH]; intros next Hn Hw; [done|]. apply NoDup_cons in Hn as [Hi Hn]. cbn [fold_left].
  destruct (IH (ob_set next i (ob_get (r_last st) i)) Hn) as [H1 H2]; [by apply ob_wf_set|]. split; [done|]. intros id. rewrite H2.
  destruct (decide (id = i)) as [->|Hne].
  - rewrite (decide_False (P := i ∈ l)) by done. rewrite ob_get_set_eq. by rewrite decide_True by left.
  - rewrite ob_get_set_ne by congruence. destruct (decide (id ∈ l)); [by rewrite decide_True by (by right)|].
    rewrite decide_False; [done|]. by intros [?|?]%elem_of_cons.
Qed.

Lemma action_laid items : tracked items ids ->
  exists st', ngRepeatAction anchor template items st = (Ok tt, st') /\ laid anchor pre post st' next_blocks /\
    r_destroyed st' ≡ₚ r_destroyed st ++ map b_scope gone /\
    forall j b v, next_blocks !! j = Some b -> map snd items !! j = Some v -> r_shown st' !! b_scope b = Some (show (length items) j v).
Proof.
  intros Ht. unfold ngRepeatAction.
  rewrite (locate_ok items ids) by (done || exact (laid_wf _ _ _ _ _ Hlaid)). fold last' order. cbn [app].
  destruct removed_state as (D1 & D2 & D3 & D4 & D5). fold (removal last').
  set (st1 := fold_left (removal last') (enum_names last') st) in *.
  assert (Hlen : length (map snd items) = length order).
  { unfold order. pose proof (f_equal length (proj1 Ht)) as E. rewrite !length_map in *. done. }
  assert (Hsub : sublist (r_dom st1) (r_dom st)).
  { rewrite D1, (laid_dom _ _ _ _ _ Hlaid). apply sublist_app; [done|]. apply sublist_skip. apply sublist_app; [|done]. apply clones_sublist. }
  destruct (located_get ids [] Hids ltac:(constructor)) as [N1 N2].
  set (next1 := fold_left _ ids []) in *.
  destruct (place_all_dom template (length items) order 0 (map snd items) pre anchor kept post st1 next1) as (P1 & P2 & P3 & P4 & P5 & P6); try done.
  { apply order_kept. } { apply kept_clones. } { eapply sublist_NoDup; [apply (laid_nodup _ _ _ _ _ Hlaid)|done]. }
  { rewrite D3. apply Forall_forall. intros x Hx. pose proof (laid_nodes _ _ _ _ _ Hlaid) as Hf. rewrite Forall_forall in Hf.
    apply Hf. eapply elem_of_submseteq; [exact Hx|by apply sublist_submseteq]. }
  destruct kept_scopes as [K1 K2].
  destruct (place_all_scopes template (length items) order 0 (map snd items) anchor st1 next1 Hlen) as [_ S2]; [by rewrite D4|].
  destruct (place_all_shown template (length items) order 0 (map snd items) anchor st1 next1 Hlen) as [_ W2].
  { rewrite D3, D4. by apply made_scopes. }
  destruct (place_all_next template (length items) order 0 (map snd items) anchor st1 next1 Hlen) as (M1 & M2 & M3).
  { by rewrite order_ids. } { done. }
  { intros b Hb. unfold order in Hb. apply list_elem_of_fmap in Hb as (id & E & Hid). unfold entry_of in E.
    destruct (ob_get (r_last st) id) as [b'|] eqn:Eg; [|done]. injection E as ->. rewrite (last_ids _ _ Eg), N2, decide_True by done. by rewrite Eg. }
  rewrite D3, D4 in *. fold next_blocks in *.
  destruct (place_all _ _ _ _ _ _ _) as [st2 next2]. cbn [fst snd] in *. eexists. split; [done|]. split_and!.
  - constructor; cbn [set_last r_dom r_nodes r_scopes r_last]; try done.
    + by rewrite next_ids.
    + by apply blocks_of_wf.
    + intros id b. rewrite blocks_of_get by done. split.
      * intros E. destruct (ob_get next2 id) as [[b'|]|] eqn:Eg; [|done|done]. cbn in E. injection E as ->. rewrite order_ids in M2.
        destruct (decide (id ∈ ids)) as [Hid|Hid]; [|rewrite M2, N2, decide_False in Eg by done; done].
        rewrite <- next_ids in Hid. apply list_elem_of_fmap in Hid as (b2 & -> & Hb2). rewrite (M3 b2 Hb2) in Eg. by injection Eg as ->.
      * intros [Hb <-]. by rewrite (M3 b Hb).
    + by apply made_scopes.
  - cbn. by rewrite P6.
  - exact W2.
Qed.
End Laid.

(** Two items with one name: the exception, and everything as it was. *)
Lemma action_dupes anchor template pre post st blocks items ids : laid anchor pre post st blocks -> tracked items ids -> ~ NoDup ids ->
  exists last, ngRepeatAction anchor template items st = (Throw dupes_error, set_last last st) /\
    laid anchor pre post (set_last last st) blocks.
Proof.
  intros Hl Ht Hn. unfold ngRepeatAction.
  pose proof (locate_cases (r_last st) items ids (r_last st) [] [] Ht (laid_wf _ _ _ _ _ Hl) (last_ids _ _ _ _ _ Hl)
    (fun _ _ H => H) (fun _ => eq_refl)) as H.
  destruct (locate items (r_last st) [] []) as [[e l]|x]; [|by destruct Hn; apply H].
  destruct H as (-> & Hw & Hg); [done|]. exists l. split; [done|]. destruct Hl. by constructor; try done; cbn; intros; rewrite Hg.
Qed.

(** C35.  Called with items whose tracking names are distinct, ngRepeat leaves after its comment, in the order of the
    items, one block for each: the blocks that were there for these names with their own elements and scopes, the others
    new, the siblings before and after untouched; the blocks of other names leave the page and their scopes are
    destroyed, each once; each scope shows the value, the index and the flags of its item.  When two items have one
    name it throws ['dupes'] and changes neither the page nor the blocks, and the next call starts from them. *)
Theorem repeat_action anchor template pre post st blocks items ids :
  laid anchor pre post st blocks -> tracked items ids ->
  if decide (NoDup ids) then
    exists st' blocks', ngRepeatAction anchor template items st = (Ok tt, st') /\ laid anchor pre post st' blocks' /\
      map b_id blocks' = ids /\
      (forall b, b ∈ blocks -> b_id b ∈ ids -> b ∈ blocks') /\
      (forall b, b ∈ blocks' -> b ∉ blocks -> r_scopes st <= b_scope b /\ length (b_clone b) = S template) /\
      r_destroyed st' ≡ₚ r_destroyed st ++ map b_scope (filter (fun b => b_id b ∉ ids) blocks) /\
      forall j b v, blocks' !! j = Some b -> map snd items !! j = Some v -> r_shown st' !! b_scope b = Some (show (length items) j v)
  else
    exists last, ngRepeatAction anchor template items st = (Throw dupes_error, set_last last st) /\
      laid anchor pre post (set_last last st) blocks.
Proof.
  intros Hl Ht. destruct (decide (NoDup ids)) as [Hn|Hn]; [|by apply action_dupes with (ids := ids)].
  destruct (action_laid anchor template pre post st blocks ids Hl Hn items Ht) as (st' & E & Hl' & Hd & Hs).
  exists st', (next_blocks template st ids). split_and!; try done.
  - eapply next_ids; done.
  - intros b. by eapply next_kept.
  - intros b. by eapply next_new.
Qed.

(** Two rows in the page, [b] gone, [c] before [a]. *)
Definition sample_repeater : repeater :=
  Repeater [0; 1; 3; 4; 5; 6; 2] [(js "a", Block (js "a") 0 [3; 4]); (js "b", Block (js "b") 1 [5; 6])] 7 2 [] ∅.
Definition sample_items : collection := [(Ok (js "c"), HNull); (Ok (js "a"), HNull)].

Theorem repeat_action_witness :
  laid 1 [0] [2] sample_repeater [Block (js "a") 0 [3; 4]; Block (js "b") 1 [5; 6]] /\
  tracked sample_items [js "c"; js "a"] /\
  exists st' blocks', ngRepeatAction 1 1 sample_items sample_repeater = (Ok tt, st') /\ laid 1 [0] [2] st' blocks' /\
    map b_id blocks' = [js "c"; js "a"] /\ r_dom st' = [0; 1; 7; 8; 3; 4; 2].
Proof.
  assert (Hl : laid 1 [0] [2] sample_repeater [Block (js "a") 0 [3; 4]; Block (js "b") 1 [5; 6]]).
  { constructor; cbn; try done; try (by refine (bool_decide_unpack _ _); vm_compute).
    intros id b. rewrite !elem_of_cons, elem_of_nil. destruct (jeqb id (js "a")) eqn:Ea.
    { apply jeqb_true in Ea as ->. split; [intros [= <-]; tauto|]. by intros [[->|[->|[]]] ?]. }
    destruct (jeqb id (js "b")) eqn:Eb.
    { apply jeqb_true in Eb as ->. split; [intros [= <-]; tauto|]. by intros [[->|[->|[]]] ?]. }
    split; [done|]. apply jeqb_false in Ea, Eb. intros [[->|[->|[]]] E]; cbn in E; congruence. }
  assert (Ht : tracked sample_items [js "c"; js "a"]).
  { split; [done|]. by refine (bool_decide_unpack _ _); vm_compute. }
  split_and!; [exact Hl|exact Ht|].
  pose proof (repeat_action 1 1 [0] [2] sample_repeater _ sample_items [js "c"; js "a"] Hl Ht) as H.
  rewrite decide_True in H by (by refine (bool_decide_unpack _ _); vm_compute).
  destruct H as (st' & bs & E & L & I & _). exists st', bs. split_and!; [exact E|exact L|exact I|].
  assert (E2 : r_dom (ngRepeatAction 1 1 sample_items sample_repeater).2 = [0; 1; 7; 8; 3; 4; 2]) by reflexivity.
  by rewrite E in E2.
Defined.
