(* ===== verification/Injector.v ===== *)
(** * The injector (angular.js, annotate, angular.module, createInjector)

    The functions of an application are interaction trees: what they call of the injector they are in, and how they
    go on with what they get.  A value is undefined, a primitive or an object with an identity; the only property of
    objects that the injector looks at is [$get].  Names are not members of [Object.prototype]. *)

From stdpp Require Import gmap.
From S2P Require Import Prelude JsString JsObject JsNumber.

(** ** annotate *)

(** An element of [$inject]: a text, or not. *)
Inductive token : Type := Tok (s : jstr) | NotText.

(** What a function declares: [$inject] or the array it is in, or only its source text and [length]. *)
Inductive declared : Type := Listed (tokens : list token) | Source (length : nat) (text : jstr).

Definition is_line_end (c : N) : bool := bool_decide (c ∈ [10; 13; 8232; 8233]%N).

(** The text after the end of the line, from it; the text after the end of the comment. *)
Fixpoint skip_line (s : jstr) : jstr :=
  match s with c :: s' => if is_line_end c then s else skip_line s' | [] => [] end.
Fixpoint skip_block (s : jstr) : option jstr :=
  match s with
  | c :: s' => match s' with
               | d :: s'' => if ((c =? 42) && (d =? 47))%N then Some s'' else skip_block s'
               | [] => None
               end
  | [] => None
  end.

(** [replace(STRIP_COMMENTS, '')] (fuel: the length of the text). *)
Fixpoint strip_from (fuel : nat) (s : jstr) : jstr :=
  match fuel, s with
  | S fuel, c :: s' =>
      if (c =? 47)%N then
        match s' with
        | d :: s'' =>
            if (d =? 47)%N then strip_from fuel (skip_line s'')
            else if (d =? 42)%N then match skip_block s'' with Some rest => strip_from fuel rest | None => c :: strip_from fuel s' end
            else c :: strip_from fuel s'
        | [] => [c]
        end
      else c :: strip_from fuel s'
  | _, _ => []
  end.
Definition strip_comments (s : jstr) : jstr := strip_from (length s) s.

(** [FN_ARGS] at the start of a line: the text between the parentheses. *)
Definition fn_args_here (s : jstr) : option jstr :=
  if starts_with (js "function") s then
    match span (fun c => negb (c =? 40)%N) (drop 8 s) with
    | (_, _ :: s) => match span (fun c => negb (c =? 41)%N) (skip_space s) with
                     | (args, _ :: _) => Some args
                     | _ => None
                     end
    | _ => None
    end
  else None.
Fixpoint fn_args (bol : bool) (s : jstr) : option jstr :=
  match (if bol then fn_args_here s else None) with
  | Some args => Some args
  | None => match s with [] => None | c :: s' => fn_args (is_line_end c) s' end
  end.

(** [FN_ARG]: the name, between spaces and perhaps two underscores. *)
Definition fn_arg (s : jstr) : option jstr :=
  let name := trim s in
  match name with
  | [] => None
  | c :: rest =>
      if existsb is_js_space name then None
      else match rest with
           | _ :: _ :: _ => if ((c =? 95) && (List.last rest 0 =? 95))%N then Some (removelast rest) else Some name
           | _ => Some name
           end
  end.

Inductive inj_error : Type :=
| Unpr (path : list jstr)         (** unknown provider, with the path that asks for it *)
| Cdep (path : list jstr)         (** circular dependency *)
| Itkn | Areq | TypeError
| Pget (name : jstr)
| Badname (context : jstr)
| Nomod (name : jstr)
| Modulerr (name : option jstr) (inner : inj_error)
| AppError (n : nat).

Definition annotate (d : declared) : result inj_error (list token) :=
  match d with
  | Listed tokens => Ok tokens
  | Source 0 _ => Ok []
  | Source _ text =>
      match fn_args true (strip_comments text) with
      | None => Throw TypeError
      | Some args => Ok (map Tok (omap fn_arg (split (chr ",") args)))
      end
  end.

(** ** Functions of the application *)

Inductive value : Type := Undef | Prim (n : nat) | Obj (n : nat).
Inductive side : Type := Provs | Insts.          (** [providerInjector], [instanceInjector] *)
Abbreviation answer := (result inj_error value).

Inductive act : Type :=
| Ret (v : value)
| Raise (e : inj_error)
| Get (on : side) (name : jstr) (k : answer -> act)
| Invoke (on : side) (f : fn) (self : value) (locals : jsobj value) (k : answer -> act)
| Instantiate (on : side) (f : fn) (locals : jsobj value) (k : answer -> act)
| Has (on : side) (name : jstr) (k : bool -> act)
| Provide (name : jstr) (what : supplied) (k : answer -> act)
| NewObject (k : value -> act)
| SetGet (v : value) (f : fn) (k : act)          (** [v.$get = f] *)
with fn : Type :=
| Fn (d : declared) (body : value -> list value -> act)
| NotFn                                          (** what is not a function, but neither undefined nor null *)
with supplied : Type :=
| AProvider (p : fn) | AnObject (v : value)      (** [provider] of a function, of an object *)
| AFactory (f : fn) | AService (f : fn) | AValue (v : value) | AConstant (v : value) | ADecorator (f : fn).

#[export] Instance value_eq_dec : EqDecision value.
Proof. solve_decision. Defined.

(** ** State *)

Inductive slot : Type := Instantiating | Is (v : value).

Record injector : Type := Injector {
  i_provs : gmap jstr slot;       (** [providerCache] *)
  i_insts : gmap jstr slot;       (** [instanceCache] *)
  i_gets : gmap nat fn;           (** the property [$get] of objects *)
  i_path : list jstr;             (** [path] *)
  i_next : nat                    (** the objects made so far *)
}.

Definition cache (on : side) (st : injector) : gmap jstr slot := match on with Provs => i_provs st | Insts => i_insts st end.
Definition set_cache (on : side) (c : gmap jstr slot) (st : injector) : injector :=
  match on with
  | Provs => Injector c (i_insts st) (i_gets st) (i_path st) (i_next st)
  | Insts => Injector (i_provs st) c (i_gets st) (i_path st) (i_next st)
  end.
Definition set_path (path : list jstr) (st : injector) : injector := Injector (i_provs st) (i_insts st) (i_gets st) path (i_next st).
Definition set_gets (gets : gmap nat fn) (st : injector) : injector := Injector (i_provs st) (i_insts st) gets (i_path st) (i_next st).
Definition new_value (st : injector) : value * injector :=
  (Obj (i_next st), Injector (i_provs st) (i_insts st) (i_gets st) (i_path st) (S (i_next st))).

Definition injector_of (on : side) : value := match on with Provs => Obj 0 | Insts => Obj 1 end.
Definition provide_object : value := Obj 2.
Definition init : injector :=
  Injector {[ js "$provide" := Is provide_object; js "$injector" := Is (injector_of Provs) ]} {[ js "$injector" := Is (injector_of Insts) ]} ∅ [] 3.

Definition provider_name (name : jstr) : jstr := name ++ js "Provider".
Definition has_own (name : jstr) : bool := jeqb name (js "hasOwnProperty").

(** ** The functions of $provide that [provider] serves *)

Definition value_fn (v : value) : fn := Fn (Source 0 (js "function() {return value;}")) (fun _ _ => Ret v).
Definition again (r : answer) : act := match r with Ok v => Ret v | Throw e => Raise e end.
Definition service_fn (constructor : fn) : fn :=
  Fn (Listed [Tok (js "$injector")]) (fun _ args =>
    match args with
    | Obj 1 :: _ => Instantiate Insts constructor [] again
    | Obj 0 :: _ => Instantiate Provs constructor [] again
    | _ => Raise TypeError
    end).
Definition decorated (orig_get : fn) (origProvider : value) (decorFn : fn) : fn :=
  Fn (Source 0 (js "function() {}")) (fun _ _ =>
    Invoke Insts orig_get origProvider [] (fun r =>
      match r with
      | Ok origInstance => Invoke Insts decorFn Undef [(js "$delegate", origInstance)] again
      | Throw e => Raise e
      end)).

(** The property [$get] of a value, read. *)
Definition read_get (v : value) (st : injector) : result inj_error (option fn) :=
  match v with Undef => Throw TypeError | Prim _ => Ok None | Obj n => Ok (i_gets st !! n) end.

(** The rest of [provider], with the object. *)
Definition put_provider (name : jstr) (v : value) (st : injector) : answer * injector :=
  match read_get v st with
  | Throw e => (Throw e, st)
  | Ok None => (Throw (Pget name), st)
  | Ok (Some _) => (Ok v, set_cache Provs (<[provider_name name := Is v]> (i_provs st)) st)
  end.
Definition factory (name : jstr) (f : fn) (st : injector) : answer * injector :=
  if has_own name then (Throw (Badname (js "service")), st)
  else let '(v, st) := new_value st in
       put_provider name v (match v with Obj n => set_gets (<[n := f]> (i_gets st)) st | _ => st end).
Definition service (name : jstr) (constructor : fn) : injector -> answer * injector := factory name (service_fn constructor).
Definition value_ (name : jstr) (v : value) : injector -> answer * injector := factory name (value_fn v).
Definition constant (name : jstr) (v : value) (st : injector) : answer * injector :=
  if has_own name then (Throw (Badname (js "constant")), st)
  else (Ok Undef, set_cache Insts (<[name := Is v]> (i_insts st)) (set_cache Provs (<[name := Is v]> (i_provs st)) st)).

(** ** invoke, instantiate, getService *)

Abbreviation step A := (injector -> option (result inj_error A * injector)).

(** [None] stands for a call that needs more fuel. *)
Definition sbind {A B} (m : step A) (f : A -> step B) : step B := fun st =>
  match m st with
  | Some (Ok a, st) => f a st
  | Some (Throw e, st) => Some (Throw e, st)
  | None => None
  end.
Definition sret {A} (r : result inj_error A) : step A := fun st => Some (r, st).
Definition slift {A} (f : injector -> result inj_error A * injector) : step A := fun st => Some (f st).

Section Run.
Context (getService : side -> jstr -> step value).

Fixpoint resolve (on : side) (locals : jsobj value) (keys : list token) : step (list value) :=
  match keys with
  | [] => sret (Ok [])
  | NotText :: _ => sret (Throw Itkn)
  | Tok key :: keys =>
      sbind (match ob_get locals key with Some v => sret (Ok v) | None => getService on key end) (fun v =>
      sbind (resolve on locals keys) (fun vs => sret (Ok (v :: vs))))
  end.

Definition has (on : side) (name : jstr) (st : injector) : bool :=
  bool_decide (is_Some (i_provs st !! provider_name name)) || bool_decide (is_Some (cache on st !! name)).

Definition decorator (name : jstr) (decorFn : fn) : step value :=
  sbind (getService Provs (provider_name name)) (fun origProvider st =>
    match read_get origProvider st with
    | Throw e => Some (Throw e, st)
    | Ok orig_get =>
        match origProvider with
        | Obj n => Some (Ok Undef, set_gets (<[n := decorated (default NotFn orig_get) origProvider decorFn]> (i_gets st)) st)
        | _ => Some (Throw TypeError, st)
        end
    end).

(** What becomes of the new object of [instantiate]. *)
Definition constructed (instance : value) (returned : value) : value := match returned with Obj _ => returned | _ => instance end.

(** Run the body of a function, and a function of the application. *)
Fixpoint run_act (a : act) (st : injector) {struct a} : option (answer * injector) :=
  let continue (k : answer -> act) (o : option (answer * injector)) :=
    match o with Some (r, st) => run_act (k r) st | None => None end in
  match a with
  | Ret v => Some (Ok v, st)
  | Raise e => Some (Throw e, st)
  | Get on name k => continue k (getService on name st)
  | Invoke on f self locals k => continue k (run_fn on f self locals st)
  | Instantiate on f locals k => continue k (run_new on f locals st)
  | Has on name k => run_act (k (has on name st)) st
  | Provide name what k => continue k (run_provide name what st)
  | NewObject k => let '(v, st) := new_value st in run_act (k v) st
  | SetGet v f k =>
      match v with
      | Obj n => run_act k (set_gets (<[n := f]> (i_gets st)) st)
      | _ => Some (Throw TypeError, st)
      end
  end
with run_fn (on : side) (f : fn) (self : value) (locals : jsobj value) (st : injector) {struct f} : option (answer * injector) :=
  match f with
  | NotFn => Some (Throw Areq, st)
  | Fn d body =>
      match annotate d with
      | Throw e => Some (Throw e, st)
      | Ok keys => match resolve on locals keys st with
                   | Some (Ok args, st) => run_act (body self args) st
                   | Some (Throw e, st) => Some (Throw e, st)
                   | None => None
                   end
      end
  end
with run_new (on : side) (f : fn) (locals : jsobj value) (st : injector) {struct f} : option (answer * injector) :=
  match f with
  | NotFn => Some (Throw Areq, st)
  | Fn d body =>
      let '(instance, st) := new_value st in
      match annotate d with
      | Throw e => Some (Throw e, st)
      | Ok keys => match resolve on locals keys st with
                   | Some (Ok args, st) => match run_act (body instance args) st with
                                           | Some (Ok v, st) => Some (Ok (constructed instance v), st)
                                           | o => o
                                           end
                   | Some (Throw e, st) => Some (Throw e, st)
                   | None => None
                   end
      end
  end
with run_provide (name : jstr) (what : supplied) (st : injector) {struct what} : option (answer * injector) :=
  match what with
  | AProvider p => if has_own name then Some (Throw (Badname (js "service")), st)
                   else match run_new Provs p [] st with
                        | Some (Ok v, st) => Some (put_provider name v st)
                        | o => o
                        end
  | AnObject v => if has_own name then Some (Throw (Badname (js "service")), st) else Some (put_provider name v st)
  | AFactory f => Some (factory name f st)
  | AService f => Some (service name f st)
  | AValue v => Some (value_ name v st)
  | AConstant v => Some (constant name v st)
  | ADecorator f => decorator name f st
  end.
End Run.

Definition enter (on : side) (name : jstr) (st : injector) : injector :=
  let st := set_path (name :: i_path st) st in set_cache on (<[name := Instantiating]> (cache on st)) st.
(** The end of a [getService] that made something, or tried to. *)
Definition leave (on : side) (name : jstr) (r : answer) (st : injector) : injector :=
  let c := cache on st in
  let c := match r with
           | Ok v => <[name := Is v]> c
           | Throw _ => match c !! name with Some Instantiating => delete name c | _ => c end
           end in
  set_path (tail (i_path st)) (set_cache on c st).

(** The second argument of [createInternalInjector]. *)
Definition make (getService : side -> jstr -> step value) (on : side) (name : jstr) : step value :=
  match on with
  | Provs => fun st => Some (Throw (Unpr (i_path st)), st)
  | Insts =>
      sbind (getService Provs (provider_name name)) (fun provider st =>
        match read_get provider st with
        | Throw e => Some (Throw e, st)
        | Ok get => run_fn getService Insts (default NotFn get) provider [] st
        end)
  end.

(** Fuel: the number of services that are being made at a time. *)
Fixpoint getService (fuel : nat) (on : side) (serviceName : jstr) (st : injector) : option (answer * injector) :=
  match cache on st !! serviceName with
  | Some Instantiating => Some (Throw (Cdep (serviceName :: i_path st)), st)
  | Some (Is v) => Some (Ok v, st)
  | None =>
      match fuel with
      | O => None
      | S fuel =>
          match make (getService fuel) on serviceName (enter on serviceName st) with
          | Some (r, st) => Some (r, leave on serviceName r st)
          | None => None
          end
      end
  end.

Definition run (fuel : nat) : act -> step value := run_act (getService fuel).
Definition invoke (fuel : nat) (on : side) (f : fn) : step value := run_fn (getService fuel) on f Undef [].

(** ** Modules *)

(** A call that waits in a module: the provider, and what it is to do. *)
Record queued : Type := Queued { q_provider : jstr; q_call : value -> act }.
(** What a module requires: a name; a function (or annotated array) with its identity, and what function each value
    is that it may return ([noop] for undefined); something else. *)
Inductive modref : Type := ByName (name : jstr) | ByFn (id : nat) (f : fn) (as_block : value -> fn) | BadRef (id : nat).
Record module : Type := Module' { requires : list modref; invokeQueue : list queued; runBlocks : list fn }.

Definition invokeLater (provider : jstr) (unshift : bool) (call : value -> act) (m : module) : module :=
  let q := Queued provider call in
  Module' (requires m) (if unshift then q :: invokeQueue m else invokeQueue m ++ [q]) (runBlocks m).

(** A call of a function of [$provide], or of [$injector.invoke]. *)
Definition provide_call (name : jstr) (what : supplied) (provider : value) : act :=
  if bool_decide (provider = provide_object) then Provide name what again else Raise TypeError.
Definition invoke_call (f : fn) (provider : value) : act :=
  match provider with
  | Obj 0 => Invoke Provs f Undef [] again
  | Obj 1 => Invoke Insts f Undef [] again
  | _ => Raise TypeError
  end.

Definition module_provider (name : jstr) (what : supplied) : module -> module :=
  invokeLater (js "$provide") (match what with AConstant _ => true | _ => false end) (provide_call name what).
Definition module_config (f : fn) : module -> module := invokeLater (js "$injector") false (invoke_call f).
Definition module_run (f : fn) (m : module) : module := Module' (requires m) (invokeQueue m) (runBlocks m ++ [f]).

(** [angular.module]: [requires_] is what it is given after the name, if anything. *)
Definition angular_module (name : jstr) (requires_ : option (list modref)) (configFn : option fn) (modules : gmap jstr module)
    : result inj_error module * gmap jstr module :=
  if has_own name then (Throw (Badname (js "module")), modules)
  else
    let modules := if is_Some_dec requires_ then delete name modules else modules in
    match modules !! name with
    | Some m => (Ok m, modules)
    | None =>
        match requires_ with
        | None => (Throw (Nomod name), modules)
        | Some requires_ =>
            let m := Module' requires_ [] [] in
            let m := match configFn with Some f => module_config f m | None => m end in
            (Ok m, <[name := m]> modules)
        end
    end.

(** ** Loading *)

Section Load.
Context (modules : gmap jstr module).
Context (getService : side -> jstr -> step value).

(** The keys of [loadedModules]. *)
Inductive modkey : Type := KName (name : jstr) | KObject (id : nat).
#[export] Instance modkey_eq_dec : EqDecision modkey.
Proof. solve_decision. Defined.
Definition key_of (m : modref) : modkey := match m with ByName name => KName name | ByFn id _ _ | BadRef id => KObject id end.

(** The exception of a module, told again with its name. *)
Definition told (m : modref) (e : inj_error) : inj_error := Modulerr (match m with ByName name => Some name | _ => None end) e.

Fixpoint run_queue (queue : list queued) : step unit :=
  match queue with
  | [] => sret (Ok tt)
  | q :: queue =>
      sbind (getService Provs (q_provider q)) (fun provider =>
      sbind (run_act getService (q_call q provider)) (fun _ => run_queue queue))
  end.

Abbreviation loading A := (list modkey -> injector -> option (result inj_error A * list modkey * injector)).

(** One module that is not loaded yet, [load] being [loadModules]: its blocks. *)
Definition load_module (load : list modref -> loading (list fn)) (m : modref) : loading (list fn) := fun loaded st =>
  match m with
  | ByName name =>
      match angular_module name None None modules with
      | (Throw e, _) => Some (Throw e, loaded, st)
      | (Ok moduleFn, _) =>
          match load (requires moduleFn) loaded st with
          | Some (Ok blocks, loaded, st) =>
              match run_queue (invokeQueue moduleFn) st with
              | Some (Ok _, st) => Some (Ok (blocks ++ runBlocks moduleFn), loaded, st)
              | Some (Throw e, st) => Some (Throw e, loaded, st)
              | None => None
              end
          | o => o
          end
      end
  | ByFn _ f as_block =>
      match run_fn getService Provs f Undef [] st with
      | Some (Ok v, st) => Some (Ok [as_block v], loaded, st)
      | Some (Throw e, st) => Some (Throw e, loaded, st)
      | None => None
      end
  | BadRef _ => Some (Throw Areq, loaded, st)
  end.

Fixpoint load_all (load : list modref -> loading (list fn)) (mods : list modref) (runBlocks : list fn) : loading (list fn) := fun loaded st =>
  match mods with
  | [] => Some (Ok runBlocks, loaded, st)
  | m :: mods =>
      if bool_decide (key_of m ∈ loaded) then load_all load mods runBlocks loaded st
      else match load_module load m (key_of m :: loaded) st with
           | Some (Ok blocks, loaded, st) => load_all load mods (runBlocks ++ blocks) loaded st
           | Some (Throw e, loaded, st) => Some (Throw (told m e), loaded, st)
           | None => None
           end
  end.

(** Fuel: how deep the modules require each other. *)
Fixpoint loadModules (fuel : nat) (mods : list modref) : loading (list fn) :=
  match fuel with
  | O => fun _ _ => None
  | S fuel => load_all (loadModules fuel) mods []
  end.

Fixpoint run_blocks (blocks : list fn) : step unit :=
  match blocks with
  | [] => sret (Ok tt)
  | f :: blocks => sbind (run_fn getService Insts f Undef []) (fun _ => run_blocks blocks)
  end.

Definition createInjector (fuel : nat) (modulesToLoad : list modref) : option (result inj_error unit * injector) :=
  match loadModules fuel modulesToLoad [] init with
  | Some (Ok blocks, _, st) => run_blocks blocks st
  | Some (Throw e, _, st) => Some (Throw e, st)
  | None => None
  end.
End Load.
