(* ===== verification/InjectorFacts.v ===== *)
(** * Services: made once, and always an end *)

From stdpp Require Import gmap.
From S2P Require Import Prelude JsString JsObject JsNumber Injector.

Scheme act_mind := Induction for act Sort Prop
  with fn_mind := Induction for fn Sort Prop
  with supplied_mind := Induction for supplied Sort Prop.
Combined Scheme app_ind from act_mind, fn_mind, supplied_mind.

(** ** More fuel *)

Definition refines (g g' : side -> jstr -> step value) : Prop := forall on name st o, g on name st = Some o -> g' on name st = Some o.

Section More.
Context (g g' : side -> jstr -> step value) (Hg : refines g g').

Lemma resolve_more on locals keys : forall st o, resolve g on locals keys st = Some o -> resolve g' on locals keys st = Some o.
Proof.
  induction keys as [|[key|] keys IH]; intros st o; cbn; [done| |done]. unfold sbind.
  destruct (ob_get locals key) as [v|]; cbn.
  - destruct (resolve g on locals keys st) as [[[vs|e] st1]|] eqn:E; [| |done]; by rewrite (IH _ _ E).
  - destruct (g on key st) as [[[v|e] st1]|] eqn:E; [| |done]; rewrite (Hg _ _ _ _ E); [|done].
    destruct (resolve g on locals keys st1) as [[[vs|e] st2]|] eqn:E2; [| |done]; by rewrite (IH _ _ E2).
Qed.

Lemma run_more :
  (forall a st o, run_act g a st = Some o -> run_act g' a st = Some o) /\
  (forall f, (forall on self locals st o, run_fn g on f self locals st = Some o -> run_fn g' on f self locals st = Some o) /\
             (forall on locals st o, run_new g on f locals st = Some o -> run_new g' on f locals st = Some o)) /\
  (forall w name st o, run_provide g name w st = Some o -> run_provide g' name w st = Some o).
Proof.
  assert (Hstep : forall (o o' : option (answer * injector)) (k k' : answer -> injector -> option (answer * injector)) x,
    (forall y, o = Some y -> o' = Some y) -> (forall r st x, k r st = Some x -> k' r st = Some x) ->
    match o with Some (r, st) => k r st | None => None end = Some x -> match o' with Some (r, st) => k' r st | None => None end = Some x).
  { intros [[r st]|] o' k k' x Ho Hk H; [|done]. rewrite (Ho _ eq_refl). by apply Hk. }
  apply app_ind; cbn; try done.
  - intros on name k IH st o. apply Hstep; [apply Hg|apply IH].
  - intros on f [IHf _] self locals k IH st o. apply Hstep; [apply IHf|apply IH].
  - intros on f [_ IHf] locals k IH st o. apply Hstep; [apply IHf|apply IH].
  - intros on name k IH st o. apply IH.
  - intros name w IHw k IH st o. apply Hstep; [apply IHw|apply IH].
  - intros k IH st o. apply IH.
  - intros [| |n] f _ k IH st o; [done|done|apply IH].
  - intros d body IH. destruct (annotate d) as [keys|e]; [|done]. split; intros on.
    + intros self locals st o. destruct (resolve g on locals keys st) as [[[vs|e] st1]|] eqn:E; [| |done]; rewrite (resolve_more _ _ _ _ _ E); [apply IH|done].
    + intros locals st o. cbn. destruct (resolve g on locals keys _) as [[[vs|e] st1]|] eqn:E; [| |done]; rewrite (resolve_more _ _ _ _ _ E); [|done].
      destruct (run_act g _ st1) as [[r st2]|] eqn:E2; [|done]. by rewrite (IH _ _ _ _ E2).
  - intros p [_ IH] name st o. destruct (has_own name); [done|]. destruct (run_new g Provs p [] st) as [[r st1]|] eqn:E; [|done]. by rewrite (IH _ _ _ _ E).
  - intros f _ name st o. unfold decorator, sbind. destruct (g Provs (provider_name name) st) as [[r st1]|] eqn:E; [|done]. by rewrite (Hg _ _ _ _ E).
Qed.

Lemma make_more on name st o : make g on name st = Some o -> make g' on name st = Some o.
Proof.
  destruct on; cbn; [done|]. unfold sbind. destruct (g Provs (provider_name name) st) as [[[v|e] st1]|] eqn:E; [| |done]; rewrite (Hg _ _ _ _ E); [|done].
  destruct (read_get v st1) as [get|e]; [|done]. destruct run_more as (_ & Hf & _). apply Hf.
Qed.
End More.

Lemma get_more fuel : forall fuel', fuel <= fuel' -> refines (getService fuel) (getService fuel').
Proof.
  induction fuel as [|fuel IH]; intros [|fuel'] Hle on name st o; try lia; cbn.
  - done.
  - by destruct (cache on st !! name) as [[|v]|].
  - destruct (cache on st !! name) as [[|v]|]; [done|done|]. destruct (make (getService fuel) on name _) as [[r st1]|] eqn:E; [|done].
    by rewrite (make_more _ _ (IH fuel' ltac:(lia)) _ _ _ _ E).
Qed.
Lemma run_fuel fuel fuel' a st o : fuel <= fuel' -> run fuel a st = Some o -> run fuel' a st = Some o.
Proof. intros Hle. apply run_more. by apply get_more. Qed.

(** ** Functions that do not register *)

Fixpoint running (a : act) : Prop :=
  match a with
  | Ret _ | Raise _ => True
  | Get _ _ k => forall r, running (k r)
  | Invoke _ f _ _ k | Instantiate _ f _ k => running_fn f /\ forall r, running (k r)
  | Has _ _ k => forall b, running (k b)
  | NewObject k => forall v, running (k v)
  | Provide _ _ _ | SetGet _ _ _ => False
  end
with running_fn (f : fn) : Prop :=
  match f with Fn _ body => forall self args, running (body self args) | NotFn => True end.

(** What a state and the state after it have in common: services are not replaced, and the ones that were asked for
    meanwhile are made or were given up. *)
Record kept (st st' : injector) : Prop := Kept {
  kept_provs : i_provs st' = i_provs st;
  kept_gets : i_gets st' = i_gets st;
  kept_path : i_path st' = i_path st;
  kept_insts : forall n s, i_insts st !! n = Some s -> i_insts st' !! n = Some s;
  kept_new : forall n, i_insts st !! n = None -> i_insts st' !! n <> Some Instantiating
}.
Lemma kept_refl st : kept st st.
Proof. by constructor; try done; intros n ->. Qed.
Lemma kept_trans st1 st2 st3 : kept st1 st2 -> kept st2 st3 -> kept st1 st3.
Proof.
  intros [A1 A2 A3 A4 A5] [B1 B2 B3 B4 B5]. constructor; [congruence|congruence|congruence|by auto|]. intros n Hn.
  destruct (i_insts st2 !! n) as [[|v]|] eqn:E; [by apply A5 in E|by rewrite (B4 _ _ E)|by apply B5].
Qed.
#[export] Hint Resolve kept_refl : dodo.

Definition ready (st : injector) : Prop := forall n f, i_gets st !! n = Some f -> running_fn f.
Lemma kept_ready st st' : kept st st' -> ready st -> ready st'.
Proof. intros K R n f. rewrite (kept_gets _ _ K). apply R. Qed.
Lemma new_kept st : kept st (new_value st).2.
Proof. by constructor; try done; cbn; intros n ->. Qed.

#[export] Instance slot_eq_dec : EqDecision slot.
Proof. solve_decision. Defined.

(** The providers whose service is not being made. *)
Definition service_of (key : jstr) : jstr := take (length key - 8) key.
Definition open (st : injector) : gset jstr := filter (fun key => i_insts st !! service_of key <> Some Instantiating) (dom (i_provs st)).

Lemma service_of_provider name : service_of (provider_name name) = name.
Proof. unfold service_of, provider_name. rewrite length_app. change (length (js "Provider")) with 8. by rewrite Nat.add_sub, take_app_length. Qed.
Lemma kept_open st st' : kept st st' -> open st' = open st.
Proof.
  intros K. unfold open. rewrite (kept_provs _ _ K). apply set_eq. intros key. rewrite !elem_of_filter.
  destruct (i_insts st !! service_of key) as [s|] eqn:E.
  - by rewrite (kept_insts _ _ K _ _ E).
  - pose proof (kept_new _ _ K _ E). split; intros [_ ?]; by split.
Qed.
Lemma enter_open name st : provider_name name ∈ dom (i_provs st) -> i_insts st !! name = None ->
  size (open (enter Insts name st)) < size (open st).
Proof.
  intros Hp Hn. apply subset_size. unfold open. split.
  - intros key. rewrite !elem_of_filter. cbn. destruct (decide (service_of key = name)) as [E|E]; [rewrite E, lookup_insert_eq|rewrite lookup_insert_ne by congruence]; tauto.
  - intros Hs. assert (Hk : provider_name name ∈ open st) by (apply elem_of_filter; rewrite service_of_provider, Hn; done).
    apply Hs, elem_of_filter in Hk as [Hk _]. cbn in Hk. by rewrite service_of_provider, lookup_insert_eq in Hk.
Qed.

(** Every call of such a state ends. *)
Definition serves (g : side -> jstr -> step value) (b : nat) : Prop :=
  forall on name st, ready st -> size (open st) < b -> exists r st', g on name st = Some (r, st') /\ kept st st'.

Section Serve.
Context (g : side -> jstr -> step value) (b : nat) (Hg : serves g b).

Lemma resolve_serves on locals keys : forall st, ready st -> size (open st) < b -> exists r st', resolve g on locals keys st = Some (r, st') /\ kept st st'.
Proof.
  induction keys as [|[key|] keys IH]; intros st R Hb; cbn; [eauto with dodo| |eauto with dodo]. unfold sbind.
  assert (H1 : exists r st', (match ob_get locals key with Some v => sret (Ok v) | None => g on key end) st = Some (r, st') /\ kept st st')
    by (destruct (ob_get locals key); [unfold sret; eauto with dodo|by apply Hg]).
  destruct H1 as ([v|e] & st1 & -> & K1); [|eauto].
  destruct (IH st1) as ([vs|e] & st2 & -> & K2); [by eapply kept_ready|by rewrite (kept_open _ _ K1)| |].
  all: do 2 eexists; split; [done|by eapply kept_trans].
Qed.

Lemma run_serves :
  (forall a st, running a -> ready st -> size (open st) < b -> exists r st', run_act g a st = Some (r, st') /\ kept st st') /\
  (forall f, (forall on self locals st, running_fn f -> ready st -> size (open st) < b -> exists r st', run_fn g on f self locals st = Some (r, st') /\ kept st st') /\
             (forall on locals st, running_fn f -> ready st -> size (open st) < b -> exists r st', run_new g on f locals st = Some (r, st') /\ kept st st')) /\
  (forall w : supplied, True).
Proof.
  assert (Hstep : forall (o : option (answer * injector)) (k : answer -> act) st,
    (forall r st, running (k r) -> ready st -> size (open st) < b -> exists r' st', run_act g (k r) st = Some (r', st') /\ kept st st') ->
    (forall r, running (k r)) -> ready st -> size (open st) < b -> (exists r st', o = Some (r, st') /\ kept st st') ->
    exists r st', match o with Some (r, st) => run_act g (k r) st | None => None end = Some (r, st') /\ kept st st').
  { intros o k st IH Hk R Hb (r & st1 & -> & K1). destruct (IH r st1) as (r2 & st2 & E & K2); [done|by eapply kept_ready|by rewrite (kept_open _ _ K1)|].
    exists r2, st2. split; [done|by eapply kept_trans]. }
  apply app_ind; cbn; try done.
  - eauto with dodo.
  - eauto with dodo.
  - intros on name k IH st Hk R Hb. apply Hstep; auto.
  - intros on f [IHf _] self locals k IH st [Hf Hk] R Hb. apply Hstep; auto.
  - intros on f [_ IHf] locals k IH st [Hf Hk] R Hb. apply Hstep; auto.
  - intros on name k IH st Hk R Hb. by apply IH.
  - intros k IH st Hk R Hb. destruct (IH (Obj (i_next st)) (new_value st).2) as (r & st' & E & K); [done|by eapply kept_ready; [apply new_kept|]| |].
    { by rewrite (kept_open _ _ (new_kept st)). }
    exists r, st'. split; [exact E|]. eapply kept_trans; [apply new_kept|exact K].
  - intros d body IH. destruct (annotate d) as [keys|e].
    + split; intros on; [intros self locals st Hr R Hb|intros locals st Hr R Hb].
      * destruct (resolve_serves on locals keys st R Hb) as ([vs|e] & st1 & -> & K1); [|eauto].
        destruct (IH self vs st1) as (r & st2 & E & K2); [done|by eapply kept_ready|by rewrite (kept_open _ _ K1)|].
        exists r, st2. split; [done|by eapply kept_trans].
      * cbn. pose proof (new_kept st) as K0. cbn in K0. set (st0 := Injector _ _ _ _ _) in *.
        destruct (resolve_serves on locals keys st0) as ([vs|e] & st1 & -> & K1); [by eapply kept_ready|by rewrite (kept_open _ _ K0)| |].
        -- destruct (IH (Obj (i_next st)) vs st1) as (r & st2 & -> & K2); [done|eapply kept_ready; [exact K1|by eapply kept_ready]|by rewrite (kept_open _ _ K1), (kept_open _ _ K0)|].
           destruct r; (do 2 eexists; split; [done|]; eapply kept_trans; [exact K0|]; by eapply kept_trans).
        -- do 2 eexists. split; [done|by eapply kept_trans].
    + split; intros; [eauto with dodo|]. do 2 eexists. split; [done|apply new_kept].
  - split; eauto with dodo.
Qed.
End Serve.

(** ** getService *)

Lemma get_step fuel on name st : getService (S fuel) on name st =
  match cache on st !! name with
  | Some Instantiating => Some (Throw (Cdep (name :: i_path st)), st)
  | Some (Is v) => Some (Ok v, st)
  | None => match make (getService fuel) on name (enter on name st) with
            | Some (r, st) => Some (r, leave on name r st)
            | None => None
            end
  end.
Proof. done. Qed.

(** A provider is there or it is not. *)
Lemma get_provs fuel name st : getService (S fuel) Provs name st =
  Some (match i_provs st !! name with
        | Some Instantiating => Throw (Cdep (name :: i_path st))
        | Some (Is v) => Ok v
        | None => Throw (Unpr (name :: i_path st))
        end, st).
Proof.
  cbn. destruct (i_provs st !! name) as [[|v]|] eqn:E; [done|done|]. do 2 f_equal. unfold leave. cbn.
  rewrite lookup_insert_eq, delete_insert_id by done. by destruct st.
Qed.

Lemma leave_kept name r st st' : i_insts st !! name = None -> kept (enter Insts name st) st' -> kept st (leave Insts name r st').
Proof.
  intros Hn [K1 K2 K3 K4 K5]. cbn in *. unfold leave.
  assert (Hi : i_insts st' !! name = Some Instantiating) by (apply K4; by rewrite lookup_insert_eq).
  constructor; cbn; [done|done|by rewrite K3| |].
  - intros n s Hs. assert (Hne : n <> name) by congruence. specialize (K4 n s ltac:(by rewrite lookup_insert_ne by congruence)).
    destruct r as [v|e]; [by rewrite lookup_insert_ne by congruence|]. rewrite Hi. by rewrite lookup_delete_ne by congruence.
  - intros n Hs. destruct (decide (n = name)) as [->|Hne].
    + destruct r as [v|e]; [by rewrite lookup_insert_eq|]. rewrite Hi. by rewrite lookup_delete_eq.
    + specialize (K5 n ltac:(by rewrite lookup_insert_ne by congruence)).
      destruct r as [v|e]; [by rewrite lookup_insert_ne by congruence|]. rewrite Hi. by rewrite lookup_delete_ne by congruence.
Qed.

Lemma get_serves fuel : serves (getService fuel) (fuel - 1).
Proof.
  induction fuel as [|fuel IH]; intros on name st R Hb; [lia|]. destruct on.
  { rewrite get_provs. eauto with dodo. }
  rewrite get_step. cbn [cache]. destruct (i_insts st !! name) as [[|v]|] eqn:En; [eauto with dodo|eauto with dodo|].
  assert (Hm : exists r st', make (getService fuel) Insts name (enter Insts name st) = Some (r, st') /\ kept (enter Insts name st) st').
  { destruct fuel as [|fuel]; [lia|]. cbn [make]. unfold sbind. rewrite get_provs. change (i_provs (enter Insts name st)) with (i_provs st).
    destruct (i_provs st !! provider_name name) as [[|v]|] eqn:Ep; [eauto with dodo| |eauto with dodo].
    destruct (read_get v (enter Insts name st)) as [get|e] eqn:Eg; [|eauto with dodo].
    pose proof (enter_open name st ltac:(apply elem_of_dom; by eexists) En) as Ho.
    destruct (run_serves (getService (S fuel)) (S fuel - 1) IH) as (_ & Hf & _). apply Hf; [|exact R|lia].
    destruct v as [| |n]; cbn in Eg; [done|by injection Eg as <-|]. injection Eg as <-.
    destruct (i_gets st !! n) as [f|] eqn:Ef; [by apply (R n)|done]. }
  destruct Hm as (r & st1 & -> & K). exists r, (leave Insts name r st1). split; [done|]. by apply leave_kept.
Qed.

Lemma open_size st : size (open st) <= size (i_provs st).
Proof. rewrite <- size_dom. apply subseteq_size. unfold open. intros k Hk. by apply elem_of_filter in Hk as [_ ?]. Qed.

(** C36.  Whatever the functions of the application ask of the injector and whatever they do with the answers,
    exceptions and circular dependencies included, every call ends, within a depth bounded by the number of
    providers.  After it the path is what it was, a service that was made is the same, a service that was being made
    is still so, no other is left so, and the providers are the same. *)
Theorem injector_runs st a : ready st -> running a ->
  exists r st', (forall fuel, size (i_provs st) + 2 <= fuel -> run fuel a st = Some (r, st')) /\ kept st st'.
Proof.
  intros R Ha. destruct (run_serves _ _ (get_serves (size (i_provs st) + 2))) as (H & _). destruct (H a st) as (r & st' & E & K); [done|done| |].
  { pose proof (open_size st). lia. }
  exists r, st'. split; [|done]. intros fuel Hf. by eapply run_fuel.
Qed.

Lemma factory_state name f st : has_own name = false ->
  factory name f st = (Ok (Obj (i_next st)),
    Injector (<[provider_name name := Is (Obj (i_next st))]> (i_provs st)) (i_insts st) (<[i_next st := f]> (i_gets st)) (i_path st) (S (i_next st))).
Proof. intros Hn. unfold factory, put_provider. rewrite Hn. cbn. by rewrite lookup_insert_eq. Qed.
Lemma factory_ready name f st : has_own name = false -> running_fn f -> ready st -> ready (factory name f st).2.
Proof. intros Hn Hf R n f'. rewrite factory_state by done. cbn. rewrite lookup_insert_Some. intros [[_ <-]|[_ E]]; [done|by eapply R]. Qed.
Lemma init_ready : ready init.
Proof. by intros n f. Qed.

(** Two services that need each other, and one that asks for the first while it is made. *)
Definition sample_deps (deps : list jstr) : fn := Fn (Listed (map Tok deps)) (fun _ _ => Ret (Prim 0)).
Definition sample_asks (name : jstr) : fn := Fn (Listed []) (fun _ _ => Get Insts name (fun r => match r with Ok v => Ret v | Throw _ => Ret Undef end)).
Definition sample_injector : injector :=
  (factory (js "c") (sample_asks (js "a")) (factory (js "b") (sample_deps [js "a"]) (factory (js "a") (sample_deps [js "b"]) init).2).2).2.


Theorem injector_runs_witness :
  ready sample_injector /\ running (Get Insts (js "c") again) /\
  exists r st', (forall fuel, 7 <= fuel -> run fuel (Get Insts (js "c") again) sample_injector = Some (r, st')) /\ kept sample_injector st' /\
    r = Ok Undef /\ i_insts st' !! js "c" = Some (Is Undef) /\ i_insts st' !! js "a" = None.
Proof.
  assert (R : ready sample_injector).
  { apply factory_ready; [done|by intros _ _ [|]|]. do 2 (apply factory_ready; [done|done|]). apply init_ready. }
  assert (Ha : running (Get Insts (js "c") again)) by (by intros [|]).
  split_and!; [exact R|exact Ha|]. destruct (injector_runs sample_injector (Get Insts (js "c") again) R Ha) as (r & st' & E & K).
  exists r, st'. assert (E7 := E 7 ltac:(by vm_compute)).
  assert (Hr : match run 7 (Get Insts (js "c") again) sample_injector with
               | Some (r, st) => (r, i_insts st !! js "c", i_insts st !! js "a") | None => (Throw Areq, None, None) end =
               (Ok Undef, Some (Is Undef), None)) by (vm_compute; reflexivity).
  rewrite E7 in Hr. injection Hr as Hr1 Hr2 Hr3. split_and!; [|exact K|done|done|done].
  intros fuel Hf. apply E. assert (Hs : size (i_provs sample_injector) = 5) by (vm_compute; reflexivity). rewrite Hs. exact Hf.
Defined.
