(* ===== verification/InjectorGraph.v ===== *)
(** * Services and the graph of their dependencies *)

From stdpp Require Import gmap relations.
From S2P Require Import Prelude JsString JsObject JsNumber Injector InjectorFacts.

Section Graph.
Context (st0 : injector).

(** The provider of a service asks for these names and makes a value of them. *)
Definition plain_provider (name : jstr) (deps : list jstr) : Prop :=
  exists o d body, i_provs st0 !! provider_name name = Some (Is (Obj o)) /\ i_gets st0 !! o = Some (Fn d body) /\
    annotate d = Ok (map Tok deps) /\ forall self args, exists v, body self args = Ret v.
Definition made_before (name : jstr) : Prop := exists v, i_insts st0 !! name = Some (Is v).

(** Nothing is being made, and every provider there is is such a one. *)
Record plain : Prop := Plain {
  plain_path : i_path st0 = [];
  plain_insts : forall name, i_insts st0 !! name <> Some Instantiating;
  plain_provs : forall name s, i_provs st0 !! provider_name name = Some s -> exists deps, plain_provider name deps
}.
Context (Hplain : plain).

(** [a], not made before, needs [b]. *)
Definition needs (a b : jstr) : Prop := ~ made_before a /\ exists deps, plain_provider a deps /\ b ∈ deps.

(** Made before, or with a provider whose dependencies are resolvable. *)
Inductive resolvable (name : jstr) : Prop :=
| res_made : made_before name -> resolvable name
| res_provider deps : plain_provider name deps -> (forall d, d ∈ deps -> resolvable d) -> resolvable name.

Lemma provider_unique name deps deps' : plain_provider name deps -> plain_provider name deps' -> deps = deps'.
Proof.
  intros (o & d & body & E1 & E2 & E3 & _) (o' & d' & body' & E1' & E2' & E3' & _). rewrite E1 in E1'. injection E1' as <-.
  rewrite E2 in E2'. injection E2' as <- <-. rewrite E3 in E3'. injection E3' as E3'.
  apply (f_equal (omap (fun t => match t with Tok s => Some s | NotText => None end))) in E3'.
  assert (H : forall l, omap (fun t => match t with Tok s => Some s | NotText => None end) (map Tok l) = l)
    by (induction l as [|x l IH]; [done|]; cbn; by f_equal).
  by rewrite !H in E3'.
Qed.

(** What is resolvable is in no cycle. *)
Lemma resolvable_acyclic name : resolvable name -> ~ tc needs name name.
Proof.
  assert (Hinv : forall a, tc needs a a -> exists b, needs a b /\ tc needs b b).
  { intros a Hc. inversion Hc as [x y H|x y z H H']; subst; [by exists a|]. exists y. split; [done|]. by eapply tc_r. }
  induction 1 as [name Hm|name deps Hp Hd IH]; intros Hc; apply Hinv in Hc as (d & [Hn (ds & Hds & Hin)] & Hc); [done|].
  rewrite (provider_unique _ _ _ Hds Hp) in Hin. by eapply IH.
Qed.

(** A path of names, each needed by the next. *)
Fixpoint linked (path : list jstr) : Prop :=
  match path with
  | a :: rest => match rest with b :: _ => needs b a /\ linked rest | [] => True end
  | [] => True
  end.
Lemma linked_tc path : forall d, linked (d :: path) -> forall x, x ∈ path -> tc needs x d.
Proof.
  induction path as [|b path IH]; intros d Hl x Hx; [by apply elem_of_nil in Hx|]. destruct Hl as [Hn Hl].
  apply elem_of_cons in Hx as [->|Hx]; [by apply tc_once|]. eapply tc_r; [by apply IH|done].
Qed.

(** What an exception tells: a cycle that is there, or a provider that is not, with the path to it from the service
    that was asked for. *)
Definition told_of (root : option jstr) (e : inj_error) : Prop :=
  (exists d path, e = Cdep (d :: path) /\ linked (d :: path) /\ d ∈ path /\ last (d :: path) = root) \/
  (exists d path, e = Unpr (provider_name d :: d :: path) /\ linked (d :: path) /\ i_provs st0 !! provider_name d = None /\ last (d :: path) = root).

(** The state while these services are being made. *)
Record during (path : list jstr) (st : injector) : Prop := During {
  during_provs : i_provs st = i_provs st0;
  during_gets : i_gets st = i_gets st0;
  during_path : i_path st = path;
  during_busy : forall n, i_insts st !! n = Some Instantiating <-> n ∈ path;
  during_made : forall n v, i_insts st !! n = Some (Is v) -> resolvable n;
  during_before : forall n v, i_insts st0 !! n = Some (Is v) -> i_insts st !! n = Some (Is v)
}.

Lemma during_start : during [] st0.
Proof.
  constructor; try done; [apply Hplain| |].
  - intros n. split; [by intros ?%(plain_insts Hplain)|by intros ?%elem_of_nil].
  - intros n v E. left. by exists v.
Qed.
Lemma during_enter name path st : during path st -> i_insts st !! name = None -> during (name :: path) (enter Insts name st).
Proof.
  intros [D1 D2 D3 D4 D5 D6] Hn. constructor; cbn; try done; [by rewrite D3| | |]; intros n.
  - rewrite elem_of_cons. destruct (decide (n = name)) as [->|Hne]; [rewrite lookup_insert_eq; tauto|]. rewrite lookup_insert_ne by congruence. rewrite D4. tauto.
  - intros v. destruct (decide (n = name)) as [->|Hne]; [by rewrite lookup_insert_eq|]. rewrite lookup_insert_ne by congruence. apply D5.
  - intros v E. destruct (decide (n = name)) as [->|Hne]; [apply D6 in E; congruence|]. rewrite lookup_insert_ne by congruence. by apply D6.
Qed.
Lemma during_leave name path r st : during (name :: path) st -> name ∉ path -> (forall v, r = Ok v -> resolvable name) -> during path (leave Insts name r st).
Proof.
  intros [D1 D2 D3 D4 D5 D6] Hn Hr. assert (Hi : i_insts st !! name = Some Instantiating) by (apply D4; left).
  constructor; cbn; try done; [by rewrite D3| | |]; intros n.
  - destruct (decide (n = name)) as [->|Hne].
    + split; [|done]. destruct r; [by rewrite lookup_insert_eq|rewrite Hi; by rewrite lookup_delete_eq].
    + transitivity (i_insts st !! n = Some Instantiating); [|rewrite D4, elem_of_cons; tauto].
      destruct r; [by rewrite lookup_insert_ne by congruence|rewrite Hi; by rewrite lookup_delete_ne by congruence].
  - intros v. destruct (decide (n = name)) as [->|Hne].
    + destruct r as [v'|]; [intros _; by apply (Hr v')|rewrite Hi; by rewrite lookup_delete_eq].
    + destruct r; [rewrite lookup_insert_ne by congruence; apply D5|rewrite Hi, lookup_delete_ne by congruence; apply D5].
  - intros v E. destruct (decide (n = name)) as [->|Hne]; [apply D6 in E; congruence|].
    destruct r; [rewrite lookup_insert_ne by congruence; by apply D6|rewrite Hi, lookup_delete_ne by congruence; by apply D6].
Qed.

Definition outcome (root : option jstr) (name : jstr) (r : answer) : Prop :=
  match r with Ok _ => resolvable name | Throw e => ~ resolvable name /\ told_of root e end.

(** The arguments of a provider: all of them, or the exception of one. *)
Lemma resolve_deps g name path deps : (forall d st r st', linked (d :: name :: path) -> during (name :: path) st ->
    g Insts d st = Some (r, st') -> during (name :: path) st' /\ outcome (last (name :: path)) d r) ->
  forall st r st', linked (name :: path) -> (forall d, d ∈ deps -> needs name d) -> during (name :: path) st ->
  resolve g Insts [] (map Tok deps) st = Some (r, st') ->
  during (name :: path) st' /\
  match r with
  | Ok _ => forall d, d ∈ deps -> resolvable d
  | Throw e => (exists d, d ∈ deps /\ ~ resolvable d) /\ told_of (last (name :: path)) e
  end.
Proof.
  intros Hg. induction deps as [|d deps IH]; intros st r st' Hl Hd D E; cbn in E.
  - injection E as <- <-. split; [done|]. intros d Hx. by apply elem_of_nil in Hx.
  - unfold sbind in E. destruct (g Insts d st) as [[[v|e] st1]|] eqn:Eg; [| |done].
    + destruct (Hg d st (Ok v) st1) as [D1 O1]; [split; [apply Hd; left|done]|done|done|].
      destruct (resolve g Insts [] (map Tok deps) st1) as [[[vs|e] st2]|] eqn:Er; [| |done]; cbn in E; injection E as <- <-.
      * apply IH in Er as [D2 O2]; [|done|intros; apply Hd; by right|done]. split; [done|]. intros x [->|Hx]%elem_of_cons; auto.
      * apply IH in Er as [D2 [(x & Hx & Hnx) Ht]]; [|done|intros; apply Hd; by right|done]. split; [done|]. split; [|done]. exists x. split; [by right|done].
    + injection E as <- <-. destruct (Hg d st (Throw e) st1) as [D1 [Hn Ht]]; [split; [apply Hd; left|done]|done|done|].
      split; [done|]. split; [|done]. exists d. split; [left|done].
Qed.

Lemma get_provs_some fuel name st r st' : getService fuel Provs name st = Some (r, st') ->
  st' = st /\ r = match i_provs st !! name with
                  | Some Instantiating => Throw (Cdep (name :: i_path st))
                  | Some (Is v) => Ok v
                  | None => Throw (Unpr (name :: i_path st))
                  end.
Proof.
  destruct fuel as [|fuel]; [|rewrite get_provs; by intros [= <- <-]]. cbn. by destruct (i_provs st !! name) as [[|v]|]; [intros [= <- <-]|intros [= <- <-]|].
Qed.

Lemma make_outcome fuel name path st r st' :
  (forall d st r st', linked (d :: name :: path) -> during (name :: path) st ->
    getService fuel Insts d st = Some (r, st') -> during (name :: path) st' /\ outcome (last (name :: path)) d r) ->
  linked (name :: path) -> ~ made_before name -> during (name :: path) st ->
  make (getService fuel) Insts name st = Some (r, st') -> during (name :: path) st' /\ outcome (last (name :: path)) name r.
Proof.
  intros Hg Hl Hnb D E. cbn [make] in E. unfold sbind in E.
  destruct (getService fuel Provs (provider_name name) st) as [[r1 st1]|] eqn:Ep; [|done].
  apply get_provs_some in Ep as [-> ->]. rewrite (during_provs _ _ D) in E.
  destruct (i_provs st0 !! provider_name name) as [s|] eqn:Es.
  - destruct (plain_provs Hplain _ _ Es) as (deps & o & d & body & E1 & E2 & E3 & E4). rewrite Es in E1. injection E1 as ->.
    assert (Hpp : plain_provider name deps) by (exists o, d, body; done).
    assert (Hd : forall d, d ∈ deps -> needs name d) by (intros x Hx; split; [done|by exists deps]).
    cbn [read_get] in E. rewrite (during_gets _ _ D), E2 in E. cbn [from_option id run_fn] in E. rewrite E3 in E.
    destruct (resolve (getService fuel) Insts [] (map Tok deps) st) as [[[vs|e] st2]|] eqn:Er; [| |done].
    + apply (resolve_deps _ _ _ _ Hg) in Er as [D2 Hr]; [|done|done|done]. destruct (E4 (Obj o) vs) as [v Ev]. rewrite Ev in E. cbn in E.
      injection E as <- <-. split; [done|]. cbn. by apply res_provider with deps.
    + injection E as <- <-. apply (resolve_deps _ _ _ _ Hg) in Er as [D2 [(x & Hx & Hn) Ht]]; [|done|done|done]. split; [done|]. split; [|done].
      intros Hr. inversion Hr as [|deps' Hp' Hd']; subst; [done|]. rewrite (provider_unique _ _ _ Hp' Hpp) in Hd'. by apply Hn, Hd'.
  - injection E as <- <-. split; [done|]. split.
    + intros Hr. inversion Hr as [|deps' (o & d & body & E1 & _) _]; subst; [done|congruence].
    + right. exists name, path. by rewrite (during_path _ _ D).
Qed.

Lemma get_outcome fuel : forall name path st r st', linked (name :: path) -> during path st ->
  getService fuel Insts name st = Some (r, st') -> during path st' /\ outcome (last (name :: path)) name r.
Proof.
  induction fuel as [|fuel IH]; intros name path st r st' Hl D E.
  all: assert (Hfound : forall s, i_insts st !! name = Some s -> match s with Instantiating => Some (Throw (Cdep (name :: i_path st)), st) | Is v => Some (Ok v, st) end = Some (r, st') ->
    during path st' /\ outcome (last (name :: path)) name r).
  1, 3: intros [|v] Es [= <- <-]; (split; [done|]); cbn [outcome]; [|by eapply during_made]; rewrite (during_path _ _ D); apply (during_busy _ _ D) in Es;
    (split; [intros Hr; apply (resolvable_acyclic name Hr); by eapply linked_tc|left; by exists name, path]).
  - cbn in E. destruct (i_insts st !! name) as [[|v]|] eqn:Es; [by apply (Hfound Instantiating)|by apply (Hfound (Is v))|done].
  - rewrite get_step in E. cbn [cache] in E. destruct (i_insts st !! name) as [[|v]|] eqn:Es; [by apply (Hfound Instantiating)|by apply (Hfound (Is v))|]. clear Hfound.
    pose proof (during_enter _ _ _ D Es) as D1. assert (Hp : name ∉ path) by (intros Hp; apply (during_busy _ _ D) in Hp; congruence).
    assert (Hnb : ~ made_before name) by (intros [v Hv]; apply (during_before _ _ D) in Hv; congruence).
    destruct (make (getService fuel) Insts name (enter Insts name st)) as [[r1 st1]|] eqn:Em; [|done]. injection E as <- <-.
    apply make_outcome with (path := path) in Em as [D2 O]; [| |done|done|done].
    + split; [|done]. apply during_leave; [done|done|]. intros v ->. exact O.
    + intros d st2 r st3 Hl2 Dd Ed. by apply (IH d (name :: path) st2 r st3) in Ed.
Qed.

End Graph.

Lemma get_made fuel name st v st' : getService fuel Insts name st = Some (Ok v, st') -> i_insts st' !! name = Some (Is v).
Proof.
  destruct fuel as [|fuel]; [cbn|rewrite get_step; cbn [cache]]; destruct (i_insts st !! name) as [[|v']|] eqn:E; try done.
  - by intros [= <- <-].
  - by intros [= <- <-].
  - destruct (make _ _ _ _) as [[r st1]|]; [|done]. intros [= -> <-]. cbn. by rewrite lookup_insert_eq.
Qed.

(** C37.  When every provider asks for the services its function declares and makes a value of them, asking for a
    service gives one exactly when it can be made: when it was made before, or its provider is there and its
    dependencies can be made, without a cycle.  Otherwise the exception tells a circular dependency that is there, or
    a provider that is not there, with the path of dependencies that leads to it from the service. *)
Theorem injector_resolves st name : plain st -> ready st ->
  exists r st', (forall fuel, size (i_provs st) + 2 <= fuel -> getService fuel Insts name st = Some (r, st')) /\
    i_path st' = [] /\
    match r with
    | Ok v => resolvable st name /\ i_insts st' !! name = Some (Is v)
    | Throw e => ~ resolvable st name /\ told_of st (Some name) e
    end.
Proof.
  intros Hp R. destruct (get_serves (size (i_provs st) + 2) Insts name st R) as (r & st' & E & K).
  { pose proof (open_size st). lia. }
  exists r, st'. split; [intros fuel Hf; by eapply get_more|]. split; [rewrite (kept_path _ _ K); apply Hp|].
  destruct (get_outcome st Hp _ name [] st r st' I (during_start st Hp) E) as [D O]. destruct r as [v|e]; [|exact O]. split; [exact O|].
  by eapply get_made.
Qed.

(** [a] needs [b] and [c], [b] needs [c]; [x] and [y] need each other. *)
Definition sample_graph : injector :=
  foldr (fun nd st => (factory nd.1 (sample_deps nd.2) st).2) init
    [(js "a", [js "b"; js "c"]); (js "b", [js "c"]); (js "c", []); (js "x", [js "y"]); (js "y", [js "x"])].

Lemma provider_suffix name : drop (length (provider_name name) - 8) (provider_name name) = js "Provider".
Proof. unfold provider_name. rewrite length_app. change (length (js "Provider")) with 8. by rewrite Nat.add_sub, drop_app_length. Qed.

(** One more such service. *)
Definition plain_old (st : injector) : Prop := plain st /\ forall n o, i_provs st !! n = Some (Is (Obj o)) -> o < i_next st.
Lemma factory_plain name deps st : has_own name = false -> plain_old st -> plain_old (factory name (sample_deps deps) st).2.
Proof.
  intros Hn [[P1 P2 P3] Ho]. split.
  2: { rewrite factory_state by done. cbn. intros n o. rewrite lookup_insert_Some. intros [[_ [= <-]]|[_ E]]; [lia|]. apply Ho in E. lia. }
  rewrite factory_state by done. constructor; cbn; [done|done|]. intros n s Hs. destruct (decide (n = name)) as [->|Hne].
  - exists deps, (i_next st), (Listed (map Tok deps)), (fun _ _ => Ret (Prim 0)). cbn. rewrite !lookup_insert_eq. split_and!; [done|done|done|]. by exists (Prim 0).
  - assert (Hk : provider_name name <> provider_name n) by (intros E; apply (f_equal service_of) in E; rewrite !service_of_provider in E; congruence).
    rewrite lookup_insert_ne in Hs by done. destruct (P3 n s Hs) as (ds & o & d & body & E1 & E2 & E3 & E4). exists ds, o, d, body. cbn.
    rewrite lookup_insert_ne by done. apply Ho in E1 as Hlt. rewrite lookup_insert_ne by lia. done.
Qed.
Lemma init_plain : plain_old init.
Proof.
  split; [constructor; [done| |]|].
  - intros n. unfold init. cbn. rewrite lookup_singleton_Some. by intros [_ ?].
  - intros n s. unfold init. cbn. rewrite lookup_insert_Some, lookup_singleton_Some. pose proof (provider_suffix n) as H.
    intros [[E _]|[_ [E _]]]; rewrite <- E in H; vm_compute in H; done.
  - intros n o. unfold init. cbn. rewrite lookup_insert_Some, lookup_singleton_Some. intros [[_ [= <-]]|[_ [_ [= <-]]]]; lia.
Qed.

Theorem injector_resolves_witness :
  plain sample_graph /\ ready sample_graph /\
  (exists r st', getService 9 Insts (js "a") sample_graph = Some (Ok r, st') /\ resolvable sample_graph (js "a")) /\
  (exists st', getService 9 Insts (js "x") sample_graph = Some (Throw (Cdep [js "x"; js "y"; js "x"]), st') /\ ~ resolvable sample_graph (js "x")).
Proof.
  assert (P0 : plain_old sample_graph).
  { unfold sample_graph. cbn [foldr fst snd]. do 5 (apply factory_plain; [done|]); exact init_plain. }
  assert (P := proj1 P0).
  assert (R : ready sample_graph).
  { unfold sample_graph. cbn [foldr fst snd]. do 5 (apply factory_ready; [done|done|]). apply init_ready. }
  assert (Hs : size (i_provs sample_graph) = 7) by (vm_compute; reflexivity).
  assert (Ea : fst <$> getService 9 Insts (js "a") sample_graph = Some (Ok (Prim 0))) by (vm_compute; reflexivity).
  assert (Ex : fst <$> getService 9 Insts (js "x") sample_graph = Some (Throw (Cdep [js "x"; js "y"; js "x"]))) by (vm_compute; reflexivity).
  split_and!; [exact P|exact R| |].
  - destruct (injector_resolves sample_graph (js "a") P R) as (r & st' & E & _ & O). specialize (E 9 ltac:(rewrite Hs; exact (le_n 9))). rewrite E in Ea.
    cbn in Ea. injection Ea as ->. destruct O as [O _]. exists (Prim 0), st'. exact (conj E O).
  - destruct (injector_resolves sample_graph (js "x") P R) as (r & st' & E & _ & O). specialize (E 9 ltac:(rewrite Hs; exact (le_n 9))). rewrite E in Ex.
    cbn in Ex. injection Ex as ->. destruct O as [O _]. exists st'. exact (conj E O).
Defined.
