(* ===== verification/InjectorLoad.v ===== *)
(** * Modules and the order in which they are loaded *)

From stdpp Require Import gmap relations.
From S2P Require Import Prelude JsString JsObject JsNumber Injector.

Lemma app_eq_cons_split {A} (l1 : list A) m l2 pre x post : l1 ++ m :: l2 = pre ++ x :: post ->
  (exists post', l1 = pre ++ x :: post' /\ post = post' ++ m :: l2) \/ (pre = l1 /\ x = m /\ post = l2) \/
  (exists pre', pre = l1 ++ m :: pre' /\ l2 = pre' ++ x :: post).
Proof.
  revert pre. induction l1 as [|y l1 IH]; intros [|z pre] E; cbn in E; injection E as E1 E2; subst.
  - right. by left.
  - right. right. by exists pre.
  - left. by exists l1.
  - apply IH in E2 as [(p & -> & ->)|[(-> & -> & ->)|(p & -> & ->)]]; [left; by exists p|right; by left|right; right; by exists p].
Qed.

Section Order.
Context (modules : gmap jstr module).

Definition required (m : modref) : list modref :=
  match m with ByName name => if has_own name then [] else match modules !! name with Some mo => requires mo | None => [] end | _ => [] end.

(** What is loaded of a list, each module after what it requires, and the keys that are known then. *)
Fixpoint load_order (fuel : nat) (mods : list modref) (loaded : list modkey) : option (list modref * list modkey) :=
  match fuel with
  | O => None
  | S fuel =>
      (fix each (mods : list modref) (loaded : list modkey) :=
         match mods with
         | [] => Some ([], loaded)
         | m :: mods =>
             if bool_decide (key_of m ∈ loaded) then each mods loaded
             else match load_order fuel (required m) (key_of m :: loaded) with
                  | Some (before, loaded) =>
                      match each mods loaded with Some (after, loaded) => Some (before ++ m :: after, loaded) | None => None end
                  | None => None
                  end
         end) mods loaded
  end.
Lemma load_order_nil fuel loaded : load_order (S fuel) [] loaded = Some ([], loaded).
Proof. done. Qed.
Lemma load_order_cons fuel m mods loaded : load_order (S fuel) (m :: mods) loaded =
  if bool_decide (key_of m ∈ loaded) then load_order (S fuel) mods loaded
  else match load_order fuel (required m) (key_of m :: loaded) with
       | Some (before, loaded) =>
           match load_order (S fuel) mods loaded with Some (after, loaded) => Some (before ++ m :: after, loaded) | None => None end
       | None => None
       end.
Proof. done. Qed.

(** ** The order *)

(** The module of the first key requires that of the second, directly or not. *)
Definition requiring (k k' : modkey) : Prop := exists m r, key_of m = k /\ r ∈ required m /\ key_of r = k'.
Abbreviation keys order := (map key_of order).

Record ordered (mods : list modref) (loaded : list modkey) (order : list modref) (loaded' : list modkey) : Prop := Ordered {
  ord_keys : forall k, k ∈ loaded' <-> k ∈ loaded \/ k ∈ keys order;
  ord_new : forall k, k ∈ keys order -> k ∉ loaded;
  ord_nodup : NoDup (keys order);
  ord_all : forall m, m ∈ mods -> key_of m ∈ loaded';
  ord_reached : forall k, k ∈ keys order -> exists m, m ∈ mods /\ rtc requiring (key_of m) k;
  ord_deps : forall m r, m ∈ order -> r ∈ required m -> key_of r ∈ loaded';
  ord_closed : forall pre m post r, order = pre ++ m :: post -> r ∈ required m ->
    key_of r ∈ loaded \/ key_of r ∈ keys pre \/ rtc requiring (key_of r) (key_of m)
}.

Lemma load_ordered fuel : forall mods loaded order loaded', load_order fuel mods loaded = Some (order, loaded') -> ordered mods loaded order loaded'.
Proof.
  induction fuel as [|fuel IH]; [done|]. intros mods. induction mods as [|m mods IHm]; intros loaded order loaded' E.
  - rewrite load_order_nil in E. injection E as <- <-. constructor; cbn; try (intros; set_solver); [constructor|]. intros [|]; done.
  - rewrite load_order_cons in E. case_bool_decide as Hm.
    + destruct (IHm _ _ _ E) as [O1 O2 O3 O4 O5 O7 O6]. constructor; try done.
      * intros x [->|Hx]%elem_of_cons; [|by apply O4]. apply O1. by left.
      * intros k Hk. destruct (O5 k Hk) as (x & Hx & Hr). exists x. split; [by right|done].
    + destruct (load_order fuel (required m) _) as [[before loaded1]|] eqn:E1; [|done].
      destruct (load_order (S fuel) mods loaded1) as [[after loaded2]|] eqn:E2; [|done]. injection E as <- <-.
      destruct (IH _ _ _ _ E1) as [A1 A2 A3 A4 A5 A7 A6]. destruct (IHm _ _ _ E2) as [B1 B2 B3 B4 B5 B7 B6].
      assert (Hmb : key_of m ∉ keys before) by (intros Hx; apply (A2 _ Hx); left).
      constructor.
      * intros k. rewrite B1, A1, map_app, elem_of_app. cbn [map]. rewrite !elem_of_cons. tauto.
      * intros k. rewrite map_app, elem_of_app. cbn [map]. rewrite elem_of_cons. intros [Hk|[->|Hk]]; [|done|].
        -- intros Hl. apply (A2 _ Hk). by right.
        -- intros Hl. apply (B2 _ Hk), A1. left. by right.
      * rewrite map_app. apply NoDup_app. split_and!; [done| |].
        -- intros k Hk. cbn [map]. rewrite elem_of_cons. intros [->|Hk2]; [done|]. apply (B2 _ Hk2), A1. by right.
        -- cbn [map]. apply NoDup_cons. split; [|done]. intros Hk. apply (B2 _ Hk), A1. left. left.
      * intros x [->|Hx]%elem_of_cons; [|by apply B4]. apply B1. left. apply A1. left. left.
      * intros k. rewrite map_app, elem_of_app. cbn [map]. rewrite elem_of_cons. intros [Hk|[->|Hk]].
        -- destruct (A5 k Hk) as (x & Hx & Hr). exists m. split; [left|]. eapply rtc_l; [|exact Hr]. by exists m, x.
        -- exists m. split; [left|apply rtc_refl].
        -- destruct (B5 k Hk) as (x & Hx & Hr). exists x. split; [by right|done].
      * intros x r. rewrite elem_of_app, elem_of_cons. intros [Hx|[->|Hx]] Hr; [|apply B1; left; by apply A4|by eapply B7].
        apply B1. left. by eapply A7.
      * intros pre x post r Ex Hr. apply app_eq_cons_split in Ex as [(post' & -> & ->)|[(-> & -> & ->)|(pre' & -> & ->)]].
        -- destruct (A6 pre x post' r eq_refl Hr) as [H|[H|H]]; [|by right; left|by right; right]. apply elem_of_cons in H as [H|H]; [|by left].
           right. right. rewrite H. destruct (A5 (key_of x)) as (y & Hy & Hxy); [rewrite map_app, elem_of_app; right; left|].
           eapply rtc_l; [|exact Hxy]. by exists m, y.
        -- specialize (A4 r Hr). apply A1 in A4 as [H|H]; [|by right; left]. apply elem_of_cons in H as [H|H]; [|by left].
           right. right. rewrite H. apply rtc_refl.
        -- destruct (B6 pre' x post r eq_refl Hr) as [H|[H|H]]; [|right; left|by right; right].
           ++ apply A1 in H as [H|H]; [|right; left; rewrite map_app, elem_of_app; by left]. apply elem_of_cons in H as [H|H]; [|by left].
              right. left. rewrite map_app, elem_of_app. cbn [map]. right. rewrite H. left.
           ++ rewrite map_app, elem_of_app. cbn [map]. right. by right.
Qed.

Lemma required_key x y : key_of x = key_of y -> required x = required y.
Proof. destruct x, y; cbn; intros E; by simplify_eq. Qed.

(** Everything that is required is there. *)
Lemma ordered_closed mods order loaded x r : ordered mods [] order loaded -> key_of x ∈ keys order -> r ∈ required x -> key_of r ∈ keys order.
Proof.
  intros O Hx Hr. apply list_elem_of_fmap in Hx as (y & Ey & Hy). rewrite (required_key _ _ Ey) in Hr.
  apply (ord_deps _ _ _ _ O y r Hy), (ord_keys _ _ _ _ O) in Hr as [H|H]; [by apply elem_of_nil in H|done].
Qed.
Lemma load_order_more fuel fuel' : fuel <= fuel' -> forall mods loaded o, load_order fuel mods loaded = Some o -> load_order fuel' mods loaded = Some o.
Proof.
  revert fuel'. induction fuel as [|fuel IH]; [done|]. intros [|fuel'] Hle; [lia|]. intros mods. induction mods as [|m mods IHm]; intros loaded o; [done|].
  rewrite !load_order_cons. case_bool_decide; [apply IHm|]. destruct (load_order fuel (required m) _) as [[before l1]|] eqn:E1; [|done].
  rewrite (IH fuel' ltac:(lia) _ _ _ E1). destruct (load_order (S fuel) mods l1) as [[after l2]|] eqn:E2; [|done]. by rewrite (IHm _ _ E2).
Qed.

(** The modules that are not loaded yet bound the depth. *)
Definition free (loaded : list modkey) : gset jstr := filter (fun n => KName n ∉ loaded) (dom modules).
Lemma free_sub l l' : (forall k, k ∈ l -> k ∈ l') -> free l' ⊆ free l.
Proof. intros H n. unfold free. rewrite !elem_of_filter. intros [Hn ?]. split; [|done]. intros Hx. by apply Hn, H. Qed.
Lemma free_lt m l : key_of m ∉ l -> required m <> [] -> size (free (key_of m :: l)) < size (free l).
Proof.
  destruct m as [name| |]; [|done|done]. cbn [key_of required]. intros Hl Hr. apply subset_size. split; [apply free_sub; by right|]. intros Hs.
  assert (Hn : name ∈ free l).
  { apply elem_of_filter. split; [done|]. apply elem_of_dom. destruct (has_own name); [done|]. destruct (modules !! name) eqn:E; [by eexists|done]. }
  apply Hs, elem_of_filter in Hn as [Hn _]. apply Hn. left.
Qed.
Lemma load_order_ends fuel : forall mods loaded, size (free loaded) + 2 <= fuel -> exists o, load_order fuel mods loaded = Some o.
Proof.
  induction fuel as [|fuel IH]; [lia|]. intros mods. induction mods as [|m mods IHm]; intros loaded Hf; [by eexists|].
  rewrite load_order_cons. case_bool_decide as Hm; [by apply IHm|].
  assert (H1 : exists o, load_order fuel (required m) (key_of m :: loaded) = Some o).
  { destruct (required m) as [|r rs] eqn:Er; [destruct fuel; [lia|by eexists]|]. apply IH.
    pose proof (free_lt m loaded Hm ltac:(by rewrite Er)). lia. }
  destruct H1 as [[before loaded1] E1]. rewrite E1. destruct (IHm loaded1) as [[after loaded2] E2]; [|rewrite E2; by eexists].
  assert (Hs : free loaded1 ⊆ free loaded) by (apply free_sub; intros k Hk; apply (ord_keys _ _ _ _ (load_ordered _ _ _ _ _ E1)); left; by right).
  apply subseteq_size in Hs. lia.
Qed.
Lemma free_size loaded : size (free loaded) <= size modules.
Proof. rewrite <- (size_dom (D := gset jstr) modules). apply subseteq_size. intros n Hn. by apply elem_of_filter in Hn as [_ ?]. Qed.

(** ** What is done, in that order *)

Section Perform.
Context (getService : side -> jstr -> step value).

(** A module alone: its queue, and its blocks. *)
Definition activate (m : modref) : step (list fn) :=
  match m with
  | ByName name =>
      match angular_module name None None modules with
      | (Throw e, _) => sret (Throw e)
      | (Ok mo, _) => sbind (run_queue getService (invokeQueue mo)) (fun _ => sret (Ok (runBlocks mo)))
      end
  | ByFn _ f as_block => sbind (run_fn getService Provs f Undef []) (fun v => sret (Ok [as_block v]))
  | BadRef _ => sret (Throw Areq)
  end.
Fixpoint perform (order : list modref) : step (list fn) :=
  match order with
  | [] => sret (Ok [])
  | m :: order => sbind (activate m) (fun b => sbind (perform order) (fun bs => sret (Ok (b ++ bs))))
  end.
Fixpoint innermost (e : inj_error) : inj_error := match e with Modulerr _ e => innermost e | e => e end.

Lemma perform_app o1 o2 st : perform (o1 ++ o2) st =
  sbind (perform o1) (fun b1 => sbind (perform o2) (fun b2 => sret (Ok (b1 ++ b2)))) st.
Proof.
  revert st. induction o1 as [|m o1 IH]; intros st.
  - cbn. unfold sbind, sret. by destruct (perform o2 st) as [[[b|e] st']|].
  - cbn. unfold sbind, sret in *. destruct (activate m st) as [[[b|e] st1]|]; [|done|done]. rewrite IH.
    destruct (perform o1 st1) as [[[b1|e] st2]|]; [|done|done]. destruct (perform o2 st2) as [[[b2|e] st3]|]; [|done|done]. by rewrite app_assoc.
Qed.

(** The module as it is loaded, what it requires having been performed. *)
Definition agrees (blocks : list fn) (loaded : list modkey) (o : option (result inj_error (list fn) * injector))
    (l : option (result inj_error (list fn) * list modkey * injector)) : Prop :=
  match o with
  | Some (Ok bs, st) => l = Some (Ok (blocks ++ bs), loaded, st)
  | Some (Throw e, st) => exists e' loaded', l = Some (Throw e', loaded', st) /\ innermost e' = innermost e
  | None => l = None
  end.

Lemma load_module_agrees load m loaded loaded1 before st : 
  agrees [] loaded1 (perform before st) (load (required m) (key_of m :: loaded) st) ->
  (required m = [] -> before = [] /\ loaded1 = key_of m :: loaded) ->
  agrees [] loaded1 (perform (before ++ [m]) st) (load_module modules getService load m (key_of m :: loaded) st).
Proof.
  intros H Hn. rewrite perform_app. cbn [perform]. unfold sbind, sret. destruct m as [name|id f as_block|id]; cbn [load_module activate key_of required] in *.
  - unfold angular_module in *. destruct (has_own name); cbn in *.
    { destruct (Hn eq_refl) as [-> ->]. cbn. by eexists _, _. }
    destruct (modules !! name) as [mo|]; cbn in *.
    + unfold sbind, sret. destruct (perform before st) as [[[b1|e] st1]|]; cbn [agrees] in H.
      * rewrite H. destruct (run_queue getService (invokeQueue mo) st1) as [[[u|e] st2]|]; cbn; [by rewrite app_nil_r|by eexists _, _|done].
      * destruct H as (e' & l' & -> & He). cbn. by eexists _, _.
      * by rewrite H.
    + destruct (Hn eq_refl) as [-> ->]. cbn. by eexists _, _.
  - destruct (Hn eq_refl) as [-> ->]. cbn. unfold sbind, sret. by destruct (run_fn getService Provs f Undef [] st) as [[[v|e] st2]|]; cbn; [|eexists _, _|].
  - destruct (Hn eq_refl) as [-> ->]. cbn. by eexists _, _.
Qed.

Lemma load_agrees fuel : forall mods blocks loaded st order loaded', load_order fuel mods loaded = Some (order, loaded') ->
  match fuel with O => False | S fuel => agrees blocks loaded' (perform order st) (load_all modules getService (loadModules modules getService fuel) mods blocks loaded st) end.
Proof.
  induction fuel as [|fuel IH]; [done|]. intros mods. induction mods as [|m mods IHm]; intros blocks loaded st order loaded' E.
  - rewrite load_order_nil in E. injection E as <- <-. cbn. by rewrite app_nil_r.
  - rewrite load_order_cons in E. cbn [load_all]. case_bool_decide as Hm; [by apply IHm|].
    destruct (load_order fuel (required m) _) as [[before loaded1]|] eqn:E1; [|done].
    destruct (load_order (S fuel) mods loaded1) as [[after loaded2]|] eqn:E2; [|done]. injection E as <- <-.
    assert (H1 : agrees [] loaded1 (perform (before ++ [m]) st) (load_module modules getService (loadModules modules getService fuel) m (key_of m :: loaded) st)).
    { apply load_module_agrees.
      - specialize (IH _ [] _ st _ _ E1). destruct fuel; [done|]. exact IH.
      - intros Er. rewrite Er in E1. destruct fuel; [done|]. by injection E1 as <- <-. }
    change (before ++ m :: after) with (before ++ [m] ++ after). rewrite app_assoc, perform_app. unfold sbind, sret.
    destruct (perform (before ++ [m]) st) as [[[b1|e] st1]|]; cbn [agrees] in H1.
    + rewrite H1. cbn [app]. specialize (IHm (blocks ++ b1) loaded1 st1 _ _ E2).
      destruct (perform after st1) as [[[b2|e] st2]|]; cbn [agrees] in *; [by rewrite app_assoc|done|done].
    + destruct H1 as (e' & l' & -> & He). cbn. by eexists _, _.
    + by rewrite H1.
Qed.
End Perform.
End Order.


(** Two modules that require each other: the second registers a constant and a service, the first decorates the
    service and asks for it in a run block. *)
Definition sample_modules : gmap jstr module :=
  {[ js "app" := module_run (Fn (Listed [Tok (js "s")]) (fun _ args => match args with [Prim 8] => Ret Undef | _ => Raise (AppError 0) end))
                   (module_provider (js "s") (ADecorator (Fn (Listed [Tok (js "$delegate"); Tok (js "k")]) (fun _ args =>
                      match args with [Prim n; Prim k] => Ret (Prim (n + k)) | _ => Raise TypeError end)))
                      (Module' [ByName (js "lib")] [] []));
     js "lib" := module_provider (js "k") (AConstant (Prim 1))
                   (module_provider (js "s") (AValue (Prim 7)) (Module' [ByName (js "app")] [] [])) ]}.
Example sample_loads :
  match createInjector sample_modules (getService 9) 4 [ByName (js "app")] with
  | Some (r, st) => (r, i_insts st !! js "s", i_insts st !! js "k", i_path st)
  | None => (Throw Areq, None, None, [])
  end = (Ok tt, Some (Is (Prim 8)), Some (Is (Prim 1)), []).
Proof. vm_compute. reflexivity. Qed.
(** A module that is not there, in the module that requires it. *)
Example sample_missing :
  fst <$> createInjector (<[js "app" := Module' [ByName (js "none")] [] []]> sample_modules) (getService 9) 4 [ByName (js "app")] =
  Some (Throw (Modulerr (Some (js "app")) (Modulerr (Some (js "none")) (Nomod (js "none"))))).
Proof. vm_compute. reflexivity. Qed.
