(* ===== verification/AnnotateFacts.v ===== *)
(** * The arguments of a function from its source text *)

From S2P Require Import Prelude JsString JsNumber Injector.

(** ** Comments *)

Lemma skip_line_length s : length (skip_line s) <= length s.
Proof. induction s as [|c s IH]; cbn; [done|]. destruct (is_line_end c); cbn; lia. Qed.
Lemma skip_block_length s : forall t, skip_block s = Some t -> length t < length s.
Proof.
  induction s as [|c [|d s] IH]; intros t; [done|done|]. cbn [skip_block]. destruct (_ && _)%N; [intros [= ->]; cbn; lia|].
  intros H. apply IH in H. cbn in *. lia.
Qed.

Lemma strip_fuel n : forall m s, length s <= n -> length s <= m -> strip_from n s = strip_from m s.
Proof.
  induction n as [|n IH]; intros m [|c s] Hn Hm; cbn in Hn; try lia; [by destruct m|by destruct m|]. destruct m as [|m]; cbn in Hm; [lia|].
  assert (Hgo : forall t, length t <= length s -> strip_from n t = strip_from m t) by (intros; apply IH; lia).
  cbn. destruct (c =? 47)%N; [|by rewrite Hgo]. destruct s as [|d s]; [done|]. destruct (d =? 47)%N.
  - apply Hgo. pose proof (skip_line_length s). cbn. lia.
  - destruct (d =? 42)%N; [|by rewrite Hgo]. destruct (skip_block s) as [t|] eqn:E; [|by rewrite Hgo]. apply Hgo. apply skip_block_length in E. cbn. lia.
Qed.
Lemma strip_cons c s : c <> 47%N -> strip_comments (c :: s) = c :: strip_comments s.
Proof. intros Hc. unfold strip_comments. cbn. by rewrite (proj2 (N.eqb_neq _ _) Hc). Qed.
Lemma strip_line s : strip_comments (47 :: 47 :: s)%N = strip_comments (skip_line s).
Proof. unfold strip_comments. cbn. apply (strip_fuel (S (length s))); [|done]. pose proof (skip_line_length s). lia. Qed.
Lemma strip_block s t : skip_block s = Some t -> strip_comments (47 :: 42 :: s)%N = strip_comments t.
Proof. intros H. unfold strip_comments. cbn. rewrite H. apply (strip_fuel (S (length s))); [|done]. apply skip_block_length in H. lia. Qed.
Lemma strip_plain s t : 47%N ∉ s -> strip_comments (s ++ t) = s ++ strip_comments t.
Proof. induction s as [|c s IH]; [done|]. intros [Hc Hs]%not_elem_of_cons. cbn [app]. rewrite strip_cons by congruence. by rewrite IH. Qed.

(** ** Gaps: spaces and comments *)

Inductive piece : Type :=
| Blank (c : N)                        (** a space or the end of a line *)
| LineComment (text : jstr) (c : N)    (** with the character that ends the line *)
| BlockComment (text : jstr).
Definition piece_ok (p : piece) : Prop :=
  match p with
  | Blank c => is_js_space c = true
  | LineComment text c => Forall (fun d => is_line_end d = false) text /\ is_line_end c = true
  | BlockComment text => skip_block (text ++ js "*/") = Some []
  end.
Definition piece_text (p : piece) : jstr :=
  match p with
  | Blank c => [c]
  | LineComment text c => js "//" ++ text ++ [c]
  | BlockComment text => js "/*" ++ text ++ js "*/"
  end.
Definition piece_blanks (p : piece) : jstr := match p with Blank c => [c] | LineComment _ c => [c] | BlockComment _ => [] end.

Abbreviation gap := (list piece).
Abbreviation gap_text g := (concat (map piece_text g)).
Abbreviation gap_blanks g := (concat (map piece_blanks g)).

Lemma line_end_space c : is_line_end c = true -> is_js_space c = true.
Proof.
  unfold is_line_end, is_js_space. intros H%bool_decide_eq_true. apply orb_true_iff. left. apply bool_decide_eq_true.
  rewrite !elem_of_cons in *. tauto.
Qed.
Lemma space_not_slash c : is_js_space c = true -> c <> 47%N.
Proof. by intros H ->. Qed.
Lemma skip_line_app text c t : Forall (fun d => is_line_end d = false) text -> is_line_end c = true -> skip_line (text ++ c :: t) = c :: t.
Proof. intros H Hc. induction H as [|d text Hd _ IH]; cbn; [by rewrite Hc|by rewrite Hd]. Qed.
Lemma skip_block_app s : forall t u, skip_block s = Some u -> skip_block (s ++ t) = Some (u ++ t).
Proof.
  induction s as [|c [|d s] IH]; intros t u; [done|done|]. cbn [skip_block app]. destruct (_ && _)%N; [by intros [= ->]|].
  intros H. apply (IH t) in H. exact H.
Qed.

Lemma strip_piece p t : piece_ok p -> strip_comments (piece_text p ++ t) = piece_blanks p ++ strip_comments t.
Proof.
  destruct p as [c|text c|text]; cbn [piece_ok piece_text piece_blanks].
  - intros H. cbn. apply strip_cons. by apply space_not_slash.
  - intros [Ht Hc]. rewrite <- !app_assoc. change (js "//" ++ text ++ [c] ++ t) with (47 :: 47 :: text ++ c :: t)%N.
    rewrite strip_line, skip_line_app by done. apply strip_cons. by apply space_not_slash, line_end_space.
  - intros H. rewrite <- app_assoc. change (js "/*" ++ (text ++ js "*/") ++ t) with (47 :: 42 :: (text ++ js "*/") ++ t)%N.
    apply strip_block. exact (skip_block_app _ t _ H).
Qed.
Lemma strip_gap g t : Forall piece_ok g -> strip_comments (gap_text g ++ t) = gap_blanks g ++ strip_comments t.
Proof.
  induction 1 as [|p g Hp _ IH]; [done|]. cbn [map concat]. rewrite <- app_assoc, strip_piece by done. by rewrite IH, app_assoc.
Qed.
Lemma gap_spaces g : Forall piece_ok g -> Forall (fun c => is_js_space c = true) (gap_blanks g).
Proof.
  induction 1 as [|p g Hp _ IH]; [constructor|]. cbn [map concat]. apply Forall_app. split; [|done].
  destruct p as [c|text c|text]; cbn [piece_ok piece_blanks] in *; [by constructor| |constructor]. constructor; [|done]. apply line_end_space, Hp.
Qed.

(** ** Names *)

(** A name: no space, comma, parenthesis or slash in it. *)
Definition name_unit (c : N) : Prop := is_js_space c = false /\ c <> 44%N /\ c <> 41%N /\ c <> 47%N.
Definition name_ok (w : jstr) : Prop := w <> [] /\ Forall name_unit w.

(** The name without the underscores around it. *)
Definition bare (w : jstr) : jstr :=
  match w with
  | c :: ((_ :: _ :: _) as rest) => if ((c =? 95) && (List.last rest 0 =? 95))%N then removelast rest else w
  | _ => w
  end.

Lemma skip_space_app b t : Forall (fun c => is_js_space c = true) b -> skip_space (b ++ t) = skip_space t.
Proof. induction 1 as [|c b Hc _ IH]; [done|]. cbn. by rewrite Hc. Qed.
Lemma skip_space_name w t : name_ok w -> skip_space (w ++ t) = w ++ t.
Proof. intros [Hne Hw]. destruct Hw as [|c w [Hc _] _]; [done|]. cbn. by rewrite Hc. Qed.
Lemma name_rev w : name_ok w -> name_ok (rev w).
Proof. intros [Hne Hw]. split; [intros E; apply Hne; by rewrite <- (rev_involutive w), E|]. by apply Forall_rev. Qed.
Lemma trim_name b1 w b2 : Forall (fun c => is_js_space c = true) b1 -> Forall (fun c => is_js_space c = true) b2 -> name_ok w -> trim (b1 ++ w ++ b2) = w.
Proof.
  intros H1 H2 Hw. unfold trim. rewrite skip_space_app, skip_space_name, rev_app_distr by done.
  rewrite skip_space_app by (by apply Forall_rev). rewrite <- (app_nil_r (rev w)), skip_space_name by (by apply name_rev).
  by rewrite app_nil_r, rev_involutive.
Qed.
Lemma fn_arg_name b1 w b2 : Forall (fun c => is_js_space c = true) b1 -> Forall (fun c => is_js_space c = true) b2 -> name_ok w ->
  fn_arg (b1 ++ w ++ b2) = Some (bare w).
Proof.
  intros H1 H2 Hw. unfold fn_arg. rewrite trim_name by done. destruct Hw as [Hne Hw]. destruct w as [|c rest]; [done|].
  assert (E : existsb is_js_space (c :: rest) = false).
  { clear Hne. induction Hw as [|d w [Hd _] _ IH]; [done|]. cbn. by rewrite Hd. }
  rewrite E. destruct rest as [|d [|d' rest]]; cbn [bare]; try done. by destruct (_ && _)%N.
Qed.

(** ** The text of a function *)

Record argument : Type := Argument { a_before : gap; a_name : jstr; a_after : gap }.
Definition argument_ok (a : argument) : Prop := Forall piece_ok (a_before a) /\ name_ok (a_name a) /\ Forall piece_ok (a_after a).
Definition argument_text (a : argument) : jstr := gap_text (a_before a) ++ a_name a ++ gap_text (a_after a).
Definition argument_blanks (a : argument) : jstr := gap_blanks (a_before a) ++ a_name a ++ gap_blanks (a_after a).

(** [function name(arguments) { ... }], with gaps; [rest] is anything. *)
Definition function_text (g0 : gap) (name : jstr) (g1 : gap) (args : list argument) (rest : jstr) : jstr :=
  js "function" ++ gap_text g0 ++ name ++ gap_text g1 ++ chr "(" :: join [chr ","] (map argument_text args) ++ chr ")" :: rest.

Lemma strip_argument a t : argument_ok a -> strip_comments (argument_text a ++ t) = argument_blanks a ++ strip_comments t.
Proof.
  intros (H1 & [_ H2] & H3). unfold argument_text, argument_blanks. rewrite <- !app_assoc, strip_gap, strip_plain, strip_gap by
    (try done; intros Hx; rewrite Forall_forall in H2; by destruct (H2 _ Hx) as (_ & _ & _ & ?)). done.
Qed.
Lemma strip_arguments args t : Forall argument_ok args ->
  strip_comments (join [chr ","] (map argument_text args) ++ t) = join [chr ","] (map argument_blanks args) ++ strip_comments t.
Proof.
  induction 1 as [|a args Ha Hargs IH]; [done|]. destruct args as [|a' args]; [by apply strip_argument|]. cbn [map] in *.
  rewrite !join_cons2, <- !app_assoc, strip_argument by done. do 2 f_equal. cbn [app]. rewrite strip_cons by done. by rewrite IH.
Qed.

Lemma blanks_no_paren g : Forall piece_ok g -> Forall (fun c => negb (c =? 40)%N = true) (gap_blanks g) /\ Forall (fun c => negb (c =? 41)%N = true) (gap_blanks g) /\ 44%N ∉ gap_blanks g.
Proof.
  intros H%gap_spaces. split_and!.
  1, 2: eapply Forall_impl; [exact H|]; intros c Hc; cbn in Hc; apply negb_true_iff, N.eqb_neq; by intros ->.
  intros Hx. rewrite Forall_forall in H. by apply H in Hx.
Qed.
Lemma argument_no_paren a : argument_ok a -> Forall (fun c => negb (c =? 41)%N = true) (argument_blanks a) /\ 44%N ∉ argument_blanks a.
Proof.
  intros (H1 & [_ H2] & H3). apply blanks_no_paren in H1 as (_ & H1 & H1'), H3 as (_ & H3 & H3'). split.
  - unfold argument_blanks. rewrite !Forall_app. split_and!; [done| |done]. eapply Forall_impl; [exact H2|].
    intros c (_ & _ & Hc & _). by apply negb_true_iff, N.eqb_neq.
  - unfold argument_blanks. rewrite !not_elem_of_app. split_and!; [done| |done]. intros Hx. rewrite Forall_forall in H2. by apply H2 in Hx as (_ & ? & _).
Qed.

Lemma skip_space_join b w g ws : Forall (fun c => is_js_space c = true) b -> name_ok w ->
  skip_space (join [chr ","] ((b ++ w ++ g) :: ws)) = join [chr ","] ((w ++ g) :: ws).
Proof.
  intros Hb Hw. destruct ws as [|v ws].
  - change (skip_space (b ++ w ++ g) = w ++ g). by rewrite skip_space_app, skip_space_name.
  - rewrite !join_cons2, <- !app_assoc. by rewrite skip_space_app, skip_space_name.
Qed.
(** The arguments as the parentheses give them: the first without the spaces before it. *)
Lemma arguments_split args : Forall argument_ok args ->
  omap fn_arg (split (chr ",") (skip_space (join [chr ","] (map argument_blanks args)))) = map (fun a => bare (a_name a)) args.
Proof.
  intros H. destruct H as [|a args Ha Hargs]; [done|].
  assert (Hw : skip_space (join [chr ","] (map argument_blanks (a :: args))) = join [chr ","] ((a_name a ++ gap_blanks (a_after a)) :: map argument_blanks args)).
  { destruct Ha as (H1 & H2 & H3). apply skip_space_join; [by apply gap_spaces|done]. }
  rewrite Hw, split_join; [|done|].
  - cbn [omap list_omap map]. destruct Ha as (_ & H2 & H3). pose proof (fn_arg_name [] (a_name a) (gap_blanks (a_after a)) ltac:(constructor) (gap_spaces _ H3) H2) as E.
    cbn [app] in E. rewrite E. f_equal. clear Hw H2 H3 E. induction Hargs as [|b args (H1 & H2 & H3) _ IH]; [done|]. cbn [omap list_omap map]. unfold argument_blanks at 1.
    rewrite fn_arg_name by (try done; by apply gap_spaces). f_equal. exact IH.
  - constructor.
    + apply argument_no_paren in Ha as [_ Ha]. unfold argument_blanks in Ha. rewrite !not_elem_of_app in *. tauto.
    + apply Forall_map. eapply Forall_impl; [exact Hargs|]. intros b Hb. by apply argument_no_paren.
Qed.

Lemma skip_space_before x c t : is_js_space c = false -> skip_space (x ++ c :: t) = skip_space x ++ c :: t.
Proof. intros Hc. induction x as [|d x IH]; cbn; [by rewrite Hc|]. by destruct (is_js_space d). Qed.
Lemma skip_space_forall P x : Forall P x -> Forall P (skip_space x).
Proof. induction 1 as [|c x Hc Hx IH]; cbn; [constructor|]. destruct (is_js_space c); [done|by constructor]. Qed.
Lemma join_forall P sep ws : Forall P sep -> Forall (Forall P) ws -> Forall P (join sep ws).
Proof.
  intros Hs. induction 1 as [|w ws Hw Hws IH]; [constructor|]. destruct ws as [|v ws]; [done|]. rewrite join_cons2, !Forall_app. by split_and!.
Qed.
Lemma fn_args_first s a : fn_args_here s = Some a -> fn_args true s = Some a.
Proof. intros H. destruct s; cbn [fn_args]; by rewrite H. Qed.

Definition function_name_ok (name : jstr) : Prop := Forall (fun c => c <> 40 /\ c <> 47)%N name.

(** C39.  The names that annotate reads from the text of a function are those of its arguments, in order, without the
    underscores around them, whatever the spaces and comments before, between and after them, even comments that
    hold commas and parentheses, and whatever the body. *)
Theorem annotate_arguments n g0 name g1 args rest :
  Forall piece_ok g0 -> Forall piece_ok g1 -> function_name_ok name -> Forall argument_ok args ->
  annotate (Source (S n) (function_text g0 name g1 args rest)) = Ok (map (fun a => Tok (bare (a_name a))) args).
Proof.
  intros H0 H1 Hn Ha. cbn [annotate]. unfold function_text.
  assert (Hns : 47%N ∉ name) by (intros Hx; unfold function_name_ok in Hn; rewrite Forall_forall in Hn; by destruct (Hn _ Hx)).
  rewrite (strip_plain (js "function")), strip_gap, strip_plain, strip_gap, strip_cons, strip_arguments, strip_cons by
    (done || (refine (bool_decide_unpack _ _); vm_compute; exact I)).
  rewrite (fn_args_first _ (skip_space (join [chr ","] (map argument_blanks args)))).
  { by rewrite arguments_split, map_map by done. }
  unfold fn_args_here. rewrite starts_with_app. change 8 with (length (js "function")). rewrite drop_app_length.
  rewrite !(app_assoc _ _ (chr "(" :: _)), span_stop; [|apply Forall_forall|done].
  - rewrite skip_space_before by done. rewrite span_stop; [done|apply Forall_forall|done]. apply skip_space_forall, join_forall; [by constructor|].
    apply Forall_map. eapply Forall_impl; [exact Ha|]. intros a Hx. by apply argument_no_paren.
  - rewrite !Forall_app. split_and!; [by apply blanks_no_paren| |by apply blanks_no_paren].
    eapply Forall_impl; [exact Hn|]. intros c [Hc _]. by apply negb_true_iff, N.eqb_neq.
Qed.

(** [function f(a /*, x) */, _b_, // c
     $q) { ... }] *)
Definition sample_function : jstr :=
  function_text [Blank 32] (js "f") [] [Argument [] (js "a") [Blank 32; BlockComment (js ", x) ")]; Argument [Blank 32] (js "_b_") [];
    Argument [Blank 32; LineComment (js " c") 10; Blank 32] (js "$q") []]%N (js " { return a; } // end").
Theorem annotate_arguments_witness :
  annotate (Source 3 sample_function) = Ok [Tok (js "a"); Tok (js "b"); Tok (js "$q")] /\
  sample_function = js "function f(a /*, x) */, _b_, // c" ++ [10; 32]%N ++ js "$q) { return a; } // end".
Proof.
  split; [|reflexivity]. unfold sample_function. rewrite annotate_arguments; [reflexivity|..].
  1, 2: by repeat constructor.
  - by repeat constructor.
  - repeat constructor; cbn; done.
Defined.
