(* ===== verification/Http.v ===== *)
(** * Requests: $http and $httpBackend (angular.js)

    A request is known by its number, a deferred by its own; a promise that is settled calls its callbacks in the next
    digest, as [Promise] shows for [$q].  The transport is the environment: what [XMLHttpRequest] answers, and when.
    [lowercase] and [JSON.parse] are parameters.  The names of headers are not members of [Object.prototype], and the
    URLs that are kept in a cache are not either. *)

From stdpp Require Import gmap.
From S2P Require Import Prelude JsString JsObject JsNumber UriCodec Json Cache.

Section Texts.
Context (lowercase : jstr -> jstr).

(** ** Headers *)

(** One line of [parseHeaders]. *)
Definition parse_header (parsed : jsobj jstr) (line : jstr) : jsobj jstr :=
  let '(before, after) := span (fun c => negb (c =? 58)%N) line in
  let '(key, val) := match after with
                     | _ :: value => (lowercase (trim before), trim value)
                     | [] => ([], trim line)
                     end in
  match key with
  | [] => parsed
  | _ => match ob_get parsed key with
         | Some ((_ :: _) as old) => ob_set parsed key (old ++ js ", " ++ val)
         | _ => ob_set parsed key val
         end
  end.
Definition parseHeaders (headers : jstr) : jsobj jstr :=
  match headers with [] => [] | _ => fold_left parse_header (split 10%N headers) [] end.

(** What [headersGetter] is given: the text of an answer, or the object a cache keeps. *)
Inductive headers : Type := HeadersText (s : option jstr) | HeadersObject (o : jsobj jstr).
Definition headersObj (h : headers) : jsobj jstr :=
  match h with HeadersText s => parseHeaders (default [] s) | HeadersObject o => o end.
(** [headersGetter(headers)(name)]; an empty value is [null] too. *)
Definition headersGetter (h : headers) (name : jstr) : option jstr :=
  match ob_get (headersObj h) (lowercase name) with Some ((_ :: _) as v) => Some v | _ => None end.

(** The value of a header of a request: a text, or a function that gives one or [null]. *)
Inductive header_value : Type := HText (s : jstr) | HFn (content : option jstr).
Definition execHeaders (hs : jsobj header_value) : jsobj jstr :=
  omap (fun kv => match kv.2 with HText s => Some (kv.1, s) | HFn c => (fun s => (kv.1, s)) <$> c end) hs.

Definition extend_headers {V} (dst src : jsobj V) : jsobj V := fold_left (fun o kv => ob_set o kv.1 kv.2) src dst.

(** [mergeHeaders], of the headers of the request and of the defaults: the common ones and those of the method. *)
Definition merge_default (reqHeaders : jsobj jstr) (kv : jstr * jstr) : jsobj jstr :=
  if existsb (fun name => jeqb (lowercase name) (lowercase kv.1)) (enum_names reqHeaders) then reqHeaders
  else ob_set reqHeaders kv.1 kv.2.
Definition mergeHeaders (common method_defaults config_headers : jsobj header_value) : jsobj jstr :=
  let defHeaders := execHeaders (extend_headers (extend_headers [] common) method_defaults) in
  let reqHeaders := execHeaders (extend_headers [] config_headers) in
  fold_left (fun o name => match ob_get defHeaders name with Some v => merge_default o (name, v) | None => o end)
            (enum_names defHeaders) reqHeaders.

(** The content type is left out when there is no data. *)
Definition strip_content_type (hs : jsobj jstr) : jsobj jstr :=
  filter (fun kv => jeqb (lowercase kv.1) (js "content-type") = false) hs.

(** ** Data *)

(** [PROTECTION_PREFIX]: a bracket, a parenthesis, a brace, a quote, perhaps a comma, the end of the line. *)
Definition strip_protection (s : jstr) : jstr :=
  match s with
  | 41%N :: 93%N :: 125%N :: 39%N :: 44%N :: 10%N :: s' => s'
  | 41%N :: 93%N :: 125%N :: 39%N :: 10%N :: s' => s'
  | _ => s
  end.
(** [JSON_START], [JSON_END]. *)
Definition json_start (s : jstr) : bool :=
  match skip_space s with
  | c :: rest => (c =? 91)%N || ((c =? 123)%N && match rest with d :: _ => negb (d =? 123)%N | [] => false end)
  | [] => false
  end.
Definition json_end (s : jstr) : bool :=
  match skip_space (rev s) with c :: _ => ((c =? 125) || (c =? 93))%N | [] => false end.

Context (json_parse : jstr -> result js_error json).
(** The default [transformResponse]. *)
Definition transformResponse (data : json) : result js_error json :=
  match data with
  | JStr s => let s := strip_protection s in if json_start s && json_end s then json_parse s else Ok (JStr s)
  | _ => Ok data
  end.
End Texts.

Section Data.
Context {H : Type}.
(** [transformData], of a list of functions. *)
Fixpoint transformData (data : json) (hs : H) (fns : list (json -> H -> result js_error json)) : result js_error json :=
  match fns with [] => Ok data | fn :: fns => rbind (fn data hs) (fun data => transformData data hs fns) end.
End Data.

Definition isSuccess (status : Z) : bool := ((200 <=? status) && (status <? 300))%Z.

(** ** The chain of interceptors *)

Section Chain.
Context {F : Type}.
Record interceptor : Type := Interceptor { i_request : option F; i_requestError : option F; i_response : option F; i_responseError : option F }.

(** The interceptors of the old kind, each put at its index by [splice]. *)
Definition splice {A} (index : nat) (x : A) (l : list A) : list A := take index l ++ x :: drop index l.
Fixpoint add_responses (index : nat) (responseInterceptors : list (F * F)) (l : list interceptor) : list interceptor :=
  match responseInterceptors with
  | [] => l
  | (response, responseError) :: fs => add_responses (S index) fs (splice index (Interceptor None None (Some response) (Some responseError)) l)
  end.
Definition reversedInterceptors (interceptors : list interceptor) (responseInterceptors : list (F * F)) : list interceptor :=
  add_responses 0 responseInterceptors (fold_left (fun l i => i :: l) interceptors []).

Definition given (f g : option F) : bool := match f, g with None, None => false | _, _ => true end.
(** What an interceptor adds, at the two ends. *)
Definition add_interceptor (chain : list (option F * option F)) (i : interceptor) : list (option F * option F) :=
  let chain := if given (i_request i) (i_requestError i) then (i_request i, i_requestError i) :: chain else chain in
  if given (i_response i) (i_responseError i) then chain ++ [(i_response i, i_responseError i)] else chain.
(** The calls of [then] that [$http] makes, in order. *)
Definition chain (serverRequest : F) (reversed : list interceptor) : list (option F * option F) :=
  fold_left add_interceptor reversed [(Some serverRequest, None)].
End Chain.

(** ** Options of a request *)

(** [config.cache] and [defaults.cache]. *)
Inductive cache_option : Type := CUnset | CFalse | CTrue | CObject (k : nat).
Definition cache_truthy (c : cache_option) : bool := match c with CTrue | CObject _ => true | _ => false end.
Definition cache_of (defaultCache : nat) (is_get : bool) (config_cache defaults_cache : cache_option) : option nat :=
  if (cache_truthy config_cache || cache_truthy defaults_cache) && negb (match config_cache with CFalse => true | _ => false end) && is_get
  then Some (match config_cache, defaults_cache with CObject k, _ => k | _, CObject k => k | _, _ => defaultCache end)
  else None.

(** The header against cross-site requests. *)
Definition add_xsrf (same_origin : bool) (cookies : jsobj jstr) (cookieName headerName : jstr) (reqHeaders : jsobj jstr) : jsobj jstr :=
  match (if same_origin then ob_get cookies cookieName else None) with
  | Some ((_ :: _) as v) => ob_set reqHeaders headerName v
  | _ => reqHeaders
  end.

(** The parameters of [buildUrl], their names sorted: a value, some values. *)
Inductive param : Type := PNone | PText (s : jstr) | PList (l : list jstr).
Definition param_parts (kv : jstr * param) : result uri_error (list jstr) :=
  let values := match kv.2 with PNone => [] | PText s => [s] | PList l => l end in
  map_result (fun v => rbind (encodeUriQuery kv.1 false) (fun k => rbind (encodeUriQuery v false) (fun v => Ok (k ++ chr "=" :: v)))) values.
Definition buildUrl (url : jstr) (params : option (list (jstr * param))) : result uri_error jstr :=
  match params with
  | None => Ok url
  | Some params =>
      rbind (map_result param_parts params) (fun parts =>
      match concat parts with
      | [] => Ok url
      | parts => Ok (url ++ (if bool_decide (chr "?" ∈ url) then chr "&" else chr "?") :: join [chr "&"] parts)
      end)
  end.

(** ** sendReq *)

Record response : Type := Response { r_data : json; r_status : Z; r_headers : headers; r_config : nat; r_statusText : jstr }.

(** What a cache holds: the promise of a request that is on its way, an answer, or what the application put: neither
    an array nor with a method [then]. *)
Inductive centry : Type :=
| CPromise (d : nat)
| CArray (status : Z) (data : json) (hs : jsobj jstr) (statusText : jstr)
| CValue (data : json).

(** A deferred: not settled, or settled with a response, as a success or not. *)
Inductive future : Type := Unsettled | Answered (ok : bool) (r : response).

(** A request that is with the browser: the variables of [sendReq] and of the back end. *)
Record pending : Type := Pending {
  p_deferred : nat; p_config : nat; p_url : jstr; p_cache : option nat;
  p_status : option Z              (** [status]: [-1] when aborted *)
}.

Record http : Type := Http {
  h_futures : gmap nat future;
  h_next : nat;                    (** the number of the next deferred *)
  h_caches : gmap nat (cache centry);
  h_pendingRequests : list nat;    (** the configurations *)
  h_waiting : list (nat * nat);    (** the calls of [then(removePendingReq, removePendingReq)]: promise, configuration *)
  h_requests : gmap nat pending;
  h_outstanding : Z;               (** the requests that [$browser] counts *)
  h_sent : list jstr               (** the URLs that went to the server *)
}.

Section Machine.
Context (lowercase : jstr -> jstr).

Definition set_futures (f : gmap nat future) (st : http) : http :=
  Http f (h_next st) (h_caches st) (h_pendingRequests st) (h_waiting st) (h_requests st) (h_outstanding st) (h_sent st).
Definition set_caches (c : gmap nat (cache centry)) (st : http) : http :=
  Http (h_futures st) (h_next st) c (h_pendingRequests st) (h_waiting st) (h_requests st) (h_outstanding st) (h_sent st).
Definition set_pending (p : list nat) (st : http) : http :=
  Http (h_futures st) (h_next st) (h_caches st) p (h_waiting st) (h_requests st) (h_outstanding st) (h_sent st).
Definition set_waiting (w : list (nat * nat)) (st : http) : http :=
  Http (h_futures st) (h_next st) (h_caches st) (h_pendingRequests st) w (h_requests st) (h_outstanding st) (h_sent st).
Definition set_requests (r : gmap nat pending) (n : Z) (sent : list jstr) (st : http) : http :=
  Http (h_futures st) (h_next st) (h_caches st) (h_pendingRequests st) (h_waiting st) r n sent.

(** [deferred.resolve] or [deferred.reject]: nothing if it is settled. *)
Definition settle (d : nat) (ok : bool) (r : response) (st : http) : http :=
  match h_futures st !! d with Some Unsettled => set_futures (<[d := Answered ok r]> (h_futures st)) st | _ => st end.

(** [resolvePromise]. *)
Definition resolvePromise (d config : nat) (data : json) (status : Z) (hs : headers) (statusText : jstr) (st : http) : http :=
  let status := Z.max status 0 in
  settle d (isSuccess status) (Response data status hs config statusText) st.

(** [removePendingReq]: the first one that is this configuration. *)
Fixpoint remove_config (config : nat) (l : list nat) : list nat :=
  match l with [] => [] | c :: l => if Nat.eqb c config then l else c :: remove_config config l end.

(** The callbacks of the promises that are settled, in a digest. *)
Definition is_settled (st : http) (d : nat) : bool := match h_futures st !! d with Some (Answered _ _) => true | _ => false end.
Definition digest (st : http) : http :=
  let ready := filter (fun w => is_settled st w.1 = true) (h_waiting st) in
  let rest := filter (fun w => is_settled st w.1 = false) (h_waiting st) in
  set_waiting rest (set_pending (fold_left (fun l w => remove_config w.2 l) ready (h_pendingRequests st)) st).

Definition new_deferred (st : http) : nat * http :=
  let d := h_next st in
  (d, Http (<[d := Unsettled]> (h_futures st)) (S d) (h_caches st) (h_pendingRequests st) (h_waiting st) (h_requests st) (h_outstanding st) (h_sent st)).
Definition wait (d config : nat) (st : http) : http := set_waiting (h_waiting st ++ [(d, config)]) st.

(** The request goes to the browser. *)
Definition httpBackend (d config : nat) (url : jstr) (cache : option nat) (st : http) : http :=
  set_requests (<[d := Pending d config url cache None]> (h_requests st)) (h_outstanding st + 1) (h_sent st ++ [url]) st.

(** [sendReq], with the URL built; it returns a promise. *)
Definition sendReq (config : nat) (url : jstr) (cache : option nat) (st : http) : result js_error nat * http :=
  let '(d, st) := new_deferred st in
  let st := wait d config (set_pending (h_pendingRequests st ++ [config]) st) in
  match cache with
  | None => (Ok d, httpBackend d config url None st)
  | Some k =>
      match h_caches st !! k with
      | None => (Throw JsTypeError, st)
      | Some c =>
          let '(c, cachedResp) := Cache.get url c in
          let st := set_caches (<[k := c]> (h_caches st)) st in
          match cachedResp with
          | Some (CPromise d') => (Ok d', wait d' config st)
          | Some (CArray status data hs statusText) => (Ok d, resolvePromise d config data status (HeadersObject hs) statusText st)
          | Some (CValue JNull) => (Throw JsTypeError, st)
          | Some (CValue data) => (Ok d, resolvePromise d config data 200 (HeadersObject []) (js "OK") st)
          | None =>
              match Cache.put url (Some (CPromise d)) c with
              | Throw e => (Throw e, st)
              | Ok (c, _) => (Ok d, httpBackend d config url (Some k) (set_caches (<[k := c]> (h_caches st)) st))
              end
          end
      end
  end.

(** [done]; the digest that it starts follows, unless one is under way. *)
Definition done_ (p : pending) (status : Z) (data : json) (headersString : option jstr) (statusText : jstr) (in_digest : bool) (st : http)
    : result js_error unit * http :=
  let cached : result js_error http :=
    match p_cache p with
    | None => Ok st
    | Some k =>
        match h_caches st !! k with
        | None => Throw JsTypeError
        | Some c =>
            if isSuccess status then
              match Cache.put (p_url p) (Some (CArray status data (parseHeaders lowercase (default [] headersString)) statusText)) c with
              | Ok (c, _) => Ok (set_caches (<[k := c]> (h_caches st)) st)
              | Throw e => Throw e
              end
            else Ok (set_caches (<[k := Cache.remove (p_url p) c]> (h_caches st)) st)
        end
    end in
  match cached with
  | Throw e => (Throw e, st)
  | Ok st =>
      let st := resolvePromise (p_deferred p) (p_config p) data status (HeadersText headersString) statusText st in
      (Ok tt, if in_digest then st else digest st)
  end.

(** ** The back end *)

(** What [XMLHttpRequest] tells when its [readyState] is 4. *)
Record answer : Type := Answer { a_status : Z; a_data : json; a_headers : option jstr; a_text : jstr }.

(** [timeoutRequest]; [abort] makes the browser tell of the end. *)
Definition timeoutRequest (r : nat) (st : http) : http :=
  match h_requests st !! r with
  | Some p => set_requests (<[r := Pending (p_deferred p) (p_config p) (p_url p) (p_cache p) (Some (-1)%Z)]> (h_requests st)) (h_outstanding st) (h_sent st) st
  | None => st
  end.

(** The status that [completeRequest] calls back with. *)
Definition fixed_status (is_file : bool) (status : Z) (data : json) : Z :=
  let status := if (status =? 0)%Z then (if jtruthy data then 200 else if is_file then 404 else 0)%Z else status in
  if (status =? 1223)%Z then 204%Z else status.

(** [onreadystatechange] and [completeRequest]; [xhr] is [null] afterwards, so that it is nothing a second time. *)
Definition ready_4 (is_file in_digest : bool) (r : nat) (a : answer) (st : http) : result js_error unit * http :=
  match h_requests st !! r with
  | None => (Ok tt, st)
  | Some p =>
      let aborted := bool_decide (p_status p = Some (-1)%Z) in
      let data := if aborted then JNull else a_data a in
      let st := set_requests (delete r (h_requests st)) (h_outstanding st) (h_sent st) st in
      match done_ p (fixed_status is_file (default (a_status a) (p_status p)) data) data
                  (if aborted then None else a_headers a) (a_text a) in_digest st with
      | (Ok _, st) => (Ok tt, set_requests (h_requests st) (h_outstanding st - 1) (h_sent st) st)
      | (Throw e, st) => (Throw e, st)
      end
  end.
End Machine.
