(* ===== verification/HttpFacts.v ===== *)
(** * Requests that end *)

From stdpp Require Import gmap.
From S2P Require Import Prelude JsString JsObject JsNumber UriCodec Json Cache Http.

(** ** The order of the interceptors *)

Lemma splice_at {A} (l1 : list A) x l2 : splice (length l1) x (l1 ++ l2) = l1 ++ x :: l2.
Proof. unfold splice. by rewrite take_app_length, drop_app_length. Qed.
Lemma fold_rev {A} (l : list A) : forall acc, fold_left (fun l i => i :: l) l acc = rev l ++ acc.
Proof. induction l as [|x l IH]; intros acc; cbn; [done|]. rewrite IH. by rewrite <- app_assoc. Qed.

Section Order.
Context {F : Type}.
Implicit Types (l : list (interceptor (F := F))).
Definition asks l : list (option F * option F) :=
  omap (fun i => if given (i_request i) (i_requestError i) then Some (i_request i, i_requestError i) else None) l.
Definition answers l : list (option F * option F) :=
  omap (fun i => if given (i_response i) (i_responseError i) then Some (i_response i, i_responseError i) else None) l.
Definition old_kind (f : F * F) : interceptor := Interceptor None None (Some f.1) (Some f.2).

Lemma add_responses_app fs : forall l1 l2, add_responses (length l1) fs (l1 ++ l2) = l1 ++ map old_kind fs ++ l2.
Proof.
  induction fs as [|[f g] fs IH]; intros l1 l2; cbn [add_responses map app]; [done|]. rewrite splice_at.
  specialize (IH (l1 ++ [old_kind (f, g)]) l2). rewrite <- !app_assoc in IH. cbn [app] in IH. rewrite <- IH. f_equal. rewrite length_app. cbn. lia.
Qed.
Lemma reversed_spec l fs : reversedInterceptors l fs = map old_kind fs ++ rev l.
Proof. unfold reversedInterceptors. rewrite fold_rev, app_nil_r. apply (add_responses_app fs []). Qed.

Lemma chain_from l : forall before f after,
  fold_left add_interceptor l (before ++ f :: after) = rev (asks l) ++ before ++ f :: after ++ answers l.
Proof.
  induction l as [|i l IH]; intros before f after; [cbn; by rewrite app_nil_r|]. cbn [fold_left]. unfold add_interceptor at 2. unfold asks, answers in *. cbn [omap list_omap].
  set (q := (i_request i, i_requestError i)). set (r := (i_response i, i_responseError i)).
  destruct (given (i_request i) (i_requestError i)), (given (i_response i) (i_responseError i)); cbn [rev].
  - change ((q :: before ++ f :: after) ++ [r]) with (((q :: before) ++ f :: after) ++ [r]). rewrite <- app_assoc. cbn [app].
    etransitivity; [exact (IH (q :: before) f (after ++ [r]))|]. by rewrite <- !app_assoc.
  - etransitivity; [exact (IH (q :: before) f after)|]. by rewrite <- !app_assoc.
  - rewrite <- app_assoc. etransitivity; [exact (IH before f (after ++ [r]))|]. by rewrite <- !app_assoc.
  - apply IH.
Qed.
Lemma asks_app l1 l2 : asks (l1 ++ l2) = asks l1 ++ asks l2.
Proof. apply omap_app. Qed.
Lemma answers_app l1 l2 : answers (l1 ++ l2) = answers l1 ++ answers l2.
Proof. apply omap_app. Qed.
Lemma asks_old fs : asks (map old_kind fs) = [].
Proof. induction fs as [|x fs IH]; [done|exact IH]. Qed.
Lemma asks_rev l : rev (asks (rev l)) = asks l.
Proof.
  induction l as [|i l IH]; [done|]. cbn [rev]. rewrite asks_app, rev_app_distr, IH. unfold asks. cbn [omap list_omap]. by destruct (given _ _).
Qed.
(** The requests pass the interceptors in the order of their registration, the answers in the opposite order, those of
    the old kind first. *)
Lemma chain_spec f l fs : chain f (reversedInterceptors l fs) =
  asks l ++ (Some f, None) :: answers (map old_kind fs) ++ answers (rev l).
Proof.
  unfold chain. rewrite reversed_spec. etransitivity; [exact (chain_from (map old_kind fs ++ rev l) [] (Some f, None) [])|].
  cbn [app]. rewrite asks_app, answers_app, asks_old. cbn [app]. by rewrite asks_rev.
Qed.
End Order.

(** ** The machine *)

(** A promise that is settled or whose request is with the browser. *)
Definition live (st : http) (d : nat) : Prop := is_settled st d = true \/ is_Some (h_requests st !! d).
#[export] Instance live_dec st d : Decision (live st d).
Proof. unfold live. apply _. Defined.
Abbreviation awaited st := (filter (fun w => live st w.1) (h_waiting st)).

(** The invariant; [extra] are configurations that wait for nothing yet. *)
Record http_okx (extra : list nat) (st : http) (promises : list (nat * jstr)) : Prop := HttpOk {
  ok_next : forall d, h_next st <= d -> h_futures st !! d = None;
  ok_request : forall r p, h_requests st !! r = Some p -> p_deferred p = r /\ h_futures st !! r = Some Unsettled;
  ok_caches : forall k c, h_caches st !! k = Some c -> bounded c = false /\
    forall url d, c_data c !! url = Some (CPromise d) -> live st d /\ forall p, h_requests st !! d = Some p -> p_url p = url;
  ok_known : forall r p k, h_requests st !! r = Some p -> p_cache p = Some k -> is_Some (h_caches st !! k);
  ok_pending : h_pendingRequests st ⊆+ map snd (awaited st) ++ extra;
  ok_answers : forall d ok r, h_futures st !! d = Some (Answered ok r) -> ok = isSuccess (r_status r);
  ok_outstanding : h_outstanding st = Z.of_nat (size (h_requests st));
  ok_promises : forall d url, (d, url) ∈ promises -> live st d /\ forall p, h_requests st !! d = Some p -> p_url p = url
}.

Lemma settle_settled d ok r st d' : is_settled st d' = true -> is_settled (settle d ok r st) d' = true.
Proof.
  unfold is_settled, settle. destruct (h_futures st !! d) as [[|]|] eqn:E; try done. cbn. destruct (decide (d' = d)) as [->|Hne]; [by rewrite lookup_insert_eq|].
  by rewrite lookup_insert_ne by congruence.
Qed.
Lemma settle_done d ok r st : is_Some (h_futures st !! d) -> is_settled (settle d ok r st) d = true.
Proof.
  intros [f E]. unfold is_settled, settle. rewrite E. destruct f; cbn; [by rewrite lookup_insert_eq|by rewrite E].
Qed.
Lemma settle_frame d ok r st : let st' := settle d ok r st in
  h_next st' = h_next st /\ h_caches st' = h_caches st /\ h_pendingRequests st' = h_pendingRequests st /\ h_waiting st' = h_waiting st /\
  h_requests st' = h_requests st /\ h_outstanding st' = h_outstanding st /\ h_sent st' = h_sent st.
Proof. unfold settle. by destruct (h_futures st !! d) as [[|]|]. Qed.

Lemma filter_more {A} (P Q : A -> Prop) `{forall x, Decision (P x)} `{forall x, Decision (Q x)} (l : list A) :
  (forall x, P x -> Q x) -> filter P l ⊆+ filter Q l.
Proof.
  intros HPQ. induction l as [|x l IH]; [done|]. rewrite !filter_cons. destruct (decide (P x)), (decide (Q x)); [by apply submseteq_skip|naive_solver|by apply submseteq_cons|done].
Qed.
Abbreviation http_ok := (http_okx []).

(** The same promises are live, or more. *)
Definition more_live (st st' : http) : Prop := forall d, live st d -> live st' d.
Lemma pending_mono extra st st' : h_pendingRequests st ⊆+ map snd (awaited st) ++ extra -> h_pendingRequests st' = h_pendingRequests st ->
  h_waiting st' = h_waiting st -> more_live st st' -> h_pendingRequests st' ⊆+ map snd (awaited st') ++ extra.
Proof. intros Hp -> -> Hl. etrans; [exact Hp|]. apply submseteq_app; [|done]. apply fmap_submseteq, filter_more. intros w. apply Hl. Qed.
(** The last call of [then] is on a promise that is live now. *)
Lemma pending_found config d st st' : h_pendingRequests st ⊆+ map snd (awaited st) ++ [config] -> h_pendingRequests st' = h_pendingRequests st ->
  (exists W, h_waiting st' = W ++ [(d, config)] /\ (h_waiting st = W \/ (h_waiting st = W ++ [(d, config)] /\ ~ live st d))) ->
  live st' d -> more_live st st' -> h_pendingRequests st' ⊆+ map snd (awaited st') ++ [].
Proof.
  intros Hp -> (W & -> & HW) Hd Hl. rewrite app_nil_r, filter_app, map_app. rewrite (filter_cons_True _ (d, config)) by done. rewrite filter_nil. cbn [map snd].
  etrans; [exact Hp|]. apply submseteq_app; [|done]. apply fmap_submseteq.
  assert (E : awaited st = filter (fun w => live st w.1) W).
  { destruct HW as [->|[-> Hn]]; [done|]. rewrite filter_app, filter_cons_False by done. by rewrite filter_nil, app_nil_r. }
  rewrite E. apply filter_more. intros w. apply Hl.
Qed.

Section Steps.
Context (promises : list (nat * jstr)).

(** The first lines of [sendReq]. *)
Definition started (config : nat) (st : http) : http :=
  wait (h_next st) config (set_pending (h_pendingRequests st ++ [config]) (new_deferred st).2).

Lemma started_live config st d : http_ok st promises -> live (started config st) d <-> live st d.
Proof.
  intros O. unfold live, is_settled. cbn. destruct (decide (d = h_next st)) as [->|Hne]; [|by rewrite lookup_insert_ne by congruence].
  rewrite lookup_insert_eq. by rewrite (ok_next _ _ _ O) by lia.
Qed.
Lemma started_ok config st : http_ok st promises -> http_okx [config] (started config st) promises /\ ~ live (started config st) (h_next st).
Proof.
  intros O. assert (Hl := fun d => started_live config st d O). assert (Hnl : ~ live st (h_next st)).
  { intros [H|[p H]]; [unfold is_settled in H; by rewrite (ok_next _ _ _ O) in H by lia|].
    apply (ok_request _ _ _ O) in H as [_ H]. by rewrite (ok_next _ _ _ O) in H by lia. }
  split; [|by rewrite Hl]. destruct O as [O1 O2 O3 O4 O5 O8 O6 O7]. constructor; cbn; try done.
  - intros d Hd. rewrite lookup_insert_ne by lia. apply O1. lia.
  - intros r p Hr. destruct (O2 r p Hr) as [? Hf]. split; [done|]. rewrite lookup_insert_ne; [done|]. intros <-. by rewrite O1 in Hf by lia.
  - intros k c Hk. destruct (O3 k c Hk) as [? Hc]. split; [done|]. intros url d Hd. rewrite Hl. by apply Hc.
  - rewrite app_nil_r in O5. apply submseteq_app; [|done]. etrans; [exact O5|]. apply fmap_submseteq. rewrite filter_app.
    etrans; [apply (filter_more (fun w => live st w.1) (fun w => live (started config st) w.1)); intros w; by apply Hl|].
    by apply submseteq_inserts_r.
  - intros d ok r. rewrite lookup_insert_Some. intros [[_ ?]|[_ E]]; [done|by eapply O8].
  - intros d url Hd. rewrite Hl. by apply O7.
Qed.

(** Other entries of the caches. *)
Lemma set_cache_ok extra ps k c c' st : http_okx extra st ps -> h_caches st !! k = Some c -> bounded c' = false ->
  (forall url d, c_data c' !! url = Some (CPromise d) -> live st d /\ forall p, h_requests st !! d = Some p -> p_url p = url) ->
  http_okx extra (set_caches (<[k := c']> (h_caches st)) st) ps.
Proof.
  intros [O1 O2 O3 O4 O5 O8 O6 O7] Hk Hb Hc. constructor; cbn; try done.
  - intros k' c2. rewrite lookup_insert_Some. intros [[_ <-]|[_ E]]; [done|by apply (O3 k')].
  - intros r p k' Hr Hp. destruct (decide (k' = k)) as [->|Hne]; [rewrite lookup_insert_eq; by eexists|]. rewrite lookup_insert_ne by congruence. by eapply O4.
Qed.

(** The promise is settled, or its request goes to the browser. *)
Lemma settle_ok config d ok r st url : ok = isSuccess (r_status r) -> http_okx [config] st promises -> h_futures st !! d = Some Unsettled -> h_requests st !! d = None ->
  (exists W, h_waiting st = W ++ [(d, config)]) -> ~ live st d -> http_ok (settle d ok r st) ((d, url) :: promises).
Proof.
  intros Hok O Hf Hr [W HW] Hn. destruct (settle_frame d ok r st) as (F1 & F2 & F3 & F4 & F5 & F6 & F7).
  assert (Hd : live (settle d ok r st) d) by (left; apply settle_done; by eexists).
  assert (Hm : more_live st (settle d ok r st)) by (intros x [Hx|Hx]; [left; by apply settle_settled|right; by rewrite F5]).
  assert (Hfut : forall x, x <> d -> h_futures (settle d ok r st) !! x = h_futures st !! x).
  { intros x Hx. unfold settle. rewrite Hf. cbn. by rewrite lookup_insert_ne by congruence. }
  destruct O as [O1 O2 O3 O4 O5 O8 O6 O7]. constructor; rewrite ?F1, ?F2, ?F5, ?F6; try done.
  - intros x Hx. destruct (decide (x = d)) as [->|Hne]; [by rewrite O1 in Hf|]. rewrite Hfut by done. by apply O1.
  - intros x p Hx. rewrite Hfut; [by apply O2|]. congruence.
  - intros k c Hk. destruct (O3 k c Hk) as [? Hc]. split; [done|]. intros u x Hx. destruct (Hc u x Hx). split; [by apply Hm|done].
  - eapply (pending_found config d st); [exact O5|done| |done|done]. exists W. rewrite F4. split; [done|]. by right.
  - intros x ok' r'. destruct (decide (x = d)) as [->|Hne]; [|rewrite Hfut by done; apply O8].
    unfold settle. rewrite Hf. cbn. rewrite lookup_insert_eq. by intros [= <- <-].
  - intros x u. rewrite elem_of_cons. intros [[= -> ->]|Hx]; [split; [done|by rewrite Hr]|]. destruct (O7 x u Hx). split; [by apply Hm|done].
Qed.
Lemma backend_ok config d url cache st : http_okx [config] st promises -> h_futures st !! d = Some Unsettled -> h_requests st !! d = None ->
  (exists W, h_waiting st = W ++ [(d, config)]) -> ~ live st d -> (forall k, cache = Some k -> is_Some (h_caches st !! k)) ->
  http_ok (httpBackend d config url cache st) ((d, url) :: promises).
Proof.
  intros [O1 O2 O3 O4 O5 O8 O6 O7] Hf Hr [W HW] Hn Hk. set (st' := httpBackend d config url cache st).
  assert (Hd : live st' d) by (right; cbn; rewrite lookup_insert_eq; by eexists).
  assert (Hm : more_live st st').
  { intros x [Hx|[p Hx]]; [by left|right]. cbn. rewrite lookup_insert_ne by congruence. by eexists. }
  assert (Hreq : forall x u, live st x -> (forall p, h_requests st !! x = Some p -> p_url p = u) ->
    live st' x /\ forall p, h_requests st' !! x = Some p -> p_url p = u).
  { intros x u Hx Hu. split; [by apply Hm|]. intros p. cbn. rewrite lookup_insert_ne by congruence. apply Hu. }
  constructor; cbn; try done.
  - intros r p. rewrite lookup_insert_Some. intros [[<- <-]|[_ E]]; [done|by apply O2].
  - intros k c Hc. destruct (O3 k c Hc) as [? Hx]. split; [done|]. intros u x Hx2. destruct (Hx u x Hx2). exact (Hreq x u ltac:(done) ltac:(done)).
  - intros r p k. rewrite lookup_insert_Some. intros [[<- <-]|[_ E]]; [apply Hk|by eapply O4].
  - apply (pending_found config d st st'); [exact O5|done| |done|done]. exists W. split; [done|]. by right.
  - rewrite map_size_insert_None by done. lia.
  - intros x u. rewrite elem_of_cons. intros [[= -> ->]|Hx].
    + split; [done|]. intros p. cbn. rewrite lookup_insert_eq. by intros [= <-].
    + destruct (O7 x u Hx). exact (Hreq x u ltac:(done) ltac:(done)).
Qed.

Lemma wait_ok config d st url : http_okx [config] st promises -> live st d -> (forall p, h_requests st !! d = Some p -> p_url p = url) ->
  http_ok (wait d config st) ((d, url) :: promises).
Proof.
  intros [O1 O2 O3 O4 O5 O8 O6 O7] Hd Hu. constructor; try done.
  - apply (pending_found config d st (wait d config st)); [exact O5|done| |exact Hd|by intros x]. exists (h_waiting st). split; [done|by left].
  - intros x u. rewrite elem_of_cons. intros [[= -> ->]|Hx]; [done|by apply O7].
Qed.

Lemma get_unbounded {V} k (c : cache V) : bounded c = false -> Cache.get k c = (c, c_data c !! k).
Proof. unfold Cache.get. by intros ->. Qed.
Lemma put_unbounded {V} k v (c : cache V) : bounded c = false -> exists n, Cache.put k (Some v) c = Ok (with_data n (<[k := v]> (c_data c)) c, Some v).
Proof.
  intros Hb. unfold Cache.put. rewrite Hb. cbn. unfold bounded in Hb. destruct (c_capacity c); [done|]. by eexists.
Qed.

Lemma send_ok config url cache st p st' : http_ok st promises -> sendReq config url cache st = (Ok p, st') -> http_ok st' ((p, url) :: promises).
Proof.
  intros O E. destruct (started_ok config st O) as [S Hn]. unfold sendReq in E. cbn [new_deferred] in E.
  fold (started config st) in E. change (wait (h_next st) config _) with (started config st) in E.
  assert (Hf : h_futures (started config st) !! h_next st = Some Unsettled) by (cbn; by rewrite lookup_insert_eq).
  assert (Hr : h_requests (started config st) !! h_next st = None).
  { destruct (h_requests (started config st) !! h_next st) eqn:Er; [|done]. destruct Hn. right. by eexists. }
  assert (HW : exists W, h_waiting (started config st) = W ++ [(h_next st, config)]) by by eexists.
  destruct cache as [k|]; [|injection E as <- <-; by apply backend_ok].
  set (st1 := started config st) in *. destruct (h_caches st1 !! k) as [c|] eqn:Ek; [|done].
  destruct (ok_caches _ _ _ S k c Ek) as [Hb Hc]. rewrite get_unbounded in E by done.
  assert (S2 : http_okx [config] (set_caches (<[k := c]> (h_caches st1)) st1) promises) by by apply (set_cache_ok _ _ k c).
  destruct (c_data c !! url) as [[d|status data hs text|data]|] eqn:Ec.
  - injection E as <- <-. destruct (Hc url d Ec) as [Hd Hu]. by apply wait_ok.
  - injection E as <- <-. by apply (settle_ok config).
  - assert (E' : (Ok (h_next st), resolvePromise (h_next st) config data 200 (HeadersObject []) (js "OK") (set_caches (<[k := c]> (h_caches st1)) st1)) = (Ok p, st') :> (result js_error nat * http))
      by by destruct data.
    injection E' as <- <-. by apply (settle_ok config).
  - destruct (put_unbounded url (CPromise (h_next st)) c Hb) as [n Ep]. rewrite Ep in E. injection E as <- <-.
    set (st2 := set_caches (<[k := c]> (h_caches st1)) st1) in *.
    assert (B : http_ok (httpBackend (h_next st) config url (Some k) st2) ((h_next st, url) :: promises)).
    { apply backend_ok; [exact S2|exact Hf|exact Hr|exact HW|exact Hn|]. intros k' [= <-]. cbn. rewrite lookup_insert_eq. by eexists. }
    eapply (set_cache_ok _ _ k c) in B; [exact B|cbn; by rewrite lookup_insert_eq|done|].
    intros u d. cbn. rewrite lookup_insert_Some. intros [[<- [= <-]]|[_ Hx]].
    + split; [right; cbn; rewrite lookup_insert_eq; by eexists|]. intros q. rewrite lookup_insert_eq. by intros [= <-].
    + destruct (ok_caches _ _ _ B k c ltac:(cbn; by rewrite lookup_insert_eq)) as [_ Hx2]. by apply Hx2.
Qed.
End Steps.

(** ** The end of a request *)

Definition finished (r : nat) (ok : bool) (resp : response) (caches : gmap nat (cache centry)) (st : http) : http :=
  Http (<[r := Answered ok resp]> (h_futures st)) (h_next st) caches (h_pendingRequests st) (h_waiting st) (delete r (h_requests st))
       (h_outstanding st - 1) (h_sent st).

(** No new promise in the caches. *)
Definition fewer_promises (caches caches' : gmap nat (cache centry)) : Prop :=
  (forall k, is_Some (caches !! k) -> is_Some (caches' !! k)) /\
  forall k c', caches' !! k = Some c' -> exists c, caches !! k = Some c /\ bounded c' = bounded c /\
    forall url d, c_data c' !! url = Some (CPromise d) -> c_data c !! url = Some (CPromise d).

Lemma finished_ok r p ok resp caches st ps : ok = isSuccess (r_status resp) -> http_ok st ps -> h_requests st !! r = Some p -> fewer_promises (h_caches st) caches ->
  http_ok (finished r ok resp caches st) ps.
Proof.
  intros Hok [O1 O2 O3 O4 O5 O8 O6 O7] Hr [Hk Hc]. set (st' := finished r ok resp caches st).
  assert (Hm : more_live st st').
  { intros d Hd. destruct (decide (d = r)) as [->|Hne]; [left; unfold is_settled; cbn; by rewrite lookup_insert_eq|].
    destruct Hd as [Hd|Hd]; [left; unfold is_settled in *; cbn; by rewrite lookup_insert_ne by congruence|right; cbn; by rewrite lookup_delete_ne by congruence]. }
  assert (Hu : forall d u, (forall p, h_requests st !! d = Some p -> p_url p = u) -> forall p, h_requests st' !! d = Some p -> p_url p = u).
  { intros d u Hd q. cbn. rewrite lookup_delete_Some. intros [_ E]. by apply Hd. }
  constructor; try done.
  - intros d Hd. cbn. rewrite lookup_insert_ne; [by apply O1|]. intros <-. destruct (O2 r p Hr) as [_ E]. by rewrite O1 in E.
  - intros d q. cbn. rewrite lookup_delete_Some. intros [Hne E]. rewrite lookup_insert_ne by done. by apply O2.
  - intros k c' E. destruct (Hc k c' E) as (c & Ec & -> & Hp). destruct (O3 k c Ec) as [? Hx]. split; [done|].
    intros u d Hd. destruct (Hx u d (Hp u d Hd)) as [H1 H2]. split; [by apply Hm|by apply Hu].
  - intros d q k. cbn. rewrite lookup_delete_Some. intros [_ E] Eq. apply Hk. by eapply O4.
  - by apply (pending_mono [] st st').
  - intros d ok' resp'. cbn. rewrite lookup_insert_Some. intros [[_ [= <- <-]]|[_ E]]; [done|by eapply O8].
  - cbn. rewrite map_size_delete_Some by (by eexists). assert (size (h_requests st) <> 0) by (intros Hs; apply map_size_empty_inv in Hs; by rewrite Hs in Hr). lia.
  - intros d u Hd. destruct (O7 d u Hd) as [H1 H2]. split; [by apply Hm|by apply Hu].
Qed.

Lemma remove_config_sub c l k : l ⊆+ c :: k -> remove_config c l ⊆+ k.
Proof.
  intros H. destruct (decide (c ∈ l)) as [Hin|Hn].
  - apply list_elem_of_split in Hin as (l1 & l2 & ->). assert (E : remove_config c (l1 ++ c :: l2) ⊆+ l1 ++ l2).
    { clear H. induction l1 as [|x l1 IH]; cbn; [by rewrite Nat.eqb_refl|]. destruct (Nat.eqb_spec x c) as [->|Hne]; [|by apply submseteq_skip].
      by rewrite Permutation_middle. }
    etrans; [exact E|]. rewrite <- Permutation_middle in H. by apply (submseteq_app_inv_l _ _ [c]) in H.
  - assert (E : remove_config c l = l).
    { clear H. induction l as [|x l IH]; [done|]. apply not_elem_of_cons in Hn as [Hx Hn]. cbn. destruct (Nat.eqb_spec x c); [congruence|]. by rewrite IH. }
    rewrite E. by apply submseteq_cons_r in H as [H|(l' & El & _)]; [|rewrite El in Hn; destruct Hn; left].
Qed.
Lemma remove_configs_sub ready : forall l m, l ⊆+ map snd ready ++ m -> fold_left (fun l (w : nat * nat) => remove_config w.2 l) ready l ⊆+ m.
Proof. induction ready as [|[d c] ready IH]; intros l m H; [done|]. cbn. apply IH. by apply remove_config_sub. Qed.

Lemma filter_split {A} (P : A -> Prop) `{forall x, Decision (P x)} (b : A -> bool) (l : list A) : (forall x, b x = true -> P x) ->
  filter P l ≡ₚ filter (fun x => b x = true) l ++ filter P (filter (fun x => b x = false) l).
Proof.
  intros Hb. induction l as [|x l IH]; [done|]. rewrite !filter_cons. destruct (b x) eqn:E.
  - rewrite (decide_True (P := P x)) by auto. apply (perm_skip x), IH.
  - assert (E2 : forall t, filter P (if decide (false = false) then x :: t else t) = if decide (P x) then x :: filter P t else filter P t)
      by (intros t; rewrite (decide_True (P := false = false)) by done; apply filter_cons).
    rewrite E2. destruct (decide (P x)); [|exact IH]. etransitivity; [apply (perm_skip x), IH|apply Permutation_middle].
Qed.
Lemma digest_ok st ps : http_ok st ps -> http_ok (digest st) ps.
Proof.
  intros [O1 O2 O3 O4 O5 O8 O6 O7]. constructor; try done. rewrite app_nil_r in *. change (h_pendingRequests (digest st)) with
    (fold_left (fun l (w : nat * nat) => remove_config w.2 l) (filter (fun w => is_settled st w.1 = true) (h_waiting st)) (h_pendingRequests st)).
  apply remove_configs_sub. etrans; [exact O5|]. rewrite <- map_app. apply fmap_submseteq, Permutation_submseteq.
  apply (filter_split (fun w => live st w.1) (fun w => is_settled st w.1)). intros w. by left.
Qed.

Section Ready.
Context (lowercase : jstr -> jstr) (is_file in_digest : bool).

(** What [done] makes of the caches. *)
Lemma removed_unbounded {V} k (c : cache V) : bounded c = false -> bounded (Cache.remove k c) = false /\ c_data (Cache.remove k c) = delete k (c_data c).
Proof. intros Hb. unfold Cache.remove. rewrite Hb. split; [exact Hb|done]. Qed.

Lemma caches_insert caches k c c' : caches !! k = Some c -> bounded c' = bounded c ->
  (forall url d, c_data c' !! url = Some (CPromise d) -> c_data c !! url = Some (CPromise d)) ->
  fewer_promises caches (<[k := c']> caches).
Proof.
  intros Hk Hb Hd. split; intros k'.
  - intros Hx. destruct (decide (k' = k)) as [->|Hne]; [rewrite lookup_insert_eq; by eexists|by rewrite lookup_insert_ne by congruence].
  - intros x. rewrite lookup_insert_Some. intros [[<- <-]|[_ E]]; [by exists c|by exists x].
Qed.

Lemma ready_4_step r p a st ps : http_ok st ps -> h_requests st !! r = Some p ->
  exists status data hs caches, fewer_promises (h_caches st) caches /\
    let st' := finished r (isSuccess (Z.max status 0)) (Response data (Z.max status 0) hs (p_config p) (a_text a)) caches st in
    ready_4 lowercase is_file in_digest r a st = (Ok tt, if in_digest then st' else digest st').
Proof.
  intros O Hr. unfold ready_4. rewrite Hr.
  set (data := if bool_decide (p_status p = Some (-1)%Z) then JNull else a_data a).
  set (hs := if bool_decide (p_status p = Some (-1)%Z) then None else a_headers a).
  set (status := fixed_status is_file (default (a_status a) (p_status p)) data).
  exists status, data, (HeadersText hs). destruct (ok_request _ _ _ O r p Hr) as [Ed Hf].
  assert (Hset : forall caches ok resp, settle (p_deferred p) ok resp (set_caches caches (set_requests (delete r (h_requests st)) (h_outstanding st) (h_sent st) st)) =
    Http (<[r := Answered ok resp]> (h_futures st)) (h_next st) caches (h_pendingRequests st) (h_waiting st) (delete r (h_requests st)) (h_outstanding st) (h_sent st)).
  { intros. unfold settle. rewrite Ed. cbn. by rewrite Hf. }
  unfold done_. destruct (p_cache p) as [k|] eqn:Ek.
  - destruct (ok_known _ _ _ O r p k Hr Ek) as [c Ec]. cbn [h_caches set_requests]. rewrite Ec. destruct (ok_caches _ _ _ O k c Ec) as [Hb _].
    destruct (isSuccess status).
    + destruct (put_unbounded (p_url p) (CArray status data (parseHeaders lowercase (default [] hs)) (a_text a)) c Hb) as [n En]. rewrite En.
      exists (<[k := with_data n (<[p_url p := CArray status data (parseHeaders lowercase (default [] hs)) (a_text a)]> (c_data c)) c]> (h_caches st)).
      split; [apply (caches_insert _ _ c); [done|done|]|].
      * intros u d. cbn. rewrite lookup_insert_Some. by intros [[_ ?]|[_ ?]].
      * unfold resolvePromise. rewrite Hset. by destruct in_digest.
    + destruct (removed_unbounded (p_url p) c Hb) as [R1 R2]. exists (<[k := Cache.remove (p_url p) c]> (h_caches st)).
      split; [apply (caches_insert _ _ c); [done|congruence|]|].
      * intros u d. rewrite R2, lookup_delete_Some. tauto.
      * unfold resolvePromise. rewrite Hset. by destruct in_digest.
  - exists (h_caches st). split; [split; [done|by intros k c; exists c]|].
    change (set_requests (delete r (h_requests st)) (h_outstanding st) (h_sent st) st) with
      (set_caches (h_caches st) (set_requests (delete r (h_requests st)) (h_outstanding st) (h_sent st) st)).
    unfold resolvePromise. rewrite Hset. by destruct in_digest.
Qed.
End Ready.

(** ** Runs *)

Definition http_init : http := Http ∅ 0 ∅ [] [] ∅ 0 [].

Section Runs.
Context (lowercase : jstr -> jstr).

(** What happens, in any order: requests that are sent, what the browser tells, timeouts, digests, and what the
    application does with the caches, which have no capacity.  The promises are those that [sendReq] returned. *)
Inductive reaches : http -> list (nat * jstr) -> Prop :=
| reaches_init : reaches http_init []
| reaches_send st ps config url cache p st' : reaches st ps -> sendReq config url cache st = (Ok p, st') -> reaches st' ((p, url) :: ps)
| reaches_ready st ps is_file in_digest r a : reaches st ps -> reaches (ready_4 lowercase is_file in_digest r a st).2 ps
| reaches_timeout st ps r : reaches st ps -> reaches (timeoutRequest r st) ps
| reaches_digest st ps : reaches st ps -> reaches (digest st) ps
| reaches_cache st ps k : reaches st ps -> h_caches st !! k = None -> reaches (set_caches (<[k := new_cache None]> (h_caches st)) st) ps
| reaches_put st ps k c url v c' v' : reaches st ps -> h_caches st !! k = Some c -> (forall d, v <> CPromise d) ->
    Cache.put url (Some v) c = Ok (c', v') -> reaches (set_caches (<[k := c']> (h_caches st)) st) ps
| reaches_remove st ps k c url : reaches st ps -> h_caches st !! k = Some c -> reaches (set_caches (<[k := Cache.remove url c]> (h_caches st)) st) ps
| reaches_removeAll st ps k c : reaches st ps -> h_caches st !! k = Some c -> reaches (set_caches (<[k := Cache.removeAll c]> (h_caches st)) st) ps.

Lemma reaches_sent st ps config url cache p : reaches st ps -> (sendReq config url cache st).1 = Ok p -> reaches (sendReq config url cache st).2 ((p, url) :: ps).
Proof. intros H E. apply (reaches_send st ps config url cache p); [done|]. rewrite <- E. by destruct (sendReq config url cache st). Qed.

Lemma ready_ok st ps is_file in_digest r a : http_ok st ps ->
  let st' := (ready_4 lowercase is_file in_digest r a st).2 in
  http_ok st' ps /\ h_requests st' = delete r (h_requests st).
Proof.
  intros O. destruct (h_requests st !! r) as [p|] eqn:Er.
  - destruct (ready_4_step lowercase is_file in_digest r p a st ps O Er) as (status & data & hs & caches & Hc & ->). cbn [snd].
    set (st' := finished _ _ _ _ _). assert (H : http_ok st' ps) by (by eapply finished_ok). destruct in_digest; [done|]. split; [by apply digest_ok|done].
  - unfold ready_4. rewrite Er. cbn [snd]. split; [done|]. by rewrite delete_id.
Qed.
Lemma timeout_ok st ps r : http_ok st ps -> http_ok (timeoutRequest r st) ps.
Proof.
  unfold timeoutRequest. intros O. destruct (h_requests st !! r) as [p|] eqn:Er; [|done]. destruct O as [O1 O2 O3 O4 O5 O8 O6 O7].
  set (p' := Pending _ _ _ _ _). set (st' := set_requests _ _ _ st).
  assert (Hm : more_live st st').
  { intros d [Hd|[q Hd]]; [by left|right]. cbn. destruct (decide (d = r)) as [->|Hne]; [rewrite lookup_insert_eq; by eexists|rewrite lookup_insert_ne by congruence; by eexists]. }
  assert (Hu : forall d u, (forall p, h_requests st !! d = Some p -> p_url p = u) -> forall p, h_requests st' !! d = Some p -> p_url p = u).
  { intros d u Hd q. cbn. rewrite lookup_insert_Some. intros [[<- <-]|[_ E]]; [by apply (Hd p)|by apply Hd]. }
  constructor; try done.
  - intros d q. cbn. rewrite lookup_insert_Some. intros [[<- <-]|[_ E]]; [by apply (O2 r p)|by apply O2].
  - intros k c E. destruct (O3 k c E) as [? Hx]. split; [done|]. intros u d Hd. destruct (Hx u d Hd). split; [by apply Hm|by apply Hu].
  - intros d q k. cbn. rewrite lookup_insert_Some. intros [[<- <-]|[_ E]]; [by apply (O4 r p)|by eapply O4].
  - by apply (pending_mono [] st st').
  - cbn. rewrite map_size_insert_Some by (by eexists). done.
  - intros d u Hd. destruct (O7 d u Hd). split; [by apply Hm|by apply Hu].
Qed.

Lemma reaches_ok st ps : reaches st ps -> http_ok st ps.
Proof.
  induction 1 as [|st ps config url cache p st' _ IH E|st ps is_file in_digest r a _ IH|st ps r _ IH|st ps _ IH|st ps k _ IH Hk|st ps k c url v c' v' _ IH Hk Hv E|st ps k c url _ IH Hk|st ps k c _ IH Hk].
  - constructor; cbn; try (intros *; by rewrite ?lookup_empty); try done. intros d url H. by apply elem_of_nil in H.
  - by eapply send_ok.
  - by apply ready_ok.
  - by apply timeout_ok.
  - by apply digest_ok.
  - destruct IH as [O1 O2 O3 O4 O5 O8 O6 O7]. constructor; try done.
    + intros k' c. cbn. rewrite lookup_insert_Some. intros [[_ <-]|[_ E]]; [|by apply (O3 k')]. split; [done|]. intros u d. cbn. by rewrite lookup_empty.
    + intros r p k' Hr Hp. cbn. destruct (decide (k' = k)) as [->|Hne]; [rewrite lookup_insert_eq; by eexists|rewrite lookup_insert_ne by congruence; by eapply O4].
  - destruct (ok_caches _ _ _ IH k c Hk) as [Hb Hc]. destruct (put_unbounded url v c Hb) as [n En]. rewrite En in E. injection E as <- _.
    apply (set_cache_ok _ _ k c); [done|done|done|]. intros u d. cbn. rewrite lookup_insert_Some. intros [[_ ->]|[_ Hx]]; [by destruct (Hv d)|by apply Hc].
  - destruct (ok_caches _ _ _ IH k c Hk) as [Hb Hc]. destruct (removed_unbounded url c Hb) as [R1 R2].
    apply (set_cache_ok _ _ k c); [done|done|done|]. intros u d. rewrite R2, lookup_delete_Some. intros [_ Hx]. by apply Hc.
  - destruct (ok_caches _ _ _ IH k c Hk) as [Hb Hc]. apply (set_cache_ok _ _ k c); [done|done|exact Hb|]. intros u d. cbn. by rewrite lookup_empty.
Qed.

(** What the browser tells of some requests, one after the other. *)
Definition tell (is_file in_digest : bool) (events : list (nat * answer)) (st : http) : http :=
  fold_left (fun st e => (ready_4 lowercase is_file in_digest e.1 e.2 st).2) events st.
Lemma tell_ok is_file in_digest events : forall st ps, http_ok st ps ->
  http_ok (tell is_file in_digest events st) ps /\
  forall r, h_requests (tell is_file in_digest events st) !! r = if decide (r ∈ map fst events) then None else h_requests st !! r.
Proof.
  induction events as [|[r a] events IH]; intros st ps O; [done|]. cbn [tell fold_left map fst snd]. destruct (ready_ok st ps is_file in_digest r a O) as [O1 E1].
  destruct (IH _ ps O1) as [O2 E2]. split; [exact O2|]. intros r'. fold (tell is_file in_digest events (ready_4 lowercase is_file in_digest r a st).2).
  rewrite E2, E1. destruct (decide (r' ∈ map fst events)); [by rewrite decide_True by (by right)|].
  destruct (decide (r' = r)) as [->|Hne]; [rewrite lookup_delete_eq; by rewrite decide_True by left|].
  rewrite lookup_delete_ne by congruence. rewrite decide_False; [done|]. by intros [?|?]%elem_of_cons.
Qed.

End Runs.

(** Two requests that share an answer, and one that is aborted. *)
Definition send_all (l : list (nat * jstr * option nat)) (st : http) : http :=
  fold_left (fun st q => (sendReq q.1.1 q.1.2 q.2 st).2) l st.
Definition sample_cache : http := set_caches (<[0 := new_cache None]> (h_caches http_init)) http_init.
Definition sample_requests : list (nat * jstr * option nat) := [(7, js "/tasks", Some 0); (8, js "/tasks", Some 0); (9, js "/heap", None)].
Definition sample_http : http := timeoutRequest 2 (send_all sample_requests sample_cache).
Definition sample_events : list (nat * answer) := [(2, Answer 0 (JStr []) None []); (0, Answer 200 (JStr (js "[]")) None (js "OK")); (0, Answer 500 JNull None [])].

