(* ===== verification/EvalTypes.v ===== *)
(** * What expressions make of the heap

    A well-formed heap has no dangling references, and objects have distinct property names.  The language is an
    interface: what it provides keeps heaps well formed and gives values of the heap. *)

From Stdlib Require Import QArith Qround.
From S2P Require Import Prelude JsString JsObject JsNumber UriCodec Json Heap Lexer Parser Eval HeapCopy.
#[local] Open Scope nat_scope.
Local Open Scope handler_scope.

(** ** Heaps that grow *)

Definition grows (h h' : heap) : Prop := h_next h <= h_next h' /\ forall r, is_Some (h_store h !! r) -> is_Some (h_store h' !! r).
#[global] Instance grows_refl : Reflexive grows.
Proof. by split. Qed.
#[global] Instance grows_trans : Transitive grows.
Proof. intros h1 h2 h3 [A1 A2] [B1 B2]. split; [lia|auto]. Qed.
Lemma val_grows h h' v : grows h h' -> val_ok h v -> val_ok h' v.
Proof. intros [_ G]. destruct v; try done. apply G. Qed.
Lemma vals_grow h h' l : grows h h' -> Forall (val_ok h) l -> Forall (val_ok h') l.
Proof. intros G F. eapply Forall_impl; [exact F|]. intros v. by apply val_grows. Qed.
Lemma obj_grows h h' o : grows h h' -> obj_ok h o -> obj_ok h' o.
Proof.
  intros G. destruct o as [l|p o| | |]; cbn; try done; [by apply vals_grow|]. intros [W F]. split; [done|].
  eapply Forall_impl; [exact F|]. intros kv. by apply val_grows.
Qed.

Lemma set_wf h r o : heap_wf h -> is_Some (h_store h !! r) -> proto_below r o -> obj_ok h o ->
  heap_wf (heap_set r o h) /\ grows h (heap_set r o h).
Proof.
  intros W [o0 E0] Hp Ho. assert (G : grows h (heap_set r o h)).
  { split; [done|]. intros x Hx. cbn. destruct (decide (x = r)) as [->|Hne]; [rewrite lookup_insert_eq; by eexists|by rewrite lookup_insert_ne by congruence]. }
  split; [|done]. intros x ox. cbn. rewrite lookup_insert_Some. intros [[<- <-]|[_ E]].
  - split_and!; [apply (W _ _ E0)|done|by eapply obj_grows].
  - destruct (W _ _ E) as (? & ? & ?). split_and!; [done|done|by eapply obj_grows].
Qed.
Lemma alloc_wf h o : heap_wf h -> proto_below (h_next h) o -> obj_ok h o ->
  let h' := Heap (<[h_next h := o]> (h_store h)) (S (h_next h)) in heap_wf h' /\ grows h h' /\ val_ok h' (HRef (h_next h)).
Proof.
  intros W Hp Ho h'. assert (G : grows h h').
  { split; [cbn; lia|]. intros x Hx. cbn. destruct (decide (x = h_next h)) as [->|Hne]; [rewrite lookup_insert_eq; by eexists|by rewrite lookup_insert_ne by congruence]. }
  split_and!; [|done|cbn; rewrite lookup_insert_eq; by eexists]. intros x ox. cbn. rewrite lookup_insert_Some. intros [[<- <-]|[_ E]].
  - split_and!; [lia|done|by eapply obj_grows].
  - destruct (W _ _ E) as (? & ? & ?). split_and!; [lia|done|by eapply obj_grows].
Qed.
Lemma ob_set_ok h o k v : Forall (fun kv : jstr * hval => val_ok h kv.2) o -> val_ok h v -> Forall (fun kv => val_ok h kv.2) (ob_set o k v).
Proof. intros F Hv. induction F as [|[k' v'] o Hk F IH]; cbn; [by constructor|]. destruct (jeqb k k'); by constructor. Qed.

(** ** Operations that keep it well formed *)

(** From this heap, the operation leaves a well-formed heap that has grown, and a result that is right there. *)
Definition keeps {A} (m : run A) (P : heap -> A -> Prop) (h : heap) : Prop :=
  forall r h', m h = (r, h') -> heap_wf h' /\ grows h h' /\ match r with Ok a => P h' a | Throw _ => True end.
Abbreviation any := (fun _ _ => True).

Lemma safe_ret {A} (a : A) (P : heap -> A -> Prop) h : heap_wf h -> P h a -> keeps (hret a) P h.
Proof. intros W Ha r h' [= <- <-]. done. Qed.
Lemma safe_throw {A} e (P : heap -> A -> Prop) h : heap_wf h -> keeps (hthrow e) P h.
Proof. intros W r h' [= <- <-]. done. Qed.
Lemma safe_bind {A B} (m : run A) (f : A -> run B) P Q h : keeps m P h ->
  (forall a h', heap_wf h' -> grows h h' -> P h' a -> keeps (f a) Q h') -> keeps (hbind m f) Q h.
Proof.
  intros Hm Hf r h' E. unfold hbind in E. destruct (m h) as [[a|e] h1] eqn:Em; destruct (Hm _ _ Em) as (W & G & Pa).
  - destruct (Hf a h1 W G Pa r h' E) as (W2 & G2 & Q2). split_and!; [done|by etrans|done].
  - injection E as <- <-. done.
Qed.
Lemma keeps_weaken {A} (m : run A) (P Q : heap -> A -> Prop) h : keeps m P h -> (forall h' a, P h' a -> Q h' a) -> keeps m Q h.
Proof. intros Hm HPQ r h' E. destruct (Hm r h' E) as (? & ? & H). split_and!; [done|done|]. destruct r; [by apply HPQ|done]. Qed.

(** ** The interface of the language *)

Class HostOk (h0 : heap) (ho : host) : Prop := {
  host_member : forall k v x, val_ok h0 (ho_member ho k v x);
  host_call : forall h f this args, heap_wf h -> grows h0 h -> val_ok h f -> val_ok h this -> Forall (val_ok h) args -> keeps (ho_call ho f this args) val_ok h;
  host_primitive : forall h b v, heap_wf h -> grows h0 h -> val_ok h v -> keeps (ho_primitive ho b v) val_ok h;
  host_set_proto : forall h r v, heap_wf h -> grows h0 h -> is_Some (h_store h !! r) -> val_ok h v -> keeps (ho_set_proto ho r v) any h;
  host_filter : forall h name this args, heap_wf h -> grows h0 h -> val_ok h this -> Forall (val_ok h) args -> keeps (ho_filter ho name this args) val_ok h
}.

Lemma Forall_replicate_undef h n : Forall (val_ok h) (repeat HUndef n).
Proof. induction n; by constructor. Qed.

Section Types.
Context (h0 : heap) (ho : host) {HO : HostOk h0 ho}.

(** A heap of the page. *)
Definition page (h : heap) : Prop := heap_wf h /\ grows h0 h.

Lemma chain_find_ok n h r k v : heap_wf h -> chain_find n h r k = Some v -> val_ok h v.
Proof.
  intros W. revert r. induction n as [|n IH]; intros r; cbn [chain_find]; destruct (h_store h !! r) as [[l|p o| | |]|] eqn:E; try done.
  1, 3: destruct (jeqb k (js "length")); [by intros [= <-]|]; destruct (is_index k); [|done]; intros Hl; destruct (W _ _ E) as (_ & _ & Ho);
    by apply (proj1 (Forall_lookup _ _) Ho _ _ Hl).
  all: destruct (W _ _ E) as (_ & _ & _ & Ho); destruct (ob_get o k) as [x|] eqn:Ek.
  all: try (destruct p; [try by apply IH|]; done).
  all: intros [= <-]; clear -Ho Ek; induction Ho as [|[k' v'] o Hk Ho IHo]; [done|]; cbn in Ek; destruct (jeqb k k'); [by injection Ek as ->|by apply IHo].
Qed.

Lemma get_prop_keeps v k h : page h -> val_ok h v -> keeps (get_prop ho v k) val_ok h.
Proof.
  intros [W G] Hv r h' [= <- <-]. split_and!; [done|done|]. assert (Hm : forall x y, val_ok h (ho_member ho x v y)) by (intros; eapply val_grows; [exact G|apply host_member]).
  unfold read. destruct v as [| | | |s| |x]; try done; try apply Hm.
  - destruct (jeqb k (js "length")); [done|]. destruct (if is_index k then _ else _); [done|apply Hm].
  - destruct (chain_find _ h x k) eqn:E; [by eapply chain_find_ok|apply Hm].
Qed.
Lemma set_prop_keeps v k x h : page h -> val_ok h v -> val_ok h x -> keeps (set_prop ho v k x) any h.
Proof.
  intros [W G] Hv Hx. unfold set_prop. destruct v as [| | | | | |r]; try (intros y h' [= <- <-]; done).
  destruct (jeqb k (js "__proto__")); [by apply host_set_proto|]. intros y h' E. destruct (h_store h !! r) as [o|] eqn:Er; [|injection E as <- <-; done].
  destruct (W _ _ Er) as (Hr & Hp & Ho).
  assert (Hset : forall o', proto_below r o' -> obj_ok h o' -> (Ok tt, heap_set r o' h) = (y, h') -> heap_wf h' /\ grows h h' /\ match y with Ok _ => True | Throw _ => True end).
  { intros o' Hp' Ho' [= <- <-]. destruct (set_wf h r o' W ltac:(by eexists) Hp' Ho'). done. }
  assert (Hstay : forall e : result js_error unit, (e, h) = (y, h') -> heap_wf h' /\ grows h h' /\ match y with Ok _ => True | Throw _ => True end)
    by (intros e [= <- <-]; by destruct e).
  assert (Hl : forall l n, Forall (val_ok h) l -> Forall (val_ok h) (l ++ repeat HUndef n)) by (intros l n Hl; apply Forall_app; split; [done|by apply Forall_replicate_undef]).
  destruct o as [l|p o| | |]; try (by apply Hstay in E).
  - destruct (jeqb k (js "length")).
    + destruct x as [| | |[| |q]| | |]; try (by apply Hstay in E). destruct (_ && _ && _)%bool; [|by apply Hstay in E]. apply Hset in E; [done|done|].
      cbn. unfold set_length. apply Forall_app. split; [by apply Forall_take|by apply Forall_replicate_undef].
    + destruct (is_index k); [|by apply Hstay in E]. apply Hset in E; [done|done|]. cbn. unfold set_item. destruct (Nat.ltb _ _); [by apply Forall_insert|].
      rewrite app_assoc. apply Forall_app. split; [by apply Hl|by constructor].
  - apply Hset in E; [done|done|]. destruct Ho as [Hw Hf]. split; [by apply ob_wf_set|by apply ob_set_ok].
Qed.

(** A page that has grown is still one, and values stay right. *)
Lemma page_next h h' : page h -> heap_wf h' -> grows h h' -> page h'.
Proof. intros [_ G] W' G'. split; [done|by etrans]. Qed.
Lemma page_bind {A B} (m : run A) (f : A -> run B) P Q h : page h -> keeps m P h ->
  (forall a h', page h' -> grows h h' -> P h' a -> keeps (f a) Q h') -> keeps (hbind m f) Q h.
Proof. intros Hp Hm Hf. eapply safe_bind; [exact Hm|]. intros a h' W G. by apply Hf; [eapply page_next|]. Qed.
Lemma page_ret {A} (a : A) (P : heap -> A -> Prop) h : page h -> P h a -> keeps (hret a) P h.
Proof. intros [W _]. by apply safe_ret. Qed.
Lemma page_throw {A} e (P : heap -> A -> Prop) h : page h -> keeps (hthrow e) P h.
Proof. intros [W _]. by apply safe_throw. Qed.

Definition locals_ok (h : heap) (locals : option nat) : Prop := match locals with Some r => is_Some (h_store h !! r) | None => True end.
Lemma locals_grow h h' l : grows h h' -> locals_ok h l -> locals_ok h' l.
Proof. intros [_ G]. destruct l; [apply G|done]. Qed.

(** What is right stays so in the heap that has grown. *)
Ltac move_up G := match type of G with grows ?h _ => repeat match goal with
  | H : val_ok h _ |- _ => apply (val_grows _ _ _ G) in H
  | H : Forall (val_ok h) _ |- _ => apply (vals_grow _ _ _ G) in H
  | H : locals_ok h _ |- _ => apply (locals_grow _ _ _ G) in H
  end end.

(** One statement of a sequence; a branch of a condition; a value or an exception. *)
Ltac kbind := eapply page_bind; [eassumption| |let a := fresh "a" in let h := fresh "h" in let G := fresh "G" in intros a h ? G ?; move_up G].
Ltac kif := match goal with |- context [if ?b then _ else _] => destruct b end.
Ltac kept := eauto using val_grows, vals_grow, locals_grow, grows_refl, grows_trans.
Ltac kend := first [apply page_throw; eassumption | apply page_ret; [eassumption|solve [done|kept]]].

Lemma to_prim_keeps b v h : page h -> val_ok h v -> keeps (to_prim ho b v) val_ok h.
Proof.
  intros Hp Hv. unfold to_prim. kif; [|kend]. kbind; [destruct Hp; by apply host_primitive|]. kif; kend.
Qed.
Lemma to_text_keeps v h : page h -> val_ok h v -> keeps (to_text ho v) any h.
Proof. intros. unfold to_text. kbind; [by apply to_prim_keeps|kend]. Qed.
Lemma to_num_keeps v h : page h -> val_ok h v -> keeps (to_num ho v) any h.
Proof. intros. unfold to_num. kbind; [by apply to_prim_keeps|kend]. Qed.
Lemma prim2_keeps {A} (f : hval -> hval -> A) (P : heap -> A -> Prop) a b h : page h -> val_ok h a -> val_ok h b ->
  (forall h' x y, P h' (f x y)) -> keeps (a <- to_prim ho false a ;; b <- to_prim ho false b ;; hret (f a b)) P h.
Proof. intros. kbind; [by apply to_prim_keeps|]. kbind; [apply to_prim_keeps; kept|]. by apply page_ret. Qed.
Lemma arith_keeps f a b h : page h -> val_ok h a -> val_ok h b -> keeps (arith ho f a b) val_ok h.
Proof. intros. unfold arith. kbind; [by apply to_num_keeps|]. kbind; [apply to_num_keeps; kept|]. kend. Qed.
Lemma loose_eq_keeps a b h : page h -> val_ok h a -> val_ok h b -> keeps (loose_eq ho a b) any h.
Proof. intros. unfold loose_eq. kif; [kend|]. kif; [kend|]. by apply prim2_keeps. Qed.

Lemma binary_op_keeps op a b h : page h -> val_ok h a -> val_ok h b -> keeps (binary_op ho op a b) val_ok h.
Proof.
  intros Hp Ha Hb. unfold binary_op.
  kif; [destruct (negb (is_undefined a)), (negb (is_undefined b)); [apply prim2_keeps; try done; intros ? [] []; done|kend..]|].
  kif; [apply arith_keeps; [done|by destruct (is_undefined _)..]|]. do 5 (kif; [first [by apply arith_keeps|kend]|]).
  do 2 (kif; [kbind; [by apply loose_eq_keeps|kend]|]). do 4 (kif; [by apply prim2_keeps|]). kend.
Qed.

(** ** The checks of the sandbox *)

(** What [ensureSafeObject] lets through is not [Object]. *)
Definition guarded (h : heap) (v : hval) : Prop := val_ok h v /\ (htruthy v = true -> strict_eq v (ho_Object ho) = false).

Lemma ensureSafeName_keeps v h : page h -> keeps (ensureSafeName v) any h.
Proof. intros. unfold ensureSafeName. destruct v; try kend. kif; kend. Qed.
Lemma all_truthy_keeps v ks h : page h -> val_ok h v -> keeps (all_truthy ho v ks) any h.
Proof.
  revert h. induction ks as [|k ks IH]; intros h Hp Hv; cbn [all_truthy]; [kend|]. kbind; [by apply get_prop_keeps|].
  kif; [apply IH; kept|kend].
Qed.
Lemma ensureSafeObject_keeps v h : page h -> val_ok h v -> keeps (ensureSafeObject ho v) guarded h.
Proof.
  intros Hp Hv. unfold ensureSafeObject. destruct (htruthy v) eqn:Et; [|apply page_ret; [done|]; split; [done|by rewrite Et]].
  kbind; [by apply get_prop_keeps|]. kif; [kend|]. kbind; [apply all_truthy_keeps; kept|]. kif; [kend|].
  kbind; [apply all_truthy_keeps; kept|]. kbind.
  { instantiate (1 := any). kif; [|kend]. kbind; [apply all_truthy_keeps; kept|]. kif; [kend|apply all_truthy_keeps; kept]. }
  kif; [kend|]. destruct (strict_eq v (ho_Object ho)) eqn:Eo; [kend|]. apply page_ret; [done|]. split; [kept|done].
Qed.
Lemma ensureSafeFunction_keeps v h : page h -> val_ok h v -> keeps (ensureSafeFunction ho v) any h.
Proof.
  intros. unfold ensureSafeFunction. kif; [|kend]. kbind; [by apply get_prop_keeps|]. kif; [kend|]. kif; kend.
Qed.

(** ** Paths *)

Lemma pick_keeps locals k scope h : page h -> val_ok h scope -> locals_ok h locals -> keeps (pick locals k scope) val_ok h.
Proof.
  intros [W _] Hs Hl r h' [= <- <-]. split_and!; [done|done|]. destruct locals as [l|]; [|done]. by destruct (has_own _ _ _).
Qed.
Lemma rest_getter_keeps keys v h : page h -> val_ok h v -> keeps (rest_getter ho keys v) val_ok h.
Proof.
  revert v h. induction keys as [|k keys IH]; intros v h Hp Hv; cbn [rest_getter]; [kend|]. kif; [kend|].
  kbind; [by apply get_prop_keeps|by apply IH].
Qed.
Lemma simple1_keeps k v locals h : page h -> val_ok h v -> locals_ok h locals -> keeps (simpleGetterFn1 ho k v locals) val_ok h.
Proof. intros. unfold simpleGetterFn1. kif; [kend|]. kbind; [by apply pick_keeps|by apply get_prop_keeps]. Qed.
Lemma getterFn_keeps path v locals h : page h -> val_ok h v -> locals_ok h locals -> keeps (getterFn ho path v locals) val_ok h.
Proof.
  intros. assert (He : forall keys, keeps (evaledFnGetter ho keys v locals) val_ok h).
  { intros [|k keys]; cbn [evaledFnGetter]; [kend|]. kif; [kend|]. kbind; [by apply pick_keeps|].
    kbind; [by apply get_prop_keeps|by apply rest_getter_keeps]. }
  unfold getterFn. destruct (split _ _) as [|k0 [|k1 [|k2 keys]]]; try apply He; [by apply simple1_keeps|].
  unfold simpleGetterFn2. kif; [kend|]. kbind; [by apply pick_keeps|]. kbind; [by apply get_prop_keeps|]. kif; [kend|by apply get_prop_keeps].
Qed.

Lemma new_object_keeps o h : page h -> proto_below (h_next h) o -> obj_ok h o -> keeps (new_object o) val_ok h.
Proof. intros [W _] Ho Hp r h' [= <- <-]. by apply alloc_wf. Qed.
Lemma setter_keys_keeps keys obj v h : page h -> val_ok h obj -> val_ok h v -> keeps (setter_keys ho obj keys v) val_ok h.
Proof.
  revert obj h. induction keys as [|k keys IH]; intros obj h Hp Ho Hv; cbn [setter_keys]; [kend|]. destruct keys as [|k' keys].
  - kbind; [by apply ensureSafeName_keeps|]. kbind; [apply ensureSafeObject_keeps; kept|]. kbind; [apply get_prop_keeps; kept|].
    kbind; [by apply ensureSafeObject_keeps|]. kbind; [apply set_prop_keeps; kept|]. kend.
  - kbind; [by apply ensureSafeName_keeps|]. kbind; [apply get_prop_keeps; kept|]. kbind.
    { instantiate (1 := val_ok). kif; [kend|]. kbind; [apply new_object_keeps; [done|done|by repeat constructor]|].
      kbind; [apply set_prop_keeps; kept|kend]. }
    apply IH; kept.
Qed.

(** ** Calls and lists *)

Lemma call_keeps f this args h : page h -> val_ok h f -> val_ok h this -> Forall (val_ok h) args -> keeps (ho_call ho f this args) val_ok h.
Proof. intros [W G]. by apply host_call. Qed.
Lemma invoke_keeps f this args h : page h -> val_ok h f -> val_ok h this -> Forall (val_ok h) args -> keeps (invoke ho f this args) val_ok h.
Proof.
  intros Hp Hf Ht Ha r h' E. unfold invoke in E. destruct (isFunction h f); [by apply (call_keeps f this args h)|].
  revert r h' E. kbind; [by apply get_prop_keeps|]. kbind; [by apply new_object_keeps|]. intros r h' E.
  match type of E with (if isFunction ?x ?y then _ else _) = _ => destruct (isFunction x y) end.
  - eapply call_keeps; [..|exact E]; [done|done|done|]. by apply Forall_cons; split; [|apply Forall_singleton].
  - injection E as <- <-. split_and!; [by match goal with P : page ?h |- heap_wf ?h => apply P end|done|done].
Qed.
Lemma map_run_keeps {A} (f : A -> run hval) l h : page h -> (forall x h', x ∈ l -> page h' -> grows h h' -> keeps (f x) val_ok h') ->
  keeps (map_run f l) (fun h => Forall (val_ok h)) h.
Proof.
  revert h. induction l as [|x l IH]; intros h Hp Hf; cbn [map_run]; [kend|]. kbind; [apply Hf; [left|done|done]|].
  kbind; [apply IH; [done|]; intros y h' Hy ? ?; apply Hf; [by right|done|by etrans]|]. apply page_ret; [done|]. constructor; kept.
Qed.
Lemma last_run_keeps {A} (f : A -> run hval) v l h : page h -> val_ok h v ->
  (forall x h', x ∈ l -> page h' -> grows h h' -> keeps (f x) val_ok h') -> keeps (last_run f v l) val_ok h.
Proof.
  revert v h. induction l as [|x l IH]; intros v h Hp Hv Hf; cbn [last_run]; [kend|]. kbind; [apply Hf; [left|done|done]|].
  apply IH; [done|done|]. intros y h' Hy ? ?. apply Hf; [by right|done|by etrans].
Qed.
Lemma object_index_keeps o i h : page h -> val_ok h o -> val_ok h i -> keeps (object_index ho o i) guarded h.
Proof.
  intros. unfold object_index. kbind; [by apply ensureSafeName_keeps|]. kif; [|by apply page_ret].
  kbind; [apply to_text_keeps; kept|]. kbind; [apply get_prop_keeps; kept|]. by apply ensureSafeObject_keeps.
Qed.

(** ** Induction on expressions *)

Definition Forall_all {A} {P : A -> Prop} (f : forall x, P x) : forall l, Forall P l :=
  fix go l := match l with [] => Forall_nil_2 P | x :: l => Forall_cons_2 P x l (f x) (go l) end.

(** The hypothesis also holds of the parts of a member or index expression: calls and assignments evaluate them apart. *)
Section ExprInd.
Context (P : expr -> Prop).
Definition parts (e : expr) : Prop := match e with EField o _ => P o | EIndex o i => P o /\ P i | _ => True end.
Context (HConst : forall v, P (EConst v)) (HOp : forall op, P (EOperator op)) (HPath : forall s, P (EPath s)).
Context (HBin : forall op l r, P l -> P r -> P (EBin op l r)) (HNot : forall e, P e -> P (ENot e)).
Context (HTern : forall c a b, P c -> P a -> P b -> P (ETernary c a b)).
Context (HAssign : forall l r, parts l -> P r -> P (EAssign l r)).
Context (HCall : forall fn c args, P fn -> parts fn -> match c with Some c => P c | None => True end -> Forall P args -> P (ECall fn c args)).
Context (HField : forall o f, P o -> P (EField o f)) (HIndex : forall o i, P o -> P i -> P (EIndex o i)).
Context (HArray : forall es, Forall P es -> P (EArray es)) (HObject : forall kvs, Forall (fun kv => P kv.2) kvs -> P (EObject kvs)).
Context (HFilter : forall e n args, P e -> Forall P args -> P (EFilter e n args)) (HStm : forall es, Forall P es -> P (EStatements es)).

Fixpoint expr_parts_ind (e : expr) : P e :=
  let parts_of (e : expr) : parts e :=
    match e with EField o _ => expr_parts_ind o | EIndex o i => conj (expr_parts_ind o) (expr_parts_ind i) | _ => I end in
  match e with
  | EConst v => HConst v | EOperator op => HOp op | EPath s => HPath s
  | EBin op l r => HBin op l r (expr_parts_ind l) (expr_parts_ind r)
  | ENot e => HNot e (expr_parts_ind e)
  | ETernary c a b => HTern c a b (expr_parts_ind c) (expr_parts_ind a) (expr_parts_ind b)
  | EAssign l r => HAssign l r (parts_of l) (expr_parts_ind r)
  | ECall fn c args =>
      HCall fn c args (expr_parts_ind fn) (parts_of fn) (match c with Some c => expr_parts_ind c | None => I end) (Forall_all expr_parts_ind args)
  | EField o f => HField o f (expr_parts_ind o)
  | EIndex o i => HIndex o i (expr_parts_ind o) (expr_parts_ind i)
  | EArray es => HArray es (Forall_all expr_parts_ind es)
  | EObject kvs => HObject kvs (Forall_all (fun kv => expr_parts_ind kv.2) kvs)
  | EFilter e n args => HFilter e n args (expr_parts_ind e) (Forall_all expr_parts_ind args)
  | EStatements es => HStm es (Forall_all expr_parts_ind es)
  end.
End ExprInd.

(** ** Evaluation *)

Section Run.
Context (scope : hval) (locals : option nat).

(** What an expression gives: a value of the heap, never [Object] from a call or an index. *)
Definition gives (e : expr) : heap -> hval -> Prop := match e with ECall _ _ _ | EIndex _ _ => guarded | _ => val_ok end.
Definition typed (e : expr) : Prop := forall h, page h -> val_ok h scope -> locals_ok h locals -> keeps (eval ho scope locals e) (gives e) h.
Definition valued (e : expr) : Prop := forall h, page h -> val_ok h scope -> locals_ok h locals -> keeps (eval ho scope locals e) val_ok h.

Lemma typed_valued e : typed e -> valued e.
Proof. intros T h Hp Hs Hl. eapply keeps_weaken; [by apply T|]. intros h' v. destruct e; cbn [gives]; try done; by intros [? _]. Qed.
Lemma parts_valued e : parts typed e -> parts valued e.
Proof. destruct e; cbn [parts]; try done; [by apply typed_valued|]. intros [??]. split; by apply typed_valued. Qed.
Lemma list_valued es h : Forall typed es -> page h -> val_ok h scope -> locals_ok h locals ->
  forall e h', e ∈ es -> page h' -> grows h h' -> keeps (eval ho scope locals e) val_ok h'.
Proof.
  intros F Hp Hs Hl e h' He Hp' G. apply typed_valued; [|done|by eapply val_grows|by eapply locals_grow].
  by apply (proj1 (Forall_forall _ _) F).
Qed.

Lemma assign_typed l r : parts typed l -> typed r -> typed (EAssign l r).
Proof.
  intros Hl%parts_valued Hr%typed_valued h Hp Hs Hlo. cbn [eval gives]. kbind; [by apply Hr|]. destruct l; try kend.
  - by apply setter_keys_keeps.
  - kbind; [by apply Hl|by apply setter_keys_keeps].
  - destruct Hl as [Ho Hi]. kbind; [by apply Hi|]. kbind; [by apply Ho|]. kbind; [by apply ensureSafeObject_keeps|].
    match goal with Hg : guarded _ _ |- _ => destruct Hg as [? _] end. kbind; [by apply to_text_keeps|].
    kbind; [by apply set_prop_keeps|kend].
Qed.
Lemma function_valued fn context h : parts valued fn -> valued fn -> page h -> val_ok h scope -> locals_ok h locals -> val_ok h context ->
  keeps (match fn with
         | EField o field => self <- (if htruthy context then hret context else eval ho scope locals o) ;; getterFn ho field self None
         | _ => eval ho scope locals fn
         end) val_ok h.
Proof.
  intros Hf Hv Hp Hs Hl Hc. destruct fn; try by apply Hv. kbind; [|by apply getterFn_keeps]. kif; [kend|by apply Hf].
Qed.
Lemma call_typed fn c args : typed fn -> parts typed fn -> match c with Some c => typed c | None => True end -> Forall typed args -> typed (ECall fn c args).
Proof.
  intros Hf%typed_valued Hp'%parts_valued Hc Ha h Hp Hs Hl. cbn [eval gives]. kbind.
  { instantiate (1 := val_ok). destruct c as [c|]; [by apply typed_valued|kend]. }
  kbind; [by apply map_run_keeps, list_valued|]. cbn beta in *. kbind; [by apply function_valued|]. kbind; [by apply ensureSafeObject_keeps|]. kif; [|by apply page_ret].
  kbind; [by apply ensureSafeFunction_keeps|]. kbind; [by apply invoke_keeps|]. by apply ensureSafeObject_keeps.
Qed.
Lemma object_typed kvs : Forall (fun kv : jstr * expr => typed kv.2) kvs -> typed (EObject kvs).
Proof.
  intros F h Hp Hs Hl. cbn [eval gives]. kbind; [apply new_object_keeps; [done|done|by repeat constructor]|]. kbind; [|kend].
  instantiate (1 := any). induction F as [|kv kvs Hk F IH] in h1, H, Hs, Hl, H0 |- *; [kend|].
  kbind; [by apply typed_valued|]. kbind; [by apply set_prop_keeps|by apply IH].
Qed.

Lemma eval_typed e : typed e.
Proof.
  induction e as [v|op|p|op l r IHl IHr|e IH|c a b IHc IHa IHb|l r IHl IHr|fn c args IHf IHp IHc IHa|o f IHo|o i IHo IHi|es IHes|kvs IHk|e n args IHe IHa|es IHes]
    using expr_parts_ind; [| | | | | |by apply assign_typed|by apply call_typed| | | |by apply object_typed| |];
    repeat match goal with IH : typed _ |- _ => apply typed_valued in IH end; intros h Hp Hs Hl; cbn [eval gives].
  - apply page_ret; [done|]. by destruct v.
  - kif; kend.
  - by apply getterFn_keeps.
  - kbind; [by apply IHl|]. kif; [kif; [by apply IHr|kend]|]. kif; [kif; [kend|by apply IHr]|].
    kbind; [by apply IHr|by apply binary_op_keeps].
  - kbind; [by apply IH|kend].
  - kbind; [by apply IHc|]. kif; [by apply IHa|by apply IHb].
  - kbind; [by apply IHo|by apply getterFn_keeps].
  - kbind; [by apply IHo|]. kbind; [by apply IHi|by apply object_index_keeps].
  - kbind; [by apply map_run_keeps, list_valued|]. by apply new_object_keeps.
  - kbind; [by apply IHe|]. kbind; [by apply map_run_keeps, list_valued|]. cbn beta in *.
    match goal with P : page ?h |- keeps _ _ ?h => destruct P end. by apply host_filter; try apply Forall_cons.
  - by apply last_run_keeps; [| |apply list_valued].
Qed.
End Run.
End Types.

(** ** The theorem *)

(** C5. Evaluation keeps the heap well typed.  On a page whose language behaves ([HostOk]), any expression, with a scope
    and locals of the heap, ends in a well-formed heap: every reference leads to an object, prototypes are older than the
    objects made from them, and no object has a property twice.  No object is ever lost, a value that is given is one of
    the new heap, also when the expression assigns, makes objects or calls functions; and a call or a computed member
    never gives the function [Object]. *)
Theorem eval_preserves ho scope locals e h r h' : HostOk h ho -> heap_wf h -> val_ok h scope -> locals_ok h locals ->
  eval ho scope locals e h = (r, h') ->
  heap_wf h' /\ (forall x, is_Some (h_store h !! x) -> is_Some (h_store h' !! x)) /\
  (forall v, r = Ok v -> val_ok h' v /\
     (match e with ECall _ _ _ | EIndex _ _ => true | _ => false end = true -> htruthy v = true -> strict_eq v (ho_Object ho) = false)).
Proof.
  intros HO W Hs Hl E. destruct (eval_typed h ho scope locals e h (conj W (reflexivity h)) Hs Hl r h' E) as (W' & G & Hr).
  split_and!; [done|apply G|]. intros v ->. destruct e; cbn in Hr; try done; by destruct Hr.
Qed.

(** The expression [b.c = [a, {d: f(a)}][0]] of a scope [{a: 1, f: function}]; a function gives its [this]. *)
Definition echo_host : host :=
  Host (fun _ _ _ => HUndef) (fun _ this _ => hret this) (fun _ _ => hret HUndef) (fun _ _ => hret tt) (HNative (js "Object")) [] (fun _ _ args => hret (nth 0 args HUndef)).
Lemma echo_ok h : HostOk h echo_host.
Proof.
  split; cbn; [done|by intros; apply safe_ret..|]. intros h' _ this args W _ _ Ha. apply safe_ret; [done|]. destruct Ha; done.
Qed.
Lemma eval_preserves_witness :
  let h := Heap (<[0 := OObj None (ob_set (ob_set [] (js "a") (HNum (Fin 1))) (js "f") (HRef 1))]> (<[1 := OFun 0]> ∅)) 2 in
  let a := EPath (js "a") in
  let e := EAssign (EPath (js "b.c")) (EIndex (EArray [ECall (EPath (js "f")) None [a]; EObject [(js "d", a)]]) (EConst (JNum (Fin 0)))) in
  let out := eval echo_host (HRef 0) None e h in
  heap_wf out.2 /\ out.1 = Ok (HRef 0) /\ val_ok out.2 (HRef 0).
Proof.
  intros h a e out.
  assert (W : heap_wf h) by (apply heap_check_wf; vm_compute; reflexivity).
  assert (E1 : out.1 = Ok (HRef 0)) by (vm_compute; reflexivity).
  destruct (eval_preserves echo_host (HRef 0) None e h out.1 out.2 (echo_ok h) W) as (W' & _ & Hv).
  - by eexists.
  - exact I.
  - exact (surjective_pairing out).
  - split; [exact W'|]. split; [exact E1|]. exact (proj1 (Hv _ E1)).
Defined.
