(* ===== verification/NumberFilter.v ===== *)
(** * The filters number and currency (angular.js, formatNumber)

    An amount is any value; so is the number of decimals that a page may write.  An array or an object is never
    formatted.  [toFixed] is that of ECMAScript 5: a size above 20 is an error. *)

From Stdlib Require Import QArith Qround.
From S2P Require Import Prelude JsString JsObject JsNumber UriCodec Json Heap Lexer Parser Eval.
#[local] Open Scope nat_scope.
Local Open Scope result_scope.

(** ** Formats of a locale *)

Record number_pattern : Type := NumberPattern {
  minFrac : nat; maxFrac : nat;
  posPre : jstr; posSuf : jstr; negPre : jstr; negSuf : jstr;
  gSize : nat; lgSize : nat
}.
Record number_formats : Type := NumberFormats {
  DECIMAL_SEP : jstr; GROUP_SEP : jstr;
  decimal_pattern : number_pattern;      (** [PATTERNS[0]] *)
  currency_pattern : number_pattern;     (** [PATTERNS[1]] *)
  CURRENCY_SYM : jstr
}.
(** The sign in the currency pattern that stands for the symbol. *)
Definition currency_sign : N := 164%N.
Definition en_us_numbers : number_formats := NumberFormats (js ".") (js ",")
  (NumberPattern 0 3 [] [] (js "-") [] 3 3)
  (NumberPattern 2 2 [currency_sign] [] (chr "(" :: [currency_sign]) (js ")") 3 3)
  (js "$").

(** ** What the language provides *)

Definition is_finite (x : num) : bool := match x with Fin _ => true | _ => false end.
Definition num_abs (x : num) : num :=
  match x with Fin q => Fin (if (Qnum q <? 0)%Z then - q else q)%Q | Inf _ => Inf false | NaN => NaN end.
(** [Math.round]: halves go up. *)
Definition num_round (x : num) : num :=
  match x with Fin q => Fin (inject_Z (Qfloor (q + (1 # 2)))) | _ => x end.
(** ToInteger, as a length from 0. *)
Definition to_length (x : num) (most : nat) : nat :=
  match x with Fin q => Z.to_nat (Qfloor q) | Inf false => most | _ => 0 end.
(** [v + 1]. *)
Definition plus_one (v : json) : json :=
  match v with
  | JStr _ | JArr _ | JObj _ | JFn _ => JStr (jtext v ++ js "1")
  | _ => JNum (num_add (jnumber v) (Fin 1))
  end.
(** [s > v] for a string [s]. *)
Definition text_above (s : jstr) (v : json) : bool :=
  match v with JStr t => str_lt t s | _ => num_lt (jnumber v) (num_of_str s) end.

(** No text is made: a RangeError, or a loop without end. *)
Inductive format_error : Type := FormatRange | FormatEndless.

(** [x.toFixed(f)] for a number from 0 below 1. *)
Definition toFixed (x : Q) (f : nat) : result format_error jstr :=
  if Nat.ltb 20 f then Throw FormatRange
  else
    let m := dec_of_Z (Qfloor (x * inject_Z (10 ^ Z.of_nat f) + (1 # 2))) in
    let m := repeat (chr "0") (S f - length m) ++ m in
    Ok (take (length m - f) m ++ (if Nat.eqb f 0 then [] else js "." ++ drop (length m - f) m)).

(** ** [formatNumber] *)

(** [numStr.match(/([\d\.]+)e(-?)(\d+)/)] for the text of a number: the sign and the exponent.  The text of
    a large number has a plus sign, and does not match. *)
Definition match_exponent (numStr : jstr) : option (bool * jstr) :=
  match span (fun c => negb (c =? chr "e")%N) numStr with
  | (_, _ :: r) =>
      let '(minus, r) := match r with c :: r' => if (c =? chr "-")%N then (true, r') else (false, r) | [] => (false, r) end in
      let '(ds, _) := span is_digit r in
      match ds with [] => None | _ => Some (minus, ds) end
  | (_, []) => None
  end.

(** [text.split('.')[0]] and [text.split('.')[1] || '']. *)
Definition split_number (text : jstr) : jstr * jstr :=
  match split (chr ".") text with w :: f :: _ => (w, f) | [w] => (w, []) | [] => ([], []) end.

(** [k % n === 0] *)
Definition divides (n k : nat) : bool := negb (Nat.eqb n 0) && Nat.eqb (k mod n) 0.
(** The characters from [i] on, up to [last], with separators where [last - i] is a multiple of the size. *)
Fixpoint group_from (size last : nat) (groupSep : jstr) (i : nat) (chars : jstr) : jstr :=
  match chars with
  | [] => []
  | c :: chars => (if divides size (last - i) && negb (Nat.eqb i 0) then groupSep else []) ++ c :: group_from size last groupSep (S i) chars
  end.
(** The two loops on the whole part. *)
Definition group_whole (pattern : number_pattern) (groupSep whole : jstr) : jstr :=
  let len := length whole in
  let pos := if Nat.leb (lgSize pattern + gSize pattern) len then len - lgSize pattern else 0 in
  group_from (gSize pattern) pos groupSep 0 (take pos whole) ++
  group_from (lgSize pattern) len groupSep pos (drop pos whole).

(** [while (fraction.length < fractionSize) fraction += '0']. *)
Definition pad_fraction (fraction : jstr) (fractionSize : num) : result format_error jstr :=
  match fractionSize with
  | Fin q => Ok (fraction ++ repeat (chr "0") (Z.to_nat (Qceiling q) - length fraction))
  | Inf false => Throw FormatEndless
  | _ => Ok fraction
  end.

(** [x * 10 ** e] by way of the text of [x]: [+(x.toString() + 'e' + e)]. *)
Definition shift10 (x : num) (e : jstr) : num := num_of_str (num_to_str x ++ chr "e" :: e).

(** The branch without an exponent; [numStr] is the text of [number]. *)
Definition format_plain (number : num) (numStr : jstr) (pattern : number_pattern) (groupSep decimalSep : jstr) (fractionSize : json)
    : result format_error jstr :=
  let fractionLen := length (split_number numStr).2 in
  let fractionSize := match fractionSize with
                      | JUndef => jint (Z.of_nat (Nat.min (Nat.max (minFrac pattern) fractionLen) (maxFrac pattern)))
                      | _ => fractionSize
                      end in
  let number := shift10 (num_round (shift10 number (jtext fractionSize))) (num_to_str (num_opp (jnumber fractionSize))) in
  let '(whole, fraction) := split_number (num_to_str number) in
  let formatedText := group_whole pattern groupSep whole in
  let* fraction := pad_fraction fraction (jnumber fractionSize) in
  Ok (formatedText ++
      (if jtruthy fractionSize && negb (jis_str fractionSize (js "0"))
       then decimalSep ++ take (to_length (jnumber fractionSize) (length fraction)) fraction else [])).

(** The branch with an exponent. *)
Definition format_exponent (number : num) (numStr : jstr) (fractionSize : json) : result format_error jstr :=
  match number with
  | Fin q => if num_lt (Fin 0) (jnumber fractionSize) && num_lt number (Fin 1) then toFixed q (to_length (jnumber fractionSize) 21)
             else Ok numStr
  | _ => Ok numStr
  end.

Definition formatNumber (number : json) (pattern : number_pattern) (groupSep decimalSep : jstr) (fractionSize : json)
    : result format_error jstr :=
  match number with
  | JUndef | JNull | JArr _ | JObj _ | JFn _ => Ok []
  | _ =>
      if negb (is_finite (jnumber number)) then Ok []
      else
        let isNegative := num_lt (jnumber number) (Fin 0) in
        let number := num_abs (jnumber number) in
        let numStr := num_to_str number in
        let* formatedText :=
          (if existsb (N.eqb (chr "e")) numStr then
             match match_exponent numStr with
             | Some (true, e) =>
                 if text_above e (plus_one fractionSize) then format_plain (Fin 0) (js "0") pattern groupSep decimalSep fractionSize
                 else format_exponent number numStr fractionSize
             | _ => format_exponent number numStr fractionSize
             end
           else format_plain number numStr pattern groupSep decimalSep fractionSize) in
        Ok ((if isNegative then negPre pattern else posPre pattern) ++ formatedText ++ (if isNegative then negSuf pattern else posSuf pattern))
  end.

(** ** The filters *)

Definition numberFilter (formats : number_formats) (number fractionSize : json) : result format_error jstr :=
  formatNumber number (decimal_pattern formats) (GROUP_SEP formats) (DECIMAL_SEP formats) fractionSize.

(** A replacement text at a match: the patterns [$$], [$&], [$`] and [$'] (there are no groups). *)
Fixpoint expand (replacement matched before after : jstr) : jstr :=
  match replacement with
  | 36%N :: rest =>
      match rest with
      | 36%N :: rest => chr "$" :: expand rest matched before after
      | 38%N :: rest => matched ++ expand rest matched before after
      | 96%N :: rest => before ++ expand rest matched before after
      | 39%N :: rest => after ++ expand rest matched before after
      | _ => chr "$" :: expand rest matched before after
      end
  | c :: rest => c :: expand rest matched before after
  | [] => []
  end.
(** [s.replace(/c/g, replacement)], [before] being what precedes [s]. *)
Fixpoint replace_unit (c : N) (replacement before s : jstr) : jstr :=
  match s with
  | [] => []
  | d :: s =>
      (if N.eqb d c then expand replacement [d] before s else [d]) ++ replace_unit c replacement (before ++ [d]) s
  end.

(** [None] is [undefined]; a symbol is a text. *)
Definition currencyFilter (formats : number_formats) (amount : json) (currencySymbol : option jstr) : result format_error jstr :=
  let currencySymbol := default (CURRENCY_SYM formats) currencySymbol in
  let* text := formatNumber amount (currency_pattern formats) (GROUP_SEP formats) (DECIMAL_SEP formats) (jint 2) in
  Ok (replace_unit currency_sign currencySymbol [] text).

Definition num_ (s : lit) : json := JNum (num_of_str (js s)).
Arguments num_ s%_string_scope.
Example numbers :
  numberFilter en_us_numbers (num_ "1234.56789") JUndef = Ok (js "1,234.568") /\
  numberFilter en_us_numbers (num_ "-1234.56789") (jint 4) = Ok (js "-1,234.5679") /\
  numberFilter en_us_numbers (jlit "3374.333") (jlit "4") = Ok (js "3,374.3330") /\
  numberFilter en_us_numbers (num_ "1e100") (jint 2) = Ok (js "1e+100") /\
  numberFilter en_us_numbers (num_ "1e-7") JUndef = Ok (js "1e-7") /\
  numberFilter en_us_numbers (num_ "1e-7") (jint 2) = Ok (js "0.00") /\
  numberFilter en_us_numbers (num_ "6.15e-7") (jint 7) = Ok (js "0.0000006") /\
  numberFilter en_us_numbers (num_ "1e-7") (jint 25) = Throw FormatRange /\
  numberFilter en_us_numbers (jint 1) (JNum (Inf false)) = Throw FormatEndless /\
  numberFilter en_us_numbers (JObj []) JUndef = Ok [] /\
  numberFilter en_us_numbers (num_ "1.005") (jint 2) = Ok (js "1.01") /\
  numberFilter en_us_numbers (num_ "123456.7") (jint (-2)) = Ok (js "123,500.").
Proof. vm_compute. tauto. Qed.
Example currencies :
  currencyFilter en_us_numbers (num_ "1234.5") None = Ok (js "$1,234.50") /\
  currencyFilter en_us_numbers (num_ "-0.009") (Some (js "USD$")) = Ok (js "(USD$0.01)") /\
  currencyFilter en_us_numbers (num_ "1e19") None = Ok (js "$NaN.00").
Proof. vm_compute. tauto. Qed.
