(* ===== verification/NumberFacts.v ===== *)
(** * Decimals shown by the filters number and currency

    A number written with few digits is printed with those digits, so that the rounding of [formatNumber], by way of
    texts, is that of decimals. *)

From Stdlib Require Import QArith Qround Qpower Lqa.
From S2P Require Import Prelude JsString JsObject JsNumber UriCodec Json Heap Lexer Parser Eval NumberFilter.
Local Open Scope Z_scope.

(** ** Rounding is a function of the value *)

Lemma half_even_scale a b t : 0 < b -> 0 < t -> half_even (a * t) (b * t) = half_even a b.
Proof.
  intros Hb Ht. unfold half_even. rewrite Z.div_mul_cancel_r, Zmult_mod_distr_r by lia.
  assert (E1 : (2 * (a mod b * t) <? b * t) = (2 * (a mod b) <? b)).
  { apply eq_true_iff_eq. rewrite !Z.ltb_lt. nia. }
  assert (E2 : (b * t <? 2 * (a mod b * t)) = (b <? 2 * (a mod b))).
  { apply eq_true_iff_eq. rewrite !Z.ltb_lt. nia. }
  by rewrite E1, E2.
Qed.
Lemma half_even_cross a b a' b' : 0 < b -> 0 < b' -> a * b' = a' * b -> half_even a b = half_even a' b'.
Proof. intros Hb Hb' E. rewrite <- (half_even_scale a b b'), <- (half_even_scale a' b' b) by done. f_equal; lia. Qed.

Lemma ratio_cross p q p' q' : 0 < q -> 0 < q' -> p * q' = p' * q -> (inject_Z p / inject_Z q == inject_Z p' / inject_Z q')%Q.
Proof.
  intros Hq Hq' E. apply inject_pos in Hq, Hq'. assert (E' : (inject_Z p * inject_Z q' == inject_Z p' * inject_Z q)%Q) by (by rewrite <- !inject_Z_mult, E).
  setoid_replace (inject_Z p) with (inject_Z p * inject_Z q' / inject_Z q')%Q by (field; lra). rewrite E'. field. split; lra.
Qed.
(** The exponent of the leading digit. *)
Lemma lead_unique p q k k' :
  0 < q -> pow2_le k p q = true -> pow2_le (k + 1) p q = false -> pow2_le k' p q = true -> pow2_le (k' + 1) p q = false -> k = k'.
Proof.
  intros Hq A B C D. assert (Hm : forall a b, a <= b -> pow2_le b p q = true -> pow2_le a p q = true).
  { intros a b Hab. rewrite !pow2_le_spec by done. intros H. eapply Qle_trans; [|exact H]. by apply Qpower_le_compat_l. }
  destruct (Z.lt_trichotomy k k') as [H|[H|H]]; [|done|].
  - rewrite (Hm (k + 1) k') in B; [done|lia|done].
  - rewrite (Hm (k' + 1) k) in D; [done|lia|done].
Qed.
Lemma pow2_le_cross k p q p' q' : 0 < q -> 0 < q' -> p * q' = p' * q -> pow2_le k p q = pow2_le k p' q'.
Proof. intros Hq Hq' E. apply eq_true_iff_eq. rewrite !pow2_le_spec by done. by rewrite (ratio_cross p q p' q'). Qed.
Definition lead (p q : Z) : Z := let k := Z.log2 p - Z.log2 q in if pow2_le k p q then k else k - 1.
Lemma lead_spec p q : 0 < p -> 0 < q -> pow2_le (lead p q) p q = true /\ pow2_le (lead p q + 1) p q = false.
Proof.
  intros Hp Hq. unfold lead. destruct (pow2_le (Z.log2 p - Z.log2 q) p q) eqn:E; (split; [|]).
  - done.
  - by apply log2_upper.
  - by apply log2_lower.
  - by replace (Z.log2 p - Z.log2 q - 1 + 1) with (Z.log2 p - Z.log2 q) by lia.
Qed.
Lemma ulp_exp_cross p q p' q' : 0 < p -> 0 < q -> 0 < p' -> 0 < q' -> p * q' = p' * q -> ulp_exp p q = ulp_exp p' q'.
Proof.
  intros Hp Hq Hp' Hq' E. change (Z.max (lead p q - 52) (-1074) = Z.max (lead p' q' - 52) (-1074)). do 2 f_equal.
  destruct (lead_spec p q Hp Hq), (lead_spec p' q' Hp' Hq'). eapply (lead_unique p q); [done..| |].
  all: by rewrite (pow2_le_cross _ p q p' q').
Qed.
#[export] Instance round_pos_proper : Proper (Qeq ==> Qeq) round_pos.
Proof.
  intros x y E. unfold round_pos. unfold Qeq in E. destruct x as [p q], y as [p' q']. cbn [Qnum Qden] in *.
  destruct (Z.leb_spec p 0), (Z.leb_spec p' 0); [done|nia|nia|].
  assert (Ee : ulp_exp p (Zpos q) = ulp_exp p' (Zpos q')) by (apply ulp_exp_cross; lia).
  rewrite !ldexp_spec. unfold signif. rewrite <- Ee. set (e := ulp_exp p (Zpos q)). clearbody e.
  replace (let '(a, b) := scaled p' (Zpos q') e in half_even a b) with (let '(a, b) := scaled p (Zpos q) e in half_even a b); [done|].
  unfold scaled. destruct (Z.leb_spec 0 e).
  - assert (0 < 2 ^ e) by (apply Z.pow_pos_nonneg; lia). apply half_even_cross; nia.
  - apply half_even_cross; nia.
Qed.

(** Halves are exact. *)
Lemma half_even_exact t b : 0 < b -> half_even (t * b) b = t.
Proof. intros Hb. unfold half_even. rewrite Z.div_mul, Z.mod_mul by lia. by destruct (Z.ltb_spec (2 * 0) b); [|lia]. Qed.
Lemma round_pos_half n : 0 < n < 2 ^ 52 -> (round_pos (n # 2) == n # 2)%Q.
Proof.
  intros [H0 H1]. unfold round_pos. cbn [Qnum Qden]. destruct (Z.leb_spec n 0); [lia|]. rewrite ldexp_spec. unfold signif.
  assert (He : ulp_exp n 2 < 0).
  { unfold ulp_exp. cbn [Z.log2]. assert (Z.log2 n < 52) by (apply Z.log2_lt_pow2; lia). destruct (pow2_le _ n 2); lia. }
  set (e := ulp_exp n 2) in *. clearbody e. unfold scaled. destruct (Z.leb_spec 0 e); [lia|].
  replace (n * 2 ^ (- e)) with (n * 2 ^ (- e - 1) * 2) by (rewrite <- Z.mul_assoc, Z.mul_comm with (m := 2), <- Z.pow_succ_r by lia; do 2 f_equal; lia).
  rewrite half_even_exact by lia. rewrite inject_Z_mult, <- Qpow2_Z by lia. rewrite <- Qmult_assoc, <- Qpower_plus by done.
  replace (- e - 1 + e) with (-1) by lia. change (2 ^ (-1))%Q with (1 # 2)%Q. unfold Qeq. cbn. lia.
Qed.

(** ** Powers of ten *)

Lemma pow10_spec n : (pow10 n == 10 ^ n)%Q.
Proof.
  unfold pow10. destruct (Z.leb_spec 0 n) as [Hn|Hn].
  - rewrite (Zpower_Qpower 10 n Hn). reflexivity.
  - pose proof (Zpower_Qpower 10 (- n) ltac:(lia)) as E. rewrite Qmake_Qdiv, Z2Pos.id by (apply Z.pow_pos_nonneg; lia).
    rewrite E, Qpower_opp. unfold Qdiv. rewrite Qinv_involutive, Qmult_1_l. reflexivity.
Qed.
Lemma pow10_pos n : (0 < pow10 n)%Q.
Proof. rewrite pow10_spec. by apply Qpower_0_lt. Qed.
Lemma pow10_add a b : (pow10 (a + b) == pow10 a * pow10 b)%Q.
Proof. rewrite !pow10_spec. by apply Qpower_plus. Qed.
Lemma pow10_Z n : 0 <= n -> (pow10 n == inject_Z (10 ^ n))%Q.
Proof. intros H. unfold pow10. by rewrite (proj2 (Z.leb_le 0 n) H). Qed.
Lemma pow10_le a b : a <= b -> (pow10 a <= pow10 b)%Q.
Proof. intros H. rewrite !pow10_spec. by apply Qpower_le_compat_l. Qed.
Lemma pow10_inv n : (pow10 n * pow10 (- n) == 1)%Q.
Proof. rewrite <- pow10_add. by replace (n + - n) with 0 by lia. Qed.
Lemma pow10_cancel a b (x y : Q) : (x * pow10 a == y * pow10 b)%Q <-> (x == y * pow10 (b - a))%Q.
Proof.
  split; intros E.
  - setoid_replace x with (x * pow10 a * pow10 (- a))%Q by (rewrite <- Qmult_assoc, pow10_inv; ring). rewrite E, <- Qmult_assoc, <- pow10_add.
    by replace (b + - a) with (b - a) by lia.
  - rewrite E, <- Qmult_assoc, <- pow10_add. by replace (b - a + a) with b by lia.
Qed.
(** [dec_exp] finds the number of digits before the point. *)
Lemma dec_exp_spec fuel x n N :
  (pow10 (N - 1) <= x)%Q -> (x < pow10 N)%Q -> Z.abs (n - N) < Z.of_nat fuel -> dec_exp fuel x n = N.
Proof.
  intros Hlo Hhi. revert n. induction fuel as [|fuel IH]; intros n Hf; [lia|]. cbn [dec_exp].
  destruct (Qle_bool (pow10 (n - 1)) x) eqn:E1; cbn [negb].
  - apply Qle_bool_iff in E1. assert (n <= N).
    { destruct (Z.le_gt_cases n N); [done|]. pose proof (pow10_le N (n - 1) ltac:(lia)). lra. }
    destruct (Qle_bool (pow10 n) x) eqn:E2.
    + apply Qle_bool_iff in E2. assert (n <> N) by (intros ->; lra). apply IH. lia.
    + assert (~ n < N); [|lia]. intros Hlt. pose proof (pow10_le n (N - 1) ltac:(lia)) as Hp.
      assert (Qle_bool (pow10 n) x = true) by (apply Qle_bool_iff; lra). congruence.
  - assert (N < n); [|apply IH; lia]. destruct (Z.lt_ge_cases N n); [done|]. pose proof (pow10_le (n - 1) (N - 1) ltac:(lia)) as Hp.
    assert (Qle_bool (pow10 (n - 1)) x = true) by (apply Qle_bool_iff; lra). congruence.
Qed.

(** ** Decimals with few digits *)

(** [c] units of [10 ^ -d]. *)
Definition units (c d : Z) : Q := (inject_Z c * pow10 (- d))%Q.
Lemma units_inj a b d : (units a d == units b d)%Q -> a = b.
Proof.
  unfold units. intros E%Qmult_inj_r; [|pose proof (pow10_pos (- d)); lra]. unfold Qeq in E. cbn in E. lia.
Qed.
Lemma units_pos a d : 0 < a -> (0 < units a d)%Q.
Proof. intros H%inject_pos. apply Qmult_lt_0_compat; [done|apply pow10_pos]. Qed.
Lemma units_le a b d : a <= b <-> (units a d <= units b d)%Q.
Proof.
  unfold units. rewrite Zle_Qle. pose proof (pow10_pos (- d)). split; intros H'; [by apply Qmult_le_compat_r; [|lra]|].
  by apply Qmult_le_r in H'.
Qed.
Lemma units_scale a d j : 0 <= j -> (units (a * 10 ^ j) (d + j) == units a d)%Q.
Proof.
  intros Hj. unfold units. rewrite inject_Z_mult, <- pow10_Z, <- Qmult_assoc, <- pow10_add by done. by replace (j + - (d + j)) with (- d) by lia.
Qed.

Lemma ninth_le (c k : Q) : (c <= k * inject_Z (10 ^ 15))%Q -> (0 <= k)%Q -> (c * (1 # 9007199254740992) <= k * (1 # 9))%Q.
Proof. change (inject_Z (10 ^ 15)) with 1000000000000000%Q. lra. Qed.
(** The double nearest to [k] times [10 ^ 15] units is less than [k] ninths of a unit away. *)
Lemma units_error k c d : 0 < c <= k * 10 ^ 15 -> d <= 7 ->
  (units c d - inject_Z k * (1 # 9) * pow10 (- d) <= round_pos (units c d))%Q /\
  (round_pos (units c d) <= units c d + inject_Z k * (1 # 9) * pow10 (- d))%Q.
Proof.
  intros [Hc Hc'] Hd. assert (Hlow : (2 ^ (-1022) <= units c d)%Q).
  { apply Qle_trans with (units 1 d).
    - unfold units. rewrite Qmult_1_l. apply Qle_trans with (pow10 (-7)); [by apply Qle_bool_iff; vm_compute|]. apply pow10_le. lia.
    - apply units_le. lia. }
  apply round_pos_err in Hlow. change (2 ^ (-53))%Q with (1 # 9007199254740992)%Q in Hlow.
  assert (He : (units c d * (1 # 9007199254740992) <= inject_Z k * (1 # 9) * pow10 (- d))%Q).
  { unfold units. assert (0 <= k) by lia. rewrite Zle_Qle, inject_Z_mult in Hc'. apply Qle_trans with (inject_Z c * (1 # 9007199254740992) * pow10 (- d))%Q; [lra|].
    apply Qmult_le_compat_r; [|pose proof (pow10_pos (- d)); lra]. apply ninth_le; [done|]. rewrite <- (Zle_Qle 0). lia. }
  destruct Hlow. split; lra.
Qed.
(** So decimals with the same double are the same. *)
Lemma round_units_inj a b d : 0 < a <= 4 * 10 ^ 15 -> 0 < b <= 4 * 10 ^ 15 -> d <= 7 ->
  (round_pos (units a d) == round_pos (units b d))%Q -> a = b.
Proof.
  assert (H : forall a b, 0 < a <= 4 * 10 ^ 15 -> 0 < b <= 4 * 10 ^ 15 -> d <= 7 -> (round_pos (units a d) == round_pos (units b d))%Q -> a <= b).
  { intros x y Hx Hy Hd E. destruct (Z.le_gt_cases x y) as [|Hlt]; [done|exfalso].
    destruct (units_error 4 x d Hx Hd) as [Hx' _], (units_error 4 y d Hy Hd) as [_ Hy']. rewrite E in Hx'.
    assert (Hu : (units (y + 1) d <= units x d)%Q) by (apply units_le; lia). pose proof (pow10_pos (- d)) as Hp.
    unfold units in *. rewrite inject_Z_plus in Hu. change (inject_Z 4) with 4%Q in *. change (inject_Z 1) with 1%Q in Hu. lra. }
  intros Ha Hb Hd E. apply Z.le_antisymm; eapply H; eauto. by symmetry.
Qed.

(** ** The shortest decimal is the decimal *)

Section Shortest.
Context (x : Q) (n c d : Z) (Hc : 0 < c <= 10 ^ 15) (Hd : d <= 7) (Hx : (x == round_pos (units c d))%Q).
Context (Hlo : (pow10 (n - 1) <= x)%Q) (Hhi : (x < pow10 n)%Q).

Definition floor_at (k : Z) : Z := Qfloor (x * pow10 (k - n))%Q.
Definition short_ok (k s : Z) : bool := Qeq_bool (round_pos (inject_Z s * pow10 (n - k))%Q) x.

Lemma floor_at_range k : 1 <= k -> 10 ^ (k - 1) <= floor_at k < 10 ^ k.
Proof.
  intros Hk. unfold floor_at. pose proof (pow10_pos (k - n)) as Hp.
  assert (E1 : (inject_Z (10 ^ (k - 1)) <= x * pow10 (k - n))%Q).
  { rewrite <- pow10_Z by lia. replace (k - 1) with ((n - 1) + (k - n)) by lia. rewrite pow10_add. apply Qmult_le_compat_r; [done|lra]. }
  assert (E2 : (x * pow10 (k - n) < inject_Z (10 ^ k))%Q).
  { rewrite <- pow10_Z by lia. replace (pow10 k) with (pow10 (n + (k - n))) by (f_equal; lia). rewrite pow10_add. by apply Qmult_lt_r. }
  pose proof (Qfloor_le (x * pow10 (k - n))) as F. pose proof (Qlt_floor (x * pow10 (k - n))) as G. split.
  - apply Zlt_succ_le. rewrite Zlt_Qlt. eapply Qle_lt_trans; [exact E1|exact G].
  - rewrite Zlt_Qlt. eapply Qle_lt_trans; [exact F|exact E2].
Qed.

(** A candidate as units, and its bound. *)
Lemma candidate_units k s : k <= n + d -> (inject_Z s * pow10 (n - k) == units (s * 10 ^ (n + d - k)) d)%Q.
Proof.
  intros Hk. unfold units. rewrite inject_Z_mult, <- pow10_Z, <- Qmult_assoc, <- pow10_add by lia. by replace (n + d - k + - d) with (n - k) by lia.
Qed.
Lemma candidate_bound k s : 1 <= k <= n + d -> s <= floor_at k + 1 -> s * 10 ^ (n + d - k) <= 4 * c.
Proof.
  intros Hk Hs. apply (units_le _ _ d). rewrite <- candidate_units by lia. destruct (units_error 1 c d ltac:(lia) Hd) as [_ He]. rewrite <- Hx in He.
  assert (Hf : (inject_Z s * pow10 (n - k) <= x + pow10 (n - k))%Q).
  { pose proof (Qfloor_le (x * pow10 (k - n))) as F. fold (floor_at k) in F. rewrite Zle_Qle, inject_Z_plus in Hs. change (inject_Z 1) with 1%Q in Hs.
    setoid_replace x with (x * pow10 (k - n) * pow10 (n - k))%Q at 1.
    - rewrite <- (Qmult_1_l (pow10 (n - k))) at 3. rewrite <- Qmult_plus_distr_l. apply Qmult_le_compat_r; [lra|]. pose proof (pow10_pos (n - k)). lra.
    - replace (n - k) with (- (k - n)) by lia. rewrite <- Qmult_assoc, pow10_inv. ring. }
  pose proof (pow10_le (n - k) (n - 1) ltac:(lia)) as Hp.
  assert (Hu : (pow10 (- d) <= units c d)%Q). { setoid_replace (pow10 (- d)) with (units 1 d) by (unfold units; ring). apply units_le. lia. }
  assert (Hm : (units (4 * c) d == 4 * units c d)%Q) by (unfold units; rewrite inject_Z_mult; change (inject_Z 4) with 4%Q; ring).
  rewrite Hm. change (inject_Z 1) with 1%Q in He. pose proof (pow10_pos (- d)). lra.
Qed.
Lemma short_ok_spec k s : 1 <= k <= n + d -> 0 < s <= floor_at k + 1 -> short_ok k s = true <-> (inject_Z s * pow10 (n - k) == units c d)%Q.
Proof.
  intros Hk Hs. unfold short_ok. rewrite Qeq_bool_iff, Hx. split; [|by intros ->].
  rewrite candidate_units by lia. intros E. apply round_units_inj in E; [by rewrite E| |lia|done].
  pose proof (candidate_bound k s Hk ltac:(lia)). assert (0 < 10 ^ (n + d - k)) by (apply Z.pow_pos_nonneg; lia). nia.
Qed.
(** At the unit one of the two candidates is the decimal. *)
Lemma short_last : 1 <= n + d -> floor_at (n + d) = c \/ floor_at (n + d) + 1 = c.
Proof.
  intros Hk. destruct (units_error 1 c d ltac:(lia) Hd) as [He1 He2]. rewrite <- Hx in He1, He2. change (inject_Z 1) with 1%Q in *.
  unfold floor_at. replace (n + d - n) with d by lia. set (y := (x * pow10 d)%Q).
  assert (Hy : (inject_Z c - 1 < y)%Q /\ (y < inject_Z c + 1)%Q).
  { pose proof (pow10_pos d) as Hp. assert (Hi : (pow10 (- d) * pow10 d == 1)%Q) by (rewrite Qmult_comm; apply pow10_inv).
    assert (Hu : (units c d * pow10 d == inject_Z c)%Q) by (unfold units; rewrite <- Qmult_assoc, Hi; ring).
    apply (Qmult_le_compat_r _ _ (pow10 d)) in He1; [|lra]. apply (Qmult_le_compat_r _ _ (pow10 d)) in He2; [|lra].
    rewrite Qmult_plus_distr_l in He2. unfold Qminus in He1. rewrite Qmult_plus_distr_l in He1. fold y in He1, He2. rewrite Hu in He1, He2.
    setoid_replace (- (1 * (1 # 9) * pow10 (- d)) * pow10 d)%Q with (- (1 # 9) * (pow10 (- d) * pow10 d))%Q in He1 by ring.
    setoid_replace (1 * (1 # 9) * pow10 (- d) * pow10 d)%Q with ((1 # 9) * (pow10 (- d) * pow10 d))%Q in He2 by ring.
    rewrite Hi in He1, He2. lra. }
  clearbody y. pose proof (Qfloor_le y) as F. pose proof (Qlt_floor y) as G. destruct Hy as [Y1 Y2].
  assert (Qfloor y < c + 1). { rewrite Zlt_Qlt, inject_Z_plus. eapply Qle_lt_trans; [exact F|exact Y2]. }
  assert (c - 1 < Qfloor y + 1); [|lia]. rewrite Zlt_Qlt. eapply Qlt_trans; [|exact G]. rewrite inject_Z_minus || idtac. unfold Z.sub. rewrite inject_Z_plus. exact Y1.
Qed.

(** Digits, their number and the exponent that denote the decimal. *)
Definition denotes (r : Z * Z * Z) : Prop :=
  let '(s, k, n') := r in (inject_Z s * pow10 (n' - k) == units c d)%Q /\ 10 ^ (k - 1) <= s < 10 ^ k /\ 1 <= k <= n + d /\ n <= n'.
Lemma norm_denotes k s : 1 <= k <= n + d -> 10 ^ (k - 1) <= s <= 10 ^ k -> (inject_Z s * pow10 (n - k) == units c d)%Q ->
  denotes (if 10 ^ k <=? s then (s / 10, k, n + 1) else (s, k, n)).
Proof.
  intros Hk Hs E. destruct (Z.leb_spec (10 ^ k) s); cbn [denotes]; [|split_and!; try done; lia].
  assert (Hs' : s = 10 ^ (k - 1) * 10) by (rewrite Z.mul_comm, <- Z.pow_succ_r by lia; replace (Z.succ (k - 1)) with k by lia; lia).
  assert (Hdiv : s / 10 = 10 ^ (k - 1)) by (rewrite Hs'; by apply Z.div_mul). rewrite Hdiv. split_and!; [|lia| |lia..].
  - rewrite <- E, Hs', inject_Z_mult, <- Qmult_assoc. change (inject_Z 10) with (pow10 1). rewrite <- pow10_add.
    by replace (1 + (n - k)) with (n + 1 - k) by lia.
  - apply Z.pow_lt_mono_r; lia.
Qed.
Lemma shortest_spec fuel k : 1 <= k <= n + d -> n + d - k < Z.of_nat fuel -> denotes (shortest fuel x n k).
Proof.
  revert k. induction fuel as [|fuel IH]; intros k Hk Hf; [lia|]. cbn [shortest]. fold (floor_at k). pose proof (floor_at_range k ltac:(lia)) as Hr.
  fold (short_ok k (floor_at k)) (short_ok k (floor_at k + 1)). assert (0 < 10 ^ (k - 1)) by (apply Z.pow_pos_nonneg; lia).
  destruct (short_ok k (floor_at k)) eqn:E1; [|destruct (short_ok k (floor_at k + 1)) eqn:E2].
  - apply norm_denotes; [done|lia|]. apply short_ok_spec; [done|lia|done].
  - apply norm_denotes; [done|lia|]. apply short_ok_spec; [done|lia|done].
  - destruct (Z.eq_dec k (n + d)) as [->|Hne]; [exfalso|apply IH; lia].
    assert (Hu : (inject_Z c * pow10 (n - (n + d)) == units c d)%Q) by (replace (n - (n + d)) with (- d) by lia; reflexivity).
    destruct (short_last ltac:(lia)) as [E|E]; rewrite E in *.
    + assert (short_ok (n + d) c = true); [|congruence]. apply short_ok_spec; [lia|lia|exact Hu].
    + assert (short_ok (n + d) c = true); [|congruence]. apply short_ok_spec; [lia|lia|exact Hu].
Qed.
End Shortest.

(** The power of ten above a number. *)
Lemma power_above x a m : (pow10 a <= x)%Q -> (x < pow10 (a + Z.of_nat m))%Q -> exists N, a < N <= a + Z.of_nat m /\ (pow10 (N - 1) <= x)%Q /\ (x < pow10 N)%Q.
Proof.
  intros Hlo. induction m as [|m IH]; intros Hhi.
  - replace (a + Z.of_nat 0) with a in Hhi by lia. lra.
  - destruct (Qlt_le_dec x (pow10 (a + Z.of_nat m))) as [Hlt|Hge].
    + destruct (IH Hlt) as (N & HN & H1 & H2). exists N. split; [lia|done].
    + exists (a + Z.of_nat (S m)). split_and!; [lia|lia| |done]. by replace (a + Z.of_nat (S m) - 1) with (a + Z.of_nat m) by lia.
Qed.
(** What lies below a power of ten. *)
Lemma units_below s k n c d : (inject_Z s * pow10 (n - k) == units c d)%Q -> 0 < c -> s < 10 ^ k -> 0 <= k -> 1 <= n + d.
Proof.
  intros E Hc Hs Hk. assert (H : (pow10 (- d) < pow10 n)%Q).
  { apply Qle_lt_trans with (units c d).
    - setoid_replace (pow10 (- d)) with (units 1 d) by (unfold units; ring). apply units_le. lia.
    - rewrite <- E. apply Qlt_le_trans with (inject_Z (10 ^ k) * pow10 (n - k))%Q.
      + apply Qmult_lt_r; [apply pow10_pos|by rewrite <- Zlt_Qlt].
      + rewrite <- pow10_Z, <- pow10_add by done. replace (k + (n - k)) with n by lia. apply Qle_refl. }
  destruct (Z.le_gt_cases 1 (n + d)); [done|]. pose proof (pow10_le n (- d) ltac:(lia)). lra.
Qed.
(** The digits of a number that is a decimal of few digits. *)
Lemma digits_of_spec x c d : 0 < c <= 10 ^ 15 -> 0 <= d <= 6 -> (x == round_pos (units c d))%Q ->
  exists s k n, digits_of x = (s, k, n) /\ (inject_Z s * pow10 (n - k) == units c d)%Q /\ 10 ^ (k - 1) <= s < 10 ^ k /\ 1 <= k <= n + d.
Proof.
  intros Hc Hd Hx. destruct (units_error 1 c d ltac:(lia) ltac:(lia)) as [He1 He2]. rewrite <- Hx in He1, He2. change (inject_Z 1) with 1%Q in *.
  pose proof (pow10_pos (- d)) as Hp. assert (Hu : (pow10 (- d) <= units c d)%Q).
  { setoid_replace (pow10 (- d)) with (units 1 d) by (unfold units; ring). apply units_le. lia. }
  assert (Hu' : (units c d <= pow10 (15 - d))%Q).
  { setoid_replace (pow10 (15 - d)) with (units (10 ^ 15) d) by (unfold units; rewrite <- pow10_Z, <- pow10_add by lia; reflexivity). apply units_le. lia. }
  assert (Hten : forall m, (pow10 (m + 1) == 10 * pow10 m)%Q) by (intros m; rewrite pow10_add; change (pow10 1) with 10%Q; ring).
  pose proof (pow10_le (- d) (15 - d) ltac:(lia)) as Hp'. pose proof (Hten (- d - 1)) as T1. pose proof (Hten (15 - d)) as T2.
  replace (- d - 1 + 1) with (- d) in T1 by lia. destruct (power_above x (- d - 1) 17) as (N & HN & Hlo & Hhi); [lra| |].
  { replace (- d - 1 + Z.of_nat 17) with (15 - d + 1) by lia. lra. }
  assert (Hn : dec_exp 650 x 1 = N) by (apply dec_exp_spec; [done|done|lia]).
  unfold digits_of. rewrite Hn. destruct (Z.le_gt_cases 1 (N + d)) as [H1|H1].
  - pose proof (shortest_spec x N c d Hc ltac:(lia) Hx Hlo Hhi 16 1 ltac:(lia) ltac:(lia)) as Hs.
    destruct (shortest 16 x N 1) as [[s k] n]. exists s, k, n. destruct Hs as (E & Hs & Hk & Hle). split_and!; try done; lia.
  - assert (c = 1) as ->.
    { assert (~ 2 <= c); [|lia]. intros H2. apply (units_le _ _ d) in H2. pose proof (pow10_le N (- d) ltac:(lia)) as HN'.
      unfold units in H2 at 1. change (inject_Z 2) with 2%Q in H2. lra. }
    assert (Hx' : (x == round_pos (units 10 (d + 1)))%Q) by (rewrite Hx; apply round_pos_proper; symmetry; apply (units_scale 1 d 1); lia).
    pose proof (shortest_spec x N 10 (d + 1) ltac:(lia) ltac:(lia) Hx' Hlo Hhi 16 1 ltac:(lia) ltac:(lia)) as Hs.
    destruct (shortest 16 x N 1) as [[s k] n]. exists s, k, n. destruct Hs as (E & Hs & Hk & Hle).
    rewrite (units_scale 1 d 1) in E by lia. pose proof (units_below s k n 1 d E ltac:(lia) ltac:(lia) ltac:(lia)). split_and!; try done; lia.
Qed.

(** ** Digits *)

Definition digits (l : jstr) : Prop := Forall (fun c => is_digit c = true) l.
Definition dv (l : jstr) : Z := Z.of_N (dec_val l).
Definition zlen (l : jstr) : Z := Z.of_nat (length l).

Lemma dv_snoc l c : dv (l ++ [c]) = dv l * 10 + Z.of_N (digit_val c).
Proof. unfold dv. rewrite dec_val_app. lia. Qed.
Lemma dv_app a b : dv (a ++ b) = dv a * 10 ^ zlen b + dv b.
Proof.
  induction b as [|c b IH] using rev_ind; [rewrite app_nil_r; unfold dv, zlen; cbn; lia|].
  rewrite app_assoc, !dv_snoc, IH. unfold zlen. rewrite length_app, Nat2Z.inj_add, Z.pow_add_r by lia. cbn. lia.
Qed.
Lemma digits_snoc l c : digits (l ++ [c]) <-> digits l /\ is_digit c = true.
Proof. unfold digits. by rewrite Forall_app, Forall_singleton. Qed.
Lemma digit_val_bound c : is_digit c = true -> 0 <= Z.of_N (digit_val c) < 10.
Proof. rewrite is_digit_spec. unfold digit_val. lia. Qed.
Lemma dv_bound l : digits l -> 0 <= dv l < 10 ^ zlen l.
Proof.
  induction l as [|c l IH] using rev_ind; intros H; [done|]. apply digits_snoc in H as [Hl Hc]. rewrite dv_snoc. unfold zlen in *.
  rewrite length_app, Nat2Z.inj_add, Z.pow_add_r by lia. specialize (IH Hl). apply digit_val_bound in Hc. change (10 ^ Z.of_nat (length [c])) with 10. lia.
Qed.
Lemma dv_zeros n : dv (repeat 48%N n) = 0 /\ digits (repeat 48%N n).
Proof.
  split; [|by apply Forall_forall; intros c Hc%list_elem_of_In%repeat_spec; subst].
  induction n as [|n IH]; [done|]. change (dv ([48%N] ++ repeat 48%N n) = 0). by rewrite dv_app, IH.
Qed.
(** Lists of digits of the same length and value are the same. *)
Lemma dv_inj a b : digits a -> digits b -> length a = length b -> dv a = dv b -> a = b.
Proof.
  revert b. induction a as [|c a IH] using rev_ind; intros b Ha Hb Hl Hv.
  - by destruct b.
  - destruct b as [|e b _] using rev_ind; rewrite ?length_app in Hl; [cbn in Hl; lia|]. apply digits_snoc in Ha as [Ha Hc], Hb as [Hb He].
    rewrite !dv_snoc in Hv. cbn in Hl. pose proof (digit_val_bound c Hc). pose proof (digit_val_bound e He).
    assert (E : a = b) by (apply IH; [done|done|lia|lia]). subst b. f_equal. apply is_digit_spec in Hc, He. unfold digit_val in Hv. f_equal. lia.
Qed.

Lemma dv_one c : is_digit c = true -> dv [c] = Z.of_N c - 48.
Proof. intros H. change (dv ([] ++ [c]) = Z.of_N c - 48). rewrite dv_snoc. apply is_digit_spec in H. unfold digit_val. change (dv []) with 0. lia. Qed.

(** No leading zero, zero apart. *)
Definition canonical (l : jstr) : Prop := digits l /\ l <> [] /\ (hd_error l = Some 48%N -> l = [48%N]).
Lemma canonical_0 : canonical [48%N].
Proof. split; [by apply Forall_singleton|done]. Qed.
Lemma canonical_length l : canonical l -> 0 < dv l -> 10 ^ (zlen l - 1) <= dv l.
Proof.
  intros (Hd & Hne & Hh) Hv. destruct l as [|c l]; [done|]. apply Forall_cons in Hd as [Hc Hl]. change (c :: l) with ([c] ++ l) in *. rewrite dv_app in *.
  unfold zlen in *. rewrite length_app, Nat2Z.inj_add. cbn [length]. replace (Z.of_nat 1 + Z.of_nat (length l) - 1) with (Z.of_nat (length l)) by lia.
  pose proof (dv_bound l Hl) as Hb. unfold zlen in Hb.
  assert (c <> 48%N). { intros ->. specialize (Hh eq_refl). injection Hh as ->. by vm_compute in Hv. }
  pose proof (dv_one c Hc) as E. apply is_digit_spec in Hc. nia.
Qed.
Lemma canonical_zero l : canonical l -> dv l = 0 -> l = [48%N].
Proof.
  intros (Hd & Hne & Hh) Hv. destruct l as [|c l]; [done|]. apply Forall_cons in Hd as [Hc Hl]. apply Hh. change (c :: l) with ([c] ++ l) in *. rewrite dv_app in Hv.
  pose proof (dv_bound l Hl). assert (0 < 10 ^ zlen l) by (apply Z.pow_pos_nonneg; unfold zlen; lia).
  pose proof (dv_one c Hc) as E. apply is_digit_spec in Hc. cbn. f_equal. nia.
Qed.
Lemma pow_len_unique (a b v : Z) : 0 <= a -> 0 <= b -> 10 ^ (a - 1) <= v < 10 ^ a -> 10 ^ (b - 1) <= v < 10 ^ b -> 0 < v -> a = b.
Proof.
  intros Ha Hb H1 H2 Hv. assert (~ a < b) by (intros H; pose proof (Z.pow_le_mono_r 10 a (b - 1)); lia).
  assert (~ b < a) by (intros H'; pose proof (Z.pow_le_mono_r 10 b (a - 1)); lia). lia.
Qed.
Lemma canonical_inj a b : canonical a -> canonical b -> dv a = dv b -> a = b.
Proof.
  intros Ha Hb Hv. pose proof (dv_bound a (proj1 Ha)) as Ba. pose proof (dv_bound b (proj1 Hb)) as Bb. destruct (Z.eq_dec (dv a) 0) as [E|E].
  - rewrite (canonical_zero a), (canonical_zero b); congruence.
  - apply dv_inj; [apply Ha|apply Hb| |done]. pose proof (canonical_length a Ha ltac:(lia)). pose proof (canonical_length b Hb ltac:(lia)).
    unfold zlen in *. apply Nat2Z.inj. apply (pow_len_unique _ _ (dv a)); lia.
Qed.
Lemma dec_canonical n : canonical (dec_of_N n) /\ dv (dec_of_N n) = Z.of_N n.
Proof.
  destruct (dec_of_N_spec n) as (Hv & Hd & Hne & Hh). split; [|unfold dv; by rewrite Hv]. split_and!; [done|done|]. intros H. rewrite (Hh H). done.
Qed.
Lemma canonical_dec l : canonical l -> l = dec_of_N (Z.to_N (dv l)).
Proof.
  intros Hl. apply canonical_inj; [done|apply dec_canonical|]. rewrite (proj2 (dec_canonical _)). rewrite Z2N.id; [done|]. apply dv_bound, Hl.
Qed.
Lemma dec_length s k : 0 <= k -> 0 < s -> 10 ^ (k - 1) <= s < 10 ^ k -> zlen (dec_of_N (Z.to_N s)) = k.
Proof.
  intros Hk Hs Hr. destruct (dec_canonical (Z.to_N s)) as [Hc Hv]. rewrite Z2N.id in Hv by lia. pose proof (dv_bound _ (proj1 Hc)).
  pose proof (canonical_length _ Hc ltac:(lia)). apply (pow_len_unique _ _ s); unfold zlen in *; lia.
Qed.

(** ** The text of a decimal *)

(** The whole part, the digits of the fraction without the trailing zeros that are missing. *)
Definition decimal_text (c d : Z) (w g : jstr) : Prop :=
  digits g /\ zlen g <= d /\ dv g * 10 ^ (d - zlen g) = c mod 10 ^ d /\ w = dec_of_Z (c / 10 ^ d).
Definition with_point (w g : jstr) : jstr := w ++ match g with [] => [] | _ => chr "." :: g end.

Lemma dec_of_Z_nonneg z : 0 <= z -> dec_of_Z z = dec_of_N (Z.to_N z).
Proof. intros H. unfold dec_of_Z. by rewrite (proj2 (Z.ltb_ge z 0) H). Qed.
Lemma decimal_text_intro c d w g :
  0 <= d -> canonical w -> digits g -> zlen g <= d -> dv (w ++ g) * 10 ^ (d - zlen g) = c -> decimal_text c d w g.
Proof.
  intros Hd Hw Hg Hl E. rewrite dv_app in E. pose proof (dv_bound g Hg). pose proof (dv_bound w (proj1 Hw)).
  assert (Hp : 10 ^ d = 10 ^ zlen g * 10 ^ (d - zlen g)) by (rewrite <- Z.pow_add_r by (unfold zlen in *; lia); f_equal; lia).
  assert (0 < 10 ^ (d - zlen g)) by (apply Z.pow_pos_nonneg; lia).
  assert (E' : c = dv w * 10 ^ d + dv g * 10 ^ (d - zlen g)) by (rewrite Hp; lia).
  assert (0 <= dv g * 10 ^ (d - zlen g) < 10 ^ d) by (rewrite Hp; nia).
  split_and!; [done|done| |].
  - rewrite E', Z.add_comm, Z.mod_add, Z.mod_small; lia.
  - rewrite E', Z.add_comm, Z.div_add, Z.div_small by lia. rewrite dec_of_Z_nonneg by lia. by apply canonical_dec.
Qed.
(** The value of the text in units. *)
Lemma decimal_text_value c d w g : 0 <= c -> 0 <= d -> decimal_text c d w g -> dv (w ++ g) * 10 ^ (d - zlen g) = c.
Proof.
  intros Hc Hd (Hg & Hl & E & ->). rewrite dv_app. rewrite dec_of_Z_nonneg by (apply Z.div_pos; [done|apply Z.pow_pos_nonneg; lia]).
  rewrite (proj2 (dec_canonical _)), Z2N.id by (apply Z.div_pos; [done|apply Z.pow_pos_nonneg; lia]).
  rewrite Z.mul_add_distr_r, E, <- Z.mul_assoc, <- Z.pow_add_r by (unfold zlen in *; lia). replace (zlen g + (d - zlen g)) with d by lia.
  pose proof (Z.div_mod c (10 ^ d) ltac:(pose proof (Z.pow_pos_nonneg 10 d); lia)). lia.
Qed.

Lemma pos_to_str_decimal x c d : 0 < c <= 10 ^ 15 -> 0 <= d <= 6 -> (x == round_pos (units c d))%Q ->
  exists w g, pos_to_str x = with_point w g /\ decimal_text c d w g.
Proof.
  intros Hc Hd Hx. destruct (digits_of_spec x c d Hc Hd Hx) as (s & k & n & Er & E & Hs & Hk). unfold pos_to_str. rewrite Er.
  assert (Hs0 : 0 < s) by (pose proof (Z.pow_pos_nonneg 10 (k - 1)); lia).
  assert (E' : s * 10 ^ (n + d - k) = c) by (apply (units_inj _ _ d); rewrite <- E; symmetry; apply candidate_units; lia).
  clear E. rename E' into E. rewrite dec_of_Z_nonneg by lia.
  destruct (dec_canonical (Z.to_N s)) as [Hcan Hv]. rewrite Z2N.id in Hv by lia. pose proof (dec_length s k ltac:(lia) Hs0 Hs) as Hlen.
  set (ds := dec_of_N (Z.to_N s)) in *. clearbody ds. pose proof Hcan as (Hdg & Hne & Hhd).
  assert (Hh : hd_error ds <> Some 48%N). { intros H. apply Hhd in H. subst ds. vm_compute in Hv. lia. }
  assert (Hn : n <= 16).
  { destruct (Z.le_gt_cases n 16); [done|]. exfalso. assert (10 ^ 16 <= 10 ^ (k - 1) * 10 ^ (n + d - k)); [|assert (0 < 10 ^ (n + d - k)) by (apply Z.pow_pos_nonneg; lia); nia].
    rewrite <- Z.pow_add_r by lia. apply Z.pow_le_mono_r; lia. }
  destruct (Z.leb_spec k n); cbn [andb]; [|destruct (Z.ltb_spec 0 n); cbn [andb]].
  - rewrite (proj2 (Z.leb_le n 21)) by lia. exists (ds ++ zeros (n - k)), []. split; [unfold with_point; by rewrite app_nil_r|].
    destruct (dv_zeros (Z.to_nat (n - k))) as [Hz Hzd]. apply decimal_text_intro; [lia| |by apply Forall_nil|change (0 <= d); lia|].
    + split_and!; [by apply Forall_app|by destruct ds|]. destruct ds; [done|]. intros H'. by destruct Hh.
    + rewrite app_nil_r, dv_app. unfold zeros. rewrite Hz, Hv, Z.add_0_r. unfold zlen. rewrite repeat_length, Z2Nat.id by lia. cbn [length].
      rewrite <- Z.mul_assoc, <- Z.pow_add_r by lia. rewrite <- E. f_equal. f_equal. lia.
  - rewrite (proj2 (Z.leb_le n 21)) by lia. exists (take (Z.to_nat n) ds), (drop (Z.to_nat n) ds).
    assert (Hl : zlen (drop (Z.to_nat n) ds) = k - n) by (unfold zlen in *; rewrite length_drop; lia).
    split; [unfold with_point; destruct (drop (Z.to_nat n) ds) eqn:Ed; [change (zlen []) with 0 in Hl; lia|done]|].
    apply decimal_text_intro; [lia| |by apply Forall_drop|lia|].
    + destruct ds as [|e ds]; [done|]. destruct (Z.to_nat n) as [|m] eqn:En; [lia|]. cbn [take].
      split_and!; [|done|intros H'; by destruct Hh]. apply Forall_cons in Hdg as [He Hds]. apply Forall_cons. split; [done|by apply Forall_take].
    + rewrite take_drop, Hv, Hl, <- E. f_equal. f_equal. lia.
  - rewrite (proj2 (Z.ltb_lt (-6) n)), (proj2 (Z.leb_le n 0)) by lia. cbn [andb]. exists [48%N], (zeros (- n) ++ ds).
    destruct (dv_zeros (Z.to_nat (- n))) as [Hz Hzd].
    assert (Hl : zlen (zeros (- n) ++ ds) = - n + k) by (unfold zlen, zeros in *; rewrite length_app, repeat_length; lia).
    split; [unfold with_point; destruct (zeros (- n) ++ ds) eqn:Ed; [change (zlen []) with 0 in Hl; lia|done]|].
    apply decimal_text_intro; [lia|apply canonical_0|by apply Forall_app|lia|].
    rewrite !dv_app, Hl. unfold zeros. rewrite Hz, Hv, <- E. change (dv [48%N]) with 0. replace (d - (- n + k)) with (n + d - k) by lia. ring.
Qed.
Lemma round_units_pos c d : 0 < c <= 10 ^ 15 -> 0 <= d <= 6 -> (0 < round_pos (units c d))%Q.
Proof.
  intros Hc Hd. destruct (units_error 1 c d ltac:(lia) ltac:(lia)) as [He _]. pose proof (pow10_pos (- d)) as Hp.
  assert (Hu : (units 1 d <= units c d)%Q) by (apply units_le; lia). unfold units in Hu at 1. change (inject_Z 1) with 1%Q in *. lra.
Qed.
Lemma num_to_str_decimal x c d : 0 <= c <= 10 ^ 15 -> 0 <= d <= 6 -> (x == round_pos (units c d))%Q ->
  exists w g, num_to_str (Fin x) = with_point w g /\ decimal_text c d w g.
Proof.
  intros Hc Hd Hx. unfold num_to_str. destruct (Z.eq_dec c 0) as [->|Hne].
  - assert (Hq : Qnum x = 0). { unfold Qeq in Hx. assert (Qnum (round_pos (units 0 d)) = 0) as E by done. rewrite E in Hx. cbn in Hx. lia. }
    rewrite Hq, Z.eqb_refl. exists (js "0"), []. split; [done|]. apply decimal_text_intro; [lia| |by apply Forall_nil|change (0 <= d); lia|done].
    apply canonical_0.
  - pose proof (round_units_pos c d ltac:(lia) Hd) as Hp. rewrite <- Hx in Hp. unfold Qlt in Hp. cbn in Hp.
    destruct (Z.eqb_spec (Qnum x) 0); [lia|]. destruct (Z.ltb_spec (Qnum x) 0); [lia|]. apply pos_to_str_decimal; [lia|done|done].
Qed.

(** ** Reading a text with an exponent *)

Definition plain (c : N) : bool := is_digit c || (c =? chr ".")%N || (c =? chr "e")%N || (c =? chr "-")%N.
Lemma trim_plain t : Forall (fun c => plain c = true) t -> trim t = t.
Proof.
  intros H. assert (Hs : forall t, Forall (fun c => plain c = true) t -> skip_space t = t).
  { intros u [|c v Hc Hv]; [done|]. cbn [skip_space]. assert (is_js_space c = false) as ->; [|done]. unfold plain in Hc.
    apply orb_true_iff in Hc as [Hc| ->%N.eqb_eq]; [|done]. apply orb_true_iff in Hc as [Hc| ->%N.eqb_eq]; [|done].
    apply orb_true_iff in Hc as [Hc| ->%N.eqb_eq]; [by apply digit_not_space|done]. }
  unfold trim. rewrite (Hs t), (Hs (rev t)); [apply rev_involutive|by apply Forall_rev|done].
Qed.
(** A text that starts with a digit, and not with [0x] and the like, is a decimal. *)
Lemma num_of_digit_first c r : Forall (fun c => plain c = true) (c :: r) -> is_digit c = true ->
  (c = 48%N -> exists x r', r = x :: r' /\ (x = chr "." \/ x = chr "e")) -> num_of_str (c :: r) = decimal false (c :: r).
Proof.
  intros Hp Hc Hx. unfold num_of_str. rewrite trim_plain by done. destruct (N.eq_dec c 48%N) as [->|H48].
  - destruct (Hx eq_refl) as (x & r' & -> & [-> | ->]); done.
  - assert (Hno : forall e, is_digit e = false -> c <> e) by (intros e He ->; congruence).
    assert (Hsig : signed (c :: r) = (false, c :: r)).
    { cbn [signed]. destruct (N.eqb_spec c (chr "-")) as [Ec|]; [by apply Hno in Ec|]. by destruct (N.eqb_spec c (chr "+")) as [Ec|]; [apply Hno in Ec|]. }
    assert (Hinf : jeqb (c :: r) (js "Infinity") = false).
    { apply jeqb_false. change (js "Infinity") with (chr "I" :: js "nfinity"). intros [= Ec _]. by apply Hno in Ec. }
    rewrite Hsig, Hinf. destruct c as [|p]; [done|]. do 6 (destruct p as [p|p|]; try done).
Qed.

Lemma decimal_exponent w g e E : digits w -> w <> [] -> digits g -> exponent (chr "e" :: e) = Some E ->
  exists v, decimal false (with_point w g ++ chr "e" :: e) = to_double v /\ (v == inject_Z (dv (w ++ g)) * pow10 (E - zlen g))%Q.
Proof.
  intros Hw Hne Hg He. unfold decimal, with_point. assert (Hin : forall l, digits l -> forall x, x ∈ l -> is_digit x = true).
  { intros l Hl. by apply Forall_forall. }
  destruct g as [|c g].
  - rewrite app_nil_r. rewrite span_stop; [|by apply Hin|done]. change (chr "e" =? chr ".")%N with false. cbn iota.
    rewrite (bool_decide_eq_false_2 (w = [])) by done. cbn [andb]. rewrite He. eexists. split; [reflexivity|]. rewrite app_nil_r. reflexivity.
  - rewrite <- app_assoc. cbn [app]. rewrite span_stop; [|by apply Hin|done]. rewrite N.eqb_refl. change (c :: g ++ chr "e" :: e) with ((c :: g) ++ chr "e" :: e).
    rewrite span_stop; [|by apply Hin|done]. rewrite (bool_decide_eq_false_2 (w = [])) by done. cbn [andb]. rewrite He. eexists. split; reflexivity.
Qed.
Lemma to_double_units v c d : (v == units c d)%Q -> 0 <= c <= 10 ^ 15 -> 0 <= d <= 6 ->
  exists r, to_double v = Fin r /\ (r == round_pos (units c d))%Q.
Proof.
  intros Hv Hc Hd. assert (Hnn : (0 <= units c d)%Q).
  { setoid_replace 0%Q with (units 0 d) by (unfold units; change (inject_Z 0) with 0%Q; ring). apply units_le. lia. }
  assert (Hb : (round_pos v < inject_Z (2 ^ 1024))%Q).
  { rewrite Hv. destruct (Z.eq_dec c 0) as [->|Hne]; [by vm_compute|]. destruct (units_error 1 c d ltac:(lia) ltac:(lia)) as [_ He].
    assert (Hu : (units c d <= units (10 ^ 15) d)%Q) by (apply units_le; lia). unfold units in Hu at 2. rewrite <- pow10_Z, <- pow10_add in Hu by lia.
    pose proof (pow10_le (15 + - d) 15 ltac:(lia)). pose proof (pow10_le (- d) 0 ltac:(lia)). change (inject_Z 1) with 1%Q in He. change (pow10 0) with 1%Q in *.
    apply Qle_lt_trans with (pow10 15 + 1)%Q; [lra|by vm_compute]. }
  unfold to_double. assert (Hn : (Qnum v <? 0) = false). { apply Z.ltb_ge. rewrite <- Hv in Hnn. unfold Qle in Hnn. cbn in Hnn. lia. }
  rewrite Hn. destruct (Qle_bool _ _) eqn:E; [apply Qle_bool_iff in E; lra|]. eexists. split; [done|]. by rewrite Hv.
Qed.

(** [shift10] on a decimal. *)
Lemma shift10_decimal x c d e E : 0 <= c <= 10 ^ 15 -> 0 <= d <= 6 -> (x == round_pos (units c d))%Q ->
  Forall (fun c => plain c = true) e -> exponent (chr "e" :: e) = Some E -> 0 <= d - E <= 6 ->
  exists r, shift10 (Fin x) e = Fin r /\ (r == round_pos (units c (d - E)))%Q.
Proof.
  intros Hc Hd Hx Hpe He HdE. destruct (num_to_str_decimal x c d Hc Hd Hx) as (w & g & Et & Hw). unfold shift10. rewrite Et.
  pose proof (decimal_text_value c d w g ltac:(lia) ltac:(lia) Hw) as Hval. destruct Hw as (Hg & Hl & _ & Ew).
  assert (Hcan : canonical w). { rewrite Ew, dec_of_Z_nonneg by (apply Z.div_pos; [lia|apply Z.pow_pos_nonneg; lia]). apply dec_canonical. }
  destruct Hcan as (Hwd & Hwn & Hwh). destruct (decimal_exponent w g e E Hwd Hwn Hg He) as (v & Ev & Hv).
  assert (En : num_of_str (with_point w g ++ chr "e" :: e) = decimal false (with_point w g ++ chr "e" :: e)).
  { assert (Hpd : forall l, digits l -> Forall (fun c => plain c = true) l) by (intros l Hl'; eapply Forall_impl; [exact Hl'|]; intros c' Hc'; unfold plain; by rewrite Hc').
    unfold with_point. destruct w as [|c0 w]; [done|]. cbn [app]. apply Forall_cons in Hwd as [Hc0 Hwd]. apply num_of_digit_first; [|done|].
    - apply Forall_cons. split; [unfold plain; by rewrite Hc0|]. rewrite <- app_assoc. apply Forall_app. split; [by apply Hpd|]. apply Forall_app. split.
      + destruct g; [done|]. apply Forall_cons. split; [done|by apply Hpd].
      + apply Forall_cons. by split.
    - intros ->. specialize (Hwh eq_refl). injection Hwh as ->. destruct g as [|c1 g]; eexists _, _; (split; [reflexivity|]); [by right|by left]. }
  rewrite En, Ev. apply to_double_units; [|done|done]. rewrite Hv, <- Hval. unfold units. rewrite inject_Z_mult, <- pow10_Z, <- Qmult_assoc, <- pow10_add by lia.
  by replace (d - zlen g + - (d - E)) with (E - zlen g) by lia.
Qed.

(** ** Rounding half up *)

Definition half_up (c j : Z) : Z := (2 * c + 10 ^ j) / (2 * 10 ^ j).

Lemma Qfloor_unique y m : (inject_Z m <= y)%Q -> (y < inject_Z m + 1)%Q -> Qfloor y = m.
Proof.
  intros H1 H2. pose proof (Qfloor_le y) as F. pose proof (Qlt_floor y) as G.
  assert (Qfloor y < m + 1) by (rewrite Zlt_Qlt, inject_Z_plus; eapply Qle_lt_trans; [exact F|exact H2]).
  assert (m < Qfloor y + 1) by (rewrite Zlt_Qlt; eapply Qle_lt_trans; [exact H1|exact G]). lia.
Qed.
(** The number of units as a multiple of the larger unit. *)
Lemma units_whole m j : 0 <= j -> (units (m * 10 ^ j) j == inject_Z m)%Q.
Proof. intros Hj. rewrite (units_scale m 0 j) by done. unfold units. change (pow10 (- 0)) with 1%Q. ring. Qed.

Lemma round_half_up y c j : 0 <= c <= 10 ^ 15 -> 0 <= j <= 6 -> (y == round_pos (units c j))%Q ->
  num_round (Fin y) = Fin (inject_Z (half_up c j)).
Proof.
  intros Hc Hj Hy. cbn [num_round]. do 2 f_equal. set (m := half_up c j). assert (Hp : 0 < 10 ^ j) by (apply Z.pow_pos_nonneg; lia).
  assert (Hm : 2 * m * 10 ^ j <= 2 * c + 10 ^ j < 2 * (m + 1) * 10 ^ j).
  { unfold m, half_up. pose proof (Z.div_mod (2 * c + 10 ^ j) (2 * 10 ^ j) ltac:(lia)). pose proof (Z.mod_pos_bound (2 * c + 10 ^ j) (2 * 10 ^ j) ltac:(lia)). lia. }
  clearbody m. destruct (Z.eq_dec c 0) as [->|Hc0].
  { assert (m = 0) as -> by nia. assert (E : (round_pos (units 0 j) == 0)%Q) by done. rewrite E in Hy. by rewrite Hy. }
  assert (Hm0 : 0 <= m) by nia.
  destruct (Z.eq_dec j 0) as [->|Hj0].
  { replace (10 ^ 0) with 1 in * by done. assert (m = c) as -> by lia. assert (E : (units c 0 == c # 1)%Q) by (unfold units; change (pow10 (- 0)) with 1%Q; unfold Qeq; cbn; lia).
    rewrite E, round_pos_int in Hy by lia. apply Qfloor_unique; rewrite Hy; lra. }
  (* distances in units: [5 * 10 ^ (j - 1)] is one half *)
  set (h := 5 * 10 ^ (j - 1)). assert (Hh : 10 ^ j = 2 * h) by (unfold h; replace j with (Z.succ (j - 1)) at 1 by lia; rewrite Z.pow_succ_r by lia; lia).
  assert (Hhalf : (units h j == 1 # 2)%Q).
  { apply Qmult_inj_r with (z := 2%Q); [done|]. setoid_replace (units h j * 2)%Q with (units (1 * 10 ^ j) j) by (rewrite Hh; unfold units; rewrite Z.mul_1_l, inject_Z_mult; change (inject_Z 2) with 2%Q; ring).
    rewrite units_whole by lia. reflexivity. }
  assert (Hsub : forall a b, (units (a - b) j == units a j - units b j)%Q).
  { intros a b. unfold units. unfold Z.sub. rewrite inject_Z_plus, inject_Z_opp. ring. }
  assert (Hadd : forall a b, (units (a + b) j == units a j + units b j)%Q) by (intros a b; unfold units; rewrite inject_Z_plus; ring).
  destruct (units_error 1 c j ltac:(lia) ltac:(lia)) as [He1 He2]. rewrite <- Hy in He1, He2. change (inject_Z 1) with 1%Q in *.
  assert (Hone : (units 1 j == pow10 (- j))%Q) by (unfold units; ring). pose proof (pow10_pos (- j)) as Hpp.
  pose proof (units_whole m j ltac:(lia)) as Hw.
  apply Qfloor_unique.
  - destruct (Z.eq_dec c (m * 10 ^ j - h)) as [E|Hne].
    + assert (Hm1 : 0 < m) by nia. assert (Ey : (units c j == (2 * m - 1) # 2)%Q).
      { rewrite E, Hsub, Hw, Hhalf. unfold Qeq. cbn. lia. }
      rewrite Ey, round_pos_half in Hy by nia. rewrite Hy. unfold Qle. cbn. lia.
    + assert (Hle : (units (m * 10 ^ j - h + 1) j <= units c j)%Q) by (apply units_le; lia). rewrite Hadd, Hsub, Hw, Hhalf, Hone in Hle. lra.
  - assert (Hle : (units c j <= units (m * 10 ^ j + h - 1) j)%Q) by (apply units_le; lia). rewrite Hsub, Hadd, Hw, Hhalf, Hone in Hle. lra.
Qed.

(** ** Groups of three *)

(** A whole part, and the same with separators. *)
Inductive grouped (sep : jstr) : jstr -> jstr -> Prop :=
| grouped_short l : (length l <= 3)%nat -> l <> [] -> grouped sep l l
| grouped_more a a' g : length g = 3%nat -> grouped sep a a' -> grouped sep (a ++ g) (a' ++ sep ++ g).

Lemma grouped_nonempty sep a a' : grouped sep a a' -> a <> [].
Proof. induction 1 as [|a a' g Hg H IH]; [done|]. by destruct a. Qed.
Lemma grouped_forall (P : N -> Prop) sep a a' : grouped sep a a' -> Forall P a -> Forall P sep -> Forall P a'.
Proof.
  induction 1 as [|a a' g Hg H IH]; [done|]. intros [Ha Hg']%Forall_app Hs. apply Forall_app. split; [by apply IH|]. apply Forall_app. by split.
Qed.
Lemma group_from_app size last sep i a b : group_from size last sep i (a ++ b) = group_from size last sep i a ++ group_from size last sep (i + length a) b.
Proof.
  revert i. induction a as [|c a IH]; intros i; cbn [group_from app length]; [by rewrite Nat.add_0_r|]. rewrite IH, <- app_assoc.
  by replace (S i + length a)%nat with (i + S (length a))%nat by lia.
Qed.
Lemma group_from_shift last sep i a : (i + length a <= last)%nat -> group_from 3 (last + 3) sep i a = group_from 3 last sep i a.
Proof.
  revert i. induction a as [|c a IH]; intros i Hi; cbn [group_from length] in *; [done|]. rewrite IH by lia.
  assert (E : divides 3 (last + 3 - i) = divides 3 (last - i)); [|by rewrite E]. unfold divides. replace (last + 3 - i)%nat with (last - i + 1 * 3)%nat by lia.
  by rewrite Nat.Div0.mod_add.
Qed.
Lemma group_last sep i g : length g = 3%nat -> i <> 0%nat -> group_from 3 (i + 3) sep i g = sep ++ g.
Proof.
  intros Hg Hi. destruct g as [|x [|y [|z [|]]]]; try done. cbn [group_from]. replace (i + 3 - i)%nat with 3%nat by lia.
  replace (i + 3 - S i)%nat with 2%nat by lia. replace (i + 3 - S (S i))%nat with 1%nat by lia. destruct (Nat.eqb_spec i 0); [done|]. done.
Qed.
Lemma group_from_grouped sep l : l <> [] -> grouped sep l (group_from 3 (length l) sep 0 l).
Proof.
  remember (length l) as n eqn:En. revert l En. induction (lt_wf n) as [n _ IH]. intros l -> Hne. destruct (Nat.le_gt_cases (length l) 3) as [Hs|Hl].
  - assert (E : group_from 3 (length l) sep 0 l = l) by (destruct l as [|x [|y [|z [|]]]]; cbn in Hs; [done..|lia]). rewrite E. by apply grouped_short.
  - set (k := (length l - 3)%nat). rewrite <- (take_drop k l) at 1 3. assert (Ht : length (take k l) = k) by (rewrite length_take; lia).
    assert (Hd : length (drop k l) = 3%nat) by (rewrite length_drop; lia). rewrite group_from_app, Ht. replace (length l) with (k + 3)%nat by lia.
    rewrite group_from_shift by lia. rewrite Nat.add_0_l, group_last by (done || lia). apply grouped_more; [done|].
    apply (IH k); [lia|done|]. intros E. rewrite E in Ht. cbn in Ht. lia.
Qed.
Lemma group_whole_grouped p sep l : gSize p = 3%nat -> lgSize p = 3%nat -> l <> [] -> grouped sep l (group_whole p sep l).
Proof.
  intros Hg Hlg Hne. unfold group_whole. rewrite Hg, Hlg. assert (E : group_from 3 (length l) sep 0 l = group_from 3 (if Nat.leb (3 + 3) (length l) then length l - 3 else 0) sep 0
    (take (if Nat.leb (3 + 3) (length l) then length l - 3 else 0) l) ++ group_from 3 (length l) sep (if Nat.leb (3 + 3) (length l) then length l - 3 else 0)
    (drop (if Nat.leb (3 + 3) (length l) then length l - 3 else 0) l)); [|rewrite <- E; by apply group_from_grouped].
  destruct (Nat.leb_spec (3 + 3) (length l)); [|done]. set (k := (length l - 3)%nat). assert (Ht : length (take k l) = k) by (rewrite length_take; lia).
  rewrite <- (take_drop k l) at 2. rewrite group_from_app, Ht, Nat.add_0_l. f_equal. replace (length l) with (k + 3)%nat by lia. apply group_from_shift. lia.
Qed.

(** ** [formatNumber] *)

(** The texts of a size from 0 to 6, and of its opposite. *)
Lemma size_texts f : 0 <= f <= 6 ->
  let pos := jtext (jint f) in let neg := num_to_str (num_opp (jnumber (jint f))) in
  Forall (fun c => plain c = true) pos /\ exponent (chr "e" :: pos) = Some f /\ Forall (fun c => plain c = true) neg /\ exponent (chr "e" :: neg) = Some (- f).
Proof.
  intros Hf. assert (H : f = 0 \/ f = 1 \/ f = 2 \/ f = 3 \/ f = 4 \/ f = 5 \/ f = 6) by lia.
  destruct H as [-> | [-> | [-> | [-> | [-> | [-> | ->]]]]]];
    split_and!; try reflexivity; repeat (apply Forall_cons; split; [reflexivity|]); apply Forall_nil; exact I.
Qed.
Lemma half_up_bound c j : 0 <= c <= 10 ^ 15 -> 0 <= j <= 6 -> 0 <= half_up c j <= 10 ^ 15.
Proof.
  intros Hc Hj. assert (Hp : 0 < 10 ^ j) by (apply Z.pow_pos_nonneg; lia). unfold half_up. split; [apply Z.div_pos; lia|].
  apply Z.lt_succ_r, Z.div_lt_upper_bound; nia.
Qed.
(** [split('.')] of the text. *)
Lemma split_with_point w g : digits w -> digits g -> split_number (with_point w g) = (w, g).
Proof.
  intros Hw Hg. assert (Hno : forall l, digits l -> chr "." ∉ l) by (intros l Hl Hin; by apply (proj1 (Forall_forall _ _) Hl) in Hin).
  unfold split_number, with_point. destruct g as [|c g]; [by rewrite app_nil_r, split_no_sep by by apply Hno|].
  rewrite split_app_sep, split_no_sep by by apply Hno. done.
Qed.

(** The digits of the fraction, filled up. *)
Definition fraction_of (v f : Z) (F : jstr) : Prop := digits F /\ zlen F = f /\ dv F = v.
Lemma pad_fraction_of c f w g : 0 <= f -> decimal_text c f w g ->
  exists F, pad_fraction g (Fin (inject_Z f)) = Ok F /\ fraction_of (c mod 10 ^ f) f F.
Proof.
  intros Hf (Hg & Hl & Hv & _). cbn [pad_fraction]. rewrite Qceiling_Z. eexists. split; [reflexivity|].
  destruct (dv_zeros (Z.to_nat f - length g)) as [Hz Hzd]. unfold fraction_of, zlen in *. split_and!.
  - by apply Forall_app.
  - rewrite length_app, repeat_length. lia.
  - rewrite dv_app. change (chr "0") with 48%N. rewrite Hz, Z.add_0_r, <- Hv. unfold zlen. rewrite repeat_length. f_equal. f_equal. lia.
Qed.

Definition point_part (dot F : jstr) (f : Z) : jstr := if f =? 0 then [] else dot ++ F.
Lemma format_plain_decimal x numStr p sep dot c d f :
  gSize p = 3%nat -> lgSize p = 3%nat -> 0 <= c <= 10 ^ 15 -> 0 <= f <= d -> d <= 6 -> (x == round_pos (units c d))%Q ->
  let m := half_up c (d - f) in
  exists whole F, format_plain (Fin x) numStr p sep dot (jint f) = Ok (whole ++ point_part dot F f) /\
    grouped sep (dec_of_Z (m / 10 ^ f)) whole /\ fraction_of (m mod 10 ^ f) f F.
Proof.
  intros Hg Hlg Hc Hf Hd Hx m. destruct (size_texts f ltac:(lia)) as (Hp1 & He1 & Hp2 & He2).
  destruct (shift10_decimal x c d _ f Hc ltac:(lia) Hx Hp1 He1 ltac:(lia)) as (r1 & E1 & Hr1).
  pose proof (half_up_bound c (d - f) Hc ltac:(lia)) as Hm. pose proof (round_half_up r1 c (d - f) Hc ltac:(lia) Hr1) as Er. fold m in Hm, Er.
  assert (Hint : (inject_Z m == round_pos (units m 0))%Q).
  { assert (Eu : (units m 0 == m # 1)%Q) by (unfold units; change (pow10 (- 0)) with 1%Q; unfold Qeq; cbn; lia). rewrite Eu, round_pos_int by lia. reflexivity. }
  destruct (shift10_decimal (inject_Z m) m 0 _ (- f) Hm ltac:(lia) Hint Hp2 He2 ltac:(lia)) as (r2 & E2 & Hr2). replace (0 - - f) with f in Hr2 by lia.
  destruct (num_to_str_decimal r2 m f Hm ltac:(lia) Hr2) as (w & g & Et & Hw).
  assert (Hq : 0 <= m / 10 ^ f) by (apply Z.div_pos; [lia|apply Z.pow_pos_nonneg; lia]).
  assert (Hcw : canonical w). { destruct Hw as (_ & _ & _ & ->). rewrite dec_of_Z_nonneg by done. apply dec_canonical. }
  destruct (pad_fraction_of m f w g ltac:(lia) Hw) as (F & EF & HF). exists (group_whole p sep w), F. split_and!; [| |done].
  - unfold format_plain. change (match jint f with JUndef => _ | _ => jint f end) with (jint f). rewrite E1, Er, E2, Et, split_with_point; [|apply Hcw|apply Hw].
    change (jnumber (jint f)) with (Fin (inject_Z f)). rewrite EF. cbn [rbind]. do 2 f_equal. unfold point_part. cbn [jtruthy jint jis_str inject_Z Qnum negb].
    rewrite andb_true_r. change (Qnum (inject_Z f)) with f. destruct (Z.eqb_spec f 0) as [->|Hne]; [done|]. cbn [negb]. f_equal. apply take_ge. cbn [to_length]. rewrite Qfloor_Z.
    destruct HF as (_ & HlF & _). unfold zlen in HlF. lia.
  - destruct Hw as (_ & _ & _ & <-). apply group_whole_grouped; [done|done|apply Hcw].
Qed.

(** A number written with [d] decimals: [c] units of [10 ^ -d], as the nearest double. *)
Definition decimal_number (c d : Z) : num := to_double (inject_Z c / inject_Z (10 ^ d))%Q.
Lemma decimal_number_spec c d : Z.abs c <= 10 ^ 15 -> 0 <= d <= 6 ->
  exists q r, decimal_number c d = Fin q /\ num_abs (Fin q) = Fin r /\ (r == round_pos (units (Z.abs c) d))%Q /\ num_lt (Fin q) (Fin 0) = (c <? 0).
Proof.
  intros Hc Hd. unfold decimal_number. set (v := (inject_Z c / inject_Z (10 ^ d))%Q).
  assert (Hp : 0 < 10 ^ d) by (apply Z.pow_pos_nonneg; lia). pose proof (inject_pos _ Hp) as Hp'.
  assert (Hv : (v == units c d)%Q).
  { unfold v, units. apply (Qmult_inj_r _ _ (pow10 d)); [pose proof (pow10_pos d); lra|]. rewrite <- Qmult_assoc, (Qmult_comm (pow10 (- d))), pow10_inv.
    rewrite pow10_Z by lia. field. lra. }
  clearbody v.
  assert (Hpos : forall q : Q, (0 <= q)%Q -> num_abs (Fin q) = Fin q /\ num_lt (Fin q) (Fin 0) = false).
  { intros q Hq. assert (Hn : 0 <= Qnum q) by (unfold Qle in Hq; cbn in Hq; lia). cbn [num_abs num_lt]. rewrite (proj2 (Z.ltb_ge _ _) Hn). split; [done|].
    apply negb_false_iff. by apply Qle_bool_iff. }
  destruct (Z.ltb_spec c 0) as [Hneg|Hnn].
  - assert (Hopp : (- v == units (Z.abs c) d)%Q) by (rewrite Hv, Z.abs_neq by lia; unfold units; rewrite inject_Z_opp; ring).
    destruct (to_double_units (- v) (Z.abs c) d Hopp ltac:(lia) Hd) as (r & Er & Hr).
    pose proof (round_units_pos (Z.abs c) d ltac:(lia) Hd) as Hrp. rewrite <- Hr in Hrp.
    assert (Hvn : Qnum v <? 0 = true).
    { apply Z.ltb_lt. assert (v < 0)%Q as Hlt. { pose proof (units_pos (Z.abs c) d ltac:(lia)) as Hu. rewrite <- Hopp in Hu. lra. } unfold Qlt in Hlt. cbn in Hlt. lia. }
    assert (Hvo : Qnum (- v) <? 0 = false) by (apply Z.ltb_ge; apply Z.ltb_lt in Hvn; cbn; lia).
    assert (E : to_double v = Fin (- r)).
    { unfold to_double in Er |- *. rewrite Hvo in Er. rewrite Hvn. destruct (Qle_bool _ _); [done|]. by injection Er as <-. }
    exists (- r)%Q, (- - r)%Q. assert (Hrn : Qnum (- r) <? 0 = true) by (apply Z.ltb_lt; unfold Qlt in Hrp; cbn in *; lia).
    split_and!; [done|cbn [num_abs]; by rewrite Hrn|by rewrite Qopp_opp|]. cbn [num_lt]. apply negb_true_iff, not_true_iff_false. rewrite Qle_bool_iff. lra.
  - rewrite Z.abs_eq by done. destruct (to_double_units v c d Hv ltac:(lia) Hd) as (r & Er & Hr). exists r, r.
    assert (Hr0 : (0 <= r)%Q). { destruct (Z.eq_dec c 0) as [->|]; [by rewrite Hr|]. pose proof (round_units_pos c d ltac:(lia) Hd) as Hrp. rewrite <- Hr in Hrp. lra. }
    destruct (Hpos r Hr0). by split_and!.
Qed.

Lemma formatNumber_decimal p sep dot c d f :
  gSize p = 3%nat -> lgSize p = 3%nat -> Z.abs c <= 10 ^ 15 -> 0 <= f <= d -> d <= 6 ->
  let m := half_up (Z.abs c) (d - f) in
  exists whole F, formatNumber (JNum (decimal_number c d)) p sep dot (jint f) =
      Ok ((if c <? 0 then negPre p else posPre p) ++ (whole ++ point_part dot F f) ++ (if c <? 0 then negSuf p else posSuf p)) /\
    grouped sep (dec_of_Z (m / 10 ^ f)) whole /\ fraction_of (m mod 10 ^ f) f F.
Proof.
  intros Hg Hlg Hc Hf Hd m. destruct (decimal_number_spec c d Hc ltac:(lia)) as (q & r & Eq & Ea & Hr & El).
  destruct (num_to_str_decimal r (Z.abs c) d ltac:(lia) ltac:(lia) Hr) as (w & g & Et & Hw).
  destruct (format_plain_decimal r (num_to_str (Fin r)) p sep dot (Z.abs c) d f Hg Hlg ltac:(lia) Hf Hd Hr) as (whole & F & Ef & Hgr & HF).
  exists whole, F. split_and!; [|done|done]. unfold formatNumber. cbn [jnumber]. rewrite Eq. cbn [is_finite negb]. rewrite El, Ea.
  assert (Hno : existsb (N.eqb (chr "e")) (num_to_str (Fin r)) = false).
  { rewrite Et. apply not_true_iff_false. rewrite existsb_exists. intros (x & Hx & Hxe). apply N.eqb_eq in Hxe. subst x. apply list_elem_of_In in Hx.
    assert (Hwd : digits w). { destruct Hw as (_ & _ & _ & ->). rewrite dec_of_Z_nonneg by (apply Z.div_pos; [lia|apply Z.pow_pos_nonneg; lia]). apply dec_canonical. }
    destruct Hw as (Hgd & _). unfold with_point in Hx. apply elem_of_app in Hx as [Hx|Hx]; [by apply (proj1 (Forall_forall _ _) Hwd) in Hx|].
    destruct g as [|a g]; [by apply elem_of_nil in Hx|]. apply elem_of_cons in Hx as [Hx|Hx]; [done|]. by apply (proj1 (Forall_forall _ _) Hgd) in Hx. }
  rewrite Hno, Ef. reflexivity.
Qed.

(** ** Currency *)

Lemma replace_unit_none c sym before s : Forall (fun x => x <> c) s -> replace_unit c sym before s = s.
Proof.
  intros H. revert before. induction H as [|x s Hx H IH]; intros before; cbn [replace_unit]; [done|]. rewrite (proj2 (N.eqb_neq x c) Hx), IH. done.
Qed.
Lemma replace_unit_app c sym before a b : Forall (fun x => x <> c) a -> replace_unit c sym before (a ++ b) = a ++ replace_unit c sym (before ++ a) b.
Proof.
  intros H. revert before. induction H as [|x a Hx H IH]; intros before; cbn [replace_unit app]; [by rewrite app_nil_r|].
  rewrite (proj2 (N.eqb_neq x c) Hx), IH, <- app_assoc. done.
Qed.
Lemma digits_no_sign l : digits l -> Forall (fun x => x <> currency_sign) l.
Proof. intros H. eapply Forall_impl; [exact H|]. by intros x Hx ->. Qed.

(** C28. Decimals are rounded as decimals.  Let a number be written with [d] decimals, up to 6, and up to fifteen digits: [c] units of
    [10 ^ -d], held as the nearest double.  [formatNumber] with a size of [f] decimals shows the integer [m] nearest to [c / 10 ^ (d - f)], halves
    away from zero, although the double may lie on the other side of the half: the whole part of [m / 10 ^ f] in groups of three, exactly [f]
    digits of fraction, and the prefix and the suffix of the sign.  So does the filter currency, with the symbol for its sign and two decimals.
    The bound on the digits is needed: the text of a large product has an exponent, and [10 ^ 19] is shown as ["$NaN.00"]. *)
Theorem decimals_shown p sep dot c d f :
  gSize p = 3%nat -> lgSize p = 3%nat -> Z.abs c <= 10 ^ 15 -> 0 <= f <= d -> d <= 6 ->
  (let m := half_up (Z.abs c) (d - f) in
   exists whole F, grouped sep (dec_of_Z (m / 10 ^ f)) whole /\ fraction_of (m mod 10 ^ f) f F /\
     formatNumber (JNum (decimal_number c d)) p sep dot (jint f) =
       Ok ((if c <? 0 then negPre p else posPre p) ++ (whole ++ if f =? 0 then [] else dot ++ F) ++ (if c <? 0 then negSuf p else posSuf p))) /\
  (2 <= d -> let m := half_up (Z.abs c) (d - 2) in
   exists whole F, grouped (js ",") (dec_of_Z (m / 100)) whole /\ fraction_of (m mod 100) 2 F /\
     currencyFilter en_us_numbers (JNum (decimal_number c d)) None =
       Ok (if c <? 0 then js "($" ++ whole ++ js "." ++ F ++ js ")" else js "$" ++ whole ++ js "." ++ F)) /\
  currencyFilter en_us_numbers (JNum (decimal_number (10 ^ 19) 0)) None = Ok (js "$NaN.00").
Proof.
  intros Hg Hlg Hc Hf Hd. split_and!; [| |by vm_compute].
  - destruct (formatNumber_decimal p sep dot c d f Hg Hlg Hc Hf Hd) as (whole & F & E & H1 & H2). exists whole, F. split_and!; [done|done|exact E].
  - intros Hd2 m. destruct (formatNumber_decimal (currency_pattern en_us_numbers) (js ",") (js ".") c d 2 eq_refl eq_refl Hc ltac:(lia) Hd) as (whole & F & E & H1 & H2).
    exists whole, F. split_and!; [done|done|]. unfold currencyFilter. cbn [GROUP_SEP DECIMAL_SEP en_us_numbers]. rewrite E. cbn [rbind default]. f_equal.
    assert (Hs : Forall (fun x => x <> currency_sign) (whole ++ js "." ++ F)).
    { apply Forall_app. split; [|apply Forall_app; split; [by repeat constructor|apply digits_no_sign, H2]].
      eapply grouped_forall; [exact H1| |by repeat constructor]. apply digits_no_sign. rewrite dec_of_Z_nonneg; [apply dec_canonical|].
      apply Z.div_pos; [apply half_up_bound; lia|lia]. }
    unfold point_part. change (2 =? 0) with false. cbn iota. destruct (c <? 0).
    + change (negPre (currency_pattern en_us_numbers)) with ([chr "("] ++ [currency_sign]). rewrite <- app_assoc, replace_unit_app by by repeat constructor.
      cbn [app replace_unit]. rewrite N.eqb_refl. rewrite replace_unit_app by done. rewrite replace_unit_none by by repeat constructor. rewrite <- !app_assoc. reflexivity.
    + change (posPre (currency_pattern en_us_numbers)) with [currency_sign]. change (posSuf (currency_pattern en_us_numbers)) with (@nil N). rewrite app_nil_r.
      cbn [app replace_unit]. rewrite N.eqb_refl. rewrite replace_unit_none by done. reflexivity.
Qed.

(** [-1000.005], whose double is nearer to [-1000], with two decimals. *)
Lemma decimals_shown_witness :
  exists whole F, grouped (js ",") (js "1000") whole /\ fraction_of 1 2 F /\
    formatNumber (JNum (decimal_number (-1000005) 3)) (decimal_pattern en_us_numbers) (js ",") (js ".") (jint 2) = Ok (js "-" ++ (whole ++ js "." ++ F) ++ []).
Proof.
  destruct (decimals_shown (decimal_pattern en_us_numbers) (js ",") (js ".") (-1000005) 3 2 eq_refl eq_refl ltac:(vm_compute; discriminate) ltac:(lia) ltac:(lia))
    as ((whole & F & H1 & H2 & H3) & _).
  exists whole, F. split; [exact H1|]. split; [exact H2|exact H3].
Defined.
