(* ===== verification/Sanitize.v ===== *)
(** * The sanitizer of HTML (angular-sanitize.js)

    The text that an element shows for a markup without elements, by which entities are decoded, and the service
    [$$sanitizeUri] are parameters.  Names of tags and attributes are read by [[\w:-]+], so that their lower case is
    that of ASCII. *)

From S2P Require Import Prelude JsString JsObject JsNumber UriCodec Json Regex.
#[local] Open Scope nat_scope.
Local Open Scope result_scope.

(** ** The regular expressions *)

Definition is_name (c : N) : bool := is_word c || among (js ":-") c.
Definition rname : regexp := rplus (RChar is_name).
Definition quoted (q : N) : regexp := RSeq (rlit q) (RSeq (rstar (RChar (fun c => negb (c =? q)%N))) (rlit q)).
Definition dquote : N := 34%N.
Definition squote : N := 39%N.
Definition unquoted : regexp := rplus (RChar (fun c => negb (c =? chr ">")%N && negb (is_space c))).
Definition rsign (c : N) : regexp := RSeq spaces (RSeq (rlit c) spaces).

Definition START_TAG_REGEXP : regexp :=
  rseq [rlit (chr "<"); spaces; RGroup 1 rname;
        RGroup 2 (rstar (rseq [rplus (RChar is_space); rname;
          ropt (RSeq (rsign (chr "=")) (ralt [quoted dquote; quoted squote; unquoted]))]));
        spaces; RGroup 3 (ropt (rlit (chr "/"))); spaces; rlit (chr ">")].
Definition END_TAG_REGEXP : regexp :=
  rseq [rlit (chr "<"); spaces; rlit (chr "/"); spaces; RGroup 1 rname; rstar (RChar (none_of (js ">"))); rlit (chr ">")].
Definition group_quoted (i : nat) (q : N) : regexp :=
  RSeq (rlit q) (RSeq (RGroup i (rstar (RChar (fun c => negb (c =? q)%N)))) (rlit q)).
Definition ATTR_REGEXP : regexp :=
  RSeq (RGroup 1 rname)
    (ropt (RSeq (rsign (chr "=")) (ralt [group_quoted 2 dquote; group_quoted 3 squote; RGroup 4 unquoted]))).
Definition BEGIN_TAG_REGEXP : regexp := rlit (chr "<").
Definition BEGING_END_TAGE_REGEXP : regexp := rseq [rlit (chr "<"); spaces; rlit (chr "/")].
Definition lazy_dots : regexp := RGroup 1 (RStar false (RChar is_dot)).
Definition COMMENT_REGEXP : regexp := rseq [rtext (js "<!--"); lazy_dots; rtext (js "-->")].
Definition DOCTYPE_REGEXP : regexp :=
  rseq [rtext_i (js "<!DOCTYPE"); RGroup 1 (RStar false (RChar (none_of (js ">")))); rlit (chr ">")].
Definition CDATA_REGEXP : regexp := rseq [rtext (js "<![CDATA["); lazy_dots; rtext (js "]]>")].
(** The text of a line up to the last end tag of this name in it, whatever the case. *)
Definition closing_regexp (name : jstr) : regexp :=
  rseq [RGroup 1 (rstar (RChar is_dot)); rlit (chr "<"); spaces; rlit (chr "/"); spaces; rtext_i name;
        rstar (RChar (none_of (js ">"))); rlit (chr ">")].
Definition spaceRe : regexp :=
  rseq [RGroup 1 spaces; RGroup 2 (RStar false (RChar (fun _ => true))); RGroup 3 spaces; REnd].

(** ** Elements and attributes *)

Definition makeMap (s : lit) : list jstr := split (chr ",") (js s).
Arguments makeMap s%_string_scope.
(** [map[k]] as a condition: the names of [Object.prototype] are truthy too. *)
Definition in_map (m : list jstr) (k : jstr) : bool := bool_decide (k ∈ m) || in_object_proto k.
(** [map[k] === true]. *)
Definition is_key (m : list jstr) (k : jstr) : bool := bool_decide (k ∈ m).

Definition voidElements : list jstr := makeMap "area,br,col,hr,img,wbr".
Definition optionalEndTagBlockElements : list jstr := makeMap "colgroup,dd,dt,li,p,tbody,td,tfoot,th,thead,tr".
Definition optionalEndTagInlineElements : list jstr := makeMap "rp,rt".
Definition optionalEndTagElements : list jstr := optionalEndTagInlineElements ++ optionalEndTagBlockElements.
Definition blockElements : list jstr := optionalEndTagBlockElements ++ makeMap "address,article,aside,blockquote,caption,center,del,dir,div,dl,figure,figcaption,footer,h1,h2,h3,h4,h5,h6,header,hgroup,hr,ins,map,menu,nav,ol,pre,script,section,table,ul".
Definition inlineElements : list jstr := optionalEndTagInlineElements ++ makeMap "a,abbr,acronym,b,bdi,bdo,big,br,cite,code,del,dfn,em,font,i,img,ins,kbd,label,map,mark,q,ruby,rp,rt,s,samp,small,span,strike,strong,sub,sup,time,tt,u,var".
Definition specialElements : list jstr := makeMap "script,style".
Definition validElements : list jstr := voidElements ++ blockElements ++ inlineElements ++ optionalEndTagElements.
Definition uriAttrs : list jstr := makeMap "background,cite,href,longdesc,src,usemap".
Definition validAttrs : list jstr := uriAttrs ++ makeMap "abbr,align,alt,axis,bgcolor,border,cellpadding,cellspacing,class,clear,color,cols,colspan,compact,coords,dir,face,headers,height,hreflang,hspace,ismap,lang,language,nohref,nowrap,rel,rev,rows,rowspan,rules,scope,scrolling,shape,size,span,start,summary,target,title,type,valign,value,vspace,width".

(** ** Entities *)

(** [s.replace(/c/g, t)]. *)
Definition replace_char (c : N) (t : jstr) (s : jstr) : jstr := flat_map (fun x => if (x =? c)%N then t else [x]) s.
Definition reference (n : N) : jstr := js "&#" ++ dec_of_N n ++ js ";".
Fixpoint encode_surrogates (s : jstr) : jstr :=
  match s with
  | hi :: ((low :: s) as rest) =>
      if ((55296 <=? hi) && (hi <=? 56319) && (56320 <=? low) && (low <=? 57343))%N
      then reference ((hi - 55296) * 1024 + (low - 56320) + 65536) ++ encode_surrogates s
      else hi :: encode_surrogates rest
  | _ => s
  end.
(** What [NON_ALPHANUMERIC_REGEXP] leaves. *)
Definition alphanumeric (c : N) : bool := ((35 <=? c) && (c <=? 126) || (c =? 124) || (c =? 32) || (c =? 33))%N.
Definition encode_others (s : jstr) : jstr := flat_map (fun c => if alphanumeric c then [c] else reference c) s.
Definition encodeEntities (value : jstr) : jstr :=
  replace_char (chr ">") (js "&gt;") (replace_char (chr "<") (js "&lt;")
    (encode_others (encode_surrogates (replace_char (chr "&") (js "&amp;") value)))).

(** ** [htmlSanitizeWriter] *)

(** What has been pushed on [buf], and [ignore]: [None] is [false]. *)
Record writer : Type := Writer { w_out : jstr; w_ignore : option jstr }.
Definition empty_writer : writer := Writer [] None.
Definition push (s : jstr) (w : writer) : writer := Writer (w_out w ++ s) (w_ignore w).
Definition ignoring (w : writer) : bool := match w_ignore w with Some _ => true | None => false end.

Section Writer.
Context (uriValidator : jstr -> bool -> bool).

Definition write_attr (tag key value : jstr) : jstr :=
  let lkey := lowercase key in
  let isImage := jeqb tag (js "img") && jeqb lkey (js "src") || jeqb lkey (js "background") in
  if is_key validAttrs lkey && (negb (is_key uriAttrs lkey) || uriValidator value isImage)
  then js " " ++ key ++ chr "=" :: dquote :: encodeEntities value ++ [dquote] else [].

(** [angular.forEach(attrs, ...)] calls the attributes named [forEach] and [hasOwnProperty]. *)
Definition forEach_fails (attrs : jsobj jstr) : bool :=
  match ob_get attrs (js "forEach") with Some v => truthy v | None => false end || ob_has attrs (js "hasOwnProperty").
Definition write_attrs (tag : jstr) (attrs : jsobj jstr) : jstr :=
  flat_map (fun key => write_attr tag key (default [] (ob_get attrs key))) (enum_names attrs).

Definition writer_start (tag : jstr) (attrs : jsobj jstr) (unary : bool) (w : writer) : result js_error writer :=
  let tag := lowercase tag in
  let w := if negb (ignoring w) && in_map specialElements tag then Writer (w_out w) (Some tag) else w in
  if negb (ignoring w) && is_key validElements tag then
    if forEach_fails attrs then Throw JsTypeError
    else Ok (push (js "<" ++ tag ++ write_attrs tag attrs ++ (if unary then js "/>" else js ">")) w)
  else Ok w.
Definition writer_end (tag : jstr) (w : writer) : writer :=
  let tag := lowercase tag in
  let w := if negb (ignoring w) && is_key validElements tag then push (js "</" ++ tag ++ js ">") w else w in
  match w_ignore w with
  | Some t => if jeqb tag t then Writer (w_out w) None else w
  | None => w
  end.
Definition writer_chars (chars : jstr) (w : writer) : writer := if ignoring w then w else push (encodeEntities chars) w.

(** ** [htmlParser] *)

(** [textContent] of an element with this [innerHTML], without elements. *)
Context (textContent : jstr -> jstr).

Definition decodeEntities (value : jstr) : jstr :=
  match value with
  | [] => []
  | _ =>
      match match_at spaceRe value with
      | Some (_, _, parts) =>
          group 1 parts ++ match group 2 parts with [] => [] | content => textContent (replace_char (chr "<") (js "&lt;") content) end ++ group 3 parts
      | None => []
      end
  end.

(** The open elements, the last first, and the handler. *)
Record parser : Type := Parser { p_stack : list jstr; p_writer : writer }.

(** The elements down to the last one of this name, and the others. *)
Fixpoint close_to (tagName : jstr) (stack : list jstr) : option (list jstr * list jstr) :=
  match stack with
  | [] => None
  | t :: stack =>
      if jeqb t tagName then Some ([t], stack)
      else match close_to tagName stack with Some (closed, stack) => Some (t :: closed, stack) | None => None end
  end.
Definition end_all (closed : list jstr) (w : writer) : writer := fold_left (fun w t => writer_end t w) closed w.
(** [None] is [undefined]. *)
Definition parseEndTag (tagName : option jstr) (p : parser) : parser :=
  match tagName with
  | Some (c :: name) =>
      match close_to (lowercase (c :: name)) (p_stack p) with
      | Some (closed, stack) => Parser stack (end_all closed (p_writer p))
      | None => p
      end
  | _ => Parser [] (end_all (p_stack p) (p_writer p))
  end.
(** [while (stack.last() && inlineElements[stack.last()]) parseEndTag("", stack.last())]. *)
Fixpoint close_inline (fuel : nat) (p : parser) : parser :=
  match fuel, p_stack p with
  | S fuel, t :: _ => if truthy t && in_map inlineElements t then close_inline fuel (parseEndTag (Some t) p) else p
  | _, _ => p
  end.

Definition set_attr (attrs : jsobj jstr) (name value : jstr) : jsobj jstr :=
  if jeqb name (js "__proto__") then attrs else ob_set attrs name value.
(** [a || b || c]: the group that has read something. *)
Definition attr_value (m : captures) : jstr :=
  match group 2 m with [] => match group 3 m with [] => group 4 m | v => v end | v => v end.
Definition parse_attrs (rest : jstr) : jsobj jstr :=
  fold_left (fun attrs m => set_attr attrs (group 1 m) (decodeEntities (attr_value m))) (all_matches (length rest) ATTR_REGEXP rest) [].

Definition parseStartTag (tagName rest : jstr) (unary : bool) (p : parser) : result js_error parser :=
  let tagName := lowercase tagName in
  let p := if in_map blockElements tagName then close_inline (length (p_stack p)) p else p in
  let p := if in_map optionalEndTagElements tagName && match p_stack p with t :: _ => jeqb t tagName | [] => false end
           then parseEndTag (Some tagName) p else p in
  let unary := in_map voidElements tagName || unary in
  let stack := if unary then p_stack p else tagName :: p_stack p in
  let* w := writer_start tagName (parse_attrs rest) unary (p_writer p) in
  Ok (Parser stack w).

Definition chars_of (text : jstr) (p : parser) : parser := Parser (p_stack p) (writer_chars (decodeEntities text) (p_writer p)).

(** The text before the next [<]. *)
Definition parse_chars (html : jstr) (p : parser) : jstr * parser :=
  match indexOf html (js "<") with
  | None => ([], chars_of html p)
  | Some index => (drop index html, chars_of (take index html) p)
  end.
(** Replacing the first occurrence of a text. *)
Definition remove_text (s t : jstr) : jstr := match indexOf s t with Some i => take i s ++ drop (i + length t) s | None => s end.

(** A turn of the loop outside [script] and [style]. *)
Definition parse_markup (html : jstr) (p : parser) : result js_error (jstr * parser) :=
  if starts_with (js "<!--") html then
    match indexOf_at html (js "--") 4 with
    | Some index => if starts_with (js "-->") (drop index html) then Ok (drop (index + 3) html, p) else Ok (parse_chars html p)
    | None => Ok (parse_chars html p)
    end
  else match find_match DOCTYPE_REGEXP html with
  | Some (_, m, _, _) => Ok (remove_text html m, p)
  | None =>
      if test_at BEGING_END_TAGE_REGEXP html then
        match match_at END_TAG_REGEXP html with
        | Some (m, _, _) =>
            let html := drop (length m) html in
            Ok (html, match match_at END_TAG_REGEXP m with Some (_, _, c) => parseEndTag (Some (group 1 c)) p | None => p end)
        | None => Ok (parse_chars html p)
        end
      else if test_at BEGIN_TAG_REGEXP html then
        match match_at START_TAG_REGEXP html with
        | Some (m, _, _) =>
            let html := drop (length m) html in
            match match_at START_TAG_REGEXP m with
            | Some (_, _, c) => let* p := parseStartTag (group 1 c) (group 2 c) (truthy (group 3 c)) p in Ok (html, p)
            | None => Ok (html, p)
            end
        | None => Ok (parse_chars html p)
        end
      else Ok (parse_chars html p)
  end.

(** The text of a special element. *)
Definition strip_sections (text : jstr) : jstr :=
  let keep (_ : jstr) (c : captures) := group 1 c in
  let text := replace_all (length text) COMMENT_REGEXP keep text in
  replace_all (length text) CDATA_REGEXP keep text.
Definition parse_special (name html : jstr) (p : parser) : jstr * parser :=
  match find_match (closing_regexp name) html with
  | Some (before, m, rest, c) => (before ++ rest, parseEndTag (Some name) (chars_of (strip_sections (group 1 c)) p))
  | None => (html, parseEndTag (Some name) p)
  end.

Definition parse_turn (html : jstr) (p : parser) : result js_error (jstr * parser) :=
  match p_stack p with
  | t :: _ => if truthy t && in_map specialElements t then Ok (parse_special t html p) else parse_markup html p
  | [] => parse_markup html p
  end.

(** [None]: more turns are needed. *)
Fixpoint parse_loop (fuel : nat) (html : jstr) (p : parser) : option (result js_error parser) :=
  match html, fuel with
  | [], _ => Some (Ok (parseEndTag None p))
  | _, 0 => None
  | _, S fuel =>
      match parse_turn html p with
      | Throw e => Some (Throw e)
      | Ok (html', p) =>
          if jeqb html' html then Some (Throw (JsMinErr (js "$sanitize:badparse"))) else parse_loop fuel html' p
      end
  end.
Definition htmlParser (html : jstr) : option (result js_error parser) := parse_loop (length html) html (Parser [] empty_writer).
End Writer.

(** ** The services *)

Section Services.
Context (textContent : jstr -> jstr) (sanitizeUri : jstr -> bool -> jstr).

Definition uri_validator (uri : jstr) (isImage : bool) : bool := negb (starts_with (js "unsafe") (sanitizeUri uri isImage)).
Definition sanitize (html : jstr) : option (result js_error jstr) :=
  option_map (fun r => let* p := r in Ok (w_out (p_writer p))) (htmlParser uri_validator textContent html).
(** A value that is not a text: the loop runs while it is truthy, and an array is searched by its items. *)
Definition sanitize_array (l : list json) : result js_error jstr :=
  let text := jtext (JArr l) in
  let comment := match l with v :: _ => jis_str v (js "<!--") | [] => false end in
  if negb comment && (test DOCTYPE_REGEXP text || test_at BEGIN_TAG_REGEXP text) then Throw JsTypeError
  else if existsb (fun v => jis_str v (js "<")) l then Throw JsTypeError
  else match text with
       | [] => Throw (JsMinErr (js "$sanitize:badparse"))
       | _ => Ok (encodeEntities (decodeEntities textContent text))
       end.
Definition sanitize_value (v : json) : option (result js_error jstr) :=
  match v with
  | JStr s => sanitize s
  | JArr l => Some (sanitize_array l)
  | _ => Some (if jtruthy v then Throw JsTypeError else Ok [])
  end.
Definition sanitizeText (chars : jstr) : jstr := w_out (writer_chars chars empty_writer).

(** ** The filter [linky] *)

Definition LINKY_URL_REGEXP : regexp :=
  rseq [RGroup 1 (RAlt
          (RSeq (RGroup 2 (RAlt (rtext (js "ftp")) (RSeq (rtext (js "http")) (ropt (rlit (chr "s")))))) (rtext (js "://")))
          (rseq [ropt (RGroup 3 (rtext (js "mailto:"))); rplus (RChar (fun c => is_letter c || is_digit c || among (js "._%+-") c)); rlit (chr "@")]));
        rstar (RChar (fun c => negb (is_space c)));
        RChar (fun c => negb (is_space c) && none_of (js ".;,(){}<>") c)].
Definition addText (text : jstr) : jstr := match text with [] => [] | _ => sanitizeText text end.
Definition addLink (target : option jstr) (url text : jstr) : jstr :=
  js "<a " ++ match target with Some t => js "target=" ++ dquote :: t ++ dquote :: js " " | None => [] end ++
  js "href=" ++ dquote :: url ++ dquote :: js ">" ++ addText text ++ js "</a>".
Definition strip_mailto (s : jstr) : jstr := if starts_with (js "mailto:") s then drop (length (js "mailto:")) s else s.
Fixpoint linky_html (fuel : nat) (target : option jstr) (raw : jstr) : jstr :=
  match fuel, find_match LINKY_URL_REGEXP raw with
  | S fuel, Some (before, m, rest, c) =>
      let url := if jeqb (group 2 c) (group 3 c) then js "mailto:" ++ m else m in
      addText before ++ addLink target url (strip_mailto m) ++ linky_html fuel target rest
  | _, _ => addText raw
  end.
Definition linky (text : jstr) (target : option jstr) : option (result js_error jstr) :=
  match text with [] => Some (Ok []) | _ => sanitize (linky_html (length text) target text) end.
End Services.

Definition plain_text (s : jstr) : jstr := s.
Definition run_sanitize (s : lit) : option (result js_error jstr) := sanitize plain_text (fun uri _ => uri) (js s).
Arguments run_sanitize s%_string_scope.
Example sanitized :
  run_sanitize "<p>an <em onclick='x'>click</em> & <b>more" = Some (Ok (js "<p>an <em>click</em> &amp; <b>more</b></p>")) /\
  run_sanitize "a<script>b</script>c<br>d" = Some (Ok (js "ac<br/>d")) /\
  run_sanitize "a < b" = Some (Throw (JsMinErr (js "$sanitize:badparse"))) /\
  run_sanitize "a<constructor>b<i>c</i>" = Some (Ok (js "a")) /\
  run_sanitize "<li>a<li>b" = Some (Ok (js "<li>a</li><li>b</li>")) /\
  run_sanitize "<a HREF=x forEach=y>z</a>" = Some (Throw JsTypeError) /\
  run_sanitize "a<!-- b --><!doctype c>d" = Some (Ok (js "ad")).
Proof. vm_compute. tauto. Qed.
Example linked :
  linky plain_text (fun uri _ => uri) (js "see http://a.b/c, or d@e.f.") None =
    Some (Ok (js "see <a href=" ++ dquote :: js "http://a.b/c" ++ dquote :: js ">http://a.b/c</a>, or <a href=" ++ dquote :: js "mailto:d@e.f" ++ dquote :: js ">d@e.f</a>.")).
Proof. vm_compute. reflexivity. Qed.
Example section_leaks :
  run_sanitize "a<script>b</script>c<script>d</script>e" = Some (Ok (js "ae")) /\
  sanitize plain_text (fun uri _ => uri) (js "<script>a" ++ [10%N] ++ js "b" ++ [10%N] ++ js "</script>c") = Some (Ok (js "a" ++ reference 10 ++ js "b" ++ reference 10 ++ js "c")).
Proof. vm_compute. tauto. Qed.
