(* ===== verification/SanitizeFacts.v ===== *)
(** * What the sanitizer lets through *)

From S2P Require Import Prelude JsString JsObject JsNumber UriCodec Json Regex Sanitize.
#[local] Open Scope nat_scope.

(** ** Safe markup *)

(** A printable ASCII character that begins neither a tag nor ends a value. *)
Definition safe_char (c : N) : Prop := (32 <= c <= 126 /\ c <> 34 /\ c <> 60 /\ c <> 62)%N.

#[global] Instance safe_char_dec c : Decision (safe_char c).
Proof. unfold safe_char. apply _. Defined.
Ltac by_decision := refine (bool_decide_unpack _ _); vm_compute; exact I.

Section Safe.
Context (uriValidator : jstr -> bool -> bool).

Definition is_image (tag key : jstr) : bool := jeqb tag (js "img") && jeqb key (js "src") || jeqb key (js "background").
(** An attribute of the list, its value encoded and, for a URI, accepted. *)
Inductive safe_attr (tag : jstr) : jstr -> Prop :=
| safe_attr_intro key value e : lowercase key ∈ validAttrs -> e = encodeEntities value -> Forall safe_char e ->
    (lowercase key ∈ uriAttrs -> uriValidator value (is_image tag (lowercase key)) = true) ->
    safe_attr tag (js " " ++ key ++ chr "=" :: dquote :: e ++ [dquote]).
Definition safe_tag (tag : jstr) : Prop := tag ∈ validElements /\ tag ∉ specialElements.

(** Texts and tags of the lists, one after the other. *)
Inductive safe_html : jstr -> Prop :=
| safe_nil : safe_html []
| safe_text c s : safe_char c -> safe_html s -> safe_html (c :: s)
| safe_open tag attrs (slash : bool) s : safe_tag tag -> Forall (safe_attr tag) attrs -> safe_html s ->
    safe_html (js "<" ++ tag ++ concat attrs ++ (if slash then js "/>" else js ">") ++ s)
| safe_close tag s : safe_tag tag -> safe_html s -> safe_html (js "</" ++ tag ++ js ">" ++ s).

Lemma safe_app a b : safe_html a -> safe_html b -> safe_html (a ++ b).
Proof.
  intros Ha Hb. induction Ha; [done|cbn; by constructor| |].
  - rewrite <- !app_assoc. by constructor.
  - rewrite <- !app_assoc. by constructor.
Qed.
Lemma safe_chars s : Forall safe_char s -> safe_html s.
Proof. induction 1; by constructor. Qed.

(** ** Entities *)

Lemma replace_char_forall (P Q : N -> Prop) c t s :
  Forall P s -> Forall Q t -> (forall x, P x -> x <> c -> Q x) -> Forall Q (replace_char c t s).
Proof.
  intros Hs Ht HPQ. unfold replace_char. induction Hs as [|x s Hx Hs IH]; [done|]. cbn [flat_map]. apply Forall_app. split; [|done].
  destruct (N.eqb_spec x c); [done|]. constructor; [by apply HPQ|done].
Qed.
Lemma reference_alphanumeric n : Forall (fun c => alphanumeric c = true) (reference n).
Proof.
  unfold reference. rewrite !Forall_app. split_and!; [by repeat constructor| |by repeat constructor].
  destruct (dec_of_N_spec n) as (_ & H & _). eapply Forall_impl; [exact H|]. intros c Hc%is_digit_spec. unfold alphanumeric.
  apply orb_true_iff. left. apply orb_true_iff. left. apply orb_true_iff. left. apply andb_true_iff. rewrite !N.leb_le. lia.
Qed.
Lemma encode_safe v : Forall safe_char (encodeEntities v).
Proof.
  unfold encodeEntities. set (u := encode_surrogates _). clearbody u.
  assert (H : Forall (fun c => alphanumeric c = true) (encode_others u)).
  { induction u as [|c u IH]; [done|]. unfold encode_others. cbn [flat_map]. apply Forall_app. split; [|exact IH].
    destruct (alphanumeric c) eqn:E; [by repeat constructor|apply reference_alphanumeric]. }
  apply (replace_char_forall (fun c => safe_char c \/ c = 62%N)); [|by_decision|by intros x [?|?]].
  apply (replace_char_forall (fun c => alphanumeric c = true)); [done|by_decision|].
  intros x Hx Hne. unfold alphanumeric, safe_char in *. change (chr "<") with 60%N in Hne. destruct (N.eq_dec x 62%N) as [->|Hn]; [by right|left].
  repeat (apply orb_true_iff in Hx as [Hx|Hx]); rewrite ?andb_true_iff, ?N.leb_le, ?N.eqb_eq in Hx; lia.
Qed.

(** ** The writer *)

Definition writer_ok (w : writer) : Prop := safe_html (w_out w).

Lemma is_key_spec m k : is_key m k = true <-> k ∈ m.
Proof. apply bool_decide_eq_true. Qed.
Lemma is_key_false m k : is_key m k = false <-> k ∉ m.
Proof. rewrite <- is_key_spec. by destruct (is_key m k). Qed.

#[local] Opaque validAttrs uriAttrs validElements specialElements encodeEntities is_key.
Lemma write_attr_safe tag key value : write_attr uriValidator tag key value = [] \/ safe_attr tag (write_attr uriValidator tag key value).
Proof.
  unfold write_attr. cbv zeta. fold (is_image tag (lowercase key)). destruct (is_key validAttrs (lowercase key)) eqn:E1; cbn [andb]; [|by left].
  apply is_key_spec in E1. destruct (negb (is_key uriAttrs (lowercase key)) || uriValidator value (is_image tag (lowercase key))) eqn:E2; [right|by left].
  refine (safe_attr_intro tag key value _ E1 eq_refl (encode_safe value) _). intros Hu%is_key_spec. by rewrite Hu in E2.
Qed.
Lemma write_attrs_safe tag attrs : exists l, write_attrs uriValidator tag attrs = concat l /\ Forall (safe_attr tag) l.
Proof.
  unfold write_attrs. induction (enum_names attrs) as [|k ks IH]; [by exists []|]. destruct IH as (l & E & Hl). cbn [flat_map]. rewrite E.
  destruct (write_attr_safe tag k (default [] (ob_get attrs k))) as [H|H]; [rewrite H; by exists l|]. eexists (_ :: l). split; [reflexivity|by constructor].
Qed.
Lemma special_in_map t : t ∈ specialElements -> in_map specialElements t = true.
Proof. intros H. unfold in_map. by rewrite bool_decide_eq_true_2. Qed.
Lemma push_ok s w : writer_ok w -> safe_html s -> writer_ok (push s w).
Proof. intros. by apply safe_app. Qed.

Lemma writer_start_ok tag attrs unary w w' : writer_ok w -> writer_start uriValidator tag attrs unary w = Ok w' ->
  writer_ok w' /\ (in_map specialElements (lowercase tag) = true -> ignoring w' = true) /\ (ignoring w = true -> ignoring w' = true).
Proof.
  intros W. unfold writer_start. set (t := lowercase tag). destruct (ignoring w) eqn:Ei; cbn [negb andb]; [rewrite Ei; intros [= <-]; done|].
  destruct (in_map specialElements t) eqn:Es; cbn [ignoring w_ignore negb andb]; [intros [= <-]; by split_and!|]. rewrite Ei. cbn [negb andb].
  destruct (is_key validElements t) eqn:Ev; [|intros [= <-]; by split_and!]. destruct (forEach_fails attrs); [done|]. intros [= <-].
  split_and!; [|done|done]. apply push_ok; [done|]. destruct (write_attrs_safe t attrs) as (l & -> & Hl).
  rewrite <- (app_nil_r (if unary then _ else _)). apply safe_open; [|done|constructor]. split; [by apply is_key_spec|].
  intros Hin%special_in_map. congruence.
Qed.
Lemma writer_end_ok tag w : writer_ok w -> (lowercase tag ∈ specialElements -> ignoring w = true) -> writer_ok (writer_end tag w).
Proof.
  intros W Hs. unfold writer_end. set (t := lowercase tag) in *. destruct (ignoring w) eqn:Ei; cbn [negb andb].
  - unfold ignoring in Ei. destruct (w_ignore w); [|done]. by destruct (jeqb t _).
  - assert (H : writer_ok (if is_key validElements t then push (js "</" ++ t ++ js ">") w else w)).
    { destruct (is_key validElements t) eqn:Ev; [|done]. apply push_ok; [done|]. apply is_key_spec in Ev.
      rewrite <- (app_nil_r (js "</" ++ _)), <- !app_assoc. apply safe_close; [|constructor]. split; [done|]. intros Hin. by specialize (Hs Hin). }
    revert H. generalize (if is_key validElements t then push (js "</" ++ t ++ js ">") w else w). intros w' H.
    destruct (w_ignore w') as [x|]; [destruct (jeqb t x)|]; exact H.
Qed.
Lemma writer_chars_ok s w : writer_ok w -> writer_ok (writer_chars s w) /\ ignoring (writer_chars s w) = ignoring w.
Proof. intros W. unfold writer_chars. destruct (ignoring w) eqn:E; [done|]. split; [|done]. apply push_ok; [done|]. apply safe_chars, encode_safe. Qed.

(** ** The parser *)

Lemma lowercase_idem s : lowercase (lowercase s) = lowercase s.
Proof.
  unfold lowercase. rewrite map_map. apply map_ext. intros c. unfold ascii_lower.
  destruct ((65 <=? c)%N && (c <=? 90)%N) eqn:E; [|by rewrite E]. apply andb_true_iff in E as [E1%N.leb_le E2%N.leb_le].
  destruct ((65 <=? c + 32)%N && (c + 32 <=? 90)%N) eqn:E'; [|done]. apply andb_true_iff in E' as [_ E'%N.leb_le]. lia.
Qed.

(** A special element is the last open one, and the output is ignored in it. *)
Definition ordinary (t : jstr) : Prop := t ∉ specialElements.
Definition parser_ok (p : parser) : Prop :=
  writer_ok (p_writer p) /\ Forall (fun t => lowercase t = t) (p_stack p) /\
  match p_stack p with
  | [] => True
  | t :: stack => (t ∈ specialElements -> ignoring (p_writer p) = true) /\ Forall ordinary stack
  end.
(** Outside special elements. *)
Definition markup_ok (p : parser) : Prop :=
  writer_ok (p_writer p) /\ Forall (fun t => lowercase t = t) (p_stack p) /\ Forall ordinary (p_stack p).
Lemma markup_parser_ok p : markup_ok p -> parser_ok p.
Proof. intros (W & L & O). split_and!; [done|done|]. destruct (p_stack p) as [|t st]; [done|]. apply Forall_cons in O as [Ot O]. by split. Qed.

Lemma end_all_ok closed w : writer_ok w -> Forall (fun t => lowercase t = t) closed -> 
  match closed with [] => True | t :: closed => (t ∈ specialElements -> ignoring w = true) /\ Forall ordinary closed end -> writer_ok (end_all closed w).
Proof.
  unfold end_all. revert w. induction closed as [|t closed IH]; intros w W L H; [done|]. cbn [fold_left]. apply Forall_cons in L as [Lt L]. destruct H as [Ht O].
  apply IH; [apply writer_end_ok; [done|by rewrite Lt]|done|]. destruct closed as [|t' closed]; [done|]. apply Forall_cons in O as [Ot O]. by split.
Qed.
Lemma close_to_app name stack closed rest : close_to name stack = Some (closed, rest) -> stack = closed ++ rest /\ closed <> [].
Proof.
  revert closed. induction stack as [|t stack IH]; intros closed; cbn [close_to]; [done|]. destruct (jeqb t name); [by intros [= <- <-]|].
  destruct (close_to name stack) as [[c r]|]; [|done]. intros [= <- <-]. destruct (IH c eq_refl) as [-> _]. done.
Qed.
(** Elements are closed, or the name is not open. *)
Lemma parseEndTag_ok name p : parser_ok p -> parser_ok (parseEndTag name p) /\
  (markup_ok p -> markup_ok (parseEndTag name p)) /\ ((exists t st, p_stack p = t :: st /\ name = Some t) -> markup_ok (parseEndTag name p)).
Proof.
  intros (W & L & H).
  assert (Hc : forall closed rest, p_stack p = closed ++ rest -> closed <> [] -> markup_ok (Parser rest (end_all closed (p_writer p)))).
  { intros closed rest E Hne. rewrite E in L, H. apply Forall_app in L as [L1 L2]. destruct closed as [|t closed]; [done|]. cbn [app] in H.
    destruct H as [Ht [O1 O2]%Forall_app]. split_and!; [apply end_all_ok; [done|done|by split]|done|done]. }
  assert (Hall : markup_ok (Parser [] (end_all (p_stack p) (p_writer p)))).
  { destruct (p_stack p) as [|t st] eqn:E; [|apply Hc; [by rewrite app_nil_r|done]]. split_and!; [done|done|done]. }
  destruct name as [[|c name]|]; cbn [parseEndTag]; [split_and!; [by apply markup_parser_ok|done|done]| |split_and!; [by apply markup_parser_ok|done|done]].
  destruct (close_to (lowercase (c :: name)) (p_stack p)) as [[closed rest]|] eqn:E.
  - apply close_to_app in E as [E Hne]. pose proof (Hc closed rest E Hne) as M. split_and!; [by apply markup_parser_ok|done|done].
  - split_and!; [done|done|]. intros (t & st & E1 & [= <-]). exfalso. rewrite E1 in E, L. apply Forall_cons in L as [Lt _]. rewrite Lt in E. cbn [close_to] in E.
    by rewrite jeqb_refl in E.
Qed.

Section Parser.
Context (textContent : jstr -> jstr).

Lemma end_tag_markup name p : markup_ok p -> markup_ok (parseEndTag name p).
Proof. intros M. by apply (proj1 (proj2 (parseEndTag_ok name p (markup_parser_ok p M)))). Qed.
Lemma close_inline_markup fuel p : markup_ok p -> markup_ok (close_inline fuel p).
Proof.
  revert p. induction fuel as [|fuel IH]; intros p M; cbn [close_inline]; [done|]. destruct (p_stack p) as [|t st] eqn:E; [done|].
  destruct (truthy t && in_map inlineElements t); [|done]. by apply IH, end_tag_markup.
Qed.
Lemma chars_ok text p : parser_ok p -> parser_ok (chars_of textContent text p).
Proof.
  intros (W & L & H). destruct (writer_chars_ok (decodeEntities textContent text) (p_writer p) W) as [W' E]. unfold parser_ok, chars_of. cbn [p_stack p_writer].
  split_and!; [exact W'|exact L|]. destruct (p_stack p); [done|]. by rewrite E.
Qed.
Lemma chars_markup text p : markup_ok p -> markup_ok (chars_of textContent text p).
Proof. intros (W & L & H). split_and!; [by apply writer_chars_ok|exact L|exact H]. Qed.
Lemma parse_chars_markup html p : markup_ok p -> markup_ok (parse_chars textContent html p).2.
Proof. intros M. unfold parse_chars. destruct (indexOf html (js "<")); by apply chars_markup. Qed.

Lemma start_tag_ok name rest unary p p' : markup_ok p -> parseStartTag uriValidator textContent name rest unary p = Ok p' -> parser_ok p'.
Proof.
  intros M. unfold parseStartTag. set (t := lowercase name). cbv zeta.
  set (p1 := if in_map blockElements t then close_inline (length (p_stack p)) p else p).
  assert (M1 : markup_ok p1) by (unfold p1; destruct (in_map blockElements t); [by apply close_inline_markup|done]). clearbody p1.
  set (p2 := if _ && _ then parseEndTag (Some t) p1 else p1).
  assert (M2 : markup_ok p2) by (unfold p2; destruct (_ && _); [by apply end_tag_markup|done]). clearbody p2.
  set (u := in_map voidElements t || unary). clearbody u. destruct (writer_start _ _ _ _ _) as [w|] eqn:E; [|done]. intros [= <-].
  destruct M2 as (W & L & O). destruct (writer_start_ok _ _ _ _ _ W E) as (W' & Hs & _). assert (Hl : lowercase t = t) by apply lowercase_idem. rewrite Hl in Hs.
  destruct u; [apply markup_parser_ok; by split_and!|]. split_and!; [done|by constructor|]. split; [|done]. intros Hin. by apply Hs, special_in_map.
Qed.
Lemma ok_pair {A B} (a c : A) (b d : B) : Ok (E := js_error) (a, b) = Ok (c, d) -> a = c /\ b = d.
Proof. by intros [= -> ->]. Qed.
Lemma parse_markup_ok html p html' p' : markup_ok p -> parse_markup uriValidator textContent html p = Ok (html', p') -> parser_ok p'.
Proof.
  intros M. assert (Hc : Ok (E := js_error) (parse_chars textContent html p) = Ok (html', p') -> parser_ok p').
  { intros [= E]. pose proof (parse_chars_markup html p M) as H. rewrite E in H. by apply markup_parser_ok. }
  pose proof (markup_parser_ok p M) as PM. unfold parse_markup. destruct (starts_with _ html).
  - destruct (indexOf_at _ _ _) as [i|]; [|done]. destruct (starts_with _ _); [by intros [_ <-]%ok_pair|done].
  - destruct (find_match DOCTYPE_REGEXP html) as [[[[b m] r] c]|]; [by intros [_ <-]%ok_pair|]. destruct (test_at _ _).
    + destruct (match_at END_TAG_REGEXP html) as [[[m r] c]|]; [|done]. intros [_ <-]%ok_pair. destruct (match_at END_TAG_REGEXP m) as [[[? ?] c']|]; [|done].
      by apply markup_parser_ok, end_tag_markup.
    + destruct (test_at _ _); [|done]. destruct (match_at START_TAG_REGEXP html) as [[[m r] c]|]; [|done].
      destruct (match_at START_TAG_REGEXP m) as [[[? ?] c']|]; [|by intros [_ <-]%ok_pair].
      destruct (parseStartTag _ _ _ _ _ _) as [p1|] eqn:E; [|done]. intros [_ <-]%ok_pair. by eapply start_tag_ok.
Qed.
Lemma parse_special_ok name st html p : parser_ok p -> p_stack p = name :: st -> markup_ok (parse_special textContent name html p).2.
Proof.
  intros PM E. unfold parse_special. destruct (find_match _ _) as [[[[b m] r] c]|]; cbn [snd].
  - apply (proj2 (proj2 (parseEndTag_ok (Some name) _ (chars_ok _ p PM)))). by exists name, st.
  - apply (proj2 (proj2 (parseEndTag_ok (Some name) p PM))). by exists name, st.
Qed.
Lemma parse_turn_ok html p html' p' : parser_ok p -> parse_turn uriValidator textContent html p = Ok (html', p') -> parser_ok p'.
Proof.
  intros PM. unfold parse_turn. destruct (p_stack p) as [|t st] eqn:E.
  - apply parse_markup_ok. destruct PM as (W & L & _). rewrite E in L. split_and!; [done|by rewrite E|by rewrite E].
  - destruct (truthy t && in_map specialElements t) eqn:Et.
    + intros [= Ep]. pose proof (parse_special_ok t st html p PM E) as M. rewrite Ep in M. by apply markup_parser_ok.
    + apply parse_markup_ok. destruct PM as (W & L & H). split_and!; [done|done|]. rewrite E in *. destruct H as [_ O]. constructor; [|done].
      intros Hin. assert (Ht : truthy t = true) by (destruct t; [by apply special_in_map in Hin; vm_compute in Hin|done]).
      apply special_in_map in Hin. by rewrite Ht, Hin in Et.
Qed.

(** ** Every turn reads something, or is the last one *)

Lemma drop_shorter {A} n (l : list A) : drop n l = l \/ length (drop n l) < length l.
Proof. rewrite length_drop. destruct n; [by left|]. destruct l; [by left|right]. cbn. lia. Qed.
Lemma drop_eq {A} n (l : list A) : l <> [] -> n <> 0 -> length (drop n l) < length l.
Proof. rewrite length_drop. destruct l; [done|]. cbn. lia. Qed.
Definition reads (html html' : jstr) : Prop := html' = html \/ length html' < length html.
Lemma parse_chars_reads html p : html <> [] -> reads html (parse_chars textContent html p).1.
Proof.
  intros Hne. unfold parse_chars, reads. destruct (indexOf html (js "<")) as [i|]; cbn [fst]; [apply drop_shorter|right]. by destruct html; [|cbn; lia].
Qed.
Lemma remove_text_reads s t : reads s (remove_text s t).
Proof.
  unfold remove_text, reads. destruct (indexOf s t) as [i|]; [|by left]. destruct (Nat.le_gt_cases (length s) i) as [H|H].
  - left. rewrite take_ge, drop_ge by lia. apply app_nil_r.
  - destruct t as [|x t]; [left; cbn [length]; by rewrite Nat.add_0_r, take_drop|right]. rewrite length_app, length_take, length_drop. cbn. lia.
Qed.
Lemma parse_turn_reads html p html' p' : html <> [] -> parse_turn uriValidator textContent html p = Ok (html', p') -> reads html html'.
Proof.
  intros Hne. assert (Hc : forall q, Ok (E := js_error) (parse_chars textContent html q) = Ok (html', p') -> reads html html').
  { intros q [= E]. pose proof (parse_chars_reads html q Hne) as H. by rewrite E in H. }
  assert (Hm : parse_markup uriValidator textContent html p = Ok (html', p') -> reads html html').
  { unfold parse_markup. destruct (starts_with _ html).
    - destruct (indexOf_at _ _ _) as [i|]; [|apply Hc]. destruct (starts_with _ _); [|apply Hc]. intros [= <- _]. right. apply drop_eq; [done|lia].
    - destruct (find_match DOCTYPE_REGEXP html) as [[[[b m] r] c]|]; [intros [= <- _]; apply remove_text_reads|]. destruct (test_at _ _).
      + destruct (match_at END_TAG_REGEXP html) as [[[m r] c]|]; [|apply Hc]. intros [= <- _]. apply drop_shorter.
      + destruct (test_at _ _); [|apply Hc]. destruct (match_at START_TAG_REGEXP html) as [[[m r] c]|]; [|apply Hc].
        destruct (match_at START_TAG_REGEXP m) as [[[? ?] c']|]; [|intros [= <- _]; apply drop_shorter].
        destruct (parseStartTag _ _ _ _ _ _) as [p1|]; [|done]. intros [= <- _]. apply drop_shorter. }
  unfold parse_turn. destruct (p_stack p) as [|t st]; [done|]. destruct (truthy t && in_map specialElements t); [|done]. intros [= E]. unfold parse_special in E.
  destruct (find_match _ html) as [[[[b m] r] c]|] eqn:Ef; injection E as <- _; [|by left]. apply find_match_sound in Ef as [-> _].
  destruct m; [by left|right]. rewrite !length_app. cbn. lia.
Qed.

Lemma parse_loop_ends fuel html p : length html <= fuel -> parse_loop uriValidator textContent fuel html p <> None.
Proof.
  revert html p. induction fuel as [|fuel IH]; intros html p Hl; (destruct html as [|x html]; [done|]); [cbn in Hl; lia|]. cbn [parse_loop].
  destruct (parse_turn _ _ _ _) as [[html' p']|] eqn:E; [|done]. apply parse_turn_reads in E; [|done]. destruct (jeqb html' (x :: html)) eqn:Ej; [done|].
  apply jeqb_false in Ej. destruct E as [E|E]; [done|]. apply IH. cbn in *. lia.
Qed.
Lemma parse_loop_ok fuel html p p' : parser_ok p -> parse_loop uriValidator textContent fuel html p = Some (Ok p') -> safe_html (w_out (p_writer p')).
Proof.
  revert html p. induction fuel as [|fuel IH]; intros html p PM; cbn [parse_loop]; (destruct html as [|x html];
    [intros [= <-]; apply (proj1 (proj1 (parseEndTag_ok None p PM)))|]); [done|].
  destruct (parse_turn _ _ _ _) as [[html' p1]|] eqn:E; [|done]. apply parse_turn_ok in E; [|done]. destruct (jeqb _ _); [done|]. by apply IH.
Qed.

(** ** Errors *)

Definition badparse : js_error := JsMinErr (js "$sanitize:badparse").
Lemma parse_turn_error html p e : parse_turn uriValidator textContent html p = Throw e -> e = JsTypeError.
Proof.
  assert (Hm : parse_markup uriValidator textContent html p = Throw e -> e = JsTypeError).
  { unfold parse_markup. destruct (starts_with _ html); [destruct (indexOf_at _ _ _); [by destruct (starts_with _ _)|done]|].
    destruct (find_match DOCTYPE_REGEXP html) as [[[[b m] r] c]|]; [done|]. destruct (test_at _ _); [by destruct (match_at END_TAG_REGEXP html) as [[[m r] c]|]|].
    destruct (test_at _ _); [|done]. destruct (match_at START_TAG_REGEXP html) as [[[m r] c]|]; [|done].
    destruct (match_at START_TAG_REGEXP m) as [[[? ?] c']|]; [|done]. destruct (parseStartTag _ _ _ _ _ _) as [p1|e1] eqn:E; [done|]. intros [= ->].
    unfold parseStartTag in E. destruct (writer_start _ _ _ _ _) as [w|e2] eqn:Ew; [done|]. injection E as ->. revert Ew. clear. unfold writer_start. cbv zeta.
    destruct (_ && is_key _ _); [|done]. destruct (forEach_fails _); [|done]. by intros [= <-]. }
  unfold parse_turn. destruct (p_stack p); [done|]. by destruct (_ && _).
Qed.
Lemma parse_loop_error fuel html p e : parse_loop uriValidator textContent fuel html p = Some (Throw e) -> e = JsTypeError \/ e = badparse.
Proof.
  revert html p. induction fuel as [|fuel IH]; intros html p; (destruct html as [|x html]; [done|]); [done|]. cbn [parse_loop].
  destruct (parse_turn _ _ _ _) as [[html' p1]|e1] eqn:E; [|intros [= ->]; left; by eapply parse_turn_error].
  destruct (jeqb _ _); [intros [= <-]; by right|apply IH].
Qed.

(** A text that begins with no tag is read up to the next one. *)
Lemma find_match_suffix r a b : find_match r (a ++ b) = None -> find_match r b = None.
Proof.
  induction a as [|x a IH]; [done|]. cbn [app find_match]. destruct (match_at r _) as [[[? ?] ?]|]; [done|].
  destruct (find_match r (a ++ b)) as [[[[? ?] ?] ?]|]; [done|]. intros _. by apply IH.
Qed.
Lemma lang_first P r u rest : lang (RSeq (RChar P) r) u rest -> exists x v, u = x :: v /\ P x = true.
Proof. intros H. inversion H as [| |? ? a b ? Ha Hb| | | | | |]; subst. inversion Ha; subst. by eexists _, _. Qed.
Lemma no_tag_first r x s : x <> chr "<" -> match_at (RSeq (rlit (chr "<")) r) (x :: s) = None.
Proof.
  intros Hx. destruct (match_at _ _) as [[[m rest] c]|] eqn:E; [|done]. apply match_at_sound in E as [Es (y & v & -> & Hy)%lang_first].
  apply N.eqb_eq in Hy. injection Es as -> _. done.
Qed.
Lemma text_turn x s p : x <> chr "<" -> find_match DOCTYPE_REGEXP (x :: s) = None ->
  parse_markup uriValidator textContent (x :: s) p = Ok (parse_chars textContent (x :: s) p).
Proof.
  intros Hx Hd. unfold parse_markup. assert (E : starts_with (js "<!--") (x :: s) = false).
  { change (js "<!--") with (chr "<" :: js "!--"). cbn [starts_with]. destruct (N.eqb_spec (chr "<") x); [by subst|done]. }
  rewrite E, Hd. unfold test_at. unfold BEGING_END_TAGE_REGEXP, BEGIN_TAG_REGEXP. cbn [rseq]. rewrite no_tag_first by done.
  unfold match_at, rlit. cbn [run_re]. destruct (N.eqb_spec (chr "<") x); [by subst|done].
Qed.
(** A [<] that begins nothing. *)
Definition lone (s : jstr) : Prop :=
  starts_with (js "<!--") s = false /\ test_at START_TAG_REGEXP s = false /\ test_at END_TAG_REGEXP s = false.
Lemma lone_turn s p : lone s -> find_match DOCTYPE_REGEXP s = None ->
  parse_markup uriValidator textContent s p = Ok (parse_chars textContent s p).
Proof.
  intros (H1 & H2 & H3) Hd. unfold parse_markup. rewrite H1, Hd. unfold test_at in H2, H3.
  destruct (test_at BEGING_END_TAGE_REGEXP s); [by destruct (match_at END_TAG_REGEXP s) as [[[? ?] ?]|]|].
  destruct (test_at BEGIN_TAG_REGEXP s); [|done]. by destruct (match_at START_TAG_REGEXP s) as [[[? ?] ?]|].
Qed.
Lemma no_doctype s : chr "<" ∉ s -> find_match DOCTYPE_REGEXP s = None.
Proof.
  intros Hn. destruct (find_match DOCTYPE_REGEXP s) as [[[[b m] rest] c]|] eqn:E; [|done]. apply find_match_sound in E as [-> Hl]. exfalso. apply Hn.
  unfold DOCTYPE_REGEXP in Hl. cbn [rseq] in Hl. inversion Hl as [| |? ? a d ? Ha _| | | | | |]; subst. change (js "<!DOCTYPE") with (chr "<" :: js "!DOCTYPE") in Ha.
  apply lang_first in Ha as (x & v & -> & Hx). apply N.eqb_eq in Hx. apply elem_of_app. right. cbn [app]. 
  assert (Hx' : ascii_lower x = 60%N) by exact Hx. clear Hx. assert (x = 60%N) as ->; [|left]. unfold ascii_lower in Hx'. destruct ((65 <=? x)%N && (x <=? 90)%N) eqn:Ex; [|done].
  apply andb_true_iff in Ex as [E1%N.leb_le E2%N.leb_le]. lia.
Qed.
Lemma text_only html : chr "<" ∉ html -> html <> [] ->
  htmlParser uriValidator textContent html = Some (Ok (Parser [] (writer_chars (decodeEntities textContent html) empty_writer))).
Proof.
  intros Hn Hne. unfold htmlParser. destruct html as [|x s]; [done|]. cbn [length parse_loop]. assert (Hx : x <> chr "<") by (intros ->; apply Hn; left).
  unfold parse_turn. cbn [p_stack]. rewrite text_turn by (done || by apply no_doctype). unfold parse_chars.
  assert (Ei : indexOf (x :: s) (js "<") = None) by exact (proj2 (indexOf_unit_None (chr "<") (x :: s)) Hn). rewrite Ei. change (jeqb [] (x :: s)) with false. cbn iota. by destruct (length s).
Qed.

Lemma indexOf_first t s : chr "<" ∉ t -> indexOf (t ++ chr "<" :: s) (js "<") = Some (length t).
Proof.
  intros Hn. unfold indexOf. change (js "<") with [chr "<"]. by rewrite (index_from_unit_app 0 (chr "<") t s).
Qed.
Lemma lone_refused t s : chr "<" ∉ t -> lone (chr "<" :: s) -> find_match DOCTYPE_REGEXP (t ++ chr "<" :: s) = None ->
  htmlParser uriValidator textContent (t ++ chr "<" :: s) = Some (Throw badparse).
Proof.
  intros Hn Hl Hd. assert (Hlast : forall n p, p_stack p = [] -> parse_loop uriValidator textContent (S n) (chr "<" :: s) p = Some (Throw badparse)).
  { intros n p Ep. cbn [parse_loop]. unfold parse_turn. rewrite Ep, lone_turn; [|done|by eapply find_match_suffix]. unfold parse_chars.
    pose proof (indexOf_first [] s ltac:(by apply not_elem_of_nil)) as Ei. cbn [app length] in Ei. rewrite Ei. cbn [drop]. by rewrite jeqb_refl. }
  unfold htmlParser. destruct t as [|x t]; [by apply Hlast|]. cbn [app length]. rewrite length_app. cbn [length parse_loop].
  assert (Hx : x <> chr "<") by (intros ->; apply Hn; left). unfold parse_turn. cbn [p_stack]. rewrite text_turn by done. unfold parse_chars.
  pose proof (indexOf_first (x :: t) s Hn) as Ei. cbn [app] in Ei. rewrite Ei. change (x :: t ++ chr "<" :: s) with ((x :: t) ++ chr "<" :: s). rewrite drop_app_length.
  destruct (jeqb (chr "<" :: s) ((x :: t) ++ chr "<" :: s)) eqn:E.
  - apply jeqb_true in E. apply (f_equal length) in E. rewrite length_app in E. cbn in E. lia.
  - rewrite Nat.add_succ_r. by apply Hlast.
Qed.
End Parser.
End Safe.

(** ** The service and the filter *)

Section Services.
Context (textContent : jstr -> jstr) (sanitizeUri : jstr -> bool -> jstr).

Lemma sanitize_ok html out : sanitize textContent sanitizeUri html = Some (Ok out) -> safe_html (uri_validator sanitizeUri) out.
Proof.
  unfold sanitize, htmlParser. destruct (parse_loop _ _ _ _ _) as [[p|e]|] eqn:E; [|done|done]. intros [= <-]. eapply parse_loop_ok; [|exact E].
  split_and!; [constructor|constructor|done].
Qed.
Lemma sanitize_value_ok v out : sanitize_value textContent sanitizeUri v = Some (Ok out) -> safe_html (uri_validator sanitizeUri) out.
Proof.
  destruct v as [| |b|n|s|l|o|f]; cbn [sanitize_value]; try (intros [= <-]; constructor); try (destruct (jtruthy _); [done|intros [= <-]; constructor]); [apply sanitize_ok|].
  intros [= H]. unfold sanitize_array in H. destruct (_ && _); [done|]. destruct (existsb _ l); [done|]. destruct (jtext (JArr l)) as [|x t]; [done|].
  injection H as <-. apply safe_chars, encode_safe.
Qed.
Lemma linky_ok text target out : linky textContent sanitizeUri text target = Some (Ok out) -> safe_html (uri_validator sanitizeUri) out.
Proof. destruct text as [|c text]; [intros [= <-]; constructor|apply sanitize_ok]. Qed.

(** C20. The output of [$sanitize], and of the filter [linky], is safe whatever the markup, and whatever the browser makes of its entities: it is
    made of printable characters other than quotes and angle brackets, and of tags of the list, never [script] nor [style]; their attributes are of
    the list, their values encoded, and where they are URIs [$$sanitizeUri] accepted them. *)
Theorem sanitize_safe : (forall html out, sanitize textContent sanitizeUri html = Some (Ok out) -> safe_html (uri_validator sanitizeUri) out) /\
  (forall text target out, linky textContent sanitizeUri text target = Some (Ok out) -> safe_html (uri_validator sanitizeUri) out).
Proof. split; [exact sanitize_ok|exact linky_ok]. Qed.

(** C3. [$sanitize] ends on every text, with markup or with one of two exceptions: badparse, or the TypeError of an attribute that hides a method.
    A text without tags is encoded; a [<] after such a text that begins neither a tag nor a comment is refused. *)
Theorem sanitize_outcome html : exists r, sanitize textContent sanitizeUri html = Some r /\
  (forall e, r = Throw e -> e = JsTypeError \/ e = badparse) /\
  (chr "<" ∉ html -> r = Ok (encodeEntities (decodeEntities textContent html))) /\
  (forall t s, html = t ++ chr "<" :: s -> chr "<" ∉ t -> lone (chr "<" :: s) -> test DOCTYPE_REGEXP html = false -> r = Throw badparse).
Proof.
  unfold sanitize, htmlParser. destruct (parse_loop _ _ _ html _) as [r|] eqn:E; [|by apply parse_loop_ends in E]. eexists. split; [reflexivity|]. split_and!.
  - intros e. destruct r as [p|e']; [done|]. intros [= ->]. by eapply parse_loop_error.
  - intros Hn. destruct html as [|x s]; [by injection E as <-|]. pose proof (text_only (uri_validator sanitizeUri) textContent (x :: s) Hn ltac:(done)) as Et.
    unfold htmlParser in Et. rewrite E in Et. injection Et as ->. done.
  - intros t s -> Hn Hl Hd. assert (Hd' : find_match DOCTYPE_REGEXP (t ++ chr "<" :: s) = None) by (unfold test in Hd; by destruct (find_match _ _)).
    pose proof (lone_refused (uri_validator sanitizeUri) textContent t s Hn Hl Hd') as Et. unfold htmlParser in Et. rewrite E in Et. by injection Et as ->.
Qed.
End Services.

Definition any_uri (uri : jstr) (_ : bool) : jstr := uri.
(** A paragraph with a handler and an image, neither of which is left. *)
Lemma sanitize_safe_witness :
  let out := js "<p>a <em>b</em> &amp; c</p>" in
  sanitize plain_text any_uri (js "<p>a <em onclick='x'>b</em> & c<script>d</script>") = Some (Ok out) /\ safe_html (uri_validator any_uri) out.
Proof.
  intros out. assert (E : sanitize plain_text any_uri (js "<p>a <em onclick='x'>b</em> & c<script>d</script>") = Some (Ok out)) by (vm_compute; reflexivity).
  split; [exact E|]. exact (proj1 (sanitize_safe plain_text any_uri) _ out E).
Defined.
(** A comparison is no markup. *)
Lemma sanitize_outcome_witness : sanitize plain_text any_uri (js "1 < 2") = Some (Throw badparse).
Proof.
  destruct (sanitize_outcome plain_text any_uri (js "1 < 2")) as (r & E & _ & _ & H). rewrite E. f_equal. apply (H (js "1 ") (js " 2")).
  - reflexivity.
  - refine (bool_decide_unpack _ _). vm_compute. exact I.
  - split; [vm_compute; reflexivity|split; vm_compute; reflexivity].
  - vm_compute. reflexivity.
Defined.
