(* ===== verification/Sce.v ===== *)
(** * Strict contextual escaping (angular.js, $sceDelegate and $$sanitizeUri)

    The resolution of URLs by an anchor element is a parameter, and so are the service [$sanitize] and the address of the
    page.  A regular expression of the application is the list of its alternatives. *)

From S2P Require Import Prelude JsString JsObject JsNumber UriCodec Json Location Regex.
#[local] Open Scope nat_scope.
Local Open Scope result_scope.

(** ** Matchers of resource URLs *)

(** [escapeForRegexp]: the two replacements. *)
Definition escape_char (c : N) : jstr := if among (js "-()[]{}+?*.$^|,:#<!\") c then [chr "\"; c] else if (c =? 8)%N then js "\x08" else [c].
Definition escapeForRegexp (s : jstr) : jstr := flat_map escape_char s.

Inductive matcher : Type := MString (s : jstr) | MRegExp (alternatives : list regexp) | MOther.
(** What [adjustMatcher] makes: 'self', a regular expression by its source, or between [^] and [$]. *)
Inductive adjusted : Type := ASelf | APattern (source : jstr) | ARegExp (alternatives : list regexp).

(** [s.replace(p, t)] for texts. *)
Fixpoint replace_text (p t s : jstr) : jstr :=
  if starts_with p s then t ++ drop (length p) s
  else match s with [] => [] | c :: s => c :: replace_text p t s end.

Definition adjustMatcher (m : matcher) : result js_error adjusted :=
  match m with
  | MString s =>
      if jeqb s (js "self") then Ok ASelf
      else match indexOf s (js "***") with
           | Some _ => Throw (JsMinErr (js "$sce:iwcard"))
           | None => Ok (APattern (replace_text (js "\*") (js "[^:/.?&;]*") (replace_text (js "\*\*") (js ".*") (escapeForRegexp s))))
           end
  | MRegExp alternatives => Ok (ARegExp alternatives)
  | MOther => Throw (JsMinErr (js "$sce:imatcher"))
  end.
(** [None] is [undefined]. *)
Definition adjustMatchers (matchers : option (list matcher)) : result js_error (list adjusted) :=
  match matchers with Some l => map_result adjustMatcher l | None => Ok [] end.

(** ** The regular expressions of string matchers *)

Inductive item : Type := ILit (c : N) | IAny | ISeg.
Definition seg_char (c : N) : bool := none_of (js ":/.?&;") c.
(** The source of a regular expression made of escaped characters, [.*] and [[^:/.?&;]*]. *)
Fixpoint source_items (fuel : nat) (source : jstr) : list item :=
  match fuel, source with
  | S fuel, c :: rest =>
      if starts_with (js "\x08") source then ILit 8%N :: source_items fuel (drop 4 source)
      else if (c =? chr "\")%N then match rest with x :: rest => ILit x :: source_items fuel rest | [] => [] end
      else if starts_with (js ".*") source then IAny :: source_items fuel (drop 2 source)
      else if starts_with (js "[^:/.?&;]*") source then ISeg :: source_items fuel (drop 10 source)
      else ILit c :: source_items fuel rest
  | _, _ => []
  end.
Fixpoint items_regexp (l : list item) : regexp :=
  match l with
  | [] => REnd
  | ILit c :: l => RSeq (rlit c) (items_regexp l)
  | IAny :: l => RSeq (rstar (RChar is_dot)) (items_regexp l)
  | ISeg :: l => RSeq (rstar (RChar seg_char)) (items_regexp l)
  end.

(** [matcher.exec(href)]; [^] and [$] belong to the first and to the last alternative. *)
Definition exec_alternatives (alternatives : list regexp) (href : jstr) : bool :=
  match alternatives with
  | [] => bool_decide (href = [])
  | [r] => test_at (RSeq r REnd) href
  | r :: rest => test_at r href || existsb (fun r => test r href) (removelast rest) || test (RSeq (List.last rest REmpty) REnd) href
  end.
Definition exec_matcher (m : adjusted) (href : jstr) : bool :=
  match m with
  | ASelf => false
  | APattern source => test_at (items_regexp (source_items (length source) source)) href
  | ARegExp alternatives => exec_alternatives alternatives href
  end.

Section Sce.
Context (anchor : jstr -> anchor_url).
(** [originUrl]: the address of the page. *)
Context (origin : anchor_url).

Definition urlIsSameOrigin (parsed : anchor_url) : bool :=
  jeqb (a_protocol parsed) (a_protocol origin) && jeqb (a_host parsed) (a_host origin).
Definition matchUrl (m : adjusted) (parsedUrl : anchor_url) : bool :=
  match m with ASelf => urlIsSameOrigin parsedUrl | _ => exec_matcher m (a_href parsedUrl) end.

(** ** [$sceDelegate] *)

Record policy : Type := Policy { resourceUrlWhitelist : list adjusted; resourceUrlBlacklist : list adjusted }.
Definition default_policy : policy := Policy [ASelf] [].
(** The two setters of the provider. *)
Definition set_whitelist (value : option (list matcher)) (p : policy) : result js_error policy :=
  let* l := adjustMatchers value in Ok (Policy l (resourceUrlBlacklist p)).
Definition set_blacklist (value : option (list matcher)) (p : policy) : result js_error policy :=
  let* l := adjustMatchers value in Ok (Policy (resourceUrlWhitelist p) l).

Context (pol : policy).

Definition isResourceUrlAllowedByPolicy (url : jstr) : bool :=
  let parsedUrl := urlResolve anchor url in
  let allowed := existsb (fun m => matchUrl m parsedUrl) (resourceUrlWhitelist pol) in
  if allowed then negb (existsb (fun m => matchUrl m parsedUrl) (resourceUrlBlacklist pol)) else allowed.

Definition HTML : jstr := js "html".
Definition CSS : jstr := js "css".
Definition URL : jstr := js "url".
Definition RESOURCE_URL : jstr := js "resourceUrl".
Definition JS : jstr := js "js".
Definition contexts : list jstr := [HTML; CSS; URL; RESOURCE_URL; JS].

(** A value, or what [trustAs] made of a text for a context. *)
Inductive sce_value : Type := SPlain (v : json) | SHolder (type trustedValue : jstr).
(** [v instanceof byType[type]]: a resource URL is a URL. *)
Definition instance_of (v : sce_value) (type : jstr) : option jstr :=
  match v with
  | SHolder t s => if jeqb t type || jeqb t RESOURCE_URL && jeqb type URL then Some s else None
  | SPlain _ => None
  end.
Definition is_blank (v : sce_value) : bool :=
  match v with SPlain JUndef | SPlain JNull | SPlain (JStr []) => true | _ => false end.
Definition is_context (type : jstr) : bool := bool_decide (type ∈ contexts).

Definition trustAs (type : jstr) (trustedValue : json) : result js_error sce_value :=
  if negb (is_context type) then Throw (JsMinErr (js "$sce:icontext"))
  else if is_blank (SPlain trustedValue) then Ok (SPlain trustedValue)
  else match trustedValue with
       | JStr s => Ok (SHolder type s)
       | _ => Throw (JsMinErr (js "$sce:itype"))
       end.
Definition valueOf (maybeTrusted : sce_value) : json :=
  match maybeTrusted with SHolder _ s => JStr s | SPlain v => v end.
Definition sce_text (v : sce_value) : jstr := match v with SHolder _ s => s | SPlain v => jtext v end.

(** [$sanitize], where the module is loaded. *)
Context (sanitizer : option (sce_value -> result js_error json)).
Definition htmlSanitizer (v : sce_value) : result js_error json :=
  match sanitizer with Some f => f v | None => Throw (JsMinErr (js "$sce:unsafe")) end.

(** A value that is not unwrapped is given as it is. *)
Definition getTrusted (type : jstr) (maybeTrusted : sce_value) : result js_error sce_value :=
  if is_blank maybeTrusted then Ok maybeTrusted
  else match (if is_context type then instance_of maybeTrusted type else None) with
       | Some s => Ok (SPlain (JStr s))
       | None =>
           if jeqb type RESOURCE_URL then
             if isResourceUrlAllowedByPolicy (sce_text maybeTrusted) then Ok maybeTrusted else Throw (JsMinErr (js "$sce:insecurl"))
           else if jeqb type HTML then let* v := htmlSanitizer maybeTrusted in Ok (SPlain v)
           else Throw (JsMinErr (js "$sce:unsafe"))
       end.

(** ** [$sce]: [enabled] is that of the provider. *)

Definition sce_trustAs (enabled : bool) (type : jstr) (v : json) : result js_error sce_value :=
  if enabled then trustAs type v else Ok (SPlain v).
Definition sce_getTrusted (enabled : bool) (type : jstr) (v : sce_value) : result js_error sce_value :=
  if enabled then getTrusted type v else Ok v.
Definition sce_valueOf (enabled : bool) (v : sce_value) : sce_value := if enabled then SPlain (valueOf v) else v.

(** ** [$$sanitizeUri] *)

Definition scheme (names : list jstr) : regexp := RSeq spaces (RSeq (ralt (map rtext names)) (rlit (chr ":"))).
(** [/^\s*(https?|ftp|mailto|tel|file):/] *)
Definition aHrefSanitizationWhitelist (s : jstr) : bool := test_at (scheme [js "https"; js "http"; js "ftp"; js "mailto"; js "tel"; js "file"]) s.
(** [/^\s*(https?|ftp|file):|data:image\//] *)
Definition imgSrcSanitizationWhitelist (s : jstr) : bool :=
  test_at (scheme [js "https"; js "http"; js "ftp"; js "file"]) s || test (rtext (js "data:image/")) s.

(** The whitelists of the provider; [old_ie] is an Internet Explorer before 8. *)
Definition sanitizeUri (old_ie : bool) (href_list src_list : jstr -> bool) (uri : jstr) (isImage : bool) : jstr :=
  if old_ie then uri
  else
    let normalizedVal := a_href (urlResolve anchor uri) in
    if negb (bool_decide (normalizedVal = [])) && negb ((if isImage then src_list else href_list) normalizedVal)
    then js "unsafe:" ++ normalizedVal else uri.
End Sce.

Definition matches_url (pattern url : lit) : option bool :=
  match adjustMatcher (MString (js pattern)) with Ok m => Some (exec_matcher m (js url)) | Throw _ => None end.
Arguments matches_url (pattern url)%_string_scope.
Example matched :
  matches_url "http://*.a.com/**" "http://b.a.com/x/y?z" = Some true /\ matches_url "http://*.a.com/**" "http://b.c.a.com/x" = Some false /\
  matches_url "http://*.a.com/*" "http://b.a.com/x" = Some false /\ matches_url "http://*.a.com/*" "http://b.a.com/*" = Some true /\
  matches_url "a***" "a" = None /\ matches_url "a+b" "aab" = Some false /\ matches_url "a+b" "a+b" = Some true.
Proof. vm_compute. tauto. Qed.
