(* ===== verification/SceFacts.v ===== *)
(** * Matchers of URLs, trusted values and links *)

From S2P Require Import Prelude JsString JsObject JsNumber UriCodec Json Location Regex Sanitize SanitizeFacts Sce.
#[local] Open Scope nat_scope.

(** ** Wildcards *)

Definition star : N := 42%N.
Definition lits (s : jstr) : list item := map ILit s.
(** The first pair of stars stands for any text; the other stars for themselves. *)
Fixpoint pair_items (s : jstr) : list item :=
  match s with
  | [] => []
  | c :: rest => if (c =? star)%N && bool_decide (hd_error rest = Some star) then IAny :: lits (tail rest) else ILit c :: pair_items rest
  end.
(** The first star stands for a segment; the others for themselves. *)
Fixpoint star_items (s : jstr) : list item :=
  match s with [] => [] | c :: rest => if (c =? star)%N then ISeg :: lits rest else ILit c :: star_items rest end.
(** The wildcards of a string matcher: the first pair of stars, and the first star that is not in it. *)
Fixpoint wildcards (s : jstr) : list item :=
  match s with
  | [] => []
  | c :: rest =>
      if (c =? star)%N then
        if bool_decide (hd_error rest = Some star) then IAny :: star_items (tail rest) else ISeg :: pair_items rest
      else ILit c :: wildcards rest
  end.

(** The texts that wildcards stand for. *)
Inductive stands_for : list item -> jstr -> Prop :=
| stands_nil : stands_for [] []
| stands_lit c l u : stands_for l u -> stands_for (ILit c :: l) (c :: u)
| stands_any l u v : Forall (fun c => is_dot c = true) u -> stands_for l v -> stands_for (IAny :: l) (u ++ v)
| stands_seg l u v : Forall (fun c => c ∉ js ":/.?&;") u -> stands_for l v -> stands_for (ISeg :: l) (u ++ v).

Lemma lang_class P u rest : lang (rstar (RChar P)) u rest <-> Forall (fun c => P c = true) u.
Proof.
  split.
  - remember (rstar (RChar P)) as r eqn:Er. intros H. revert Er. induction H as [| | | | | |g r u v rest Hu Hr _ Hv IH| |]; intros [=]; subst; [constructor|].
    apply Forall_app. split; [|by apply IH]. inversion Hr; subst. by repeat constructor.
  - induction 1 as [|c u Hc Hu IH]; [constructor|]. apply (lang_more true (RChar P) [c] u rest); [done|by constructor|exact IH].
Qed.
Lemma seg_char_spec c : seg_char c = true <-> c ∉ js ":/.?&;".
Proof.
  unfold seg_char, none_of, among. rewrite negb_true_iff, <- not_true_iff_false, existsb_exists. split; intros H Hc; apply H.
  - exists c. split; [by apply list_elem_of_In|apply N.eqb_refl].
  - destruct Hc as (x & Hx & ->%N.eqb_eq). by apply list_elem_of_In.
Qed.
Lemma items_lang l u : lang (items_regexp l) u [] <-> stands_for l u.
Proof.
  split.
  - revert u. induction l as [|i l IH]; intros u; cbn [items_regexp]; [intros H; inversion H; constructor|]. destruct i as [c| |]; intros H; inversion H as [| |? ? a b ? Ha Hb| | | | | |]; subst; apply IH in Hb.
    + inversion Ha as [? x ? Hx| | | | | | | |]; subst. apply N.eqb_eq in Hx as <-. by constructor.
    + apply lang_class in Ha. by constructor.
    + apply lang_class in Ha. constructor; [|done]. eapply Forall_impl; [exact Ha|]. intros x. apply seg_char_spec.
  - induction 1 as [|c l u H IH|l u v Hu H IH|l u v Hu H IH]; cbn [items_regexp]; [constructor|..].
    + apply (lang_seq (rlit c) _ [c] u []); [constructor; apply N.eqb_refl|done].
    + apply lang_seq; [by apply lang_class|done].
    + apply lang_seq; [apply lang_class|done]. eapply Forall_impl; [exact Hu|]. intros x. apply seg_char_spec.
Qed.
Lemma items_end l u rest : lang (items_regexp l) u rest -> rest = [].
Proof.
  revert u. induction l as [|i l IH]; intros u H; [by inversion H|]. destruct i; inversion H; subst; by eapply IH.
Qed.
Lemma exec_items l u : test_at (items_regexp l) u = true <-> stands_for l u.
Proof.
  rewrite <- items_lang. split.
  - unfold test_at. destruct (match_at (items_regexp l) u) as [[[m rest] c]|] eqn:E; [|done]. intros _. apply match_at_sound in E as [-> H].
    pose proof (items_end l m rest H) as ->. by rewrite app_nil_r.
  - intros H. rewrite <- (app_nil_r u). by apply match_at_complete.
Qed.

(** ** The source of the regular expression *)

Definition any_source : jstr := js ".*".
Definition seg_source : jstr := js "[^:/.?&;]*".
Definition star_source : jstr := [chr "\"; star].
(** What is not at the start of a source that follows an escaped character. *)
Definition no_star (s : jstr) : Prop := hd_error s <> Some star.

Definition item_source (i : item) : jstr := match i with ILit c => escape_char c | IAny => any_source | ISeg => seg_source end.
Definition source_of (l : list item) : jstr := flat_map item_source l.

Lemma escape_cases c : (escape_char c = [chr "\"; c] /\ c <> 120%N) \/ (c = 8%N /\ escape_char c = js "\x08") \/
  (escape_char c = [c] /\ c <> chr "\" /\ c <> chr "." /\ c <> chr "[" /\ c <> star).
Proof.
  unfold escape_char. destruct (among _ c) eqn:E; [left; split; [done|by intros ->]|right]. destruct (N.eqb_spec c 8) as [->|]; [by left|right].
  split; [done|]. split_and!; intros ->; vm_compute in E; done.
Qed.
Lemma escape_source s : escapeForRegexp s = source_of (lits s).
Proof. unfold source_of, lits, escapeForRegexp. induction s as [|c s IH]; [done|]. cbn. by rewrite IH. Qed.
Lemma source_no_star l : no_star (source_of l).
Proof.
  unfold no_star. destruct l as [|i l]; [done|]. unfold source_of. cbn [flat_map]. destruct i as [c| |]; [|done..]. cbn [item_source].
  destruct (escape_cases c) as [[E _]|[[-> E]|(E & _ & _ & _ & H)]]; rewrite E; cbn; try done. by intros [= ->].
Qed.
(** The first star. *)
Fixpoint first_star (l : list item) : list item :=
  match l with
  | ILit c :: l => if (c =? star)%N then ISeg :: l else ILit c :: first_star l
  | i :: l => i :: first_star l
  | [] => []
  end.

(** A pattern that starts with an escaped star is not in an escaped character. *)
Lemma replace_step p t c s : starts_with (star_source ++ p) (c :: s) = false ->
  replace_text (star_source ++ p) t (c :: s) = c :: replace_text (star_source ++ p) t s.
Proof. intros H. cbn [replace_text]. by rewrite H. Qed.
Lemma starts_other p c s : c <> chr "\" -> starts_with (star_source ++ p) (c :: s) = false.
Proof. intros H. cbn [star_source app starts_with]. by rewrite (proj2 (N.eqb_neq (chr "\") c)) by congruence. Qed.
Lemma starts_backslash p c s : no_star s -> starts_with (star_source ++ p) (c :: s) = false.
Proof.
  intros H. cbn [star_source app starts_with]. apply andb_false_iff. right. destruct s as [|x s]; [done|]. apply andb_false_iff. left.
  apply N.eqb_neq. intros Hx. apply H. cbn. f_equal. by symmetry.
Qed.
Lemma replace_escaped p t c s : c <> star -> no_star s ->
  replace_text (star_source ++ p) t (escape_char c ++ s) = escape_char c ++ replace_text (star_source ++ p) t s.
Proof.
  intros Hc Hs. destruct (escape_cases c) as [[-> _]|[[-> ->]|(-> & H1 & _)]]; cbn [app].
  - rewrite replace_step by (apply starts_backslash; by intros [= ->]). by rewrite replace_step by by apply starts_backslash.
  - change (js "\x08") with [chr "\"; 120%N; 48%N; 56%N]. cbn [app]. rewrite replace_step by by apply starts_backslash. by rewrite !replace_step by by apply starts_other.
  - by rewrite replace_step by by apply starts_other.
Qed.
Lemma replace_plain p t a s : Forall (fun c => c <> chr "\") a -> replace_text (star_source ++ p) t (a ++ s) = a ++ replace_text (star_source ++ p) t s.
Proof. induction 1 as [|c a Hc Ha IH]; [done|]. cbn [app]. by rewrite replace_step, IH by by apply starts_other. Qed.
Lemma replace_star l : replace_text star_source seg_source (source_of l) = source_of (first_star l).
Proof.
  rewrite <- (app_nil_r star_source). induction l as [|i l IH]; [done|]. unfold source_of in *. cbn [flat_map first_star].
  pose proof (source_no_star l) as Hn. unfold source_of in Hn. destruct i as [c| |].
  - destruct (N.eqb_spec c star) as [->|Hc]; [|cbn [item_source flat_map]; by rewrite replace_escaped, IH].
    cbn [item_source]. change (escape_char star) with star_source. cbn [flat_map item_source]. generalize (flat_map item_source l). intros s. cbn. by rewrite drop_0.
  - cbn [item_source]. rewrite replace_plain by by_decision. by rewrite IH.
  - cbn [item_source]. rewrite replace_plain by by_decision. by rewrite IH.
Qed.
Lemma starts_source p l : match l with ILit c :: _ => c <> star | _ => True end -> starts_with (star_source ++ p) (source_of l) = false.
Proof.
  destruct l as [|[c| |] l]; [done| |done|done]. intros Hc. unfold source_of. cbn [flat_map item_source]. pose proof (source_no_star l) as Hn.
  destruct (escape_cases c) as [[-> _]|[[-> ->]|(-> & H1 & _)]]; cbn [app]; [|done|by apply starts_other]. apply starts_backslash. by intros [= ->].
Qed.
Lemma replace_pair s : replace_text (star_source ++ star_source) any_source (source_of (lits s)) = source_of (pair_items s).
Proof.
  induction s as [|c rest IH]; [done|]. cbn [pair_items]. pose proof (source_no_star (lits rest)) as Hn. destruct (N.eqb_spec c star) as [->|Hc]; cbn [andb].
  - destruct (bool_decide _) eqn:E.
    + apply bool_decide_eq_true in E. destruct rest as [|x rest]; [done|]. injection E as ->. unfold source_of. cbn [lits map flat_map item_source tail].
      change (escape_char star) with star_source. generalize (flat_map item_source (map ILit rest)). intros s. cbn. by rewrite drop_0.
    + apply bool_decide_eq_false in E. change (source_of (lits (star :: rest))) with (chr "\" :: star :: source_of (lits rest)).
      rewrite replace_step. 2: { change (chr "\" :: star :: source_of (lits rest)) with (star_source ++ source_of (lits rest)).
        assert (H : starts_with (star_source ++ []) (source_of (lits rest)) = false) by (apply starts_source; destruct rest; [done|]; cbn; by intros ->).
        rewrite app_nil_r in H. change (starts_with star_source (source_of (lits rest)) = false). exact H. }
      rewrite replace_step by by apply starts_other. by rewrite IH.
  - change (source_of (lits (c :: rest))) with (escape_char c ++ source_of (lits rest)). by rewrite replace_escaped, IH.
Qed.
Lemma wildcards_first s : first_star (pair_items s) = wildcards s.
Proof.
  assert (Hl : forall s, first_star (lits s) = star_items s) by (unfold lits; intros t; induction t as [|c t IH]; [done|]; cbn; destruct (c =? star)%N; [done|by rewrite IH]).
  induction s as [|c rest IH]; [done|]. cbn [pair_items wildcards]. destruct (c =? star)%N eqn:Ec; cbn [andb].
  - destruct (bool_decide _); cbn [first_star]; [by rewrite Hl|by rewrite Ec].
  - cbn [first_star]. by rewrite Ec, IH.
Qed.
Lemma source_items_of fuel l : length (source_of l) <= fuel -> source_items fuel (source_of l) = l.
Proof.
  revert fuel. induction l as [|i l IH]; intros fuel Hf; [by destruct fuel|]. unfold source_of in *. cbn [flat_map] in *. rewrite length_app in Hf.
  generalize dependent (flat_map item_source l). intros s IH Hf. destruct i as [c| |]; cbn [item_source] in *.
  - destruct (escape_cases c) as [[E H]|[[-> E]|(E & H1 & H2 & H3 & _)]]; rewrite E in *; cbn [length] in Hf.
    + destruct fuel as [|fuel]; [lia|]. cbn [app source_items]. assert (Ex : starts_with (js "\x08") (chr "\" :: c :: s) = false).
      { change (js "\x08") with [chr "\"; 120%N; 48%N; 56%N]. cbn [starts_with]. rewrite N.eqb_refl. by rewrite (proj2 (N.eqb_neq 120 c)). }
      rewrite Ex, N.eqb_refl. by rewrite IH by lia.
    + change (length (js "\x08")) with 4 in Hf. destruct fuel as [|fuel]; [lia|].
      change (source_items (S fuel) (js "\x08" ++ s)) with (ILit 8%N :: source_items fuel s). by rewrite IH by lia.
    + destruct fuel as [|fuel]; [lia|]. cbn [app source_items].
      assert (E1 : forall p x, x <> c -> starts_with (x :: p) (c :: s) = false) by (intros p x Hx; cbn [starts_with]; by rewrite (proj2 (N.eqb_neq x c))).
      change (js "\x08") with (chr "\" :: js "x08"). change (js ".*") with (chr "." :: js "*"). change (js "[^:/.?&;]*") with (chr "[" :: js "^:/.?&;]*").
      rewrite !E1 by congruence. rewrite (proj2 (N.eqb_neq _ _) H1). by rewrite IH by lia.
  - change (length any_source) with 2 in Hf. destruct fuel as [|fuel]; [lia|].
    change (source_items (S fuel) (any_source ++ s)) with (IAny :: source_items fuel s). by rewrite IH by lia.
  - change (length seg_source) with 10 in Hf. destruct fuel as [|fuel]; [lia|].
    change (source_items (S fuel) (seg_source ++ s)) with (ISeg :: source_items fuel s). by rewrite IH by lia.
Qed.



(** ** Trusted values *)

Section Trust.
Context (anchor : jstr -> anchor_url) (origin : anchor_url) (pol : policy) (textContent : jstr -> jstr).
Context (old_ie : bool) (href_list src_list : jstr -> bool).
Definition links : jstr -> bool -> bool := uri_validator (sanitizeUri anchor old_ie href_list src_list).
(** The service of ngSanitize: an object that holds a text has no [indexOf]. *)
Definition sanitize_service (v : sce_value) : result js_error json :=
  match v with
  | SPlain v =>
      match sanitize_value textContent (sanitizeUri anchor old_ie href_list src_list) v with
      | Some r => rbind r (fun out => Ok (JStr out))
      | None => Throw JsRangeError
      end
  | SHolder _ _ => Throw JsTypeError
  end.
Definition get (type : jstr) (v : sce_value) : result js_error sce_value := getTrusted anchor origin pol (Some sanitize_service) type v.

(** Made by the application for this context, or for a subtype. *)
Definition made_for (type : jstr) (v : sce_value) (s : jstr) : Prop :=
  exists t, v = SHolder t s /\ t ∈ contexts /\ (t = type \/ t = RESOURCE_URL /\ type = URL).
Definition allowed (url : jstr) : Prop :=
  (exists m, m ∈ resourceUrlWhitelist pol /\ matchUrl origin m (urlResolve anchor url) = true) /\
  (forall m, m ∈ resourceUrlBlacklist pol -> matchUrl origin m (urlResolve anchor url) = false).
(** The value was made by [trustAs], or it is one of the application. *)
Definition holder_ok (v : sce_value) : Prop := match v with SHolder t _ => t ∈ contexts | SPlain _ => True end.

Lemma policy_spec url : isResourceUrlAllowedByPolicy anchor origin pol url = true <-> allowed url.
Proof.
  unfold isResourceUrlAllowedByPolicy, allowed. set (f := fun m => matchUrl origin m _).
  assert (Hw : forall l, existsb f l = true <-> exists m, m ∈ l /\ f m = true).
  { intros l. rewrite existsb_exists. by setoid_rewrite list_elem_of_In. }
  destruct (existsb f (resourceUrlWhitelist pol)) eqn:E; [|split; [done|intros [H%Hw _]; congruence]]. rewrite negb_true_iff, <- not_true_iff_false, Hw. split.
  - intros H. split; [by apply Hw|]. intros m Hm. apply not_true_iff_false. intros Hf. apply H. by exists m.
  - intros [_ H] (m & Hm & Hf). specialize (H m Hm). unfold f in Hf. congruence.
Qed.
Lemma instance_made type v s : holder_ok v -> (if is_context type then instance_of v type else None) = Some s -> made_for type v s.
Proof.
  intros Hh. destruct (is_context type); [|done]. destruct v as [|t x]; [done|]. cbn [instance_of]. destruct (jeqb t type || _) eqn:E; [|done]. intros [= ->].
  exists t. split_and!; [done|done|]. apply orb_true_iff in E as [E|E]; [left; by apply jeqb_true|right]. apply andb_true_iff in E as [E1%jeqb_true E2%jeqb_true]. done.
Qed.
Lemma made_instance type v s : made_for type v s -> (if is_context type then instance_of v type else None) = Some s.
Proof.
  intros (t & -> & Ht & H). assert (Hc : is_context type = true).
  { apply bool_decide_eq_true. destruct H as [<-|[-> ->]]; [done|]. do 2 right. left. }
  rewrite Hc. cbn [instance_of]. destruct H as [->|[-> ->]]; [by rewrite jeqb_refl|]. by rewrite !jeqb_refl, orb_true_r.
Qed.

Lemma get_spec type v r : holder_ok v -> get type v = Ok r ->
  is_blank v = true /\ r = v \/
  (exists s, made_for type v s /\ r = SPlain (JStr s)) \/
  type = RESOURCE_URL /\ allowed (sce_text v) /\ r = v \/
  type = HTML /\ exists out, r = SPlain (JStr out) /\ safe_html links out.
Proof.
  intros Hh. unfold get, getTrusted. destruct (is_blank v) eqn:Eb; [intros [= <-]; by left|].
  destruct (if is_context type then instance_of v type else None) as [s|] eqn:Ei; [intros [= <-]; right; left; exists s; split; [by apply instance_made|done]|].
  destruct (jeqb type RESOURCE_URL) eqn:Er.
  - destruct (isResourceUrlAllowedByPolicy _ _ _ _) eqn:Ep; [|done]. intros [= <-]. right. right. left. split_and!; [by apply jeqb_true|by apply policy_spec|done].
  - destruct (jeqb type HTML) eqn:Eh; [|done]. cbn [htmlSanitizer]. unfold sanitize_service. destruct v as [v|]; [|done].
    destruct (sanitize_value _ _ v) as [[out|e]|] eqn:Es; [|done|done]. intros [= <-]. do 3 right. split; [by apply jeqb_true|]. exists out. split; [done|].
    by eapply sanitize_value_ok.
Qed.
Lemma trusted_given type v s : is_blank v = false -> made_for type v s -> get type v = Ok (SPlain (JStr s)).
Proof. intros Hb Hm. unfold get, getTrusted. by rewrite Hb, (made_instance _ _ _ Hm). Qed.

(** ** Links *)

(** A name of the list, after spaces and before a colon. *)
Definition has_scheme (names : list jstr) (url : jstr) : Prop :=
  exists sp name rest, url = sp ++ name ++ chr ":" :: rest /\ Forall (fun c => is_space c = true) sp /\ name ∈ names.
Lemma lang_text s u rest : lang (rtext s) u rest -> u = s.
Proof.
  revert u. induction s as [|x [|y s] IH]; intros u H; cbn [rtext] in H.
  - by inversion H.
  - inversion H as [? z ? Hz| | | | | | | |]; subst. by apply N.eqb_eq in Hz as <-.
  - inversion H as [| |? ? a b ? Ha Hb| | | | | |]; subst. inversion Ha as [? z ? Hz| | | | | | | |]; subst. apply N.eqb_eq in Hz as <-. by rewrite (IH b Hb).
Qed.
Lemma lang_alt l u rest : lang (ralt (map rtext l)) u rest -> l <> [] -> u ∈ l.
Proof.
  revert u. induction l as [|x [|y l] IH]; intros u H Hne; [done| |]; cbn [map ralt] in H.
  - apply lang_text in H as ->. left.
  - inversion H as [| | |? ? ? ? Ha|? ? ? ? Hb| | | |]; subst; [apply lang_text in Ha as ->; left|right; by apply IH].
Qed.
Lemma scheme_sound names url : names <> [] -> test_at (scheme names) url = true -> has_scheme names url.
Proof.
  intros Hne. unfold test_at. destruct (match_at _ url) as [[[m rest] c]|] eqn:E; [|done]. intros _. apply match_at_sound in E as [-> H].
  inversion H as [| |? ? sp b ? Hs Hb| | | | | |]; subst. inversion Hb as [| |? ? name x ? Hn Hx| | | | | |]; subst. inversion Hx as [? z ? Hz| | | | | | | |]; subst.
  apply N.eqb_eq in Hz as <-. exists sp, name, rest. split_and!; [by rewrite <- !app_assoc|by apply lang_class in Hs|by eapply lang_alt].
Qed.
Lemma links_spec uri isImage : old_ie = false -> links uri isImage = true ->
  a_href (urlResolve anchor uri) = [] \/ (if isImage then src_list else href_list) (a_href (urlResolve anchor uri)) = true.
Proof.
  intros Hi. unfold links, uri_validator, sanitizeUri. rewrite Hi. set (href := a_href _). destruct (bool_decide (href = [])) eqn:E; [intros _; left; by apply bool_decide_eq_true in E|].
  destruct ((if isImage then src_list else href_list) href); [intros _; by right|].
  assert (Es : starts_with (js "unsafe") (js "unsafe:" ++ href) = true) by exact (starts_with_app (js "unsafe") (js ":" ++ href)). cbn [negb andb]. by rewrite Es.
Qed.
End Trust.

Definition link_schemes : list jstr := [js "https"; js "http"; js "ftp"; js "mailto"; js "tel"; js "file"].
(** An anchor that finds every URL absolute. *)
Definition absolute (url : jstr) : anchor_url := AnchorUrl url (js "http:") (js "a") [] [] (js "a") [] (js "/").

(** C27. What [$sce.getTrusted] gives for a context, with ngSanitize and the whitelists of links as they are by default: a blank value; the text that
    the application trusted for this context, a resource URL being a URL as well; for a resource URL, a value whose address the policy allows; for
    HTML, the output of the sanitizer, which is safe; otherwise it throws.  What [trustAs] made is given back.  The links of that output resolve
    to nothing or to one of six schemes.  An image is accepted as soon as its address has [data:image/] anywhere, even in a script. *)
Theorem trusted_values anchor origin pol textContent type v :
  let gets := get anchor origin pol textContent false aHrefSanitizationWhitelist imgSrcSanitizationWhitelist in
  let accepted := links anchor false aHrefSanitizationWhitelist imgSrcSanitizationWhitelist in
  (forall r, holder_ok v -> gets type v = Ok r ->
     is_blank v = true /\ r = v \/ (exists s, made_for type v s /\ r = SPlain (JStr s)) \/
     type = RESOURCE_URL /\ allowed anchor origin pol (sce_text v) /\ r = v \/
     type = HTML /\ exists out, r = SPlain (JStr out) /\ safe_html accepted out) /\
  (forall s, trustAs type (JStr s) = Ok v -> s <> [] -> gets type v = Ok (SPlain (JStr s))) /\
  (forall uri, accepted uri false = true -> a_href (urlResolve anchor uri) = [] \/ has_scheme link_schemes (a_href (urlResolve anchor uri))) /\
  links absolute false aHrefSanitizationWhitelist imgSrcSanitizationWhitelist (js "javascript:alert(1)//data:image/") true = true.
Proof.
  intros gets accepted. split_and!.
  - intros r. apply get_spec.
  - intros s. unfold trustAs. destruct (is_context type) eqn:Ec; [|done]. cbn [negb]. destruct s as [|c s]; [done|]. cbn [is_blank]. intros [= <-] _.
    apply trusted_given; [done|]. exists type. split_and!; [done|by apply bool_decide_eq_true in Ec|by left].
  - intros uri H. apply links_spec in H as [H|H]; [by left| |reflexivity]. right. apply scheme_sound; [discriminate|exact H].
  - vm_compute. reflexivity.
Qed.

(** A markup for HTML, and a text trusted for CSS. *)
Lemma trusted_values_witness :
  let gets := get absolute (absolute []) default_policy plain_text false aHrefSanitizationWhitelist imgSrcSanitizationWhitelist in
  gets HTML (SPlain (jlit "<b onclick=c>a</b>")) = Ok (SPlain (jlit "<b>a</b>")) /\
  safe_html (links absolute false aHrefSanitizationWhitelist imgSrcSanitizationWhitelist) (js "<b>a</b>") /\
  gets CSS (SHolder CSS (js "d")) = Ok (SPlain (jlit "d")).
Proof.
  intros gets. assert (E : gets HTML (SPlain (jlit "<b onclick=c>a</b>")) = Ok (SPlain (jlit "<b>a</b>"))) by (vm_compute; reflexivity).
  split; [exact E|]. split.
  - destruct (trusted_values absolute (absolute []) default_policy plain_text HTML (SPlain (jlit "<b onclick=c>a</b>"))) as [H _].
    destruct (H _ I E) as [[Hb _]|[(s & (t & Ht & _) & _)|[(Ht & _)|(_ & out & Ho & Hs)]]]; [vm_compute in Hb; discriminate|discriminate|vm_compute in Ht; discriminate|].
    injection Ho as <-. exact Hs.
  - destruct (trusted_values absolute (absolute []) default_policy plain_text CSS (SHolder CSS (js "d"))) as (_ & H & _). apply H; [vm_compute; reflexivity|discriminate].
Defined.
